(* ===== verification/_CoqProject ===== *)
-Q . S2P
Prelude.v
Hex.v
Text.v
Base64.v
Json.v
JsonString.v
Rfc3339.v
JsonValue.v
Sha256.v
ChunkId.v
Merkle.v
FileSys.v
Store.v
ConcurrentPut.v
Reader.v
Chunker.v
FileMeta.v
Erasure.v
EcFile.v
Id.v
RoutingTable.v
Message.v
MessageJson.v
Node.v
Codec.v
WireSize.v
Transport.v
Sending.v
Service.v
Pending.v
PeerNet.v
Lookup.v
Files.v
Main.v
Safety.v
Peer.v
