(* ===== verification/Prelude.v ===== *)
(** * DecentFS: a verification development

    DecentFS is a peer-to-peer file store written in Go: files are cut into
    chunks that are stored under their SHA-256, described by metadata with a
    Merkle root, announced in a Kademlia table and fetched from other nodes by
    a JSON protocol over TCP. This library models its code under src/internal
    and src/cmd and proves what makes it correct, and records where it is not.

    ** Conventions

    A Go function is a Coq function on the same data. [int] and [int64] are
    integers with their wrap-around written out ([wrap64]); byte arrays are
    vectors, slices are lists, a slice or pointer that may be nil is an
    [option]. A function that can fail gives a [res]: [Ok], [Err] with the
    error the code builds ([EMsg], [EWrap] for [%w]), or [Panic]. A method that
    changes its receiver is a computation [M S A], a function from the state to
    the new state and a [res]; the state is returned on error paths too. Log
    lines are left out. What the outside decides (the clock, random bytes, the
    outcome of a system call, what a connection delivers) is an argument, part
    of a state, or a class.

    ** Files and the code they model

    - Prelude: results, errors, integers, bytes, computations that keep an
      invariant ([safe]).
    - Hex, Text, Base64, Sha256: what is used of encoding/hex, strings and
      strconv, encoding/base64 and crypto/sha256, executable.
    - Json, JsonString, Rfc3339, JsonValue: what is used of encoding/json: its
      scanner and printer, the escapes and UTF-8, the text of a time, and Go
      values in JSON.
    - ChunkId, Merkle (internal/storage/chunkid.go, merkle.go).
    - FileSys, Store (store.go): a directory whose system calls may fail, the
      interface [ChunkStore] as a class with its laws [ChunkStoreSpec], and
      [FSChunkStore] as the instance that satisfies them.
    - ConcurrentPut (store.go): overlapping [PutChunk] calls, system call by
      system call, any of which may fail.
    - Reader: [io.Reader], [bufio.Reader], [io.ReadFull] and [io.Writer].
    - Chunker, FileMeta (chunker.go, filemeta.go).
    - Erasure, EcFile (erasure.go, ec_chunk.go, ec_filemeta.go) over the class
      [ReedSolomon] for the third-party codec, its documented laws [RSCorrect]
      and [RSSafe], and an xor codec that satisfies them.
    - Id, RoutingTable (internal/dht/id.go, constants.go, routing_table.go).
    - Message, Node (node.go): the messages, the state of a node, and
      [HandleRPC] with one function per message type.
    - MessageJson (node.go): the JSON of a message, [Encode] and
      [DecodeMessage]. The other files use the class [MessageCodec], which it
      implements.
    - Codec (internal/p2p/codec.go, types.go): length-prefixed frames and the
      JSON of an RPC. WireSize: how large messages get.
    - Transport (internal/p2p/tcp_transport.go): the listeners and accept loops,
      the connection handlers, the [peers] map and the calls of [Send], down to
      the two writes of the encoder, as a machine whose actions are the
      statements of the goroutines. Sending: what calls of [Send] put on a
      connection, one after the other and overlapping, and what the transport
      at the other end makes of it.
    - Service (service.go, client.go): the read loop and the requests, over the
      class [Network] for the transport; goroutines run one after the other.
    - Pending (service.go): the same pending requests with every interleaving
      of the read loop and the requesting goroutines.
    - Lookup (lookup.go), Files (service.go): the iterative lookup, announcing,
      finding, replicating, storing and downloading files.
    - Main (cmd/node/main.go): the erasure-coding flag and the control flow of
      the command.
    - PeerNet, Peer: a network with one other node, whose payloads pass through
      the frames of Codec in both directions, and both ends of a download.
    - Safety: which operations keep the invariants, and what makes the command
      panic.

    ** What the theorems show

    - Storage: the chunk loop stores exactly the fixed-size pieces of the
      stream, for every pattern of short reads, and reading back gives them;
      the Merkle root is that of the binary tree that carries an odd last node
      up, it binds the chunks of trees of one size, and it does not tell a
      level of nodes from a list of chunks; a chunk file never has the wrong
      contents, whatever system call fails and wherever a write is cut short;
      overlapping puts of one chunk can show it torn: only for a while when
      every write succeeds, for good when the write of one of them fails. A
      chunk size for which there is no buffer makes storing panic.
    - Erasure coding: any [DataShards] shards give back the data, files come
      back after any loss that leaves enough shards of every chunk, and equal
      shards of one block share one stored chunk, so that one loss can be fatal.
    - Kademlia: the xor metric, the routing table and its least-recently-seen
      order as a refinement of the history of contacts, the K closest contacts.
    - Node: [HandleRPC] keeps the node's invariant on every payload and answers
      each request with its own kind of message.
    - Protocol: every message the program builds comes back from its JSON; which
      chunks and files fit a frame; frames survive any splitting and arbitrary
      input is safe; the transport keeps its map right and delivers in order,
      and end to end what calls of [Send] wrote one after the other; two calls
      that overlap can destroy each other's message. No schedule of the waiting
      requests panics, blocks or hands a message to the wrong request.
    - Service: the rounds of a lookup, and the K closest known contacts it ends
      with; a download writes only verified data; a file whose chunks and
      metadata fit a frame, stored on one node, is downloaded from it exactly;
      the root itself is not verified. Given a transport that returns and a
      random source that answers, whatever arrives from the network leaves the
      command with a correct node and an exit of its own; it panics when a file
      is stored with a chunk size for which there is no buffer, and otherwise
      not. It ends after [-store-file].

    ** Bounds and fuel

    Loops over readers take their fuel from the reader ([bufio_measure],
    [reader_size]: what is still to be read, counted with the calls), and every
    such loop is shown to end before it runs out; where it would run out the
    function gives [Panic], which the theorems exclude. The JSON parser's fuel is
    the length of the text, and more of it changes nothing. The lookup's five
    rounds, [K] = 20, [Alpha] = 3, the channel's capacity of 1024, the 4 MB
    limit of a frame and the 255 shards are the code's; [maxAlloc], the largest
    buffer [make] gives, is that of a 64-bit system. That 2 MiB of data and 15000
    chunks of metadata fit a frame is what WireSize derives of the JSON.

    ** Not modelled

    - Of encoding/json: the texts of its errors, and the reuse of a slice's old
      elements when one object names the same slice twice. Times are written in
      the zone of a parameter ([LocalZone]).
    - The Reed-Solomon codec (klauspost/reedsolomon), a third-party package.
    - In Service and what is built on it the goroutines run one after the other
      and a connection is an input; their interleavings are those of Pending,
      Transport, Sending and ConcurrentPut. The connection of PeerNet neither
      fails nor closes.
    - Running out of memory, below the size that [make] refuses.
    - TLS, sockets, the flag package and logging. The mutexes of the routing
      table and the node make their operations atomic and are left out.
    - [sort.Slice] and the iteration order of maps are classes ([SortSlice],
      [MapOrder]) with what the language promises of them.
*)

From stdpp Require Export base tactics list strings gmap vector pretty numbers countable.
From Stdlib Require Export Strings.Byte Init.Byte.
From stdpp Require Import options.

(** ** Automation *)

(** Turn boolean comparisons of the code's guards into arithmetic. *)
Ltac bool_to_Prop :=
  repeat match goal with
  | H : (_ && _)%bool = true |- _ => apply andb_true_iff in H as [??]
  | H : (_ && _)%bool = false |- _ => apply andb_false_iff in H
  | H : (_ || _)%bool = true |- _ => apply orb_true_iff in H
  | H : (_ || _)%bool = false |- _ => apply orb_false_iff in H as [??]
  | H : _ = true ∨ _ = true |- _ => destruct H
  | H : _ = false ∨ _ = false |- _ => destruct H
  | H : negb _ = true |- _ => apply negb_true_iff in H
  | H : negb _ = false |- _ => apply negb_false_iff in H
  | H : (_ <? _)%N = true |- _ => apply N.ltb_lt in H
  | H : (_ <? _)%N = false |- _ => apply N.ltb_ge in H
  | H : (_ <=? _)%N = true |- _ => apply N.leb_le in H
  | H : (_ <=? _)%N = false |- _ => apply N.leb_gt in H
  | H : (_ =? _)%N = true |- _ => apply N.eqb_eq in H
  | H : (_ =? _)%N = false |- _ => apply N.eqb_neq in H
  | H : (_ <? _)%Z = true |- _ => apply Z.ltb_lt in H
  | H : (_ <? _)%Z = false |- _ => apply Z.ltb_ge in H
  | H : (_ <=? _)%Z = true |- _ => apply Z.leb_le in H
  | H : (_ <=? _)%Z = false |- _ => apply Z.leb_gt in H
  | H : (_ =? _)%Z = true |- _ => apply Z.eqb_eq in H
  | H : (_ =? _)%Z = false |- _ => apply Z.eqb_neq in H
  | H : (_ <? _)%nat = true |- _ => apply Nat.ltb_lt in H
  | H : (_ <? _)%nat = false |- _ => apply Nat.ltb_ge in H
  | H : (_ <=? _)%nat = true |- _ => apply Nat.leb_le in H
  | H : (_ <=? _)%nat = false |- _ => apply Nat.leb_gt in H
  | H : (_ =? _)%nat = true |- _ => apply Nat.eqb_eq in H
  | H : (_ =? _)%nat = false |- _ => apply Nat.eqb_neq in H
  end.
Ltac bool_lia := bool_to_Prop; try lia.

(** ** Go's [int] and [int64]: two's complement, 64 bits *)

Definition wrap64 (z : Z) : Z := ((z + 2 ^ 63) `mod` 2 ^ 64 - 2 ^ 63)%Z.

(** [z] is a value of type [int] (equivalently [int64]). *)
Definition is_int (z : Z) : Prop := (- 2 ^ 63 ≤ z < 2 ^ 63)%Z.

Lemma wrap64_is_int z : is_int (wrap64 z).
Proof.
  unfold is_int, wrap64.
  pose proof (Z.mod_pos_bound (z + 2 ^ 63) (2 ^ 64) ltac:(lia))%Z. lia.
Qed.

Lemma wrap64_id z : is_int z → wrap64 z = z.
Proof. unfold is_int, wrap64. intros. rewrite Z.mod_small; lia. Qed.

(** ** Bytes *)

Notation byte := Byte.byte.
Notation ascii := Ascii.ascii.
Notation bytes := (list byte).

Definition byteN (b : byte) : N := Byte.to_N b.

(** Conversion to [byte] keeps the low eight bits, as Go's [byte(x)] does. *)
Definition byte_of_N (n : N) : byte :=
  match Byte.of_N (n `mod` 256)%N with Some b => b | None => x00 end.

Lemma byteN_lt b : (byteN b < 256)%N.
Proof. unfold byteN. pose proof (Byte.to_N_bounded b). lia. Qed.

Lemma byteN_of_N n : byteN (byte_of_N n) = (n `mod` 256)%N.
Proof.
  unfold byteN, byte_of_N.
  pose proof (N.mod_lt n 256 ltac:(done)).
  destruct (Byte.of_N (n `mod` 256)%N) as [b|] eqn:E.
  - by apply Byte.to_of_N.
  - apply Byte.of_N_None_iff in E. lia.
Qed.

Lemma byte_of_byteN b : byte_of_N (byteN b) = b.
Proof.
  unfold byte_of_N. rewrite N.mod_small by apply byteN_lt.
  unfold byteN. by rewrite Byte.of_to_N.
Qed.

#[export] Instance byteN_inj : Inj (=) (=) byteN.
Proof. intros a b H. by rewrite <-(byte_of_byteN a), <-(byte_of_byteN b), H. Qed.

#[export] Instance byte_eq_dec : EqDecision byte.
Proof. exact Byte.byte_eq_dec. Defined.

#[export] Instance byte_countable : Countable byte.
Proof.
  refine (inj_countable' byteN byte_of_N _). apply byte_of_byteN.
Defined.

(** [a ^ b] on bytes. *)
Definition byte_xor (a b : byte) : byte := byte_of_N (N.lxor (byteN a) (byteN b)).

Lemma lxor_lt_256 a b : (a < 256 → b < 256 → N.lxor a b < 256)%N.
Proof.
  intros Ha Hb. destruct (decide (N.lxor a b = 0)%N) as [->|Hne]; [done|].
  apply (N.log2_lt_pow2 (N.lxor a b) 8); [lia|].
  pose proof (N.log2_lxor a b).
  assert (∀ x, x < 256 → N.log2 x < 8)%N as Hlog.
  { intros x Hx. destruct (decide (x = 0)%N) as [->|]; [done|].
    apply (N.log2_lt_pow2 x 8); [lia|done]. }
  pose proof (Hlog a Ha). pose proof (Hlog b Hb). lia.
Qed.

Lemma byteN_xor a b : byteN (byte_xor a b) = N.lxor (byteN a) (byteN b).
Proof.
  unfold byte_xor. rewrite byteN_of_N. apply N.mod_small.
  apply lxor_lt_256; apply byteN_lt.
Qed.

(** ** Errors and results *)

(** Go's [error] values. [EMsg s] is [errors.New(s)] or [fmt.Errorf] without
    [%w]; [EWrap c e] is [fmt.Errorf(c + ": %w", e)]; the others are the
    sentinel values the code compares with. *)
Inductive error :=
  | EMsg (s : string)
  | EWrap (ctx : string) (e : error)
  | EEOF
  | EUnexpectedEOF
  | ENotExist.

#[export] Instance error_eq_dec : EqDecision error.
Proof. solve_decision. Defined.

(** [err.Error()]. *)
Fixpoint Error (e : error) : string :=
  match e with
  | EMsg s => s
  | EWrap c e => c +:+ ": " +:+ Error e
  | EEOF => "EOF"
  | EUnexpectedEOF => "unexpected EOF"
  | ENotExist => "file does not exist"
  end.

(** What a Go call returns: a value, an error, or a run-time panic. *)
Inductive res (A : Type) :=
  | Ok (a : A)
  | Err (e : error)
  | Panic.
Arguments Ok {A} a.
Arguments Err {A} e.
Arguments Panic {A}.

#[export] Instance res_ret : MRet res := λ A a, Ok a.
#[export] Instance res_bind : MBind res := λ A B f m,
  match m with Ok a => f a | Err e => Err e | Panic => Panic end.
#[export] Instance res_fmap : FMap res := λ A B f m,
  match m with Ok a => Ok (f a) | Err e => Err e | Panic => Panic end.

(** [if err != nil { return fmt.Errorf(c + ": %w", err) }]. *)
Definition wrap_err {A} (c : string) (m : res A) : res A :=
  match m with Err e => Err (EWrap c e) | m => m end.

Definition is_ok {A} (m : res A) : bool :=
  match m with Ok _ => true | _ => false end.

(** State passing: a method that may change its receiver and may fail. The
    state is returned on every path, error paths included. *)
Definition M (S A : Type) : Type := S → S * res A.

#[export] Instance M_ret {S} : MRet (M S) := λ A a s, (s, Ok a).
#[export] Instance M_bind {S} : MBind (M S) := λ A B f m s,
  match m s with
  | (s', Ok a) => f a s'
  | (s', Err e) => (s', Err e)
  | (s', Panic) => (s', Panic)
  end.

Definition fail {S A} (e : error) : M S A := λ s, (s, Err e).
Definition wrap_errM {S A} (c : string) (m : M S A) : M S A := λ s,
  match m s with (s', r) => (s', wrap_err c r) end.

Lemma wrap_err_Ok {A} c (m : res A) a : wrap_err c m = Ok a ↔ m = Ok a.
Proof. destruct m; naive_solver. Qed.

Lemma res_bind_Ok {A B} (f : A → res B) m b :
  m ≫= f = Ok b ↔ ∃ a, m = Ok a ∧ f a = Ok b.
Proof. destruct m; naive_solver. Qed.

Lemma M_bind_Ok {S A B} (f : A → M S B) (m : M S A) s s' b :
  (m ≫= f) s = (s', Ok b) ↔ ∃ s1 a, m s = (s1, Ok a) ∧ f a s1 = (s', Ok b).
Proof. unfold mbind, M_bind. destruct (m s) as [s1 [a|e|]]; naive_solver. Qed.

Lemma wrap_errM_Ok {S A} c (m : M S A) s s' a :
  wrap_errM c m s = (s', Ok a) ↔ m s = (s', Ok a).
Proof.
  unfold wrap_errM. destruct (m s) as [s1 [|e|]]; naive_solver.
Qed.

(** ** Go's fixed-size byte arrays

    [[n]byte] is [vec byte n]. [copy_array n b] is
    [var a [n]byte; copy(a[:], b)]: missing bytes stay zero, extra bytes are
    dropped. *)
Fixpoint copy_array (n : nat) (b : bytes) : vec byte n :=
  match n with
  | O => [#]
  | S n' => match b with
            | [] => x00 ::: copy_array n' []
            | x :: b' => x ::: copy_array n' b'
            end
  end.

Lemma copy_array_list n b : length b = n → vec_to_list (copy_array n b) = b.
Proof.
  revert n. induction b as [|x b IH]; intros [|n] Hn; simpl in *; try lia; [done|].
  f_equal. apply IH. lia.
Qed.

Lemma copy_array_id {n} (v : vec byte n) : copy_array n (vec_to_list v) = v.
Proof.
  apply vec_to_list_inj2, copy_array_list, length_vec_to_list.
Qed.

#[export] Instance vec_to_list_inj {A n} : Inj (=) (=) (@vec_to_list A n).
Proof. intros v w. apply vec_to_list_inj2. Qed.

#[global] Arguments copy_array : simpl never.

(** Injectivity stated as lemmas: [injection] would compute hash values. *)
Lemma cons_inv {A} (a b : A) l k : a :: l = b :: k → a = b ∧ l = k.
Proof. by intros [= -> ->]. Qed.
Lemma Ok_inv {A} (a b : A) : Ok a = Ok b → a = b.
Proof. by intros [= ->]. Qed.

(** ** Safe computations

    [m] keeps the invariant [I], relates the state before and after by [R] and
    does not panic. *)
Section Safe.
Context {S : Type} (I : S → Prop) (R : relation S) `{!PreOrder R}.

Definition safe {A} (m : M S A) : Prop :=
  ∀ s, I s → I (m s).1 ∧ (m s).2 ≠ Panic ∧ R s (m s).1.

Lemma safe_bind {A B} (m : M S A) (f : A → M S B) :
  safe m → (∀ a, safe (f a)) → safe (m ≫= f).
Proof using Type*.
  intros Hm Hf s Hs. destruct (Hm s Hs) as (Hs1 & Hnp & HR).
  unfold mbind, M_bind. destruct (m s) as [s1 [a|e|]]; simpl in *; [|done|done].
  destruct (Hf a s1 Hs1) as (? & ? & ?). split_and!; [done|done|]. by transitivity s1.
Qed.

Lemma safe_ret {A} (a : A) : safe (mret a).
Proof using Type*. by intros s Hs. Qed.

Lemma safe_fail {A} e : safe (fail (A := A) e).
Proof using Type*. by intros s Hs. Qed.

Lemma safe_wrap {A} c (m : M S A) : safe m → safe (wrap_errM c m).
Proof.
  intros Hm s Hs. destruct (Hm s Hs) as (? & ? & ?). unfold wrap_errM.
  by destruct (m s) as [s' [a|e|]].
Qed.
End Safe.
