(* ===== verification/Hex.v ===== *)
(** * Hexadecimal text: what the program uses of [encoding/hex]

    [ID.String], [IDFromHex], [ChunkID.String] and [ChunkIDFromHex]
    (src/internal/dht/id.go, src/internal/storage/chunkid.go) are built on
    [hex.EncodeToString] and [hex.DecodeString], which this file models with
    their error values. *)

From S2P Require Import Prelude.
From stdpp Require Import options.
Local Open Scope N_scope.

Definition char (n : N) : ascii := Ascii.ascii_of_N n.
Definition code (a : ascii) : N := Ascii.N_of_ascii a.

(** The tables [hextable] and [reverseHexTable]; [None] is Go's [0xff]. *)
Definition hex_digit (n : N) : ascii :=
  if n <? 10 then char (48 + n) else char (87 + n).

Definition unhex (a : ascii) : option N :=
  let c := code a in
  if (48 <=? c) && (c <=? 57) then Some (c - 48)
  else if (97 <=? c) && (c <=? 102) then Some (c - 87)
  else if (65 <=? c) && (c <=? 70) then Some (c - 55)
  else None.

Fixpoint EncodeToString (b : bytes) : string :=
  match b with
  | [] => ""
  | x :: b' =>
      String (hex_digit (byteN x / 16))
        (String (hex_digit (byteN x `mod` 16)) (EncodeToString b'))
  end.

(** ** [InvalidByteError.Error]: the [%#U] verb on a rune below 256 *)

Definition upper_digit (n : N) : ascii :=
  if n <? 10 then char (48 + n) else char (55 + n).

(** [strconv.IsPrint] on Latin-1. *)
Definition is_print (c : N) : bool :=
  ((32 <=? c) && (c <? 127)) || ((161 <=? c) && (c <=? 255) && negb (c =? 173)).

(** UTF-8 encoding of a rune below 256. *)
Definition utf8 (c : N) : string :=
  if c <? 128 then String (char c) ""
  else String (char (192 + c / 64)) (String (char (128 + c `mod` 64)) "").

Definition sharp_U (c : N) : string :=
  "U+00" +:+ String (upper_digit (c / 16)) (String (upper_digit (c `mod` 16))
    (if is_print c then " '" +:+ utf8 c +:+ "'" else "")).

Definition InvalidByteError (a : ascii) : error :=
  EMsg ("encoding/hex: invalid byte: " +:+ sharp_U (code a)).
Definition ErrLength : error := EMsg "encoding/hex: odd length hex string".

(** Pairs are decoded from the left; a bad digit is reported before an odd
    length. *)
Fixpoint DecodeString (s : string) : res bytes :=
  match s with
  | "" => Ok []
  | String p "" =>
      match unhex p with None => Err (InvalidByteError p) | Some _ => Err ErrLength end
  | String p (String q s') =>
      match unhex p, unhex q with
      | None, _ => Err (InvalidByteError p)
      | Some _, None => Err (InvalidByteError q)
      | Some a, Some b =>
          rest ← DecodeString s'; Ok (byte_of_N (16 * a + b) :: rest)
      end
  end%string.

(** ** Facts *)

(** Induction two characters at a time, the way [DecodeString] recurses. *)
Lemma string_pair_ind (P : string → Prop) :
  P EmptyString → (∀ a, P (String a EmptyString)) →
  (∀ a b s, P s → P (String a (String b s))) → ∀ s, P s.
Proof.
  intros H0 H1 H2. fix IH 1. intros [|a [|b s]]; [done|done|]. apply H2, IH.
Qed.

Definition is_hex (a : ascii) : bool := if unhex a then true else false.

(** [strings.ToLower] on one hexadecimal digit. *)
Definition lower (a : ascii) : ascii :=
  let c := code a in if (65 <=? c) && (c <=? 90) then char (c + 32) else a.
Fixpoint ToLower (s : string) : string :=
  match s with "" => "" | String a s' => String (lower a) (ToLower s') end%string.
Fixpoint all_hex (s : string) : bool :=
  match s with "" => true | String a s' => is_hex a && all_hex s' end%string.

Lemma unhex_hex_digit n : n < 16 → unhex (hex_digit n) = Some n.
Proof.
  intros Hn. rewrite <-(N2Nat.id n). assert (N.to_nat n < 16)%nat as Hk by lia.
  revert Hk. generalize (N.to_nat n) as k. intros k Hk.
  do 16 (destruct k as [|k]; [by vm_compute|]). lia.
Qed.

Lemma hex_digit_unhex a n : unhex a = Some n → hex_digit n = lower a ∧ n < 16.
Proof.
  unfold unhex, hex_digit, lower. intros H.
  assert (char (code a) = a) as Ha by apply Ascii.ascii_N_embedding.
  repeat case_match; simplify_eq; bool_lia;
    (split; [|lia]); try (f_equal; lia); rewrite <-Ha at 2; f_equal; lia.
Qed.

Lemma byte_split_hex x :
  byte_of_N (16 * (byteN x / 16) + byteN x `mod` 16) = x.
Proof. rewrite <-N.div_mod by done. apply byte_of_byteN. Qed.

Lemma Decode_Encode b : DecodeString (EncodeToString b) = Ok b.
Proof.
  induction b as [|x b IH]; simpl; [done|].
  pose proof (byteN_lt x).
  rewrite !unhex_hex_digit, IH, byte_split_hex; [done|..].
  - by apply N.mod_lt.
  - apply N.Div0.div_lt_upper_bound; lia.
Qed.

#[export] Instance EncodeToString_inj : Inj (=) (=) EncodeToString.
Proof.
  intros b b' H. pose proof (Decode_Encode b) as E.
  rewrite H, Decode_Encode in E. by injection E.
Qed.

Lemma length_Encode b : String.length (EncodeToString b) = (2 * length b)%nat.
Proof. induction b; simpl; lia. Qed.

Lemma length_Decode s b : DecodeString s = Ok b → String.length s = (2 * length b)%nat.
Proof.
  revert b. induction s as [|a|p q s IH] using string_pair_ind; intros b; simpl.
  - by intros [= <-].
  - by destruct (unhex a).
  - destruct (unhex p), (unhex q); try done.
    destruct (DecodeString s) as [r|e|]; simpl; try done.
    intros [= <-]. simpl. rewrite (IH r) by done. lia.
Qed.

(** Decoding then encoding normalises the case of the digits. *)
Lemma Encode_Decode s b : DecodeString s = Ok b → EncodeToString b = ToLower s.
Proof.
  revert b. induction s as [|a|p q s IH] using string_pair_ind; intros b; simpl.
  - by intros [= <-].
  - by destruct (unhex a).
  - destruct (unhex p) as [x|] eqn:Hp, (unhex q) as [y|] eqn:Hq; try done.
    apply hex_digit_unhex in Hp as [Hp ?], Hq as [Hq ?].
    destruct (DecodeString s) as [r|e|]; simpl; try done.
    intros [= <-]. simpl. rewrite byteN_of_N, N.mod_small by lia.
    rewrite (N.mul_comm 16), N.div_add_l, N.div_small, N.add_0_r by lia.
    rewrite (N.add_comm _ y), N.Div0.mod_add, N.mod_small, Hp, Hq, (IH r) by done.
    done.
Qed.

(** Decoding succeeds exactly on an even number of hexadecimal digits. *)
Lemma Decode_ok_iff s :
  is_ok (DecodeString s) = all_hex s && Nat.even (String.length s).
Proof.
  induction s as [|a|p q s IH] using string_pair_ind; simpl.
  - done.
  - unfold is_hex. by destruct (unhex a).
  - unfold is_hex. destruct (unhex p), (unhex q); try done. simpl.
    rewrite <-IH. by destruct (DecodeString s).
Qed.

Lemma Decode_no_panic s : DecodeString s ≠ Panic.
Proof.
  induction s as [|a|p q s IH] using string_pair_ind; simpl; [done|by destruct (unhex a)|].
  destruct (unhex p), (unhex q); try done. by destruct (DecodeString s).
Qed.
