(* ===== verification/Text.v ===== *)
(** * Text: what the program uses of [strings] and [strconv]

    [strings.TrimSpace], [strings.Split] with a separator of one byte, and
    [strconv.Atoi] with its error values; src/cmd/node/main.go uses them to
    read its flags. A Go string is its bytes. *)

From S2P Require Import Prelude Hex.
From stdpp Require Import list options.
Local Open Scope N_scope.

(** ** [strings.TrimSpace] *)

(** The length of the white-space character that the codes start with: the
    ASCII ones, then the UTF-8 encodings of U+0085, U+00A0, U+1680, U+2000 to
    U+200A, U+2028, U+2029, U+202F, U+205F and U+3000. *)
Definition space_len (l : list N) : nat :=
  match l with
  | a :: l1 =>
      if ((9 <=? a) && (a <=? 13)) || (a =? 32) then 1%nat
      else
        match l1 with
        | b :: l2 =>
            if (a =? 194) && ((b =? 133) || (b =? 160)) then 2%nat
            else
              match l2 with
              | c :: _ =>
                  if (a =? 225) && (b =? 154) && (c =? 128)
                  || (a =? 226) && (b =? 128)
                     && (((128 <=? c) && (c <=? 138)) || (c =? 168) || (c =? 169) || (c =? 175))
                  || (a =? 226) && (b =? 129) && (c =? 159)
                  || (a =? 227) && (b =? 128) && (c =? 128)
                  then 3%nat else 0%nat
              | [] => 0%nat
              end
        | [] => 0%nat
        end
  | [] => 0%nat
  end.

(** The same at the end of a text that is read backwards. *)
Definition space_len_rev (l : list N) : nat :=
  let fits n := bool_decide (space_len (rev (take n l)) = n) && (n <=? length l)%nat in
  if fits 1%nat then 1%nat else if fits 2%nat then 2%nat else if fits 3%nat then 3%nat else 0%nat.

Fixpoint trim (len : list N → nat) (fuel : nat) (l : list N) : list N :=
  match fuel with
  | O => l
  | S fuel' => match len l with O => l | n => trim len fuel' (drop n l) end
  end.

Definition codes (s : string) : list N := code <$> String.list_ascii_of_string s.
Definition of_codes (l : list N) : string := String.string_of_list_ascii (char <$> l).

Definition TrimSpace (s : string) : string :=
  let l := trim space_len (String.length s) (codes s) in
  of_codes (rev (trim space_len_rev (length l) (rev l))).

(** ** [strings.Split] *)

(** [strings.Split(s, string(sep))]: always at least one part. *)
Fixpoint Split (sep : ascii) (s : string) : list string :=
  match s with
  | "" => [""]
  | String a s' =>
      match Split sep s' with
      | [] => []
      | part :: rest =>
          if bool_decide (a = sep) then "" :: part :: rest else String a part :: rest
      end
  end.

(** ** [strconv.Atoi] *)

Inductive num_error := ErrSyntax | ErrRange.

Definition num_error_text (e : num_error) : string :=
  match e with ErrSyntax => "invalid syntax" | ErrRange => "value out of range" end.

Definition maxUint64 : N := 2 ^ 64 - 1.

(** The loop of [strconv.ParseUint(s, 10, 64)]. *)
Fixpoint parse_digits (n : N) (s : string) : num_error + N :=
  match s with
  | "" => inr n
  | String a s' =>
      if (48 <=? code a) && (code a <=? 57) then
        if (maxUint64 / 10 + 1 <=? n) then inl ErrRange
        else
          let n1 := n * 10 + (code a - 48) in
          if (maxUint64 <? n1) then inl ErrRange else parse_digits n1 s'
      else inl ErrSyntax
  end.

Definition ParseUint (s : string) : num_error + N :=
  match s with "" => inl ErrSyntax | _ => parse_digits 0 s end.

(** The cut-off of [strconv.ParseInt(s, 10, 64)]: an unsigned value over the
    range of [uint64] is over that of [int64]. *)
Definition signed (neg : bool) (r : num_error + N) : num_error + Z :=
  match r with
  | inl e => inl e
  | inr un =>
      if neg then if (2 ^ 63 <? un) then inl ErrRange else inr (- Z.of_N un)%Z
      else if (2 ^ 63 <=? un) then inl ErrRange else inr (Z.of_N un)
  end.

Definition ParseInt (s : string) : num_error + Z :=
  match s with
  | "" => inl ErrSyntax
  | String a s' =>
      if bool_decide (a = char 43) then signed false (ParseUint s')
      else if bool_decide (a = char 45) then signed true (ParseUint s')
      else signed false (ParseUint s)
  end.

(** [Quote] is [strconv.Quote], which quotes a text for an error message. *)
Definition Atoi (Quote : string → string) (s : string) : res Z :=
  match ParseInt s with
  | inl e => Err (EMsg ("strconv.Atoi: parsing " +:+ Quote s +:+ ": " +:+ num_error_text e))
  | inr z => Ok z
  end.

(** ** Texts *)

Lemma string_app_cons a s s' : String a s +:+ s' = String a (s +:+ s').
Proof. done. Qed.

Lemma string_app_assoc (a b c : string) : (a +:+ b) +:+ c = a +:+ b +:+ c.
Proof. induction a as [|x a IH]; [done|]. by rewrite !string_app_cons, IH. Qed.

Lemma string_app_nil (a : string) : a +:+ "" = a.
Proof. induction a as [|x a IH]; [done|]. by rewrite !string_app_cons, IH. Qed.

Lemma list_ascii_app a b :
  String.list_ascii_of_string (a +:+ b) = String.list_ascii_of_string a ++ String.list_ascii_of_string b.
Proof.
  induction a as [|x a IH]; [done|]. rewrite string_app_cons.
  change (x :: String.list_ascii_of_string (a +:+ b)
    = x :: String.list_ascii_of_string a ++ String.list_ascii_of_string b). by rewrite IH.
Qed.

(** ** Trimming *)

Lemma codes_of l : Forall (λ n, n < 256) l → codes (of_codes l) = l.
Proof.
  intros Hl. unfold codes, of_codes. rewrite String.list_ascii_of_string_of_list_ascii, <-list_fmap_compose.
  induction Hl as [|n l Hn Hl IH]; [done|]. cbn [fmap list_fmap]. rewrite IH. f_equal.
  by apply Ascii.N_ascii_embedding.
Qed.

Lemma of_codes_of s : of_codes (codes s) = s.
Proof.
  unfold codes, of_codes. rewrite <-list_fmap_compose.
  rewrite (list_fmap_ext _ id), list_fmap_id; [apply String.string_of_list_ascii_of_string|].
  intros i x _. apply Ascii.ascii_N_embedding.
Qed.

Lemma codes_app s s' : codes (s +:+ s') = codes s ++ codes s'.
Proof.
  induction s as [|a s IH]; [done|].
  change (code a :: codes (s +:+ s') = code a :: codes s ++ codes s'). by rewrite IH.
Qed.

Lemma length_codes s : length (codes s) = String.length s.
Proof.
  induction s as [|a s IH]; [done|]. change (S (length (codes s)) = S (String.length s)). by rewrite IH.
Qed.

(** A text of ASCII white space. *)
Definition is_blank (s : string) : bool :=
  forallb (λ a, ((9 <=? a) && (a <=? 13)) || (a =? 32)) (codes s).

Lemma trim_blank len b fuel l :
  (∀ a l', a ∈ b → len (a :: l') = 1%nat) → len l = 0%nat → (length b ≤ fuel)%nat →
  trim len fuel (b ++ l) = l.
Proof.
  revert fuel. induction b as [|a b IH]; intros fuel Hb Hl Hf.
  { destruct fuel; simpl; [done|]. by rewrite Hl. }
  destruct fuel as [|fuel]; [simpl in Hf; lia|]. cbn [app trim]. rewrite Hb by (left).
  cbn [drop]. apply IH; [|done|simpl in Hf; lia]. intros a' l' Ha. apply Hb. by right.
Qed.

Lemma blank_len a l : ((9 <=? a) && (a <=? 13)) || (a =? 32) = true → space_len (a :: l) = 1%nat.
Proof. intros Ha. unfold space_len. by rewrite Ha. Qed.

Lemma blank_len_rev a l : ((9 <=? a) && (a <=? 13)) || (a =? 32) = true → space_len_rev (a :: l) = 1%nat.
Proof.
  intros Ha. unfold space_len_rev. cbv zeta beta.
  change (rev (take 1 (a :: l))) with [a]. rewrite blank_len by done.
  by rewrite bool_decide_eq_true_2 by done.
Qed.

(** A text that neither starts nor ends with white space. *)
Definition trimmed (s : string) : Prop :=
  space_len (codes s) = 0%nat ∧ space_len_rev (rev (codes s)) = 0%nat.

Lemma TrimSpace_blank b s b' :
  is_blank b = true → is_blank b' = true → trimmed s → s ≠ "" →
  (∀ l, space_len (codes s ++ l) = 0%nat) →
  TrimSpace (b +:+ s +:+ b') = s.
Proof.
  intros Hb Hb' [Hs Hs'] _ Hpre. unfold TrimSpace. rewrite !codes_app.
  rewrite trim_blank; [|intros a l' Ha; apply blank_len|apply Hpre|].
  - rewrite rev_app_distr, trim_blank; [by rewrite rev_involutive, of_codes_of| |done|].
    + intros a l' Ha. apply blank_len_rev. unfold is_blank in Hb'. rewrite forallb_forall in Hb'.
      apply Hb', in_rev. by apply list_elem_of_In.
    + rewrite length_rev, length_app. lia.
  - unfold is_blank in Hb. rewrite forallb_forall in Hb. apply Hb. by apply list_elem_of_In.
  - rewrite <-!length_codes, !codes_app, !length_app. lia.
Qed.

(** ** Numbers *)

Lemma pretty_digit n : n < 10 → code (pretty_N_char n) = 48 + n.
Proof.
  intros Hn. assert (n ∈ [0;1;2;3;4;5;6;7;8;9]) as Hin.
  { rewrite !elem_of_cons. lia. }
  repeat (apply elem_of_cons in Hin as [->|Hin]; [done|]). by apply not_elem_of_nil in Hin.
Qed.

Lemma parse_digits_step n d s :
  d < 10 → n * 10 + d ≤ maxUint64 →
  parse_digits n (String (pretty_N_char d) s) = parse_digits (n * 10 + d) s.
Proof.
  intros Hd Hn. cbn [parse_digits]. rewrite pretty_digit by done.
  replace (48 + d - 48) with d by lia.
  rewrite (proj2 (N.leb_le 48 _)), (proj2 (N.leb_le _ 57)) by lia. cbn [andb].
  assert (n < maxUint64 / 10 + 1) as H1.
  { pose proof (N.Div0.div_le_mono (n * 10) maxUint64 10 ltac:(lia)) as H.
    rewrite N.div_mul in H by done. lia. }
  rewrite (proj2 (N.leb_gt _ _)), (proj2 (N.ltb_ge _ _)) by done. done.
Qed.

Lemma parse_pretty_go n s : n ≤ maxUint64 → parse_digits 0 (pretty_N_go n s) = parse_digits n s.
Proof.
  revert s. induction (N.lt_wf_0 n) as [n _ IH]; intros s Hn.
  destruct (decide (n = 0)) as [->|Hne]; [done|].
  assert (n / 10 < n) by (apply N.div_lt; lia).
  rewrite pretty_N_go_step, IH by lia. pose proof (N.mod_lt n 10 ltac:(done)) as Hm.
  pose proof (N.div_mod n 10 ltac:(done)) as Hdm.
  rewrite parse_digits_step by lia. f_equal. lia.
Qed.

Lemma parse_pretty n : n ≤ maxUint64 → parse_digits 0 (pretty n) = inr n.
Proof.
  intros Hn. unfold pretty, pretty_N. case_decide as E; [by subst|]. by rewrite parse_pretty_go.
Qed.

(** The first character of a number is a digit. *)
Lemma pretty_N_head (n : N) : ∃ d s, d < 10 ∧ pretty n = String (pretty_N_char d) s.
Proof.
  assert (∀ n s, 0 < n → ∃ d s', d < 10 ∧ pretty_N_go n s = String (pretty_N_char d) s') as Hgo.
  { clear n. intros n. induction (N.lt_wf_0 n) as [n _ IH]; intros s Hn.
    rewrite pretty_N_go_step by done. destruct (decide (n / 10 = 0)) as [->|Hne].
    - rewrite pretty_N_go_0. eexists _, _. split; [|done]. by apply N.mod_lt.
    - apply IH; [by apply N.div_lt|by apply N.neq_0_lt_0]. }
  unfold pretty, pretty_N. case_decide; [by exists 0, ""|]. apply Hgo. lia.
Qed.

Lemma digit_not c d : d < 10 → code c ≠ 48 + d → pretty_N_char d ≠ c.
Proof. intros Hd Hc <-. by rewrite pretty_digit in Hc. Qed.

(** [strconv.Atoi] reads what [fmt] writes for an [int]. *)
Lemma Atoi_pretty Quote z : is_int z → Atoi Quote (pretty z) = Ok z.
Proof.
  unfold is_int, Atoi. intros Hz. enough (ParseInt (pretty z) = inr z) as -> by done.
  assert (∀ n, n ≤ maxUint64 → ParseUint (pretty n) = inr n) as Hu.
  { intros n Hn. pose proof (parse_pretty n Hn). destruct (pretty_N_head n) as (d & s & _ & E).
    rewrite E in *. done. }
  assert (∀ n, (Z.of_N n < 2 ^ 63)%Z → ParseInt (pretty n) = inr (Z.of_N n)) as Hpos.
  { intros n Hn. pose proof (Hu n ltac:(unfold maxUint64; lia)) as HU.
    destruct (pretty_N_head n) as (d & s & Hd & E). rewrite E in *. unfold ParseInt.
    rewrite !bool_decide_eq_false_2 by (apply digit_not; [done|]; unfold code, char; cbn; lia).
    rewrite HU. unfold signed. by rewrite (proj2 (N.leb_gt _ _)) by lia. }
  destruct z as [|p|p]; [done|apply (Hpos (N.pos p)); lia|].
  change (pretty (Z.neg p)) with (String (char 45) (pretty (N.pos p))).
  unfold ParseInt. rewrite bool_decide_eq_false_2 by done. rewrite bool_decide_eq_true_2 by done.
  rewrite Hu by (unfold maxUint64; lia). unfold signed. by rewrite (proj2 (N.ltb_ge _ _)) by lia.
Qed.

Lemma ParseInt_int s z : ParseInt s = inr z → is_int z.
Proof.
  assert (∀ neg r, signed neg r = inr z → is_int z) as Hs.
  { intros neg [e|n]; [done|]. unfold is_int. simpl. destruct neg.
    - destruct (2 ^ 63 <? n) eqn:E; bool_to_Prop; intros; simplify_eq; lia.
    - destruct (2 ^ 63 <=? n) eqn:E; bool_to_Prop; intros; simplify_eq; lia. }
  unfold ParseInt. destruct s as [|a s]; [done|]. repeat case_bool_decide; apply Hs.
Qed.

(** A character that is visible ASCII ends the trimming on either side. *)
Lemma visible_len a l : 33 ≤ a < 128 → space_len (a :: l) = 0%nat.
Proof.
  intros Ha. unfold space_len.
  replace ((9 <=? a) && (a <=? 13) || (a =? 32)) with false by (symmetry; apply orb_false_iff;
    rewrite andb_false_iff, N.leb_gt, N.leb_gt, N.eqb_neq; lia).
  destruct l as [|b l]; [done|].
  rewrite (proj2 (N.eqb_neq a 194)), (proj2 (N.eqb_neq a 225)), (proj2 (N.eqb_neq a 226)),
    (proj2 (N.eqb_neq a 227)) by lia. by destruct l.
Qed.

Lemma space_len_last l a : 33 ≤ a < 128 → space_len (l ++ [a]) ≠ S (length l).
Proof.
  intros Ha. destruct l as [|b [|c [|d l]]].
  - cbn [app]. by rewrite visible_len.
  - cbn [app length]. unfold space_len. destruct (_ || _); [done|].
    rewrite (proj2 (N.eqb_neq a 133)), (proj2 (N.eqb_neq a 160)) by lia. by rewrite andb_false_r.
  - cbn [app length]. unfold space_len. destruct (_ || (b =? 32)); [done|].
    destruct ((b =? 194) && _); [done|].
    assert ((128 <=? a) = false) as E by (apply N.leb_gt; lia).
    rewrite E, (proj2 (N.eqb_neq a 128)), (proj2 (N.eqb_neq a 168)), (proj2 (N.eqb_neq a 169)),
      (proj2 (N.eqb_neq a 175)), (proj2 (N.eqb_neq a 159)) by lia.
    by rewrite ?andb_false_r, ?andb_false_l.
  - intros E. assert (∀ k, space_len k ≤ 3)%nat as H3.
    { intros k. unfold space_len. repeat case_match; lia. }
    specialize (H3 ((b :: c :: d :: l) ++ [a])). rewrite E in H3. simpl in H3. lia.
Qed.

Lemma visible_len_rev a l : 33 ≤ a < 128 → space_len_rev (a :: l) = 0%nat.
Proof.
  intros Ha. unfold space_len_rev. cbv zeta beta.
  assert (∀ n, bool_decide (space_len (rev (take (S n) (a :: l))) = S n) && (S n <=? length (a :: l))%nat = false) as Hn.
  { intros n. destruct (S n <=? length (a :: l))%nat eqn:E; [|by rewrite andb_false_r]. bool_to_Prop.
    rewrite andb_true_r. apply bool_decide_eq_false_2. cbn [take rev length] in *.
    pose proof (space_len_last (rev (take n l)) a Ha) as Hl.
    rewrite length_rev, length_take_le in Hl by lia. done. }
  by rewrite (Hn 0%nat), (Hn 1%nat), (Hn 2%nat).
Qed.

(** A text of visible ASCII at both ends, with white space around it. *)
Lemma TrimSpace_around b s b' a l a' l' :
  is_blank b = true → is_blank b' = true →
  codes s = a :: l → codes s = l' ++ [a'] → 33 ≤ a < 128 → 33 ≤ a' < 128 →
  TrimSpace (b +:+ s +:+ b') = s.
Proof.
  intros Hb Hb' Ha Ha' Hva Hva'. apply TrimSpace_blank; [done|done| | |].
  - split; [rewrite Ha; by apply visible_len|].
    rewrite Ha', rev_app_distr. by apply visible_len_rev.
  - intros ->. done.
  - intros k. rewrite Ha. by apply visible_len.
Qed.

(** ** Splitting *)

Lemma Split_without sep s : sep ∉ String.list_ascii_of_string s → Split sep s = [s].
Proof.
  induction s as [|a s IH]; [done|]. cbn. intros Hn.
  apply not_elem_of_cons in Hn as [Hne Hn]. rewrite (IH Hn). by rewrite bool_decide_eq_false_2.
Qed.

Lemma Split_once sep s s' :
  sep ∉ String.list_ascii_of_string s → sep ∉ String.list_ascii_of_string s' →
  Split sep (s +:+ String sep s') = [s; s'].
Proof.
  intros Hs Hs'. induction s as [|a s IH].
  - change ("" +:+ String sep s') with (String sep s'). cbn [Split]. rewrite (Split_without _ _ Hs'). by rewrite bool_decide_eq_true_2.
  - apply not_elem_of_cons in Hs as [Hne Hs].
    change (String a s +:+ String sep s') with (String a (s +:+ String sep s')). cbn [Split].
    rewrite (IH Hs). by rewrite bool_decide_eq_false_2.
Qed.

(** ** The characters of a number *)

Definition all_digits (s : string) : Prop :=
  Forall (λ a, 48 ≤ code a ≤ 57) (String.list_ascii_of_string s).

Lemma pretty_N_digits (n : N) : all_digits (pretty n).
Proof.
  assert (∀ n s, all_digits s → all_digits (pretty_N_go n s)) as Hgo.
  { clear n. intros n. induction (N.lt_wf_0 n) as [n _ IH]; intros s Hs.
    destruct (decide (n = 0)) as [->|Hne]; [done|]. rewrite pretty_N_go_step by lia.
    apply IH; [apply N.div_lt; lia|]. constructor; [|done].
    pose proof (N.mod_lt n 10 ltac:(done)) as Hm. cbn beta. rewrite pretty_digit by exact Hm. revert Hm. generalize (n `mod` 10). clear. intros m Hm. lia. }
  unfold pretty, pretty_N. case_decide; [by constructor; [vm_compute|constructor]|]. apply Hgo; constructor.
Qed.

(** A text of digits starts and ends with visible characters. *)
Definition visible_ends (s : string) : Prop :=
  ∃ a l a' l', codes s = a :: l ∧ codes s = l' ++ [a'] ∧ 33 ≤ a < 128 ∧ 33 ≤ a' < 128.

Lemma digits_ends s : all_digits s → s ≠ "" → visible_ends s.
Proof.
  intros Hd Hne. assert (Forall (λ c, 33 ≤ c < 128) (codes s)) as Hc.
  { apply Forall_fmap. eapply Forall_impl; [exact Hd|]. intros a Ha. cbn beta in Ha.
    change (33 <= code a < 128). lia. }
  destruct s as [|a s]; [done|]. destruct (exists_last (l := codes (String a s))) as (l' & a' & E); [done|].
  rewrite E in Hc. apply Forall_app in Hc as [_ Ha']. apply List.Forall_cons_iff in Ha' as [Ha' _].
  exists (code a), (codes s), a', l'. split_and!; [done|done| | |..];
    try (apply List.Forall_cons_iff in Hd as [Hd _]; lia); apply Ha'.
Qed.

Lemma visible_ends_app s s' m : visible_ends s → visible_ends s' → visible_ends (s +:+ m +:+ s').
Proof.
  intros (a & l & _ & _ & Ha & _ & Hva & _) (_ & _ & a' & l' & _ & Ha' & _ & Hva').
  exists a, (l ++ codes m ++ codes s'), a', (codes s ++ codes m ++ l').
  rewrite !codes_app. split_and!; [by rewrite Ha|by rewrite Ha', <-!app_assoc|apply Hva..|apply Hva'|apply Hva'].
Qed.

Lemma TrimSpace_ends b s b' :
  is_blank b = true → is_blank b' = true → visible_ends s → TrimSpace (b +:+ s +:+ b') = s.
Proof. intros Hb Hb' (a & l & a' & l' & H1 & H2 & H3 & H4). by eapply TrimSpace_around. Qed.

Lemma Atoi_pretty_N Quote (n : N) : is_int (Z.of_N n) → Atoi Quote (pretty n) = Ok (Z.of_N n).
Proof.
  intros Hn. pose proof (Atoi_pretty Quote (Z.of_N n) Hn) as H. destruct n as [|n]; exact H.
Qed.

Lemma TrimSpace_right s b : is_blank b = true → visible_ends s → TrimSpace (s +:+ b) = s.
Proof. intros Hb Hs. by apply (TrimSpace_ends "" s b). Qed.

Lemma TrimSpace_left b s : is_blank b = true → visible_ends s → TrimSpace (b +:+ s) = s.
Proof. intros Hb Hs. rewrite <-(string_app_nil s) at 1. by apply (TrimSpace_ends b s ""). Qed.
