(* ===== verification/Base64.v ===== *)
(** * Base64: what the program uses of encoding/base64

    [encoding/json] writes a [[]byte] as a text in [base64.StdEncoding] and
    reads it back with [Decode], which passes over line breaks. *)

From S2P Require Import Prelude.
From stdpp Require Import list options.
Local Open Scope N_scope.

(** The character of six bits. *)
Definition b64_char (n : N) : byte :=
  byte_of_N
    (if n <? 26 then 65 + n else if n <? 52 then 71 + n else if n <? 62 then n - 4
     else if n =? 62 then 43 else 47).

Definition b64_value (b : byte) : option N :=
  let c := byteN b in
  if (65 <=? c) && (c <=? 90) then Some (c - 65)
  else if (97 <=? c) && (c <=? 122) then Some (c - 71)
  else if (48 <=? c) && (c <=? 57) then Some (c + 4)
  else if c =? 43 then Some 62
  else if c =? 47 then Some 63
  else None.

Definition pad : byte := x3d.

(** [EncodeToString] *)
Fixpoint b64_encode (b : bytes) : bytes :=
  match b with
  | x :: y :: z :: b' =>
      let v := byteN x * 65536 + byteN y * 256 + byteN z in
      b64_char (v / 262144) :: b64_char ((v / 4096) `mod` 64) :: b64_char ((v / 64) `mod` 64)
        :: b64_char (v `mod` 64) :: b64_encode b'
  | [x; y] =>
      let v := byteN x * 65536 + byteN y * 256 in
      [b64_char (v / 262144); b64_char ((v / 4096) `mod` 64); b64_char ((v / 64) `mod` 64); pad]
  | [x] =>
      let v := byteN x * 65536 in
      [b64_char (v / 262144); b64_char ((v / 4096) `mod` 64); pad; pad]
  | [] => []
  end.

(** Groups of four characters, only the last one padded; the bits that the
    padding leaves over are not looked at. *)
Fixpoint b64_groups (s : bytes) : option bytes :=
  match s with
  | [] => Some []
  | c1 :: c2 :: c3 :: c4 :: s' =>
      a ← b64_value c1; b ← b64_value c2;
      if bool_decide (c4 = pad) then
        match s' with
        | [] =>
            if bool_decide (c3 = pad) then Some [byte_of_N ((a * 262144 + b * 4096) / 65536)]
            else
              c ← b64_value c3;
              let v := a * 262144 + b * 4096 + c * 64 in
              Some [byte_of_N (v / 65536); byte_of_N (v / 256)]
        | _ => None
        end
      else
        c ← b64_value c3; d ← b64_value c4;
        let v := a * 262144 + b * 4096 + c * 64 + d in
        rest ← b64_groups s';
        Some (byte_of_N (v / 65536) :: byte_of_N (v / 256) :: byte_of_N v :: rest)
  | _ => None
  end.

Definition line_break (b : byte) : bool := (byteN b =? 10) || (byteN b =? 13).

Definition b64_decode (s : bytes) : option bytes := b64_groups (filter (λ b, line_break b = false) s).

(** ** The round trip *)

Definition b64_ok (b : byte) : bool :=
  match b64_value b with Some _ => true | None => bool_decide (b = pad) end.

Lemma b64_char_value n : n < 64 → b64_value (b64_char n) = Some n.
Proof.
  intros Hn. assert (Forall (λ n, b64_value (b64_char (N.of_nat n)) = Some (N.of_nat n)) (seq 0 64)) as H.
  { by apply (bool_decide_unpack _); vm_compute. }
  rewrite Forall_forall in H. specialize (H (N.to_nat n)). rewrite N2Nat.id in H.
  apply H, elem_of_seq. lia.
Qed.

Lemma b64_char_not_pad n : n < 64 → b64_char n ≠ pad.
Proof. intros Hn E. apply b64_char_value in Hn. by rewrite E in Hn. Qed.

Ltac sixbits := zify; Z.to_euclidean_division_equations; lia.

Lemma byte_of_triple v x : v = byteN x ∨ v `mod` 256 = byteN x → byte_of_N v = x.
Proof.
  intros Hv. rewrite <-(byte_of_byteN x). unfold byte_of_N. do 2 f_equal.
  pose proof (byteN_lt x). destruct Hv as [->|Hv]; [done|]. rewrite Hv. by rewrite N.mod_small.
Qed.

Lemma list_ind3 {A} (P : list A → Prop) :
  P [] → (∀ x, P [x]) → (∀ x y, P [x; y]) → (∀ x y z l, P l → P (x :: y :: z :: l)) → ∀ l, P l.
Proof.
  intros H0 H1 H2 H3. fix IH 1. intros [|x [|y [|z l]]]; [apply H0|apply H1|apply H2|apply H3, IH].
Qed.

Lemma b64_groups_encode b : b64_groups (b64_encode b) = Some b.
Proof.
  induction b as [|x|x y|x y z b IH] using list_ind3; [done|..]; cbn [b64_encode b64_groups].
  - pose proof (byteN_lt x). rewrite !b64_char_value by sixbits. cbn [mbind option_bind].
    rewrite !bool_decide_eq_true_2 by done. do 2 f_equal. apply byte_of_triple. left. sixbits.
  - pose proof (byteN_lt x). pose proof (byteN_lt y). rewrite !b64_char_value by sixbits. cbn [mbind option_bind].
    rewrite bool_decide_eq_true_2 by done. rewrite bool_decide_eq_false_2 by (apply b64_char_not_pad; sixbits).
    f_equal. f_equal; [|f_equal]; apply byte_of_triple; right; sixbits.
  - pose proof (byteN_lt x). pose proof (byteN_lt y). pose proof (byteN_lt z).
    rewrite !b64_char_value by sixbits. cbn [mbind option_bind].
    rewrite bool_decide_eq_false_2 by (apply b64_char_not_pad; sixbits). rewrite IH. cbn [mbind option_bind].
    rewrite (byte_of_triple _ x), (byte_of_triple _ y), (byte_of_triple _ z); [done|right; sixbits..].
Qed.

(** What is written is plain: letters, digits and three signs. *)
Lemma b64_char_ok n : n < 64 → b64_ok (b64_char n) = true.
Proof. intros Hn. unfold b64_ok. by rewrite b64_char_value. Qed.

Lemma b64_encode_ok b : Forall (λ c, b64_ok c = true) (b64_encode b).
Proof.
  assert (b64_ok pad = true) as Hp by done.
  induction b as [|x|x y|x y z b IH] using list_ind3; [done|..]; cbn [b64_encode].
  - pose proof (byteN_lt x). do 2 (apply Forall_cons; split; [apply b64_char_ok; sixbits|]). by repeat constructor.
  - pose proof (byteN_lt x). pose proof (byteN_lt y).
    do 3 (apply Forall_cons; split; [apply b64_char_ok; sixbits|]). by repeat constructor.
  - pose proof (byteN_lt x). pose proof (byteN_lt y). pose proof (byteN_lt z).
    do 4 (apply Forall_cons; split; [apply b64_char_ok; sixbits|]). exact IH.
Qed.

Lemma b64_ok_range c : b64_ok c = true → 43 ≤ byteN c ≤ 122 ∧ byteN c ≠ 60 ∧ byteN c ≠ 62 ∧ byteN c ≠ 92.
Proof. destruct c; intros H; try discriminate H; repeat split; vm_compute; discriminate. Qed.

Lemma filter_keeps {A} (P : A → Prop) `{∀ x, Decision (P x)} l : Forall P l → filter P l = l.
Proof. induction 1 as [|x l Hx Hl IH]; [done|]. by rewrite filter_cons_True, IH. Qed.

Lemma b64_decode_encode b : b64_decode (b64_encode b) = Some b.
Proof.
  unfold b64_decode. rewrite filter_keeps; [apply b64_groups_encode|].
  eapply Forall_impl; [apply b64_encode_ok|]. intros c Hc. apply b64_ok_range in Hc.
  unfold line_break. apply orb_false_iff. rewrite !N.eqb_neq. lia.
Qed.

Lemma length_b64_encode b : length (b64_encode b) = (4 * ((length b + 2) / 3))%nat.
Proof.
  induction b as [|x|x y|x y z b IH] using list_ind3; [done..|]. cbn [b64_encode length]. rewrite IH.
  replace (S (S (S (length b))) + 2)%nat with (length b + 2 + 1 * 3)%nat by lia.
  rewrite Nat.div_add by done. lia.
Qed.
