(* ===== verification/Json.v ===== *)
(** * JSON texts: what the program uses of encoding/json

    The syntax of [json.Unmarshal]'s scanner, nesting limit included, and the
    compact text that [json.Marshal] writes. A number or a string is kept as
    the text the scanner found, as encoding/json does: it is interpreted
    where a Go value is filled in (MessageJson.v). Offsets in error messages
    are not modelled: a text that is not JSON is [None]. *)

From S2P Require Import Prelude.
From stdpp Require Import list options.
Local Open Scope N_scope.

Unset Elimination Schemes.
Inductive json :=
  | JNull
  | JBool (b : bool)
  | JNum (text : bytes)
  | JStr (raw : bytes)                       (* what stands between the quotes *)
  | JArr (l : list json)
  | JObj (l : list (bytes * json)).
Set Elimination Schemes.

Lemma json_ind (P : json → Prop) :
  P JNull → (∀ b, P (JBool b)) → (∀ t, P (JNum t)) → (∀ r, P (JStr r)) →
  (∀ l, Forall P l → P (JArr l)) → (∀ l, Forall (λ kv, P kv.2) l → P (JObj l)) → ∀ j, P j.
Proof.
  intros Hn Hb Ht Hs Ha Ho. fix IH 1. intros [|b|t|r|l|l]; [done|done|done|done|apply Ha|apply Ho].
  - induction l as [|j l IHl]; constructor; [apply IH|exact IHl].
  - induction l as [|[k j] l IHl]; constructor; [apply IH|exact IHl].
Qed.

(** ** The scanner *)

Definition eqc (n : N) (c : byte) : bool := byteN c =? n.
Definition digit (c : byte) : bool := (48 <=? byteN c) && (byteN c <=? 57).
Definition white (c : byte) : bool := eqc 32 c || eqc 9 c || eqc 13 c || eqc 10 c.
Definition hex_digit (c : byte) : bool :=
  digit c || (97 <=? byteN c) && (byteN c <=? 102) || (65 <=? byteN c) && (byteN c <=? 70).

Fixpoint skip_white (s : bytes) : bytes :=
  match s with c :: r => if white c then skip_white r else s | [] => [] end.

Fixpoint strip (p s : bytes) : option bytes :=
  match p, s with
  | [], _ => Some s
  | a :: p', b :: s' => if bool_decide (a = b) then strip p' s' else None
  | _ :: _, [] => None
  end.

(** After the opening quote: the text up to the closing one, and the rest. *)
Fixpoint scan_string (s : bytes) : option (bytes * bytes) :=
  match s with
  | [] => None
  | c :: r =>
      if eqc 34 c then Some ([], r)
      else if eqc 92 c then
        match r with
        | e :: r1 =>
            if eqc 117 e then
              match r1 with
              | h1 :: h2 :: h3 :: h4 :: r2 =>
                  if hex_digit h1 && hex_digit h2 && hex_digit h3 && hex_digit h4 then
                    '(a, b) ← scan_string r2; Some (c :: e :: h1 :: h2 :: h3 :: h4 :: a, b)
                  else None
              | _ => None
              end
            else if existsb (λ n, eqc n e) [98; 102; 110; 114; 116; 92; 47; 34] then
              '(a, b) ← scan_string r1; Some (c :: e :: a, b)
            else None
        | [] => None
        end
      else if byteN c <? 32 then None
      else '(a, b) ← scan_string r; Some (c :: a, b)
  end.

(** [-? (0 | [1-9][0-9]* ) (\.[0-9]+)? ([eE][+-]?[0-9]+)?] *)
Fixpoint skip_digits (s : bytes) : bytes :=
  match s with c :: r => if digit c then skip_digits r else s | [] => [] end.

Definition digits_then (k : bytes → bool) (s : bytes) : bool :=
  match s with c :: r => digit c && k (skip_digits r) | [] => false end.

Definition exponent_ok (s : bytes) : bool :=
  match s with
  | [] => true
  | c :: r =>
      (eqc 101 c || eqc 69 c) &&
      digits_then (λ s', match s' with [] => true | _ => false end)
        (match r with d :: r' => if eqc 43 d || eqc 45 d then r' else r | [] => [] end)
  end.

Definition fraction_ok (s : bytes) : bool :=
  match s with c :: r => if eqc 46 c then digits_then exponent_ok r else exponent_ok s | [] => true end.

Definition number_ok (s : bytes) : bool :=
  let s := match s with c :: r => if eqc 45 c then r else s | [] => [] end in
  match s with
  | c :: r => if eqc 48 c then fraction_ok r else digit c && fraction_ok (skip_digits r)
  | [] => false
  end.

(** None of these can follow a number. *)
Definition number_char (c : byte) : bool :=
  digit c || eqc 43 c || eqc 45 c || eqc 46 c || eqc 101 c || eqc 69 c.

Fixpoint span_number (s : bytes) : bytes * bytes :=
  match s with
  | c :: r => if number_char c then let '(a, b) := span_number r in (c :: a, b) else ([], s)
  | [] => ([], [])
  end.

(** The elements of an array, after the opening bracket, with a parser for
    values; [n] bounds their number. *)
Fixpoint parse_elems (p : bytes → option (json * bytes)) (n : nat) (s : bytes) : option (list json * bytes) :=
  match n with
  | O => None
  | S n' =>
      '(v, r) ← p s;
      match skip_white r with
      | c :: r' =>
          if eqc 44 c then '(vs, r'') ← parse_elems p n' r'; Some (v :: vs, r'')
          else if eqc 93 c then Some ([v], r') else None
      | [] => None
      end
  end.

Fixpoint parse_members (p : bytes → option (json * bytes)) (n : nat) (s : bytes) :
    option (list (bytes * json) * bytes) :=
  match n with
  | O => None
  | S n' =>
      match skip_white s with
      | c :: r =>
          if eqc 34 c then
            '(k, r) ← scan_string r;
            match skip_white r with
            | c :: r =>
                if eqc 58 c then
                  '(v, r) ← p r;
                  match skip_white r with
                  | c :: r =>
                      if eqc 44 c then '(kvs, r') ← parse_members p n' r; Some ((k, v) :: kvs, r')
                      else if eqc 125 c then Some ([(k, v)], r) else None
                  | [] => None
                  end
                else None
            | [] => None
            end
          else None
      | [] => None
      end
  end.

(** One value and what follows it; [depth] is how far arrays and objects may
    still nest, [fuel] is at least the length of the text. *)
Fixpoint parse_value (fuel depth : nat) (s : bytes) : option (json * bytes) :=
  match fuel with
  | O => None
  | S fuel =>
      match skip_white s with
      | c :: r =>
          if eqc 34 c then '(a, b) ← scan_string r; Some (JStr a, b)
          else if eqc 91 c then
            match depth with
            | O => None
            | S depth =>
                match skip_white r with
                | c' :: r' =>
                    if eqc 93 c' then Some (JArr [], r')
                    else '(l, b) ← parse_elems (parse_value fuel depth) fuel r; Some (JArr l, b)
                | [] => None
                end
            end
          else if eqc 123 c then
            match depth with
            | O => None
            | S depth =>
                match skip_white r with
                | c' :: r' =>
                    if eqc 125 c' then Some (JObj [], r')
                    else '(l, b) ← parse_members (parse_value fuel depth) fuel r; Some (JObj l, b)
                | [] => None
                end
            end
          else if eqc 110 c then r ← strip [x75; x6c; x6c] r; Some (JNull, r)
          else if eqc 116 c then r ← strip [x72; x75; x65] r; Some (JBool true, r)
          else if eqc 102 c then r ← strip [x61; x6c; x73; x65] r; Some (JBool false, r)
          else
            let '(a, b) := span_number (c :: r) in
            if number_ok a then Some (JNum a, b) else None
      | [] => None
      end
  end.

Definition maxNestingDepth : nat := Z.to_nat 10000.

Definition json_parse (s : bytes) : option json :=
  '(j, r) ← parse_value (length s) maxNestingDepth s;
  match skip_white r with [] => Some j | _ => None end.

(** ** The printer *)

Fixpoint commas (l : list bytes) : bytes :=
  match l with
  | [] => []
  | x :: l' => match l' with [] => x | _ => x ++ x2c :: commas l' end
  end.

Fixpoint json_print (j : json) : bytes :=
  match j with
  | JNull => [x6e; x75; x6c; x6c]
  | JBool true => [x74; x72; x75; x65]
  | JBool false => [x66; x61; x6c; x73; x65]
  | JNum t => t
  | JStr raw => x22 :: raw ++ [x22]
  | JArr l => x5b :: commas (map json_print l) ++ [x5d]
  | JObj l => x7b :: commas (map (λ '(k, v), x22 :: k ++ x22 :: x3a :: json_print v) l) ++ [x7d]
  end.

(** ** The scanner on what the printer writes *)

Definition string_ok (raw : bytes) : bool := bool_decide (scan_string (raw ++ [x22]) = Some (raw, [])).

(** Values whose parts are texts of the syntax. *)
Fixpoint wf (j : json) : bool :=
  match j with
  | JNull | JBool _ => true
  | JNum t => number_ok t
  | JStr raw => string_ok raw
  | JArr l => forallb wf l
  | JObj l => forallb (λ '(k, v), string_ok k && wf v) l
  end.

(** How deep arrays and objects nest. *)
Fixpoint height (j : json) : nat :=
  match j with
  | JArr l => S (foldr (λ x n, Nat.max (height x) n) 0%nat l)
  | JObj l => S (foldr (λ '(_, x) n, Nat.max (height x) n) 0%nat l)
  | _ => 0
  end.

Fixpoint size (j : json) : nat :=
  match j with
  | JArr l => S (foldr (λ x n, size x + n)%nat 0%nat l)
  | JObj l => S (foldr (λ '(_, x) n, size x + n)%nat 0%nat l)
  | _ => 1
  end.

Lemma bind_Some_inv {A B C} (m : option (A * B)) (f : A → B → option C) c :
  ('(a, b) ← m; f a b) = Some c → ∃ a b, m = Some (a, b) ∧ f a b = Some c.
Proof. destruct m as [[a b]|]; [by exists a, b|done]. Qed.

(** Scanning a string reads no further than its end. *)
Lemma scan_string_app s a b rest :
  scan_string s = Some (a, b) → scan_string (s ++ rest) = Some (a, b ++ rest).
Proof.
  revert a b. induction s as [s IH] using (induction_ltof1 _ length). unfold ltof in IH.
  intros a b. destruct s as [|c r]; [done|]. cbn [scan_string app].
  destruct (eqc 34 c); [by intros [= <- <-]|]. destruct (eqc 92 c).
  - destruct r as [|e r1]; [done|]. cbn [app]. destruct (eqc 117 e).
    + destruct r1 as [|h1 [|h2 [|h3 [|h4 r2]]]]; [done..|]. cbn [app]. destruct (_ && _); [|done].
      intros (a' & b' & H & [= <- <-])%bind_Some_inv.
      rewrite (IH r2) with (a := a') (b := b'); [done|simpl; lia|done].
    + destruct (existsb _ _); [|done]. intros (a' & b' & H & [= <- <-])%bind_Some_inv.
      rewrite (IH r1) with (a := a') (b := b'); [done|simpl; lia|done].
  - destruct (byteN c <? 32); [done|]. intros (a' & b' & H & [= <- <-])%bind_Some_inv.
    rewrite (IH r) with (a := a') (b := b'); [done|simpl; lia|done].
Qed.

Lemma scan_string_ok raw rest : string_ok raw = true → scan_string (raw ++ x22 :: rest) = Some (raw, rest).
Proof.
  intros H%bool_decide_eq_true. apply (scan_string_app _ _ _ rest) in H.
  by rewrite <-app_assoc in H.
Qed.

Lemma scan_string_shorter s a b : scan_string s = Some (a, b) → (length b < length s)%nat.
Proof.
  revert a b. induction s as [s IH] using (induction_ltof1 _ length). unfold ltof in IH.
  intros a b. destruct s as [|c r]; [done|]. cbn [scan_string].
  destruct (eqc 34 c); [intros [= <- <-]; simpl; lia|]. destruct (eqc 92 c).
  - destruct r as [|e r1]; [done|]. destruct (eqc 117 e).
    + destruct r1 as [|h1 [|h2 [|h3 [|h4 r2]]]]; [done..|]. destruct (_ && _); [|done].
      intros (a' & b' & H & [= <- <-])%bind_Some_inv. apply IH in H; simpl; lia.
    + destruct (existsb _ _); [|done]. intros (a' & b' & H & [= <- <-])%bind_Some_inv.
      apply IH in H; simpl; lia.
  - destruct (byteN c <? 32); [done|]. intros (a' & b' & H & [= <- <-])%bind_Some_inv.
    apply IH in H; simpl; lia.
Qed.

(** What may follow a number. *)
Definition stops (rest : bytes) : bool :=
  match rest with c :: _ => negb (number_char c) | [] => true end.

Lemma span_number_app t rest :
  Forall (λ c, number_char c = true) t → stops rest = true → span_number (t ++ rest) = (t, rest).
Proof.
  intros Ht Hr. induction Ht as [|c t Hc Ht IH]; cbn [app span_number].
  - destruct rest as [|c rest]; [done|]. simpl in *. by apply negb_true_iff in Hr as ->.
  - by rewrite Hc, IH.
Qed.

Lemma digit_number c : digit c = true → number_char c = true.
Proof. unfold number_char. by intros ->. Qed.

Lemma skip_digits_number s :
  Forall (λ c, number_char c = true) (skip_digits s) → Forall (λ c, number_char c = true) s.
Proof.
  induction s as [|c s IH]; [done|]. simpl. destruct (digit c) eqn:E; [|done].
  intros H. constructor; [by apply digit_number|by apply IH].
Qed.

Lemma number_ok_chars t : number_ok t = true → Forall (λ c, number_char c = true) t.
Proof.
  assert (∀ k s, (∀ s, k s = true → Forall (λ c, number_char c = true) s) →
            digits_then k s = true → Forall (λ c, number_char c = true) s) as Hd.
  { intros k [|c s] Hk; [done|]. simpl. intros [Hc H]%andb_true_iff.
    constructor; [by apply digit_number|by apply skip_digits_number, Hk]. }
  assert (∀ s, exponent_ok s = true → Forall (λ c, number_char c = true) s) as He.
  { intros [|c [|d r]]; [done|by intros [_ ?]%andb_true_iff|]. unfold exponent_ok.
    intros [Hc H]%andb_true_iff. constructor.
    { unfold number_char. apply orb_true_iff in Hc as [-> | ->]; by rewrite ?orb_true_r. }
    destruct (eqc 43 d || eqc 45 d) eqn:E.
    - constructor; [unfold number_char; apply orb_true_iff in E as [-> | ->]; by rewrite ?orb_true_r|].
      eapply Hd; [|exact H]. by intros [|].
    - eapply Hd; [|exact H]. by intros [|]. }
  assert (∀ s, fraction_ok s = true → Forall (λ c, number_char c = true) s) as Hf.
  { intros [|c r]; [done|]. unfold fraction_ok. destruct (eqc 46 c) eqn:E; [|apply He].
    intros H. constructor; [unfold number_char; rewrite E; by rewrite ?orb_true_r|].
    by eapply Hd. }
  assert (∀ s, match s with c :: r => if eqc 48 c then fraction_ok r else digit c && fraction_ok (skip_digits r)
               | [] => false end = true → Forall (λ c, number_char c = true) s) as Hn.
  { intros [|c r]; [done|]. destruct (eqc 48 c) eqn:E.
    - intros H%Hf. constructor; [|done]. apply digit_number. unfold digit, eqc in *. bool_to_Prop. by rewrite E.
    - intros [Hc H%Hf]%andb_true_iff. constructor; [by apply digit_number|by apply skip_digits_number]. }
  unfold number_ok. destruct t as [|c t]; [done|]. destruct (eqc 45 c) eqn:E; [|apply (Hn (c :: t))].
  intros H%(Hn t). constructor; [|done]. unfold number_char. rewrite E. by rewrite ?orb_true_r.
Qed.

Lemma number_ok_head t : number_ok t = true → ∃ c r, t = c :: r ∧ (eqc 45 c || digit c) = true.
Proof.
  destruct t as [|c r]; [done|]. intros H. exists c, r. split; [done|]. unfold number_ok in H.
  destruct (eqc 45 c); [done|]. destruct (eqc 48 c) eqn:E.
  - unfold eqc, digit in *. bool_to_Prop. by rewrite E.
  - by apply andb_true_iff in H as [-> _].
Qed.

(** ** The round trip *)

(** A value starts with a character that is neither white nor a bracket that
    closes. *)
Definition starts (s : bytes) : Prop :=
  ∃ c r, s = c :: r ∧ white c = false ∧ eqc 93 c = false ∧ eqc 125 c = false.

Lemma skip_white_starts s rest : starts s → skip_white (s ++ rest) = s ++ rest.
Proof. intros (c & r & -> & Hw & _). simpl. by rewrite Hw. Qed.

Lemma number_head_range c : (eqc 45 c || digit c) = true → 45 <= byteN c <= 57.
Proof. unfold eqc, digit. intros H. bool_to_Prop; lia. Qed.

Lemma print_starts j : wf j = true → starts (json_print j).
Proof.
  destruct j as [|[]|t|raw|l|l]; cbn [wf json_print]; intros Hj; try by (eexists _, _; split; [reflexivity|]).
  apply number_ok_head in Hj as (c & r & -> & Hc). exists c, r. apply number_head_range in Hc.
  unfold white, eqc. rewrite !orb_false_iff, !N.eqb_neq. repeat split; lia.
Qed.

Lemma parse_elems_print p n l rest :
  l ≠ [] → (length l <= n)%nat →
  Forall (λ j, ∀ rest, stops rest = true → p (json_print j ++ rest) = Some (j, rest)) l →
  parse_elems p n (commas (map json_print l) ++ x5d :: rest) = Some (l, rest).
Proof.
  intros Hne Hn Hl. revert n Hn. induction Hl as [|j l Hj Hl IH]; intros n Hn; [done|].
  destruct n as [|n]; [simpl in Hn; lia|]. cbn [map commas parse_elems]. destruct l as [|j' l].
  - cbn [map]. by rewrite Hj.
  - cbn [map]. rewrite <-app_assoc, <-app_comm_cons, Hj by done. cbn [mbind option_bind].
    change (skip_white (x2c :: ?s)) with (x2c :: s). cbn [eqc].
    change (eqc 44 x2c) with true. cbn iota. fold (map json_print (j' :: l)).
    change (json_print j' :: map json_print l) with (map json_print (j' :: l)).
    rewrite IH; [done|done|simpl in *; lia].
Qed.

Lemma parse_members_print p n l rest :
  l ≠ [] → (length l <= n)%nat →
  Forall (λ '(k, j), string_ok k = true ∧ ∀ rest, stops rest = true → p (json_print j ++ rest) = Some (j, rest)) l →
  parse_members p n (commas (map (λ '(k, v), x22 :: k ++ x22 :: x3a :: json_print v) l) ++ x7d :: rest)
  = Some (l, rest).
Proof.
  intros Hne Hn Hl. revert n Hn. induction Hl as [|[k j] l [Hk Hj] Hl IH]; intros n Hn; [done|].
  destruct n as [|n]; [simpl in Hn; lia|]. destruct l as [|kj' l].
  - cbn [map commas parse_members app skip_white].
    change (white x22) with false. change (eqc 34 x22) with true. cbn iota.
    rewrite <-app_assoc. cbn [app]. rewrite scan_string_ok by done. cbn [mbind option_bind skip_white].
    change (white x3a) with false. change (eqc 58 x3a) with true. cbn iota. by rewrite Hj.
  - cbn [map commas parse_members app skip_white].
    change (white x22) with false. change (eqc 34 x22) with true. cbn iota.
    rewrite <-!app_assoc. cbn [app]. rewrite scan_string_ok by done. cbn [mbind option_bind skip_white].
    change (white x3a) with false. change (eqc 58 x3a) with true. cbn iota.
    rewrite Hj by done. cbn [mbind option_bind skip_white]. change (white x2c) with false. cbn iota.
    change (eqc 44 x2c) with true. cbn iota.
    match goal with |- context[parse_members p n (?s ++ _)] =>
      change s with (commas (map (λ '(k, v), x22 :: k ++ x22 :: x3a :: json_print v) (kj' :: l))) end.
    rewrite IH; [done|done|simpl in *; lia].
Qed.

Lemma size_elems l :
  (length l <= foldr (λ x n, size x + n) 0 l)%nat ∧ Forall (λ x, size x <= foldr (λ x n, size x + n) 0 l)%nat l.
Proof.
  induction l as [|x l [IH1 IH2]]; [done|]. assert (1 <= size x)%nat by (destruct x; simpl; lia).
  simpl. split; [lia|]. constructor; [lia|]. eapply Forall_impl; [exact IH2|]. simpl. intros; lia.
Qed.

Lemma size_members (l : list (bytes * json)) :
  (length l <= foldr (λ '(_, x) n, size x + n) 0 l)%nat ∧
  Forall (λ kx, size kx.2 <= foldr (λ '(_, x) n, size x + n) 0 l)%nat l.
Proof.
  induction l as [|[k x] l [IH1 IH2]]; [done|]. assert (1 <= size x)%nat by (destruct x; simpl; lia).
  simpl. split; [lia|]. constructor; [simpl; lia|]. eapply Forall_impl; [exact IH2|]. simpl. intros; lia.
Qed.

Lemma height_elems l : Forall (λ x, height x <= foldr (λ x n, Nat.max (height x) n) 0 l)%nat l.
Proof.
  induction l as [|x l IH]; constructor; simpl; [lia|]. eapply Forall_impl; [exact IH|]. simpl. intros; lia.
Qed.

Lemma height_members (l : list (bytes * json)) :
  Forall (λ kx, height kx.2 <= foldr (λ '(_, x) n, Nat.max (height x) n) 0 l)%nat l.
Proof.
  induction l as [|[k x] l IH]; constructor; simpl; [lia|]. eapply Forall_impl; [exact IH|]. simpl. intros; lia.
Qed.

Lemma parse_number f d t rest :
  number_ok t = true → stops rest = true → parse_value (S f) d (t ++ rest) = Some (JNum t, rest).
Proof.
  intros Ht Hr. pose proof (span_number_app t rest (number_ok_chars t Ht) Hr) as Hspan.
  destruct (number_ok_head t Ht) as (c & r & -> & Hc%number_head_range).
  cbn [app parse_value skip_white] in *.
  assert (∀ n, 57 < n ∨ n < 45 → eqc n c = false) as Hne by (intros n Hn; apply N.eqb_neq; lia).
  assert (white c = false) as -> by (unfold white; by rewrite !Hne by lia).
  rewrite !Hne by lia. rewrite Hspan. by rewrite Ht.
Qed.

(** Every value whose parts are texts of the syntax and which does not nest
    too deep is read back from what is printed, whatever may follow it. *)
Lemma parse_print j : ∀ f d rest,
  wf j = true → (size j <= f)%nat → (height j <= d)%nat → stops rest = true →
  parse_value f d (json_print j ++ rest) = Some (j, rest).
Proof.
  induction j as [|[]|t|raw|l IH|l IH] using json_ind; intros f d rest Hwf Hf Hd Hr;
    (destruct f as [|f]; [simpl in Hf; lia|]); [done..|by apply parse_number| | |].
  - cbn [json_print]. cbn [app]. rewrite <-app_assoc. cbn [parse_value skip_white app].
    change (white x22) with false. change (eqc 34 x22) with true. cbn iota. by rewrite scan_string_ok.
  - destruct d as [|d]; [simpl in Hd; lia|]. cbn [json_print]. cbn [app]. rewrite <-app_assoc.
    cbn [parse_value skip_white app]. change (white x5b) with false. cbn iota.
    change (eqc 34 x5b) with false. change (eqc 91 x5b) with true. cbn iota.
    destruct l as [|j l]; [done|]. cbn [size height] in Hf, Hd. cbn [wf] in Hwf. rewrite forallb_forall in Hwf.
    destruct (print_starts j (Hwf j (or_introl eq_refl))) as (c & r & E & Hw & H93 & _).
    assert (∃ r', commas (map json_print (j :: l)) ++ x5d :: rest = c :: r') as [r' E'].
    { cbn [map commas]. destruct (map json_print l); rewrite E; by eexists. }
    rewrite E'. cbn [skip_white]. rewrite Hw, H93. rewrite <-E'.
    destruct (size_elems (j :: l)) as [Hlen Hsz]. pose proof (height_elems (j :: l)) as Hh.
    rewrite parse_elems_print; [done|done|lia|].
    rewrite Forall_forall in *. intros x Hx rest' Hr'. specialize (Hsz x Hx). specialize (Hh x Hx).
    apply (IH x Hx); [by apply Hwf, list_elem_of_In|lia|lia|done].
  - destruct d as [|d]; [simpl in Hd; lia|]. cbn [json_print]. cbn [app]. rewrite <-app_assoc.
    cbn [parse_value skip_white app]. change (white x7b) with false. cbn iota.
    change (eqc 34 x7b) with false. change (eqc 91 x7b) with false. change (eqc 123 x7b) with true. cbn iota.
    destruct l as [|[k j] l]; [done|]. cbn [size height] in Hf, Hd. cbn [wf] in Hwf. rewrite forallb_forall in Hwf.
    assert (∃ r', commas (map (λ '(k, v), x22 :: k ++ x22 :: x3a :: json_print v) ((k, j) :: l)) ++ x7d :: rest
              = x22 :: r') as [r' E'].
    { cbn [map commas]. destruct (map _ l); by eexists. }
    rewrite E'. cbn [skip_white]. change (white x22) with false. change (eqc 125 x22) with false. cbn iota.
    rewrite <-E'. destruct (size_members ((k, j) :: l)) as [Hlen Hsz].
    pose proof (height_members ((k, j) :: l)) as Hh.
    rewrite parse_members_print; [done|done|lia|].
    rewrite Forall_forall in *. intros [k' x] Hx. specialize (Hsz _ Hx). specialize (Hh _ Hx).
    cbn [snd] in Hsz, Hh. pose proof (Hwf (k', x) (proj1 (list_elem_of_In _ _) Hx)) as [Hk Hx']%andb_true_iff.
    split; [done|]. intros rest' Hr'. apply (IH _ Hx); [done|cbn [snd]; lia|cbn [snd]; lia|done].
Qed.

Lemma length_commas (l : list bytes) : (foldr (λ x n, length x + n) 0 l <= length (commas l))%nat.
Proof.
  induction l as [|x l IH]; [done|]. cbn [foldr commas]. destruct l as [|y l]; [simpl in *; lia|].
  rewrite length_app. cbn [length]. lia.
Qed.

Lemma size_print j : wf j = true → (size j <= length (json_print j))%nat.
Proof.
  induction j as [|[]|t|raw|l IH|l IH] using json_ind; cbn [wf size json_print length]; intros Hwf; try lia.
  - destruct (number_ok_head t Hwf) as (c & r & -> & _). simpl. lia.
  - rewrite length_app. rewrite forallb_forall in Hwf. pose proof (length_commas (map json_print l)) as Hc.
    enough (foldr (λ x n, size x + n) 0 l <= foldr (λ x n, length x + n) 0 (map json_print l))%nat by lia.
    clear Hc. induction IH as [|x l Hx _ IHl]; [done|]. cbn [foldr map].
    pose proof (Hx (Hwf x (or_introl eq_refl))). specialize (IHl (λ y Hy, Hwf y (or_intror Hy))). lia.
  - rewrite length_app. rewrite forallb_forall in Hwf.
    pose proof (length_commas (map (λ '(k, v), x22 :: k ++ x22 :: x3a :: json_print v) l)) as Hc.
    enough (foldr (λ '(_, x) n, size x + n) 0 l
      <= foldr (λ x n, length x + n) 0 (map (λ '(k, v), x22 :: k ++ x22 :: x3a :: json_print v) l))%nat by lia.
    clear Hc. induction IH as [|[k x] l Hx _ IHl]; [done|]. cbn [foldr map length].
    pose proof (proj1 (andb_true_iff _ _) (Hwf (k, x) (or_introl eq_refl))) as [_ Hwx].
    specialize (Hx Hwx). specialize (IHl (λ y Hy, Hwf y (or_intror Hy))).
    rewrite length_app. cbn [length snd] in *. lia.
Qed.

Lemma json_roundtrip j :
  wf j = true → (height j <= maxNestingDepth)%nat → json_parse (json_print j) = Some j.
Proof.
  intros Hwf Hh. unfold json_parse.
  pose proof (parse_print j (length (json_print j)) maxNestingDepth [] Hwf (size_print j Hwf) Hh eq_refl) as H.
  rewrite app_nil_r in H. by rewrite H.
Qed.

(** ** Fuel: the length of the text is enough *)

Lemma skip_white_length s : (length (skip_white s) <= length s)%nat.
Proof. induction s as [|c s IH]; [done|]. simpl. destruct (white c); simpl; lia. Qed.

Lemma strip_length p s r : strip p s = Some r → (length r <= length s)%nat.
Proof.
  revert s. induction p as [|a p IH]; intros s; simpl; [intros [= <-]; done|].
  destruct s as [|b s]; [done|]. case_bool_decide; [|done]. intros Hs%IH. simpl. lia.
Qed.

Lemma span_number_length s a b : span_number s = (a, b) → (length a + length b = length s)%nat.
Proof.
  revert a b. induction s as [|c s IH]; intros a b; simpl; [by intros [= <- <-]|].
  destruct (number_char c); [|by intros [= <- <-]]. destruct (span_number s) as [a' b'].
  intros [= <- <-]. specialize (IH a' b' eq_refl). simpl. lia.
Qed.

Definition shorter {A} (p : bytes → option (A * bytes)) : Prop :=
  ∀ s v r, p s = Some (v, r) → (length r < length s)%nat.

Ltac white_step s E :=
  let Hl := fresh "Hlen" in pose proof (skip_white_length s) as Hl; destruct (skip_white s) eqn:E; [done|];
  cbn [length] in *.

Lemma parse_elems_shorter p n : shorter p → shorter (parse_elems p n).
Proof.
  intros Hp. induction n as [|n IH]; intros s v r; [done|]. cbn [parse_elems].
  intros (v' & r' & Hv & H)%bind_Some_inv. apply Hp in Hv. white_step r' E.
  destruct (eqc 44 b); [|destruct (eqc 93 b); [|done]].
  - apply bind_Some_inv in H as (vs & r'' & H & [= <- <-]). apply IH in H. lia.
  - injection H as <- <-. lia.
Qed.

Lemma parse_members_shorter p n : shorter p → shorter (parse_members p n).
Proof.
  intros Hp. induction n as [|n IH]; intros s v r; [done|]. cbn [parse_members].
  white_step s E. destruct (eqc 34 b); [|done]. intros (k & r1 & Hk & H1)%bind_Some_inv.
  apply scan_string_shorter in Hk. white_step r1 E1. destruct (eqc 58 b0); [|done].
  apply bind_Some_inv in H1 as (v1 & r2 & Hv & H2). apply Hp in Hv. white_step r2 E2.
  destruct (eqc 44 b1); [|destruct (eqc 125 b1); [|done]].
  - apply bind_Some_inv in H2 as (vs & r'' & H & [= <- <-]). apply IH in H. lia.
  - injection H2 as <- <-. lia.
Qed.

Lemma parse_value_shorter f d : shorter (parse_value f d).
Proof.
  revert d. induction f as [|f IH]; intros d s v r; [done|]. cbn [parse_value]. white_step s E.
  assert (∀ (x : json) p, (r' ← strip p l; Some (x, r')) = Some (v, r) → (length r < length s)%nat) as Hlit.
  { intros x p. destruct (strip p l) as [r'|] eqn:Es; [|done]. intros [= <- <-].
    apply strip_length in Es. lia. }
  destruct (eqc 34 b).
  { intros (a & c & Ha & [= <- <-])%bind_Some_inv. apply scan_string_shorter in Ha. lia. }
  destruct (eqc 91 b).
  { destruct d as [|d]; [done|]. white_step l E'. destruct (eqc 93 b0); [intros [= <- <-]; lia|].
    intros (a & c & Ha & [= <- <-])%bind_Some_inv.
    apply (parse_elems_shorter _ _ (IH d)) in Ha. lia. }
  destruct (eqc 123 b).
  { destruct d as [|d]; [done|]. white_step l E'. destruct (eqc 125 b0); [intros [= <- <-]; lia|].
    intros (a & c & Ha & [= <- <-])%bind_Some_inv.
    apply (parse_members_shorter _ _ (IH d)) in Ha. lia. }
  destruct (eqc 110 b); [by apply Hlit|].
  destruct (eqc 116 b); [by apply Hlit|].
  destruct (eqc 102 b); [by apply Hlit|].
  destruct (span_number (b :: l)) as [a c] eqn:Es. destruct (number_ok a) eqn:Ha; [|done].
  intros [= <- <-]. apply span_number_length in Es. apply number_ok_head in Ha as (? & ? & -> & _).
  cbn [length] in *. lia.
Qed.

Lemma parse_elems_ext p p' n n' s :
  shorter p → (∀ s', (length s' <= length s)%nat → p s' = p' s') →
  (length s <= n)%nat → (length s <= n')%nat → parse_elems p n s = parse_elems p' n' s.
Proof.
  intros Hp Hext. revert s n' Hext. induction n as [|n IH]; intros s n' Hext Hn Hn'.
  - destruct s; [|simpl in Hn; lia]. destruct n' as [|n']; [done|]. cbn [parse_elems].
    rewrite <-Hext by done. destruct (p []) as [[v r]|] eqn:E; [|done]. apply Hp in E. simpl in E. lia.
  - destruct n' as [|n'].
    { destruct s; [|simpl in Hn'; lia]. cbn [parse_elems].
      destruct (p []) as [[v r]|] eqn:E; [|done]. apply Hp in E. simpl in E. lia. }
    cbn [parse_elems]. rewrite <-Hext by done. destruct (p s) as [[v r]|] eqn:E; [|done].
    cbn [mbind option_bind]. apply Hp in E. white_step r Er. destruct (eqc 44 b); [|done].
    rewrite (IH l n'); [done| |lia|lia]. intros s' Hs'. apply Hext. lia.
Qed.

Lemma parse_members_ext p p' n n' s :
  shorter p → (∀ s', (length s' <= length s)%nat → p s' = p' s') →
  (length s <= n)%nat → (length s <= n')%nat → parse_members p n s = parse_members p' n' s.
Proof.
  intros Hp Hext. revert s n' Hext. induction n as [|n IH]; intros s n' Hext Hn Hn'.
  - destruct s; [|simpl in Hn; lia]. by destruct n'.
  - destruct n' as [|n']; [by destruct s; [|simpl in Hn'; lia]|].
    cbn [parse_members]. white_step s Es. destruct (eqc 34 b); [|done].
    destruct (scan_string l) as [[k r]|] eqn:E; [|done]. cbn [mbind option_bind].
    apply scan_string_shorter in E. white_step r Er. destruct (eqc 58 b0); [|done].
    rewrite <-Hext by lia. destruct (p l0) as [[v r']|] eqn:E'; [|done].
    cbn [mbind option_bind]. apply Hp in E'. white_step r' Er'. destruct (eqc 44 b1); [|done].
    rewrite (IH l1 n'); [done| |lia|lia]. intros s' Hs'. apply Hext. lia.
Qed.

(** More fuel than the length of the text changes nothing. *)
Lemma parse_value_fuel f f' d s :
  (length s <= f)%nat → (length s <= f')%nat → parse_value f d s = parse_value f' d s.
Proof.
  revert f' d s. induction f as [|f IH]; intros f' d s Hf Hf'.
  { destruct s; [|simpl in Hf; lia]. by destruct f'. }
  destruct f' as [|f']; [by destruct s; [|simpl in Hf'; lia]|].
  cbn [parse_value]. white_step s Es. destruct (eqc 34 b); [done|]. destruct (eqc 91 b).
  { destruct d as [|d]; [done|]. white_step l El. destruct (eqc 93 b0); [done|].
    rewrite (parse_elems_ext _ (parse_value f' d) f f' l); [done|apply parse_value_shorter| |lia|lia].
    intros s' Hs'. apply IH; lia. }
  destruct (eqc 123 b); [|done].
  destruct d as [|d]; [done|]. white_step l El. destruct (eqc 125 b0); [done|].
  rewrite (parse_members_ext _ (parse_value f' d) f f' l); [done|apply parse_value_shorter| |lia|lia].
  intros s' Hs'. apply IH; lia.
Qed.
