(* ===== verification/JsonString.v ===== *)
(** * JSON strings: the escapes of encoding/json

    What [json.Marshal] writes between the quotes for a Go string, with the
    characters of HTML escaped, and what [json.Unmarshal] reads; in both
    directions an invalid UTF-8 byte becomes U+FFFD. *)

From S2P Require Import Prelude Json.
From stdpp Require Import list options.
Local Open Scope N_scope.

(** ** UTF-8 *)

Definition within (lo hi : N) (c : byte) : bool := (lo <=? byteN c) && (byteN c <=? hi).
Definition follows : byte → bool := within 128 191.

(** The length of the rune the text starts with, 0 where it is invalid. *)
Definition rune_len (s : bytes) : nat :=
  match s with
  | [] => 0%nat
  | c :: r =>
      if byteN c <? 128 then 1%nat
      else
        match r with
        | [] => 0%nat
        | c2 :: r2 =>
            if within 194 223 c && follows c2 then 2%nat
            else
              match r2 with
              | [] => 0%nat
              | c3 :: r3 =>
                  if (eqc 224 c && within 160 191 c2 || within 225 236 c && follows c2
                      || eqc 237 c && within 128 159 c2 || within 238 239 c && follows c2) && follows c3
                  then 3%nat
                  else
                    match r3 with
                    | [] => 0%nat
                    | c4 :: _ =>
                        if (eqc 240 c && within 144 191 c2 || within 241 243 c && follows c2
                            || eqc 244 c && within 128 143 c2) && follows c3 && follows c4
                        then 4%nat else 0%nat
                    end
              end
        end
  end.

(** [utf8.EncodeRune] of a scalar value. *)
Definition encode_rune (u : N) : bytes :=
  if u <? 128 then [byte_of_N u]
  else if u <? 2048 then [byte_of_N (192 + u / 64); byte_of_N (128 + u `mod` 64)]
  else if u <? 65536 then
    [byte_of_N (224 + u / 4096); byte_of_N (128 + (u / 64) `mod` 64); byte_of_N (128 + u `mod` 64)]
  else
    [byte_of_N (240 + u / 262144); byte_of_N (128 + (u / 4096) `mod` 64);
     byte_of_N (128 + (u / 64) `mod` 64); byte_of_N (128 + u `mod` 64)].

Definition replacement : bytes := [xef; xbf; xbd].

(** ** Writing *)

Definition hex_char (n : N) : byte := byte_of_N (if n <? 10 then 48 + n else 87 + n).

Definition escape (c : byte) : bytes :=
  if eqc 34 c || eqc 92 c then [x5c; c]
  else if eqc 8 c then [x5c; x62]
  else if eqc 12 c then [x5c; x66]
  else if eqc 10 c then [x5c; x6e]
  else if eqc 13 c then [x5c; x72]
  else if eqc 9 c then [x5c; x74]
  else if (byteN c <? 32) || eqc 60 c || eqc 62 c || eqc 38 c then
    [x5c; x75; x30; x30; hex_char (byteN c / 16); hex_char (byteN c `mod` 16)]
  else [c].

(** U+2028 and U+2029 are escaped, too. *)
Definition escape3 (c c2 c3 : byte) : bytes :=
  if eqc 226 c && eqc 128 c2 && (eqc 168 c3 || eqc 169 c3) then
    [x5c; x75; x32; x30; x32; hex_char (byteN c3 `mod` 16)]
  else [c; c2; c3].

Fixpoint quote (s : bytes) : bytes :=
  match s with
  | [] => []
  | c :: r =>
      match rune_len s, r with
      | 1%nat, _ => escape c ++ quote r
      | 2%nat, c2 :: r2 => c :: c2 :: quote r2
      | 3%nat, c2 :: c3 :: r3 => escape3 c c2 c3 ++ quote r3
      | 4%nat, c2 :: c3 :: c4 :: r4 => c :: c2 :: c3 :: c4 :: quote r4
      | _, _ => [x5c; x75; x66; x66; x66; x64] ++ quote r
      end
  end.

(** ** Reading *)

Definition hex_value (c : byte) : N :=
  let n := byteN c in
  if n <=? 57 then n - 48 else if n <=? 70 then n - 55 else n - 87.

Definition hex4 (h1 h2 h3 h4 : byte) : N :=
  hex_value h1 * 4096 + hex_value h2 * 256 + hex_value h3 * 16 + hex_value h4.

Definition unescape (e : byte) : byte :=
  if eqc 98 e then x08 else if eqc 102 e then x0c else if eqc 110 e then x0a
  else if eqc 114 e then x0d else if eqc 116 e then x09 else e.

Definition surrogate (u : N) : bool := (55296 <=? u) && (u <? 57344).

(** [utf16.DecodeRune] *)
Definition surrogate_pair (u v : N) : option N :=
  if (55296 <=? u) && (u <? 56320) && (56320 <=? v) && (v <? 57344)
  then Some ((u - 55296) * 1024 + (v - 56320) + 65536) else None.

Fixpoint unquote (s : bytes) : bytes :=
  match s with
  | [] => []
  | c :: r =>
      if eqc 92 c then
        match r with
        | [] => []
        | e :: r1 =>
            if eqc 117 e then
              match r1 with
              | h1 :: h2 :: h3 :: h4 :: r2 =>
                  let u := hex4 h1 h2 h3 h4 in
                  if surrogate u then
                    match r2 with
                    | b :: e' :: k1 :: k2 :: k3 :: k4 :: r3 =>
                        match (if eqc 92 b && eqc 117 e' then surrogate_pair u (hex4 k1 k2 k3 k4) else None) with
                        | Some w => encode_rune w ++ unquote r3
                        | None => replacement ++ unquote r2
                        end
                    | _ => replacement ++ unquote r2
                    end
                  else encode_rune u ++ unquote r2
              | _ => []
              end
            else unescape e :: unquote r1
        end
      else
        match rune_len s, r with
        | 1%nat, _ => c :: unquote r
        | 2%nat, c2 :: r2 => c :: c2 :: unquote r2
        | 3%nat, c2 :: c3 :: r3 => c :: c2 :: c3 :: unquote r3
        | 4%nat, c2 :: c3 :: c4 :: r4 => c :: c2 :: c3 :: c4 :: unquote r4
        | _, _ => replacement ++ unquote r
        end
  end.

(** ** Round trip *)

(** Texts of valid UTF-8. *)
Fixpoint valid_utf8 (s : bytes) : bool :=
  match s with
  | [] => true
  | c :: r =>
      match rune_len s, r with
      | 1%nat, _ => valid_utf8 r
      | 2%nat, c2 :: r2 => valid_utf8 r2
      | 3%nat, c2 :: c3 :: r3 => valid_utf8 r3
      | 4%nat, c2 :: c3 :: c4 :: r4 => valid_utf8 r4
      | _, _ => false
      end
  end.

(** A rune is as long whatever follows it. *)
Lemma rune_len2 c c2 r t : rune_len (c :: c2 :: r) = 2%nat → rune_len (c :: c2 :: t) = 2%nat.
Proof.
  unfold rune_len. destruct (byteN c <? 128); [done|]. destruct (within 194 223 c && follows c2); [done|].
  destruct r as [|c3 r]; [done|]. destruct (_ && follows c3); [done|]. destruct r as [|c4 r]; [done|].
  by destruct (_ && follows c4).
Qed.

Lemma rune_len3 c c2 c3 r t :
  rune_len (c :: c2 :: c3 :: r) = 3%nat → rune_len (c :: c2 :: c3 :: t) = 3%nat.
Proof.
  unfold rune_len. destruct (byteN c <? 128); [done|]. destruct (within 194 223 c && follows c2); [done|].
  destruct (_ && follows c3); [done|]. destruct r as [|c4 r]; [done|]. by destruct (_ && follows c4).
Qed.

Lemma rune_len4 c c2 c3 c4 r t :
  rune_len (c :: c2 :: c3 :: c4 :: r) = 4%nat → rune_len (c :: c2 :: c3 :: c4 :: t) = 4%nat.
Proof. done. Qed.

(** The bytes of a longer rune are not ASCII. *)
Lemma rune_high s c r : s = c :: r → rune_len s ≠ 1%nat → 128 <= byteN c.
Proof. intros ->. unfold rune_len. destruct (byteN c <? 128) eqn:E; [done|]. bool_to_Prop. done. Qed.

Lemma rune_high2 c c2 r : rune_len (c :: c2 :: r) = 2%nat → 128 <= byteN c2.
Proof.
  unfold rune_len. destruct (byteN c <? 128); [done|].
  destruct (within 194 223 c && follows c2) eqn:E.
  { intros _. unfold follows, within in E. bool_to_Prop. done. }
  destruct r as [|c3 r]; [done|]. destruct (_ && follows c3); [done|]. destruct r as [|c4 r]; [done|].
  by destruct (_ && follows c4).
Qed.

Lemma rune_high3 c c2 c3 r : rune_len (c :: c2 :: c3 :: r) = 3%nat → 128 <= byteN c2 ∧ 128 <= byteN c3.
Proof.
  unfold rune_len. destruct (byteN c <? 128); [done|].
  destruct (within 194 223 c && follows c2); [done|]. destruct (_ && follows c3) eqn:E.
  { intros _. unfold follows, within in E. bool_to_Prop; lia. }
  destruct r as [|c4 r]; [done|]. by destruct (_ && follows c4).
Qed.

Lemma rune_high4 c c2 c3 c4 r :
  rune_len (c :: c2 :: c3 :: c4 :: r) = 4%nat → 128 <= byteN c2 ∧ 128 <= byteN c3 ∧ 128 <= byteN c4.
Proof.
  unfold rune_len. destruct (byteN c <? 128); [done|].
  destruct (within 194 223 c && follows c2); [done|]. destruct (_ && follows c3) eqn:E; [done|].
  destruct (_ && follows c4) eqn:E'; [|done]. intros _. unfold follows, within in E'. bool_to_Prop; lia.
Qed.

(** Where a rune has a length, the text is as long. *)
Inductive rune_view : bytes → Prop :=
  | rune1 c r : rune_len (c :: r) = 1%nat → byteN c < 128 → rune_view (c :: r)
  | rune2 c c2 r : rune_len (c :: c2 :: r) = 2%nat → rune_view (c :: c2 :: r)
  | rune3 c c2 c3 r : rune_len (c :: c2 :: c3 :: r) = 3%nat → rune_view (c :: c2 :: c3 :: r)
  | rune4 c c2 c3 c4 r : rune_len (c :: c2 :: c3 :: c4 :: r) = 4%nat → rune_view (c :: c2 :: c3 :: c4 :: r)
  | rune0 c r : rune_len (c :: r) = 0%nat → rune_view (c :: r).

Lemma view c r : rune_view (c :: r).
Proof.
  destruct (rune_len (c :: r)) as [|n] eqn:E; [by apply rune0|].
  unfold rune_len in E. destruct (byteN c <? 128) eqn:E1.
  { apply rune1; [unfold rune_len; by rewrite E1|by bool_to_Prop]. }
  destruct r as [|c2 r]; [done|]. destruct (within 194 223 c && follows c2) eqn:E2.
  { apply rune2. unfold rune_len. by rewrite E1, E2. }
  destruct r as [|c3 r]; [done|]. destruct (_ && follows c3) eqn:E3.
  { apply rune3. unfold rune_len. by rewrite E1, E2, E3. }
  destruct r as [|c4 r]; [done|]. destruct (_ && follows c4) eqn:E4; [|done].
  apply rune4. unfold rune_len. by rewrite E1, E2, E3, E4.
Qed.

Lemma high_not c n : 128 <= byteN c → n < 128 → eqc n c = false.
Proof. intros. apply N.eqb_neq. lia. Qed.

Lemma eqc_byte n c : eqc n c = true → c = byte_of_N n.
Proof. intros H%N.eqb_eq. by rewrite <-H, byte_of_byteN. Qed.

Lemma unquote_escape c t : byteN c < 128 → unquote (escape c ++ t) = c :: unquote t.
Proof. destruct c; intros H; first [reflexivity | discriminate H]. Qed.

Lemma escape3_cases c c2 c3 :
  escape3 c c2 c3 = [c; c2; c3] ∨
  [c; c2; c3] = [xe2; x80; xa8] ∧ escape3 c c2 c3 = [x5c; x75; x32; x30; x32; x38] ∨
  [c; c2; c3] = [xe2; x80; xa9] ∧ escape3 c c2 c3 = [x5c; x75; x32; x30; x32; x39].
Proof.
  unfold escape3. destruct (eqc 226 c) eqn:E1; [|by left]. destruct (eqc 128 c2) eqn:E2; [|by left].
  apply eqc_byte in E1 as ->, E2 as ->.
  destruct (eqc 168 c3) eqn:E3; [apply eqc_byte in E3 as ->; by right; left|].
  destruct (eqc 169 c3) eqn:E4; [apply eqc_byte in E4 as ->; by right; right|]. by left.
Qed.

Lemma unquote_cons3 c c2 c3 t :
  rune_len (c :: c2 :: c3 :: t) = 3%nat → unquote (c :: c2 :: c3 :: t) = c :: c2 :: c3 :: unquote t.
Proof.
  intros H. assert (128 <= byteN c) as Hc by (by eapply rune_high; [done|rewrite H]).
  cbn [unquote]. by rewrite (high_not c 92 Hc), H.
Qed.

Lemma unquote_a8 t : unquote (x5c :: x75 :: x32 :: x30 :: x32 :: x38 :: t) = xe2 :: x80 :: xa8 :: unquote t.
Proof. reflexivity. Qed.
Lemma unquote_a9 t : unquote (x5c :: x75 :: x32 :: x30 :: x32 :: x39 :: t) = xe2 :: x80 :: xa9 :: unquote t.
Proof. reflexivity. Qed.

(** [json.Unmarshal] reads back every text of valid UTF-8 that [json.Marshal]
    wrote. *)
Lemma unquote_quote s : valid_utf8 s = true → unquote (quote s) = s.
Proof.
  induction s as [s IH] using (induction_ltof1 _ length). unfold ltof in IH.
  destruct s as [|c0 r0]; [done|]. intros Hv.
  destruct (view c0 r0) as [c r H Hc|c c2 r H|c c2 c3 r H|c c2 c3 c4 r H|c r H];
    cbn [quote valid_utf8] in *; rewrite H in *.
  - rewrite unquote_escape by done. f_equal. apply IH; [simpl; lia|done].
  - assert (128 <= byteN c) as Hc by (by eapply rune_high; [done|rewrite H]).
    cbn [unquote]. rewrite (high_not c 92 Hc) by done. rewrite (rune_len2 _ _ _ _ H). do 2 f_equal.
    apply IH; [simpl; lia|done].
  - assert (unquote (quote r) = r) as Hr by (apply IH; [simpl; lia|done]).
    destruct (escape3_cases c c2 c3) as [-> |[[E ->]|[E ->]]].
    + cbn [app]. rewrite unquote_cons3, Hr; [done|]. by apply (rune_len3 _ _ _ r).
    + injection E as -> -> ->. cbn [app]. by rewrite unquote_a8, Hr.
    + injection E as -> -> ->. cbn [app]. by rewrite unquote_a9, Hr.
  - assert (128 <= byteN c) as Hc by (by eapply rune_high; [done|rewrite H]).
    cbn [unquote]. rewrite (high_not c 92 Hc) by done. rewrite (rune_len4 _ _ _ _ _ (quote r) H). do 4 f_equal.
    apply IH; [simpl; lia|done].
  - done.
Qed.

(** What [json.Marshal] writes for a text is a string of the syntax. *)
Lemma scan_high c t a b :
  128 <= byteN c → scan_string t = Some (a, b) → scan_string (c :: t) = Some (c :: a, b).
Proof.
  intros Hc Ht. cbn [scan_string]. rewrite !(high_not c) by done.
  rewrite (proj2 (N.ltb_ge _ _)) by lia. by rewrite Ht.
Qed.

Lemma scan_escape c t a b :
  byteN c < 128 → scan_string t = Some (a, b) → scan_string (escape c ++ t) = Some (escape c ++ a, b).
Proof.
  intros Hc Ht. transitivity ('(a, b) ← scan_string t; Some (escape c ++ a, b)); [|by rewrite Ht].
  clear Ht. destruct c; first [discriminate Hc | reflexivity].
Qed.

Lemma scan_quote s rest : scan_string (quote s ++ x22 :: rest) = Some (quote s, rest).
Proof.
  induction s as [s IH] using (induction_ltof1 _ length). unfold ltof in IH.
  destruct s as [|c0 r0]; [done|].
  destruct (view c0 r0) as [c r H Hc|c c2 r H|c c2 c3 r H|c c2 c3 c4 r H|c r H];
    cbn [quote]; rewrite H; try (assert (128 <= byteN c) as Hc by (by eapply rune_high; [done|rewrite H]));
    cbn [length] in IH.
  - rewrite <-!app_assoc. apply scan_escape; [done|]. apply IH. lia.
  - pose proof (rune_high2 _ _ _ H). cbn [app]. do 2 (apply scan_high; [done|]). apply IH. lia.
  - pose proof (rune_high3 _ _ _ _ H) as [? ?]. rewrite <-!app_assoc.
    assert (scan_string (quote r ++ x22 :: rest) = Some (quote r, rest)) as Hr by (apply IH; lia).
    destruct (escape3_cases c c2 c3) as [-> |[[_ ->]|[_ ->]]]; cbn [app].
    + by do 3 (apply scan_high; [done|]).
    + change (scan_string _) with ('(a, b) ← scan_string (quote r ++ x22 :: rest);
        Some (x5c :: x75 :: x32 :: x30 :: x32 :: x38 :: a, b)). by rewrite Hr.
    + change (scan_string _) with ('(a, b) ← scan_string (quote r ++ x22 :: rest);
        Some (x5c :: x75 :: x32 :: x30 :: x32 :: x39 :: a, b)). by rewrite Hr.
  - pose proof (rune_high4 _ _ _ _ _ H) as (? & ? & ?). cbn [app].
    do 4 (apply scan_high; [done|]). apply IH. lia.
  - cbn [app]. change (scan_string _) with ('(a, b) ← scan_string (quote r ++ x22 :: rest);
      Some (x5c :: x75 :: x66 :: x66 :: x66 :: x64 :: a, b)). rewrite IH; [done|lia].
Qed.

Lemma quote_ok s : string_ok (quote s) = true.
Proof. apply bool_decide_eq_true, scan_quote. Qed.

(** ASCII is valid. *)
Lemma ascii_valid s : Forall (λ c, byteN c < 128) s → valid_utf8 s = true.
Proof.
  induction 1 as [|c s Hc Hs IH]; [done|]. cbn [valid_utf8]. unfold rune_len.
  by rewrite (proj2 (N.ltb_lt _ _) Hc).
Qed.

(** Plain text needs no escapes. *)
Definition plain_char (c : byte) : bool :=
  (32 <=? byteN c) && (byteN c <? 128) && negb (existsb (λ n, eqc n c) [34; 92; 60; 62; 38]).

Lemma quote_plain s : Forall (λ c, plain_char c = true) s → quote s = s.
Proof.
  induction 1 as [|c s Hc Hs IH]; [done|]. cbn [quote].
  assert (escape c = [c] ∧ rune_len (c :: s) = 1%nat) as [He Hl].
  { destruct c; try discriminate Hc; done. }
  rewrite Hl, He, IH. done.
Qed.
