(* ===== verification/Rfc3339.v ===== *)
(** * Times as texts: what the program uses of package time

    [Time.MarshalJSON] writes RFC 3339 with nanoseconds in the time's zone;
    [Time.UnmarshalJSON] reads it with [time.Parse], which also takes an hour
    of one digit and a comma. A time is its nanoseconds since 1970 (as in
    RoutingTable.v), the offset of the zone is an argument, in minutes. *)

From S2P Require Import Prelude Json JsonString.
From stdpp Require Import list options.
Local Open Scope Z_scope.

(** ** The calendar

    Years are counted from March, so that a leap day ends its year. *)

Definition month_start (mp : Z) : Z := (153 * mp + 2) / 5.

(** Days from 1970-01-01 to a date. *)
Definition days_of (y m d : Z) : Z :=
  let y' := if m <=? 2 then y - 1 else y in
  let mp := if m <=? 2 then m + 9 else m - 3 in
  365 * y' + y' / 4 - y' / 100 + y' / 400 + month_start mp + d - 1 - 719468.

(** The date a number of days after 1970-01-01. *)
Definition civil (days : Z) : Z * Z * Z :=
  let z := days + 719468 in
  let era := z / 146097 in
  let doe := z `mod` 146097 in
  let cent := Z.min 3 (doe / 36524) in
  let r1 := doe - cent * 36524 in
  let quad := r1 / 1461 in
  let r2 := r1 `mod` 1461 in
  let yr := Z.min 3 (r2 / 365) in
  let doy := r2 - yr * 365 in
  let y' := 400 * era + 100 * cent + 4 * quad + yr in
  let mp := (5 * doy + 2) / 153 in
  let d := doy - month_start mp + 1 in
  if mp <? 10 then (y', mp + 3, d) else (y' + 1, mp - 9, d).

Definition isLeap (y : Z) : bool := (y `mod` 4 =? 0) && (negb (y `mod` 100 =? 0) || (y `mod` 400 =? 0)).

Definition daysIn (m y : Z) : Z :=
  if m =? 2 then if isLeap y then 29 else 28
  else if (m =? 4) || (m =? 6) || (m =? 9) || (m =? 11) then 30 else 31.

(** ** Writing *)

Definition digit_char (n : Z) : byte := byte_of_N (48 + Z.to_N n).

(** The last [k] decimal digits. *)
Fixpoint digits (k : nat) (n : Z) : bytes :=
  match k with O => [] | S k' => digit_char ((n / 10 ^ Z.of_nat k') `mod` 10) :: digits k' n end.

Definition two (n : Z) : bytes := digits 2 n.

Fixpoint trim_zeros (l : bytes) : bytes :=
  match l with
  | [] => []
  | c :: l' => match trim_zeros l' with [] => if eqc 48 c then [] else [c] | t => c :: t end
  end.

Definition fraction (nanos : Z) : bytes := if nanos =? 0 then [] else x2e :: trim_zeros (digits 9 nanos).

Definition zone_text (off : Z) : bytes :=
  if off =? 0 then [x5a]
  else (if off <? 0 then x2d else x2b) :: two (Z.abs off / 60) ++ x3a :: two (Z.abs off `mod` 60).

Definition second : Z := 10 ^ 9.

(** [time.Time{}], 1 January of the year 1. *)
Definition zero_Time : Z := -62135596800 * 10 ^ 9.

(** [Time.MarshalJSON] without the quotes; it fails outside the years 0 to 9999. *)
Definition time_text (off t : Z) : option bytes :=
  let lt := t + off * 60 * second in
  let secs := lt / second in
  let sod := secs `mod` 86400 in
  let '(y, m, d) := civil (secs / 86400) in
  if (0 <=? y) && (y <=? 9999) then
    Some (digits 4 y ++ x2d :: two m ++ x2d :: two d ++ x54 :: two (sod / 3600) ++ x3a
      :: two ((sod / 60) `mod` 60) ++ x3a :: two (sod `mod` 60) ++ fraction (lt `mod` second) ++ zone_text off)
  else None.

(** ** Reading *)

Definition digit_value (c : byte) : Z := Z.of_N (byteN c) - 48.

Definition skip_char (n : N) (s : bytes) : option bytes :=
  match s with c :: r => if eqc n c then Some r else None | [] => None end.

(** A number of exactly [k] digits. *)
Fixpoint get_digits (k : nat) (acc : Z) (s : bytes) : option (Z * bytes) :=
  match k with
  | O => Some (acc, s)
  | S k' =>
      match s with
      | c :: r => if digit c then get_digits k' (acc * 10 + digit_value c) r else None
      | [] => None
      end
  end.

(** One digit, or two. *)
Definition get_hour (s : bytes) : option (Z * bytes) :=
  match get_digits 2 0 s with Some x => Some x | None => get_digits 1 0 s end.

Definition span_digits (s : bytes) : bytes * bytes :=
  (take (length s - length (skip_digits s)) s, skip_digits s).

Definition value (l : bytes) : Z := fold_left (λ n c, n * 10 + digit_value c) l 0.

(** Digits after the ninth are dropped. *)
Definition get_fraction (s : bytes) : Z * bytes :=
  match s with
  | c :: d :: r =>
      if (eqc 46 c || eqc 44 c) && digit d then
        let '(l, r') := span_digits (d :: r) in
        let l := take 9 l in
        (value l * 10 ^ (9 - Z.of_nat (length l)), r')
      else (0, s)
  | _ => (0, s)
  end.

Definition get_zone (s : bytes) : option Z :=
  match s with
  | c :: r =>
      if eqc 90 c then match r with [] => Some 0 | _ => None end
      else
        '(hh, r) ← get_digits 2 0 r;
        r ← skip_char 58 r;
        '(mm, r) ← get_digits 2 0 r;
        match r with
        | [] =>
            if (hh <=? 24) && (mm <=? 60) then
              if eqc 43 c then Some (hh * 60 + mm)
              else if eqc 45 c then Some (- (hh * 60 + mm)) else None
            else None
        | _ => None
        end
  | [] => None
  end.

Definition time_parse (s : bytes) : option Z :=
  '(y, s) ← get_digits 4 0 s; s ← skip_char 45 s;
  '(mo, s) ← get_digits 2 0 s; s ← skip_char 45 s;
  '(d, s) ← get_digits 2 0 s; s ← skip_char 84 s;
  '(h, s) ← get_hour s; s ← skip_char 58 s;
  '(mi, s) ← get_digits 2 0 s; s ← skip_char 58 s;
  '(sec, s) ← get_digits 2 0 s;
  let '(nanos, s) := get_fraction s in
  off ← get_zone s;
  if (1 <=? mo) && (mo <=? 12) && (1 <=? d) && (d <=? daysIn mo y) && (h <? 24) && (mi <? 60) && (sec <? 60)
  then Some ((days_of y mo d * 86400 + h * 3600 + mi * 60 + sec - off * 60) * second + nanos)
  else None.

(** ** The calendar's round trip *)

Lemma month_of_doy doy : 0 <= doy <= 365 →
  let mp := (5 * doy + 2) / 153 in 0 <= mp <= 11 ∧ month_start mp <= doy < month_start (mp + 1).
Proof. intros H mp. subst mp. unfold month_start. Z.to_euclidean_division_equations; lia. Qed.

(** The date of a day, in the counting from March. *)
Lemma civil_march days :
  ∃ era cent quad yr doy,
    0 <= cent <= 3 ∧ 0 <= quad <= 24 ∧ 0 <= yr <= 3 ∧ 0 <= doy <= 365 ∧
    (doy = 365 → yr = 3 ∧ (quad = 24 → cent = 3)) ∧
    days + 719468 = 146097 * era + 36524 * cent + 1461 * quad + 365 * yr + doy ∧
    let y' := 400 * era + 100 * cent + 4 * quad + yr in
    let mp := (5 * doy + 2) / 153 in
    civil days = if mp <? 10 then (y', mp + 3, doy - month_start mp + 1)
                 else (y' + 1, mp - 9, doy - month_start mp + 1).
Proof.
  unfold civil. set (z := days + 719468). set (doe := z `mod` 146097).
  set (cent := Z.min 3 (doe / 36524)). set (r1 := doe - cent * 36524). set (r2 := r1 `mod` 1461).
  set (yr := Z.min 3 (r2 / 365)).
  exists (z / 146097), cent, (r1 / 1461), yr, (r2 - yr * 365).
  pose proof (Z.div_mod z 146097 ltac:(lia)) as Hz. pose proof (Z.mod_pos_bound z 146097 ltac:(lia)) as Hdoe.
  fold doe in Hz, Hdoe.
  assert (0 <= cent <= 3 ∧ 0 <= r1 <= 36524 ∧ (r1 = 36524 → cent = 3)) as (Hc & Hr1 & Hr1').
  { subst r1 cent. clearbody doe. Z.to_euclidean_division_equations; lia. }
  pose proof (Z.div_mod r1 1461 ltac:(lia)) as Hr. pose proof (Z.mod_pos_bound r1 1461 ltac:(lia)) as Hr2.
  fold r2 in Hr, Hr2.
  assert (0 <= yr <= 3 ∧ 0 <= r2 - yr * 365 <= 365 ∧ (r2 - yr * 365 = 365 → yr = 3)) as (Hy & Hd & Hd').
  { subst yr. clearbody r2. Z.to_euclidean_division_equations; lia. }
  clearbody yr r2. assert (0 <= r1 / 1461 <= 24) as Hq by (clear -Hr1; Z.to_euclidean_division_equations; lia).
  split_and!; try done; lia.
Qed.

Lemma days_of_civil days : let '(y, m, d) := civil days in days_of y m d = days.
Proof.
  destruct (civil_march days) as (era & cent & quad & yr & doy & Hc & Hq & Hy & Hd & _ & Hdays & ->).
  destruct (month_of_doy doy Hd) as [Hm Hs].
  assert (∀ y', y' = 400 * era + 100 * cent + 4 * quad + yr →
    y' / 4 = 100 * era + 25 * cent + quad ∧ y' / 100 = 4 * era + cent ∧ y' / 400 = era) as Hdiv.
  { intros y' ->. clear -Hc Hq Hy. Z.to_euclidean_division_equations; lia. }
  set (mp := (5 * doy + 2) / 153) in *. clearbody mp. unfold days_of.
  destruct (mp <? 10) eqn:E; bool_to_Prop.
  - rewrite (proj2 (Z.leb_gt (mp + 3) 2)) by lia. destruct (Hdiv _ eq_refl) as (-> & -> & ->).
    replace (mp + 3 - 3) with mp by lia. lia.
  - rewrite (proj2 (Z.leb_le (mp - 9) 2)) by lia. rewrite Z.add_simpl_r.
    destruct (Hdiv _ eq_refl) as (-> & -> & ->). replace (mp - 9 + 9) with mp by lia. lia.
Qed.

(** Computes the starts of the months. *)
Ltac eval_months :=
  repeat match goal with
  | _ : context [month_start ?k] |- _ =>
      let v := eval vm_compute in (month_start k) in change (month_start k) with v in *
  end.

Lemma civil_valid days :
  let '(y, m, d) := civil days in 1 <= m <= 12 ∧ 1 <= d <= daysIn m y.
Proof.
  destruct (civil_march days) as (era & cent & quad & yr & doy & Hc & Hq & Hy & Hd & Hleap & _ & ->).
  destruct (month_of_doy doy Hd) as [Hm Hs]. set (mp := (5 * doy + 2) / 153) in *. clearbody mp.
  assert (∀ y, y = 400 * era + 100 * cent + 4 * quad + yr + 1 → doy = 365 → isLeap y = true) as Hl.
  { intros y -> E. specialize (Hleap E). unfold isLeap. apply andb_true_iff. rewrite orb_true_iff, negb_true_iff.
    rewrite !Z.eqb_eq, Z.eqb_neq. clear -Hleap Hc Hq. Z.to_euclidean_division_equations; lia. }
  assert (mp = 0 ∨ mp = 1 ∨ mp = 2 ∨ mp = 3 ∨ mp = 4 ∨ mp = 5 ∨ mp = 6 ∨ mp = 7 ∨ mp = 8 ∨ mp = 9
    ∨ mp = 10 ∨ mp = 11) as Hmp by lia.
  clear Hm. destruct_or! Hmp; subst mp; eval_months; unfold daysIn; simpl; try lia.
  split; [lia|]. destruct (isLeap _) eqn:E; [lia|].
  assert (doy ≠ 365) by (intros E'; by rewrite Hl in E). lia.
Qed.

(** ** Digits *)

Lemma digit_char_spec n : 0 <= n < 10 → digit (digit_char n) = true ∧ digit_value (digit_char n) = n.
Proof.
  intros Hn. assert (n ∈ [0; 1; 2; 3; 4; 5; 6; 7; 8; 9]) as Hin by (rewrite !elem_of_cons; lia).
  repeat (apply elem_of_cons in Hin as [->|Hin]; [done|]). by apply not_elem_of_nil in Hin.
Qed.

Lemma get_digits_digits k acc n s :
  0 <= n < 10 ^ Z.of_nat k → get_digits k acc (digits k n ++ s) = Some (acc * 10 ^ Z.of_nat k + n, s).
Proof.
  revert acc n. induction k as [|k IH]; intros acc n Hn; cbn [digits app get_digits].
  { do 2 f_equal. simpl in *. lia. }
  pose proof (Z.mod_pos_bound (n / 10 ^ Z.of_nat k) 10 ltac:(lia)) as Hb.
  destruct (digit_char_spec _ Hb) as [-> ->].
  assert (n / 10 ^ Z.of_nat k < 10) as Hlt.
  { apply Z.div_lt_upper_bound; [lia|]. rewrite Nat2Z.inj_succ, Z.pow_succ_r in Hn by lia. lia. }
  rewrite Z.mod_small by (split; [apply Z.div_pos; lia|done]).
  assert (∀ r, digits k n ++ r = digits k (n `mod` 10 ^ Z.of_nat k) ++ r) as E.
  { intros r. f_equal. clear -k. assert (∀ j, (j <= k)%nat → digits j n = digits j (n `mod` 10 ^ Z.of_nat k)) as Hj; [|by apply Hj].
    induction j as [|j IHj]; intros Hj; [done|]. cbn [digits]. rewrite IHj by lia. do 2 f_equal.
    replace (Z.of_nat k) with (Z.of_nat j + 1 + (Z.of_nat k - Z.of_nat j - 1)) by lia.
    rewrite !Z.pow_add_r by lia. rewrite Z.pow_1_r.
    set (a := 10 ^ Z.of_nat j). assert (0 < a) by (subst a; lia). set (b := 10 ^ (Z.of_nat k - Z.of_nat j - 1)).
    assert (0 < b) by (subst b; apply Z.pow_pos_nonneg; lia).
    rewrite <-Z.mul_assoc, Z.rem_mul_r by nia.
    rewrite (Z.mul_comm a), Z.div_add, (Z.div_small (n `mod` a)), Z.add_0_l by (try apply Z.mod_pos_bound; lia).
    rewrite Z.rem_mul_r by lia. rewrite (Z.mul_comm 10), Z.mod_add by lia. by rewrite Z.mod_mod. }
  rewrite E, IH by (apply Z.mod_pos_bound; lia). do 2 f_equal.
  rewrite Nat2Z.inj_succ, Z.pow_succ_r by lia. pose proof (Z.div_mod n (10 ^ Z.of_nat k) ltac:(lia)). lia.
Qed.

Lemma length_digits k n : length (digits k n) = k.
Proof. induction k as [|k IH]; simpl; [done|]. by rewrite IH. Qed.

Lemma digits_all k n : Forall (λ c, digit c = true) (digits k n).
Proof.
  induction k as [|k IH]; constructor; [|done]. apply digit_char_spec. apply Z.mod_pos_bound. lia.
Qed.

Lemma get_digits_value l acc r :
  Forall (λ c, digit c = true) l →
  get_digits (length l) acc (l ++ r) = Some (fold_left (λ n c, n * 10 + digit_value c) l acc, r).
Proof. intros Hl. revert acc. induction Hl as [|c l Hc Hl IH]; intros acc; simpl; [done|]. by rewrite Hc, IH. Qed.

Lemma value_digits k n : 0 <= n < 10 ^ Z.of_nat k → value (digits k n) = n.
Proof.
  intros Hn. pose proof (get_digits_digits k 0 n [] Hn) as H1.
  pose proof (get_digits_value (digits k n) 0 [] (digits_all k n)) as H2.
  rewrite length_digits, H1 in H2. injection H2 as H2. unfold value. lia.
Qed.

(** ** Fractions of a second *)

Lemma trim_zeros_spec l : ∃ j, l = trim_zeros l ++ replicate j x30.
Proof.
  induction l as [|c l [j IH]]; [by exists 0%nat|]. cbn [trim_zeros]. destruct (trim_zeros l) as [|d t] eqn:E.
  - destruct (eqc 48 c) eqn:Hc.
    + apply eqc_byte in Hc as ->. exists (S j). cbn [app replicate]. rewrite IH at 1. done.
    + exists j. cbn [app]. rewrite IH at 1. done.
  - exists j. rewrite IH at 1. done.
Qed.

Lemma value_zeros l j : value (l ++ replicate j x30) = value l * 10 ^ Z.of_nat j.
Proof.
  unfold value. rewrite fold_left_app. generalize (fold_left (λ n c, n * 10 + digit_value c) l 0). intros v.
  revert v. induction j as [|j IH]; intros v; cbn [replicate fold_left]; [simpl; lia|].
  rewrite IH, Nat2Z.inj_succ, Z.pow_succ_r by lia. change (digit_value x30) with 0. lia.
Qed.

(** A text that starts with no digit and no separator of a fraction. *)
Definition ends_number (s : bytes) : Prop :=
  ∃ c r, s = c :: r ∧ digit c = false ∧ (eqc 46 c || eqc 44 c) = false.

Lemma span_digits_app l r :
  Forall (λ c, digit c = true) l → ends_number r → span_digits (l ++ r) = (l, r).
Proof.
  intros Hl (c & r' & -> & Hc & _). assert (skip_digits (l ++ c :: r') = c :: r') as E.
  { induction Hl as [|d l Hd Hl IH]; simpl; [by rewrite Hc|]. by rewrite Hd. }
  unfold span_digits. rewrite E, length_app. by rewrite Nat.add_sub, take_app_length.
Qed.

Lemma get_fraction_none s : ends_number s → get_fraction s = (0, s).
Proof. intros (c & r & -> & _ & Hc). destruct r as [|d r]; [done|]. cbn [get_fraction]. by rewrite Hc. Qed.

Lemma get_fraction_fraction nanos s :
  0 <= nanos < second → ends_number s → get_fraction (fraction nanos ++ s) = (nanos, s).
Proof.
  intros Hn Hs. unfold fraction. destruct (nanos =? 0) eqn:E; bool_to_Prop.
  { subst. by apply get_fraction_none. }
  destruct (trim_zeros_spec (digits 9 nanos)) as [j Hj]. set (t := trim_zeros (digits 9 nanos)) in *.
  pose proof (digits_all 9 nanos) as Hall. rewrite Hj in Hall. apply Forall_app in Hall as [Ht _].
  pose proof (value_digits 9 nanos Hn) as Hv. rewrite Hj, value_zeros in Hv.
  pose proof (length_digits 9 nanos) as Hlen. rewrite Hj, length_app, length_replicate in Hlen.
  clearbody t. destruct t as [|d t]; [change (value []) with 0 in Hv; lia|].
  cbn [app get_fraction]. rewrite (List.Forall_inv Ht). change (eqc 46 x2e) with true. cbn [orb andb].
  rewrite app_comm_cons, span_digits_app by done. rewrite take_ge by lia. f_equal.
  rewrite <-Hv. do 2 f_equal. lia.
Qed.

(** ** The zone *)

Lemma zone_ends off : ends_number (zone_text off).
Proof. unfold zone_text, ends_number. destruct (off =? 0), (off <? 0); by eexists _, _. Qed.

Lemma get_two n s : 0 <= n < 100 → get_digits 2 0 (two n ++ s) = Some (n, s).
Proof. intros Hn. unfold two. by rewrite get_digits_digits. Qed.

Lemma get_zone_text off : -1440 < off < 1440 → get_zone (zone_text off) = Some off.
Proof.
  intros Hoff. unfold zone_text. destruct (off =? 0) eqn:E; bool_to_Prop; [by subst|].
  assert (0 <= Z.abs off / 60 <= 23) as Hh.
  { split; [apply Z.div_pos; lia|]. apply Z.lt_succ_r, Z.div_lt_upper_bound; lia. }
  pose proof (Z.mod_pos_bound (Z.abs off) 60 ltac:(lia)) as Hm.
  pose proof (Z.div_mod (Z.abs off) 60 ltac:(lia)) as Hdm.
  set (q := Z.abs off / 60) in *. set (m := Z.abs off `mod` 60) in *. clearbody q m.
  assert (∀ c, eqc 90 c = false → get_zone (c :: two q ++ x3a :: two m) =
    if eqc 43 c then Some (q * 60 + m) else if eqc 45 c then Some (- (q * 60 + m)) else None) as Hz.
  { intros c Hc. cbn [get_zone]. rewrite Hc, get_two by lia. cbn [mbind option_bind skip_char].
    change (eqc 58 x3a) with true. cbn iota. cbn [mbind option_bind]. rewrite <-(app_nil_r (two m)), get_two by lia.
    cbn [mbind option_bind]. by rewrite (proj2 (Z.leb_le q 24)), (proj2 (Z.leb_le m 60)) by lia. }
  rewrite Hz by (by destruct (off <? 0)). destruct (off <? 0) eqn:E'; bool_to_Prop; simpl; f_equal; lia.
Qed.

(** ** The round trip *)

(** The times that can be written in every zone. *)
Definition json_time (t : Z) : bool :=
  (-62167132800 * 10 ^ 9 <=? t) && (t <? 253402214400 * 10 ^ 9).

Lemma year_bounds y m d :
  1 <= m <= 12 → 1 <= d <= 31 → -719528 <= days_of y m d < 2932897 → 0 <= y <= 9999.
Proof.
  intros Hm Hd. unfold days_of.
  assert (m <= 2 ∧ 306 <= month_start (m + 9) <= 337 ∨ 2 < m ∧ 0 <= month_start (m - 3) <= 275) as [[H Hs]|[H Hs]].
  { unfold month_start. Z.to_euclidean_division_equations; lia. }
  - rewrite (proj2 (Z.leb_le m 2)) by done. generalize (month_start (m + 9)), Hs. intros s0 Hs0 Hb.
    assert (y - 1 < 9999 ∧ -2 < y - 1) as []; [|lia]. set (y' := y - 1) in *. clearbody y'. clear -Hs0 Hd Hb.
    Z.to_euclidean_division_equations; lia.
  - rewrite (proj2 (Z.leb_gt m 2)) by done. generalize (month_start (m - 3)), Hs. intros s0 Hs0 Hb.
    clear -Hs0 Hd Hb. Z.to_euclidean_division_equations; lia.
Qed.

(** The time of a day, from its parts. *)
Lemma sod_parts sod : 0 <= sod < 86400 →
  0 <= sod / 3600 < 24 ∧ 0 <= (sod / 60) `mod` 60 < 60 ∧ 0 <= sod `mod` 60 < 60 ∧
  sod / 3600 * 3600 + (sod / 60) `mod` 60 * 60 + sod `mod` 60 = sod.
Proof. intros H. Z.to_euclidean_division_equations; lia. Qed.

Lemma daysIn_le m y : daysIn m y <= 31.
Proof. unfold daysIn. repeat case_match; lia. Qed.

Lemma get_hour_two n s : 0 <= n < 100 → get_hour (two n ++ s) = Some (n, s).
Proof. intros Hn. unfold get_hour. by rewrite get_two. Qed.

Lemma skip_here n c s : eqc n c = true → skip_char n (c :: s) = Some s.
Proof. intros H. cbn [skip_char]. by rewrite H. Qed.

Lemma time_roundtrip off t :
  -1440 < off < 1440 → json_time t = true → ∃ s, time_text off t = Some s ∧ time_parse s = Some t.
Proof.
  unfold json_time. intros Hoff Ht. bool_to_Prop. unfold time_text.
  set (lt := t + off * 60 * second). set (secs := lt / second). set (sod := secs `mod` 86400).
  pose proof (days_of_civil (secs / 86400)) as Hdays. pose proof (civil_valid (secs / 86400)) as Hvalid.
  destruct (civil (secs / 86400)) as [[y m] d]. destruct Hvalid as (Hm & Hd). pose proof (daysIn_le m y) as H31.
  assert (-62167219200 <= secs < 253402300800) as Hsecs.
  { subst secs lt. unfold second. clear -Hoff H H0. Z.to_euclidean_division_equations; lia. }
  assert (-719528 <= secs / 86400 < 2932897) as Hsd by (clear -Hsecs; Z.to_euclidean_division_equations; lia).
  assert (0 <= y <= 9999) as Hy by (apply (year_bounds y m d); lia).
  rewrite (proj2 (Z.leb_le 0 y)), (proj2 (Z.leb_le y 9999)) by lia. cbn [andb]. eexists. split; [done|].
  pose proof (Z.mod_pos_bound secs 86400 ltac:(lia)) as Hsod. fold sod in Hsod.
  destruct (sod_parts sod Hsod) as (Hh & Hmi & Hse & Hsum).
  pose proof (Z.mod_pos_bound lt second ltac:(done)) as Hnanos.
  unfold time_parse. rewrite get_digits_digits by (simpl; lia).
  repeat first [rewrite skip_here by done | rewrite get_two by lia | rewrite get_hour_two by lia
               | progress cbn [mbind option_bind]].
  rewrite (get_fraction_fraction _ _ Hnanos (zone_ends off)), get_zone_text by done. cbn [mbind option_bind].
  assert (0 * 10 ^ Z.of_nat 4 + y = y) as -> by lia.
  rewrite (proj2 (Z.leb_le 1 m)), (proj2 (Z.leb_le m 12)), (proj2 (Z.leb_le 1 d)), (proj2 (Z.leb_le d _)),
    (proj2 (Z.ltb_lt _ 24)), (proj2 (Z.ltb_lt _ 60)), (proj2 (Z.ltb_lt _ 60)) by lia.
  cbn [andb]. rewrite Hdays. f_equal.
  pose proof (Z.div_mod secs 86400 ltac:(lia)) as Hs1. fold sod in Hs1.
  pose proof (Z.div_mod lt second ltac:(done)) as Hs2. fold secs in Hs2.
  assert (secs / 86400 * 86400 + sod / 3600 * 3600 + (sod / 60) `mod` 60 * 60 + sod `mod` 60 = secs) as Hs3 by lia.
  rewrite Hs3. unfold lt in *. unfold second in *. lia.
Qed.

(** The text needs no escapes. *)
Lemma digit_plain c : digit c = true → plain_char c = true.
Proof. destruct c; intros H; first [reflexivity|discriminate H]. Qed.

Lemma digits_plain k n : Forall (λ c, plain_char c = true) (digits k n).
Proof. eapply Forall_impl; [apply digits_all|]. intros c. apply digit_plain. Qed.

Lemma fraction_plain n : Forall (λ c, plain_char c = true) (fraction n).
Proof.
  unfold fraction. destruct (n =? 0); [done|]. constructor; [done|].
  destruct (trim_zeros_spec (digits 9 n)) as [j E]. pose proof (digits_plain 9 n) as H. rewrite E in H.
  by apply Forall_app in H as [? _].
Qed.

Lemma zone_plain off : Forall (λ c, plain_char c = true) (zone_text off).
Proof.
  unfold zone_text. destruct (off =? 0); [by repeat constructor|]. constructor; [by destruct (off <? 0)|].
  apply Forall_app. split; [apply digits_plain|]. constructor; [done|apply digits_plain].
Qed.

Lemma time_text_plain off t s : time_text off t = Some s → Forall (λ c, plain_char c = true) s.
Proof.
  unfold time_text. destruct (civil _) as [[y m] d]. destruct (_ && _); [|done]. intros H. apply (inj Some) in H as <-.
  repeat first [ apply Forall_app; split; [apply digits_plain || apply fraction_plain|]
               | apply Forall_cons; split; [done|] | apply zone_plain ].
Qed.

(** The offset of [time.Local], in minutes; the zone data base is a parameter.
    Local times of whole minutes are what every zone has kept since 1972. *)
Class LocalZone := {
  zone_offset : Z → Z;
  zone_bounded t : -1440 < zone_offset t < 1440;
}.

Definition utc : LocalZone.
Proof. by refine {| zone_offset _ := 0 |}. Defined.
