(* ===== verification/JsonValue.v ===== *)
(** * Go values as JSON

    How encoding/json writes and reads the Go types the program sends: texts,
    integers, byte arrays and slices, times and structs. A reader takes the
    value that is filled in, since [null] and missing fields leave it as it is;
    [None] is the error that [json.Unmarshal] returns in the end. A slice is
    filled afresh, where Go reuses the old elements' memory when an object
    names the same slice twice. *)

From S2P Require Import Prelude Hex Text Base64 Json JsonString Rfc3339.
From stdpp Require Import list options.

Definition text (s : string) : bytes := String.list_byte_of_string s.
Definition of_text (b : bytes) : string := String.string_of_list_byte b.

(** ** Writing *)

Definition enc_string (s : string) : json := JStr (quote (text s)).
Definition enc_int (z : Z) : json := JNum (text (pretty z)).
(** A [[n]byte] is an array of numbers, a [[]byte] is base64. *)
Definition enc_array (b : bytes) : json := JArr ((λ x, enc_int (Z.of_N (byteN x))) <$> b).
Definition enc_slice (b : bytes) : json := JStr (b64_encode b).
Definition enc_time `{LocalZone} (t : Z) : option json :=
  s ← time_text (zone_offset t) t; Some (JStr s).

Definition field (name : string) (v : json) : bytes * json := (quote (text name), v).

(** [omitempty] *)
Definition omit (empty : bool) (name : string) (v : json) : list (bytes * json) :=
  if empty then [] else [field name v].

(** ** Reading *)

Definition dec_string (j : json) (s : string) : option string :=
  match j with JNull => Some s | JStr raw => Some (of_text (unquote raw)) | _ => None end.

Definition dec_bool (j : json) (b : bool) : option bool :=
  match j with JNull => Some b | JBool b => Some b | _ => None end.

(** [strconv.ParseInt] of the number's text: no fraction and no exponent. *)
Definition dec_int (j : json) (z : Z) : option Z :=
  match j with
  | JNull => Some z
  | JNum t => match ParseInt (of_text t) with inr z => Some z | inl _ => None end
  | _ => None
  end.

Definition dec_byte (j : json) (b : byte) : option byte :=
  match j with
  | JNull => Some b
  | JNum t =>
      match ParseUint (of_text t) with
      | inr n => if (n <? 256)%N then Some (byte_of_N n) else None
      | inl _ => None
      end
  | _ => None
  end.

(** A [[n]byte]: extra elements are skipped, missing ones are zeroed. *)
Fixpoint dec_elements (l : list json) (old : bytes) : option bytes :=
  match old, l with
  | [], _ => Some []
  | _ :: old, [] => rest ← dec_elements [] old; Some (x00 :: rest)
  | b :: old, j :: l => x ← dec_byte j b; rest ← dec_elements l old; Some (x :: rest)
  end.

Definition dec_array {n} (j : json) (a : vec byte n) : option (vec byte n) :=
  match j with
  | JNull => Some a
  | JArr l => copy_array n <$> dec_elements l (vec_to_list a)
  | _ => None
  end.

(** A [[]byte]: base64, or an array of numbers. *)
Definition dec_bytes (j : json) : option (option bytes) :=
  match j with
  | JNull => Some None
  | JStr raw => Some <$> b64_decode (unquote raw)
  | JArr l => Some <$> mapM (λ j, dec_byte j x00) l
  | _ => None
  end.

(** [Time.UnmarshalJSON] gets the text between the quotes as it stands. *)
Definition dec_time (j : json) (t : Z) : option Z :=
  match j with JNull => Some t | JStr raw => time_parse raw | _ => None end.

Definition dec_list {T} (dec : json → T → option T) (zero : T) (j : json) : option (list T) :=
  match j with JNull => Some [] | JArr l => mapM (λ j, dec j zero) l | _ => None end.

Definition dec_pointer {T} (dec : json → T → option T) (zero : T) (j : json) (p : option T) : option (option T) :=
  match j with JNull => Some None | _ => Some <$> dec j (default zero p) end.

(** Field names are compared without regard to case; two characters outside
    ASCII fold to letters, the Kelvin sign and the long s. *)
Fixpoint fold_name (s : bytes) : bytes :=
  match s with
  | [] => []
  | c :: r =>
      let other := (if within 97 122 c then byte_of_N (byteN c - 32) else c) :: fold_name r in
      match r with
      | c2 :: r2 =>
          if eqc 197 c && eqc 191 c2 then x53 :: fold_name r2
          else
            match r2 with
            | c3 :: r3 => if eqc 226 c && eqc 132 c2 && eqc 170 c3 then x4b :: fold_name r3 else other
            | [] => other
            end
      | [] => other
      end
  end.

Definition key_index (names : list string) (key : bytes) : option nat :=
  fst <$> list_find (λ name, fold_name (text name) = fold_name (unquote key)) names.

(** A struct: its fields by their number in [names], others are skipped. *)
Fixpoint dec_fields {T} (names : list string) (set : nat → json → T → option T) (kvs : list (bytes * json)) (v : T) :
    option T :=
  match kvs with
  | [] => Some v
  | (k, j) :: kvs =>
      v ← match key_index names k with Some i => set i j v | None => Some v end;
      dec_fields names set kvs v
  end.

Definition dec_struct {T} (names : list string) (set : nat → json → T → option T) (j : json) (v : T) : option T :=
  match j with JNull => Some v | JObj kvs => dec_fields names set kvs v | _ => None end.

(** ** [any]: only a number out of the range of [float64] is an error *)

Definition float_fits (t : bytes) : bool :=
  let t := match t with c :: r => if eqc 45 c then r else t | [] => [] end in
  let '(whole, t) := span_digits t in
  let '(frac, t) := match t with c :: r => if eqc 46 c then span_digits r else ([], t) | [] => ([], []) end in
  let e :=
    match t with
    | _ :: c :: r => if eqc 45 c then - value r else if eqc 43 c then value r else value (c :: r)
    | _ => 0
    end%Z in
  let m := value (whole ++ frac) in
  let e := (e - Z.of_nat (length frac))%Z in
  let bound := (2 ^ 1024 - 2 ^ 970)%Z in
  if (0 <=? e)%Z then (m * 10 ^ e <? bound)%Z else (m <? bound * 10 ^ (- e))%Z.

Fixpoint any_fits (j : json) : bool :=
  match j with
  | JNum t => float_fits t
  | JArr l => forallb any_fits l
  | JObj l => forallb (λ '(_, j), any_fits j) l
  | _ => true
  end.

(** ** Round trips *)

Lemma of_text_text s : of_text (text s) = s.
Proof. apply String.string_of_list_byte_of_string. Qed.

Lemma byteN_of_ascii a : byteN (Ascii.byte_of_ascii a) = code a.
Proof. by destruct a as [[] [] [] [] [] [] [] []]. Qed.

Lemma text_cons a s : text (String a s) = Ascii.byte_of_ascii a :: text s.
Proof. done. Qed.

(** Texts that need no escapes. *)
Lemma unquote_plain s : Forall (λ c, plain_char c = true) s → unquote s = s.
Proof.
  intros H. rewrite <-(quote_plain s H) at 1. apply unquote_quote, ascii_valid.
  eapply Forall_impl; [exact H|]. intros c Hc. unfold plain_char in Hc. by bool_to_Prop.
Qed.

Lemma plain_ok s : Forall (λ c, plain_char c = true) s → string_ok s = true.
Proof. intros H. rewrite <-(quote_plain s H). apply quote_ok. Qed.

Lemma b64_plain b : Forall (λ c, plain_char c = true) (b64_encode b).
Proof.
  eapply Forall_impl; [apply b64_encode_ok|]. intros c.
  destruct c; intros H; first [reflexivity|discriminate H].
Qed.

Lemma dec_string_enc s s0 : valid_utf8 (text s) = true → dec_string (enc_string s) s0 = Some s.
Proof. intros H. cbn [dec_string enc_string]. by rewrite unquote_quote, of_text_text. Qed.

Lemma dec_bytes_enc b : dec_bytes (enc_slice b) = Some (Some b).
Proof. cbn [dec_bytes enc_slice]. by rewrite unquote_plain, b64_decode_encode by apply b64_plain. Qed.

Lemma dec_time_enc `{LocalZone} t t0 :
  json_time t = true → ∃ s, time_text (zone_offset t) t = Some s ∧ Forall (λ c, plain_char c = true) s ∧
    enc_time t = Some (JStr s) ∧ dec_time (JStr s) t0 = Some t.
Proof.
  intros Ht. destruct (time_roundtrip (zone_offset t) t (zone_bounded t) Ht) as (s & Hs & Hp).
  exists s. unfold enc_time. rewrite Hs. split_and!; [done| |done|done]. by eapply time_text_plain.
Qed.

(** *** Numbers *)

Lemma ParseInt_pretty z : is_int z → ParseInt (pretty z) = inr z.
Proof.
  intros Hz. pose proof (Atoi_pretty (λ s, s) z Hz) as H. unfold Atoi in H.
  destruct (ParseInt (pretty z)); [done|]. by apply Ok_inv in H as ->.
Qed.

Lemma dec_int_enc z z0 : is_int z → dec_int (enc_int z) z0 = Some z.
Proof. intros Hz. cbn [dec_int enc_int]. by rewrite of_text_text, ParseInt_pretty. Qed.

Lemma pretty_Z_of_N (n : N) : pretty (Z.of_N n) = pretty n.
Proof. by destruct n. Qed.

Lemma dec_byte_enc x x0 : dec_byte (enc_int (Z.of_N (byteN x))) x0 = Some x.
Proof.
  cbn [dec_byte enc_int]. rewrite of_text_text, pretty_Z_of_N. pose proof (byteN_lt x).
  assert (ParseUint (pretty (byteN x)) = inr (byteN x)) as ->.
  { pose proof (parse_pretty (byteN x) ltac:(unfold maxUint64; lia)) as Hp.
    destruct (pretty_N_head (byteN x)) as (d & s & _ & E). by rewrite E in *. }
  by rewrite (proj2 (N.ltb_lt _ _)), byte_of_byteN.
Qed.

(** Every number that is written is a number of the syntax. *)
Lemma pretty_N_nonzero (n : N) : (0 < n)%N → ∃ d s, (0 < d < 10)%N ∧ pretty n = String (pretty_N_char d) s.
Proof.
  assert (∀ n s, 0 < n → ∃ d s', 0 < d < 10 ∧ pretty_N_go n s = String (pretty_N_char d) s')%N as Hgo.
  { clear n. intros n. induction (N.lt_wf_0 n) as [n _ IH]; intros s Hn.
    rewrite pretty_N_go_step by done. destruct (decide (n / 10 = 0)%N) as [E|Hne].
    - rewrite E, pretty_N_go_0. eexists _, _. split; [|done].
      pose proof (N.mod_lt n 10 ltac:(done)) as Hm. pose proof (N.div_mod n 10 ltac:(done)) as Hdm.
      rewrite E in Hdm. revert Hm Hdm. generalize (n `mod` 10)%N. intros; lia.
    - apply IH; [by apply N.div_lt|by apply N.neq_0_lt_0]. }
  intros Hn. unfold pretty, pretty_N. case_decide; [lia|]. by apply Hgo.
Qed.

Lemma text_digits s : all_digits s → Forall (λ c, digit c = true) (text s).
Proof.
  unfold all_digits. induction s as [|a s IH]; [done|]. rewrite text_cons. cbn [String.list_ascii_of_string].
  intros [Ha Hs]%List.Forall_cons_iff. constructor; [|by apply IH].
  unfold digit. rewrite byteN_of_ascii. by rewrite (proj2 (N.leb_le _ _)), (proj2 (N.leb_le _ _)) by lia.
Qed.

Lemma skip_all_digits s : Forall (λ c, digit c = true) s → skip_digits s = [].
Proof. induction 1 as [|c s Hc Hs IH]; [done|]. simpl. by rewrite Hc. Qed.

Lemma number_ok_N (n : N) : ∃ c r, text (pretty n) = c :: r ∧ digit c = true ∧
  (if eqc 48 c then fraction_ok r else digit c && fraction_ok (skip_digits r)) = true.
Proof.
  destruct (decide (n = 0)%N) as [->|Hn]; [by eexists _, _|].
  destruct (pretty_N_nonzero n ltac:(lia)) as (d & s & Hd & E).
  pose proof (text_digits _ (pretty_N_digits n)) as Hall. rewrite E, text_cons in *.
  eexists _, _. split; [done|]. apply List.Forall_cons_iff in Hall as [Hc Hs].
  unfold eqc. rewrite byteN_of_ascii, pretty_digit by lia. rewrite (proj2 (N.eqb_neq _ _)) by lia.
  by rewrite Hc, skip_all_digits.
Qed.

Lemma enc_int_wf z : wf (enc_int z) = true.
Proof.
  cbn [wf enc_int]. unfold number_ok. destruct z as [|p|p]; [done| |].
  - change (pretty (Z.pos p)) with (pretty (N.pos p)). destruct (number_ok_N (N.pos p)) as (c & r & -> & Hc & H).
    destruct (eqc 45 c) eqn:E; [apply eqc_byte in E as ->; done|]. exact H.
  - change (text (pretty (Z.neg p))) with (x2d :: text (pretty (N.pos p))).
    change (eqc 45 x2d) with true. cbn iota. destruct (number_ok_N (N.pos p)) as (c & r & -> & Hc & H). exact H.
Qed.

(** *** Arrays of bytes *)

Lemma dec_elements_enc b old :
  length old = length b → dec_elements ((λ x, enc_int (Z.of_N (byteN x))) <$> b) old = Some b.
Proof.
  revert old. induction b as [|x b IH]; intros [|o old]; [done..|]. intros Hl.
  rewrite fmap_cons. cbn [dec_elements]. rewrite dec_byte_enc. cbn [mbind option_bind].
  rewrite IH; [done|]. simpl in Hl. lia.
Qed.

Lemma dec_array_enc {n} (a a0 : vec byte n) : dec_array (enc_array (vec_to_list a)) a0 = Some a.
Proof.
  cbn [dec_array enc_array]. rewrite dec_elements_enc by (by rewrite !length_vec_to_list).
  cbn [fmap option_fmap option_map]. by rewrite copy_array_id.
Qed.

Lemma enc_array_wf b : wf (enc_array b) = true.
Proof.
  cbn [wf enc_array]. rewrite forallb_forall. intros j Hj. apply list_elem_of_In, list_elem_of_fmap in Hj as (x & -> & _).
  apply enc_int_wf.
Qed.

Lemma enc_array_height b : (height (enc_array b) <= 1)%nat.
Proof. cbn [height enc_array]. induction b as [|x b IH]; [done|]. cbn [fmap list_fmap foldr]. simpl in *. lia. Qed.

(** *** Structs *)

Lemma dec_fields_app {T} names (set : nat → json → T → option T) l1 l2 v v' :
  dec_fields names set l1 v = Some v' → dec_fields names set (l1 ++ l2) v = dec_fields names set l2 v'.
Proof.
  revert v. induction l1 as [|[k j] l1 IH]; intros v; cbn [dec_fields app]; [by intros [= ->]|].
  intros H. destruct (match key_index names k with Some i => set i j v | None => Some v end) as [v1|]; [|done].
  cbn [mbind option_bind] in *. by apply IH.
Qed.

Lemma dec_field {T} names (set : nat → json → T → option T) i name j v v' :
  key_index names (quote (text name)) = Some i → set i j v = Some v' →
  dec_fields names set [field name j] v = Some v'.
Proof. intros Hi Hv. cbn [dec_fields field]. rewrite Hi, Hv. done. Qed.

(** A field that is left out has its zero value. *)
Lemma dec_omit {T} names (set : nat → json → T → option T) i (empty : bool) name j v v' :
  (empty = true → v = v') → key_index names (quote (text name)) = Some i →
  (empty = false → set i j v = Some v') → dec_fields names set (omit empty name j) v = Some v'.
Proof.
  intros Ht Hi Hf. destruct empty; [by rewrite (Ht eq_refl)|]. apply (dec_field _ _ i); [done|by apply Hf].
Qed.

Lemma dec_list_enc {T} (dec : json → T → option T) (enc : T → option json) zero l js :
  mapM enc l = Some js → (∀ x j, x ∈ l → enc x = Some j → dec j zero = Some x) →
  dec_list dec zero (JArr js) = Some l.
Proof.
  intros Hjs Hd. cbn [dec_list]. apply mapM_Some in Hjs. apply mapM_Some.
  induction Hjs as [|x j l js Hx Hl IH]; constructor.
  - apply (Hd x j); [left|done].
  - apply IH. intros y j' Hy. apply Hd. by right.
Qed.
