(* ===== verification/Sha256.v ===== *)
(** * SHA-256: what the program uses of [crypto/sha256]

    [sha256.Sum256] as FIPS 180-4 defines it, executable, so that chunk
    identifiers and Merkle roots are concrete values. The proofs elsewhere
    use no property of the function beyond its being one: statements about
    content addressing exhibit a collision instead of assuming there is
    none. *)

From S2P Require Import Prelude.
From stdpp Require Import options.
Local Open Scope N_scope.

Definition add32 (a b : N) : N := (a + b) `mod` 2 ^ 32.
Definition rotr (n x : N) : N :=
  N.lor (N.shiftr x n) (N.shiftl x (32 - n) `mod` 2 ^ 32).
Definition Ch (x y z : N) : N :=
  N.lxor (N.land x y) (N.land (N.lxor x (2 ^ 32 - 1)) z).
Definition Maj (x y z : N) : N :=
  N.lxor (N.lxor (N.land x y) (N.land x z)) (N.land y z).
Definition Sigma0 (x : N) : N := N.lxor (N.lxor (rotr 2 x) (rotr 13 x)) (rotr 22 x).
Definition Sigma1 (x : N) : N := N.lxor (N.lxor (rotr 6 x) (rotr 11 x)) (rotr 25 x).
Definition sigma0 (x : N) : N := N.lxor (N.lxor (rotr 7 x) (rotr 18 x)) (N.shiftr x 3).
Definition sigma1 (x : N) : N := N.lxor (N.lxor (rotr 17 x) (rotr 19 x)) (N.shiftr x 10).

(** The constants are the first 32 bits of the fractional parts of the cube
    roots (rounds) and square roots (initial hash) of the first primes. *)
Definition primes : list N :=
  filter (λ n, forallb (λ d, negb (n `mod` d =? 0)) (N.of_nat <$> seq 2 (N.to_nat n - 2)))
    (N.of_nat <$> seq 2 310).

(** Integer cube root, one bit at a time from bit [k - 1] down. *)
Fixpoint cube_root (k : nat) (x acc : N) : N :=
  match k with
  | O => acc
  | S k' => let t := acc + 2 ^ N.of_nat k' in
            cube_root k' x (if t * t * t <=? x then t else acc)
  end.

Definition round_constants : list N := Eval vm_compute in
  (λ p, cube_root 36 (p * 2 ^ 96) 0 `mod` 2 ^ 32) <$> primes.

Record hash_state := HashState { hA : N; hB : N; hC : N; hD : N; hE : N; hF : N; hG : N; hH : N }.

Definition initial_hash : hash_state := Eval vm_compute in
  let h i := N.sqrt (nth i primes 0 * 2 ^ 64) `mod` 2 ^ 32 in
  HashState (h 0%nat) (h 1%nat) (h 2%nat) (h 3%nat) (h 4%nat) (h 5%nat) (h 6%nat) (h 7%nat).

Definition round (s : hash_state) (k w : N) : hash_state :=
  let t1 := add32 (add32 (add32 (hH s) (Sigma1 (hE s))) (add32 (Ch (hE s) (hF s) (hG s)) k)) w in
  let t2 := add32 (Sigma0 (hA s)) (Maj (hA s) (hB s) (hC s)) in
  HashState (add32 t1 t2) (hA s) (hB s) (hC s) (add32 (hD s) t1) (hE s) (hF s) (hG s).

(** [win] is the window of the sixteen most recent schedule words, the oldest
    first; its head is the word of the current round. *)
Definition next_word (win : list N) : N :=
  add32 (add32 (sigma1 (nth 14 win 0)) (nth 9 win 0)) (add32 (sigma0 (nth 1 win 0)) (nth 0 win 0)).

Fixpoint rounds (ks win : list N) (s : hash_state) : hash_state :=
  match ks with
  | [] => s
  | k :: ks' => rounds ks' (tail win ++ [next_word win]) (round s k (nth 0 win 0))
  end.

Definition be_word (b : bytes) : N := fold_left (λ acc x, 256 * acc + byteN x) b 0.
Fixpoint be_words (n : nat) (b : bytes) : list N :=
  match n with O => [] | S n' => be_word (take 4 b) :: be_words n' (drop 4 b) end.

Definition compress (s : hash_state) (block : bytes) : hash_state :=
  let r := rounds round_constants (be_words 16 block) s in
  HashState (add32 (hA s) (hA r)) (add32 (hB s) (hB r)) (add32 (hC s) (hC r)) (add32 (hD s) (hD r))
            (add32 (hE s) (hE r)) (add32 (hF s) (hF r)) (add32 (hG s) (hG r)) (add32 (hH s) (hH r)).

(** [be_bytes n x]: the [n] low-order bytes of [x], most significant first. *)
Fixpoint be_bytes (n : nat) (x : N) : bytes :=
  match n with
  | O => []
  | S n' => byte_of_N (N.shiftr x (8 * N.of_nat n')) :: be_bytes n' x
  end.

Definition padding (len : nat) : bytes :=
  x80 :: replicate ((119 - len `mod` 64) `mod` 64) x00 ++ be_bytes 8 (8 * N.of_nat len).

Fixpoint compress_blocks (n : nat) (b : bytes) (s : hash_state) : hash_state :=
  match n with
  | O => s
  | S n' => compress_blocks n' (drop 64 b) (compress s (take 64 b))
  end.

Definition digest (b : bytes) : bytes :=
  let m := b ++ padding (length b) in
  let s := compress_blocks (length m / 64)%nat m initial_hash in
  mjoin (be_bytes 4 <$> [hA s; hB s; hC s; hD s; hE s; hF s; hG s; hH s]).

Definition Sum256 (b : bytes) : vec byte 32 := copy_array 32 (digest b).

Lemma length_be_bytes n x : length (be_bytes n x) = n.
Proof. induction n; simpl; congruence. Qed.

Lemma length_join_be_bytes n ws :
  length (mjoin (be_bytes n <$> ws)) = (n * length ws)%nat.
Proof.
  induction ws as [|w ws IH]; [simpl; lia|].
  rewrite fmap_cons. simpl. rewrite length_app, length_be_bytes, IH. lia.
Qed.

Lemma length_digest b : length (digest b) = 32%nat.
Proof. unfold digest. by rewrite length_join_be_bytes. Qed.

Lemma Sum256_list b : vec_to_list (Sum256 b) = digest b.
Proof. apply copy_array_list, length_digest. Qed.

(** The padded message is a whole number of blocks. *)
Lemma padded_blocks b : (length (b ++ padding (length b)) `mod` 64 = 0)%nat.
Proof.
  unfold padding.
  rewrite length_app, length_cons, length_app, length_replicate, length_be_bytes.
  pose proof (Nat.mod_upper_bound (length b) 64 ltac:(done)) as Hlt.
  pose proof (Nat.div_mod_eq (length b) 64) as Hdm.
  set (r := (length b `mod` 64)%nat) in *.
  destruct (decide (r < 56)%nat).
  - replace ((119 - r) `mod` 64)%nat with (55 - r)%nat.
    + replace (length b + S (55 - r + 8))%nat with ((length b / 64 + 1) * 64)%nat by lia.
      apply Nat.Div0.mod_mul.
    + symmetry. replace (119 - r)%nat with ((55 - r) + 1 * 64)%nat by lia.
      rewrite Nat.Div0.mod_add. apply Nat.mod_small. lia.
  - rewrite (Nat.mod_small (119 - r)) by lia.
    replace (length b + S (119 - r + 8))%nat with ((length b / 64 + 2) * 64)%nat by lia.
    apply Nat.Div0.mod_mul.
Qed.

#[global] Arguments digest : simpl never.
#[global] Arguments Sum256 : simpl never.

(** Test vectors of FIPS 180-4. *)
Example digest_empty :
  digest [] = be_bytes 32 0xe3b0c44298fc1c149afbf4c8996fb92427ae41e4649b934ca495991b7852b855.
Proof. by vm_compute. Qed.
Example digest_abc :
  digest [x61; x62; x63]
  = be_bytes 32 0xba7816bf8f01cfea414140de5dae2223b00361a396177a9cb410ff61f20015ad.
Proof. by vm_compute. Qed.
Example digest_two_blocks :
  digest (replicate 200 x61)
  = be_bytes 32 0xc2a908d98f5df987ade41b5fce213067efbcc21ef2240212a41e54b5e7c28ae5.
Proof. by vm_compute. Qed.

#[global] Opaque digest Sum256.
