(* ===== verification/ChunkId.v ===== *)
(** * Chunk identifiers (src/internal/storage/chunkid.go)

    A chunk is named by the SHA-256 of its content; the name is written in
    hexadecimal in file names and messages. *)

From S2P Require Import Prelude Hex Sha256.
From stdpp Require Import options.
Local Open Scope string_scope.

Notation ChunkID := (vec byte 32).

Definition zero_ChunkID : ChunkID := copy_array 32 [].

Definition NewChunkID (data : bytes) : ChunkID := Sum256 data.

Definition ChunkID_Bytes (id : ChunkID) : bytes := vec_to_list id.

Definition ChunkID_String (id : ChunkID) : string := EncodeToString (vec_to_list id).

Definition ChunkIDFromHex (s : string) : res ChunkID :=
  b ← wrap_err "ChunkIDFromHex: decode error" (DecodeString s);
  if (length b =? 32)%nat then Ok (copy_array 32 b)
  else Err (EMsg ("ChunkIDFromHex: invalid length: got " +:+ pretty (length b)
                  +:+ ", want 32")).

(** Panics when parsing fails. *)
Definition MustChunkIDFromHex (s : string) : res ChunkID :=
  match ChunkIDFromHex s with Ok id => Ok id | _ => Panic end.

Definition ChunkID_Equal (id other : ChunkID) : bool := bool_decide (id = other).

(** ** Properties *)

#[export] Instance ChunkID_String_inj : Inj (=) (=) ChunkID_String.
Proof. intros a b H. by apply (inj vec_to_list), (inj EncodeToString). Qed.

Lemma length_ChunkID_String id : String.length (ChunkID_String id) = 64%nat.
Proof. unfold ChunkID_String. by rewrite length_Encode, length_vec_to_list. Qed.

Lemma ChunkIDFromHex_String id : ChunkIDFromHex (ChunkID_String id) = Ok id.
Proof.
  unfold ChunkIDFromHex, ChunkID_String. rewrite Decode_Encode. simpl.
  by rewrite length_vec_to_list, Nat.eqb_refl, copy_array_id.
Qed.

Lemma ChunkIDFromHex_no_panic s : ChunkIDFromHex s ≠ Panic.
Proof.
  unfold ChunkIDFromHex. pose proof (Decode_no_panic s).
  destruct (DecodeString s); simpl; [by case_match|done|done].
Qed.

Lemma ChunkIDFromHex_Ok s id :
  ChunkIDFromHex s = Ok id → ChunkID_String id = ToLower s ∧ String.length s = 64%nat.
Proof.
  unfold ChunkIDFromHex. intros (b & Hb%wrap_err_Ok & H)%res_bind_Ok.
  destruct (length b =? 32)%nat eqn:Hl; simplify_eq. bool_to_Prop.
  unfold ChunkID_String. rewrite copy_array_list by done.
  split; [by apply Encode_Decode|]. rewrite (length_Decode s b) by done. lia.
Qed.

(** A text is accepted exactly when it is 64 hexadecimal digits. *)
Lemma ChunkIDFromHex_ok_iff s :
  is_ok (ChunkIDFromHex s) = all_hex s && (String.length s =? 64)%nat.
Proof.
  unfold ChunkIDFromHex. pose proof (Decode_ok_iff s) as Hiff.
  pose proof (length_Decode s) as Hlen.
  pose proof (Decode_no_panic s) as Hnp.
  destruct (DecodeString s) as [b|e|]; simpl in *; symmetry in Hiff; simpl.
  - specialize (Hlen b eq_refl). apply andb_true_iff in Hiff as [-> _]. simpl.
    destruct (length b =? 32)%nat eqn:Hb; simpl; bool_to_Prop; symmetry;
      [apply Nat.eqb_eq|apply Nat.eqb_neq]; lia.
  - destruct (String.length s =? 64)%nat eqn:E; [|by rewrite andb_false_r].
    apply Nat.eqb_eq in E. rewrite E in Hiff. simpl in Hiff.
    by rewrite andb_true_r in Hiff |- *.
  - done.
Qed.
