(* ===== verification/Merkle.v ===== *)
(** * Merkle roots (src/internal/storage/merkle.go)

    [MerkleRootForChunks] folds the list of chunk identifiers level by level,
    hashing neighbours and promoting an odd last element. Shown here: it
    returns a root for every non-empty list; the root is the one of the
    recursive tree of RFC 6962 (split at the largest power of two); two
    lists of one length with the same root are equal unless the hashes taken
    on the way collide; and the root does not determine the length. *)

From Equations Require Import Equations.
From S2P Require Import Prelude Sha256 ChunkId.
From stdpp Require Import options.
Set Equations Transparent.

(** [sha256.Sum256(append(append(buf[:0], l[:]...), r[:]...))] *)
Definition hash_pair (l r : ChunkID) : ChunkID := Sum256 (vec_to_list l ++ vec_to_list r).

(** One run of the inner loop: [for i := 0; i < len(cur); i += 2]. *)
Fixpoint merkle_level (cur : list ChunkID) : list ChunkID :=
  match cur with
  | l :: r :: rest => hash_pair l r :: merkle_level rest
  | _ => cur
  end.

(** Induction two elements at a time. *)
Lemma list_pair_ind {A} (P : list A → Prop) :
  P [] → (∀ a, P [a]) → (∀ a b l, P l → P (a :: b :: l)) → ∀ l, P l.
Proof.
  intros H0 H1 H2. fix IH 1. intros [|a [|b l]]; [done|done|]. apply H2, IH.
Qed.

Lemma length_merkle_level cur : length (merkle_level cur) = Nat.div2 (S (length cur)).
Proof. induction cur using list_pair_ind; simpl in *; congruence. Qed.

Lemma merkle_level_shorter cur :
  1 < length cur → length (merkle_level cur) < length cur.
Proof.
  rewrite length_merkle_level. destruct (length cur) as [|[|n]]; [lia|lia|intros _].
  pose proof (Nat.lt_div2 (S n)). simpl in *. lia.
Qed.

(** The outer loop: [for len(cur) > 1 { ... cur = next }]. *)
Equations? merkle_loop (cur : list ChunkID) : list ChunkID by wf (length cur) lt :=
  merkle_loop cur with decide (1 < length cur) => {
    | left _ := merkle_loop (merkle_level cur);
    | right _ := cur }.
Proof. by apply merkle_level_shorter. Qed.

Definition MerkleRootForChunks (ids : list ChunkID) : res ChunkID :=
  match ids with
  | [] => Err (EMsg "MerkleRootForChunks: no chunks provided")
  | [id] => Ok id
  | _ => match merkle_loop ids with
         | root :: _ => Ok root
         | [] => Panic (* cur[0] out of range *)
         end
  end.

(** The inputs hashed while computing the root, level by level. *)
Fixpoint level_inputs (cur : list ChunkID) : list bytes :=
  match cur with
  | l :: r :: rest => (vec_to_list l ++ vec_to_list r) :: level_inputs rest
  | _ => []
  end.

Equations? merkle_inputs (cur : list ChunkID) : list bytes by wf (length cur) lt :=
  merkle_inputs cur with decide (1 < length cur) => {
    | left _ := level_inputs cur ++ merkle_inputs (merkle_level cur);
    | right _ := [] }.
Proof. by apply merkle_level_shorter. Qed.

(** The tree of RFC 6962: a list longer than one is split at the largest
    power of two smaller than its length. *)
Inductive tree_root : list ChunkID → ChunkID → Prop :=
  | tree_leaf x : tree_root [x] x
  | tree_node l j a b :
      2 ^ j < length l ≤ 2 ^ S j →
      tree_root (take (2 ^ j) l) a → tree_root (drop (2 ^ j) l) b →
      tree_root l (hash_pair a b).

(** ** The loop *)

Lemma merkle_loop_step l : 1 < length l → merkle_loop l = merkle_loop (merkle_level l).
Proof.
  intros. rewrite merkle_loop_equation_1 at 1. unfold merkle_loop_unfold_clause_1.
  by case_decide.
Qed.

Lemma merkle_loop_done l : length l ≤ 1 → merkle_loop l = l.
Proof.
  intros. rewrite merkle_loop_equation_1. unfold merkle_loop_unfold_clause_1.
  case_decide; [lia|done].
Qed.

Lemma merkle_level_nonempty l : l ≠ [] → merkle_level l ≠ [].
Proof. by destruct l as [|a [|b l]]. Qed.

(** Induction along the loop. *)
Lemma merkle_ind (P : list ChunkID → Prop) :
  P [] → (∀ x, P [x]) → (∀ l, 1 < length l → P (merkle_level l) → P l) → ∀ l, P l.
Proof.
  intros H0 H1 H2 l. remember (length l) as n eqn:Hn. revert l Hn.
  induction n as [n IH] using lt_wf_ind. intros l ->.
  destruct (decide (1 < length l)) as [Hl|Hl].
  - apply H2; [done|]. by eapply IH; [apply merkle_level_shorter|].
  - destruct l as [|x [|y l]]; simpl in *; [done|done|lia].
Qed.

Lemma merkle_loop_singleton l : l ≠ [] → ∃ r, merkle_loop l = [r].
Proof.
  induction l as [|x|l Hl IH] using merkle_ind; intros Hne; [done|..].
  - exists x. by apply merkle_loop_done.
  - rewrite merkle_loop_step by done. by apply IH, merkle_level_nonempty.
Qed.

Lemma MerkleRoot_loop l r : MerkleRootForChunks l = Ok r ↔ merkle_loop l = [r].
Proof.
  destruct l as [|x [|y l]].
  - rewrite merkle_loop_done by (simpl; lia). naive_solver.
  - rewrite merkle_loop_done by (simpl; lia). naive_solver.
  - destruct (merkle_loop_singleton (x :: y :: l)) as [r' Hr]; [done|].
    unfold MerkleRootForChunks. rewrite Hr. naive_solver.
Qed.

(** ** Equivalence with the recursive tree *)

Lemma merkle_level_take j l :
  merkle_level (take (2 * j) l) = take j (merkle_level l).
Proof.
  revert j. induction l as [|x|x y l IH] using list_pair_ind; intros j.
  - simpl. by rewrite !take_nil.
  - destruct j as [|j]; [done|]. rewrite Nat.mul_succ_r, Nat.add_comm. simpl.
    by rewrite !take_nil.
  - destruct j as [|j]; [done|]. rewrite Nat.mul_succ_r, Nat.add_comm. simpl.
    f_equal. apply IH.
Qed.

Lemma merkle_level_drop j l :
  merkle_level (drop (2 * j) l) = drop j (merkle_level l).
Proof.
  revert j. induction l as [|x|x y l IH] using list_pair_ind; intros j.
  - simpl. by rewrite !drop_nil.
  - destruct j as [|j]; [done|]. rewrite Nat.mul_succ_r, Nat.add_comm.
    simpl. by destruct (2 * j), j.
  - destruct j as [|j]; [done|]. rewrite Nat.mul_succ_r, Nat.add_comm. simpl. apply IH.
Qed.

Lemma div2_bounds n j : j < Nat.div2 (S n) ≤ 2 * j → 2 * j < n ≤ 2 * (2 * j).
Proof.
  intros. pose proof (Nat.div2_odd (S n)) as H1. destruct (Nat.odd (S n)); simpl in *; lia.
Qed.

(** A tree over a level is a tree over the list below it. *)
Lemma tree_root_level l r : tree_root (merkle_level l) r → tree_root l r.
Proof.
  remember (merkle_level l) as l1 eqn:Hl1. intros H. revert l Hl1.
  induction H as [x|l1 j a b Hj _ IHa _ IHb]; intros l Hl.
  - destruct l as [|y [|z [|w l]]]; simplify_eq/=; [apply tree_leaf| |by destruct l].
    apply (tree_node [y; z] 0 y z); simpl; [lia|apply tree_leaf..].
  - subst l1. rewrite length_merkle_level in Hj. apply div2_bounds in Hj.
    apply (tree_node l (S j)); [simpl in *; lia|..].
    + apply IHa. by rewrite <-merkle_level_take.
    + apply IHb. by rewrite <-merkle_level_drop.
Qed.

Lemma merkle_loop_tree l r : merkle_loop l = [r] → tree_root l r.
Proof.
  induction l as [|x|l Hl IH] using merkle_ind.
  - by rewrite merkle_loop_done by (simpl; lia).
  - rewrite merkle_loop_done by (simpl; lia). intros [= ->]. apply tree_leaf.
  - rewrite merkle_loop_step by done. auto using tree_root_level.
Qed.

Lemma pow2_bracket_unique n i j :
  2 ^ i < n ≤ 2 ^ S i → 2 ^ j < n ≤ 2 ^ S j → i = j.
Proof.
  intros Hi Hj. destruct (lt_eq_lt_dec i j) as [[Hlt|]|Hlt]; [|done|].
  - pose proof (Nat.pow_le_mono_r 2 (S i) j). lia.
  - pose proof (Nat.pow_le_mono_r 2 (S j) i). lia.
Qed.

Lemma tree_root_functional l r r' : tree_root l r → tree_root l r' → r = r'.
Proof.
  intros H. revert r'. induction H as [x|l j a b Hj _ IHa _ IHb]; intros r' H'.
  - inversion H' as [|l' j a b Hj]; [done|subst].
    simpl in *. pose proof (Nat.pow_nonzero 2 j). lia.
  - inversion H' as [x|l' i a' b' Hi Ha Hb]; subst.
    + simpl in *. pose proof (Nat.pow_nonzero 2 j). lia.
    + pose proof (pow2_bracket_unique _ _ _ Hi Hj) as ->.
      f_equal; [by apply IHa|by apply IHb].
Qed.

(** ** Binding *)

(** No two of the given inputs collide. *)
Definition collision_free (xs ys : list bytes) : Prop :=
  ∀ x y, x ∈ xs → y ∈ ys → Sum256 x = Sum256 y → x = y.

Lemma collision_free_cons x y xs ys :
  collision_free (x :: xs) (y :: ys) →
  (Sum256 x = Sum256 y → x = y) ∧ collision_free xs ys.
Proof. intros H. split; [|intros u v Hu Hv]; apply H; by constructor. Qed.

Lemma collision_free_app xs1 xs2 ys1 ys2 :
  collision_free (xs1 ++ xs2) (ys1 ++ ys2) →
  collision_free xs1 ys1 ∧ collision_free xs2 ys2.
Proof.
  intros H. split; intros u v Hu Hv; apply H; apply elem_of_app; auto.
Qed.

Lemma hash_pair_inj (l r l' r' : ChunkID) :
  vec_to_list l ++ vec_to_list r = vec_to_list l' ++ vec_to_list r' → l = l' ∧ r = r'.
Proof.
  intros H. apply app_inj_1 in H as [H1 H2]; [|by rewrite !length_vec_to_list].
  split; by apply (inj vec_to_list).
Qed.

Lemma merkle_level_inj l l' :
  length l = length l' → collision_free (level_inputs l) (level_inputs l') →
  merkle_level l = merkle_level l' → l = l'.
Proof.
  revert l'. induction l as [|x|x y l IH] using list_pair_ind;
    intros [|x' [|y' l']] Hlen Hcf; simpl in *; try done.
  intros [Hh Hl]%cons_inv. apply collision_free_cons in Hcf as [Hhash Hcf].
  apply Hhash, hash_pair_inj in Hh as [-> ->].
  do 2 f_equal. apply IH; [lia|exact Hcf|exact Hl].
Qed.

Lemma merkle_inputs_step l :
  1 < length l → merkle_inputs l = level_inputs l ++ merkle_inputs (merkle_level l).
Proof.
  intros. rewrite merkle_inputs_equation_1 at 1. unfold merkle_inputs_unfold_clause_1.
  by case_decide.
Qed.

Lemma merkle_loop_inj l l' :
  length l = length l' → collision_free (merkle_inputs l) (merkle_inputs l') →
  merkle_loop l = merkle_loop l' → l = l'.
Proof.
  revert l'. induction l as [|x|l Hl IH] using merkle_ind; intros l' Hlen Hcf.
  - by destruct l'.
  - rewrite !merkle_loop_done by (simpl in *; lia). done.
  - rewrite (merkle_inputs_step l), (merkle_inputs_step l') in Hcf by lia.
    apply collision_free_app in Hcf as [Hcf1 Hcf2].
    rewrite (merkle_loop_step l), (merkle_loop_step l') by lia. intros Hloop.
    apply merkle_level_inj; [done|done|]. apply IH; [|done|done].
    rewrite !length_merkle_level. congruence.
Qed.

(** ** Properties *)

(** [MerkleRootForChunks] returns a root for every non-empty list of
    chunk identifiers (its loop ends and [cur[0]] is in range), and fails
    on the empty list only. *)
Theorem MerkleRoot_total ids :
  is_ok (MerkleRootForChunks ids) = negb (bool_decide (ids = [])) ∧
  MerkleRootForChunks ids ≠ Panic.
Proof.
  destruct (decide (ids = [])) as [->|Hne]; [by split|].
  destruct (merkle_loop_singleton ids Hne) as [r Hr].
  apply MerkleRoot_loop in Hr. rewrite Hr. by rewrite bool_decide_eq_false_2.
Qed.

(** C12: the root computed level by level, with odd elements promoted, is the
    root of the recursive tree that splits a list at the largest power of
    two below its length, and of no other. *)
Theorem MerkleRoot_tree ids r :
  MerkleRootForChunks ids = Ok r ↔ tree_root ids r.
Proof.
  rewrite MerkleRoot_loop. split; [apply merkle_loop_tree|]. intros Ht.
  destruct (merkle_loop_singleton ids) as [r' Hr].
  { intros ->. inversion Ht; simpl in *; lia. }
  rewrite Hr. f_equal. eapply tree_root_functional; [|done]. by apply merkle_loop_tree.
Qed.

(** C23: the root binds the chunk list: two different lists of the same length
    (a reordering, a replaced chunk) have different roots, unless two of the
    inputs hashed for the two roots collide under SHA-256. *)
Theorem MerkleRoot_binding ids ids' :
  length ids = length ids' → ids ≠ ids' →
  collision_free (merkle_inputs ids) (merkle_inputs ids') →
  MerkleRootForChunks ids ≠ MerkleRootForChunks ids'.
Proof.
  intros Hlen Hne Hcf Heq. apply Hne, merkle_loop_inj; [done|done|].
  destruct (decide (ids = [])) as [->|Hids]; [by destruct ids'|].
  destruct (merkle_loop_singleton ids Hids) as [r Hr].
  rewrite Hr. symmetry. apply MerkleRoot_loop. rewrite <-Heq. by apply MerkleRoot_loop.
Qed.

(** The root does not bind the number of chunks: a list of at least two
    chunks has the root of the shorter list of its own inner nodes, because
    leaves and inner nodes are hashed alike. *)
Theorem MerkleRoot_level_ambiguous ids :
  2 ≤ length ids →
  MerkleRootForChunks (merkle_level ids) = MerkleRootForChunks ids ∧
  length (merkle_level ids) < length ids.
Proof.
  intros Hlen. split; [|apply merkle_level_shorter; lia].
  destruct (merkle_loop_singleton ids) as [r Hr]; [by intros ->; simpl in Hlen; lia|].
  pose proof Hr as Hr'. rewrite merkle_loop_step in Hr' by lia.
  apply MerkleRoot_loop in Hr, Hr'. congruence.
Qed.

(** ** Witnesses *)

Definition ids_abc : list ChunkID := [NewChunkID [x61]; NewChunkID [x62]; NewChunkID [x63]].
Definition ids_acb : list ChunkID := [NewChunkID [x61]; NewChunkID [x63]; NewChunkID [x62]].

(** Collision freedom of concrete inputs is decided by computing. *)
Definition collision_freeb (xs ys : list bytes) : bool :=
  forallb (λ x, forallb (λ y, bool_decide (Sum256 x = Sum256 y → x = y)) ys) xs.

Lemma collision_freeb_spec xs ys : collision_freeb xs ys = true → collision_free xs ys.
Proof.
  unfold collision_freeb. intros H x y Hx%list_elem_of_In Hy%list_elem_of_In Hxy.
  rewrite List.forallb_forall in H. specialize (H x Hx). simpl in H.
  rewrite List.forallb_forall in H. specialize (H y Hy). simpl in H.
  apply bool_decide_eq_true in H. auto.
Qed.

Lemma MerkleRoot_binding_witness :
  MerkleRootForChunks ids_abc ≠ MerkleRootForChunks ids_acb.
Proof.
  apply (MerkleRoot_binding ids_abc ids_acb); [done|by vm_compute|].
  by apply collision_freeb_spec; vm_compute.
Defined.

Lemma MerkleRoot_level_ambiguous_witness :
  MerkleRootForChunks [hash_pair (NewChunkID []) (NewChunkID [x01])]
  = MerkleRootForChunks [NewChunkID []; NewChunkID [x01]].
Proof.
  apply (MerkleRoot_level_ambiguous [NewChunkID []; NewChunkID [x01]]). simpl. lia.
Defined.
