(* ===== verification/FileSys.v ===== *)
(** * One directory of the file system: what the program uses of [os]

    The chunk store only touches entries of its base directory, so the
    operating system is modelled as that directory: a finite map from entry
    names to files, and an oracle [io] that says which system calls fail.
    Every path the store builds is [filepath.Join(baseDir, name)] for a name
    without separators, and is represented by [name]. *)

From S2P Require Import Prelude.
From stdpp Require Import sorting options.

Inductive dentry :=
  | File (content : bytes)
  | Dir (empty : bool).

Inductive syscall := SysStat | SysWrite | SysRename | SysRemove | SysRead | SysReadDir.

(** A failing call returns [fault_err], an error other than "not found"; a failing write may have created the
    file and written its first [n] bytes ([fault_partial = Some n]). *)
Record io_fault := IoFault { fault_msg : string; fault_partial : option nat }.
Definition fault_err (f : io_fault) : error := EMsg (fault_msg f).

Record dirfs := DirFS {
  entries : gmap string dentry;
  io : syscall → string → option io_fault;
}.

Definition with_entries (s : dirfs) (m : gmap string dentry) : dirfs := DirFS m (io s).

Definition no_faults (s : dirfs) : Prop := ∀ c p, io s c p = None.

(** [os.Stat(p)]: only whether it succeeds is used. *)
Definition os_Stat (p : string) (s : dirfs) : res unit :=
  match io s SysStat p with
  | Some f => Err (fault_err f)
  | None => match entries s !! p with Some _ => Ok tt | None => Err ENotExist end
  end.

Definition is_dir (e : option dentry) : bool :=
  match e with Some (Dir _) => true | _ => false end.

(** [os.WriteFile(p, data, perm)]: create or truncate, then write. *)
Definition os_WriteFile (p : string) (data : bytes) : M dirfs unit := λ s,
  match io s SysWrite p with
  | Some f =>
      (match fault_partial f with
       | Some k => if is_dir (entries s !! p) then s
                   else with_entries s (<[p := File (take k data)]> (entries s))
       | None => s
       end, Err (fault_err f))
  | None =>
      if is_dir (entries s !! p) then (s, Err (EMsg "is a directory"))
      else (with_entries s (<[p := File data]> (entries s)), Ok tt)
  end.

(** [os.Rename(from, to)]: [to] is replaced unless it is a directory. *)
Definition os_Rename (from to : string) : M dirfs unit := λ s,
  match io s SysRename from with
  | Some f => (s, Err (fault_err f))
  | None =>
      match entries s !! from with
      | None => (s, Err ENotExist)
      | Some e =>
          if is_dir (entries s !! to) then (s, Err (EMsg "file exists"))
          else (with_entries s (<[to := e]> (delete from (entries s))), Ok tt)
      end
  end.

Definition os_Remove (p : string) : M dirfs unit := λ s,
  match io s SysRemove p with
  | Some f => (s, Err (fault_err f))
  | None =>
      match entries s !! p with
      | None => (s, Err ENotExist)
      | Some (Dir false) => (s, Err (EMsg "directory not empty"))
      | Some _ => (with_entries s (delete p (entries s)), Ok tt)
      end
  end.

Definition os_ReadFile (p : string) (s : dirfs) : res bytes :=
  match io s SysRead p with
  | Some f => Err (fault_err f)
  | None =>
      match entries s !! p with
      | Some (File d) => Ok d
      | Some (Dir _) => Err (EMsg "is a directory")
      | None => Err ENotExist
      end
  end.

(** [os.ReadDir]: the entries sorted by name, each with [Type().IsRegular()]. *)
Definition entry_info (x : string * dentry) : string * bool :=
  (x.1, match x.2 with File _ => true | Dir _ => false end).

Definition entry_le (x y : string * bool) : Prop := (x.1 ≤ y.1)%string.
#[export] Instance entry_le_dec : RelDecision entry_le.
Proof. intros x y. unfold entry_le. apply _. Defined.

Definition os_ReadDir (s : dirfs) : res (list (string * bool)) :=
  match io s SysReadDir "." with
  | Some f => Err (fault_err f)
  | None => Ok (merge_sort entry_le (entry_info <$> map_to_list (entries s)))
  end.

Lemma elem_of_ReadDir s l n :
  os_ReadDir s = Ok l → (n, true) ∈ l ↔ ∃ d, entries s !! n = Some (File d).
Proof.
  unfold os_ReadDir. destruct (io s SysReadDir "."); [done|]. intros [= <-].
  rewrite merge_sort_Permutation, list_elem_of_fmap. split.
  - intros ([n' [d|b]] & [= ->] & H%elem_of_map_to_list); eauto.
  - intros [d H]. exists (n, File d). split; [done|]. by apply elem_of_map_to_list.
Qed.

(** [os.IsNotExist(err)] *)
Definition IsNotExist (e : error) : bool := bool_decide (e = ENotExist).
