(* ===== verification/Store.v ===== *)
(** * The chunk store (src/internal/storage/store.go)

    [ChunkStore] is the Go interface; [ChunkStoreSpec] states what its
    comments promise, as laws over the abstract content [view]; the
    file-system implementation [FSChunkStore] is shown to satisfy them. The
    clients (chunker, file metadata, erasure coding, DHT node) are proved
    against the laws. *)

From S2P Require Import Prelude Hex Sha256 ChunkId FileSys.
From stdpp Require Import sorting options.
Local Open Scope string_scope.

Class ChunkStore (S : Type) := {
  PutChunk : bytes → M S ChunkID;
  GetChunk : ChunkID → S → res bytes;
  HasChunk : ChunkID → S → res bool;
  DeleteChunk : ChunkID → M S unit;
  ListChunks : S → res (list ChunkID);
}.

(** [view s id]: the content stored under [id]; [store_ok]: the content of
    every chunk hashes to its name; [healthy]: no system call fails. *)
Class ChunkStoreSpec (S : Type) `{ChunkStore S} := {
  view : S → ChunkID → option bytes;
  store_ok : S → Prop;
  healthy : S → Prop;
  view_addr s id d : store_ok s → view s id = Some d → NewChunkID d = id;
  put_ok s s' d id : store_ok s → PutChunk d s = (s', Ok id) →
    id = NewChunkID d ∧ store_ok s' ∧
    (∃ d', view s' id = Some d' ∧ (d' = d ∨ view s id = Some d')) ∧
    (∀ id', id' ≠ id → view s' id' = view s id');
  put_err s s' d e : store_ok s → PutChunk d s = (s', Err e) →
    store_ok s' ∧ ∀ id, view s' id = view s id;
  put_no_panic s d : (PutChunk d s).2 ≠ Panic;
  put_healthy s d : store_ok s → healthy s →
    ∃ s', PutChunk d s = (s', Ok (NewChunkID d)) ∧ healthy s';
  get_ok s id d : store_ok s → GetChunk id s = Ok d → view s id = Some d;
  get_healthy s id : store_ok s → healthy s →
    GetChunk id s = match view s id with Some d => Ok d | None => Err ENotExist end;
  get_no_panic s id : GetChunk id s ≠ Panic;
  delete_ok s s' id : store_ok s → DeleteChunk id s = (s', Ok tt) →
    store_ok s' ∧ view s' id = None ∧ (∀ id', id' ≠ id → view s' id' = view s id');
}.

(** ** [FSChunkStore] *)

Record FSChunkStore := FSStore { baseDir : string; dir : dirfs }.

Definition on_dir {A} (m : M dirfs A) : M FSChunkStore A := λ s,
  match m (dir s) with (d, r) => (FSStore (baseDir s) d, r) end.

(** [MkdirAll] is the outcome of [os.MkdirAll(baseDir, 0o755)]: the directory
    or the error. *)
Definition NewFSChunkStore (baseDir : string) (MkdirAll : res dirfs) : res FSChunkStore :=
  if bool_decide (baseDir = "") then Err (EMsg "NewFSChunkStore: baseDir is empty")
  else d ← wrap_err "NewFSChunkStore: mkdir" MkdirAll; Ok (FSStore baseDir d).

(** The entry name of [filepath.Join(s.baseDir, id.String())]. *)
Definition chunkPath (id : ChunkID) : string := ChunkID_String id.

Definition tmpPath (id : ChunkID) : string := chunkPath id +:+ ".tmp".

Definition FS_PutChunk (data : bytes) : M FSChunkStore ChunkID := λ s,
  let id := NewChunkID data in
  match os_Stat (chunkPath id) (dir s) with
  | Ok _ => (s, Ok id)
  | _ =>
      match on_dir (os_WriteFile (tmpPath id) data) s with
      | (s1, Err e) => (s1, Err (EWrap "PutChunk: write temp file" e))
      | (s1, Panic) => (s1, Panic)
      | (s1, Ok _) =>
          match on_dir (os_Rename (tmpPath id) (chunkPath id)) s1 with
          | (s2, Err e) => ((on_dir (os_Remove (tmpPath id)) s2).1,
                            Err (EWrap "PutChunk: rename" e))
          | (s2, Panic) => (s2, Panic)
          | (s2, Ok _) => (s2, Ok id)
          end
      end
  end.

Definition FS_GetChunk (id : ChunkID) (s : FSChunkStore) : res bytes :=
  match os_ReadFile (chunkPath id) (dir s) with
  | Err e => if IsNotExist e then Err ENotExist else Err (EWrap "GetChunk: read" e)
  | r => r
  end.

Definition FS_HasChunk (id : ChunkID) (s : FSChunkStore) : res bool :=
  match os_Stat (chunkPath id) (dir s) with
  | Ok _ => Ok true
  | Err e => if IsNotExist e then Ok false else Err (EWrap "HasChunk: stat" e)
  | Panic => Panic
  end.

Definition FS_DeleteChunk (id : ChunkID) : M FSChunkStore unit := λ s,
  match on_dir (os_Remove (chunkPath id)) s with
  | (s', Err e) => if IsNotExist e then (s', Ok tt) else (s', Err (EWrap "DeleteChunk: remove" e))
  | r => r
  end.

(** Entries that are not regular files, or whose name is not a chunk
    identifier in hexadecimal, are skipped. *)
Definition entry_chunk (x : string * bool) : option ChunkID :=
  if x.2 then match ChunkIDFromHex x.1 with Ok id => Some id | _ => None end else None.

Definition FS_ListChunks (s : FSChunkStore) : res (list ChunkID) :=
  l ← wrap_err "ListChunks: readdir" (os_ReadDir (dir s));
  Ok (omap (M:=list) entry_chunk l).

#[export] Instance FS_ChunkStore : ChunkStore FSChunkStore := {
  PutChunk := FS_PutChunk;
  GetChunk := FS_GetChunk;
  HasChunk := FS_HasChunk;
  DeleteChunk := FS_DeleteChunk;
  ListChunks := FS_ListChunks;
}.

(** ** [FSChunkStore] implements the specification *)

Definition FS_view (s : FSChunkStore) (id : ChunkID) : option bytes :=
  match entries (dir s) !! chunkPath id with Some (File d) => Some d | _ => None end.

(** Whatever carries the name of a chunk is a file holding that chunk. *)
Definition FS_ok (s : FSChunkStore) : Prop :=
  ∀ id e, entries (dir s) !! chunkPath id = Some e → ∃ d, e = File d ∧ NewChunkID d = id.

Definition FS_healthy (s : FSChunkStore) : Prop :=
  no_faults (dir s) ∧ ∀ id, is_dir (entries (dir s) !! tmpPath id) = false.

Lemma length_app_string s t :
  String.length (s +:+ t) = (String.length s + String.length t)%nat.
Proof. induction s as [|x s IH]; [done|]. simpl. by f_equal. Qed.

Lemma chunkPath_tmpPath id id' : chunkPath id ≠ tmpPath id'.
Proof.
  intros H. apply (f_equal String.length) in H. revert H.
  unfold tmpPath, chunkPath. rewrite length_app_string, !length_ChunkID_String. done.
Qed.

#[export] Instance chunkPath_inj : Inj (=) (=) chunkPath := ChunkID_String_inj.

#[export] Instance tmpPath_inj : Inj (=) (=) tmpPath.
Proof.
  intros a b H. apply (inj ChunkID_String). revert H. unfold tmpPath, chunkPath.
  pose proof (length_ChunkID_String a) as Ha. pose proof (length_ChunkID_String b) as Hb.
  rewrite <-Ha in Hb. clear Ha. revert Hb.
  generalize (ChunkID_String a) as s, (ChunkID_String b) as t. clear.
  induction s as [|x s IH]; intros [|y t]; simpl; try done.
  intros ? [= -> ?]. f_equal. auto.
Qed.

(** [s'] is [s] except, at most, for the entry [n]. *)
Definition frame (n : string) (s s' : FSChunkStore) : Prop :=
  baseDir s' = baseDir s ∧ io (dir s') = io (dir s) ∧
  ∀ m, m ≠ n → entries (dir s') !! m = entries (dir s) !! m.

Lemma frame_refl n s : frame n s s.
Proof. by repeat split. Qed.

Lemma frame_trans n s1 s2 s3 : frame n s1 s2 → frame n s2 s3 → frame n s1 s3.
Proof.
  intros (Hb & Hi & He) (Hb' & Hi' & He'). split_and!; [congruence..|].
  intros m Hm. rewrite He' by done. by apply He.
Qed.

(** Changing a temporary file leaves every chunk alone. *)
Lemma frame_tmp_view id s s' id' : frame (tmpPath id) s s' → FS_view s' id' = FS_view s id'.
Proof.
  intros (_ & _ & He). unfold FS_view. by rewrite (He _ (chunkPath_tmpPath id' id)).
Qed.

Lemma frame_tmp_ok id s s' : frame (tmpPath id) s s' → FS_ok s → FS_ok s'.
Proof.
  intros (_ & _ & He) Hok id' e. rewrite (He _ (chunkPath_tmpPath id' id)). apply Hok.
Qed.

Lemma frame_chunk_view id s s' id' :
  frame (chunkPath id) s s' → id' ≠ id → FS_view s' id' = FS_view s id'.
Proof.
  intros (_ & _ & He) Hne. unfold FS_view. rewrite He; [done|].
  intros E. by apply (inj chunkPath) in E.
Qed.

(** A directory where only the chunk [id] changed is correct when the new
    entry is. *)
Lemma frame_chunk_ok id s s' :
  frame (chunkPath id) s s' → FS_ok s →
  (∀ e, entries (dir s') !! chunkPath id = Some e → ∃ d, e = File d ∧ NewChunkID d = id) →
  FS_ok s'.
Proof.
  intros (_ & _ & He) Hok Hid id' e. destruct (decide (id' = id)) as [->|Hne]; [apply Hid|].
  rewrite He; [apply Hok|]. intros E. by apply (inj chunkPath) in E.
Qed.

(** The system calls, seen through [on_dir]. *)
Lemma on_dir_write n d s s' r :
  on_dir (os_WriteFile n d) s = (s', r) →
  frame n s s' ∧ r ≠ Panic ∧ (r = Ok tt → entries (dir s') !! n = Some (File d)).
Proof.
  unfold on_dir, os_WriteFile, frame. intros H.
  repeat case_match; simplify_eq/=; split_and!; try done; intros;
    by rewrite ?lookup_insert_eq, ?lookup_insert_ne by done.
Qed.

Lemma on_dir_remove n s s' r :
  on_dir (os_Remove n) s = (s', r) →
  frame n s s' ∧ r ≠ Panic ∧
  (r = Ok tt ∨ r = Err ENotExist → entries (dir s') !! n = None).
Proof.
  unfold on_dir, os_Remove, frame. intros H.
  repeat case_match; simplify_eq/=; split_and!; try done; intros;
    try (by rewrite ?lookup_delete_eq, ?lookup_delete_ne by done); naive_solver.
Qed.

Lemma on_dir_rename a b s s' r :
  on_dir (os_Rename a b) s = (s', r) →
  r ≠ Panic ∧ (r ≠ Ok tt → s' = s) ∧
  (r = Ok tt → ∃ e, entries (dir s) !! a = Some e ∧
     s' = FSStore (baseDir s) (with_entries (dir s) (<[b := e]> (delete a (entries (dir s)))))).
Proof.
  unfold on_dir, os_Rename. destruct s. intros H.
  repeat case_match; simplify_eq/=; naive_solver.
Qed.

(** The three ways [PutChunk] ends: the chunk was there, it was written
    through the temporary file, or nothing but the temporary file changed. *)
Lemma FS_put_cases s d s' r (id := NewChunkID d) :
  FS_PutChunk d s = (s', r) →
  (r = Ok id ∧ s' = s ∧ is_Some (entries (dir s) !! chunkPath id)) ∨
  (r = Ok id ∧ entries (dir s') !! chunkPath id = Some (File d) ∧
     ∃ s1, frame (tmpPath id) s s1 ∧ frame (chunkPath id) s1 s') ∨
  (∃ e, r = Err e ∧ frame (tmpPath id) s s').
Proof.
  unfold FS_PutChunk. fold id. unfold os_Stat.
  destruct (io (dir s) SysStat (chunkPath id)) as [f|] eqn:Hio,
           (entries (dir s) !! chunkPath id) as [x|] eqn:Hx;
    [| |by intros [= <- <-]; left; eauto|].
  all: destruct (on_dir (os_WriteFile (tmpPath id) d) s) as [s1 r1] eqn:Hw;
    apply on_dir_write in Hw as (Hf1 & Hnp1 & Hd1);
    destruct r1 as [[]|e|]; [|intros [= <- <-]; right; right; eauto|done].
  all: destruct (on_dir (os_Rename (tmpPath id) (chunkPath id)) s1) as [s2 r2] eqn:Hr;
    apply on_dir_rename in Hr as (Hnp2 & Hsame & Hren);
    destruct r2 as [[]|e|]; [| |done].
  all: try (destruct (on_dir (os_Remove (tmpPath id)) s2) as [s3 r3] eqn:Hrm;
    apply on_dir_remove in Hrm as (Hf3 & _); intros [= <- <-]; right; right;
    rewrite Hsame in Hf3 by done; eauto using frame_trans).
  all: destruct (Hren eq_refl) as (x' & Hx' & ->); rewrite Hd1 in Hx' by done;
    simplify_eq; intros [= <- <-]; right; left; split_and!;
    [done|by simpl; rewrite lookup_insert_eq|].
  all: eexists (FSStore (baseDir s1) (with_entries (dir s1) (delete (tmpPath id) (entries (dir s1)))));
    split; [eapply frame_trans; [done|]|]; split_and!; try done; simpl; intros m Hm;
    by rewrite ?lookup_delete_ne, ?lookup_insert_ne by done.
Qed.

Lemma FS_put_ok s s' d id :
  FS_ok s → FS_PutChunk d s = (s', Ok id) →
  id = NewChunkID d ∧ FS_ok s' ∧
  (∃ d', FS_view s' id = Some d' ∧ (d' = d ∨ FS_view s id = Some d')) ∧
  (∀ id', id' ≠ id → FS_view s' id' = FS_view s id').
Proof.
  intros Hok Hput. apply FS_put_cases in Hput as [(E & -> & e & He)|[(E & He & s1 & Hf1 & Hf2)|(? & ? & _)]];
    [apply Ok_inv in E as ->|apply Ok_inv in E as ->|done].
  - destruct (Hok _ _ He) as (d' & -> & Hd').
    split_and!; [done|done| |done]. exists d'. unfold FS_view. rewrite He. auto.
  - split_and!; [done| | |].
    + eapply frame_chunk_ok; [done|by eapply frame_tmp_ok|]. rewrite He. naive_solver.
    + exists d. unfold FS_view. rewrite He. auto.
    + intros id' Hne. rewrite (frame_chunk_view _ _ _ _ Hf2) by done.
      by apply (frame_tmp_view (NewChunkID d)).
Qed.

Lemma FS_put_err s s' d e :
  FS_ok s → FS_PutChunk d s = (s', Err e) →
  FS_ok s' ∧ ∀ id, FS_view s' id = FS_view s id.
Proof.
  intros Hok Hput. apply FS_put_cases in Hput as [(? & _)|[(? & _)|(? & ? & Hf)]]; [done|done|].
  split; [by eapply frame_tmp_ok|]. intros. by eapply frame_tmp_view.
Qed.

Lemma FS_put_no_panic s d : (FS_PutChunk d s).2 ≠ Panic.
Proof.
  destruct (FS_PutChunk d s) as [s' r] eqn:E.
  apply FS_put_cases in E as [(-> & _)|[(-> & _)|(e & -> & _)]]; done.
Qed.

Lemma FS_put_healthy s d :
  FS_ok s → FS_healthy s → ∃ s', FS_PutChunk d s = (s', Ok (NewChunkID d)) ∧ FS_healthy s'.
Proof.
  intros Hok [Hio Htmp]. unfold FS_PutChunk, os_Stat, on_dir, os_WriteFile, os_Rename. simpl.
  rewrite !Hio, Htmp. simpl. set (id := NewChunkID d).
  destruct (entries (dir s) !! chunkPath id) as [e|] eqn:He; [by eexists|].
  rewrite lookup_insert_eq, (lookup_insert_ne _ (tmpPath id)) by
    (intros E; by destruct (chunkPath_tmpPath id id)).
  rewrite He, Hio. simpl. eexists. split; [done|]. split; [apply Hio|]. simpl. intros id'.
  rewrite lookup_insert_ne by apply chunkPath_tmpPath.
  rewrite lookup_delete. case_decide as E; [done|].
  by rewrite lookup_insert_ne.
Qed.

Lemma FS_get_ok s id d : FS_ok s → FS_GetChunk id s = Ok d → FS_view s id = Some d.
Proof.
  unfold FS_GetChunk, os_ReadFile, FS_view. intros Hok H. by repeat (case_match; simplify_eq).
Qed.

Lemma FS_get_healthy s id :
  FS_ok s → FS_healthy s →
  FS_GetChunk id s = match FS_view s id with Some d => Ok d | None => Err ENotExist end.
Proof.
  unfold FS_GetChunk, os_ReadFile, FS_view. intros Hok [Hio _]. rewrite Hio.
  destruct (entries (dir s) !! chunkPath id) as [e|] eqn:He; [|done].
  by destruct (Hok _ _ He) as (d & -> & _).
Qed.

Lemma FS_get_no_panic s id : FS_GetChunk id s ≠ Panic.
Proof. unfold FS_GetChunk, os_ReadFile. repeat case_match; simplify_eq/=; done. Qed.

Lemma FS_delete_ok s s' id :
  FS_ok s → FS_DeleteChunk id s = (s', Ok tt) →
  FS_ok s' ∧ FS_view s' id = None ∧ (∀ id', id' ≠ id → FS_view s' id' = FS_view s id').
Proof.
  intros Hok. unfold FS_DeleteChunk.
  destruct (on_dir (os_Remove (chunkPath id)) s) as [s1 r] eqn:Hrm.
  apply on_dir_remove in Hrm as (Hf & _ & Hgone). intros H.
  assert (s1 = s') as -> by (repeat case_match; by simplify_eq).
  assert (entries (dir s') !! chunkPath id = None) as He.
  { apply Hgone. destruct r as [[]|e|]; [by left| |done].
    destruct (IsNotExist e) eqn:Hne; [|done].
    right. by apply bool_decide_eq_true in Hne as ->. }
  split_and!.
  - eapply frame_chunk_ok; [done|done|]. by rewrite He.
  - unfold FS_view. by rewrite He.
  - intros. by eapply frame_chunk_view.
Qed.

Lemma FS_view_addr s id d : FS_ok s → FS_view s id = Some d → NewChunkID d = id.
Proof.
  intros Hok. unfold FS_view. intros Hv.
  destruct (entries (dir s) !! chunkPath id) as [e|] eqn:He; [|done].
  destruct (Hok _ _ He) as (d' & -> & Hd). by simplify_eq.
Qed.

#[export] Instance FS_ChunkStoreSpec : ChunkStoreSpec FSChunkStore := {
  view := FS_view;
  store_ok := FS_ok;
  healthy := FS_healthy;
  view_addr := FS_view_addr;
  put_ok := FS_put_ok;
  put_err := FS_put_err;
  put_no_panic := FS_put_no_panic;
  put_healthy := FS_put_healthy;
  get_ok := FS_get_ok;
  get_healthy := FS_get_healthy;
  get_no_panic := FS_get_no_panic;
  delete_ok := FS_delete_ok;
}.

(** A store in an empty directory, every system call succeeding. *)
Definition empty_store : FSChunkStore := FSStore "data/chunks" (DirFS ∅ (λ _ _, None)).

Lemma empty_store_ok : FS_ok empty_store.
Proof. intros id e. simpl. by rewrite lookup_empty. Qed.
Lemma empty_store_view id : FS_view empty_store id = None.
Proof. unfold FS_view, empty_store. cbn [dir entries]. by rewrite lookup_empty. Qed.

Lemma empty_store_healthy : FS_healthy empty_store.
Proof. split; [done|]. intros id. simpl. by rewrite lookup_empty. Qed.

(** A directory that holds exactly the chunks [l]. *)
Definition store_of (l : list bytes) : FSChunkStore :=
  FSStore "data/chunks"
    (DirFS (list_to_map ((λ d, (chunkPath (NewChunkID d), File d)) <$> l)) (λ _ _, None)).

Lemma store_of_entry l n e :
  entries (dir (store_of l)) !! n = Some e → ∃ d, e = File d ∧ n = chunkPath (NewChunkID d).
Proof.
  simpl. induction l as [|d l IH]; simpl; [by rewrite lookup_empty|].
  rewrite lookup_insert. case_decide as E; [|done]. intros [= <-]. by exists d.
Qed.

Lemma store_of_ok l : FS_ok (store_of l).
Proof.
  intros id e (d & -> & Hn)%store_of_entry. exists d. split; [done|].
  symmetry. by apply (inj chunkPath).
Qed.

Lemma store_of_healthy l : FS_healthy (store_of l).
Proof.
  split; [done|]. intros id.
  destruct (entries (dir (store_of l)) !! tmpPath id) as [e|] eqn:E; [|done].
  apply store_of_entry in E as (d & _ & E). by destruct (chunkPath_tmpPath (NewChunkID d) id).
Qed.

Lemma store_of_get l d :
  d ∈ l → (∀ c, c ∈ l → NewChunkID c = NewChunkID d → c = d) →
  FS_GetChunk (NewChunkID d) (store_of l) = Ok d.
Proof.
  intros Hin Hclash. rewrite FS_get_healthy by (apply store_of_ok || apply store_of_healthy).
  assert (∃ c, c ∈ l ∧ NewChunkID c = NewChunkID d ∧
    FS_view (store_of l) (NewChunkID d) = Some c) as (c & Hc & Heq & ->);
    [|by rewrite (Hclash c Hc Heq)].
  clear Hclash. unfold FS_view. simpl. induction l as [|x l IH]; [by apply not_elem_of_nil in Hin|].
  simpl. rewrite lookup_insert. case_decide as E.
  - exists x. split_and!; [by left|by apply (inj chunkPath) in E|done].
  - apply elem_of_cons in Hin as [->|Hin]; [done|].
    destruct (IH Hin) as (c & ? & ? & ?). exists c. split_and!; [by right|done|done].
Qed.

(** ** Crashes

    The directory as it may be found when the process dies during
    [PutChunk data]: before the write, after the first [k] bytes of the
    temporary file, or at the end. *)
Inductive put_crash (data : bytes) (s : FSChunkStore) : FSChunkStore → Prop :=
  | crash_before : put_crash data s s
  | crash_writing k :
      put_crash data s
        (FSStore (baseDir s) (with_entries (dir s)
          (<[tmpPath (NewChunkID data) := File (take k data)]> (entries (dir s)))))
  | crash_after s' r : FS_PutChunk data s = (s', r) → put_crash data s s'.

(** ** Properties *)

(** C6: whatever system calls fail, [PutChunk] never panics, keeps every
    stored chunk equal to the content its name promises, and changes no
    chunk except possibly adding [data] under its own hash, on success. *)
Theorem FS_PutChunk_safe s data s' r :
  FS_ok s → FS_PutChunk data s = (s', r) →
  r ≠ Panic ∧ FS_ok s' ∧
  ∀ id, FS_view s' id = FS_view s id ∨
        (id = NewChunkID data ∧ r = Ok id ∧ FS_view s' id = Some data).
Proof.
  intros Hok Hput. pose proof (FS_put_no_panic s data) as Hnp. rewrite Hput in Hnp.
  destruct r as [id|e|]; [|by destruct (FS_put_err s s' data e) as [? Hv]; eauto|done].
  destruct (FS_put_ok s s' data id) as (Hid & Hok' & (d' & Hd' & Hor) & Hne); [done..|].
  split_and!; [done|done|]. intros id'. destruct (decide (id' = id)) as [->|?]; [|eauto].
  rewrite Hd'. destruct Hor as [->|Hv]; [right; by split_and?|left]. by rewrite Hv.
Qed.

(** When no system call fails, a chunk that was stored can be read back:
    the content returned is the one stored, or the one already stored under
    the same SHA-256. Storing it again changes nothing. *)
Theorem FS_put_get_roundtrip s data :
  FS_ok s → FS_healthy s →
  ∃ s' data', FS_PutChunk data s = (s', Ok (NewChunkID data)) ∧
    FS_GetChunk (NewChunkID data) s' = Ok data' ∧
    (data' = data ∨ FS_GetChunk (NewChunkID data) s = Ok data') ∧
    FS_HasChunk (NewChunkID data) s' = Ok true ∧
    FS_PutChunk data s' = (s', Ok (NewChunkID data)).
Proof.
  intros Hok Hh. destruct (FS_put_healthy s data Hok Hh) as (s' & Hput & Hh').
  destruct (FS_put_ok _ _ _ _ Hok Hput) as (_ & Hok' & (d' & Hd' & Hor) & _).
  exists s', d'. rewrite !FS_get_healthy, Hd' by done.
  split_and!; [done|done| | |].
  - destruct Hor as [->|Hv]; [by left|right]. by rewrite Hv.
  - unfold FS_HasChunk, os_Stat. destruct Hh' as [-> _]. unfold FS_view in Hd'.
    by destruct (entries (dir s') !! _).
  - unfold FS_PutChunk, os_Stat. destruct Hh' as [-> _]. unfold FS_view in Hd'.
    by destruct (entries (dir s') !! _).
Qed.

(** C5: a crash at any point of [PutChunk], even in the middle of writing,
    leaves a correct store in which every chunk is as before, except that
    [data] may have become available, whole, under its own hash. *)
Theorem FS_PutChunk_crash_atomic s data s' :
  FS_ok s → put_crash data s s' →
  FS_ok s' ∧
  ∀ id, FS_view s' id = FS_view s id ∨ (id = NewChunkID data ∧ FS_view s' id = Some data).
Proof.
  intros Hok [|k|s'' [id|e|] Hput].
  - auto.
  - assert (frame (tmpPath (NewChunkID data)) s
      (FSStore (baseDir s) (with_entries (dir s)
          (<[tmpPath (NewChunkID data) := File (take k data)]> (entries (dir s)))))) as Hf.
    { split_and!; [done|done|]. intros m Hm. by apply lookup_insert_ne. }
    split; [by eapply frame_tmp_ok|]. intros id. left. by eapply frame_tmp_view.
  - destruct (FS_put_ok s s'' data id) as (Hid & Hok' & (d' & Hd' & Hor) & Hne); [done..|].
    split; [done|]. intros id'. destruct (decide (id' = id)) as [->|?]; [|eauto].
    rewrite Hd'. destruct Hor as [->|Hv]; [right; by split_and?|left]. by rewrite Hv.
  - destruct (FS_put_err s s'' data e) as [? Hv]; eauto.
  - destruct (FS_put_no_panic s data). by rewrite Hput.
Qed.

(** [ListChunks] returns exactly the identifiers whose hexadecimal name,
    in either case, is carried by a regular file; in a correct store it
    returns every stored chunk. *)
Theorem FS_ListChunks_complete s ids :
  FS_ListChunks s = Ok ids →
  (∀ id, id ∈ ids ↔ ∃ n d, ChunkIDFromHex n = Ok id ∧ entries (dir s) !! n = Some (File d)) ∧
  (∀ id d, FS_view s id = Some d → id ∈ ids).
Proof.
  unfold FS_ListChunks. intros (l & Hl%wrap_err_Ok & E)%res_bind_Ok.
  apply Ok_inv in E as <-.
  assert (∀ id, id ∈ omap (M:=list) entry_chunk l ↔
    ∃ n d, ChunkIDFromHex n = Ok id ∧ entries (dir s) !! n = Some (File d)) as Hin.
  { intros id. rewrite list_elem_of_omap. split.
    - intros ([n b] & Hn & Hid). unfold entry_chunk in Hid. simpl in Hid.
      destruct b; [|done]. apply (elem_of_ReadDir _ _ _ Hl) in Hn as [d Hd].
      exists n, d. destruct (ChunkIDFromHex n) as [id'|e|]; naive_solver.
    - intros (n & d & Hid & Hd). exists (n, true).
      split; [apply (elem_of_ReadDir _ _ _ Hl); eauto|].
      unfold entry_chunk. simpl. by rewrite Hid. }
  split; [done|]. intros id d Hv. apply Hin. exists (chunkPath id), d.
  split; [apply ChunkIDFromHex_String|]. unfold FS_view in Hv. by repeat case_match; simplify_eq.
Qed.

(** ** Witnesses *)

(** A disk whose writes break off after two bytes. *)
Definition bad_disk : FSChunkStore :=
  FSStore "data/chunks" (DirFS ∅ (λ c _,
    match c with SysWrite => Some (IoFault "no space left on device" (Some 2%nat)) | _ => None end)).

Lemma FS_PutChunk_safe_witness :
  (FS_PutChunk [x61; x62; x63] bad_disk).2
    = Err (EWrap "PutChunk: write temp file" (EMsg "no space left on device")) ∧
  FS_ok (FS_PutChunk [x61; x62; x63] bad_disk).1.
Proof.
  split; [by vm_compute|].
  apply (FS_PutChunk_safe bad_disk [x61; x62; x63] _ (FS_PutChunk [x61; x62; x63] bad_disk).2).
  - intros id e. simpl. by rewrite lookup_empty.
  - by destruct (FS_PutChunk [x61; x62; x63] bad_disk).
Defined.

Lemma FS_put_get_roundtrip_witness :
  ∃ s' data', FS_PutChunk [x61] empty_store = (s', Ok (NewChunkID [x61])) ∧
    FS_GetChunk (NewChunkID [x61]) s' = Ok data'.
Proof.
  destruct (FS_put_get_roundtrip empty_store [x61]) as (s' & d' & H1 & H2 & _);
    [apply empty_store_ok|apply empty_store_healthy|]. eauto.
Defined.

Lemma FS_PutChunk_crash_atomic_witness :
  FS_ok (FSStore "data/chunks" (with_entries (dir empty_store)
    (<[tmpPath (NewChunkID [x61; x62]) := File [x61]]> ∅))).
Proof.
  apply (FS_PutChunk_crash_atomic empty_store [x61; x62] _ empty_store_ok).
  apply (crash_writing [x61; x62] empty_store 1).
Defined.

(** The chunk directory checked in with the repository (src/data/chunks): one
    file, the content of src/sample.txt, under its SHA-256. *)
Definition sample_content : bytes := String.list_byte_of_string
  ("hello decentralized world" +:+ String (char 10) "").
Definition sample_store : FSChunkStore :=
  FSStore "data/chunks" (DirFS {[
    "cfb306b59d446911c499e503ac34d2d2255768ba98b1bc23f2c195010ed41a0b" := File sample_content ]}
    (λ _ _, None)).

Lemma FS_ListChunks_complete_witness :
  FS_ListChunks sample_store = Ok [NewChunkID sample_content] ∧
  NewChunkID sample_content ∈ [NewChunkID sample_content].
Proof.
  assert (FS_ListChunks sample_store = Ok [NewChunkID sample_content]) as H by by vm_compute.
  split; [done|].
  apply (proj2 (FS_ListChunks_complete sample_store _ H) _ sample_content). by vm_compute.
Defined.
