(* ===== verification/ConcurrentPut.v ===== *)
(** * Concurrent [PutChunk] (src/internal/storage/store.go)

    The store has no lock: the read loop and the main goroutine may put the
    same chunk at the same time, through the same temporary name. Here
    [PutChunk] is a sequence of system calls and the directory maps names to
    files that stay open across a rename; the calls of any number of
    goroutines interleave, and any system call may fail. *)

From S2P Require Import Prelude Hex Sha256 ChunkId FileSys Store.
From stdpp Require Import list options.

(** What a call of [PutChunk] returns: the identifier, or the error of
    [os.WriteFile] or of [os.Rename]. *)
Inductive put_result := PutOK | WriteFailed | RenameFailed.

(** Where a call of [PutChunk] stands. *)
Inductive put_pc :=
  | PStat                          (* before [os.Stat(path)] *)
  | POpen                          (* in [os.WriteFile]: before open with truncation *)
  | PWriting (i off : nat)         (* file [i] is open, [off] bytes are written *)
  | PRename                        (* before [os.Rename(tmpPath, path)] *)
  | PRemove                        (* the rename failed: before [os.Remove(tmpPath)] *)
  | PDone (r : put_result).

(** [i_for] is the chunk for which the file was created; no code reads it. *)
Record inode := Ino { i_for : ChunkID; i_data : bytes }.

Record files := Files {
  names : gmap string nat;
  inodes : gmap nat inode;
  puts : gmap nat (bytes * put_pc);
}.

(** [pwrite(2)] at an offset, a gap being filled with zeros. *)
Definition write_at (off : nat) (b c : bytes) : bytes :=
  take off (c ++ replicate (off - length c) x00) ++ b ++ drop (off + length b) c.

Definition goto_put (p : nat) (d : bytes) (pc : put_pc) (s : files) : files :=
  Files (names s) (inodes s) (<[p := (d, pc)]> (puts s)).

(** One system call of [PutChunk(d)] that succeeds. [n] is the number of the file, where one
    is created, or how many bytes a write takes. *)
Definition put_step (p n : nat) (d : bytes) (pc : put_pc) (s : files) : option files :=
  let id := NewChunkID d in
  match pc with
  | PStat =>
      match names s !! chunkPath id with
      | Some _ => Some (goto_put p d (PDone PutOK) s)
      | None => Some (goto_put p d POpen s)
      end
  | POpen =>
      match names s !! tmpPath id with
      | Some i =>
          match inodes s !! i with
          | Some f => Some (goto_put p d (PWriting i 0)
                              (Files (names s) (<[i := Ino (i_for f) []]> (inodes s)) (puts s)))
          | None => None
          end
      | None =>
          match inodes s !! n with
          | Some _ => None
          | None => Some (goto_put p d (PWriting n 0)
                            (Files (<[tmpPath id := n]> (names s)) (<[n := Ino id []]> (inodes s)) (puts s)))
          end
      end
  | PWriting i off =>
      if (length d <=? off)%nat then Some (goto_put p d PRename s)
      else
        match inodes s !! i, n with
        | Some f, S _ =>
            let b := take n (drop off d) in
            Some (goto_put p d (PWriting i (off + length b))
                    (Files (names s) (<[i := Ino (i_for f) (write_at off b (i_data f))]> (inodes s)) (puts s)))
        | _, _ => None
        end
  | PRename =>
      match names s !! tmpPath id with
      | Some i => Some (goto_put p d (PDone PutOK)
                          (Files (<[chunkPath id := i]> (delete (tmpPath id) (names s))) (inodes s) (puts s)))
      | None => Some (goto_put p d PRemove s)
      end
  | PRemove =>
      Some (goto_put p d (PDone RenameFailed) (Files (delete (tmpPath id) (names s)) (inodes s) (puts s)))
  | PDone _ => None
  end.

(** One system call that fails: an error of [Stat] means that the chunk is to
    be written, one of [OpenFile], [Write] or [Close] that [os.WriteFile]
    fails, which leaves the temporary file as it is, and one of [Remove] is
    ignored. *)
Definition put_fault (p : nat) (d : bytes) (pc : put_pc) (s : files) : option files :=
  match pc with
  | PStat => Some (goto_put p d POpen s)
  | POpen | PWriting _ _ => Some (goto_put p d (PDone WriteFailed) s)
  | PRename => Some (goto_put p d PRemove s)
  | PRemove => Some (goto_put p d (PDone RenameFailed) s)
  | PDone _ => None
  end.

Inductive put_action := Start (p : nat) (d : bytes) | Call (p n : nat) | Fault (p : nat).

Definition put_exec (a : put_action) (s : files) : option files :=
  match a with
  | Start p d =>
      match puts s !! p with None => Some (goto_put p d PStat s) | Some _ => None end
  | Call p n => match puts s !! p with Some (d, pc) => put_step p n d pc s | None => None end
  | Fault p => match puts s !! p with Some (d, pc) => put_fault p d pc s | None => None end
  end.

Fixpoint put_run (l : list put_action) (s : files) : option files :=
  match l with
  | [] => Some s
  | a :: rest => match put_exec a s with Some s' => put_run rest s' | None => None end
  end.

(** What [GetChunk] would read. *)
Definition read_chunk (id : ChunkID) (s : files) : option bytes :=
  i ← names s !! chunkPath id; f ← inodes s !! i; Some (i_data f).

(** ** Writing at an offset *)

Lemma lookup_write_at off b c j :
  off ≤ j < off + length b → write_at off b c !! j = b !! (j - off).
Proof.
  intros Hj. unfold write_at.
  assert (length (take off (c ++ replicate (off - length c) x00)) = off) as Hl.
  { rewrite length_take, length_app, length_replicate. lia. }
  rewrite lookup_app_r by lia. rewrite Hl, lookup_app_l by lia. done.
Qed.

Lemma lookup_write_at_ne off b c j :
  j < off ∨ off + length b ≤ j → j < length c → write_at off b c !! j = c !! j.
Proof.
  intros Hj Hc. unfold write_at.
  assert (length (take off (c ++ replicate (off - length c) x00)) = off) as Hl.
  { rewrite length_take, length_app, length_replicate. lia. }
  destruct Hj as [Hj|Hj].
  - rewrite lookup_app_l by lia. rewrite lookup_take_lt, lookup_app_l by lia. done.
  - rewrite lookup_app_r by lia. rewrite Hl, lookup_app_r by lia. rewrite lookup_drop. f_equal. lia.
Qed.

Lemma length_write_at off b c n :
  off + length b ≤ n → length c ≤ n → length (write_at off b c) ≤ n.
Proof.
  intros Hb Hc. unfold write_at.
  rewrite !length_app, length_take, length_app, length_replicate, length_drop. lia.
Qed.

(** ** The invariant

    [D] gives the data of every identifier: there is no clash. *)

Section Concurrent.
Context (D : ChunkID → bytes).

(** Some writer will still write position [j] of file [i]. *)
Definition pending_at (s : files) (i j : nat) : Prop :=
  ∃ p d off, puts s !! p = Some (d, PWriting i off) ∧ off ≤ j.

(** Some [os.WriteFile] for this chunk has failed. *)
Definition write_failed (s : files) (id : ChunkID) : Prop :=
  ∃ p d, puts s !! p = Some (d, PDone WriteFailed) ∧ NewChunkID d = id.

Record puts_ok (s : files) : Prop := {
  pok_data p d pc : puts s !! p = Some (d, pc) → D (NewChunkID d) = d;
  pok_names name i id : names s !! name = Some i → name = tmpPath id ∨ name = chunkPath id →
    ∃ f, inodes s !! i = Some f ∧ i_for f = id;
  pok_writing p d i off : puts s !! p = Some (d, PWriting i off) →
    off ≤ length d ∧ ∃ f, inodes s !! i = Some f ∧ i_for f = NewChunkID d;
  pok_content i f : inodes s !! i = Some f → length (i_data f) ≤ length (D (i_for f)) ∧
    ∀ j, j < length (D (i_for f)) → i_data f !! j = D (i_for f) !! j ∨ pending_at s i j ∨ write_failed s (i_for f);
  pok_done p d : puts s !! p = Some (d, PDone PutOK) → is_Some (names s !! chunkPath (NewChunkID d));
}.

(** Pending writes, after one call has moved. *)
Lemma pending_goto s p d pc i j :
  (∀ d0 off, puts s !! p = Some (d0, PWriting i off) → j < off) →
  pending_at s i j → pending_at (goto_put p d pc s) i j.
Proof.
  intros Hp (q & dq & off & Hq & Hoff). exists q, dq, off. split; [|done]. simpl.
  rewrite lookup_insert_ne; [done|]. intros <-. specialize (Hp dq off Hq). lia.
Qed.

(** A call that has returned stays so. *)
Lemma write_failed_goto s p d pc id :
  (∀ r d0, puts s !! p ≠ Some (d0, PDone r)) → write_failed s id → write_failed (goto_put p d pc s) id.
Proof.
  intros Hp (q & dq & Hq & Hid). exists q, dq. split; [|done]. simpl.
  rewrite lookup_insert_ne; [done|]. intros <-. by destruct (Hp WriteFailed dq).
Qed.

(** A call moves on without touching the files. *)
Lemma goto_ok s p d pc pc' :
  puts_ok s → puts s !! p = Some (d, pc) → (∀ i off, pc' ≠ PWriting i off) →
  (∀ i off, pc = PWriting i off → length d ≤ off ∨ pc' = PDone WriteFailed) → (∀ r, pc ≠ PDone r) →
  (pc' = PDone PutOK → is_Some (names s !! chunkPath (NewChunkID d))) →
  puts_ok (goto_put p d pc' s).
Proof.
  intros Hs Hp Hw Hend Hrun Hdone. split; simpl.
  - intros q dq pcq Hq. rewrite lookup_insert in Hq. case_decide; [simplify_eq|]; by eapply (pok_data s Hs).
  - intros name i id. apply (pok_names s Hs).
  - intros q dq i off Hq. rewrite lookup_insert in Hq. case_decide; [|by eapply (pok_writing s Hs)].
    injection Hq as <- Hq. by destruct (Hw i off).
  - intros i f Hf. destruct (pok_content s Hs i f Hf) as [Hl Hc]. split; [done|]. intros j Hj.
    destruct (Hc j Hj) as [?|[Hpend|Hfail]]; [by left| |].
    2:{ right; right. apply write_failed_goto; [|done]. intros r d0 E. rewrite Hp in E. injection E as _ E. by apply (Hrun r). }
    right. destruct Hpend as (q & dq & off & Hq & Hoff). destruct (decide (p = q)) as [<-|Hne].
    2:{ left. exists q, dq, off. simpl. by rewrite lookup_insert_ne. }
    rewrite Hp in Hq. injection Hq as <- ->.
    destruct (pok_writing s Hs p d i off Hp) as [_ (f' & Hf' & Hfor)]. rewrite Hf in Hf'. injection Hf' as <-.
    destruct (Hend i off eq_refl) as [Hle| ->].
    + rewrite Hfor, (pok_data s Hs p d _ Hp) in Hj. lia.
    + right. exists p, d. simpl. by rewrite lookup_insert_eq, Hfor.
  - intros q dq Hq. rewrite lookup_insert in Hq. case_decide; [|by eapply (pok_done s Hs)].
    injection Hq as <- Hq. by apply Hdone.
Qed.

(** [os.WriteFile] opens the temporary file, which may be another writer's:
    it is emptied, and the new writer is to write all of it. *)
Lemma open_ok s p d i names' :
  puts_ok s → puts s !! p = Some (d, POpen) →
  (inodes s !! i = None ∨ ∃ f, inodes s !! i = Some f ∧ i_for f = NewChunkID d) →
  (∀ name j id, names' !! name = Some j → name = tmpPath id ∨ name = chunkPath id →
     names s !! name = Some j ∨ (j = i ∧ id = NewChunkID d)) →
  (∀ id, names' !! chunkPath id = names s !! chunkPath id) →
  puts_ok (goto_put p d (PWriting i 0)
             (Files names' (<[i := Ino (NewChunkID d) []]> (inodes s)) (puts s))).
Proof.
  intros Hs Hp Hi Hn Hc.
  assert (∀ j f, inodes s !! j = Some f →
            ∃ f', <[i := Ino (NewChunkID d) []]> (inodes s) !! j = Some f' ∧ i_for f' = i_for f) as Hkeep.
  { intros j f Hj. destruct (decide (j = i)) as [->|Hne].
    - rewrite lookup_insert_eq. eexists. split; [done|].
      destruct Hi as [Hi|(f0 & Hi & Hf)]; rewrite Hj in Hi; [done|]. injection Hi as <-. by rewrite Hf.
    - rewrite lookup_insert_ne by done. by exists f. }
  split; simpl.
  - intros q dq pcq Hq. rewrite lookup_insert in Hq. case_decide; [|by eapply (pok_data s Hs)].
    injection Hq as <- _. by apply (pok_data s Hs p _ POpen).
  - intros name j id Hj Hname. destruct (Hn name j id Hj Hname) as [Hold|[-> ->]].
    + destruct (pok_names s Hs name j id Hold Hname) as (f & Hf & Hfor).
      destruct (Hkeep j f Hf) as (f' & Hf' & E). exists f'. by rewrite E.
    + rewrite lookup_insert_eq. by eexists.
  - intros q dq j off Hq. rewrite lookup_insert in Hq. case_decide.
    + injection Hq as <- <- <-. split; [lia|]. rewrite lookup_insert_eq. by eexists.
    + destruct (pok_writing s Hs q dq j off Hq) as (Hoff & f & Hf & Hfor). split; [done|].
      destruct (Hkeep j f Hf) as (f' & Hf' & E). exists f'. by rewrite E.
  - intros j f Hf. destruct (decide (j = i)) as [->|Hne].
    + rewrite lookup_insert_eq in Hf. injection Hf as <-. simpl. split; [lia|]. intros k _. right.
      left. exists p, d, 0. split; [|lia]. simpl. by rewrite lookup_insert_eq.
    + rewrite lookup_insert_ne in Hf by done. destruct (pok_content s Hs j f Hf) as [Hl Hk]. split; [done|].
      intros k Hkl. destruct (Hk k Hkl) as [?|[(q & dq & off & Hq & Hoff)|(q & dq & Hq & Hid)]];
        [by left|right; left|right; right].
      * exists q, dq, off. split; [|done]. simpl. rewrite lookup_insert_ne; [done|].
        intros <-. rewrite Hp in Hq. discriminate.
      * exists q, dq. split; [|done]. simpl. rewrite lookup_insert_ne; [done|].
        intros <-. rewrite Hp in Hq. discriminate.
  - intros q dq Hq. rewrite Hc. rewrite lookup_insert in Hq. case_decide; [discriminate|].
    by eapply (pok_done s Hs).
Qed.

(** One write advances the position and stores the data of the identifier. *)
Lemma write_ok s p d i off n f :
  puts_ok s → puts s !! p = Some (d, PWriting i off) → off < length d → inodes s !! i = Some f →
  let b := take (S n) (drop off d) in
  puts_ok (goto_put p d (PWriting i (off + length b))
             (Files (names s) (<[i := Ino (i_for f) (write_at off b (i_data f))]> (inodes s)) (puts s))).
Proof.
  intros Hs Hp Hoff Hf b.
  assert (length b = S n `min` (length d - off)) as Hb by (unfold b; by rewrite length_take, length_drop).
  pose proof (pok_data s Hs p _ _ Hp) as HD.
  destruct (pok_writing s Hs p d i off Hp) as (_ & f0 & Hf0 & Hfor).
  rewrite Hf in Hf0. injection Hf0 as <-.
  destruct (pok_content s Hs i f Hf) as [Hlen Hcont]. rewrite Hfor, HD in Hlen, Hcont.
  assert (∀ j g, inodes s !! j = Some g →
            ∃ g', <[i := Ino (i_for f) (write_at off b (i_data f))]> (inodes s) !! j = Some g' ∧ i_for g' = i_for g)
    as Hkeep.
  { intros j g Hj. destruct (decide (j = i)) as [->|Hne].
    - rewrite lookup_insert_eq. rewrite Hf in Hj. injection Hj as <-. by eexists.
    - rewrite lookup_insert_ne by done. by exists g. }
  split; simpl.
  - intros q dq pcq Hq. rewrite lookup_insert in Hq. case_decide; [|by eapply (pok_data s Hs)].
    injection Hq as <- _. done.
  - intros name j id Hj Hname. destruct (pok_names s Hs name j id Hj Hname) as (g & Hg & Hgf).
    destruct (Hkeep j g Hg) as (g' & Hg' & E). exists g'. by rewrite E.
  - intros q dq j o Hq. rewrite lookup_insert in Hq. case_decide.
    + injection Hq as <- <- <-. split; [lia|]. rewrite lookup_insert_eq. by eexists.
    + destruct (pok_writing s Hs q dq j o Hq) as (Ho & g & Hg & Hgf). split; [done|].
      destruct (Hkeep j g Hg) as (g' & Hg' & E). exists g'. by rewrite E.
  - intros j g Hg. destruct (decide (j = i)) as [->|Hne].
    + rewrite lookup_insert_eq in Hg. injection Hg as <-. simpl. rewrite Hfor, HD.
      split; [apply length_write_at; lia|]. intros k Hk.
      destruct (decide (off ≤ k < off + length b)) as [Hin|Hout].
      { left. rewrite lookup_write_at by done. unfold b. rewrite lookup_take_lt by lia.
        rewrite lookup_drop. f_equal. lia. }
      destruct (Hcont k Hk) as [Hold|[(q & dq & o & Hq & Ho)|(q & dq & Hq & Hid)]].
      * left. rewrite lookup_write_at_ne; [done|lia|].
        rewrite <- (lookup_lt_is_Some (i_data f)), Hold. by apply lookup_lt_is_Some.
      * right; left. destruct (decide (q = p)) as [->|Hqp].
        { rewrite Hp in Hq. injection Hq as <- <-. exists p, d, (off + length b). simpl.
          rewrite lookup_insert_eq. split; [done|lia]. }
        exists q, dq, o. simpl. by rewrite lookup_insert_ne.
      * right; right. exists q, dq. simpl. rewrite lookup_insert_ne; [done|].
        intros <-. rewrite Hp in Hq. discriminate.
    + rewrite lookup_insert_ne in Hg by done. destruct (pok_content s Hs j g Hg) as [Hl Hk]. split; [done|].
      intros k Hkl. destruct (Hk k Hkl) as [?|[(q & dq & o & Hq & Ho)|(q & dq & Hq & Hid)]];
        [by left|right; left|right; right].
      * exists q, dq, o. split; [|done]. simpl. rewrite lookup_insert_ne; [done|].
        intros <-. rewrite Hp in Hq. injection Hq. congruence.
      * exists q, dq. split; [|done]. simpl. rewrite lookup_insert_ne; [done|].
        intros <-. rewrite Hp in Hq. discriminate.
  - intros q dq Hq. rewrite lookup_insert in Hq. case_decide; [discriminate|]. by eapply (pok_done s Hs).
Qed.

(** Names come and go between a temporary name and its chunk's. *)
Lemma names_ok s names' :
  puts_ok s →
  (∀ name i id, names' !! name = Some i → name = tmpPath id ∨ name = chunkPath id →
     ∃ name', names s !! name' = Some i ∧ (name' = tmpPath id ∨ name' = chunkPath id)) →
  (∀ id, is_Some (names s !! chunkPath id) → is_Some (names' !! chunkPath id)) →
  puts_ok (Files names' (inodes s) (puts s)).
Proof.
  intros [Hd Hn Hw Hc Hk] Hnames Hkeep. split; simpl; try done.
  - intros name i id Hi Hname. destruct (Hnames name i id Hi Hname) as (name' & Hi' & Hname').
    by eapply Hn.
  - intros p d Hp. by eapply Hkeep, Hk.
Qed.

Lemma tmp_of_name id id' name : name = tmpPath id → name = tmpPath id' ∨ name = chunkPath id' → id = id'.
Proof.
  intros -> [E|E]; [by apply (inj tmpPath)|by destruct (chunkPath_tmpPath id' id)].
Qed.

Lemma chunk_of_name id id' name : name = chunkPath id → name = tmpPath id' ∨ name = chunkPath id' → id = id'.
Proof.
  intros -> [E|E]; [by destruct (chunkPath_tmpPath id id')|by apply (inj chunkPath)].
Qed.

Lemma drop_tmp_ok s id : puts_ok s → puts_ok (Files (delete (tmpPath id) (names s)) (inodes s) (puts s)).
Proof.
  intros Hs. apply names_ok; [done| |].
  - intros name i id' Hi Hname. exists name. split; [|done]. by apply lookup_delete_Some in Hi as [_ ?].
  - intros id' H. rewrite lookup_delete_ne; [done|]. intros E. by destruct (chunkPath_tmpPath id' id).
Qed.

Lemma rename_ok s id i :
  puts_ok s → names s !! tmpPath id = Some i →
  puts_ok (Files (<[chunkPath id := i]> (delete (tmpPath id) (names s))) (inodes s) (puts s)).
Proof.
  intros Hs Hi. apply names_ok; [done| |].
  - intros name j id' Hj Hname. rewrite lookup_insert in Hj. case_decide as E.
    + injection Hj as <-. exists (tmpPath id). split; [done|]. left.
      by rewrite (chunk_of_name id id' name).
    + apply lookup_delete_Some in Hj as [_ Hj]. by exists name.
  - intros id' H. rewrite lookup_insert. case_decide; [done|].
    rewrite lookup_delete_ne; [done|]. intros E. by destruct (chunkPath_tmpPath id' id).
Qed.

Lemma put_step_ok s p n d pc s' :
  puts_ok s → puts s !! p = Some (d, pc) → put_step p n d pc s = Some s' → puts_ok s'.
Proof.
  intros Hs Hp Hstep. destruct pc as [| |i off| | |r]; cbn [put_step] in Hstep.
  - destruct (names s !! chunkPath (NewChunkID d)) as [i|] eqn:Hn; apply (inj Some) in Hstep as <-;
      by apply (goto_ok s p d PStat).
  - destruct (names s !! tmpPath (NewChunkID d)) as [i|] eqn:Hn.
    + destruct (pok_names s Hs _ i (NewChunkID d) Hn (or_introl eq_refl)) as (f & Hf & Hfor).
      rewrite Hf, Hfor in Hstep. apply (inj Some) in Hstep as <-.
      apply open_ok; [done|done|right; by exists f| |done]. intros name j id Hj _. by left.
    + destruct (inodes s !! n) as [f|] eqn:Hf; [done|]. apply (inj Some) in Hstep as <-.
      apply open_ok; [done|done|by left| |].
      * intros name j id Hj Hname. rewrite lookup_insert in Hj. case_decide as E; [|by left].
        injection Hj as <-. right. split; [done|]. symmetry. by apply (tmp_of_name _ _ name).
      * intros id. rewrite lookup_insert_ne; [done|]. intros E. by destruct (chunkPath_tmpPath id (NewChunkID d)).
  - destruct (Nat.leb_spec (length d) off) as [Hle|Hlt].
    + apply (inj Some) in Hstep as <-. apply (goto_ok s p d (PWriting i off)); try done.
      intros ? ? [= <- <-]. by left.
    + destruct (inodes s !! i) as [f|] eqn:Hf; [|done]. destruct n as [|n]; [done|].
      apply (inj Some) in Hstep as <-. by apply write_ok.
  - destruct (names s !! tmpPath (NewChunkID d)) as [i|] eqn:Hn; apply (inj Some) in Hstep as <-.
    + apply (goto_ok _ p d PRename); [by apply rename_ok|done|done|done|done|].
      intros _. exact (mk_is_Some _ _ (lookup_insert_eq _ _ _)).
    + apply (goto_ok s p d PRename); [done|done|done|done|done|intros E; discriminate E].
  - apply (inj Some) in Hstep as <-. apply (goto_ok _ p d PRemove); [by apply drop_tmp_ok|done|done|done|done|intros E; discriminate E].
  - done.
Qed.

Lemma put_fault_ok s p d pc s' :
  puts_ok s → puts s !! p = Some (d, pc) → put_fault p d pc s = Some s' → puts_ok s'.
Proof.
  intros Hs Hp Hstep. destruct pc as [| |i off| | |r]; cbn [put_fault] in Hstep; try done;
    apply (inj Some) in Hstep as <-; (eapply goto_ok; [done|exact Hp|done| |done|intros E; discriminate E]);
    intros; by right.
Qed.

Definition no_clash (a : put_action) : Prop :=
  match a with Start _ d => D (NewChunkID d) = d | _ => True end.

Lemma start_ok s p d : puts_ok s → puts s !! p = None → D (NewChunkID d) = d → puts_ok (goto_put p d PStat s).
Proof.
  intros [Hd Hn Hw Hc Hk] Hp HD. split; simpl; try done.
  - intros q dq pc Hq. rewrite lookup_insert in Hq. case_decide; [by injection Hq as <- _|by eapply Hd].
  - intros q dq i off Hq. rewrite lookup_insert in Hq. case_decide; [discriminate|by eapply Hw].
  - intros i f Hf. destruct (Hc i f Hf) as [Hl Hj]. split; [done|]. intros j Hjl.
    destruct (Hj j Hjl) as [?|[(q & dq & off & Hq & Hoff)|(q & dq & Hq & Hid)]];
      [by left|right; left|right; right].
    + exists q, dq, off. simpl. rewrite lookup_insert_ne by congruence. done.
    + exists q, dq. simpl. rewrite lookup_insert_ne by congruence. done.
  - intros q dq Hq. rewrite lookup_insert in Hq. case_decide; [discriminate|by eapply Hk].
Qed.

Lemma put_run_ok l s s' : puts_ok s → Forall no_clash l → put_run l s = Some s' → puts_ok s'.
Proof.
  intros Hs Hl. revert s Hs. induction Hl as [|a l Ha Hl IH]; intros s Hs Hrun; cbn [put_run] in Hrun.
  { by apply (inj Some) in Hrun as <-. }
  destruct (put_exec a s) as [s1|] eqn:Hex; [|done]. apply (IH s1); [|done].
  destruct a as [p d|p n|p]; cbn [put_exec] in Hex.
  - destruct (puts s !! p) eqn:Hp; [done|]. apply (inj Some) in Hex as <-. by apply start_ok.
  - destruct (puts s !! p) as [[d pc]|] eqn:Hp; [|done]. by eapply put_step_ok.
  - destruct (puts s !! p) as [[d pc]|] eqn:Hp; [|done]. by eapply put_fault_ok.
Qed.

(** A list that is not longer than another and not equal to it differs from
    it somewhere. *)
Lemma wrong_position (a b : bytes) :
  a ≠ b → length a ≤ length b → ∃ j, j < length b ∧ a !! j ≠ b !! j.
Proof.
  revert b. induction a as [|x a IH]; intros [|y b] Hne Hl; simpl in Hl; [done| |lia|].
  - exists 0. split; [simpl; lia|done].
  - destruct (decide (x = y)) as [->|Hxy].
    + destruct (IH b) as (j & Hj & Hjne); [congruence|lia|]. exists (S j). split; [simpl; lia|done].
    + exists 0. split; [simpl; lia|]. simpl. congruence.
Qed.

(** A store at rest: no call under way, no temporary file, every chunk file
    holding the data of its identifier, one file per chunk. *)
Definition at_rest (s : files) : Prop :=
  puts s = ∅ ∧ (∀ id, names s !! tmpPath id = None) ∧
  (∀ id i, names s !! chunkPath id = Some i → inodes s !! i = Some (Ino id (D id))) ∧
  (∀ i f, inodes s !! i = Some f → i_data f = D (i_for f)).

Lemma at_rest_ok s : at_rest s → puts_ok s.
Proof.
  intros (Hp & Ht & Hn & Hi). split.
  - intros p d pc. by rewrite Hp.
  - intros name i id Hname [->| ->]; [by rewrite Ht in Hname|]. rewrite (Hn id i Hname). by eexists.
  - intros p d i off. by rewrite Hp.
  - intros i f Hf. rewrite (Hi i f Hf). split; [done|by left].
  - intros p d. by rewrite Hp.
Qed.

(** C7: Once every overlapping [PutChunk] has returned, however their system
    calls interleaved, however much each write took and whichever calls failed,
    every chunk for which no [os.WriteFile] reported an error is right: the
    file under its name holds exactly the data of its identifier. A call that
    returned no error left its chunk's file in the store, with the right data
    unless some [os.WriteFile] for the same chunk failed.
    (The data stored do not clash under SHA-256.) *)
Theorem concurrent_put_settles l s s' :
  at_rest s → Forall no_clash l → put_run l s = Some s' →
  (∀ p d pc, puts s' !! p = Some (d, pc) → ∃ r, pc = PDone r) →
  (∀ id i, names s' !! chunkPath id = Some i →
     read_chunk id s' = Some (D id) ∨ (write_failed s' id ∧ is_Some (read_chunk id s'))) ∧
  (∀ p d, puts s' !! p = Some (d, PDone PutOK) →
     read_chunk (NewChunkID d) s' = Some d ∨
     (write_failed s' (NewChunkID d) ∧ is_Some (read_chunk (NewChunkID d) s'))).
Proof.
  intros Hs Hl Hrun Hidle. pose proof (put_run_ok l s s' (at_rest_ok s Hs) Hl Hrun) as Hok.
  assert (∀ id i, names s' !! chunkPath id = Some i →
    read_chunk id s' = Some (D id) ∨ (write_failed s' id ∧ is_Some (read_chunk id s'))) as Hread.
  { intros id i Hi. destruct (pok_names s' Hok _ i id Hi (or_intror eq_refl)) as (f & Hf & Hfor).
    unfold read_chunk. rewrite Hi. cbn [mbind option_bind]. rewrite Hf.
    destruct (pok_content s' Hok i f Hf) as [Hlen Hc].
    destruct (decide (i_data f = D (i_for f))) as [E|Hne]; [left; cbn; by rewrite E, Hfor|right].
    split; [|by eexists]. destruct (wrong_position (i_data f) (D (i_for f)) Hne Hlen) as (j & Hj & Hjne).
    destruct (Hc j Hj) as [?|[(p & d & off & Hp & _)|?]]; [done|by destruct (Hidle p d _ Hp)|by rewrite <-Hfor]. }
  split; [exact Hread|]. intros p d Hp. destruct (pok_done s' Hok p d Hp) as [i Hi].
  pose proof (Hread _ i Hi) as Hr. by rewrite (pok_data s' Hok p d _ Hp) in Hr.
Qed.
End Concurrent.

(** ** A torn chunk

    The second writer opens the common temporary file, and so empties it,
    between the first writer's last write and its rename. *)

Definition torn_calls (d : bytes) : list put_action :=
  [Start 0 d; Start 1 d; Call 0 0; Call 1 0; Call 0 0; Call 0 (length d); Call 0 0; Call 1 0; Call 0 0].

Definition torn_rest (d : bytes) : list put_action := [Call 1 (length d); Call 1 0; Call 1 0; Call 1 0].

Definition no_files : files := Files ∅ ∅ ∅.

Lemma put_run_cons a l s s' : put_exec a s = Some s' → put_run (a :: l) s = put_run l s'.
Proof. intros H. cbn [put_run]. by rewrite H. Qed.

Lemma put_exec_call p n d pc s : puts s !! p = Some (d, pc) → put_exec (Call p n) s = put_step p n d pc s.
Proof. intros H. cbn [put_exec]. by rewrite H. Qed.

Lemma write_whole (d c : bytes) : length c = 0 → write_at 0 (take (length d) (drop 0 d)) c = d.
Proof.
  intros H. apply length_zero_iff_nil in H as ->. unfold write_at. rewrite drop_0.
  rewrite (take_ge d) by done. rewrite drop_nil, app_nil_r. apply (app_nil_r d).
Qed.

#[local] Arguments chunkPath : simpl never.
#[local] Arguments tmpPath : simpl never.
#[local] Arguments NewChunkID : simpl never.
#[local] Arguments write_at : simpl never.

Lemma exec_write_all p x l i f s :
  puts s !! p = Some (x :: l, PWriting i 0) → inodes s !! i = Some f → length (i_data f) = 0 →
  put_exec (Call p (length (x :: l))) s =
  Some (goto_put p (x :: l) (PWriting i (length (x :: l)))
          (Files (names s) (<[i := Ino (i_for f) (x :: l)]> (inodes s)) (puts s))).
Proof.
  intros Hp Hf Hl. cbn [put_exec]. rewrite Hp. cbn [put_step]. rewrite Hf.
  pose proof (write_whole (x :: l) (i_data f) Hl) as Hw.
  rewrite drop_0, take_ge in Hw by done. rewrite drop_0, take_ge by done. rewrite Hw. done.
Qed.

Lemma exec_written p d i s :
  puts s !! p = Some (d, PWriting i (length d)) → put_exec (Call p 0) s = Some (goto_put p d PRename s).
Proof. intros Hp. cbn [put_exec]. rewrite Hp. cbn [put_step]. by rewrite Nat.leb_refl. Qed.

(** Looks up the program counters, names and files the schedule has built. *)
Ltac look :=
  cbn [puts names inodes goto_put];
  repeat first
    [ rewrite lookup_insert_eq | rewrite lookup_delete_eq | rewrite lookup_empty
    | rewrite lookup_insert_ne by (first [discriminate | apply chunkPath_tmpPath
                                    | apply not_eq_sym, chunkPath_tmpPath])
    | rewrite lookup_delete_ne by (apply not_eq_sym, chunkPath_tmpPath) ].

Ltac one_call :=
  first
    [ erewrite put_run_cons by (eapply exec_write_all; [look; reflexivity|look; reflexivity|reflexivity])
    | erewrite put_run_cons by (eapply exec_written; look; reflexivity)
    | erewrite put_run_cons by (cbn [put_exec]; look; cbn [put_step]; look; reflexivity) ].

Lemma put_run_app l1 l2 s s' : put_run l1 s = Some s' → put_run (l1 ++ l2) s = put_run l2 s'.
Proof.
  revert s. induction l1 as [|a l1 IH]; intros s H; cbn [put_run app] in *.
  { by apply (inj Some) in H as ->. }
  destruct (put_exec a s); [by apply IH|done].
Qed.

(** The schedule, with all that is seen of the state in its middle and end. *)
Lemma torn_run x l :
  let d := x :: l in
  ∃ s s',
    put_run (torn_calls d) no_files = Some s ∧ put_run (torn_rest d) s = Some s' ∧
    puts s !! 0 = Some (d, PDone PutOK) ∧ read_chunk (NewChunkID d) s = Some [] ∧
    puts s' !! 0 = Some (d, PDone PutOK) ∧ puts s' !! 1 = Some (d, PDone RenameFailed) ∧
    read_chunk (NewChunkID d) s' = Some d ∧
    ∀ p dp pc, puts s' !! p = Some (dp, pc) → pc = PDone PutOK ∨ pc = PDone RenameFailed.
Proof.
  unfold torn_calls, torn_rest, no_files. cbv zeta. eexists. eexists.
  split; [do 9 one_call; reflexivity|]. split; [do 4 one_call; reflexivity|].
  split; [look; reflexivity|].
  split; [unfold read_chunk; look; cbn [mbind option_bind]; look; reflexivity|].
  do 2 (split; [look; reflexivity|]).
  split; [unfold read_chunk; look; cbn [mbind option_bind]; look; reflexivity|].
  cbn [puts goto_put]. intros p dp pc Hp. rewrite !lookup_insert in Hp.
  repeat case_decide; try (injection Hp as _ <-; auto); discriminate.
Qed.

(** C38: Two calls that put the same data at the same time can leave the chunk
    empty under its final name although the first call has already returned
    without an error; when the second has finished writing the chunk is whole,
    but that call fails, since its temporary file is gone. *)
Theorem concurrent_put_torn x l :
  let d := x :: l in
  ∃ s s',
    put_run (torn_calls d) no_files = Some s ∧
    puts s !! 0 = Some (d, PDone PutOK) ∧ read_chunk (NewChunkID d) s = Some [] ∧
    put_run (torn_rest d) s = Some s' ∧
    puts s' !! 1 = Some (d, PDone RenameFailed) ∧ read_chunk (NewChunkID d) s' = Some d.
Proof.
  destruct (torn_run x l) as (s & s' & H1 & H2 & H3 & H4 & _ & H5 & H6 & _). by exists s, s'.
Qed.

(** ** A chunk that stays torn

    As above, but the second writer's write fails. Nothing is left to write
    then, and the first writer's rename publishes the empty file. *)

Definition torn_for_good (d : bytes) : list put_action :=
  [Start 0 d; Start 1 d; Call 0 0; Call 1 0; Call 0 0; Call 0 (length d); Call 0 0; Call 1 0; Fault 1; Call 0 0;
   Start 2 d; Call 2 0].

(** C40: When the write of one of two overlapping calls for the same data fails,
    for want of space for instance, the chunk can be torn for good: after both
    have returned, the first without an error, the file under the chunk's name
    is empty, and a later call for the same data finds that file, writes
    nothing and returns no error either. *)
Theorem concurrent_put_torn_for_good x l :
  let d := x :: l in
  ∃ s,
    put_run (torn_for_good d) no_files = Some s ∧
    puts s !! 0 = Some (d, PDone PutOK) ∧ puts s !! 1 = Some (d, PDone WriteFailed) ∧
    puts s !! 2 = Some (d, PDone PutOK) ∧
    (∀ p dp pc, puts s !! p = Some (dp, pc) → ∃ r, pc = PDone r) ∧
    read_chunk (NewChunkID d) s = Some [].
Proof.
  unfold torn_for_good, no_files. cbv zeta. eexists. split; [do 12 one_call; reflexivity|].
  do 3 (split; [look; reflexivity|]). split.
  - cbn [puts goto_put]. intros p dp pc Hp. rewrite !lookup_insert in Hp.
    repeat case_decide; try (injection Hp as _ <-; eexists; reflexivity); discriminate.
  - unfold read_chunk; look; cbn [mbind option_bind]; look; reflexivity.
Qed.

Lemma no_files_at_rest D : at_rest D no_files.
Proof. repeat split; intros *; cbn [no_files names inodes]; rewrite lookup_empty; discriminate. Qed.

Lemma concurrent_put_settles_witness :
  let d := [x61; x62] in
  ∃ s', put_run (torn_calls d ++ torn_rest d) no_files = Some s' ∧
    puts s' !! 0 = Some (d, PDone PutOK) ∧ puts s' !! 1 = Some (d, PDone RenameFailed) ∧
    read_chunk (NewChunkID d) s' = Some d.
Proof.
  destruct (torn_run x61 [x62]) as (s & s' & H1 & H2 & _ & _ & H3 & H4 & _ & Hidle).
  assert (put_run (torn_calls [x61; x62] ++ torn_rest [x61; x62]) no_files = Some s') as Hrun.
  { rewrite (put_run_app _ _ _ s H1). exact H2. }
  exists s'. split; [exact Hrun|]. split; [exact H3|]. split; [exact H4|].
  destruct (concurrent_put_settles (λ _, [x61; x62]) (torn_calls [x61; x62] ++ torn_rest [x61; x62])
           no_files s' (no_files_at_rest _)) as [_ Hok].
  - repeat (apply Forall_cons; split; [first [exact I | reflexivity]|]). by apply Forall_nil.
  - exact Hrun.
  - intros p d pc Hp. destruct (Hidle p d pc Hp) as [-> | ->]; eexists; reflexivity.
  - destruct (Hok 0 [x61; x62] H3) as [E|[(p & d & Hp & _) _]]; [exact E|].
    destruct (Hidle p d _ Hp) as [E|E]; discriminate E.
Defined.
