(* ===== verification/Reader.v ===== *)
(** * Readers and writers: what the program uses of [io] and [bufio]

    An [io.Reader] is the list of the results its [Read] calls are ready to
    give: some bytes, and possibly an error with them. A call with a small
    buffer takes a prefix. [bufio.Reader] and [io.ReadFull] are modelled as
    the Go library defines them, so short reads, empty reads and data
    returned together with [io.EOF] all occur. *)

From S2P Require Import Prelude.
From stdpp Require Import options.

Notation reader := (list (bytes * option error)).

(** [r.Read(p)] with [len(p) = cap]. *)
Definition Read (cap : nat) (r : reader) : bytes * option error * reader :=
  match r with
  | [] => ([], Some EEOF, [])
  | (b, e) :: r' =>
      if (length b <=? cap)%nat then (b, e, r')
      else (take cap b, None, (drop cap b, e) :: r')
  end.

(** [bufio.Reader]: unread bytes, a pending error, the underlying reader. *)
Record bufio := Bufio { b_buf : bytes; b_err : option error; b_rd : reader }.

Definition bufio_NewReader (r : reader) : bufio := Bufio [] None r.
Definition bufio_size : nat := 4096.

Definition bufio_copy (n : nat) (b : bufio) : bytes * option error * bufio :=
  (take n (b_buf b), None, Bufio (drop n (b_buf b)) (b_err b) (b_rd b)).

(** [b.Read(p)] with [len(p) = n]. *)
Definition bufio_Read (n : nat) (b : bufio) : bytes * option error * bufio :=
  match n, b_buf b with
  | O, [] => ([], b_err b, Bufio [] None (b_rd b))
  | O, _ => ([], None, b)
  | _, _ :: _ => bufio_copy n b
  | _, [] =>
      match b_err b with
      | Some e => ([], Some e, Bufio [] None (b_rd b))
      | None =>
          if (bufio_size <=? n)%nat then
            match Read n (b_rd b) with (d, e, r') => (d, e, Bufio [] None r') end
          else
            match Read bufio_size (b_rd b) with
            | ([], e, r') => ([], e, Bufio [] None r')
            | (d, e, r') => bufio_copy n (Bufio d e r')
            end
      end
  end.

(** Bound on the number of reads: bytes and results still to be delivered. *)
Definition reader_size (r : reader) : nat := sum_list_with (λ x, S (length x.1)) r.
Definition bufio_measure (b : bufio) : nat :=
  length (b_buf b) + (if b_err b then 1 else 0) + reader_size (b_rd b).

(** ** Termination: every read makes progress or ends the loop *)

Lemma Read_size cap r d e r' :
  0 < cap → Read cap r = (d, e, r') →
  (reader_size r' < reader_size r ∧ length d + reader_size r' ≤ reader_size r ∧
   (e ≠ None → length d + reader_size r' < reader_size r)) ∨
  (d = [] ∧ e = Some EEOF ∧ r' = [] ∧ r = []).
Proof.
  unfold Read, reader_size. destruct r as [|[b e0] r0]; intros Hcap H.
  - naive_solver.
  - left. destruct (length b <=? cap)%nat eqn:E; simplify_eq; simpl; bool_to_Prop; [lia|].
    rewrite length_take, length_drop. split_and!; [lia|lia|done].
Qed.

Lemma bufio_Read_measure n b d e b' :
  0 < n → bufio_Read n b = (d, e, b') →
  bufio_measure b' < bufio_measure b ∨
  (d = [] ∧ e = Some EEOF ∧ bufio_measure b' ≤ bufio_measure b).
Proof.
  intros Hn. unfold bufio_Read, bufio_copy, bufio_measure. destruct n as [|n]; [lia|].
  destruct (b_buf b) as [|x buf] eqn:Hbuf.
  2:{ intros; simplify_eq/=. left. rewrite length_drop. lia. }
  destruct (b_err b) as [e0|] eqn:Herr; [intros; simplify_eq/=; left; lia|].
  destruct (bufio_size <=? S n)%nat.
  - destruct (Read (S n) (b_rd b)) as [[d0 e0] r0] eqn:Hr. intros; simplify_eq/=.
    apply Read_size in Hr as [(? & _)|(-> & -> & -> & _)]; [left; lia| |lia].
    right. simpl. split_and!; [done|done|lia].
  - destruct (Read bufio_size (b_rd b)) as [[d0 e0] r0] eqn:Hr.
    apply Read_size in Hr as [(? & ? & ?)|(-> & -> & -> & _)]; [| |unfold bufio_size; lia].
    + destruct d0 as [|x d0]; intros; simplify_eq/=; left; [lia|].
      rewrite length_drop. destruct e0; [specialize (H1 ltac:(done)); lia|lia].
    + intros; simplify_eq/=. right. split_and!; [done|done|lia].
Qed.

(** ** Readers that deliver a byte stream and then end *)

(** No error before the last result, and only [io.EOF] with it. *)
Fixpoint well_behaved (r : reader) : Prop :=
  match r with
  | [] => True
  | [(_, e)] => e = None ∨ e = Some EEOF
  | (_, e) :: r' => e = None ∧ well_behaved r'
  end.

Definition stream (r : reader) : bytes := mjoin (fst <$> r).

Definition bufio_ok (b : bufio) : Prop :=
  (b_err b = None ∧ well_behaved (b_rd b)) ∨ (b_err b = Some EEOF ∧ b_rd b = []).
Definition bufio_stream (b : bufio) : bytes := b_buf b ++ stream (b_rd b).

Lemma Read_stream cap r d e r' :
  well_behaved r → Read cap r = (d, e, r') →
  stream r = d ++ stream r' ∧ length d ≤ cap ∧
  ((e = None ∧ well_behaved r') ∨ (e = Some EEOF ∧ r' = [])).
Proof.
  unfold Read, stream. destruct r as [|[b e0] r0]; intros Hwb H.
  - simplify_eq. split_and!; [done|simpl; lia|auto].
  - destruct (length b <=? cap)%nat eqn:E; simplify_eq; bool_to_Prop; simpl.
    + split_and!; [done|done|]. destruct r'; simpl in Hwb; [|naive_solver].
      destruct Hwb as [->| ->]; naive_solver.
    + rewrite app_assoc, take_drop, length_take. split_and!; [done|lia|].
      left. split; [done|]. by destruct r0.
Qed.

Lemma bufio_Read_stream n b d e b' :
  0 < n → bufio_ok b → bufio_Read n b = (d, e, b') →
  bufio_stream b = d ++ bufio_stream b' ∧ length d ≤ n ∧ bufio_ok b' ∧
  (e = None ∨ (e = Some EEOF ∧ bufio_stream b' = [])).
Proof.
  intros Hn Hok. unfold bufio_Read, bufio_copy, bufio_stream. destruct n as [|n]; [lia|].
  destruct (b_buf b) as [|x buf] eqn:Hbuf.
  2:{ intros; simplify_eq/=. rewrite app_assoc, take_drop, length_take. split_and!; [done|lia| |auto].
      done. }
  destruct (b_err b) as [e0|] eqn:Herr.
  { intros; simplify_eq/=. destruct Hok as [[? _]|[He Hrd]]; [congruence|].
    rewrite Herr in He. simplify_eq. rewrite Hrd. split_and!; [done|lia| |auto].
    by left. }
  destruct Hok as [[_ Hwb]|[? _]]; [|congruence].
  destruct (bufio_size <=? S n)%nat.
  - destruct (Read (S n) (b_rd b)) as [[d0 e0] r0] eqn:Hr. intros; simplify_eq/=.
    apply Read_stream in Hr as (-> & ? & [[-> ?]|[-> ->]]); [| |done];
      (split_and!; [done|lia|by left|auto]).
  - destruct (Read bufio_size (b_rd b)) as [[d0 e0] r0] eqn:Hr.
    apply Read_stream in Hr as (Hs & _ & Hor); [|done]. rewrite Hs.
    destruct d0 as [|x d0]; intros; simplify_eq/=.
    + split_and!; [done|lia| |destruct Hor as [[-> _]|[-> ->]]; auto].
      destruct Hor as [[_ ?]|[_ ->]]; by left.
    + rewrite app_assoc, take_drop, length_take. split_and!; [done|lia| |auto].
      by destruct Hor as [[-> ?]|[-> ->]]; [left|right].
Qed.

(** ** [io.ReadFull]

    Generic in the reader: [read n b] is its [Read] with a buffer of [n]
    bytes, [measure] bounds the number of reads that make progress. *)

Section ReadFull.
Context {B : Type} (read : nat → B → bytes * option error * B) (measure : B → nat).

(** The loop of [io.ReadAtLeast(r, buf, len(buf))], [len(buf) = n]; [None]
    means the fuel ran out. *)
Fixpoint read_loop (fuel n : nat) (acc : bytes) (err : option error) (b : B) :
    option (bytes * option error * B) :=
  if (length acc <? n)%nat && bool_decide (err = None) then
    match fuel with
    | O => None
    | S fuel' =>
        match read (n - length acc) b with
        | (d, e, b') => read_loop fuel' n (acc ++ d) e b'
        end
    end
  else Some (acc, err, b).

(** [io.ReadFull(b, buf)], [len(buf) = n]. *)
Definition read_full (n : nat) (b : B) : option (bytes * option error * B) :=
  match read_loop (S (measure b)) n [] None b with
  | None => None
  | Some (d, err, b') =>
      Some (d,
        if (n <=? length d)%nat then None
        else if (0 <? length d)%nat && bool_decide (err = Some EEOF) then Some EUnexpectedEOF
        else err, b')
  end.

Context (read_measure : ∀ n b d e b', 0 < n → read n b = (d, e, b') →
  measure b' < measure b ∨ (d = [] ∧ e = Some EEOF ∧ measure b' ≤ measure b)).
#[local] Set Default Proof Using "read_measure".

Lemma read_loop_enough fuel n acc err b :
  measure b < fuel →
  ∃ d e b', read_loop fuel n acc err b = Some (d, e, b') ∧
    measure b' ≤ measure b ∧ (n ≤ length d ∨ e ≠ None) ∧
    (length acc < n → err = None → n ≤ length d → measure b' < measure b).
Proof.
  revert acc err b. induction fuel as [|fuel IH]; intros acc err b Hf; [lia|]. simpl.
  destruct ((length acc <? n)%nat && bool_decide (err = None)) eqn:E.
  2:{ eexists _, _, _. split_and!; [done|done| |].
      - apply andb_false_iff in E as [E|E%bool_decide_eq_false]; [left; bool_lia|by right].
      - intros ? ->. bool_lia. }
  bool_to_Prop. destruct (read (n - length acc) b) as [[d e] b'] eqn:Hr.
  apply read_measure in Hr as [Hlt|(-> & -> & Hle)]; [| |lia].
  - destruct (IH (acc ++ d) e b') as (d' & e' & b'' & -> & Hle & Hend & _); [lia|].
    eexists _, _, _. split_and!; [done|lia|done|lia].
  - rewrite app_nil_r. destruct fuel; simpl; rewrite andb_false_r; simpl.
    all: eexists _, _, _; split_and!; [done|lia|by right|lia].
Qed.

Lemma read_full_total n b :
  ∃ d e b', read_full n b = Some (d, e, b') ∧ measure b' ≤ measure b ∧
    (0 < n → e = None → measure b' < measure b).
Proof.
  unfold read_full.
  destruct (read_loop_enough (S (measure b)) n [] None b) as (d & e & b' & -> & Hle & Hend & Hlt);
    [lia|].
  eexists _, _, _. split_and!; [done|done|]. intros Hn He. apply Hlt; [done|done|].
  destruct (n <=? length d)%nat eqn:E; bool_lia.
  destruct Hend as [?|Hne]; [done|]. by case_match.
Qed.

(** For a reader that delivers the bytes [strm] and then ends. *)
Context (good : B → Prop) (strm : B → bytes).
Context (read_stream : ∀ n b d e b', 0 < n → good b → read n b = (d, e, b') →
  strm b = d ++ strm b' ∧ length d ≤ n ∧ good b' ∧
  (e = None ∨ (e = Some EEOF ∧ strm b' = []))).
#[local] Set Default Proof Using "read_measure read_stream".

Lemma read_loop_stream fuel n acc b d e b' :
  good b → length acc ≤ n → read_loop fuel n acc None b = Some (d, e, b') →
  d = take n (acc ++ strm b) ∧ strm b' = drop (n - length acc) (strm b) ∧
  good b' ∧ (length d < n → e = Some EEOF).
Proof.
  revert acc b. induction fuel as [|fuel IH]; intros acc b Hok Hacc; simpl;
    rewrite andb_true_r; destruct (length acc <? n)%nat eqn:E; bool_lia.
  2,4: intros [= <- <- <-]; assert (n = length acc) as -> by lia;
    rewrite take_app_length, Nat.sub_diag, drop_0; split_and!; [done..|lia].
  - done.
  - destruct (read (n - length acc) b) as [[d1 e1] b1] eqn:Hr.
    apply read_stream in Hr as (Hs & Hlen & Hok1 & Hor); [|lia|done].
    rewrite Hs, app_assoc. destruct Hor as [->|[-> Hnil]].
    + intros H. apply IH in H as (-> & -> & ? & ?); [|done|rewrite length_app; lia].
      split_and!; [done| |done|done].
      rewrite drop_app_ge by lia. rewrite length_app. f_equal. lia.
    + rewrite Hnil, app_nil_r. destruct fuel; simpl; rewrite andb_false_r;
        intros [= <- <- <-]; rewrite take_ge by (rewrite length_app; lia).
      all: rewrite Hnil, app_nil_r, drop_ge by lia; done.
Qed.

(** [io.ReadFull] cuts the next [n] bytes off the stream, however the reader
    splits it. *)
Lemma read_full_stream n b :
  0 < n → good b →
  ∃ b', read_full n b = Some (take n (strm b),
      (if (n <=? length (strm b))%nat then None
       else if bool_decide (strm b = []) then Some EEOF else Some EUnexpectedEOF), b') ∧
    good b' ∧ strm b' = drop n (strm b).
Proof.
  intros Hn Hok. unfold read_full.
  destruct (read_loop_enough (S (measure b)) n [] None b) as (d & e & b' & Hl & _); [lia|].
  rewrite Hl. apply read_loop_stream in Hl as (-> & Hs & Hok' & He); [|done|simpl; lia].
  simpl in Hs, He. rewrite Nat.sub_0_r in Hs. exists b'. split; [|done].
  simpl. rewrite length_take in *. do 3 f_equal.
  destruct (n <=? length (strm b))%nat eqn:E; bool_to_Prop.
  - by replace (n <=? n `min` length (strm b))%nat with true
      by (symmetry; apply Nat.leb_le; lia).
  - replace (n <=? n `min` length (strm b))%nat with false
      by (symmetry; apply Nat.leb_gt; lia).
    rewrite He by lia. rewrite (bool_decide_eq_true_2 (Some EEOF = Some EEOF)) by done.
    rewrite Nat.min_r, andb_true_r by lia.
    by destruct (strm b).
Qed.
End ReadFull.

(** [io.ReadFull] on a [bufio.Reader] and directly on a connection. *)
Definition ReadFull := read_full bufio_Read bufio_measure.
Definition conn_ReadFull := read_full Read reader_size.

Lemma ReadFull_total n b :
  ∃ d e b', ReadFull n b = Some (d, e, b') ∧ bufio_measure b' ≤ bufio_measure b ∧
    (0 < n → e = None → bufio_measure b' < bufio_measure b).
Proof. apply read_full_total, bufio_Read_measure. Qed.

Lemma ReadFull_stream n b :
  0 < n → bufio_ok b →
  ∃ b', ReadFull n b = Some (take n (bufio_stream b),
      (if (n <=? length (bufio_stream b))%nat then None
       else if bool_decide (bufio_stream b = []) then Some EEOF else Some EUnexpectedEOF), b') ∧
    bufio_ok b' ∧ bufio_stream b' = drop n (bufio_stream b).
Proof.
  apply read_full_stream; [apply bufio_Read_measure|]. intros *. apply bufio_Read_stream.
Qed.

Lemma Read_measure n r d e r' :
  0 < n → Read n r = (d, e, r') →
  reader_size r' < reader_size r ∨ (d = [] ∧ e = Some EEOF ∧ reader_size r' ≤ reader_size r).
Proof. intros Hn Hr. apply Read_size in Hr as [(? & _)|(-> & -> & -> & ->)]; [by left|by right|done]. Qed.

Lemma conn_ReadFull_total n r :
  ∃ d e r', conn_ReadFull n r = Some (d, e, r') ∧ reader_size r' ≤ reader_size r ∧
    (0 < n → e = None → reader_size r' < reader_size r).
Proof. apply read_full_total, Read_measure. Qed.

Lemma conn_ReadFull_stream n r :
  0 < n → well_behaved r →
  ∃ r', conn_ReadFull n r = Some (take n (stream r),
      (if (n <=? length (stream r))%nat then None
       else if bool_decide (stream r = []) then Some EEOF else Some EUnexpectedEOF), r') ∧
    well_behaved r' ∧ stream r' = drop n (stream r).
Proof.
  apply read_full_stream; [apply Read_measure|]. intros n' b d e b' _ Hwb Hr.
  apply Read_stream in Hr as (? & ? & [[-> ?]|[-> ->]]); [| |done].
  - split_and!; auto.
  - split_and!; auto. done.
Qed.

Lemma bufio_New_ok r : well_behaved r → bufio_ok (bufio_NewReader r).
Proof. intros. by left. Qed.

(** ** Writers

    What was written, and for each coming call of [Write] the error it returns
    with the number of bytes it still takes, if it fails. *)
Record writer := Writer { written : bytes; faults : list (option (nat * error)) }.

Definition Write (b : bytes) : M writer unit := λ w,
  match faults w with
  | Some (n, e) :: rest => (Writer (written w ++ take n b) rest, Err e)
  | None :: rest => (Writer (written w ++ b) rest, Ok tt)
  | [] => (Writer (written w ++ b) [], Ok tt)
  end.
