(* ===== verification/Chunker.v ===== *)
(** * Splitting a stream into stored chunks (src/internal/storage/chunker.go)

    [StoreFromReader] is the code's loop over [io.ReadFull]. It is shown
    equal to storing the fixed-size pieces of the stream one after the
    other, for every reader that delivers the stream, every chunk store and
    every pattern of short reads; it ends for every reader. *)

From S2P Require Import Prelude Hex Sha256 ChunkId FileSys Store Reader.
From stdpp Require Import options.

Definition DefaultChunkSize : Z := Z.shiftl 1 20.

Record ChunkMeta := CM { cm_Index : Z; cm_ID : ChunkID; cm_Size : Z }.

(** [make([]byte, n)] panics when [n] bytes are beyond the address space:
    [runtime.maxAlloc] of a 64-bit system. A machine with less memory than that
    may end the program earlier. *)
Definition maxAlloc : Z := 2 ^ 48.
Definition make_bytes (n : Z) : res unit :=
  if ((0 <=? n) && (n <=? maxAlloc))%Z then Ok tt else Panic.

Lemma make_bytes_spec n : (0 ≤ n)%Z → make_bytes n = if (n <=? maxAlloc)%Z then Ok tt else Panic.
Proof. intros Hn. unfold make_bytes. by rewrite (proj2 (Z.leb_le 0 n)). Qed.

Lemma make_bytes_ok n : (0 ≤ n ≤ maxAlloc)%Z → make_bytes n = Ok tt.
Proof. intros [H1 H2]. unfold make_bytes. by rewrite (proj2 (Z.leb_le _ _) H1), (proj2 (Z.leb_le _ _) H2). Qed.

(** A [ChunkStore] value may be [nil]. *)
Definition on_store {S A} (m : M S A) : M (option S) A := λ st,
  match st with
  | Some s => match m s with (s', r) => (Some s', r) end
  | None => (None, Panic)
  end.

(** [chunks = append(chunks, ChunkMeta{Index: index, ID: cid, Size: int64(n)})]
    after a successful [PutChunk]. *)
Definition put_piece {S} `{ChunkStore S} (index : Z) (chunks : list ChunkMeta)
    (piece : bytes) : M S (list ChunkMeta) :=
  cid ← wrap_errM "StoreFromReader: PutChunk" (PutChunk piece);
  mret (chunks ++ [CM index cid (Z.of_nat (length piece))]).

(** The [for] loop; [Panic] stands for fuel that ran out, which
    [StoreFromReader_total] excludes. *)
Fixpoint store_loop {S} `{ChunkStore S} (fuel size : nat) (br : bufio)
    (index : Z) (chunks : list ChunkMeta) : M S (list ChunkMeta) :=
  match fuel with
  | O => λ s, (s, Panic)
  | Datatypes.S fuel' =>
      match ReadFull size br with
      | None => λ s, (s, Panic)
      | Some (data, Some e, _) =>
          if bool_decide (e = EEOF ∨ e = EUnexpectedEOF) then
            match data with
            | [] => mret chunks
            | _ => put_piece index chunks data
            end
          else fail (EWrap "StoreFromReader: read error" e)
      | Some (data, None, br') =>
          chunks' ← put_piece index chunks data;
          store_loop fuel' size br' (index + 1) chunks'
      end
  end.

Definition StoreFromReader {S} `{ChunkStore S} (r : reader) (chunkSize : Z) :
    M (option S) (list ChunkMeta) := λ st,
  match st with
  | None => (st, Err (EMsg "StoreFromReader: store is nil"))
  | Some _ =>
      if (chunkSize <=? 0)%Z then
        (st, Err (EMsg ("StoreFromReader: invalid chunkSize " +:+ pretty chunkSize)))
      else
        match make_bytes chunkSize with
        | Ok _ =>
            let br := bufio_NewReader r in
            on_store (store_loop (Datatypes.S (bufio_measure br)) (Z.to_nat chunkSize) br 0 []) st
        | Err e => (st, Err e)
        | Panic => (st, Panic)
        end
  end.

(** [open] is the outcome of [os.Open(path)]. *)
Definition StoreFile {S} `{ChunkStore S} (open : res reader) (chunkSize : Z) :
    M (option S) (list ChunkMeta) := λ st,
  let chunkSize := if (chunkSize <=? 0)%Z then DefaultChunkSize else chunkSize in
  match wrap_err "StoreFile: open" open with
  | Ok f => StoreFromReader f chunkSize st
  | Err e => (st, Err e)
  | Panic => (st, Panic)
  end.

(** ** The reference: fixed-size pieces, stored in order *)

Fixpoint pieces_upto (k n : nat) (l : bytes) : list bytes :=
  match k, l with
  | O, _ | _, [] => []
  | S k', _ => take n l :: pieces_upto k' n (drop n l)
  end.
Definition pieces (n : nat) (l : bytes) : list bytes := pieces_upto (length l) n l.

Fixpoint store_pieces {S} `{ChunkStore S} (ps : list bytes) (index : Z)
    (chunks : list ChunkMeta) : M S (list ChunkMeta) :=
  match ps with
  | [] => mret chunks
  | p :: ps' =>
      chunks' ← put_piece index chunks p; store_pieces ps' (index + 1) chunks'
  end.

(** What the metadata of the pieces should be. *)
Definition piece_metas (index : Z) (ps : list bytes) : list ChunkMeta :=
  imap (λ i p, CM (index + Z.of_nat i) (NewChunkID p) (Z.of_nat (length p))) ps.

(** ** Facts on [pieces] *)

Lemma pieces_upto_enough k n l :
  0 < n → length l ≤ k → pieces_upto k n l = pieces n l.
Proof.
  intros Hn. unfold pieces. remember (length l) as m eqn:Hm. revert k l Hm.
  induction m as [m IH] using lt_wf_ind. intros k l -> Hk.
  destruct l as [|x l]; [by destruct k|]. destruct k as [|k]; simpl in *; [lia|].
  destruct n as [|n]; [lia|]. simpl. f_equal.
  pose proof (length_drop l n).
  rewrite (IH (length (drop n l))), <-(IH (length (drop n l)) ltac:(lia) (length l)); lia || done.
Qed.

Lemma pieces_cons n l : 0 < n → l ≠ [] → pieces n l = take n l :: pieces n (drop n l).
Proof.
  intros Hn Hl. destruct l as [|x l]; [done|]. unfold pieces at 1. simpl.
  f_equal. apply pieces_upto_enough; [done|].
  rewrite length_drop. simpl. lia.
Qed.

(** Induction on the pieces of a list. *)
Lemma pieces_ind n (Hn : 0 < n) (P : bytes → Prop) :
  P [] → (∀ l, l ≠ [] → P (drop n l) → P l) → ∀ l, P l.
Proof.
  intros H0 HS l. remember (length l) as m eqn:Hm. revert l Hm.
  induction m as [m IH] using lt_wf_ind. intros l ->.
  destruct (decide (l = [])) as [->|Hl]; [done|]. apply HS; [done|].
  eapply IH; [|done]. rewrite length_drop. destruct l; simpl; [done|lia].
Qed.

Lemma pieces_join n l : 0 < n → mjoin (pieces n l) = l.
Proof.
  intros Hn. induction l as [|l Hl IH] using (pieces_ind n Hn); [done|].
  rewrite pieces_cons by done. simpl. by rewrite IH, take_drop.
Qed.

Lemma pieces_length n l p : 0 < n → p ∈ pieces n l → 0 < length p ≤ n.
Proof.
  intros Hn. induction l as [|l Hl IH] using (pieces_ind n Hn); [by intros ?%not_elem_of_nil|].
  rewrite pieces_cons, elem_of_cons by done. intros [->|?]; [|auto].
  rewrite length_take. destruct l; simpl; [done|lia].
Qed.

(** Every piece but the last is full. *)
Lemma pieces_total n l : 0 < n → length l ≤ n * length (pieces n l).
Proof.
  intros Hn. rewrite <-(pieces_join n l Hn) at 1.
  assert (Forall (λ p, length p ≤ n) (pieces n l)) as Hall.
  { apply Forall_forall. intros p [_ ?]%list_elem_of_In%pieces_length; done. }
  induction Hall as [|p ps Hp Hall IH]; [simpl; lia|]. simpl. rewrite length_app. simpl in IH. lia.
Qed.

Lemma pieces_full n l i p :
  0 < n → pieces n l !! i = Some p → S i < length (pieces n l) → length p = n.
Proof.
  intros Hn. revert i. induction l as [|l Hl IH] using (pieces_ind n Hn); intros i; [done|].
  rewrite pieces_cons by done. destruct i as [|i]; simpl.
  - intros [= <-] Hlt. rewrite length_take.
    destruct (decide (drop n l = [])) as [E|E]; [rewrite E in Hlt; simpl in Hlt; lia|].
    assert (length (drop n l) ≠ 0) as Hd by (by destruct (drop n l)).
    rewrite length_drop in Hd. lia.
  - intros Hi Hlt. apply (IH i); [done|lia].
Qed.

(** ** The loop stores the pieces of the stream *)

Section Chunker.
Context {S : Type} `{ChunkStore S}.

Lemma M_bind_ext {A B} (m : M S A) (f g : A → M S B) s :
  (∀ a s', f a s' = g a s') → (m ≫= f) s = (m ≫= g) s.
Proof.
  intros Hfg. unfold mbind, M_bind. destruct (m s) as [s' [a|e|]]; [apply Hfg|done|done].
Qed.

Lemma store_loop_pieces fuel size br index chunks s :
  0 < size → bufio_ok br → bufio_measure br < fuel →
  store_loop fuel size br index chunks s =
  store_pieces (pieces size (bufio_stream br)) index chunks s.
Proof.
  intros Hsize. revert br index chunks s.
  induction fuel as [|fuel IH]; intros br index chunks s Hok Hfuel; [lia|]. cbn [store_loop].
  destruct (ReadFull_stream size br Hsize Hok) as (br' & E & Hok' & Hs').
  destruct (ReadFull_total size br) as (d & e & b & E' & _ & Hlt).
  rewrite E in E'. injection E' as <- <- <-. rewrite E.
  destruct (size <=? length (bufio_stream br))%nat eqn:Hle; bool_to_Prop.
  - assert (bufio_stream br ≠ []) as Hne by (intros Hnil; rewrite Hnil in Hle; simpl in Hle; lia).
    rewrite pieces_cons by done. cbn [store_pieces]. apply M_bind_ext. intros chunks' s'.
    rewrite IH; [by rewrite Hs'|done|]. specialize (Hlt Hsize eq_refl). lia.
  - rewrite take_ge by lia. destruct (bufio_stream br) as [|x l] eqn:Hbs.
    + done.
    + rewrite pieces_cons by done. rewrite take_ge, drop_ge by lia.
      cbn [store_pieces]. unfold mbind, M_bind. simpl.
      by destruct (put_piece _ _ _ _) as [s' [a|e|]].
Qed.

(** The loop ends for every reader. *)
Lemma store_loop_no_panic `{!ChunkStoreSpec S} fuel size br index chunks s :
  0 < size → bufio_measure br < fuel →
  (store_loop fuel size br index chunks s).2 ≠ Panic.
Proof.
  intros Hsize. revert br index chunks s.
  induction fuel as [|fuel IH]; intros br index chunks s Hfuel; [lia|]. cbn [store_loop].
  assert (∀ i c p s, (put_piece i c p s).2 ≠ Panic) as Hput.
  { intros i c p s0. unfold put_piece, mbind, M_bind, wrap_errM.
    pose proof (put_no_panic s0 p) as Hnp. by destruct (PutChunk p s0) as [s1 [a|e|]]. }
  destruct (ReadFull_total size br) as (d & e & b & -> & _ & Hlt). destruct e as [e|].
  - case_bool_decide; [|done]. destruct d; [done|apply Hput].
  - specialize (Hlt Hsize eq_refl). unfold mbind, M_bind.
    pose proof (Hput index chunks d s) as Hnp.
    destruct (put_piece index chunks d s) as [s1 [a|e|]]; [apply IH; lia|done|done].
Qed.
End Chunker.

(** ** What ends up in the store *)

Section Stored.
Context {S : Type} `{ChunkStoreSpec S}.

(** No chunk is lost between [s] and [s']. *)
Definition keeps (s s' : S) : Prop := ∀ id, is_Some (view s id) → is_Some (view s' id).

Lemma put_piece_ok index chunks p s s' chunks' :
  store_ok s → put_piece index chunks p s = (s', Ok chunks') →
  store_ok s' ∧ chunks' = chunks ++ [CM index (NewChunkID p) (Z.of_nat (length p))] ∧
  keeps s s' ∧ is_Some (view s' (NewChunkID p)).
Proof.
  intros Hok Hput. unfold put_piece in Hput.
  apply M_bind_Ok in Hput as (s1 & id & Hid%wrap_errM_Ok & E).
  apply put_ok in Hid as (-> & Hok' & (d' & Hd' & _) & Hne); [|done].
  injection E as <- <-. split_and!; [done|done| |eauto].
  intros id' [d Hd]. destruct (decide (id' = NewChunkID p)) as [->|?]; [eauto|].
  rewrite Hne by done. eauto.
Qed.

Lemma put_piece_store_ok index chunks p s :
  store_ok s → store_ok (put_piece index chunks p s).1.
Proof.
  intros Hok. unfold put_piece, mbind, M_bind, wrap_errM.
  pose proof (put_no_panic s p).
  destruct (PutChunk p s) as [s1 [id|e|]] eqn:E; simpl; [| |done].
  - by apply put_ok in E as (_ & ? & _).
  - by apply put_err in E as [? _].
Qed.

Lemma store_pieces_ok ps index chunks s s' metas :
  store_ok s → store_pieces ps index chunks s = (s', Ok metas) →
  store_ok s' ∧ metas = chunks ++ piece_metas index ps ∧ keeps s s' ∧
  Forall (λ p, is_Some (view s' (NewChunkID p))) ps.
Proof.
  revert index chunks s. induction ps as [|p ps IH]; intros index chunks s Hok; simpl.
  - intros E. injection E as <- <-. rewrite app_nil_r. split_and!; [done|done| |constructor].
    by intros ?.
  - intros (s1 & chunks1 & Hput & Hrest)%M_bind_Ok.
    apply put_piece_ok in Hput as (Hok1 & -> & Hk1 & Hv1); [|done].
    apply IH in Hrest as (Hok' & -> & Hk' & Hall); [|done].
    split_and!; [done| |intros ??; auto|constructor; auto].
    rewrite <-app_assoc. unfold piece_metas. rewrite imap_cons. simpl.
    f_equal. f_equal; [by rewrite Z.add_0_r|]. apply imap_ext. intros. simpl. f_equal. lia.
Qed.

(** Storing pieces makes up no content. *)
Lemma store_pieces_source ps index chunks s s' metas id c :
  store_ok s → store_pieces ps index chunks s = (s', Ok metas) → view s' id = Some c →
  view s id = Some c ∨ c ∈ ps.
Proof.
  revert index chunks s. induction ps as [|p ps IH]; intros index chunks s Hok; simpl.
  { intros E. injection E as <- <-. by left. }
  intros (s1 & chunks1 & Hput & Hrest)%M_bind_Ok Hv.
  pose proof (put_piece_ok _ _ _ _ _ _ Hok Hput) as (Hok1 & _).
  apply (IH _ _ _ Hok1 Hrest) in Hv as [Hv|Hin]; [|right; by right].
  unfold put_piece in Hput. apply M_bind_Ok in Hput as (s2 & cid & Hid%wrap_errM_Ok & E).
  injection E as <- _. apply put_ok in Hid as (-> & _ & (d' & Hd' & Hor) & Hne); [|done].
  destruct (decide (id = NewChunkID p)) as [->|Hn]; [|left; by rewrite <-Hne].
  rewrite Hd' in Hv. injection Hv as <-. destruct Hor as [->|?]; [right; by left|by left].
Qed.

Lemma store_loop_store_ok fuel size br index chunks s :
  store_ok s → store_ok (store_loop fuel size br index chunks s).1.
Proof.
  revert br index chunks s. induction fuel as [|fuel IH]; intros br index chunks s Hok; [done|].
  cbn [store_loop]. destruct (ReadFull size br) as [[[d [e|]] br']|]; [| |done].
  - case_bool_decide; [|done]. destruct d; [done|by apply put_piece_store_ok].
  - unfold mbind, M_bind. pose proof (put_piece_store_ok index chunks d s Hok).
    destruct (put_piece index chunks d s) as [s1 [c|e|]]; auto.
Qed.

Lemma store_pieces_healthy ps index chunks s :
  store_ok s → healthy s →
  ∃ s' metas, store_pieces ps index chunks s = (s', Ok metas) ∧ healthy s'.
Proof.
  revert index chunks s. induction ps as [|p ps IH]; intros index chunks s Hok Hh.
  - eexists _, _. split; [done|done].
  - destruct (put_healthy s p Hok Hh) as (s1 & Hput & Hh1).
    destruct (IH (index + 1)%Z (chunks ++ [CM index (NewChunkID p) (Z.of_nat (length p))]) s1)
      as (s' & metas & Hrest & Hh'); [by apply put_ok in Hput as (_ & ? & _)|done|].
    exists s', metas. split; [|done]. cbn [store_pieces]. apply M_bind_Ok.
    eexists _, _. split; [|done]. unfold put_piece. apply M_bind_Ok.
    eexists _, _. split; [by apply wrap_errM_Ok|done].
Qed.
End Stored.

(** The metadata describe the stored pieces: each names a chunk whose content
    can be read back and has the hash and the length recorded. *)
Definition describes {S} `{ChunkStore S} (s : S) (cm : ChunkMeta) (piece : bytes) : Prop :=
  cm_ID cm = NewChunkID piece ∧ cm_Size cm = Z.of_nat (length piece) ∧
  ∃ content, GetChunk (cm_ID cm) s = Ok content ∧ NewChunkID content = NewChunkID piece.

Lemma describes_metas {S} `{ChunkStoreSpec S} s index ps :
  store_ok s → healthy s → Forall (λ p, is_Some (view s (NewChunkID p))) ps →
  Forall2 (describes s) (piece_metas index ps) ps.
Proof.
  intros Hok Hh Hall. unfold piece_metas. revert index.
  induction Hall as [|p ps [d Hd] _ IH]; intros index; [constructor|].
  rewrite imap_cons. constructor.
  - split_and!; [done|done|]. exists d. simpl. rewrite get_healthy, Hd by done.
    split; [done|]. by eapply view_addr.
  - erewrite imap_ext; [apply (IH (index + 1)%Z)|]. intros. simpl. f_equal. lia.
Qed.

(** ** Properties *)

(** C21: for every chunk store, healthy or not, and every reader that delivers
    a stream and then ends, [StoreFromReader] does exactly what storing the
    fixed-size pieces of the stream in order does, with the same errors: the
    way the reader groups bytes into reads does not matter. Only a chunk size
    that no buffer can have makes it panic, before anything is stored. *)
Theorem StoreFromReader_pieces {S} `{ChunkStore S} (s : S) r chunkSize :
  well_behaved r → (0 < chunkSize)%Z →
  StoreFromReader r chunkSize (Some s) =
  if (chunkSize <=? maxAlloc)%Z then
    on_store (store_pieces (pieces (Z.to_nat chunkSize) (stream r)) 0 []) (Some s)
  else (Some s, Panic).
Proof.
  intros Hwb Hcs. unfold StoreFromReader.
  destruct (chunkSize <=? 0)%Z eqn:E; bool_lia. rewrite make_bytes_spec by lia.
  destruct (chunkSize <=? maxAlloc)%Z; [|done]. unfold on_store.
  rewrite store_loop_pieces; [done|lia|by apply bufio_New_ok|lia].
Qed.

(** [StoreFromReader] ends for every reader, even one that returns errors or
    empty reads, on every store, and panics exactly when no buffer can have the
    chunk size; it reports a [nil] store and a chunk size that is not positive;
    and it keeps a correct store correct even when it fails half-way. *)
Theorem StoreFromReader_total {S} `{ChunkStoreSpec S} st r chunkSize :
  ((StoreFromReader r chunkSize st).2 = Panic ↔ is_Some st ∧ (maxAlloc < chunkSize)%Z) ∧
  (st = None ∨ (chunkSize ≤ 0)%Z → ∃ e, (StoreFromReader r chunkSize st).2 = Err e) ∧
  (∀ s s', st = Some s → store_ok s →
     (StoreFromReader r chunkSize st).1 = Some s' → store_ok s').
Proof.
  unfold StoreFromReader, on_store. destruct st as [s|].
  2:{ split_and!; [|by eexists|done]. split; [done|]. by intros [[? ?] _]. }
  destruct (chunkSize <=? 0)%Z eqn:E; bool_to_Prop.
  { split_and!; [|by eexists|intros; simplify_eq/=; done]. split; [done|]. unfold maxAlloc. intros [_ ?]. lia. }
  rewrite make_bytes_spec by lia. destruct (chunkSize <=? maxAlloc)%Z eqn:Em; bool_to_Prop.
  2:{ split_and!; [by split; [intros _; split; [eexists|]|]|intros [?|?]; [done|lia]|].
      intros s0 s' [= ->] ? [= <-]. done. }
  set (br := bufio_NewReader r).
  pose proof (store_loop_no_panic (Datatypes.S (bufio_measure br)) (Z.to_nat chunkSize)
    br 0 [] s ltac:(lia) ltac:(lia)) as Hnp.
  split_and!.
  - split; [|intros [_ ?]; lia]. by destruct (store_loop _ _ _ _ _ s).
  - intros [?|?]; [done|lia].
  - intros s0 s' [= ->] Hok.
    pose proof (store_loop_store_ok (Datatypes.S (bufio_measure br)) (Z.to_nat chunkSize)
      br 0 [] s0 Hok).
    destruct (store_loop _ _ _ _ _ s0). naive_solver.
Qed.

(** C24: storing a stream in a working store succeeds, for every chunk size that
    a buffer can have, and the metadata
    describe its pieces in order: reading the chunks back one after the
    other gives contents with the recorded hashes, and the pieces together
    are the stream. *)
Theorem StoreFromReader_roundtrip {S} `{ChunkStoreSpec S} (s : S) r chunkSize :
  well_behaved r → (0 < chunkSize ≤ maxAlloc)%Z → store_ok s → healthy s →
  ∃ s' metas,
    StoreFromReader r chunkSize (Some s) = (Some s', Ok metas) ∧
    metas = piece_metas 0 (pieces (Z.to_nat chunkSize) (stream r)) ∧
    Forall2 (describes s') metas (pieces (Z.to_nat chunkSize) (stream r)) ∧
    mjoin (pieces (Z.to_nat chunkSize) (stream r)) = stream r.
Proof.
  intros Hwb Hcs Hok Hh. set (ps := pieces (Z.to_nat chunkSize) (stream r)).
  destruct (store_pieces_healthy ps 0 [] s Hok Hh) as (s' & metas & Hps & Hh').
  pose proof Hps as Hps'. apply store_pieces_ok in Hps' as (Hok' & -> & _ & Hall); [|done].
  exists s', (piece_metas 0 ps). split_and!; [|done| |].
  - unfold StoreFromReader. destruct (chunkSize <=? 0)%Z eqn:E; bool_lia.
    rewrite make_bytes_ok by lia. unfold on_store. rewrite store_loop_pieces by (lia || by apply bufio_New_ok).
    change (bufio_stream (bufio_NewReader r)) with (stream r). fold ps. by rewrite Hps.
  - by apply describes_metas.
  - apply pieces_join. lia.
Qed.

(** ** Witnesses *)

(** A reader that returns nothing, then one byte, then three with [io.EOF]. *)
Definition sputtering_reader : reader :=
  [([], None); ([x61], None); ([x62; x63; x64], Some EEOF)].

Lemma StoreFromReader_pieces_witness :
  (StoreFromReader sputtering_reader 3 (Some bad_disk)).2
  = Err (EWrap "StoreFromReader: PutChunk"
      (EWrap "PutChunk: write temp file" (EMsg "no space left on device"))).
Proof.
  rewrite (StoreFromReader_pieces bad_disk sputtering_reader 3); [|by simpl; auto|lia].
  by vm_compute.
Defined.

Lemma StoreFromReader_total_witness :
  (StoreFromReader [([x61], Some (EMsg "read failed"))] (2 ^ 62) (Some empty_store)).2 = Panic ∧
  ∃ e, (StoreFromReader sputtering_reader 0 (Some empty_store)).2 = Err e.
Proof.
  split; [apply (StoreFromReader_total (Some empty_store)); split; [by eexists|done]|].
  apply (StoreFromReader_total (Some empty_store) sputtering_reader 0). right. lia.
Defined.

Lemma StoreFromReader_roundtrip_witness :
  ∃ s' metas, StoreFromReader sputtering_reader 3 (Some empty_store) = (Some s', Ok metas) ∧
    metas = [CM 0 (NewChunkID [x61; x62; x63]) 3; CM 1 (NewChunkID [x64]) 1].
Proof.
  destruct (StoreFromReader_roundtrip empty_store sputtering_reader 3)
    as (s' & metas & H1 & -> & _);
    [by simpl; auto|unfold maxAlloc; lia|apply empty_store_ok|apply empty_store_healthy|].
  exists s', (piece_metas 0 (pieces (Z.to_nat 3) (stream sputtering_reader))).
  split; [exact H1|reflexivity].
Defined.
