(* ===== verification/FileMeta.v ===== *)
(** * File metadata (src/internal/storage/filemeta.go)

    A file is described by its chunks and the Merkle root over their
    identifiers. *)

From S2P Require Import Prelude Hex Sha256 ChunkId Merkle FileSys Store Reader Chunker.
From stdpp Require Import options.

Record FileMeta := FM { fm_Root : ChunkID; fm_Chunks : list ChunkMeta; fm_Size : Z }.

(** [for _, cm := range chunks { totalSize += cm.Size }] *)
Definition total_size (chunks : list ChunkMeta) : Z :=
  fold_left (λ total cm, wrap64 (total + cm_Size cm)) chunks 0%Z.

(** The part of [BuildFileMetaFromReader] after the chunks are stored. *)
Definition meta_of_chunks (chunks : list ChunkMeta) : res FileMeta :=
  match chunks with
  | [] => Err (EMsg "BuildFileMetaFromReader: no data (empty file/reader)")
  | _ =>
      match wrap_err "BuildFileMetaFromReader: MerkleRootForChunks"
              (MerkleRootForChunks (cm_ID <$> chunks)) with
      | Ok root => Ok (FM root chunks (total_size chunks))
      | Err e => Err e
      | Panic => Panic
      end
  end.

Definition BuildFileMetaFromReader {S} `{ChunkStore S} (r : reader) (chunkSize : Z) :
    M (option S) FileMeta := λ st,
  match st with
  | None => (st, Err (EMsg "BuildFileMetaFromReader: store is nil"))
  | Some _ =>
      let chunkSize := if (chunkSize <=? 0)%Z then DefaultChunkSize else chunkSize in
      match wrap_errM "BuildFileMetaFromReader" (StoreFromReader r chunkSize) st with
      | (st', Ok chunks) => (st', meta_of_chunks chunks)
      | (st', Err e) => (st', Err e)
      | (st', Panic) => (st', Panic)
      end
  end.

(** [open] is the outcome of [os.Open(path)]. *)
Definition StoreFileWithMerkle {S} `{ChunkStore S} (open : res reader) (chunkSize : Z) :
    M (option S) FileMeta := λ st,
  let chunkSize := if (chunkSize <=? 0)%Z then DefaultChunkSize else chunkSize in
  match wrap_err "StoreFileWithMerkle: open" open with
  | Ok f => BuildFileMetaFromReader f chunkSize st
  | Err e => (st, Err e)
  | Panic => (st, Panic)
  end.

(** The chunk size in effect. *)
Definition effective_size (chunkSize : Z) : Z :=
  if (chunkSize <=? 0)%Z then DefaultChunkSize else chunkSize.

Lemma effective_size_pos chunkSize : (0 < effective_size chunkSize)%Z.
Proof. unfold effective_size. destruct (chunkSize <=? 0)%Z eqn:E; bool_lia. done. Qed.

Lemma effective_size_alloc chunkSize : (chunkSize ≤ maxAlloc)%Z → (effective_size chunkSize ≤ maxAlloc)%Z.
Proof. intros Hc. unfold effective_size. destruct (_ <=? _)%Z; [by vm_compute|done]. Qed.

Lemma effective_size_idem chunkSize : effective_size (effective_size chunkSize) = effective_size chunkSize.
Proof.
  pose proof (effective_size_pos chunkSize). unfold effective_size at 1.
  destruct (effective_size chunkSize <=? 0)%Z eqn:E; bool_lia.
Qed.

(** ** Sizes *)

Lemma total_size_from ps index acc :
  (0 ≤ acc)%Z → (acc + Z.of_nat (length (mjoin ps)) < 2 ^ 63)%Z →
  fold_left (λ total cm, wrap64 (total + cm_Size cm)) (piece_metas index ps) acc
  = (acc + Z.of_nat (length (mjoin ps)))%Z.
Proof.
  unfold piece_metas. revert index acc.
  induction ps as [|p ps IH]; intros index acc Hacc Hlt; [simpl; lia|].
  rewrite imap_cons. cbn [fold_left cm_Size].
  change (mjoin (p :: ps)) with (p ++ mjoin ps) in *. rewrite length_app, Nat2Z.inj_add in *.
  rewrite wrap64_id by (unfold is_int; lia).
  erewrite imap_ext; [rewrite (IH (index + 1)%Z); [|lia|]; lia|].
  intros. simpl. f_equal. lia.
Qed.

Lemma total_size_pieces index ps :
  (Z.of_nat (length (mjoin ps)) < 2 ^ 63)%Z →
  total_size (piece_metas index ps) = Z.of_nat (length (mjoin ps)).
Proof. intros. unfold total_size. rewrite total_size_from; lia. Qed.

Lemma piece_metas_ids index ps : cm_ID <$> piece_metas index ps = NewChunkID <$> ps.
Proof.
  unfold piece_metas. rewrite fmap_imap. revert index.
  induction ps as [|p ps IH]; intros index; [done|].
  rewrite imap_cons, fmap_cons. f_equal. erewrite imap_ext; [apply (IH (index + 1)%Z)|].
  done.
Qed.

Lemma meta_of_pieces n l :
  0 < n → l ≠ [] → (Z.of_nat (length l) < 2 ^ 63)%Z →
  ∃ root, merkle_loop (NewChunkID <$> pieces n l) = [root] ∧
    meta_of_chunks (piece_metas 0 (pieces n l))
    = Ok (FM root (piece_metas 0 (pieces n l)) (Z.of_nat (length l))).
Proof.
  intros Hn Hl Hlt. pose proof (pieces_join n l Hn) as Hj.
  assert (pieces n l ≠ []) as Hne by (by rewrite pieces_cons).
  destruct (merkle_loop_singleton (NewChunkID <$> pieces n l)) as [root Hroot].
  { by destruct (pieces n l). }
  exists root. split; [done|].
  pose proof (total_size_pieces 0 (pieces n l)) as Hts. rewrite Hj in Hts.
  apply MerkleRoot_loop in Hroot. rewrite <-piece_metas_ids with (index := 0%Z) in Hroot.
  unfold meta_of_chunks. rewrite Hroot, Hts by done. simpl.
  destruct (pieces n l) as [|p ps]; [done|]. unfold piece_metas. by rewrite imap_cons.
Qed.

Lemma meta_of_chunks_no_panic chunks : meta_of_chunks chunks ≠ Panic.
Proof.
  destruct chunks as [|c cs]; [done|]. unfold meta_of_chunks.
  destruct (merkle_loop_singleton (cm_ID <$> c :: cs)) as [root Hroot]; [done|].
  apply MerkleRoot_loop in Hroot. by rewrite Hroot.
Qed.

Lemma BuildFileMeta_stores {S} `{ChunkStoreSpec S} (s : S) r chunkSize :
  well_behaved r → stream r ≠ [] → (Z.of_nat (length (stream r)) < 2 ^ 63)%Z →
  (effective_size chunkSize ≤ maxAlloc)%Z → store_ok s → healthy s →
  let ps := pieces (Z.to_nat (effective_size chunkSize)) (stream r) in
  ∃ s' root, store_pieces ps 0 [] s = (s', Ok (piece_metas 0 ps)) ∧
    store_ok s' ∧ healthy s' ∧
    BuildFileMetaFromReader r chunkSize (Some s)
    = (Some s', Ok (FM root (piece_metas 0 ps) (Z.of_nat (length (stream r))))) ∧
    tree_root (NewChunkID <$> ps) root ∧
    Forall2 (describes s') (piece_metas 0 ps) ps ∧ mjoin ps = stream r.
Proof.
  intros Hwb Hne Hlt Hmake Hok Hh ps. pose proof (effective_size_pos chunkSize) as Hpos.
  destruct (store_pieces_healthy ps 0 [] s Hok Hh) as (s' & metas & Hps & Hh').
  pose proof Hps as Hps'. apply store_pieces_ok in Hps' as (Hok' & -> & _ & Hall); [|done].
  destruct (meta_of_pieces (Z.to_nat (effective_size chunkSize)) (stream r))
    as (root & Hroot & Hmeta); [lia|done|done|].
  exists s', root. split_and!; [exact Hps|done|done| | | |].
  - unfold BuildFileMetaFromReader, wrap_errM. fold (effective_size chunkSize).
    unfold StoreFromReader. destruct (effective_size chunkSize <=? 0)%Z eqn:E; bool_lia.
    rewrite make_bytes_ok by lia. unfold on_store. rewrite store_loop_pieces by (lia || by apply bufio_New_ok).
    change (bufio_stream (bufio_NewReader r)) with (stream r). fold ps. rewrite Hps.
    simpl. f_equal. exact Hmeta.
  - by apply merkle_loop_tree.
  - by apply describes_metas.
  - apply pieces_join. lia.
Qed.

(** ** Properties *)

(** C20: building the metadata of a non-empty file in a working store
    succeeds: the root is the root of the hash tree over the file's
    fixed-size pieces, the size is the file's length, and the chunks describe
    the pieces, which can all be read back. A chunk size that is not positive
    means the default one; one that no buffer can have is left out. *)
Theorem BuildFileMeta_correct {S} `{ChunkStoreSpec S} (s : S) r chunkSize :
  well_behaved r → stream r ≠ [] → (Z.of_nat (length (stream r)) < 2 ^ 63)%Z →
  (effective_size chunkSize ≤ maxAlloc)%Z → store_ok s → healthy s →
  let ps := pieces (Z.to_nat (effective_size chunkSize)) (stream r) in
  ∃ s' root,
    BuildFileMetaFromReader r chunkSize (Some s)
    = (Some s', Ok (FM root (piece_metas 0 ps) (Z.of_nat (length (stream r))))) ∧
    tree_root (NewChunkID <$> ps) root ∧
    Forall2 (describes s') (piece_metas 0 ps) ps ∧ mjoin ps = stream r.
Proof.
  intros Hwb Hne Hlt Hmake Hok Hh ps.
  destruct (BuildFileMeta_stores s r chunkSize Hwb Hne Hlt Hmake Hok Hh)
    as (s' & root & _ & _ & _ & ? & ? & ? & ?). by exists s', root.
Qed.

(** [BuildFileMetaFromReader] reports a [nil] store and an empty file, ends
    whatever the reader and the store do, and panics exactly when no buffer can
    have the chunk size. *)
Theorem BuildFileMeta_errors {S} `{ChunkStoreSpec S} st r chunkSize :
  ((BuildFileMetaFromReader r chunkSize st).2 = Panic ↔ is_Some st ∧ (maxAlloc < effective_size chunkSize)%Z) ∧
  (st = None → BuildFileMetaFromReader r chunkSize st
     = (None, Err (EMsg "BuildFileMetaFromReader: store is nil"))) ∧
  (∀ s, st = Some s → well_behaved r → stream r = [] → (effective_size chunkSize ≤ maxAlloc)%Z →
     BuildFileMetaFromReader r chunkSize st
     = (Some s, Err (EMsg "BuildFileMetaFromReader: no data (empty file/reader)"))).
Proof.
  pose proof (effective_size_pos chunkSize) as Hpos.
  pose proof (StoreFromReader_total st r (effective_size chunkSize)) as [Hp _].
  unfold BuildFileMetaFromReader, wrap_errM. fold (effective_size chunkSize).
  destruct st as [s|].
  2:{ split_and!; [split; [done|by intros [[? ?] _]]|done|done]. }
  split_and!.
  - rewrite <-Hp. destruct (StoreFromReader _ _ _) as [s1 [c|e|]]; [|done|done]. cbn.
    split; [|done]. by intros ?%meta_of_chunks_no_panic.
  - done.
  - intros s0 [= <-] Hwb Hnil Hmake. unfold StoreFromReader, on_store.
    destruct (effective_size chunkSize <=? 0)%Z eqn:E; bool_lia. rewrite make_bytes_ok by lia.
    rewrite store_loop_pieces by (lia || by apply bufio_New_ok).
    unfold bufio_stream, bufio_NewReader, stream in *. simpl. by rewrite Hnil.
Qed.

(** ** Witnesses *)

(** Storing src/sample.txt in an empty store gives the one-chunk file whose
    root names the chunk file of src/data/chunks. *)
Lemma BuildFileMeta_correct_witness :
  ∃ s' root,
    BuildFileMetaFromReader [(sample_content, None)] 262144 (Some empty_store)
      = (Some s', Ok (FM root [CM 0 root 26] 26)) ∧
    ChunkID_String root = "cfb306b59d446911c499e503ac34d2d2255768ba98b1bc23f2c195010ed41a0b".
Proof.
  destruct (BuildFileMeta_correct empty_store [(sample_content, None)] 262144)
    as (s' & root & H1 & Ht & _);
    [by left|done|by vm_compute|by vm_compute|apply empty_store_ok|apply empty_store_healthy|].
  assert (root = NewChunkID sample_content) as ->.
  { assert (merkle_loop [NewChunkID sample_content] = [NewChunkID sample_content]) as Hl
      by (apply merkle_loop_done; simpl; lia).
    apply merkle_loop_tree in Hl. eapply tree_root_functional; [|exact Hl].
    exact Ht. }
  exists s', (NewChunkID sample_content). split; [exact H1|by vm_compute].
Defined.

Lemma BuildFileMeta_errors_witness :
  BuildFileMetaFromReader [([], None)] 0 (Some empty_store)
  = (Some empty_store, Err (EMsg "BuildFileMetaFromReader: no data (empty file/reader)")).
Proof.
  apply (BuildFileMeta_errors (Some empty_store) [([], None)] 0); [done|by left|done|by vm_compute].
Defined.
