(* ===== verification/Erasure.v ===== *)
(** * Erasure coding of one block (src/internal/storage/erasure.go)

    The Reed-Solomon codec itself is the third-party package
    [github.com/klauspost/reedsolomon]: the class [ReedSolomon] has the
    three functions the code calls, and [RSCorrect d p] what the package
    documents about them for [d] data and [p] parity shards. The single
    parity code at the end of the file is a concrete codec that satisfies
    it for [p = 1]. *)

From S2P Require Import Prelude.
From stdpp Require Import options.

Record ECParams := EC { DataShards : Z; ParityShards : Z }.

#[export] Instance ECParams_eq_dec : EqDecision ECParams.
Proof. solve_decision. Defined.

Definition TotalShards (p : ECParams) : Z := wrap64 (DataShards p + ParityShards p).

Definition Validate (p : ECParams) : res unit :=
  if (DataShards p <=? 0)%Z then Err (EMsg "ECParams: DataShards must be > 0")
  else if (ParityShards p <=? 0)%Z then Err (EMsg "ECParams: ParityShards must be > 0")
  else if (255 <? TotalShards p)%Z then Err (EMsg "ECParams: total shards must be <= 255")
  else Ok tt.

(** ** The codec *)

(** A shard that is [nil] is [None]; [Encode] fills the parity shards in
    place, [Reconstruct] the missing ones; both return the new shards. *)
Class ReedSolomon := {
  Encoder : Type;
  rs_New : Z → Z → res Encoder;
  rs_Encode : Encoder → list bytes → res (list bytes);
  rs_Reconstruct : Encoder → list (option bytes) → res (list (option bytes));
}.

Definition all_length (n : nat) (l : list bytes) : Prop := Forall (λ b, length b = n) l.

(** [part] is [full] with some shards missing. *)
Definition erased (full : list bytes) (part : list (option bytes)) : Prop :=
  Forall2 (λ b o, o = None ∨ o = Some b) full part.

(** Shards that are neither [nil] nor empty. *)
Definition present (part : list (option bytes)) : nat :=
  length (filter (λ o, o ≠ None ∧ o ≠ Some []) part).

Class RSCorrect `{ReedSolomon} (d p : nat) : Prop := {
  rs_new_ok : ∃ enc, rs_New (Z.of_nat d) (Z.of_nat p) = Ok enc;
  rs_encode_ok enc shards n :
    rs_New (Z.of_nat d) (Z.of_nat p) = Ok enc →
    length shards = d + p → all_length n shards → 0 < n →
    ∃ out, rs_Encode enc shards = Ok out ∧ length out = d + p ∧ all_length n out ∧
      take d out = take d shards;
  rs_reconstruct_ok enc shards n out part :
    rs_New (Z.of_nat d) (Z.of_nat p) = Ok enc →
    length shards = d + p → all_length n shards → 0 < n →
    rs_Encode enc shards = Ok out → erased out part → d ≤ present part →
    rs_Reconstruct enc part = Ok (Some <$> out);
  rs_too_few enc part :
    rs_New (Z.of_nat d) (Z.of_nat p) = Ok enc →
    length part = d + p → present part < d →
    ∃ e, rs_Reconstruct enc part = Err e;
}.

(** ** [EncodeToShards] *)

Definition zeros (n : nat) : bytes := replicate n x00.

(** [shard := make([]byte, shardSize)] and [copy(shard, data[start:end])]. *)
Definition data_shard (data : bytes) (shardSize i : nat) : bytes :=
  let start := i * shardSize in
  let stop := min (start + shardSize) (length data) in
  if (start <? length data)%nat then
    let part := take (stop - start) (drop start data) in
    part ++ zeros (shardSize - length part)
  else zeros shardSize.

(** Division of non-negative numbers, as Go's [/]. *)
Definition shard_size (len d : Z) : Z := Z.quot (wrap64 (len + d - 1)) d.

Definition EncodeToShards `{ReedSolomon} (data : bytes) (params : ECParams) : res (list bytes) :=
  match Validate params with
  | Err e => Err e
  | Panic => Panic
  | Ok _ =>
      match wrap_err "EncodeToShards: create encoder" (rs_New (DataShards params) (ParityShards params)) with
      | Err e => Err e
      | Panic => Panic
      | Ok enc =>
          let totalShards := TotalShards params in
          if (totalShards <? 0)%Z then Panic (* make([][]byte, totalShards) *)
          else match data with
          | [] => Ok (replicate (Z.to_nat totalShards) [])
          | _ =>
              let shardSize := Z.to_nat (shard_size (Z.of_nat (length data)) (DataShards params)) in
              let d := Z.to_nat (DataShards params) in
              let shards := (data_shard data shardSize <$> seq 0 d)
                            ++ replicate (Z.to_nat totalShards - d) (zeros shardSize) in
              wrap_err "EncodeToShards: encode" (rs_Encode enc shards)
          end
      end
  end.

(** ** [ReconstructFromShards] *)

(** The loop that determines [shardSize]; [-1] while no shard was seen. *)
Fixpoint common_size (size : Z) (shards : list (option bytes)) : res Z :=
  match shards with
  | [] => Ok size
  | None :: rest => common_size size rest
  | Some s :: rest =>
      if (size =? -1)%Z then common_size (Z.of_nat (length s)) rest
      else if (Z.of_nat (length s) =? size)%Z then common_size size rest
      else Err (EMsg "ReconstructFromShards: inconsistent shard sizes")
  end.

(** [copy(dst[off:], src)] *)
Definition copy_at (off : nat) (src dst : bytes) : bytes :=
  take off dst ++ take (length dst - off) src ++ drop (off + length src) dst.

(** The loop that joins the first [n] shards; [i] counts from 0. *)
Fixpoint join_shards (n i offset shardSize : nat) (shards : list (option bytes))
    (data : bytes) : res bytes :=
  match n with
  | O => Ok data
  | S n' =>
      match shards with
      | Some s :: rest =>
          join_shards n' (S i) (offset + shardSize) shardSize rest (copy_at offset s data)
      | None :: _ =>
          Err (EMsg ("ReconstructFromShards: shard " +:+ pretty i +:+ " still nil after reconstruct"))
      | [] => Panic (* index out of range *)
      end
  end.

Definition ReconstructFromShards `{ReedSolomon} (shards : list (option bytes))
    (params : ECParams) (origSize : Z) : res bytes :=
  match Validate params with
  | Err e => Err e
  | Panic => Panic
  | Ok _ =>
      if negb (Z.of_nat (length shards) =? TotalShards params)%Z then
        Err (EMsg ("ReconstructFromShards: expected " +:+ pretty (TotalShards params)
                   +:+ " shards, got " +:+ pretty (length shards)))
      else if (origSize <? 0)%Z then
        Err (EMsg ("ReconstructFromShards: invalid origSize " +:+ pretty origSize))
      else if (origSize =? 0)%Z then Ok []
      else
        enc ← wrap_err "ReconstructFromShards: create encoder"
                (rs_New (DataShards params) (ParityShards params));
        shardSize ← common_size (-1) shards;
        if (shardSize =? -1)%Z then Err (EMsg "ReconstructFromShards: no shard data present")
        else
          full ← wrap_err "ReconstructFromShards: reconstruct" (rs_Reconstruct enc shards);
          let d := Z.to_nat (DataShards params) in
          let size := Z.to_nat shardSize in
          data ← join_shards d 0 0 size full (zeros (d * size));
          if (Z.of_nat (length data) <? origSize)%Z then
            Err (EMsg ("ReconstructFromShards: origSize " +:+ pretty origSize
                       +:+ " > reconstructed " +:+ pretty (length data)))
          else Ok (take (Z.to_nat origSize) data)
  end.

(** ** Parameters *)

Lemma Validate_ok p :
  Validate p = Ok tt ↔ (0 < DataShards p ∧ 0 < ParityShards p ∧ TotalShards p ≤ 255)%Z.
Proof.
  unfold Validate. repeat case_match; bool_to_Prop; (split; intros; [try done; lia|done || lia]).
Qed.

(** Parameters of a usable code: small enough for the sum not to wrap. *)
Definition params_of (d p : nat) : ECParams := EC (Z.of_nat d) (Z.of_nat p).

Lemma TotalShards_params d p : d + p ≤ 255 → TotalShards (params_of d p) = Z.of_nat (d + p).
Proof. intros. unfold TotalShards. simpl. rewrite wrap64_id; unfold is_int; lia. Qed.

Lemma Validate_params d p : 0 < d → 0 < p → d + p ≤ 255 → Validate (params_of d p) = Ok tt.
Proof. intros. apply Validate_ok. rewrite TotalShards_params by done. simpl. lia. Qed.

Lemma Validate_no_panic p : Validate p ≠ Panic.
Proof. unfold Validate. by repeat case_match. Qed.

Lemma EncodeToShards_no_panic `{ReedSolomon} data params :
  (∀ d p, rs_New d p ≠ Panic) → (∀ enc l, rs_Encode enc l ≠ Panic) →
  (0 ≤ TotalShards params)%Z → EncodeToShards data params ≠ Panic.
Proof.
  intros Hnew Hencode Htotal. unfold EncodeToShards. pose proof (Validate_no_panic params).
  destruct (Validate params); [|done|done].
  pose proof (Hnew (DataShards params) (ParityShards params)).
  destruct (rs_New (DataShards params) (ParityShards params)) as [enc|e|]; [|done|done].
  cbn [wrap_err]. destruct (TotalShards params <? 0)%Z eqn:Et; bool_lia.
  destruct data as [|x data]; [done|].
  match goal with |- context [rs_Encode enc ?l] =>
    pose proof (Hencode enc l); by destruct (rs_Encode enc l) end.
Qed.

(** ** Geometry of the data shards *)

Lemma length_zeros n : length (zeros n) = n.
Proof. apply length_replicate. Qed.

Lemma take_zeros k n : k ≤ n → take k (zeros n) = zeros k.
Proof. intros. unfold zeros. rewrite take_replicate. f_equal. lia. Qed.

Lemma drop_zeros k n : drop k (zeros n) = zeros (n - k).
Proof. apply drop_replicate. Qed.

(** [ceil(len / d)] *)
Definition ceil_div (len d : nat) : nat := (len + d - 1) / d.

Lemma ceil_div_bounds len d : 0 < d → len ≤ d * ceil_div len d < len + d.
Proof.
  intros Hd. unfold ceil_div.
  pose proof (Nat.div_mod_eq (len + d - 1) d).
  pose proof (Nat.mod_upper_bound (len + d - 1) d ltac:(lia)). lia.
Qed.

Lemma shard_size_ceil len d :
  0 < d → (Z.of_nat (len + d) ≤ 2 ^ 63)%Z →
  Z.to_nat (shard_size (Z.of_nat len) (Z.of_nat d)) = ceil_div len d.
Proof.
  intros Hd Hlt. unfold shard_size, ceil_div.
  rewrite wrap64_id by (unfold is_int; lia).
  rewrite Z.quot_div_nonneg by lia.
  replace (Z.of_nat len + Z.of_nat d - 1)%Z with (Z.of_nat (len + d - 1)) by lia.
  by rewrite <-Nat2Z.inj_div, Nat2Z.id.
Qed.

Lemma data_shard_slice data sz d i :
  i < d → length data ≤ d * sz →
  data_shard data sz i = take sz (drop (i * sz) (data ++ zeros (d * sz - length data))).
Proof.
  intros Hi Hlen. unfold data_shard. assert (i * sz + sz ≤ d * sz) by nia.
  destruct (i * sz <? length data)%nat eqn:E; bool_to_Prop.
  - rewrite drop_app_le by lia. rewrite length_take, length_drop.
    destruct (decide (i * sz + sz ≤ length data)).
    + rewrite take_app_le by (rewrite length_drop; lia).
      rewrite Nat.min_l, (Nat.add_comm _ sz), Nat.add_sub by lia.
      replace (sz - sz `min` (length data - i * sz)) with 0 by lia.
      by rewrite app_nil_r.
    + rewrite take_app_ge by (rewrite length_drop; lia).
      rewrite Nat.min_r by lia. rewrite take_ge by (rewrite length_drop; lia).
      rewrite length_drop, take_zeros by lia. do 2 f_equal. lia.
  - rewrite drop_app_ge by lia. rewrite drop_zeros, take_zeros by lia. done.
Qed.

Lemma join_slices k sz (l : bytes) :
  mjoin ((λ i, take sz (drop (i * sz) l)) <$> seq 0 k) = take (k * sz) l.
Proof.
  induction k as [|k IH]; [done|].
  rewrite seq_S, fmap_app, join_app, IH. simpl. rewrite app_nil_r.
  rewrite (Nat.add_comm sz), <-(take_drop (k * sz) (take (k * sz + sz) l)).
  rewrite take_take, Nat.min_l by lia. f_equal.
  by rewrite <-take_drop_commute.
Qed.

Lemma data_shards_join data sz d :
  length data ≤ d * sz →
  mjoin (data_shard data sz <$> seq 0 d) = data ++ zeros (d * sz - length data).
Proof.
  intros Hlen. set (padded := data ++ zeros (d * sz - length data)).
  transitivity (take (d * sz) padded).
  - rewrite <-join_slices. f_equal. apply list_fmap_ext. intros i x Hx.
    apply lookup_seq in Hx as [-> Hlt]. by apply data_shard_slice.
  - apply take_ge. unfold padded. rewrite length_app, length_zeros. lia.
Qed.

Lemma data_shards_length data sz d :
  length data ≤ d * sz → all_length sz (data_shard data sz <$> seq 0 d).
Proof.
  intros Hlen. unfold all_length. rewrite Forall_fmap, Forall_seq. intros i Hi. simpl.
  rewrite (data_shard_slice _ _ d) by lia.
  rewrite length_take, length_drop, length_app, length_zeros. nia.
Qed.

Lemma all_length_cons n b l : all_length n (b :: l) ↔ length b = n ∧ all_length n l.
Proof. unfold all_length. apply List.Forall_cons_iff. Qed.

(** ** The loops of [ReconstructFromShards] *)

Lemma common_size_no_panic size part : common_size size part ≠ Panic.
Proof. revert size. induction part as [|[b|] part IH]; intros size; [done| |apply IH]. simpl. by repeat case_match. Qed.

Lemma common_size_erased n out part size :
  all_length n out → erased out part →
  size = (-1)%Z ∨ size = Z.of_nat n →
  common_size size part = Ok (if decide (0 < length (filter (λ o, o ≠ None) part))
                              then Z.of_nat n else size).
Proof.
  intros Hall Her. revert size. induction Her as [|b o out part Ho Her IH]; intros size Hs; [done|].
  apply all_length_cons in Hall as [Hb Hall]. specialize (IH Hall).
  destruct Ho as [->| ->]; cbn [common_size].
  - rewrite IH by done. by rewrite filter_cons_False by naive_solver.
  - rewrite filter_cons_True by done. rewrite (decide_True (P:=_ < length (_ :: _))) by (simpl; lia).
    rewrite Hb. destruct Hs as [->| ->].
    + simpl. rewrite IH by auto. by case_decide.
    + destruct (Z.of_nat n =? -1)%Z eqn:E; bool_lia. rewrite Z.eqb_refl, IH by auto.
      by case_decide.
Qed.

Lemma join_shards_full k i n out pre :
  all_length n out → k ≤ length out →
  join_shards k i (length pre) n (Some <$> out) (pre ++ zeros (k * n))
  = Ok (pre ++ mjoin (take k out)).
Proof.
  revert i out pre. induction k as [|k IH]; intros i out pre Hall Hk; [done|].
  destruct out as [|b out]; simpl in Hk; [lia|].
  apply all_length_cons in Hall as [Hb Hall]. cbn [join_shards fmap list_fmap].
  assert (copy_at (length pre) b (pre ++ zeros (S k * n)) = (pre ++ b) ++ zeros (k * n)) as ->.
  { unfold copy_at. rewrite take_app_length, length_app, length_zeros.
    rewrite take_ge by (rewrite Hb; lia). rewrite drop_app_ge by lia.
    rewrite drop_zeros, <-app_assoc. do 3 f_equal. lia. }
  replace (length pre + n) with (length (pre ++ b)) by (rewrite length_app; lia).
  rewrite IH by (done || lia). simpl. by rewrite <-app_assoc.
Qed.

(** ** Encoding and reconstruction *)

(** Shards that are not [nil]. *)
Definition surviving (part : list (option bytes)) : nat := length (filter (λ o, o ≠ None) part).

Lemma present_surviving n out part :
  all_length n out → erased out part → 0 < n → present part = surviving part.
Proof.
  intros Hall Her Hn. unfold present, surviving.
  induction Her as [|b o out part Ho Her IH]; [done|].
  apply all_length_cons in Hall as [Hb Hall]. specialize (IH Hall).
  destruct Ho as [->| ->].
  - rewrite !filter_cons_False by naive_solver. done.
  - rewrite !filter_cons_True; [simpl; lia|done|].
    split; [done|]. intros [= ->]. simpl in Hb. lia.
Qed.

Section Code.
Context `{ReedSolomon} (d p : nat) `{!RSCorrect d p}.
Context (Hd : 0 < d) (Hp : 0 < p) (Hdp : d + p ≤ 255).
#[local] Set Default Proof Using "All".

(** What [EncodeToShards] hands to the codec. *)
Definition padded_shards (data : bytes) : list bytes :=
  let sz := ceil_div (length data) d in
  (data_shard data sz <$> seq 0 d) ++ replicate p (zeros sz).

Lemma padded_shards_shape data :
  length (padded_shards data) = d + p ∧
  all_length (ceil_div (length data) d) (padded_shards data).
Proof.
  unfold padded_shards. pose proof (ceil_div_bounds (length data) d Hd). split.
  - by rewrite length_app, length_fmap, length_seq, length_replicate.
  - apply Forall_app. split; [apply data_shards_length; lia|].
    apply Forall_replicate, length_zeros.
Qed.

Lemma ceil_div_pos (data : bytes) : data ≠ [] → 0 < ceil_div (length data) d.
Proof.
  intros. pose proof (ceil_div_bounds (length data) d Hd).
  assert (length data ≠ 0) by (by destruct data). nia.
Qed.

Lemma EncodeToShards_unfold data enc :
  (Z.of_nat (length data + d) ≤ 2 ^ 63)%Z →
  rs_New (Z.of_nat d) (Z.of_nat p) = Ok enc →
  EncodeToShards data (params_of d p) =
  match data with
  | [] => Ok (replicate (d + p) [])
  | _ => wrap_err "EncodeToShards: encode" (rs_Encode enc (padded_shards data))
  end.
Proof.
  intros Hlen Henc. unfold EncodeToShards. rewrite Validate_params by done.
  cbn [DataShards ParityShards params_of]. rewrite Henc. simpl wrap_err. cbn beta iota.
  rewrite TotalShards_params by done.
  destruct (Z.of_nat (d + p) <? 0)%Z eqn:E; bool_lia.
  rewrite shard_size_ceil, !Nat2Z.id by done.
  destruct data as [|x data]; [done|]. unfold padded_shards.
  by replace (d + p - d) with p by lia.
Qed.

Lemma EncodeToShards_ok data :
  (Z.of_nat (length data + d) ≤ 2 ^ 63)%Z →
  ∃ shards, EncodeToShards data (params_of d p) = Ok shards ∧
    length shards = d + p ∧ all_length (ceil_div (length data) d) shards ∧
    mjoin (take d shards) = data ++ zeros (d * ceil_div (length data) d - length data) ∧
    (data ≠ [] → ∃ enc, rs_New (Z.of_nat d) (Z.of_nat p) = Ok enc ∧
       rs_Encode enc (padded_shards data) = Ok shards).
Proof.
  intros Hlen. destruct (rs_new_ok (d := d) (p := p)) as [enc Henc].
  rewrite (EncodeToShards_unfold _ enc) by done.
  pose proof (ceil_div_bounds (length data) d Hd) as Hcd.
  destruct (decide (data = [])) as [->|Hne].
  - exists (replicate (d + p) []). assert (ceil_div 0 d = 0) as H0 by (simpl in *; nia).
    simpl length. rewrite H0. split_and!; [done|apply length_replicate| | |done].
    + by apply Forall_replicate.
    + rewrite Nat.mul_0_r. simpl. rewrite take_replicate. clear. generalize (d `min` (d + p)) as n.
      induction n; [done|]. simpl. done.
  - destruct (padded_shards_shape data) as [Hl Hall].
    destruct (rs_encode_ok enc (padded_shards data) (ceil_div (length data) d))
      as (out & Hout & Hlo & Hallo & Htake); [done..|by apply ceil_div_pos|].
    exists out. rewrite Hout. split_and!; [by destruct data|done|done| |eauto].
    rewrite Htake. unfold padded_shards.
    rewrite take_app_le, take_ge by (rewrite length_fmap, length_seq; lia).
    apply data_shards_join. lia.
Qed.

Lemma Reconstruct_unfold part enc origSize :
  length part = d + p → (0 < origSize)%Z →
  rs_New (Z.of_nat d) (Z.of_nat p) = Ok enc →
  ReconstructFromShards part (params_of d p) origSize =
    (shardSize ← common_size (-1) part;
     if (shardSize =? -1)%Z then Err (EMsg "ReconstructFromShards: no shard data present")
     else
       full ← wrap_err "ReconstructFromShards: reconstruct" (rs_Reconstruct enc part);
       data ← join_shards d 0 0 (Z.to_nat shardSize) full (zeros (d * Z.to_nat shardSize));
       if (Z.of_nat (length data) <? origSize)%Z then
         Err (EMsg ("ReconstructFromShards: origSize " +:+ pretty origSize
                    +:+ " > reconstructed " +:+ pretty (length data)))
       else Ok (take (Z.to_nat origSize) data)).
Proof.
  intros Hlen Ho Henc. unfold ReconstructFromShards. rewrite Validate_params by done.
  rewrite TotalShards_params, Hlen, Z.eqb_refl by done. simpl negb. cbn iota.
  destruct (origSize <? 0)%Z eqn:E1; bool_lia. destruct (origSize =? 0)%Z eqn:E2; bool_lia.
  cbn [DataShards ParityShards params_of]. rewrite Henc, Nat2Z.id. done.
Qed.

Lemma Reconstruct_encoded data shards part :
  (Z.of_nat (length data + d) ≤ 2 ^ 63)%Z →
  EncodeToShards data (params_of d p) = Ok shards →
  erased shards part → d ≤ surviving part →
  ReconstructFromShards part (params_of d p) (Z.of_nat (length data)) = Ok data.
Proof.
  intros Hlen Henc Her Hsur.
  destruct (EncodeToShards_ok data Hlen) as (out & Hout & Hlo & Hall & Hjoin & Hcodec).
  rewrite Henc in Hout. apply Ok_inv in Hout as <-.
  assert (length part = d + p) as Hlp by (rewrite <-Hlo; symmetry; by eapply Forall2_length).
  destruct (decide (data = [])) as [->|Hne].
  { unfold ReconstructFromShards. rewrite Validate_params by done.
    by rewrite TotalShards_params, Hlp, Z.eqb_refl by done. }
  destruct (Hcodec Hne) as (enc & Hnew & Hencode).
  assert (length data ≠ 0) by (by destruct data).
  pose proof (ceil_div_bounds (length data) d Hd) as Hcd.
  destruct (padded_shards_shape data) as [Hl Hallp].
  pose proof (ceil_div_pos data Hne) as Hpos.
  rewrite (Reconstruct_unfold _ enc) by (done || lia).
  rewrite (common_size_erased (ceil_div (length data) d) shards) by auto.
  rewrite decide_True by (unfold surviving in Hsur; lia). simpl.
  destruct (Z.of_nat (ceil_div (length data) d) =? -1)%Z eqn:E; bool_lia.
  erewrite rs_reconstruct_ok; [|done|done|done|done|done|done|].
  2:{ by rewrite (present_surviving (ceil_div (length data) d) shards). }
  simpl. rewrite !Nat2Z.id.
  pose proof (join_shards_full d 0 (ceil_div (length data) d) shards [] Hall) as Hjs.
  simpl in Hjs. rewrite Hjs, Hjoin by lia. simpl.
  rewrite length_app, length_zeros.
  destruct (Z.of_nat _ <? Z.of_nat _)%Z eqn:E'; bool_lia.
  by rewrite take_app_length.
Qed.

(** Too few shards are noticed. *)
Lemma Reconstruct_few part origSize :
  (0 < origSize)%Z → present part < d →
  ∃ e, ReconstructFromShards part (params_of d p) origSize = Err e.
Proof.
  intros Ho Hpr. destruct (decide (length part = d + p)) as [Hl|Hl].
  - destruct (rs_new_ok (d := d) (p := p)) as [enc Henc].
    rewrite (Reconstruct_unfold _ enc) by done.
    pose proof (common_size_no_panic (-1) part) as Hnp.
    destruct (common_size (-1) part) as [sz|e|]; [|by eexists|done]. simpl.
    destruct (sz =? -1)%Z; [by eexists|].
    destruct (rs_too_few (d := d) (p := p) enc part Henc Hl Hpr) as [e ->]. by eexists.
  - unfold ReconstructFromShards. rewrite Validate_params, TotalShards_params by done.
    destruct (Z.of_nat (length part) =? Z.of_nat (d + p))%Z eqn:E; bool_lia. by eexists.
Qed.
End Code.

(** ** A concrete codec: one parity shard, the xor of the data shards *)

Fixpoint xor_bytes (a b : bytes) : bytes :=
  match a, b with
  | [], _ => b
  | _, [] => a
  | x :: a', y :: b' => byte_xor x y :: xor_bytes a' b'
  end.

Definition xor_all (l : list bytes) : bytes := foldr xor_bytes [] l.

Definition keep_present (o : option bytes) : option bytes :=
  match o with Some (x :: b) => Some (x :: b) | _ => None end.

#[export] Instance XorCodec : ReedSolomon := {
  Encoder := nat;
  rs_New d p :=
    if (0 <? d)%Z && (p =? 1)%Z && (d + p <=? 256)%Z then Ok (Z.to_nat d)
    else Err (EMsg "invalid shard counts");
  rs_Encode d shards := Ok (take d shards ++ [xor_all (take d shards)]);
  rs_Reconstruct d part :=
    if (present part <? d)%nat then Err (EMsg "too few shards given")
    else
      let missing := xor_all (omap keep_present part) in
      Ok ((λ o, match keep_present o with Some b => Some b | None => Some missing end) <$> part);
}.

Lemma byte_xor_assoc a b c : byte_xor a (byte_xor b c) = byte_xor (byte_xor a b) c.
Proof. apply (inj byteN). rewrite !byteN_xor. by rewrite N.lxor_assoc. Qed.
Lemma byte_xor_comm a b : byte_xor a b = byte_xor b a.
Proof. apply (inj byteN). by rewrite !byteN_xor, N.lxor_comm. Qed.
Lemma byte_xor_self a : byte_xor a a = x00.
Proof. apply (inj byteN). by rewrite byteN_xor, N.lxor_nilpotent. Qed.
Lemma byte_xor_0_l a : byte_xor x00 a = a.
Proof. apply (inj byteN). by rewrite byteN_xor. Qed.

#[export] Instance xor_bytes_assoc : Assoc (=) xor_bytes.
Proof.
  intros a. induction a as [|x a IH]; intros [|y b] [|z c]; try done.
  simpl. by rewrite byte_xor_assoc, IH.
Qed.
#[export] Instance xor_bytes_comm : Comm (=) xor_bytes.
Proof.
  intros a. induction a as [|x a IH]; intros [|y b]; try done.
  simpl. by rewrite byte_xor_comm, IH.
Qed.

Lemma xor_bytes_nil a : xor_bytes a [] = a.
Proof. by destruct a. Qed.
Lemma xor_bytes_self a : xor_bytes a a = zeros (length a).
Proof. induction a as [|x a IH]; [done|]. simpl. by rewrite byte_xor_self, IH. Qed.
Lemma xor_bytes_zeros a n : n ≤ length a → xor_bytes (zeros n) a = a.
Proof.
  revert a. induction n as [|n IH]; intros [|x a]; simpl; intros; try lia; try done.
  change (zeros (S n)) with (x00 :: zeros n). simpl. rewrite byte_xor_0_l, IH by lia. done.
Qed.
Lemma length_xor_bytes a b : length (xor_bytes a b) = max (length a) (length b).
Proof. revert b. induction a as [|x a IH]; intros [|y b]; simpl; try lia. by rewrite IH. Qed.

Lemma xor_all_app l k : xor_all (l ++ k) = xor_bytes (xor_all l) (xor_all k).
Proof.
  induction l as [|b l IH]; [done|]. simpl. rewrite IH. apply (assoc xor_bytes).
Qed.

Lemma length_xor_all n l : all_length n l → l ≠ [] → length (xor_all l) = n.
Proof.
  intros Hall Hne. induction l as [|b l IH]; [done|]. apply all_length_cons in Hall as [Hb Hall].
  simpl. rewrite length_xor_bytes. destruct l as [|c l]; [simpl; lia|].
  rewrite IH by done. lia.
Qed.

(** The missing shard is the xor of the others. *)
Lemma xor_missing n data l1 b l2 :
  all_length n data → data ++ [xor_all data] = l1 ++ b :: l2 → l1 ++ l2 ≠ [] → data ≠ [] →
  xor_all (l1 ++ l2) = b.
Proof.
  intros Hall E Hne Hd.
  assert (all_length n (l1 ++ b :: l2)) as Hall'.
  { rewrite <-E. apply Forall_app. split; [done|]. apply Forall_singleton. by apply length_xor_all. }
  apply Forall_app in Hall' as [Hl1 Hl2]. apply all_length_cons in Hl2 as [Hb Hl2].
  assert (xor_bytes b (xor_all (l1 ++ l2)) = zeros n) as Hz.
  { transitivity (xor_all (l1 ++ b :: l2)).
    - rewrite !xor_all_app. simpl. rewrite !(assoc xor_bytes). f_equal. apply (comm xor_bytes).
    - rewrite <-E, xor_all_app. simpl. rewrite xor_bytes_nil, xor_bytes_self.
      f_equal. by apply length_xor_all. }
  assert (length (xor_all (l1 ++ l2)) = n) as Hlen.
  { apply length_xor_all; [|done]. by apply Forall_app. }
  rewrite <-(xor_bytes_zeros (xor_all (l1 ++ l2)) (length b)) by lia.
  rewrite <-xor_bytes_self, <-(assoc xor_bytes), Hz, (comm xor_bytes).
  apply xor_bytes_zeros. lia.
Qed.

Lemma surviving_cons o part :
  surviving (o :: part) = (if o then 1 else 0) + surviving part.
Proof.
  unfold surviving. destruct o; [by rewrite filter_cons_True|by rewrite filter_cons_False by naive_solver].
Qed.

Lemma surviving_le part : surviving part ≤ length part.
Proof. induction part as [|o part IH]; [done|]. rewrite surviving_cons. simpl. by case_match; lia. Qed.

Lemma erased_none_missing out part :
  erased out part → length out ≤ surviving part → part = Some <$> out.
Proof.
  induction 1 as [|b o out part Ho Her IH]; intros Hle; [done|].
  rewrite surviving_cons in Hle. pose proof (surviving_le part).
  assert (length out = length part) by (by eapply Forall2_length). simpl in Hle.
  destruct Ho as [->| ->]; simpl in Hle; [lia|]. rewrite IH by lia. done.
Qed.

Lemma erased_one_missing out part :
  erased out part → length out ≤ S (surviving part) →
  part = Some <$> out ∨
  ∃ l1 b l2, out = l1 ++ b :: l2 ∧ part = (Some <$> l1) ++ None :: (Some <$> l2).
Proof.
  induction 1 as [|b o out part Ho Her IH]; intros Hle; [by left|].
  rewrite surviving_cons in Hle. simpl in Hle. destruct Ho as [->| ->]; simpl in Hle.
  - right. exists [], b, out. by rewrite (erased_none_missing out part) by (done || lia).
  - destruct IH as [->|(l1 & b' & l2 & -> & ->)]; [lia|by left|].
    right. by exists (b :: l1), b', l2.
Qed.

Lemma keep_present_Some n l :
  all_length n l → 0 < n → omap (M:=list) keep_present (Some <$> l) = l.
Proof.
  intros Hall Hn. induction l as [|b l IH]; [done|]. apply all_length_cons in Hall as [Hb Hall].
  destruct b as [|x b]; [simpl in Hb; lia|]. simpl. f_equal. by apply IH.
Qed.

Lemma fill_present (m : bytes) n l :
  all_length n l → 0 < n →
  (λ o, match keep_present o with Some b => Some b | None => Some m end) <$> (Some <$> l)
  = Some <$> l.
Proof.
  intros Hall Hn. induction l as [|b l IH]; [done|]. apply all_length_cons in Hall as [Hb Hall].
  destruct b as [|x b]; [simpl in Hb; lia|]. rewrite !fmap_cons. f_equal. by apply IH.
Qed.

#[export] Instance XorCodec_correct d : 0 < d → d ≤ 255 → RSCorrect (H := XorCodec) d 1.
Proof.
  intros Hd Hd'. assert (rs_New (Z.of_nat d) (Z.of_nat 1) = Ok d) as Hnew.
  { unfold rs_New, XorCodec. rewrite Nat2Z.id.
    by rewrite (proj2 (Z.ltb_lt 0 _)), (proj2 (Z.leb_le _ 256)) by lia. }
  assert (∀ shards n, length shards = d + 1 → all_length n shards →
    all_length n (take d shards) ∧ length (take d shards) = d) as Htake.
  { intros shards n Hl Hall. split; [by apply Forall_take|]. rewrite length_take. lia. }
  split.
  - by exists d.
  - intros enc shards n Henc Hl Hall Hn. rewrite Hnew in Henc. injection Henc as <-.
    destruct (Htake shards n Hl Hall) as [Ha Hlt]. simpl. eexists. split; [done|].
    rewrite length_app, Hlt. split_and!; [simpl; lia| |rewrite take_app_le by lia; rewrite take_take; f_equal; lia].
    apply Forall_app. split; [done|]. apply Forall_singleton, length_xor_all; [done|].
    intros E. rewrite E in Hlt. simpl in Hlt. lia.
  - intros enc shards n out part Henc Hl Hall Hn Hout Her Hpr. rewrite Hnew in Henc.
    injection Henc as <-. simpl in Hout. apply Ok_inv in Hout as <-.
    destruct (Htake shards n Hl Hall) as [Ha Hlt]. set (data := take d shards) in *.
    assert (data ≠ []) as Hne by (intros E; rewrite E in Hlt; simpl in Hlt; lia).
    assert (all_length n (data ++ [xor_all data])) as Hall'.
    { apply Forall_app. split; [done|]. by apply Forall_singleton, length_xor_all. }
    unfold rs_Reconstruct, XorCodec. destruct (present part <? d)%nat eqn:E; bool_lia.
    f_equal. rewrite (present_surviving n _ _ Hall' Her Hn) in Hpr.
    destruct (erased_one_missing _ _ Her) as [->|(l1 & b & l2 & Hsplit & ->)].
    { rewrite length_app. simpl. lia. }
    + by eapply fill_present.
    + pose proof Hall' as Hall2. rewrite Hsplit in Hall2.
      apply Forall_app in Hall2 as [Hl1 Hl2]. apply all_length_cons in Hl2 as [Hb Hl2].
      assert (omap (M:=list) keep_present ((Some <$> l1) ++ None :: (Some <$> l2)) = l1 ++ l2)
        as Hom.
      { rewrite omap_app, (keep_present_Some n l1 Hl1 Hn). f_equal.
        apply (keep_present_Some n l2 Hl2 Hn). }
      rewrite Hom, Hsplit, !fmap_app, !fmap_cons, !(fill_present _ n) by done. simpl.
      do 3 f_equal.
      apply (xor_missing n data); [done|done| |done].
      intros E'. apply (f_equal length) in Hsplit. apply (f_equal length) in E'.
      rewrite !length_app in *. simpl in *. lia.
  - intros enc part Henc _ Hpr. rewrite Hnew in Henc. injection Henc as <-.
    simpl. destruct (present part <? d)%nat eqn:E; bool_lia. by eexists.
Qed.

(** ** Properties *)

(** C13: any [d] of the [d + p] shards of a block give the block back: after
    [EncodeToShards] and the loss of at most [p] shards,
    [ReconstructFromShards] returns exactly the original bytes, padding
    removed, for every block, the empty one included. *)
Theorem erasure_roundtrip `{ReedSolomon} d p `{!RSCorrect d p} data :
  0 < d → 0 < p → d + p ≤ 255 → (Z.of_nat (length data + d) ≤ 2 ^ 63)%Z →
  ∃ shards, EncodeToShards data (params_of d p) = Ok shards ∧
    ∀ part, erased shards part → d ≤ surviving part →
      ReconstructFromShards part (params_of d p) (Z.of_nat (length data)) = Ok data.
Proof.
  intros Hd Hp Hdp Hlen.
  destruct (EncodeToShards_ok d p Hd Hp Hdp data Hlen) as (shards & Henc & _).
  exists shards. split; [done|]. intros part Her Hsur. by eapply Reconstruct_encoded.
Qed.

(** [EncodeToShards] is systematic: it returns [d + p] shards, all of
    [ceil(len / d)] bytes, the first [d] of which are the block followed by
    fewer than [d] zero bytes. *)
Theorem EncodeToShards_systematic `{ReedSolomon} d p `{!RSCorrect d p} data :
  0 < d → 0 < p → d + p ≤ 255 → (Z.of_nat (length data + d) ≤ 2 ^ 63)%Z →
  ∃ shards k, EncodeToShards data (params_of d p) = Ok shards ∧
    length shards = d + p ∧ all_length ((length data + d - 1) / d) shards ∧
    mjoin (take d shards) = data ++ zeros k ∧ k < d.
Proof.
  intros Hd Hp Hdp Hlen.
  destruct (EncodeToShards_ok d p Hd Hp Hdp data Hlen) as (shards & Henc & ? & ? & ? & _).
  pose proof (ceil_div_bounds (length data) d Hd).
  eexists shards, _. split_and!; [done..|lia].
Qed.

(** C25: what [Validate] accepts, for all values of Go's [int]: two positive
    counts whose sum is at most 255, but also every pair of positive counts
    whose sum overflows [int], which the limit was meant to exclude. *)
Theorem Validate_exact prm :
  is_int (DataShards prm) → is_int (ParityShards prm) →
  is_ok (Validate prm) = true ↔
  (0 < DataShards prm ∧ 0 < ParityShards prm ∧
   (DataShards prm + ParityShards prm ≤ 255 ∨ 2 ^ 63 ≤ DataShards prm + ParityShards prm))%Z.
Proof.
  unfold is_int. intros Hd Hp.
  assert (0 < DataShards prm → 0 < ParityShards prm → TotalShards prm =
    if decide (DataShards prm + ParityShards prm < 2 ^ 63)
    then DataShards prm + ParityShards prm
    else DataShards prm + ParityShards prm - 2 ^ 64)%Z as HT.
  { intros. unfold TotalShards. case_decide; [apply wrap64_id; unfold is_int; lia|].
    unfold wrap64. set (n := (DataShards prm + ParityShards prm)%Z) in *.
    assert ((n + 2 ^ 63) `mod` 2 ^ 64 = n - 2 ^ 63)%Z as ->; [|lia].
    symmetry. apply (Z.mod_unique _ _ 1); lia. }
  assert (is_ok (Validate prm) = true ↔ Validate prm = Ok tt) as ->.
  { unfold Validate. by repeat case_match. }
  rewrite Validate_ok. split; intros (H1 & H2 & Hs); split_and!; try done;
    specialize (HT H1 H2); case_decide; lia.
Qed.

(** ** Witnesses *)

#[local] Instance xor_2_1 : RSCorrect (H := XorCodec) 2 1.
Proof. apply XorCodec_correct; lia. Qed.

Lemma erasure_roundtrip_witness :
  ∃ shards, EncodeToShards [x61; x62; x63] (EC 2 1) = Ok shards ∧
    shards = [[x61; x62]; [x63; x00]; [x02; x62]] ∧
    ReconstructFromShards [None; Some [x63; x00]; Some [x02; x62]] (EC 2 1) 3
      = Ok [x61; x62; x63].
Proof.
  destruct (erasure_roundtrip 2 1 [x61; x62; x63]) as (shards & Henc & Hrec); [simpl; lia..|].
  assert (shards = [[x61; x62]; [x63; x00]; [x02; x62]]) as ->.
  { apply Ok_inv. rewrite <-Henc. by vm_compute. }
  eexists. split; [exact Henc|]. split; [done|]. apply Hrec; [|by vm_compute; lia].
  apply List.Forall2_cons; [by left|]. repeat (apply List.Forall2_cons; [by right|]). constructor.
Defined.

Lemma EncodeToShards_systematic_witness :
  ∃ shards, EncodeToShards [x61; x62; x63] (EC 2 1) = Ok shards ∧ length shards = 3.
Proof.
  destruct (EncodeToShards_systematic 2 1 [x61; x62; x63]) as (shards & k & H1 & H2 & _);
    [simpl; lia..|]. by exists shards.
Defined.

(** 2^62 data and 2^62 parity shards pass validation. *)
Lemma Validate_exact_witness : is_ok (Validate (EC (2 ^ 62) (2 ^ 62))) = true.
Proof. apply Validate_exact; unfold is_int; simpl; lia. Defined.
