(* ===== verification/EcFile.v ===== *)
(** * Erasure-coded chunks and files
    (src/internal/storage/ec_chunk.go, src/internal/storage/ec_filemeta.go)

    A chunk is encoded into shards and each shard is put in the chunk store
    under its own hash; a file is the list of the layouts of its chunks. *)

From S2P Require Import Prelude Hex Sha256 ChunkId FileSys Store Reader Chunker Erasure.
From stdpp Require Import options.

Record ECChunkLayout := ECLayout { Params : ECParams; ShardIDs : list ChunkID; OrigSize : Z }.
Record ECChunkMeta := ECCM { ec_Index : Z; Layout : ECChunkLayout }.
Record ECFileMeta := ECFM {
  ec_Name : string;
  ec_Size : Z;
  ec_ChunkSize : Z;
  ec_Params : ECParams;
  ec_Chunks : list ECChunkMeta;
}.

(** ** One chunk *)

(** [for i, shard := range shards { ... shardIDs[i] = id }] *)
Fixpoint put_shards {S} `{ChunkStore S} (i : nat) (shards : list bytes) : M S (list ChunkID) :=
  match shards with
  | [] => mret []
  | shard :: rest =>
      id ← wrap_errM ("EncodeChunkWithEC: PutChunk shard " +:+ pretty i) (PutChunk shard);
      ids ← put_shards (i + 1) rest;
      mret (id :: ids)
  end.

Definition EncodeChunkWithEC {S} `{ChunkStore S} `{ReedSolomon} (data : bytes)
    (params : ECParams) : M (option S) ECChunkLayout := λ st,
  match st with
  | None => (st, Err (EMsg "EncodeChunkWithEC: store is nil"))
  | Some _ =>
      match wrap_err "EncodeChunkWithEC" (EncodeToShards data params) with
      | Err e => (st, Err e)
      | Panic => (st, Panic)
      | Ok shards =>
          (shardIDs ← on_store (put_shards 0 shards);
           mret (ECLayout params shardIDs (Z.of_nat (length data)))) st
      end
  end.

(** [store.GetChunk(id)], an error meaning a missing shard. *)
Fixpoint load_shards {S} `{ChunkStore S} (s : S) (ids : list ChunkID) : res (list (option bytes)) :=
  match ids with
  | [] => Ok []
  | id :: rest =>
      match GetChunk id s with
      | Ok data => l ← load_shards s rest; Ok (Some data :: l)
      | Err _ => l ← load_shards s rest; Ok (None :: l)
      | Panic => Panic
      end
  end.

Definition DecodeChunkWithEC {S} `{ChunkStore S} `{ReedSolomon} (st : option S)
    (layout : option ECChunkLayout) : res bytes :=
  match st with
  | None => Err (EMsg "DecodeChunkWithEC: store is nil")
  | Some s =>
      match layout with
      | None => Err (EMsg "DecodeChunkWithEC: layout is nil")
      | Some layout =>
          _ ← wrap_err "DecodeChunkWithEC: invalid params" (Validate (Params layout));
          if negb (Z.of_nat (length (ShardIDs layout)) =? TotalShards (Params layout))%Z then
            Err (EMsg ("DecodeChunkWithEC: expected " +:+ pretty (TotalShards (Params layout))
                       +:+ " shard IDs, got " +:+ pretty (length (ShardIDs layout))))
          else
            shards ← load_shards s (ShardIDs layout);
            ReconstructFromShards shards (Params layout) (OrigSize layout)
      end
  end.

(** ** Files *)

(** The [for] loop over [r.Read(buf)]; [Panic] on [O] is fuel that ran out,
    which [BuildECFileMeta_roundtrip] and [build_loop_no_fuel] exclude. *)
Fixpoint build_loop {S} `{ChunkStore S} `{ReedSolomon} (fuel chunkSize : nat) (params : ECParams)
    (r : reader) (index : Z) (meta : ECFileMeta) : M (option S) ECFileMeta :=
  match fuel with
  | O => λ st, (st, Panic)
  | Datatypes.S fuel' =>
      match Read chunkSize r with
      | (chunk, err, r') =>
          '(index, meta) ←
            (if (0 <? length chunk)%nat then
               layout ← wrap_errM ("BuildECFileMetaFromReader: chunk " +:+ pretty index)
                          (EncodeChunkWithEC chunk params);
               mret ((index + 1)%Z,
                     ECFM (ec_Name meta) (wrap64 (ec_Size meta + Z.of_nat (length chunk)))
                       (ec_ChunkSize meta) (ec_Params meta)
                       (ec_Chunks meta ++ [ECCM index layout]))
             else mret (index, meta));
          match err with
          | Some e =>
              if bool_decide (e = EEOF) then mret meta
              else fail (EWrap "BuildECFileMetaFromReader: read error" e)
          | None => build_loop fuel' chunkSize params r' index meta
          end
      end
  end.

Definition BuildECFileMetaFromReader {S} `{ChunkStore S} `{ReedSolomon} (name : string)
    (r : reader) (chunkSize : Z) (params : ECParams) : M (option S) ECFileMeta := λ st,
  match st with
  | None => (st, Err (EMsg "BuildECFileMetaFromReader: store is nil"))
  | Some _ =>
      if (chunkSize <=? 0)%Z then
        (st, Err (EMsg ("BuildECFileMetaFromReader: invalid chunkSize " +:+ pretty chunkSize)))
      else
        match wrap_err "BuildECFileMetaFromReader: invalid EC params" (Validate params) with
        | Err e => (st, Err e)
        | Panic => (st, Panic)
        | Ok _ =>
            match make_bytes chunkSize with
            | Ok _ =>
                build_loop (Datatypes.S (reader_size r)) (Z.to_nat chunkSize) params r 0
                  (ECFM name 0 chunkSize params []) st
            | Err e => (st, Err e)
            | Panic => (st, Panic)
            end
        end
  end.

Fixpoint write_chunks {S} `{ChunkStore S} `{ReedSolomon} (st : option S)
    (chunks : list ECChunkMeta) : M writer unit :=
  match chunks with
  | [] => mret tt
  | cm :: rest =>
      chunkData ← (λ w, (w, wrap_err ("ReconstructFileFromECMeta: chunk " +:+ pretty (ec_Index cm))
                               (DecodeChunkWithEC st (Some (Layout cm)))));
      _ ← wrap_errM ("ReconstructFileFromECMeta: write chunk " +:+ pretty (ec_Index cm))
            (Write chunkData);
      write_chunks st rest
  end.

Definition ReconstructFileFromECMeta {S} `{ChunkStore S} `{ReedSolomon} (st : option S)
    (meta : option ECFileMeta) : M writer unit := λ w,
  match st, meta with
  | None, _ => (w, Err (EMsg "ReconstructFileFromECMeta: store is nil"))
  | _, None => (w, Err (EMsg "ReconstructFileFromECMeta: meta is nil"))
  | Some _, Some meta =>
      match wrap_err "ReconstructFileFromECMeta: invalid EC params" (Validate (ec_Params meta)) with
      | Err e => (w, Err e)
      | Panic => (w, Panic)
      | Ok _ => write_chunks st (ec_Chunks meta) w
      end
  end.

(** ** Loading what was stored *)

(** The shard can be read from the store. *)
Definition readable {S} `{ChunkStore S} (s : S) (id : ChunkID) : Prop :=
  is_ok (GetChunk id s) = true.
#[export] Instance readable_dec {S} `{ChunkStore S} (s : S) id : Decision (readable s id).
Proof. unfold readable. apply _. Defined.

Definition available {S} `{ChunkStore S} (s : S) (ids : list ChunkID) : nat :=
  length (filter (readable s) ids).

Section EC.
Context {S : Type} `{ChunkStoreSpec S} `{ReedSolomon}.

(** The store holds no other content under the hash of one of the shards. *)
Definition no_clash (s : S) (shards : list bytes) : Prop :=
  ∀ b c, b ∈ shards → view s (NewChunkID b) = Some c → c = b.

Lemma put_shards_healthy i shards s :
  store_ok s → healthy s →
  ∃ s', put_shards i shards s = (s', Ok (NewChunkID <$> shards)) ∧
    store_ok s' ∧ healthy s' ∧ keeps s s' ∧
    Forall (λ b, is_Some (view s' (NewChunkID b))) shards.
Proof.
  revert i s. induction shards as [|b shards IH]; intros i s Hok Hh.
  { exists s. split_and!; [done|done|done|by intros ?|constructor]. }
  destruct (put_healthy s b Hok Hh) as (s1 & Hput & Hh1).
  pose proof (put_ok _ _ _ _ Hok Hput) as (_ & Hok1 & (d' & Hd' & _) & Hne).
  assert (keeps s s1) as Hk1.
  { intros id [c Hc]. destruct (decide (id = NewChunkID b)) as [->|?]; [eauto|].
    rewrite Hne by done. eauto. }
  destruct (IH (i + 1) s1 Hok1 Hh1) as (s' & Hrest & Hok' & Hh' & Hk' & Hall).
  exists s'. split_and!; [|done|done|intros ??; auto|constructor; [apply Hk'; eauto|done]].
  cbn [put_shards]. unfold mbind, M_bind, wrap_errM. by rewrite Hput, Hrest.
Qed.

Lemma load_shards_erased s shards :
  store_ok s → no_clash s shards →
  ∃ part, load_shards s (NewChunkID <$> shards) = Ok part ∧ erased shards part ∧
    surviving part = available s (NewChunkID <$> shards).
Proof.
  intros Hok. induction shards as [|b shards IH]; intros Hnc.
  { exists []. split_and!; [done|constructor|done]. }
  destruct IH as (part & Hl & Her & Hs); [intros b' c ?; apply Hnc; by right|].
  rewrite fmap_cons. cbn [load_shards]. rewrite Hl.
  pose proof (get_no_panic s (NewChunkID b)).
  unfold available, readable in *. rewrite filter_cons. case_decide as Hr.
  - destruct (GetChunk (NewChunkID b) s) as [c|e|] eqn:Hg; try done.
    exists (Some c :: part). split; [done|]. apply get_ok in Hg; [|done].
    assert (c = b) as -> by (apply Hnc; [by left|done]).
    split; [by apply List.Forall2_cons; [right|]|]. by rewrite surviving_cons, Hs.
  - destruct (GetChunk (NewChunkID b) s) as [c|e|] eqn:Hg; try done.
    exists (None :: part). split; [done|].
    split; [by apply List.Forall2_cons; [left|]|]. by rewrite surviving_cons, Hs.
Qed.

Lemma readable_view s ids :
  store_ok s → healthy s → Forall (λ id, is_Some (view s id)) ids → Forall (readable s) ids.
Proof.
  intros Hok Hh. apply Forall_impl. intros id [d Hd]. unfold readable.
  by rewrite get_healthy, Hd by done.
Qed.

Context (d p : nat) `{!RSCorrect d p} (Hd : 0 < d) (Hp : 0 < p) (Hdp : d + p ≤ 255).
#[local] Set Default Proof Using "All".

Lemma EncodeChunk_healthy data s :
  (Z.of_nat (length data + d) ≤ 2 ^ 63)%Z → store_ok s → healthy s →
  ∃ s' shards, EncodeToShards data (params_of d p) = Ok shards ∧
    EncodeChunkWithEC data (params_of d p) (Some s)
    = (Some s', Ok (ECLayout (params_of d p) (NewChunkID <$> shards) (Z.of_nat (length data)))) ∧
    store_ok s' ∧ healthy s' ∧ keeps s s' ∧
    Forall (λ b, is_Some (view s' (NewChunkID b))) shards.
Proof.
  intros Hlen Hok Hh.
  destruct (EncodeToShards_ok d p Hd Hp Hdp data Hlen) as (shards & Henc & _).
  destruct (put_shards_healthy 0 shards s Hok Hh) as (s' & Hput & ?).
  exists s', shards. split; [done|]. split; [|done].
  unfold EncodeChunkWithEC. rewrite Henc. simpl. unfold mbind, M_bind, on_store. by rewrite Hput.
Qed.

Lemma DecodeChunk_ok data shards s :
  (Z.of_nat (length data + d) ≤ 2 ^ 63)%Z → EncodeToShards data (params_of d p) = Ok shards →
  store_ok s → no_clash s shards → d ≤ available s (NewChunkID <$> shards) →
  DecodeChunkWithEC (Some s)
    (Some (ECLayout (params_of d p) (NewChunkID <$> shards) (Z.of_nat (length data)))) = Ok data.
Proof.
  intros Hlen Henc Hok Hnc Hav.
  destruct (load_shards_erased s shards Hok Hnc) as (part & Hl & Her & Hs).
  destruct (EncodeToShards_ok d p Hd Hp Hdp data Hlen) as (out & Hout & Hlo & _).
  rewrite Henc in Hout. apply Ok_inv in Hout as <-.
  unfold DecodeChunkWithEC. cbn [Params ShardIDs OrigSize].
  rewrite Validate_params, TotalShards_params, length_fmap, Hlo, Z.eqb_refl by done. simpl.
  rewrite Hl. simpl. eapply (Reconstruct_encoded d p); try done. by rewrite Hs.
Qed.

(** ** Files *)

(** [cm] is the layout of the encoded [block]. *)
Definition lays_out (cm : ECChunkMeta) (block : bytes) : Prop :=
  ∃ shards, EncodeToShards block (params_of d p) = Ok shards ∧
    Layout cm = ECLayout (params_of d p) (NewChunkID <$> shards) (Z.of_nat (length block)).

(** [s] can serve [block]: enough shards, none of them with other content. *)
Definition serves (s : S) (cm : ECChunkMeta) (block : bytes) : Prop :=
  d ≤ available s (ShardIDs (Layout cm)) ∧
  ∀ shards, EncodeToShards block (params_of d p) = Ok shards → no_clash s shards.

(** Blocks of at most [n] bytes, none of them empty. *)
Definition blocks_of (n : nat) (data : bytes) (blocks : list bytes) : Prop :=
  mjoin blocks = data ∧ Forall (λ b, 0 < length b ≤ n) blocks.

(** [meta] with the chunks [metas] of [size] more bytes. *)
Definition extend_meta (meta : ECFileMeta) (size : Z) (metas : list ECChunkMeta) : ECFileMeta :=
  ECFM (ec_Name meta) (ec_Size meta + size) (ec_ChunkSize meta) (ec_Params meta)
    (ec_Chunks meta ++ metas).

(** The outcome of reading and storing the rest of a file, [data]: its blocks
    laid out from [index] on, with all their shards in the store. *)
Definition built (n : nat) (data : bytes) (index : Z) (meta : ECFileMeta) (s : S)
    (out : option S * res ECFileMeta) : Prop :=
  ∃ s' metas blocks,
    out = (Some s', Ok (extend_meta meta (Z.of_nat (length data)) metas)) ∧
    store_ok s' ∧ healthy s' ∧ keeps s s' ∧ blocks_of n data blocks ∧
    Forall2 lays_out metas blocks ∧
    ec_Index <$> metas = (λ i, index + Z.of_nat i)%Z <$> seq 0 (length metas) ∧
    Forall (λ cm, Forall (λ id, is_Some (view s' id)) (ShardIDs (Layout cm))) metas.

Lemma built_nil n index meta s :
  store_ok s → healthy s → built n [] index meta s (Some s, Ok meta).
Proof.
  intros Hok Hh. exists s, [], [].
  split_and!; [|done|done|by intros ?|by split|constructor|done|constructor].
  unfold extend_meta. rewrite app_nil_r, Z.add_0_r. by destruct meta.
Qed.

(** One more block in front. *)
Lemma built_cons n b data index meta s s1 shards out :
  0 < length b ≤ n → EncodeToShards b (params_of d p) = Ok shards → keeps s s1 →
  Forall (λ b, is_Some (view s1 (NewChunkID b))) shards →
  built n data (index + 1)
    (extend_meta meta (Z.of_nat (length b))
      [ECCM index (ECLayout (params_of d p) (NewChunkID <$> shards) (Z.of_nat (length b)))]) s1 out →
  built n (b ++ data) index meta s out.
Proof.
  intros Hb Henc Hk1 Hall1
    (s' & metas & blocks & -> & Hok' & Hh' & Hk' & (Hjoin & Hlens) & Hlay & Hidx & Hall').
  set (cm := ECCM index (ECLayout (params_of d p) (NewChunkID <$> shards) (Z.of_nat (length b)))) in *.
  exists s', (cm :: metas), (b :: blocks).
  split_and!; [|done|done|intros ??; auto|split; [by rewrite <-Hjoin|by constructor]
              |apply List.Forall2_cons; [by exists shards|done]| |].
  - unfold extend_meta. simpl. do 3 f_equal; [|by rewrite <-app_assoc].
    rewrite length_app. lia.
  - rewrite fmap_cons. simpl. f_equal; [lia|]. rewrite Hidx.
    rewrite <-fmap_S_seq, <-list_fmap_compose. apply list_fmap_ext. intros. simpl. lia.
  - constructor; [|done]. simpl. rewrite Forall_fmap. eapply Forall_impl; [|exact Hall1].
    simpl. intros. by apply Hk'.
Qed.

Lemma build_loop_healthy fuel n r index meta s :
  0 < n → (Z.of_nat (n + d) ≤ 2 ^ 63)%Z → well_behaved r → reader_size r < fuel →
  (0 ≤ ec_Size meta)%Z → (ec_Size meta + Z.of_nat (length (stream r)) < 2 ^ 63)%Z →
  store_ok s → healthy s →
  built n (stream r) index meta s (build_loop fuel n (params_of d p) r index meta (Some s)).
Proof.
  intros Hn Hnd. revert r index meta s.
  induction fuel as [|fuel IH]; intros r index meta s Hwb Hfuel Hsz Hlt Hok Hh; [lia|].
  cbn [build_loop]. destruct (Read n r) as [[b err] r'] eqn:Hr.
  pose proof (Read_size _ _ _ _ _ Hn Hr) as Hsize.
  apply Read_stream in Hr as (Hst & Hb & Herr); [|done]. rewrite Hst, length_app in *.
  assert (∀ index meta s, store_ok s → healthy s → (0 ≤ ec_Size meta)%Z →
    (ec_Size meta + Z.of_nat (length (stream r')) < 2 ^ 63)%Z →
    built n (stream r') index meta s
      (match err with
       | Some e => if bool_decide (e = EEOF) then mret meta
                   else fail (EWrap "BuildECFileMetaFromReader: read error" e)
       | None => build_loop fuel n (params_of d p) r' index meta
       end (Some s))) as Hrest.
  { clear index meta s Hsz Hlt Hok Hh. intros index meta s Hok Hh Hsz Hlt.
    destruct Herr as [[-> Hwb']|[-> ->]]; [|by apply built_nil].
    apply IH; try done. destruct Hsize as [(? & _)|(_ & ? & _)]; [lia|done]. }
  unfold mbind at 1, M_bind at 1. destruct (0 <? length b)%nat eqn:Eb; bool_to_Prop.
  - destruct (EncodeChunk_healthy b s) as (s1 & shards & Henc & Hput & Hok1 & Hh1 & Hk1 & Hall1);
      [lia|done|done|].
    unfold mbind at 1, M_bind at 1, wrap_errM at 1. rewrite Hput. cbn [wrap_err mret M_ret].
    eapply built_cons; [lia|done|done|done|].
    rewrite wrap64_id by (unfold is_int; lia). apply Hrest; simpl; [done|done|lia|lia].
  - assert (b = []) as -> by (destruct b; simpl in *; [done|lia]).
    cbn [mret M_ret]. apply Hrest; simpl in *; (done || lia).
Qed.

Lemma write_chunks_serves n s metas blocks w :
  (Z.of_nat (n + d) ≤ 2 ^ 63)%Z → store_ok s → faults w = [] →
  Forall2 lays_out metas blocks → Forall2 (serves s) metas blocks →
  Forall (λ b, 0 < length b ≤ n) blocks →
  write_chunks (Some s) metas w = (Writer (written w ++ mjoin blocks) [], Ok tt).
Proof.
  intros Hnd Hok Hw Hlay. revert w Hw.
  induction Hlay as [|cm b metas blocks (shards & Henc & Hcm) Hlay IH]; intros w Hw Hserves Hlens.
  { destruct w as [o fs]; simpl in *; subst. by rewrite app_nil_r. }
  apply Forall2_cons_iff in Hserves as [[Hav Hnc] Hserves].
  apply List.Forall_cons_iff in Hlens as [Hlen Hlens].
  cbn [write_chunks]. unfold mbind at 1, M_bind at 1. rewrite Hcm in Hav |- *.
  rewrite (DecodeChunk_ok b shards) by (done || lia || by apply Hnc). cbn [wrap_err].
  unfold mbind at 1, M_bind at 1, wrap_errM, Write. rewrite Hw. cbn [wrap_err].
  rewrite IH by done. simpl. by rewrite <-app_assoc.
Qed.
End EC.

Lemma EncodeChunk_unfold {S} `{ChunkStore S} `{ReedSolomon} b params (s : S) :
  EncodeChunkWithEC b params (Some s) =
  match wrap_err "EncodeChunkWithEC" (EncodeToShards b params) with
  | Ok shards => match put_shards 0 shards s with
                 | (s', Ok ids) => (Some s', Ok (ECLayout params ids (Z.of_nat (length b))))
                 | (s', Err e) => (Some s', Err e)
                 | (s', Panic) => (Some s', Panic)
                 end
  | Err e => (Some s, Err e)
  | Panic => (Some s, Panic)
  end.
Proof.
  unfold EncodeChunkWithEC. destruct (EncodeToShards b params); [|done|done].
  cbn [wrap_err]. unfold mbind, M_bind, on_store. by destruct (put_shards _ _ s) as [? []].
Qed.

(** The loop makes progress: fuel above the size of the reader is enough. *)
Lemma build_loop_no_panic {S} `{ChunkStoreSpec S} `{ReedSolomon} fuel n params r index meta s :
  0 < n → reader_size r < fuel →
  (∀ b s, (EncodeChunkWithEC b params (Some s)).2 ≠ Panic) →
  (∀ b s, is_Some (EncodeChunkWithEC b params (Some s)).1) →
  (build_loop fuel n params r index meta (Some s)).2 ≠ Panic.
Proof.
  intros Hn Hfuel Henc Hst. revert r index meta s Hfuel.
  induction fuel as [|fuel IH]; intros r index meta s Hfuel; [lia|]. cbn [build_loop].
  destruct (Read n r) as [[b err] r'] eqn:Hr. apply Read_size in Hr as Hsize; [|done].
  assert (∀ index meta s, (match err with
       | Some e => if bool_decide (e = EEOF) then mret meta
                   else fail (EWrap "BuildECFileMetaFromReader: read error" e)
       | None => build_loop fuel n params r' index meta
       end (Some s)).2 ≠ Panic) as Hrest.
  { intros. destruct err as [e|]; [by case_bool_decide|]. apply IH.
    destruct Hsize as [(? & _)|(_ & ? & _)]; [lia|done]. }
  unfold mbind at 1, M_bind at 1. destruct (0 <? length b)%nat; [|apply Hrest].
  unfold mbind at 1, M_bind at 1, wrap_errM.
  specialize (Henc b s). specialize (Hst b s).
  destruct (EncodeChunkWithEC b params (Some s)) as [st1 [l|e|]]; [|done|done].
  destruct Hst as [s1 Hst]. simpl in Hst. subst. apply Hrest.
Qed.

Lemma put_shards_no_panic {S} `{ChunkStoreSpec S} i shards s :
  (put_shards i shards s).2 ≠ Panic.
Proof.
  revert i s. induction shards as [|b shards IH]; intros i s; [done|]. cbn [put_shards].
  unfold mbind at 1, M_bind at 1, wrap_errM. pose proof (put_no_panic s b).
  destruct (PutChunk b s) as [s1 [id|e|]]; [|done|done]. cbn [wrap_err].
  unfold mbind, M_bind. specialize (IH (i + 1) s1).
  by destruct (put_shards (i + 1) shards s1) as [s2 [ids|e|]].
Qed.

(** [no_clash], decided. *)
Definition no_clashb {S} `{ChunkStoreSpec S} (s : S) (shards : list bytes) : bool :=
  forallb (λ b, match view s (NewChunkID b) with Some c => bool_decide (c = b) | None => true end)
    shards.

Lemma no_clashb_spec {S} `{ChunkStoreSpec S} (s : S) shards :
  no_clashb s shards = true → no_clash s shards.
Proof.
  intros Hall b c Hb Hc. unfold no_clashb in Hall. rewrite forallb_forall in Hall.
  specialize (Hall b ltac:(by apply list_elem_of_In)). rewrite Hc in Hall.
  by apply bool_decide_eq_true in Hall.
Qed.

(** ** Lost shards *)

Lemma zeros_shards n (l : list bytes) m :
  all_length n l → mjoin l = zeros m → l = replicate (length l) (zeros n).
Proof.
  revert m. induction l as [|b l IH]; intros m Hall Hj; [done|].
  apply all_length_cons in Hall as [Hb Hall]. change (b ++ mjoin l = zeros m) in Hj.
  assert (b = zeros n) as ->.
  { apply (f_equal (take (length b))) in Hj. rewrite take_app_length in Hj.
    rewrite Hj. unfold zeros. rewrite take_replicate. f_equal.
    apply (f_equal length) in Hj. rewrite length_take, length_zeros in Hj. lia. }
  simpl. f_equal. apply (IH (m - n)); [done|].
  apply (f_equal (drop n)) in Hj. rewrite drop_app_ge, length_zeros, Nat.sub_diag, drop_zeros in Hj
    by (rewrite length_zeros; lia). done.
Qed.

Lemma load_shards_ok {S} `{ChunkStoreSpec S} (s : S) ids : ∃ part, load_shards s ids = Ok part.
Proof.
  induction ids as [|id ids [part IH]]; [by eexists|]. cbn [load_shards]. rewrite IH.
  pose proof (get_no_panic s id). destruct (GetChunk id s); [by eexists..|done].
Qed.

Lemma load_shards_lost {S} `{ChunkStoreSpec S} (s : S) id k ids part :
  store_ok s → view s id = None → load_shards s (replicate k id ++ ids) = Ok part →
  present part ≤ length ids.
Proof.
  intros Hok Hv. revert part. induction k as [|k IH]; intros part; simpl.
  - assert (∀ part, load_shards s ids = Ok part → length part = length ids) as Hlen.
    { induction ids as [|i ids IHids]; intros pt; simpl; [by intros [= <-]|].
      destruct (GetChunk i s); [| |done]; intros (l & Hl & [= <-])%res_bind_Ok;
        simpl; by rewrite (IHids l). }
    intros Hl. rewrite <-(Hlen _ Hl). apply length_filter.
  - destruct (GetChunk id s) as [c|e|] eqn:Hg; [|intros (l & Hl & [= <-])%res_bind_Ok|done].
    + apply get_ok in Hg; [|done]. congruence.
    + unfold present. rewrite filter_cons_False by naive_solver. by apply IH.
Qed.

(** ** Properties *)

(** A chunk stored with [EncodeChunkWithEC] in a working store can be
    decoded from every later state of the store in which any [d] of its
    shards can still be read, whatever happened to the others, provided the
    store holds no other content under the hash of a shard. *)
Theorem ec_chunk_roundtrip {S} `{ChunkStoreSpec S} `{ReedSolomon} d p `{!RSCorrect d p} data (s : S) :
  0 < d → 0 < p → d + p ≤ 255 → (Z.of_nat (length data + d) ≤ 2 ^ 63)%Z →
  store_ok s → healthy s →
  ∃ s' shards ids, EncodeToShards data (params_of d p) = Ok shards ∧ ids = NewChunkID <$> shards ∧
    EncodeChunkWithEC data (params_of d p) (Some s)
    = (Some s', Ok (ECLayout (params_of d p) ids (Z.of_nat (length data)))) ∧
    Forall (readable s') ids ∧
    ∀ s'', store_ok s'' → no_clash s'' shards → d ≤ available s'' ids →
      DecodeChunkWithEC (Some s'')
        (Some (ECLayout (params_of d p) ids (Z.of_nat (length data)))) = Ok data.
Proof.
  intros Hd Hp Hdp Hlen Hok Hh.
  destruct (EncodeChunk_healthy d p Hd Hp Hdp data s Hlen Hok Hh)
    as (s' & shards & Henc & Hput & Hok' & Hh' & _ & Hall).
  exists s', shards, (NewChunkID <$> shards). split_and!; [done|done|done| |].
  - apply readable_view; [done|done|]. by rewrite Forall_fmap.
  - intros s'' Hok'' Hnc Hav. by apply DecodeChunk_ok.
Qed.

(** C22: storing a file with [BuildECFileMetaFromReader] and writing it out
    with [ReconstructFileFromECMeta] gives the file back: however the reader
    splits it, the file is cut into non-empty blocks of at most [chunkSize]
    bytes (a size that a buffer can have), indexed from 0, and any later store that can serve [d] shards of
    every block yields exactly the bytes of the stream. *)
Theorem ec_file_roundtrip {S} `{ChunkStoreSpec S} `{ReedSolomon} d p `{!RSCorrect d p}
    name r chunkSize (s : S) :
  0 < d → 0 < p → d + p ≤ 255 → (0 < chunkSize ≤ maxAlloc)%Z →
  well_behaved r → (Z.of_nat (length (stream r)) < 2 ^ 63)%Z → store_ok s → healthy s →
  ∃ s' metas blocks (meta := ECFM name (Z.of_nat (length (stream r))) chunkSize (params_of d p) metas),
    BuildECFileMetaFromReader name r chunkSize (params_of d p) (Some s) = (Some s', Ok meta) ∧
    blocks_of (Z.to_nat chunkSize) (stream r) blocks ∧
    Forall2 (lays_out d p) metas blocks ∧
    ec_Index <$> metas = Z.of_nat <$> seq 0 (length metas) ∧
    Forall (λ cm, Forall (readable s') (ShardIDs (Layout cm))) metas ∧
    ∀ s'' w, store_ok s'' → Forall2 (serves d p s'') metas blocks → faults w = [] →
      ReconstructFileFromECMeta (Some s'') (Some meta) w
      = (Writer (written w ++ stream r) [], Ok tt).
Proof.
  intros Hd Hp Hdp [Hcs Hmake] Hwb Hlt Hok Hh.
  assert (chunkSize + Z.of_nat d ≤ 2 ^ 63)%Z as Hcd by (unfold maxAlloc in Hmake; lia).
  destruct (build_loop_healthy d p Hd Hp Hdp (Datatypes.S (reader_size r)) (Z.to_nat chunkSize)
    r 0 (ECFM name 0 chunkSize (params_of d p) []) s)
    as (s' & metas & blocks & Hrun & Hok' & Hh' & _ & Hblocks & Hlay & Hidx & Hall);
    try (simpl; done || lia).
  exists s', metas, blocks. cbn zeta. split_and!; try done.
  - unfold BuildECFileMetaFromReader. destruct (chunkSize <=? 0)%Z eqn:E; bool_lia.
    rewrite Validate_params by done. cbn [wrap_err]. rewrite make_bytes_ok by lia. exact Hrun.
  - eapply Forall_impl; [|exact Hall]. simpl. intros cm. by apply readable_view.
  - intros s'' w Hok'' Hserves Hw. unfold ReconstructFileFromECMeta. cbn [ec_Params ec_Chunks].
    rewrite Validate_params by done. cbn [wrap_err]. destruct Hblocks as [<- Hlens].
    eapply (write_chunks_serves d p Hd Hp Hdp (Z.to_nat chunkSize)); try done. lia.
Qed.

(** C26: equal shards share one chunk, so losing a single stored chunk can
    cost more than the parity covers: in the layout of a block of zeros the
    first [d] identifiers, those of the data shards, are one and the same, and
    every shard can be read; but when [p < d], the block cannot be decoded from
    any store that has lost the chunk under this one identifier, for instance
    by [DeleteChunk]: the decoder returns an error. *)
Theorem ec_equal_shards_single_loss {S} `{ChunkStoreSpec S} `{ReedSolomon} d p `{!RSCorrect d p}
    k (s : S) :
  0 < p < d → d + p ≤ 255 → 0 < k → (Z.of_nat (d * k + d) ≤ 2 ^ 63)%Z → store_ok s → healthy s →
  ∃ s' layout id,
    EncodeChunkWithEC (zeros (d * k)) (params_of d p) (Some s) = (Some s', Ok layout) ∧
    length (ShardIDs layout) = d + p ∧ take d (ShardIDs layout) = replicate d id ∧
    Forall (readable s') (ShardIDs layout) ∧
    (∀ s'', store_ok s'' → view s'' id = None → ∃ e, DecodeChunkWithEC (Some s'') (Some layout) = Err e) ∧
    ∀ s'', DeleteChunk id s' = (s'', Ok tt) → ∃ e, DecodeChunkWithEC (Some s'') (Some layout) = Err e.
Proof.
  intros Hpd Hdp Hk Hlen Hok Hh. assert (0 < d) as Hd by lia. assert (0 < p) as Hp by lia.
  destruct (EncodeChunk_healthy d p Hd Hp Hdp (zeros (d * k)) s)
    as (s' & shards & Henc & Hput & Hok' & Hh' & _ & Hall); [by rewrite length_zeros|done|done|].
  destruct (EncodeToShards_ok d p Hd Hp Hdp (zeros (d * k)))
    as (out & Hout & Hlo & Hallen & Hjoin & _); [by rewrite length_zeros|].
  rewrite Henc in Hout. apply Ok_inv in Hout as <-. rewrite length_zeros in *.
  assert (take d shards = replicate d (zeros (ceil_div (d * k) d))) as Htake.
  { replace d with (length (take d shards)) at 2 by (rewrite length_take; lia).
    eapply (zeros_shards _ _ (d * k + _)); [by apply Forall_take|].
    rewrite Hjoin. unfold zeros. by rewrite <-replicate_add. }
  set (id := NewChunkID (zeros (ceil_div (d * k) d))).
  assert (NewChunkID <$> shards = replicate d id ++ (NewChunkID <$> drop d shards)) as Hids.
  { rewrite <-(take_drop d shards) at 1. by rewrite fmap_app, Htake, fmap_replicate. }
  assert (∀ s'', store_ok s'' → view s'' id = None → ∃ e, DecodeChunkWithEC (Some s'')
    (Some (ECLayout (params_of d p) (NewChunkID <$> shards) (Z.of_nat (d * k)))) = Err e) as Hlost.
  { intros s'' Hok'' Hgone. unfold DecodeChunkWithEC. cbn [Params ShardIDs OrigSize].
    rewrite Validate_params, TotalShards_params, length_fmap, Hlo, Z.eqb_refl by done. simpl.
    destruct (load_shards_ok s'' (NewChunkID <$> shards)) as [part Hl]. rewrite Hl. simpl.
    rewrite Hids in Hl. apply load_shards_lost in Hl; [|done|done]. rewrite length_fmap, length_drop in Hl.
    apply Reconstruct_few; lia || done. }
  eexists s', _, id. split; [exact Hput|]. cbn [ShardIDs]. split_and!; [by rewrite length_fmap| | |exact Hlost|].
  - rewrite Hids. rewrite take_app_le by (by rewrite length_replicate). by rewrite take_replicate, Nat.min_id.
  - apply readable_view; [done|done|]. by rewrite Forall_fmap.
  - intros s'' Hdel. apply delete_ok in Hdel as (Hok'' & Hgone & _); [|done]. by apply Hlost.
Qed.

(** [BuildECFileMetaFromReader] ends for every reader and store: given
    that the codec does not panic, that the parameters are small enough
    for their sum not to overflow and that a buffer can have the chunk size, it
    returns metadata or an error. *)
Theorem BuildECFileMeta_total {S} `{ChunkStoreSpec S} `{ReedSolomon} name r chunkSize params st :
  (∀ d p, rs_New d p ≠ Panic) → (∀ enc l, rs_Encode enc l ≠ Panic) →
  (0 ≤ TotalShards params)%Z → (chunkSize ≤ maxAlloc)%Z →
  (BuildECFileMetaFromReader name r chunkSize params st).2 ≠ Panic.
Proof.
  intros Hnew Hencode Htotal Hmake. unfold BuildECFileMetaFromReader.
  destruct st as [s|]; [|done]. destruct (chunkSize <=? 0)%Z eqn:E; bool_to_Prop; [done|].
  destruct (Validate params) as [[]|e|] eqn:Hv; [|done|by unfold Validate in Hv; repeat case_match].
  cbn [wrap_err]. rewrite make_bytes_ok by lia.
  apply build_loop_no_panic; [lia|lia| |]; intros b s0; rewrite EncodeChunk_unfold;
    pose proof (EncodeToShards_no_panic b params Hnew Hencode Htotal);
    destruct (EncodeToShards b params) as [shards|e|]; try done; cbn [wrap_err];
    pose proof (put_shards_no_panic 0 shards s0); by destruct (put_shards _ _ s0) as [? []].
Qed.

(** ** Witnesses: the xor codec, two data shards and one parity shard *)

#[local] Instance ec_2_1 : RSCorrect (H := XorCodec) 2 1.
Proof. apply XorCodec_correct; lia. Qed.

(** The first of the three shards is gone. *)
Lemma ec_chunk_roundtrip_witness :
  DecodeChunkWithEC (Some (store_of [[x63; x00]; [x02; x62]]))
    (Some (ECLayout (EC 2 1) (NewChunkID <$> [[x61; x62]; [x63; x00]; [x02; x62]]) 3))
  = Ok [x61; x62; x63].
Proof.
  destruct (ec_chunk_roundtrip 2 1 [x61; x62; x63] empty_store)
    as (s' & shards & ids & Henc & -> & _ & _ & Hdec);
    [simpl; lia..|apply empty_store_ok|apply empty_store_healthy|].
  assert (shards = [[x61; x62]; [x63; x00]; [x02; x62]]) as ->.
  { apply Ok_inv. rewrite <-Henc. by vm_compute. }
  apply Hdec; [apply store_of_ok|apply no_clashb_spec; by vm_compute|by vm_compute; lia].
Defined.

Lemma ec_file_roundtrip_witness :
  ∃ s' meta, BuildECFileMetaFromReader "f" [([x61; x62; x63; x64], None)] 3 (EC 2 1)
    (Some empty_store) = (Some s', Ok meta) ∧ ec_Size meta = 4%Z.
Proof.
  destruct (ec_file_roundtrip 2 1 "f" [([x61; x62; x63; x64], None)] 3 empty_store)
    as (s' & metas & blocks & Hrun & _);
    [lia..|unfold maxAlloc; lia|by left|simpl; lia|apply empty_store_ok|apply empty_store_healthy|].
  eexists s', _. split; [exact Hrun|done].
Defined.

(** Four zeros in two data shards and a parity shard, all equal: the directory
    has one chunk file, which [DeleteChunk] removes. *)
Definition zero_encoded : option FSChunkStore * res ECChunkLayout :=
  EncodeChunkWithEC [x00; x00; x00; x00] (EC 2 1) (Some empty_store).
Definition zero_store : FSChunkStore := default empty_store zero_encoded.1.
Definition zero_id : ChunkID := NewChunkID [x00; x00].

Lemma ec_equal_shards_single_loss_witness :
  ∃ layout s'' e,
    EncodeChunkWithEC [x00; x00; x00; x00] (EC 2 1) (Some empty_store) = (Some zero_store, Ok layout) ∧
    take 2 (ShardIDs layout) = [zero_id; zero_id] ∧ Forall (readable zero_store) (ShardIDs layout) ∧
    DeleteChunk zero_id zero_store = (s'', Ok tt) ∧ DecodeChunkWithEC (Some s'') (Some layout) = Err e.
Proof.
  destruct (ec_equal_shards_single_loss 2 1 2 empty_store) as (s' & layout & id & H1 & _ & Ht & Hr & _ & H2);
    [lia..|simpl; lia|apply empty_store_ok|apply empty_store_healthy|].
  assert (zero_encoded = (Some s', Ok layout)) as H1' by exact H1. clear H1.
  assert (zero_store = s') as <- by (unfold zero_store; rewrite H1'; reflexivity).
  assert (take 2 (ShardIDs layout) = [zero_id; zero_id]) as Hids.
  { assert (match zero_encoded.2 with Ok l => take 2 (ShardIDs l) | _ => [] end = [zero_id; zero_id]) as E
      by (vm_compute; reflexivity).
    rewrite H1' in E. exact E. }
  rewrite Hids in Ht. assert (zero_id = id) as <- by exact (f_equal (hd zero_id) Ht).
  destruct (DeleteChunk zero_id zero_store) as [s'' r] eqn:Hdel.
  assert (r = Ok tt) as ->.
  { assert ((DeleteChunk zero_id zero_store).2 = Ok tt) as E by (vm_compute; reflexivity).
    rewrite Hdel in E. exact E. }
  destruct (H2 s'' eq_refl) as [e He]. exists layout, s'', e.
  split; [exact H1'|]. split; [exact Hids|]. split; [exact Hr|]. split; [reflexivity|exact He].
Defined.

Lemma BuildECFileMeta_total_witness :
  (BuildECFileMetaFromReader "f" [([x61], Some (EMsg "broken pipe"))] 3 (EC 2 1)
    (Some bad_disk)).2 ≠ Panic.
Proof.
  apply (BuildECFileMeta_total (H1 := XorCodec)); [|done|done|done].
  intros d p. simpl. by case_match.
Defined.
