(* ===== verification/Id.v ===== *)
(** * Kademlia identifiers (src/internal/dht/id.go)

    An identifier is a 160-bit big-endian number. The byte loops of the code
    are shown to compute the numeric operations Kademlia is defined by: the
    xor metric, the order of distances and the number of leading zeros. *)

From S2P Require Import Prelude Hex.
From stdpp Require Import options.

Definition IDBits : nat := 160.
Definition IDBytes : nat := IDBits / 8.

Notation ID := (vec byte 20).

(** [ID{}] *)
Definition zero_ID : ID := copy_array 20 [].

(** [rand] is the outcome of [rand.Read] on 20 bytes. *)
Definition NewRandomID (rand : res ID) : res ID := wrap_err "NewRandomID" rand.

Definition MustRandomID (rand : res ID) : res ID :=
  match NewRandomID rand with Ok id => Ok id | _ => Panic end.

Definition IDFromBytes (b : bytes) : res ID :=
  if (length b =? IDBytes)%nat then Ok (copy_array 20 b)
  else Err (EMsg ("IDFromBytes: invalid length " +:+ pretty (length b)
                  +:+ ", want " +:+ pretty IDBytes)).

Definition IDFromHex (s : string) : res ID :=
  raw ← wrap_err "IDFromHex: decode error" (DecodeString s);
  IDFromBytes raw.

Definition ID_String (id : ID) : string := EncodeToString (vec_to_list id).

Definition ID_XOR (id other : ID) : ID := vzip_with byte_xor id other.

(** The loops of [Equals] and [Less], from the first byte on. *)
Fixpoint equals_loop (a b : bytes) : bool :=
  match a, b with
  | x :: a', y :: b' => if bool_decide (x ≠ y) then false else equals_loop a' b'
  | _, _ => true
  end.
Definition ID_Equals (id other : ID) : bool := equals_loop (vec_to_list id) (vec_to_list other).

Fixpoint less_loop (a b : bytes) : bool :=
  match a, b with
  | x :: a', y :: b' =>
      if (byteN x <? byteN y)%N then true
      else if (byteN y <? byteN x)%N then false
      else less_loop a' b'
  | _, _ => false
  end.
Definition ID_Less (id other : ID) : bool := less_loop (vec_to_list id) (vec_to_list other).

(** [for j := 7; j >= 0; j--]: [inr count] returns, [inl count] falls
    through. The first argument is [j + 1]. *)
Fixpoint scan_bits (k : nat) (b : N) (count : nat) : nat + nat :=
  match k with
  | O => inl count
  | S j =>
      if (N.land b (N.shiftl 1 (N.of_nat j)) =? 0)%N then scan_bits j b (count + 1)
      else inr count
  end.

Fixpoint prefix_loop (l : bytes) (count : nat) : nat :=
  match l with
  | [] => count
  | b :: l' =>
      if (byteN b =? 0)%N then prefix_loop l' (count + 8)
      else match scan_bits 8 (byteN b) count with
           | inr c => c
           | inl c => prefix_loop l' c
           end
  end.

Definition PrefixLen (id : ID) : nat := prefix_loop (vec_to_list id) 0.

(** ** The number an identifier stands for *)

Fixpoint be_val (l : bytes) : N :=
  match l with
  | [] => 0
  | b :: l' => byteN b * 2 ^ (8 * N.of_nat (length l')) + be_val l'
  end%N.

Definition ID_val (id : ID) : N := be_val (vec_to_list id).

Lemma be_val_lt l : (be_val l < 2 ^ (8 * N.of_nat (length l)))%N.
Proof.
  induction l as [|b l IH]; [done|]. cbn [be_val length].
  replace (8 * N.of_nat (S (length l)))%N with (8 + 8 * N.of_nat (length l))%N by lia.
  rewrite N.pow_add_r. pose proof (byteN_lt b).
  change (2 ^ 8)%N with 256%N. nia.
Qed.

Lemma ID_val_lt id : (ID_val id < 2 ^ 160)%N.
Proof. pose proof (be_val_lt (vec_to_list id)) as H. by rewrite length_vec_to_list in H. Qed.

Lemma be_val_inj a b : length a = length b → be_val a = be_val b → a = b.
Proof.
  revert b. induction a as [|x a IH]; intros [|y b]; try done. cbn [be_val length].
  intros [= Hl]. rewrite Hl. intros H.
  pose proof (be_val_lt a) as Ha. pose proof (be_val_lt b) as Hb. rewrite Hl in Ha.
  assert (byteN x = byteN y ∧ be_val a = be_val b) as [Hx Hab].
  { apply (N.div_mod_unique (2 ^ (8 * N.of_nat (length b)))); [done|done|]. lia. }
  f_equal; [by apply (inj byteN)|by apply IH].
Qed.

#[export] Instance ID_val_inj : Inj (=) (=) ID_val.
Proof.
  intros a b H. apply (inj vec_to_list), be_val_inj; [|done]. by rewrite !length_vec_to_list.
Qed.

(** ** The loops compute the numeric operations *)

Lemma land_shift_low a x k : (x < 2 ^ k)%N → N.land (a * 2 ^ k) x = 0%N.
Proof.
  intros Hx. apply N.bits_inj_0. intros m. rewrite N.land_spec.
  destruct (decide (m < k)%N) as [Hm|Hm].
  - by rewrite N.mul_pow2_bits_low.
  - rewrite <-(N.mod_small x (2 ^ k)) by done.
    rewrite N.mod_pow2_bits_high by lia. apply andb_false_r.
Qed.

Lemma add_shift_lxor a x k : (x < 2 ^ k)%N → (a * 2 ^ k + x)%N = N.lxor (a * 2 ^ k) x.
Proof. intros Hx. by apply N.add_nocarry_lxor, land_shift_low. Qed.

Lemma be_val_xor a b :
  length a = length b → be_val (zip_with byte_xor a b) = N.lxor (be_val a) (be_val b).
Proof.
  revert b. induction a as [|x a IH]; intros [|y b]; try done. intros [= Hl]. cbn [zip_with be_val].
  rewrite IH by done. pose proof (be_val_lt a) as Ha. pose proof (be_val_lt b) as Hb.
  rewrite length_zip_with_l_eq, Hl in * by done.
  set (k := (8 * N.of_nat (length b))%N) in *.
  assert (N.lxor (be_val a) (be_val b) < 2 ^ k)%N as Hab.
  { rewrite <-(N.mod_small (be_val a) (2 ^ k)), <-(N.mod_small (be_val b) (2 ^ k)) by done.
    destruct (decide (N.lxor (be_val a `mod` 2 ^ k) (be_val b `mod` 2 ^ k) = 0)%N) as [->|Hne]; [lia|].
    apply N.log2_lt_pow2; [lia|]. eapply N.le_lt_trans; [apply N.log2_lxor|].
    destruct (decide (k = 0)%N) as [Hk|Hk].
    - exfalso. apply Hne. rewrite Hk, !N.mod_1_r. done.
    - rewrite !N.mod_small by done.
      assert (∀ v, v < 2 ^ k → N.log2 v < k)%N as Hlog.
      { intros v Hv. destruct (decide (v = 0)%N) as [->|]; [simpl; lia|]. apply N.log2_lt_pow2; lia. }
      pose proof (Hlog _ Ha). pose proof (Hlog _ Hb). lia. }
  rewrite !add_shift_lxor, byteN_xor by done.
  rewrite <-!N.shiftl_mul_pow2, N.shiftl_lxor.
  rewrite !N.lxor_assoc. f_equal. rewrite <-!N.lxor_assoc. f_equal. apply N.lxor_comm.
Qed.

Lemma ID_val_XOR a b : ID_val (ID_XOR a b) = N.lxor (ID_val a) (ID_val b).
Proof.
  unfold ID_val, ID_XOR. rewrite vec_to_list_zip_with. apply be_val_xor.
  by rewrite !length_vec_to_list.
Qed.

Lemma less_loop_val a b :
  length a = length b → less_loop a b = (be_val a <? be_val b)%N.
Proof.
  revert b. induction a as [|x a IH]; intros [|y b]; try done. intros [= Hl]. cbn [less_loop be_val].
  rewrite IH by done. pose proof (be_val_lt a) as Ha. pose proof (be_val_lt b) as Hb.
  rewrite Hl in *. set (k := (2 ^ (8 * N.of_nat (length b)))%N) in *. symmetry.
  destruct (byteN x <? byteN y)%N eqn:E1; bool_to_Prop; [apply N.ltb_lt; nia|].
  destruct (byteN y <? byteN x)%N eqn:E2; bool_to_Prop; [apply N.ltb_ge; nia|].
  assert (byteN x = byteN y) as -> by lia.
  destruct (be_val a <? be_val b)%N eqn:E3; bool_to_Prop; [apply N.ltb_lt|apply N.ltb_ge]; lia.
Qed.

Lemma ID_Less_val a b : ID_Less a b = (ID_val a <? ID_val b)%N.
Proof. apply less_loop_val. by rewrite !length_vec_to_list. Qed.

Lemma equals_loop_eq a b : length a = length b → equals_loop a b = bool_decide (a = b).
Proof.
  revert b. induction a as [|x a IH]; intros [|y b]; try done. intros [= Hl]. simpl.
  case_bool_decide as Hxy; [by rewrite bool_decide_eq_false_2 by naive_solver|].
  rewrite IH, Hxy by done. apply bool_decide_ext. naive_solver.
Qed.

Lemma ID_Equals_eq a b : ID_Equals a b = bool_decide (a = b).
Proof.
  unfold ID_Equals. rewrite equals_loop_eq by by rewrite !length_vec_to_list.
  apply bool_decide_ext. split; [apply (inj _)|congruence].
Qed.

Lemma scan_bits_size b count :
  (byteN b ≠ 0)%N → scan_bits 8 (byteN b) count = inr (count + (8 - N.to_nat (N.size (byteN b)))).
Proof. destruct b; cbn; intros; try done; f_equal; lia. Qed.

Lemma size_be b l :
  (byteN b ≠ 0)%N →
  N.size (be_val (b :: l)) = (N.size (byteN b) + 8 * N.of_nat (length l))%N.
Proof.
  intros Hb. cbn [be_val]. pose proof (be_val_lt l) as Hl.
  set (k := (8 * N.of_nat (length l))%N) in *.
  assert (0 < 2 ^ k)%N by (apply N.neq_0_lt_0, N.pow_nonzero; lia).
  rewrite !N.size_log2 by nia.
  assert (N.log2 (byteN b * 2 ^ k + be_val l) = N.log2 (byteN b) + k)%N as ->; [|lia].
  destruct (N.log2_spec (byteN b)) as [H1 H2]; [lia|].
  apply N.log2_unique; [lia|]. rewrite <-N.add_succ_l, !N.pow_add_r. nia.
Qed.

Lemma prefix_loop_size l count :
  prefix_loop l count = count + (8 * length l - N.to_nat (N.size (be_val l))).
Proof.
  revert count. induction l as [|b l IH]; intros count; [simpl; lia|].
  assert (N.size (be_val l) ≤ 8 * N.of_nat (length l))%N as Hsz.
  { destruct (decide (be_val l = 0)%N) as [->|Hne]; [apply N.le_0_l|].
    rewrite N.size_log2 by done. pose proof (be_val_lt l).
    assert (N.log2 (be_val l) < 8 * N.of_nat (length l))%N by (apply N.log2_lt_pow2; [lia|done]). lia. }
  cbn [prefix_loop]. destruct (byteN b =? 0)%N eqn:E; bool_to_Prop.
  - rewrite IH. cbn [be_val length]. rewrite E, N.mul_0_l, N.add_0_l. lia.
  - rewrite scan_bits_size, size_be by done. cbn [length].
    assert (N.size (byteN b) ≤ 8)%N.
    { rewrite N.size_log2 by done. pose proof (byteN_lt b).
      assert (N.log2 (byteN b) < 8)%N by (apply N.log2_lt_pow2; [lia|done]). lia. }
    lia.
Qed.

Lemma PrefixLen_size id : PrefixLen id = 160 - N.to_nat (N.size (ID_val id)).
Proof. unfold PrefixLen. by rewrite prefix_loop_size, length_vec_to_list. Qed.

Lemma lxor_le_add a b : (N.lxor a b ≤ a + b)%N.
Proof.
  pose proof (Z.add_lxor_2land (Z.of_N a) (Z.of_N b)) as H.
  rewrite <-N2Z.inj_lxor, <-N2Z.inj_land in H. lia.
Qed.

(** ** The algebra of [XOR] *)

#[export] Instance ID_XOR_comm : Comm (=) ID_XOR.
Proof. intros a b. apply (inj ID_val). rewrite !ID_val_XOR. apply N.lxor_comm. Qed.
#[export] Instance ID_XOR_assoc : Assoc (=) ID_XOR.
Proof. intros a b c. apply (inj ID_val). rewrite !ID_val_XOR. by rewrite N.lxor_assoc. Qed.

Lemma ID_XOR_cancel a b : ID_XOR a (ID_XOR a b) = b.
Proof.
  apply (inj ID_val). rewrite !ID_val_XOR, <-N.lxor_assoc, N.lxor_nilpotent. apply N.lxor_0_l.
Qed.

#[export] Instance ID_XOR_inj a : Inj (=) (=) (ID_XOR a).
Proof. intros b c H. by rewrite <-(ID_XOR_cancel a b), <-(ID_XOR_cancel a c), H. Qed.

(** The Kademlia distance as a number. *)
Definition dist (a b : ID) : N := ID_val (ID_XOR a b).

#[export] Instance dist_inj a : Inj (=) (=) (dist a).
Proof. intros b c H. by apply (inj ID_val), (inj (ID_XOR a)) in H. Qed.

Lemma dist_lt a b : (dist a b < 2 ^ 160)%N.
Proof. apply ID_val_lt. Qed.

Lemma dist_0 a b : dist a b = 0%N ↔ a = b.
Proof.
  unfold dist. rewrite ID_val_XOR, N.lxor_eq_0_iff. split; [apply (inj ID_val)|congruence].
Qed.

Lemma PrefixLen_bounds id :
  (ID_val id = 0%N ∧ PrefixLen id = 160) ∨
  (PrefixLen id < 160 ∧
   (2 ^ N.of_nat (159 - PrefixLen id) ≤ ID_val id < 2 ^ N.of_nat (160 - PrefixLen id))%N).
Proof.
  rewrite PrefixLen_size. pose proof (ID_val_lt id) as Hlt.
  destruct (decide (ID_val id = 0)%N) as [E|E]; [left; by rewrite E|right].
  rewrite N.size_log2 by done.
  assert (N.log2 (ID_val id) < 160)%N by (apply N.log2_lt_pow2; [lia|done]).
  destruct (N.log2_spec (ID_val id)) as [H1 H2]; [lia|]. split; [lia|].
  replace (N.of_nat (159 - _)) with (N.log2 (ID_val id)) by lia.
  replace (N.of_nat (160 - _)) with (N.succ (N.log2 (ID_val id))) by lia. done.
Qed.

(** ** Hexadecimal form *)

Lemma IDFromHex_String id : IDFromHex (ID_String id) = Ok id.
Proof.
  unfold IDFromHex, ID_String, IDFromBytes. rewrite Decode_Encode. simpl.
  by rewrite length_vec_to_list, copy_array_id.
Qed.

#[export] Instance ID_String_inj : Inj (=) (=) ID_String.
Proof. intros a b H. by apply (inj vec_to_list), (inj EncodeToString). Qed.

Lemma IDFromHex_Ok s id :
  IDFromHex s = Ok id → ID_String id = ToLower s ∧ String.length s = 40%nat.
Proof.
  unfold IDFromHex, IDFromBytes. intros (b & Hb%wrap_err_Ok & H)%res_bind_Ok.
  destruct (length b =? IDBytes)%nat eqn:Hl; simplify_eq. bool_to_Prop.
  change IDBytes with 20 in Hl. unfold ID_String. rewrite copy_array_list by done.
  split; [by apply Encode_Decode|]. rewrite (length_Decode s b) by done. lia.
Qed.

Lemma IDFromHex_no_panic s : IDFromHex s ≠ Panic.
Proof.
  unfold IDFromHex, IDFromBytes. pose proof (Decode_no_panic s).
  destruct (DecodeString s); simpl; [by case_match|done|done].
Qed.

(** ** Properties *)

(** [XOR] is the Kademlia metric on 160-bit numbers: the distance is the
    xor of the numbers, zero only between equal identifiers, symmetric, obeys
    the triangle inequality, and every identifier has exactly one other at
    each distance. *)
Theorem XOR_metric (a b c : ID) :
  dist a b = N.lxor (ID_val a) (ID_val b) ∧
  (dist a b = 0%N ↔ ID_Equals a b = true) ∧
  dist a b = dist b a ∧
  (dist a c ≤ dist a b + dist b c)%N ∧
  (∃ x, ID_XOR a x = c ∧ ∀ y, ID_XOR a y = c → y = x).
Proof.
  split_and!.
  - apply ID_val_XOR.
  - by rewrite dist_0, ID_Equals_eq, bool_decide_eq_true.
  - unfold dist. by rewrite (comm ID_XOR).
  - unfold dist. replace (ID_XOR a c) with (ID_XOR (ID_XOR a b) (ID_XOR b c)).
    + rewrite ID_val_XOR. apply lxor_le_add.
    + by rewrite <-(assoc ID_XOR), ID_XOR_cancel.
  - exists (ID_XOR a c). split; [apply ID_XOR_cancel|]. intros y <-.
    by rewrite ID_XOR_cancel.
Qed.

(** [Less] is the strict order of the numbers: irreflexive, transitive
    and total, with [Equals] deciding the remaining case. *)
Theorem Less_strict_total (a b c : ID) :
  (ID_Less a b = true ↔ (ID_val a < ID_val b)%N) ∧
  ID_Less a a = false ∧
  (ID_Less a b = true → ID_Less b c = true → ID_Less a c = true) ∧
  (ID_Less a b = true ∨ ID_Equals a b = true ∨ ID_Less b a = true).
Proof.
  rewrite !ID_Less_val, ID_Equals_eq, bool_decide_eq_true, !N.ltb_lt, N.ltb_ge.
  split_and!; [done|lia|lia|].
  destruct (N.lt_trichotomy (ID_val a) (ID_val b)) as [?|[?|?]]; [by left| |by right; right].
  right; left. by apply (inj ID_val).
Qed.

(** [PrefixLen] counts the leading zero bits: 160 for the zero
    identifier, otherwise the position of the highest bit set; two
    identifiers are closer to each other the longer the prefix they share. *)
Theorem PrefixLen_leading_zeros (id : ID) :
  PrefixLen id ≤ 160 ∧
  (PrefixLen id = 160 ↔ id = zero_ID) ∧
  (PrefixLen id < 160 →
    N.testbit (ID_val id) (N.of_nat (159 - PrefixLen id)) = true ∧
    ∀ m, (N.of_nat (159 - PrefixLen id) < m)%N → N.testbit (ID_val id) m = false) ∧
  (∀ id', PrefixLen id < PrefixLen id' → (ID_val id' < ID_val id)%N).
Proof.
  assert (ID_val zero_ID = 0%N) as H0 by by vm_compute.
  destruct (PrefixLen_bounds id) as [[E Hp]|[Hp [Hlo Hhi]]]; split_and!.
  - lia.
  - rewrite Hp. split; [intros _; by apply (inj ID_val); rewrite H0|done].
  - lia.
  - intros id' Hlt. destruct (PrefixLen_bounds id'); lia.
  - lia.
  - split; [lia|]. intros ->. rewrite H0 in Hlo.
    assert (2 ^ N.of_nat (159 - PrefixLen zero_ID) ≠ 0)%N by (apply N.pow_nonzero; lia). lia.
  - intros _. assert (N.log2 (ID_val id) = N.of_nat (159 - PrefixLen id)) as Hlog.
    { apply N.log2_unique; [lia|]. split; [done|].
      by replace (N.succ _) with (N.of_nat (160 - PrefixLen id)) by lia. }
    assert (ID_val id ≠ 0)%N.
    { assert (2 ^ N.of_nat (159 - PrefixLen id) ≠ 0)%N by (apply N.pow_nonzero; lia). lia. }
    split; [rewrite <-Hlog; by apply N.bit_log2|].
    intros m Hm. apply N.bits_above_log2. lia.
  - intros id' Hlt. assert (0 < ID_val id)%N.
    { assert (2 ^ N.of_nat (159 - PrefixLen id) ≠ 0)%N by (apply N.pow_nonzero; lia). lia. }
    destruct (PrefixLen_bounds id') as [[-> _]|[_ [_ Hhi']]]; [done|].
    eapply N.lt_le_trans; [exact Hhi'|]. eapply N.le_trans; [|exact Hlo].
    apply N.pow_le_mono_r; lia.
Qed.

(** Identifiers survive printing and parsing: [IDFromHex] accepts
    exactly the texts of 40 hexadecimal digits, in either case, and gives back
    the identifier that [String] prints in lower case. *)
Theorem IDFromHex_roundtrip id s :
  IDFromHex (ID_String id) = Ok id ∧
  (is_ok (IDFromHex s) = all_hex s && (String.length s =? 40)%nat) ∧
  (IDFromHex s = Ok id → ID_String id = ToLower s) ∧ IDFromHex s ≠ Panic.
Proof.
  split_and!; [apply IDFromHex_String| |by intros [? _]%IDFromHex_Ok|apply IDFromHex_no_panic].
  unfold IDFromHex, IDFromBytes. pose proof (Decode_ok_iff s) as Hiff.
  pose proof (length_Decode s) as Hlen. pose proof (Decode_no_panic s) as Hnp.
  destruct (DecodeString s) as [b|e|]; simpl in *; symmetry in Hiff; simpl.
  - specialize (Hlen b eq_refl). apply andb_true_iff in Hiff as [-> _]. simpl.
    change IDBytes with 20.
    destruct (length b =? 20)%nat eqn:Hb; simpl; bool_to_Prop; symmetry;
      [apply Nat.eqb_eq|apply Nat.eqb_neq]; lia.
  - destruct (String.length s =? 40)%nat eqn:E; [|by rewrite andb_false_r].
    apply Nat.eqb_eq in E. rewrite E in Hiff. simpl in Hiff.
    by rewrite andb_true_r in Hiff |- *.
  - done.
Qed.
