(* ===== verification/RoutingTable.v ===== *)
(** * The routing table (src/internal/dht/routing_table.go, constants.go)

    160 buckets of at most [K] contacts, most recently seen first. The
    invariant says where a contact may be; the main theorem says that the
    buckets hold exactly the [K] most recently seen identifiers of their
    distance range. [FindClosest] uses [sort.Slice], the class [SortSlice]. *)

From S2P Require Import Prelude Hex Id.
From stdpp Require Import sorting options.

Definition K : nat := 20.
Definition Alpha : nat := 3.

(** [time.Time] as nanoseconds. *)
Notation Time := Z (only parsing).

Record Contact := Con { con_ID : ID; con_Address : string; con_LastSeen : Time }.

#[export] Instance Contact_eq_dec : EqDecision Contact.
Proof. solve_decision. Defined.

Notation bucket := (list Contact) (only parsing).

(** The position and value of the first contact named [id]; [i] counts. *)
Fixpoint find_contact (id : ID) (i : nat) (b : bucket) : option (nat * Contact) :=
  match b with
  | [] => None
  | c :: rest => if ID_Equals (con_ID c) id then Some (i, c) else find_contact id (i + 1) rest
  end.

Definition bucket_touch (id : ID) (b : bucket) : bucket * bool :=
  match find_contact id 0 b with
  | Some (O, _) => (b, true)
  | Some (i, c) => ([c] ++ (take i b ++ drop (i + 1) b), true)
  | None => (b, false)
  end.

Definition bucket_add (c : Contact) (b : bucket) : bucket :=
  let b := [c] ++ b in
  if (K <? length b)%nat then take K b else b.

Definition bucket_all (b : bucket) : list Contact := b.

Record RoutingTable := RT { rt_self : ID; buckets : list bucket }.

Definition NewRoutingTable (self : ID) : RoutingTable := RT self (replicate IDBits []).

Definition bucketIndex (rt : RoutingTable) (id : ID) : nat :=
  let prefix := PrefixLen (ID_XOR (rt_self rt) id) in
  if (IDBits <=? prefix)%nat then IDBits - 1 else prefix.

(** [b.contacts[0].LastSeen = now] *)
Definition set_first_seen (now : Time) (b : bucket) : res bucket :=
  match b with
  | [] => Panic
  | c :: rest => Ok (Con (con_ID c) (con_Address c) now :: rest)
  end.

Definition AddContact (now : Time) (c : Contact) : M RoutingTable unit := λ rt,
  if ID_Equals (rt_self rt) (con_ID c) then (rt, Ok tt)
  else
    let idx := bucketIndex rt (con_ID c) in
    match buckets rt !! idx with
    | None => (rt, Panic)
    | Some b =>
        let '(b', found) := bucket_touch (con_ID c) b in
        if found then
          match set_first_seen now b' with
          | Ok b'' => (RT (rt_self rt) (<[idx := b'']> (buckets rt)), Ok tt)
          | _ => (RT (rt_self rt) (<[idx := b']> (buckets rt)), Panic)
          end
        else
          let c := Con (con_ID c) (con_Address c) now in
          (RT (rt_self rt) (<[idx := bucket_add c b]> (buckets rt)), Ok tt)
    end.

(** [sort.Slice(x, less)]: for a strict weak order, the result is a
    permutation in which no element is less than an earlier one. Nothing is
    said about the order of equivalent elements. *)
Definition weak_order {A} (less : A → A → bool) : Prop :=
  (∀ x, less x x = false) ∧
  (∀ x y z, less x y = true → less y z = true → less x z = true) ∧
  (∀ x y z, less x y = false → less y z = false → less x z = false).

Class SortSlice := {
  sort_Slice {A} : (A → A → bool) → list A → list A;
  sort_Slice_perm {A} (less : A → A → bool) l : sort_Slice less l ≡ₚ l;
  sort_Slice_sorted {A} (less : A → A → bool) l :
    weak_order less → StronglySorted (λ x y, less y x = false) (sort_Slice less l);
}.

(** The comparison of [FindClosest]: the loop over [k] is that of [Less]. *)
Definition closer (target : ID) (x y : Contact) : bool :=
  less_loop (vec_to_list (ID_XOR target (con_ID x))) (vec_to_list (ID_XOR target (con_ID y))).

Definition all_contacts (rt : RoutingTable) : list Contact := mjoin (bucket_all <$> buckets rt).

Definition FindClosest `{SortSlice} (rt : RoutingTable) (target : ID) (n : Z) : res (list Contact) :=
  let allContacts := all_contacts rt in
  match allContacts with
  | [] => Ok []
  | _ =>
      let sorted := sort_Slice (closer target) allContacts in
      let n := if (Z.of_nat (length sorted) <? n)%Z then Z.of_nat (length sorted) else n in
      if (n <? 0)%Z then Panic else Ok (take (Z.to_nat n) sorted)
  end.

(** ** A sorting function: stdpp's merge sort *)

Definition not_less {A} (less : A → A → bool) (x y : A) : Prop := less y x = false.
#[export] Instance not_less_dec {A} (less : A → A → bool) : RelDecision (not_less less).
Proof. intros x y. unfold not_less. apply _. Defined.

#[export] Instance merge_sort_Slice : SortSlice.
Proof.
  refine {| sort_Slice A less l := merge_sort (not_less less) l |}.
  - intros. apply merge_sort_Permutation.
  - intros A less l (Hirr & Htr & Hcotr). change (λ x y, less y x = false) with (not_less less).
    assert (Transitive (not_less less)) by (intros x y z; unfold not_less; eauto).
    assert (Total (not_less less)).
    { intros x y. unfold not_less. destruct (less y x) eqn:E; [|by left]. right.
      destruct (less x y) eqn:E'; [|done]. by rewrite <-(Hirr x), (Htr x y x). }
    by apply StronglySorted_merge_sort.
Defined.

(** ** The invariant *)

Definition ids (b : list Contact) : list ID := con_ID <$> b.

Definition bucket_ok (rt : RoutingTable) (i : nat) (b : bucket) : Prop :=
  length b ≤ K ∧ NoDup (ids b) ∧
  Forall (λ c, con_ID c ≠ rt_self rt ∧ bucketIndex rt (con_ID c) = i) b.

Definition rt_ok (rt : RoutingTable) : Prop :=
  length (buckets rt) = IDBits ∧
  ∀ i b, buckets rt !! i = Some b → bucket_ok rt i b.

Lemma bucketIndex_lt rt id : bucketIndex rt id < IDBits.
Proof.
  unfold bucketIndex. destruct (IDBits <=? _)%nat eqn:E; bool_to_Prop; [|done].
  unfold IDBits in *. lia.
Qed.

Lemma bucketIndex_self rt rt' id : rt_self rt = rt_self rt' → bucketIndex rt id = bucketIndex rt' id.
Proof. unfold bucketIndex. by intros ->. Qed.

Lemma NewRoutingTable_ok self : rt_ok (NewRoutingTable self).
Proof.
  split; [apply length_replicate|]. intros i b Hb. apply lookup_replicate_1 in Hb as [-> _].
  split_and!; [unfold K; simpl; lia|constructor|constructor].
Qed.

(** ** [touch] and [add] *)

Lemma not_in_ids_cons id c b : id ∉ ids (c :: b) ↔ con_ID c ≠ id ∧ id ∉ ids b.
Proof. change (ids (c :: b)) with (con_ID c :: ids b). rewrite not_elem_of_cons. naive_solver. Qed.

Lemma find_contact_Some id i b j c :
  find_contact id i b = Some (j, c) →
  ∃ pre post, b = pre ++ c :: post ∧ j = i + length pre ∧ con_ID c = id ∧ id ∉ ids pre.
Proof.
  revert i. induction b as [|x b IH]; intros i; simpl; [done|].
  rewrite ID_Equals_eq. case_bool_decide as Hx.
  - intros [= <- <-]. exists [], b. split_and!; [done|simpl; lia|done|apply not_elem_of_nil].
  - intros (pre & post & -> & -> & ? & Hnin)%IH. exists (x :: pre), post.
    split_and!; [done|simpl; lia|done|]. by apply not_in_ids_cons.
Qed.

Lemma find_contact_None id i b : find_contact id i b = None → id ∉ ids b.
Proof.
  revert i. induction b as [|x b IH]; intros i; simpl; [intros _; apply not_elem_of_nil|].
  rewrite ID_Equals_eq. case_bool_decide as Hx; [done|]. intros Hn. apply IH in Hn.
  by apply not_in_ids_cons.
Qed.

(** [touch] moves the contact to the front, or finds nothing. *)
Lemma bucket_touch_spec id b :
  (∃ pre c post, b = pre ++ c :: post ∧ con_ID c = id ∧ id ∉ ids pre ∧
     bucket_touch id b = (c :: pre ++ post, true)) ∨
  (id ∉ ids b ∧ bucket_touch id b = (b, false)).
Proof.
  unfold bucket_touch. destruct (find_contact id 0 b) as [[j c]|] eqn:E.
  - apply find_contact_Some in E as (pre & post & -> & -> & Hid & Hnin). left.
    exists pre, c, post. split_and!; [done..|].
    assert (take (length pre) (pre ++ c :: post) = pre) as Ht by apply take_app_length.
    assert (drop (length pre + 1) (pre ++ c :: post) = post) as Hd.
    { rewrite drop_app_ge by lia. by replace (length pre + 1 - length pre) with 1 by lia. }
    destruct pre as [|x pre]; [done|].
    change (0 + length (x :: pre)) with (S (length pre)).
    change (length (x :: pre)) with (S (length pre)) in Ht, Hd. cbv beta iota.
    by rewrite Ht, Hd.
  - right. split; [by eapply find_contact_None|done].
Qed.

Lemma bucket_add_take c b : bucket_add c b = take K (c :: b).
Proof.
  unfold bucket_add. destruct (K <? _)%nat eqn:E; bool_to_Prop; [done|].
  by rewrite take_ge by done.
Qed.

(** The bucket of a contact after it was seen. *)
Definition seen (now : Time) (c : Contact) (b b' : bucket) : Prop :=
  (∃ pre c0 post, b = pre ++ c0 :: post ∧ con_ID c0 = con_ID c ∧
     b' = Con (con_ID c0) (con_Address c0) now :: pre ++ post) ∨
  (con_ID c ∉ ids b ∧ b' = take K (Con (con_ID c) (con_Address c) now :: b)).

Lemma AddContact_cases now c rt :
  length (buckets rt) = IDBits → con_ID c ≠ rt_self rt →
  ∃ b b', buckets rt !! bucketIndex rt (con_ID c) = Some b ∧ seen now c b b' ∧
    AddContact now c rt
    = (RT (rt_self rt) (<[bucketIndex rt (con_ID c) := b']> (buckets rt)), Ok tt).
Proof.
  intros Hlen Hself. unfold AddContact. rewrite ID_Equals_eq, bool_decide_eq_false_2 by congruence.
  destruct (lookup_lt_is_Some_2 (buckets rt) (bucketIndex rt (con_ID c))) as [b Hb].
  { rewrite Hlen. apply bucketIndex_lt. }
  rewrite Hb. exists b.
  destruct (bucket_touch_spec (con_ID c) b) as [(pre & c0 & post & -> & Hid & _ & ->)|[Hnin ->]].
  - eexists. split; [done|]. split; [|done]. left. by exists pre, c0, post.
  - eexists. split; [done|]. split; [right; by rewrite <-bucket_add_take|done].
Qed.

(** Move to the front of a list without duplicates. *)
Definition to_front (x : ID) (l : list ID) : list ID := x :: filter (λ y, y ≠ x) l.

Lemma filter_notin (x : ID) (l : list ID) : x ∉ l → filter (λ y, y ≠ x) l = l.
Proof.
  induction l as [|y l IH]; [done|]. intros [? ?]%not_elem_of_cons.
  rewrite filter_cons_True by done. by rewrite IH.
Qed.

Lemma to_front_mid x pre post :
  x ∉ pre → x ∉ post → to_front x (pre ++ x :: post) = x :: pre ++ post.
Proof.
  intros Hpre Hpost. unfold to_front. rewrite filter_app, filter_cons_False by naive_solver.
  by rewrite !filter_notin.
Qed.

Lemma to_front_NoDup x l : NoDup l → NoDup (to_front x l).
Proof.
  intros Hl. constructor; [|by apply NoDup_filter]. rewrite list_elem_of_filter. naive_solver.
Qed.

Lemma NoDup_mid (x : ID) pre post :
  NoDup (pre ++ x :: post) → x ∉ pre ∧ x ∉ post ∧ NoDup (pre ++ post).
Proof.
  rewrite <-Permutation_middle. intros [Hnin Hnd]%NoDup_cons. rewrite not_elem_of_app in Hnin.
  naive_solver.
Qed.

(** Keeping the first [n] of a most-recently-used list loses nothing that a
    longer memory would bring back. *)
Lemma take_to_front n x l :
  NoDup l → take n (to_front x (take n l)) = take n (to_front x l).
Proof.
  destruct n as [|n]; [done|]. intros Hnd. unfold to_front. simpl. f_equal.
  revert n Hnd. induction l as [|y l IH]; intros n Hnd; [done|].
  apply NoDup_cons in Hnd as [Hy Hnd]. cbn [take]. destruct (decide (y = x)) as [->|Hne].
  - rewrite !filter_cons_False by naive_solver.
    assert (x ∉ take n l) by (by intros (i & ? & _)%elem_of_take; eapply Hy, list_elem_of_lookup_2).
    rewrite !filter_notin by done. by rewrite take_take, Nat.min_id.
  - rewrite !filter_cons_True by done. destruct n as [|n]; [done|]. cbn [take]. f_equal.
    by apply IH.
Qed.

Lemma ids_app b b' : ids (b ++ b') = ids b ++ ids b'.
Proof. apply fmap_app. Qed.
Lemma ids_cons c b : ids (c :: b) = con_ID c :: ids b.
Proof. done. Qed.
Lemma length_ids b : length (ids b) = length b.
Proof. apply length_fmap. Qed.
Lemma ids_take n b : ids (take n b) = take n (ids b).
Proof. apply fmap_take. Qed.

Lemma seen_ids now c b b' :
  length b ≤ K → NoDup (ids b) → seen now c b b' →
  ids b' = take K (to_front (con_ID c) (ids b)).
Proof.
  intros Hlen Hnd [(pre & c0 & post & -> & Hid & ->)|[Hnin ->]].
  - rewrite ids_app, ids_cons, Hid in Hnd. apply NoDup_mid in Hnd as (? & ? & _).
    rewrite !ids_app, !ids_cons, Hid, to_front_mid, ids_app by done. simpl. rewrite take_ge; [done|].
    rewrite length_app in Hlen. cbn [length] in *. rewrite length_app, !length_ids. unfold K in *. lia.
  - rewrite ids_take. unfold to_front. rewrite filter_notin by done. done.
Qed.

(** Every contact of the new bucket is the one seen or an old one. *)
Lemma seen_elem now c b b' x :
  seen now c b b' → x ∈ b' → con_ID x = con_ID c ∨ x ∈ b.
Proof.
  intros [(pre & c0 & post & -> & Hid & ->)|[_ ->]] Hx.
  - apply elem_of_cons in Hx as [->|Hx]; [by left|right].
    rewrite elem_of_app, elem_of_cons. apply elem_of_app in Hx. naive_solver.
  - apply elem_of_take in Hx as (i & Hi & _). apply list_elem_of_lookup_2 in Hi.
    apply elem_of_cons in Hi as [->|Hi]; [by left|by right].
Qed.

Lemma seen_ok rt now c b b' :
  con_ID c ≠ rt_self rt → bucket_ok rt (bucketIndex rt (con_ID c)) b → seen now c b b' →
  bucket_ok rt (bucketIndex rt (con_ID c)) b'.
Proof.
  intros Hself (Hlen & Hnd & Hall) Hseen. pose proof (seen_ids now c b b' Hlen Hnd Hseen) as Hids.
  split_and!.
  - rewrite <-length_ids, Hids, length_take. lia.
  - rewrite Hids. apply (to_front_NoDup (con_ID c)) in Hnd.
    rewrite <-(take_drop K) in Hnd. by apply NoDup_app in Hnd as (? & _).
  - apply Forall_forall. intros x Hx. rewrite Forall_forall in Hall.
    destruct (seen_elem _ _ _ _ _ Hseen Hx) as [->|?]; [done|by apply Hall].
Qed.

Lemma AddContact_ok now c rt : rt_ok rt → rt_ok (AddContact now c rt).1.
Proof.
  intros [Hlen Hok]. destruct (decide (con_ID c = rt_self rt)) as [E|Hne].
  { unfold AddContact. by rewrite ID_Equals_eq, bool_decide_eq_true_2. }
  destruct (AddContact_cases now c rt Hlen Hne) as (b & b' & Hb & Hseen & ->).
  split; cbn [fst buckets]; [by rewrite length_insert|]. intros i b1.
  rewrite list_lookup_insert_Some. intros [(<- & <- & _)|[_ Hi]]; [|by apply Hok].
  eapply (seen_ok rt); [done|by apply Hok|done].
Qed.

Lemma AddContact_no_panic now c rt : rt_ok rt → (AddContact now c rt).2 = Ok tt.
Proof.
  intros [Hlen Hok]. destruct (decide (con_ID c = rt_self rt)) as [E|Hne].
  { unfold AddContact. by rewrite ID_Equals_eq, bool_decide_eq_true_2. }
  by destruct (AddContact_cases now c rt Hlen Hne) as (b & b' & _ & _ & ->).
Qed.

Lemma AddContact_self now c rt : rt_self (AddContact now c rt).1 = rt_self rt.
Proof. unfold AddContact. by repeat case_match. Qed.

(** ** Histories *)

(** The table after the contacts of [h] were added in order. *)
Fixpoint add_all (h : list (Time * Contact)) (rt : RoutingTable) : RoutingTable :=
  match h with
  | [] => rt
  | (now, c) :: h' => add_all h' (AddContact now c rt).1
  end.

(** Distinct identifiers, most recent first. *)
Definition recency (l r : list ID) : list ID := foldl (λ r x, to_front x r) r l.

(** The identifiers of a history that belong to bucket [i]. *)
Definition for_bucket (rt : RoutingTable) (i : nat) (h : list (Time * Contact)) : list ID :=
  filter (λ id, id ≠ rt_self rt ∧ bucketIndex rt id = i) (con_ID ∘ snd <$> h).

Lemma add_all_ok h rt : rt_ok rt → rt_ok (add_all h rt).
Proof. revert rt. induction h as [|[now c] h IH]; intros rt Hok; [done|]. by apply IH, AddContact_ok. Qed.

Lemma AddContact_bucket now c rt i r b :
  rt_ok rt → NoDup r → buckets rt !! i = Some b → ids b = take K r →
  ∃ b', buckets (AddContact now c rt).1 !! i = Some b' ∧
    ids b' = take K (if decide (con_ID c ≠ rt_self rt ∧ bucketIndex rt (con_ID c) = i)
                     then to_front (con_ID c) r else r).
Proof.
  intros [Hlen Hok] Hnd Hb Hids. destruct (decide (con_ID c = rt_self rt)) as [E|Hne].
  { exists b. rewrite decide_False by tauto. unfold AddContact.
    by rewrite ID_Equals_eq, bool_decide_eq_true_2. }
  destruct (AddContact_cases now c rt Hlen Hne) as (b0 & b' & Hb0 & Hseen & ->). cbn [fst buckets].
  case_decide as Hi.
  - destruct Hi as [_ <-]. rewrite Hb in Hb0. injection Hb0 as <-.
    destruct (Hok _ _ Hb) as (Hl & Hndb & _).
    exists b'. rewrite list_lookup_insert_eq by (by eapply lookup_lt_Some).
    split; [done|]. rewrite (seen_ids _ _ _ _ Hl Hndb Hseen), Hids. by apply take_to_front.
  - exists b. by rewrite list_lookup_insert_ne by tauto.
Qed.

Lemma add_all_recency h rt i b r :
  rt_ok rt → NoDup r → buckets rt !! i = Some b → ids b = take K r →
  ∃ b', buckets (add_all h rt) !! i = Some b' ∧
    ids b' = take K (recency (for_bucket rt i h) r).
Proof.
  revert rt b r. induction h as [|[now c] h IH]; intros rt b r Hok Hnd Hb Hids; [by exists b|].
  destruct (AddContact_bucket now c rt i r b Hok Hnd Hb Hids) as (b1 & Hb1 & Hids1).
  apply (AddContact_ok now c) in Hok as Hok1. cbn [add_all].
  assert (NoDup (if decide (con_ID c ≠ rt_self rt ∧ bucketIndex rt (con_ID c) = i)
                 then to_front (con_ID c) r else r)) as Hnd1.
  { case_decide; [by apply to_front_NoDup|done]. }
  destruct (IH _ b1 _ Hok1 Hnd1 Hb1 Hids1) as (b' & Hb' & Hids').
  exists b'. split; [done|]. rewrite Hids'. f_equal. unfold for_bucket. rewrite fmap_cons. unfold bucketIndex.
  rewrite AddContact_self, filter_cons. cbn [compose snd]. unfold bucketIndex. repeat case_decide; done || tauto.
Qed.

(** ** [FindClosest] *)

Lemma closer_dist target x y :
  closer target x y = (dist target (con_ID x) <? dist target (con_ID y))%N.
Proof. apply less_loop_val. by rewrite !length_vec_to_list. Qed.

Lemma closer_weak_order target : weak_order (closer target).
Proof.
  split_and!; intros; rewrite !closer_dist in *; bool_to_Prop;
    apply N.ltb_lt || apply N.ltb_ge; lia.
Qed.

(** No identifier is in the table twice. *)
Lemma NoDup_buckets rt off bs :
  (∀ i b, bs !! i = Some b → bucket_ok rt (off + i) b) →
  NoDup (ids (mjoin bs)) ∧ Forall (λ c, off ≤ bucketIndex rt (con_ID c)) (mjoin bs).
Proof.
  revert off. induction bs as [|b bs IH]; intros off Hok; [by split; constructor|].
  destruct (IH (S off)) as [Hnd Hall]; [intros i b' Hb; rewrite Nat.add_succ_comm; by apply Hok|].
  destruct (Hok 0 b) as (_ & Hndb & Hallb); [done|]. rewrite Nat.add_0_r in Hallb.
  change (mjoin (b :: bs)) with (b ++ mjoin bs). rewrite ids_app. split.
  - apply NoDup_app. split_and!; [done| |done]. intros id Hb Hbs.
    apply list_elem_of_fmap in Hb as (c & -> & Hc). apply list_elem_of_fmap in Hbs as (c' & E & Hc').
    rewrite Forall_forall in Hall, Hallb. specialize (Hallb c Hc) as [_ Hi].
    specialize (Hall c' Hc'). simpl in Hall. rewrite E in Hi. lia.
  - apply Forall_app. split; eapply Forall_impl; try done; simpl; intros; lia || naive_solver lia.
Qed.

Lemma all_contacts_NoDup rt : rt_ok rt → NoDup (ids (all_contacts rt)).
Proof.
  intros [_ Hok]. unfold all_contacts.
  replace (bucket_all <$> buckets rt) with (buckets rt) by (symmetry; apply list_fmap_id).
  by apply (NoDup_buckets rt 0).
Qed.

(** Strictly closer: no two contacts of the table are equally far. *)
Definition nearer (target : ID) (x y : Contact) : Prop :=
  (dist target (con_ID x) < dist target (con_ID y))%N.

Lemma sorted_nearer target l :
  NoDup (ids l) → StronglySorted (λ x y, closer target y x = false) l →
  StronglySorted (nearer target) l.
Proof.
  intros Hnd Hs. induction Hs as [|x l Hs IH Hx]; [constructor|].
  rewrite ids_cons in Hnd. apply NoDup_cons in Hnd as [Hnin Hnd].
  constructor; [by apply IH|]. rewrite Forall_forall in *. intros y Hy. specialize (Hx y Hy).
  simpl in Hx. rewrite closer_dist in Hx. unfold nearer. bool_to_Prop.
  assert (dist target (con_ID x) ≠ dist target (con_ID y)); [|lia].
  intros E. apply (inj (dist target)) in E. apply Hnin. rewrite E. by apply list_elem_of_fmap_2.
Qed.

Lemma nearer_unique target l l' :
  StronglySorted (nearer target) l → StronglySorted (nearer target) l' → l ≡ₚ l' → l = l'.
Proof.
  assert (AntiSymm (=) (nearer target)) by (intros x y; unfold nearer; lia).
  intros. by eapply (StronglySorted_unique (nearer target)).
Qed.

Lemma FindClosest_sorted `{SortSlice} rt target n :
  rt_ok rt → (0 ≤ n)%Z →
  ∃ sorted, sorted ≡ₚ all_contacts rt ∧ StronglySorted (nearer target) sorted ∧
    FindClosest rt target n = Ok (take (Z.to_nat n) sorted).
Proof.
  intros Hok Hn. unfold FindClosest. pose proof (all_contacts_NoDup rt Hok) as Hnd.
  destruct (all_contacts rt) as [|c cs] eqn:E.
  { exists []. split_and!; [done|constructor|by rewrite take_nil]. }
  set (sorted := sort_Slice (closer target) (c :: cs)).
  assert (sorted ≡ₚ c :: cs) as Hp by apply sort_Slice_perm. exists sorted. split_and!; [done| |].
  - apply sorted_nearer; [unfold ids; by rewrite Hp|].
    apply sort_Slice_sorted, closer_weak_order.
  - destruct (Z.of_nat (length sorted) <? n)%Z eqn:El; bool_to_Prop.
    + destruct (Z.of_nat (length sorted) <? 0)%Z eqn:E0; bool_lia.
      by rewrite Nat2Z.id, !take_ge by lia.
    + by destruct (n <? 0)%Z eqn:E0; bool_lia.
Qed.

Lemma FindClosest_no_panic `{SortSlice} rt target n : (0 ≤ n)%Z → FindClosest rt target n ≠ Panic.
Proof.
  intros Hn. unfold FindClosest. destruct (all_contacts rt) as [|c cs]; [done|]. case_match; bool_lia;
    case_match; bool_lia; done.
Qed.

(** A contact that was added is in the table. *)
Lemma AddContact_elem now c rt :
  rt_ok rt → con_ID c ≠ rt_self rt → con_ID c ∈ ids (all_contacts (AddContact now c rt).1).
Proof.
  intros [Hlen Hok] Hne.
  destruct (AddContact_cases now c rt Hlen Hne) as (b & b' & Hb & Hseen & ->).
  unfold all_contacts. cbn [fst buckets].
  assert (con_ID c ∈ ids b') as Hin.
  { destruct (Hok _ _ Hb) as (Hl & Hnd & _). rewrite (seen_ids _ _ _ _ Hl Hnd Hseen).
    unfold to_front, K. simpl. by left. }
  apply list_elem_of_fmap in Hin as (x & Hcx & Hx). rewrite Hcx in *. apply list_elem_of_fmap_2.
  apply list_elem_of_join. exists b'. split; [done|]. apply list_elem_of_fmap. exists b'. split; [done|].
  apply (list_elem_of_lookup_2 _ (bucketIndex rt (con_ID x))).
  apply list_lookup_insert_eq. by apply lookup_lt_Some in Hb.
Qed.

Lemma sorted_split target l1 l2 :
  StronglySorted (nearer target) (l1 ++ l2) →
  StronglySorted (nearer target) l1 ∧ ∀ x y, x ∈ l1 → y ∈ l2 → nearer target x y.
Proof.
  induction l1 as [|z l1 IH]; simpl; [split; [constructor|by intros ?? ?%not_elem_of_nil]|].
  intros [Hs Hz]%StronglySorted_inv. apply IH in Hs as [Hs Hxy].
  rewrite Forall_app in Hz. destruct Hz as [Hz1 Hz2]. rewrite Forall_forall in Hz2.
  split; [by constructor|]. intros x y [->|Hx]%elem_of_cons Hy; auto.
Qed.

(** ** Properties *)

(** C10: whatever contacts are added, in whatever order, the table keeps its
    shape: 160 buckets of at most [K] contacts, each contact in the bucket of
    its distance, none twice, never the node itself; and adding one more never
    panics. *)
Theorem RoutingTable_invariant self h now c :
  let rt := add_all h (NewRoutingTable self) in
  rt_ok rt ∧ NoDup (ids (all_contacts rt)) ∧ (AddContact now c rt).2 = Ok tt.
Proof.
  cbn zeta. assert (rt_ok (add_all h (NewRoutingTable self))) as Hok
    by apply add_all_ok, NewRoutingTable_ok.
  split_and!; [done|by apply all_contacts_NoDup|by apply AddContact_no_panic].
Qed.

(** C27: each bucket is a least-recently-used cache: after any history of
    contacts, bucket [i] holds exactly the [K] most recently seen distinct
    identifiers whose distance to the node belongs to it, most recent first. *)
Theorem buckets_most_recent self h i :
  i < IDBits →
  ∃ b, buckets (add_all h (NewRoutingTable self)) !! i = Some b ∧
    ids b = take K (recency (for_bucket (NewRoutingTable self) i h) []).
Proof.
  intros Hi. apply (add_all_recency h (NewRoutingTable self) i []).
  - apply NewRoutingTable_ok.
  - constructor.
  - by apply lookup_replicate_2.
  - done.
Qed.

(** C28: what [AddContact] does to a correct table: a contact already known
    moves to the front with the new time but keeps its old address, even when
    the caller gives another one; a new contact is put in front with the
    caller's address, and only a full bucket loses its last entry; the node
    itself is ignored; no other bucket changes. *)
Theorem AddContact_effect now c rt :
  rt_ok rt →
  (con_ID c = rt_self rt ∧ AddContact now c rt = (rt, Ok tt)) ∨
  ∃ i b b', i = bucketIndex rt (con_ID c) ∧ buckets rt !! i = Some b ∧
    AddContact now c rt = (RT (rt_self rt) (<[i := b']> (buckets rt)), Ok tt) ∧
    ((∃ pre old post, b = pre ++ old :: post ∧ con_ID old = con_ID c ∧
        b' = Con (con_ID c) (con_Address old) now :: pre ++ post) ∨
     (con_ID c ∉ ids b ∧ length b < K ∧ b' = Con (con_ID c) (con_Address c) now :: b) ∨
     (con_ID c ∉ ids b ∧ ∃ kept last, b = kept ++ [last] ∧ length b = K ∧
        b' = Con (con_ID c) (con_Address c) now :: kept)).
Proof.
  intros [Hlen Hok]. destruct (decide (con_ID c = rt_self rt)) as [E|Hne]; [left|right].
  { split; [done|]. unfold AddContact. by rewrite ID_Equals_eq, bool_decide_eq_true_2. }
  destruct (AddContact_cases now c rt Hlen Hne) as (b & b' & Hb & Hseen & ->).
  exists (bucketIndex rt (con_ID c)), b, b'. split_and!; [done..|].
  destruct (Hok _ _ Hb) as (HK & _).
  destruct Hseen as [(pre & c0 & post & -> & Hid & ->)|[Hnin ->]].
  { left. exists pre, c0, post. by rewrite Hid. }
  right. destruct (decide (length b < K)) as [Hlt|Hge]; [left|right].
  - split_and!; [done|done|]. apply take_ge. simpl. lia.
  - split; [done|]. destruct b as [|last kept _] using rev_ind; [unfold K in Hge; simpl in Hge; lia|].
    exists kept, last. split_and!; [done|lia|]. rewrite length_app in Hge, HK. simpl in Hge, HK.
    replace K with (S (length kept)) by lia. cbn [take]. by rewrite take_app_length.
Qed.

(** C11: [FindClosest] answers the Kademlia question exactly: the result has
    [min n] of all contacts, is ordered by increasing distance to the target,
    and every contact left out is farther than every one returned; since no
    two contacts are equally far, the answer does not depend on the sorting
    algorithm, stable or not. *)
Theorem FindClosest_closest `{Hs : SortSlice} rt target n :
  rt_ok rt → (0 ≤ n)%Z →
  ∃ l rest, FindClosest rt target n = Ok l ∧ l ++ rest ≡ₚ all_contacts rt ∧
    length l = min (Z.to_nat n) (length (all_contacts rt)) ∧
    StronglySorted (nearer target) l ∧
    (∀ x y, x ∈ l → y ∈ rest → nearer target x y) ∧
    ∀ Hs' : SortSlice, FindClosest (H := Hs') rt target n = Ok l.
Proof.
  intros Hok Hn. destruct (FindClosest_sorted rt target n Hok Hn) as (sorted & Hp & Hsort & Hf).
  exists (take (Z.to_nat n) sorted), (drop (Z.to_nat n) sorted). rewrite take_drop.
  pose proof Hsort as Hsplit. rewrite <-(take_drop (Z.to_nat n)) in Hsplit.
  apply sorted_split in Hsplit as [Hs1 Hs2].
  split_and!; [done|done|by rewrite length_take, Hp|done|done|].
  intros Hs'. destruct (FindClosest_sorted (H := Hs') rt target n Hok Hn) as (sorted' & Hp' & Hsort' & ->).
  do 2 f_equal. eapply nearer_unique; [done|done|by rewrite Hp, Hp'].
Qed.

(** ** Witnesses *)

(** Identifiers that differ in their last byte. *)
Definition tiny_id (b : byte) : ID := copy_array 20 (replicate 19 x00 ++ [b]).

Definition sample_history : list (Time * Contact) :=
  [ (1, Con (tiny_id x05) "10.0.0.5:9000" 0); (2, Con (tiny_id x04) "10.0.0.4:9000" 0);
    (3, Con (tiny_id x08) "10.0.0.8:9000" 0); (4, Con (tiny_id x05) "10.0.0.55:9000" 0) ]%Z.
Definition sample_table : RoutingTable := add_all sample_history (NewRoutingTable (tiny_id x00)).

Lemma buckets_most_recent_witness :
  ∃ b, buckets sample_table !! 157 = Some b ∧ ids b = [tiny_id x05; tiny_id x04].
Proof.
  destruct (buckets_most_recent (tiny_id x00) sample_history 157) as (b & Hb & Hids);
    [unfold IDBits; lia|].
  exists b. split; [exact Hb|]. rewrite Hids. by vm_compute.
Defined.

Lemma AddContact_effect_witness :
  all_contacts (AddContact 5 (Con (tiny_id x08) "10.9.9.9:1" 0) sample_table).1
  = [Con (tiny_id x08) "10.0.0.8:9000" 5; Con (tiny_id x05) "10.0.0.5:9000" 4;
     Con (tiny_id x04) "10.0.0.4:9000" 2].
Proof.
  assert (rt_ok sample_table) as Hok by apply add_all_ok, NewRoutingTable_ok.
  destruct (AddContact_effect 5 (Con (tiny_id x08) "10.9.9.9:1" 0) sample_table Hok) as [[E _]|_];
    [apply (f_equal ID_val) in E; by vm_compute in E|by vm_compute].
Defined.

Lemma FindClosest_closest_witness :
  ∃ l, FindClosest sample_table (tiny_id x09) 2 = Ok l ∧ ids l = [tiny_id x08; tiny_id x05].
Proof.
  assert (rt_ok sample_table) as Hok by apply add_all_ok, NewRoutingTable_ok.
  destruct (FindClosest_closest sample_table (tiny_id x09) 2 Hok) as (l & rest & Hl & _); [lia|].
  exists l. split; [exact Hl|].
  assert (FindClosest sample_table (tiny_id x09) 2 =
    Ok [Con (tiny_id x08) "10.0.0.8:9000" 3; Con (tiny_id x05) "10.0.0.5:9000" 4]) as E by by vm_compute.
  rewrite E in Hl. by apply Ok_inv in Hl as <-.
Defined.
