(* ===== verification/Message.v ===== *)
(** * Messages (src/internal/dht/node.go, src/internal/p2p/types.go)

    The DHT message, the transport's envelope, and what the program relies on
    of [encoding/json]: [MessageCodec], which MessageJson.v implements. *)

From S2P Require Import Prelude Hex Sha256 ChunkId FileSys Store Reader Chunker FileMeta Id RoutingTable Json JsonValue Rfc3339.
From stdpp Require Import options.

(** ** Message types *)

Notation MessageType := string (only parsing).

Definition MsgPing : MessageType := "PING".
Definition MsgPong : MessageType := "PONG".
Definition MsgFindNode : MessageType := "FIND_NODE".
Definition MsgNodes : MessageType := "NODES".
Definition MsgStoreChunk : MessageType := "STORE_CHUNK".
Definition MsgStoreChunkResult : MessageType := "STORE_CHUNK_RESULT".
Definition MsgGetChunk : MessageType := "GET_CHUNK".
Definition MsgChunkData : MessageType := "CHUNK_DATA".
Definition MsgStoreFileProvider : MessageType := "STORE_FILE_PROVIDER".
Definition MsgGetFileProviders : MessageType := "GET_FILE_PROVIDERS".
Definition MsgFileProviders : MessageType := "FILE_PROVIDERS".
Definition MsgGetFileMeta : MessageType := "GET_FILE_META".
Definition MsgFileMeta : MessageType := "FILE_META".

(** ** The message

    [Target], [ChunkData] and [FileMeta] may be [nil]; for the slices of
    contacts the code never tells [nil] and empty apart. *)
Record Message := Msg {
  m_Type : MessageType;
  m_From : ID;
  m_Timestamp : Z;
  m_Target : option ID;
  m_Nodes : list Contact;
  m_ChunkID : string;
  m_ChunkData : option bytes;
  m_FileRoot : string;
  m_Providers : list Contact;
  m_FileMeta : option FileMeta;
  m_NodeAddr : string;
  m_Error : string;
  m_RequestID : string;
}.

(** [&Message{Type: t, From: from, Timestamp: ts}], the other fields zero. *)
Definition new_message (t : MessageType) (from : ID) (ts : Z) : Message :=
  Msg t from ts None [] "" None "" [] None "" "" "".

(** Field updates, in the order the composite literals are read. *)
Definition with_Target (id : ID) (m : Message) : Message :=
  Msg (m_Type m) (m_From m) (m_Timestamp m) (Some id) (m_Nodes m) (m_ChunkID m) (m_ChunkData m)
    (m_FileRoot m) (m_Providers m) (m_FileMeta m) (m_NodeAddr m) (m_Error m) (m_RequestID m).
Definition with_Nodes (l : list Contact) (m : Message) : Message :=
  Msg (m_Type m) (m_From m) (m_Timestamp m) (m_Target m) l (m_ChunkID m) (m_ChunkData m)
    (m_FileRoot m) (m_Providers m) (m_FileMeta m) (m_NodeAddr m) (m_Error m) (m_RequestID m).
Definition with_ChunkID (s : string) (m : Message) : Message :=
  Msg (m_Type m) (m_From m) (m_Timestamp m) (m_Target m) (m_Nodes m) s (m_ChunkData m)
    (m_FileRoot m) (m_Providers m) (m_FileMeta m) (m_NodeAddr m) (m_Error m) (m_RequestID m).
Definition with_ChunkData (b : bytes) (m : Message) : Message :=
  Msg (m_Type m) (m_From m) (m_Timestamp m) (m_Target m) (m_Nodes m) (m_ChunkID m) (Some b)
    (m_FileRoot m) (m_Providers m) (m_FileMeta m) (m_NodeAddr m) (m_Error m) (m_RequestID m).
Definition with_FileRoot (s : string) (m : Message) : Message :=
  Msg (m_Type m) (m_From m) (m_Timestamp m) (m_Target m) (m_Nodes m) (m_ChunkID m) (m_ChunkData m)
    s (m_Providers m) (m_FileMeta m) (m_NodeAddr m) (m_Error m) (m_RequestID m).
Definition with_Providers (l : list Contact) (m : Message) : Message :=
  Msg (m_Type m) (m_From m) (m_Timestamp m) (m_Target m) (m_Nodes m) (m_ChunkID m) (m_ChunkData m)
    (m_FileRoot m) l (m_FileMeta m) (m_NodeAddr m) (m_Error m) (m_RequestID m).
Definition with_FileMeta (f : FileMeta) (m : Message) : Message :=
  Msg (m_Type m) (m_From m) (m_Timestamp m) (m_Target m) (m_Nodes m) (m_ChunkID m) (m_ChunkData m)
    (m_FileRoot m) (m_Providers m) (Some f) (m_NodeAddr m) (m_Error m) (m_RequestID m).
Definition with_NodeAddr (s : string) (m : Message) : Message :=
  Msg (m_Type m) (m_From m) (m_Timestamp m) (m_Target m) (m_Nodes m) (m_ChunkID m) (m_ChunkData m)
    (m_FileRoot m) (m_Providers m) (m_FileMeta m) s (m_Error m) (m_RequestID m).
Definition with_Error (s : string) (m : Message) : Message :=
  Msg (m_Type m) (m_From m) (m_Timestamp m) (m_Target m) (m_Nodes m) (m_ChunkID m) (m_ChunkData m)
    (m_FileRoot m) (m_Providers m) (m_FileMeta m) (m_NodeAddr m) s (m_RequestID m).
Definition with_RequestID (s : string) (m : Message) : Message :=
  Msg (m_Type m) (m_From m) (m_Timestamp m) (m_Target m) (m_Nodes m) (m_ChunkID m) (m_ChunkData m)
    (m_FileRoot m) (m_Providers m) (m_FileMeta m) (m_NodeAddr m) (m_Error m) s.

(** ** The transport's envelope

    [Meta] is a [map[string]any], [nil] or not. A value of type [any] is kept as
    the JSON it is read from and written as: the program passes it on and never
    looks at it. *)
Record RPC := MkRPC {
  rpc_From : string;
  rpc_Stream : bool;
  rpc_Payload : bytes;
  rpc_Meta : option (gmap string json);
}.

(** The composite literals of the program leave [Meta] at [nil]. *)
Notation mkRPC from stream payload := (MkRPC from stream payload None).

(** [rpc.From = peer.Addr()] *)
Definition with_From (from : string) (rpc : RPC) : RPC :=
  MkRPC from (rpc_Stream rpc) (rpc_Payload rpc) (rpc_Meta rpc).

(** ** JSON

    [omitempty] drops a slice of length 0 and the reader leaves the field
    [nil], so an empty, non-nil [ChunkData] does not survive the wire. *)
Definition wire (m : Message) : Message :=
  Msg (m_Type m) (m_From m) (m_Timestamp m) (m_Target m) (m_Nodes m) (m_ChunkID m)
    (match m_ChunkData m with Some [] => None | d => d end)
    (m_FileRoot m) (m_Providers m) (m_FileMeta m) (m_NodeAddr m) (m_Error m) (m_RequestID m).

(** Texts that JSON carries unchanged: here, ASCII. *)
Fixpoint ascii_text (s : string) : bool :=
  match s with
  | "" => true
  | String a s' => (code a <? 128)%N && ascii_text s'
  end.

(** A number is read back as an [int] or [int64]; [json_time] (Rfc3339.v) says
    which times can be written. *)
Definition int_ok (z : Z) : bool := ((- 2 ^ 63 <=? z) && (z <? 2 ^ 63))%Z.

Definition plain_contact (c : Contact) : bool :=
  ascii_text (con_Address c) && json_time (con_LastSeen c).

Definition plain_chunk (c : ChunkMeta) : bool := int_ok (cm_Index c) && int_ok (cm_Size c).
Definition plain_meta (f : FileMeta) : bool := forallb plain_chunk (fm_Chunks f) && int_ok (fm_Size f).

Definition plain (m : Message) : bool :=
  ascii_text (m_Type m) && int_ok (m_Timestamp m) && forallb plain_contact (m_Nodes m)
  && ascii_text (m_ChunkID m) && ascii_text (m_FileRoot m) && forallb plain_contact (m_Providers m)
  && match m_FileMeta m with Some f => plain_meta f | None => true end
  && ascii_text (m_NodeAddr m) && ascii_text (m_Error m) && ascii_text (m_RequestID m).

(** Entries of a [Meta] that JSON carries: ASCII keys and JSON values whose
    numbers are [float64]s, nested less deep than the reader's limit. *)
Definition plain_entries : gmap string json → Prop :=
  map_Forall (λ k v, ascii_text k = true ∧ wf v = true ∧ any_fits v = true ∧ height v + 2 ≤ maxNestingDepth).
Definition plain_Meta (meta : option (gmap string json)) : Prop :=
  match meta with Some entries => plain_entries entries | None => True end.

Lemma plain_intro m :
  ascii_text (m_Type m) = true → int_ok (m_Timestamp m) = true → forallb plain_contact (m_Nodes m) = true →
  ascii_text (m_ChunkID m) = true → ascii_text (m_FileRoot m) = true →
  forallb plain_contact (m_Providers m) = true →
  match m_FileMeta m with Some f => plain_meta f = true | None => True end →
  ascii_text (m_NodeAddr m) = true → ascii_text (m_Error m) = true → ascii_text (m_RequestID m) = true →
  plain m = true.
Proof.
  intros H1 H2 H3 H4 H5 H6 H7 H8 H9 H10. unfold plain. rewrite H1, H2, H3, H4, H5, H6, H8, H9, H10.
  destruct (m_FileMeta m); [by rewrite H7|done].
Qed.

(** [Message.Encode] and [DecodeMessage] are [json.Marshal] and
    [json.Unmarshal] at the type [Message]. *)
Class MessageCodec := {
  Message_Encode : Message → res bytes;
  DecodeMessage : bytes → res Message;
  encode_no_panic m : Message_Encode m ≠ Panic;
  decode_no_panic b : DecodeMessage b ≠ Panic;
  message_roundtrip m : plain m = true →
    ∃ b, Message_Encode m = Ok b ∧ DecodeMessage b = Ok (wire m);
}.

Lemma wire_id m : m_ChunkData m ≠ Some [] → wire m = m.
Proof. destruct m as [? ? ? ? ? ? [[|]|] ? ? ? ? ? ?]; by simpl. Qed.
