(* ===== verification/MessageJson.v ===== *)
(** * Messages as JSON (the struct tags of src/internal/dht/node.go)

    [json.Marshal] and [json.Unmarshal] at the type [Message], and that they
    satisfy what [MessageCodec] says of them. *)

From S2P Require Import Prelude Hex Sha256 ChunkId FileSys Store Reader Chunker FileMeta Id RoutingTable Message Json JsonString Rfc3339 JsonValue.
From stdpp Require Import list options.

(** ** Writing *)

Section Encode.
Context `{LocalZone}.

Definition enc_contact (c : Contact) : option json :=
  t ← enc_time (con_LastSeen c);
  Some (JObj [field "ID" (enc_array (vec_to_list (con_ID c))); field "Address" (enc_string (con_Address c));
              field "LastSeen" t]).

Definition enc_chunk (c : ChunkMeta) : json :=
  JObj [field "Index" (enc_int (cm_Index c)); field "ID" (enc_array (vec_to_list (cm_ID c)));
        field "Size" (enc_int (cm_Size c))].

(** A file without chunks has the [nil] slice. *)
Definition enc_chunks (l : list ChunkMeta) : json :=
  match l with [] => JNull | l => JArr (enc_chunk <$> l) end.

Definition enc_meta (f : FileMeta) : json :=
  JObj [field "root" (enc_array (vec_to_list (fm_Root f)));
        field "chunks" (enc_chunks (fm_Chunks f));
        field "size" (enc_int (fm_Size f))].

Definition is_empty {A} (l : list A) : bool := match l with [] => true | _ => false end.

(** The fields that may be left out and are no texts. *)
Definition target_fields (id : option ID) : list (bytes * json) :=
  match id with Some id => [field "target" (enc_array (vec_to_list id))] | None => [] end.
Definition data_fields (d : option bytes) : list (bytes * json) :=
  match d with Some (c :: b) => [field "chunk_data" (enc_slice (c :: b))] | _ => [] end.
Definition meta_fields (f : option FileMeta) : list (bytes * json) :=
  match f with Some f => [field "file_meta" (enc_meta f)] | None => [] end.

Definition enc_message (m : Message) : option json :=
  nodes ← mapM enc_contact (m_Nodes m);
  providers ← mapM enc_contact (m_Providers m);
  let opt name s := omit (is_empty (text s)) name (enc_string s) in
  Some (JObj (
    [field "type" (enc_string (m_Type m)); field "from" (enc_array (vec_to_list (m_From m)));
     field "ts" (enc_int (m_Timestamp m))]
    ++ target_fields (m_Target m)
    ++ omit (is_empty nodes) "nodes" (JArr nodes)
    ++ opt "chunk_id" (m_ChunkID m)
    ++ data_fields (m_ChunkData m)
    ++ opt "file_root" (m_FileRoot m)
    ++ omit (is_empty providers) "providers" (JArr providers)
    ++ meta_fields (m_FileMeta m)
    ++ opt "node_addr" (m_NodeAddr m)
    ++ opt "error" (m_Error m)
    ++ opt "req_id" (m_RequestID m))).
End Encode.

(** ** Reading *)

Definition set_contact (i : nat) (j : json) (c : Contact) : option Contact :=
  match i with
  | 0 => id ← dec_array j (con_ID c); Some (Con id (con_Address c) (con_LastSeen c))
  | 1 => a ← dec_string j (con_Address c); Some (Con (con_ID c) a (con_LastSeen c))
  | _ => t ← dec_time j (con_LastSeen c); Some (Con (con_ID c) (con_Address c) t)
  end.

Definition zero_contact : Contact := Con zero_ID "" zero_Time.
Definition dec_contact : json → Contact → option Contact := dec_struct ["ID"; "Address"; "LastSeen"] set_contact.

Definition set_chunk (i : nat) (j : json) (c : ChunkMeta) : option ChunkMeta :=
  match i with
  | 0 => z ← dec_int j (cm_Index c); Some (CM z (cm_ID c) (cm_Size c))
  | 1 => id ← dec_array j (cm_ID c); Some (CM (cm_Index c) id (cm_Size c))
  | _ => z ← dec_int j (cm_Size c); Some (CM (cm_Index c) (cm_ID c) z)
  end.

Definition zero_chunk : ChunkMeta := CM 0 (copy_array 32 []) 0.
Definition dec_chunk : json → ChunkMeta → option ChunkMeta := dec_struct ["Index"; "ID"; "Size"] set_chunk.

Definition set_meta (i : nat) (j : json) (f : FileMeta) : option FileMeta :=
  match i with
  | 0 => r ← dec_array j (fm_Root f); Some (FM r (fm_Chunks f) (fm_Size f))
  | 1 => l ← dec_list dec_chunk zero_chunk j; Some (FM (fm_Root f) l (fm_Size f))
  | _ => z ← dec_int j (fm_Size f); Some (FM (fm_Root f) (fm_Chunks f) z)
  end.

Definition zero_meta : FileMeta := FM (copy_array 32 []) [] 0.
Definition dec_meta : json → FileMeta → option FileMeta := dec_struct ["root"; "chunks"; "size"] set_meta.

Definition message_fields : list string :=
  ["type"; "from"; "ts"; "target"; "nodes"; "chunk_id"; "chunk_data"; "file_root"; "providers"; "file_meta";
   "node_addr"; "error"; "req_id"].

Definition set_message (i : nat) (j : json) (m : Message) : option Message :=
  let '(Msg ty from ts tg ns ci cd fr ps fm na er rq) := m in
  match i with
  | 0 => ty ← dec_string j ty; Some (Msg ty from ts tg ns ci cd fr ps fm na er rq)
  | 1 => from ← dec_array j from; Some (Msg ty from ts tg ns ci cd fr ps fm na er rq)
  | 2 => ts ← dec_int j ts; Some (Msg ty from ts tg ns ci cd fr ps fm na er rq)
  | 3 => tg ← dec_pointer dec_array zero_ID j tg; Some (Msg ty from ts tg ns ci cd fr ps fm na er rq)
  | 4 => ns ← dec_list dec_contact zero_contact j; Some (Msg ty from ts tg ns ci cd fr ps fm na er rq)
  | 5 => ci ← dec_string j ci; Some (Msg ty from ts tg ns ci cd fr ps fm na er rq)
  | 6 => cd ← dec_bytes j; Some (Msg ty from ts tg ns ci cd fr ps fm na er rq)
  | 7 => fr ← dec_string j fr; Some (Msg ty from ts tg ns ci cd fr ps fm na er rq)
  | 8 => ps ← dec_list dec_contact zero_contact j; Some (Msg ty from ts tg ns ci cd fr ps fm na er rq)
  | 9 => fm ← dec_pointer dec_meta zero_meta j fm; Some (Msg ty from ts tg ns ci cd fr ps fm na er rq)
  | 10 => na ← dec_string j na; Some (Msg ty from ts tg ns ci cd fr ps fm na er rq)
  | 11 => er ← dec_string j er; Some (Msg ty from ts tg ns ci cd fr ps fm na er rq)
  | _ => rq ← dec_string j rq; Some (Msg ty from ts tg ns ci cd fr ps fm na er rq)
  end.

Definition dec_message : json → Message → option Message := dec_struct message_fields set_message.

(** [var m Message] *)
Definition zero_message : Message := new_message "" zero_ID 0.

(** ** The methods *)

Definition json_Encode `{LocalZone} (m : Message) : res bytes :=
  match enc_message m with
  | Some j => Ok (json_print j)
  | None => Err (EMsg "json: error calling MarshalJSON for type time.Time: Time.MarshalJSON: year outside of range [0,9999]")
  end.

Definition json_DecodeMessage (b : bytes) : res Message :=
  match json_parse b with
  | None => Err (EMsg "invalid JSON")
  | Some j =>
      match dec_message j zero_message with
      | Some m => Ok m
      | None => Err (EMsg "json: cannot unmarshal")
      end
  end.

(** ** The parts of a message *)

Lemma ascii_text_valid s : ascii_text s = true → valid_utf8 (text s) = true.
Proof.
  intros H. apply ascii_valid. induction s as [|a s IH]; [constructor|]. rewrite text_cons.
  cbn [ascii_text] in H. apply andb_true_iff in H as [Ha Hs]. constructor; [|by apply IH].
  rewrite byteN_of_ascii. by apply N.ltb_lt.
Qed.

Lemma int_ok_is z : int_ok z = true → is_int z.
Proof. unfold int_ok, is_int. intros H. bool_to_Prop. lia. Qed.

Lemma text_empty s : is_empty (text s) = true → s = "".
Proof. by destruct s. Qed.

Lemma dec_cons {T} names (set : nat → json → T → option T) i name j l v v' :
  key_index names (quote (text name)) = Some i → set i j v = Some v' →
  dec_fields names set (field name j :: l) v = dec_fields names set l v'.
Proof. intros Hi Hv. cbn [dec_fields field]. by rewrite Hi, Hv. Qed.

(** A JSON value that the scanner reads back and that nests at most [h] deep. *)
Definition good (h : nat) (j : json) : Prop := wf j = true ∧ (height j <= h)%nat.

Lemma good_array b : good 1 (enc_array b).
Proof. split; [apply enc_array_wf|apply enc_array_height]. Qed.

Lemma good_int z : good 0 (enc_int z).
Proof. split; [apply enc_int_wf|done]. Qed.

Lemma good_string s : good 0 (enc_string s).
Proof. split; [apply quote_ok|done]. Qed.

Lemma good_plain s : Forall (λ c, plain_char c = true) s → good 0 (JStr s).
Proof. intros H. split; [by apply plain_ok|done]. Qed.

Lemma good_mono h h' j : good h j → (h <= h')%nat → good h' j.
Proof. intros [Hw Hh] Hle. split; [done|lia]. Qed.

Lemma good_list h l : Forall (good h) l → good (S h) (JArr l).
Proof.
  intros H. split.
  - cbn [wf]. rewrite forallb_forall. intros j Hj. rewrite Forall_forall in H. by apply H, list_elem_of_In.
  - cbn [height]. apply le_n_S. induction H as [|j l [_ Hj] Hl IH]; simpl; lia.
Qed.

Lemma good_object h l : Forall (λ kv, ∃ name j, kv = field name j ∧ good h j) l → good (S h) (JObj l).
Proof.
  intros H. split.
  - cbn [wf]. rewrite forallb_forall. intros [k j] Hj. rewrite Forall_forall in H.
    apply list_elem_of_In, H in Hj as (name & j' & [= -> ->] & Hw & _). by rewrite quote_ok.
  - cbn [height]. apply le_n_S. induction H as [|[k j] l (name & j' & [= -> ->] & _ & Hj) Hl IH]; simpl; lia.
Qed.

Lemma good_field {P} h name j : good h j → P = field name j → ∃ name' j', P = field name' j' ∧ good h j'.
Proof. intros Hj ->. by exists name, j. Qed.

#[export] Hint Resolve good_array good_int good_string good_plain : json.

(** Proves that the fields of an object are good. *)
Ltac good_fields :=
  repeat (apply Forall_cons; split; [eexists _, _; split; [reflexivity|
    eapply good_mono; [eauto with json|lia]]|]); apply Forall_nil; exact I.

Section Parts.
Context `{LocalZone}.

Lemma contact_roundtrip c :
  plain_contact c = true →
  ∃ j, enc_contact c = Some j ∧ good 2 j ∧ dec_contact j zero_contact = Some c.
Proof.
  destruct c as [id addr t]. unfold plain_contact. cbn [con_Address con_LastSeen]. intros [Ha Ht]%andb_true_iff.
  destruct (dec_time_enc t zero_Time Ht) as (s & _ & Hs & He & Hd). unfold enc_contact. cbn [con_LastSeen].
  rewrite He. cbn [mbind option_bind con_ID con_Address]. eexists. split; [done|]. split.
  - apply good_object. good_fields.
  - unfold dec_contact, dec_struct, zero_contact.
    erewrite (dec_cons _ _ 0); [|reflexivity|cbn [set_contact]; rewrite dec_array_enc; reflexivity].
    erewrite (dec_cons _ _ 1); [|reflexivity|cbn [set_contact]; rewrite dec_string_enc by
      (by apply ascii_text_valid); reflexivity].
    erewrite (dec_cons _ _ 2); [|reflexivity|cbn [set_contact con_LastSeen mbind option_bind]; rewrite Hd; reflexivity].
    done.
Qed.

Lemma chunk_roundtrip c :
  plain_chunk c = true → good 2 (enc_chunk c) ∧ dec_chunk (enc_chunk c) zero_chunk = Some c.
Proof.
  destruct c as [i id z]. unfold plain_chunk. cbn [cm_Index cm_Size]. intros [Hi Hz]%andb_true_iff. split.
  - apply good_object. good_fields.
  - unfold dec_chunk, dec_struct, zero_chunk, enc_chunk. cbn [cm_Index cm_ID cm_Size].
    erewrite (dec_cons _ _ 0); [|reflexivity|cbn [set_chunk]; rewrite dec_int_enc by (by apply int_ok_is); reflexivity].
    erewrite (dec_cons _ _ 1); [|reflexivity|cbn [set_chunk]; rewrite dec_array_enc; reflexivity].
    erewrite (dec_cons _ _ 2); [|reflexivity|cbn [set_chunk]; rewrite dec_int_enc by (by apply int_ok_is); reflexivity].
    done.
Qed.

Lemma meta_roundtrip f :
  plain_meta f = true → good 4 (enc_meta f) ∧ dec_meta (enc_meta f) zero_meta = Some f.
Proof.
  destruct f as [r l z]. unfold plain_meta. cbn [fm_Chunks fm_Size]. intros [Hl Hz]%andb_true_iff.
  rewrite forallb_forall in Hl.
  assert (good 3 (enc_chunks l)) as Hg.
  { destruct l as [|c l']; [by split; [done|simpl; lia]|]. change (enc_chunks (c :: l')) with (JArr (enc_chunk <$> c :: l')). apply good_list. apply Forall_fmap, Forall_forall.
    intros x Hx. apply chunk_roundtrip, Hl. by apply list_elem_of_In. }
  split.
  - apply good_object. cbn [fm_Root fm_Chunks fm_Size]. good_fields.
  - unfold dec_meta, dec_struct, zero_meta, enc_meta. cbn [fm_Root fm_Chunks fm_Size].
    erewrite (dec_cons _ _ 0); [|reflexivity|cbn [set_meta]; rewrite dec_array_enc; reflexivity].
    erewrite (dec_cons _ _ 1 _ _ _ _ (FM r l 0)); [|reflexivity|].
    2:{ cbn [set_meta fm_Root fm_Size mbind option_bind].
        assert (dec_list dec_chunk zero_chunk (enc_chunks l) = Some l) as ->; [|done].
        destruct l as [|c l']; [done|]. change (enc_chunks (c :: l')) with (JArr (enc_chunk <$> c :: l')).
        apply (dec_list_enc _ (λ c, Some (enc_chunk c))).
        - clear. generalize (c :: l'). intros l. apply mapM_Some. induction l; constructor; done.
        - intros x j Hx [= <-]. apply chunk_roundtrip, Hl. by apply list_elem_of_In. }
    erewrite (dec_cons _ _ 2); [|reflexivity|cbn [set_meta]; rewrite dec_int_enc by (by apply int_ok_is); reflexivity].
    done.
Qed.

Lemma contacts_roundtrip l :
  forallb plain_contact l = true →
  ∃ js, mapM enc_contact l = Some js ∧ good 3 (JArr js) ∧ length js = length l ∧
    dec_list dec_contact zero_contact (JArr js) = Some l.
Proof.
  intros Hl. rewrite forallb_forall in Hl.
  assert (∃ js, mapM enc_contact l = Some js ∧ Forall (good 2) js) as (js & Hjs & Hg).
  { induction l as [|c l IH]; [by exists []|]. destruct (contact_roundtrip c) as (j & Hj & Hg & _).
    { apply Hl. by left. }
    destruct IH as (js & Hjs & Hgs). { intros x Hx. apply Hl. by right. }
    exists (j :: js). cbn [mapM]. rewrite Hj. cbn [mbind option_bind]. rewrite Hjs. by split; [|constructor]. }
  exists js. split_and!; [done|by apply good_list| |].
  - symmetry. apply mapM_Some in Hjs. by eapply Forall2_length.
  - eapply dec_list_enc; [done|]. intros x j Hx Hj. destruct (contact_roundtrip x) as (j' & Hj' & _ & Hd).
    { apply Hl. by apply list_elem_of_In. }
    rewrite Hj in Hj'. by injection Hj' as <-.
Qed.
End Parts.

(** ** The message *)

Definition good_fields_of (h : nat) (l : list (bytes * json)) : Prop :=
  Forall (λ kv, ∃ name j, kv = field name j ∧ good h j) l.

Lemma good_one h name j : good h j → good_fields_of h [field name j].
Proof. intros H. apply Forall_cons. split; [by exists name, j|done]. Qed.

Lemma good_omit h b name j : good h j → good_fields_of h (omit b name j).
Proof. intros H. destruct b; [constructor|by apply good_one]. Qed.

(** A text that is left out when it is empty. *)
Lemma dec_text {T} names (set : nat → json → T → option T) i name s v v' :
  (s = "" → v = v') → key_index names (quote (text name)) = Some i → set i (enc_string s) v = Some v' →
  dec_fields names set (omit (is_empty (text s)) name (enc_string s)) v = Some v'.
Proof.
  intros Hv Hi Hs. apply (dec_omit _ _ i); [|done|done]. intros E. by apply Hv, text_empty.
Qed.

Lemma dec_pointer_new {T} (dec : json → T → option T) zero j v :
  dec j zero = Some v → j ≠ JNull → dec_pointer dec zero j None = Some (Some v).
Proof. intros H Hj. unfold dec_pointer. destruct j; [done|..]; cbn [default]; by rewrite H. Qed.

Section Message.
Context `{LocalZone}.

(** [json.Unmarshal] gives back the message [json.Marshal] wrote. *)
Lemma message_json m :
  plain m = true →
  ∃ j, enc_message m = Some j ∧ good 5 j ∧ dec_message j zero_message = Some (wire m).
Proof.
  destruct m as [ty from ts tg ns ci cd fr ps fm na er rq]. unfold plain.
  cbn [m_Type m_From m_Timestamp m_Target m_Nodes m_ChunkID m_ChunkData m_FileRoot m_Providers m_FileMeta
       m_NodeAddr m_Error m_RequestID].
  intros Hp. rewrite !andb_true_iff in Hp. destruct Hp as (((((((((Hty & Hts) & Hns) & Hci) & Hfr) & Hps) & Hfm) & Hna) & Her) & Hrq).
  apply ascii_text_valid in Hty, Hci, Hfr, Hna, Her, Hrq. apply int_ok_is in Hts.
  destruct (contacts_roundtrip ns Hns) as (nodes & Hn1 & Hn2 & Hn3 & Hn4).
  destruct (contacts_roundtrip ps Hps) as (provs & Hp1 & Hp2 & Hp3 & Hp4).
  unfold enc_message.
  cbn [m_Type m_From m_Timestamp m_Target m_Nodes m_ChunkID m_ChunkData m_FileRoot m_Providers m_FileMeta
       m_NodeAddr m_Error m_RequestID].
  rewrite Hn1, Hp1. cbn [mbind option_bind]. eexists. split; [done|]. split.
  - apply good_object. fold (good_fields_of 4).
    assert (good 4 (JArr nodes) ∧ good 4 (JArr provs)) as [Hgn Hgp]
      by (split; eapply good_mono; [exact Hn2|lia|exact Hp2|lia]).
    assert (∀ s, good 4 (enc_string s)) as Hgs by (intros; eapply good_mono; [eauto with json|lia]).
    assert (∀ b, good 4 (enc_array b)) as Hga by (intros; eapply good_mono; [eauto with json|lia]).
    assert (∀ z, good 4 (enc_int z)) as Hgi by (intros; eapply good_mono; [eauto with json|lia]).
    unfold good_fields_of, target_fields, data_fields, meta_fields. rewrite !Forall_app. repeat split; try apply good_omit; try done.
    + repeat (apply Forall_cons; split; [by eexists _, _|]). by apply Forall_nil.
    + destruct tg; [by apply good_one|done].
    + destruct cd as [[|]|]; [done| |done]. apply good_one. eapply good_mono; [apply good_plain, b64_plain|lia].
    + destruct fm; [|done]. apply good_one. by apply meta_roundtrip.
  - unfold dec_message, dec_struct, zero_message, new_message, wire.
    cbn [m_Type m_From m_Timestamp m_Target m_Nodes m_ChunkID m_ChunkData m_FileRoot m_Providers m_FileMeta
       m_NodeAddr m_Error m_RequestID].
    unfold target_fields, data_fields, meta_fields. cbn [app].
    erewrite (dec_cons _ _ 0); [|reflexivity|cbn [set_message]; rewrite dec_string_enc by done; reflexivity].
    erewrite (dec_cons _ _ 1); [|reflexivity|cbn [set_message]; rewrite dec_array_enc; reflexivity].
    erewrite (dec_cons _ _ 2); [|reflexivity|cbn [set_message]; rewrite dec_int_enc by done; reflexivity].
    rewrite (dec_fields_app _ _ _ _ _ (Msg ty from ts tg [] "" None "" [] None "" "" "")).
    2:{ destruct tg; [|done]. apply (dec_field _ _ 3); [done|]. cbn [set_message].
        by rewrite (dec_pointer_new _ _ _ t (dec_array_enc t zero_ID)) by done. }
    rewrite (dec_fields_app _ _ _ _ _ (Msg ty from ts tg ns "" None "" [] None "" "" "")).
    2:{ apply (dec_omit _ _ 4); [|done|cbn [set_message]; by rewrite Hn4].
        destruct nodes; [|done]. by destruct ns. }
    rewrite (dec_fields_app _ _ _ _ _ (Msg ty from ts tg ns ci None "" [] None "" "" "")).
    2:{ apply (dec_text _ _ 5); [by intros ->|done|cbn [set_message]; by rewrite dec_string_enc]. }
    set (cd' := match cd with Some (b :: l) => Some (b :: l) | _ => None end).
    rewrite (dec_fields_app _ _ _ _ _ (Msg ty from ts tg ns ci cd' "" [] None "" "" "")).
    2:{ destruct cd as [[|b cd]|]; [done| |done]. apply (dec_field _ _ 6); [done|].
        cbn [set_message]. by rewrite dec_bytes_enc. }
    rewrite (dec_fields_app _ _ _ _ _ (Msg ty from ts tg ns ci cd' fr [] None "" "" "")).
    2:{ apply (dec_text _ _ 7); [by intros ->|done|cbn [set_message]; by rewrite dec_string_enc]. }
    rewrite (dec_fields_app _ _ _ _ _ (Msg ty from ts tg ns ci cd' fr ps None "" "" "")).
    2:{ apply (dec_omit _ _ 8); [|done|cbn [set_message]; by rewrite Hp4].
        destruct provs; [|done]. by destruct ps. }
    rewrite (dec_fields_app _ _ _ _ _ (Msg ty from ts tg ns ci cd' fr ps fm "" "" "")).
    2:{ destruct fm as [f|]; [|done]. apply (dec_field _ _ 9); [done|]. cbn [set_message].
        destruct (meta_roundtrip f Hfm) as [_ E]. by rewrite (dec_pointer_new _ _ _ f E) by done. }
    rewrite (dec_fields_app _ _ _ _ _ (Msg ty from ts tg ns ci cd' fr ps fm na "" "")).
    2:{ apply (dec_text _ _ 10); [by intros ->|done|cbn [set_message]; by rewrite dec_string_enc]. }
    rewrite (dec_fields_app _ _ _ _ _ (Msg ty from ts tg ns ci cd' fr ps fm na er "")).
    2:{ apply (dec_text _ _ 11); [by intros ->|done|cbn [set_message]; by rewrite dec_string_enc]. }
    apply (dec_text _ _ 12); [by intros ->|done|cbn [set_message]; by rewrite dec_string_enc].
Qed.

End Message.

#[export] Instance json_codec `{LocalZone} : MessageCodec.
Proof.
  refine {| Message_Encode := json_Encode; DecodeMessage := json_DecodeMessage |}.
  - intros m. unfold json_Encode. by destruct (enc_message m).
  - intros b. unfold json_DecodeMessage. destruct (json_parse b); [|done]. by destruct (dec_message _ _).
  - intros m Hm. destruct (message_json m Hm) as (j & Hj & [Hwf Hh] & Hd). exists (json_print j).
    unfold json_Encode, json_DecodeMessage. rewrite Hj. split; [done|].
    rewrite json_roundtrip; [by rewrite Hd|done|]. etransitivity; [exact Hh|].
    unfold maxNestingDepth. lia.
Defined.

(** A codec for the witnesses: a node in UTC. *)
#[export] Instance utc_codec : MessageCodec := @json_codec utc.

(** ** Properties *)

(** C17: [Message.Encode] writes every message the program builds (ASCII texts,
    64-bit numbers, times of the years 0 to 9999), in any time zone, as JSON from
    which [DecodeMessage] gives the same message back; only an empty, non-nil
    [ChunkData] comes back as [nil]. *)
Theorem message_encode_decode `{LocalZone} m :
  plain m = true → ∃ b, json_Encode m = Ok b ∧ json_DecodeMessage b = Ok (wire m).
Proof.
  intros Hm. destruct (message_json m Hm) as (j & Hj & [Hwf Hh] & Hd). exists (json_print j).
  unfold json_Encode, json_DecodeMessage. rewrite Hj. split; [done|].
  rewrite json_roundtrip; [by rewrite Hd|done|]. etransitivity; [exact Hh|].
  unfold maxNestingDepth. lia.
Qed.

(** A message with every kind of field, in a zone five and a half hours east. *)
Definition india : LocalZone.
Proof. by refine {| zone_offset _ := 330%Z |}. Defined.

Definition sample_message : Message :=
  Msg MsgNodes (copy_array 20 [x01]) 1700000000 (Some (copy_array 20 [x02]))
    [Con (copy_array 20 [xff]) "10.0.0.1:4000" (1700000000123456000)%Z] "ab" (Some [x61; x00; xff])
    "root" [] (Some (FM (copy_array 32 []) [CM 0 (copy_array 32 [x07]) 262144] 262144)) "a<b&c" "quote ' and \" "r1".

Lemma message_encode_decode_witness :
  ∃ b, @json_Encode india sample_message = Ok b ∧ json_DecodeMessage b = Ok (wire sample_message).
Proof. apply (@message_encode_decode india). vm_compute. reflexivity. Defined.
