(* ===== verification/Node.v ===== *)
(** * The DHT node (src/internal/dht/node.go)

    The node's state and [HandleRPC], one definition per message type. The
    node is generic in the implementation of the chunk store. [now i] is what
    the [i]-th call site of [time.Now()] returns. *)

From S2P Require Import Prelude Hex Sha256 ChunkId FileSys Store Reader Chunker FileMeta Id RoutingTable Message Rfc3339 MessageJson.
From stdpp Require Import list sorting options.

Record Node (S : Type) := MkNode {
  n_id : ID;
  n_rt : RoutingTable;
  n_store : option S;
  n_addr : string;
  n_fileProviders : gmap string (list Contact);
  n_fileMeta : gmap string FileMeta;
}.
Arguments MkNode {S} _ _ _ _ _ _.
Arguments n_id {S} _.
Arguments n_rt {S} _.
Arguments n_store {S} _.
Arguments n_addr {S} _.
Arguments n_fileProviders {S} _.
Arguments n_fileMeta {S} _.

(** [Time.Unix] *)
Definition Unix (t : Time) : Z := t / 10 ^ 9.

Section Node.
Context {S : Type} `{ChunkStore S} `{SortSlice} `{MessageCodec}.

Definition NewNode (id : ID) : Node S := MkNode id (NewRoutingTable id) None "" ∅ ∅.

Definition SetNodeAddr (addr : string) (n : Node S) : Node S :=
  MkNode (n_id n) (n_rt n) (n_store n) addr (n_fileProviders n) (n_fileMeta n).
Definition SetStore (st : option S) (n : Node S) : Node S :=
  MkNode (n_id n) (n_rt n) st (n_addr n) (n_fileProviders n) (n_fileMeta n).

(** Operations on one part of the node. *)
Definition on_rt {A} (m : M RoutingTable A) : M (Node S) A := λ n,
  match m (n_rt n) with
  | (rt, r) => (MkNode (n_id n) rt (n_store n) (n_addr n) (n_fileProviders n) (n_fileMeta n), r)
  end.

Definition ask {A} (f : Node S → res A) : M (Node S) A := λ n, (n, f n).
Definition get_node : M (Node S) (Node S) := ask Ok.

Definition StoreLocalChunk (data : bytes) : M (Node S) ChunkID := λ n,
  match n_store n with
  | None => (n, Err (EMsg "StoreLocalChunk: no store configured"))
  | Some s => match PutChunk data s with (s', r) => (SetStore (Some s') n, r) end
  end.

Definition GetLocalChunk (id : ChunkID) (n : Node S) : res bytes :=
  match n_store n with
  | None => Err (EMsg "GetLocalChunk: no store configured")
  | Some s => GetChunk id s
  end.

(** [existing.ID.Equals(c.ID) && existing.Address == c.Address] *)
Definition same_provider (c existing : Contact) : bool :=
  ID_Equals (con_ID existing) (con_ID c) && bool_decide (con_Address existing = con_Address c).

Definition addFileProvider (rootHex : string) (c : Contact) (n : Node S) : Node S :=
  let list := default [] (n_fileProviders n !! rootHex) in
  if existsb (same_provider c) list then n
  else MkNode (n_id n) (n_rt n) (n_store n) (n_addr n)
         (<[rootHex := list ++ [c]]> (n_fileProviders n)) (n_fileMeta n).

Definition getFileProviders (rootHex : string) (n : Node S) : list Contact :=
  default [] (n_fileProviders n !! rootHex).

Definition addFileMeta (meta : option FileMeta) (n : Node S) : Node S :=
  match meta with
  | None => n
  | Some meta =>
      MkNode (n_id n) (n_rt n) (n_store n) (n_addr n) (n_fileProviders n)
        (<[ChunkID_String (fm_Root meta) := meta]> (n_fileMeta n))
  end.

Definition getFileMeta (rootHex : string) (n : Node S) : option FileMeta := n_fileMeta n !! rootHex.

(** [addr := rpc.From; if msg.NodeAddr != "" { addr = msg.NodeAddr }] *)
Definition sender_addr (rpc : RPC) (msg : Message) : string :=
  if bool_decide (m_NodeAddr msg ≠ "") then m_NodeAddr msg else rpc_From rpc.

(** [if !id.Equals(n.id) { n.rt.AddContact(Contact{ID: id, Address: addr}) }] *)
Definition learn (now : Time) (id : ID) (addr : string) : M (Node S) unit :=
  n ← get_node;
  if negb (ID_Equals id (n_id n)) then on_rt (AddContact now (Con id addr zero_Time)) else mret tt.

(** The fields every response of the node has. *)
Definition response (t : MessageType) (now : Time) (n : Node S) : Message :=
  with_NodeAddr (n_addr n) (new_message t (n_id n) (Unix now)).

(** ** One handler per message type *)

Definition handle_Ping (now : nat → Time) (rpc : RPC) (msg : Message) : M (Node S) (option Message) :=
  _ ← learn (now 0) (m_From msg) (sender_addr rpc msg);
  n ← get_node;
  mret (Some (response MsgPong (now 1) n)).

Definition handle_Pong (now : nat → Time) (rpc : RPC) (msg : Message) : M (Node S) (option Message) :=
  _ ← learn (now 0) (m_From msg) (sender_addr rpc msg);
  mret None.

Definition handle_FindNode (now : nat → Time) (rpc : RPC) (msg : Message) :
    M (Node S) (option Message) :=
  match m_Target msg with
  | None => fail (EMsg "HandleRPC: FIND_NODE missing target")
  | Some target =>
      _ ← learn (now 0) (m_From msg) (sender_addr rpc msg);
      n ← get_node;
      closest ← ask (λ n, FindClosest (n_rt n) target (Z.of_nat K));
      mret (Some (with_Nodes closest (response MsgNodes (now 1) n)))
  end.

(** [for _, c := range msg.Nodes]; [now (i + k)] at the [k]-th contact. *)
Fixpoint learn_all (now : nat → Time) (i : nat) (nodes : list Contact) : M (Node S) unit :=
  match nodes with
  | [] => mret tt
  | c :: rest => _ ← learn (now i) (con_ID c) (con_Address c); learn_all now (i + 1) rest
  end.

Definition handle_Nodes (now : nat → Time) (rpc : RPC) (msg : Message) : M (Node S) (option Message) :=
  _ ← learn_all now 1 (m_Nodes msg);
  _ ← learn (now 0) (m_From msg) (sender_addr rpc msg);
  mret None.

(** The outcome of [n.StoreLocalChunk(msg.ChunkData)], reported in [answer]. *)
Definition store_answer (data : bytes) (answer : Message) : M (Node S) (option Message) := λ n,
  match StoreLocalChunk data n with
  | (n', Err e) => (n', Ok (Some (with_Error ("store error: " +:+ Error e) answer)))
  | (n', Ok cid) => (n', Ok (Some (with_ChunkID (ChunkID_String cid) answer)))
  | (n', Panic) => (n', Panic)
  end.

Definition handle_StoreChunk (now : nat → Time) (msg : Message) : M (Node S) (option Message) :=
  n ← get_node;
  let answer := with_RequestID (m_RequestID msg) (response MsgStoreChunkResult (now 0) n) in
  match n_store n with
  | None => mret (Some (with_Error "no local chunk store configured" answer))
  | Some _ =>
      match m_ChunkData msg with
      | None | Some [] => mret (Some (with_Error "empty chunk data" answer))
      | Some data => store_answer data answer
      end
  end.

Definition handle_GetChunk (now : nat → Time) (msg : Message) : M (Node S) (option Message) :=
  n ← get_node;
  let answer := with_RequestID (m_RequestID msg) (response MsgChunkData (now 0) n) in
  match n_store n with
  | None =>
      mret (Some (with_Error "no local chunk store configured" (with_ChunkID (m_ChunkID msg) answer)))
  | Some _ =>
      if bool_decide (m_ChunkID msg = "") then mret (Some (with_Error "missing chunk_id" answer))
      else
        match ChunkIDFromHex (m_ChunkID msg) with
        | Err e =>
            mret (Some (with_Error ("invalid chunk_id: " +:+ Error e)
                          (with_ChunkID (m_ChunkID msg) answer)))
        | Panic => ask (λ _, Panic)
        | Ok cid =>
            match GetLocalChunk cid n with
            | Err e =>
                mret (Some (with_Error ("chunk not found: " +:+ Error e)
                              (with_ChunkID (m_ChunkID msg) answer)))
            | Panic => ask (λ _, Panic)
            | Ok data =>
                mret (Some (with_ChunkData data (with_ChunkID (m_ChunkID msg) answer)))
            end
        end
  end.

Definition handle_StoreFileProvider (now : nat → Time) (rpc : RPC) (msg : Message) :
    M (Node S) (option Message) := λ n,
  if bool_decide (m_FileRoot msg = "") then (n, Ok None)
  else if negb (ID_Equals (m_From msg) (n_id n)) then
    (addFileProvider (m_FileRoot msg) (Con (m_From msg) (sender_addr rpc msg) (now 0)) n, Ok None)
  else (n, Ok None).

Definition handle_GetFileProviders (now : nat → Time) (msg : Message) : M (Node S) (option Message) :=
  n ← get_node;
  let answer := with_RequestID (m_RequestID msg) (response MsgFileProviders (now 0) n) in
  if bool_decide (m_FileRoot msg = "") then mret (Some (with_Error "missing file_root" answer))
  else
    mret (Some (with_Providers (getFileProviders (m_FileRoot msg) n)
                  (with_FileRoot (m_FileRoot msg) answer))).

Definition handle_GetFileMeta (now : nat → Time) (msg : Message) : M (Node S) (option Message) :=
  n ← get_node;
  let answer := with_RequestID (m_RequestID msg) (response MsgFileMeta (now 0) n) in
  if bool_decide (m_FileRoot msg = "") then mret (Some (with_Error "missing file_root" answer))
  else
    match getFileMeta (m_FileRoot msg) n with
    | None => mret (Some (with_Error "file meta not found" (with_FileRoot (m_FileRoot msg) answer)))
    | Some meta => mret (Some (with_FileMeta meta (with_FileRoot (m_FileRoot msg) answer)))
    end.

(** The [switch msg.Type] of [HandleRPC]; responses and unknown types fall
    through to [return nil, nil]. *)
Definition handle_message (now : nat → Time) (rpc : RPC) (msg : Message) :
    M (Node S) (option Message) :=
  let t := m_Type msg in
  if bool_decide (t = MsgPing) then handle_Ping now rpc msg
  else if bool_decide (t = MsgPong) then handle_Pong now rpc msg
  else if bool_decide (t = MsgFindNode) then handle_FindNode now rpc msg
  else if bool_decide (t = MsgNodes) then handle_Nodes now rpc msg
  else if bool_decide (t = MsgStoreChunk) then handle_StoreChunk now msg
  else if bool_decide (t = MsgGetChunk) then handle_GetChunk now msg
  else if bool_decide (t = MsgStoreFileProvider) then handle_StoreFileProvider now rpc msg
  else if bool_decide (t = MsgGetFileProviders) then handle_GetFileProviders now msg
  else if bool_decide (t = MsgGetFileMeta) then handle_GetFileMeta now msg
  else mret None.

Definition HandleRPC (now : nat → Time) (rpc : RPC) : M (Node S) (option Message) := λ n,
  match wrap_err "HandleRPC: decode error" (DecodeMessage (rpc_Payload rpc)) with
  | Err e => (n, Err e)
  | Panic => (n, Panic)
  | Ok msg => handle_message now rpc msg n
  end.

(** ** Dispatch *)

Lemma dispatch now rpc msg :
  (m_Type msg = MsgFindNode → handle_message now rpc msg = handle_FindNode now rpc msg) ∧
  (m_Type msg = MsgStoreChunk → handle_message now rpc msg = handle_StoreChunk now msg) ∧
  (m_Type msg = MsgGetChunk → handle_message now rpc msg = handle_GetChunk now msg) ∧
  (m_Type msg = MsgStoreFileProvider →
     handle_message now rpc msg = handle_StoreFileProvider now rpc msg) ∧
  (m_Type msg = MsgGetFileProviders →
     handle_message now rpc msg = handle_GetFileProviders now msg).
Proof. unfold handle_message. split_and!; intros ->; reflexivity. Qed.

Lemma handle_message_GetFileMeta now rpc msg :
  m_Type msg = MsgGetFileMeta → handle_message now rpc msg = handle_GetFileMeta now msg.
Proof. unfold handle_message. intros ->. reflexivity. Qed.
End Node.

(** ** The invariant of a node *)

Definition provider_key (c : Contact) : ID * string := (con_ID c, con_Address c).

Record node_ok {S} `{ChunkStoreSpec S} (n : Node S) : Prop := {
  ok_rt : rt_ok (n_rt n);
  ok_self : rt_self (n_rt n) = n_id n;
  ok_store s : n_store n = Some s → store_ok s;
  ok_providers root l : n_fileProviders n !! root = Some l → NoDup (provider_key <$> l);
  ok_meta root m : n_fileMeta n !! root = Some m → root = ChunkID_String (fm_Root m);
}.

(** The node is still the same one. *)
Definition has_store {S} (n : Node S) : bool := if n_store n then true else false.

Definition same_identity {S} (n n' : Node S) : Prop :=
  n_id n' = n_id n ∧ n_addr n' = n_addr n ∧ has_store n' = has_store n.
#[export] Instance same_identity_preorder {S} : PreOrder (same_identity (S := S)).
Proof. split; [by intros ?|]. intros n1 n2 n3 (? & ? & ?) (? & ? & ?). split_and!; congruence. Qed.

(** A computation that keeps the invariant and the node's identity and does
    not panic. *)
Notation preserves := (safe node_ok same_identity).

Section Invariant.
Context {S : Type} `{ChunkStoreSpec S} `{SortSlice} `{MessageCodec}.

Definition preserves_bind {A B} (m : M (Node S) A) (f : A → M (Node S) B) :
  preserves m → (∀ a, preserves (f a)) → preserves (m ≫= f) := safe_bind node_ok same_identity m f.
Definition preserves_ret {A} (a : A) : preserves (mret a) := safe_ret node_ok same_identity a.
Definition preserves_fail {A} e : preserves (fail (A := A) e) := safe_fail node_ok same_identity e.

Lemma preserves_ask {A} (f : Node S → res A) :
  (∀ n, node_ok n → f n ≠ Panic) → preserves (ask f).
Proof. intros Hf n Hok. split_and!; [done|by apply Hf|done]. Qed.

(** What the node knows while it reads itself. *)
Lemma preserves_get_node {B} (f : Node S → M (Node S) B) :
  (∀ n, node_ok n → node_ok (f n n).1 ∧ (f n n).2 ≠ Panic ∧ same_identity n (f n n).1) →
  preserves (get_node ≫= f).
Proof. intros Hf n Hok. by apply Hf. Qed.

Lemma preserves_learn now id addr : preserves (learn (S := S) now id addr).
Proof.
  unfold learn. apply preserves_get_node. intros n Hok. rewrite ID_Equals_eq.
  case_bool_decide; [done|]. unfold on_rt. cbn.
  pose proof (AddContact_no_panic now (Con id addr zero_Time) (n_rt n) (ok_rt n Hok)) as Hnp.
  pose proof (AddContact_ok now (Con id addr zero_Time) (n_rt n) (ok_rt n Hok)) as Hrt.
  pose proof (AddContact_self now (Con id addr zero_Time) (n_rt n)) as Hself.
  destruct (AddContact now (Con id addr zero_Time) (n_rt n)) as [rt r]. simpl in *. subst r.
  split_and!; [|done|done]. split; simpl; try apply Hok; [done|]. rewrite Hself. apply Hok.
Qed.

Lemma preserves_learn_all now i nodes : preserves (learn_all (S := S) now i nodes).
Proof.
  revert i. induction nodes as [|c nodes IH]; intros i; [apply preserves_ret|].
  apply preserves_bind; [apply preserves_learn|auto].
Qed.

Lemma preserves_store_answer data answer : preserves (store_answer (S := S) data answer).
Proof.
  intros n Hok. unfold store_answer, StoreLocalChunk.
  destruct (n_store n) as [s|] eqn:Hs; [|done]. pose proof (ok_store n Hok s Hs) as Hsok.
  pose proof (put_no_panic s data). destruct (PutChunk data s) as [s' [id|e|]] eqn:Hput; [| |done];
    (split_and!; [|done|split_and!; [done|done|by unfold has_store; rewrite Hs]]); split; try apply Hok; intros s0 [= <-].
  - by apply put_ok in Hput as (_ & ? & _).
  - by apply put_err in Hput as [? _].
Qed.

Lemma addFileProvider_ok root c (n : Node S) : node_ok n → node_ok (addFileProvider root c n).
Proof.
  intros Hok. unfold addFileProvider. case_match eqn:E; [done|]. split; try apply Hok. simpl.
  intros root' l. rewrite lookup_insert. case_decide as Hr; [|apply Hok].
  intros [= <-]. rewrite fmap_app. apply NoDup_app. split_and!.
  - destruct (n_fileProviders n !! root) as [l|] eqn:Hl; [by eapply ok_providers|constructor].
  - intros k Hk Hc%list_elem_of_singleton. subst k.
    apply list_elem_of_fmap in Hk as (c' & [= Hid Ha] & Hin).
    apply not_true_iff_false in E. apply E. apply existsb_exists. exists c'.
    split; [by apply list_elem_of_In|]. unfold same_provider.
    by rewrite ID_Equals_eq, <-Hid, <-Ha, !bool_decide_eq_true_2.
  - apply NoDup_singleton.
Qed.

Lemma addFileMeta_ok meta (n : Node S) : node_ok n → node_ok (addFileMeta meta n).
Proof.
  intros Hok. destruct meta as [meta|]; [|done]. split; try apply Hok. simpl.
  intros root m. rewrite lookup_insert. case_decide; [by intros [= <-]|apply Hok].
Qed.
End Invariant.

Create HintDb node.
#[export] Hint Resolve preserves_learn preserves_learn_all preserves_store_answer : node.

Section Handlers.
Context {S : Type} `{ChunkStoreSpec S} `{SortSlice} `{MessageCodec}.
#[local] Set Default Proof Using "Type*".

Lemma preserves_read {B} (f : Node S → res B) :
  (∀ n, node_ok n → f n ≠ Panic) → preserves (get_node ≫= λ n, ask (λ _, f n)).
Proof. intros Hf. apply preserves_get_node. intros n Hok. split_and!; [done|by apply Hf|done]. Qed.

Lemma preserves_StoreChunk now msg : preserves (handle_StoreChunk (S := S) now msg).
Proof.
  unfold handle_StoreChunk. apply preserves_get_node. intros n Hok.
  destruct (n_store n); [|done]. destruct (m_ChunkData msg) as [[|x data]|]; [done| |done].
  by apply preserves_store_answer.
Qed.

Lemma GetLocalChunk_no_panic cid (n : Node S) : GetLocalChunk cid n ≠ Panic.
Proof. unfold GetLocalChunk. destruct (n_store n); [apply get_no_panic|done]. Qed.

Lemma preserves_GetChunk now msg : preserves (handle_GetChunk (S := S) now msg).
Proof.
  unfold handle_GetChunk. apply preserves_get_node. intros n Hok.
  destruct (n_store n); [|done]. case_bool_decide; [done|].
  pose proof (ChunkIDFromHex_no_panic (m_ChunkID msg)).
  destruct (ChunkIDFromHex (m_ChunkID msg)) as [cid|e|]; [|done|done].
  pose proof (GetLocalChunk_no_panic cid n). by destruct (GetLocalChunk cid n).
Qed.

Lemma preserves_StoreFileProvider now rpc msg :
  preserves (handle_StoreFileProvider (S := S) now rpc msg).
Proof.
  unfold handle_StoreFileProvider. intros n Hok. case_bool_decide; [done|].
  case_match; [|done]. simpl. split_and!; [by apply addFileProvider_ok|done|].
  unfold addFileProvider; by case_match.
Qed.

Lemma preserves_FindClosest target :
  preserves (ask (λ n : Node S, FindClosest (n_rt n) target (Z.of_nat K))).
Proof. apply preserves_ask. intros. by apply FindClosest_no_panic. Qed.

Lemma preserves_know {B} (f : Node S → M (Node S) B) :
  (∀ a, preserves (f a)) → preserves (get_node ≫= f).
Proof. intros Hf. apply preserves_get_node. intros n Hok. by apply Hf. Qed.

(** Walk through a handler. *)
Ltac walk :=
  repeat lazymatch goal with
  | |- preserves (get_node ≫= _) => apply preserves_know; intros ?
  | |- preserves (_ ≫= _) => apply preserves_bind; [|intros ?]
  | |- preserves (mret _) => apply preserves_ret
  | |- preserves (fail _) => apply preserves_fail
  | |- preserves (learn _ _ _) => apply preserves_learn
  | |- preserves (learn_all _ _ _) => apply preserves_learn_all
  | |- preserves (ask _) => apply preserves_FindClosest
  | |- preserves (match _ with _ => _ end) => case_match
  | |- preserves (let _ := _ in _) => cbv zeta
  end.

Lemma preserves_handle_message now rpc msg : preserves (handle_message (S := S) now rpc msg).
Proof.
  unfold handle_message.
  repeat (case_bool_decide; [|]); last apply preserves_ret.
  - unfold handle_Ping. walk.
  - unfold handle_Pong. walk.
  - unfold handle_FindNode. walk.
  - unfold handle_Nodes. walk.
  - apply preserves_StoreChunk.
  - apply preserves_GetChunk.
  - apply preserves_StoreFileProvider.
  - unfold handle_GetFileProviders. walk.
  - unfold handle_GetFileMeta. walk.
Qed.

Lemma preserves_HandleRPC now rpc : preserves (HandleRPC (S := S) now rpc).
Proof.
  intros n Hok. unfold HandleRPC. pose proof (decode_no_panic (rpc_Payload rpc)).
  destruct (DecodeMessage (rpc_Payload rpc)) as [msg|e|]; [|done|done].
  by apply preserves_handle_message.
Qed.

(** ** What the handlers answer *)

(** [n'] is [n] with another routing table. *)
Definition same_but_rt (n n' : Node S) : Prop :=
  node_ok n' ∧ n_id n' = n_id n ∧ n_addr n' = n_addr n ∧ n_store n' = n_store n ∧
  n_fileProviders n' = n_fileProviders n ∧ n_fileMeta n' = n_fileMeta n.

Lemma learn_spec now id addr n :
  node_ok n →
  ∃ n', learn now id addr n = (n', Ok tt) ∧ same_but_rt n n' ∧
    n_rt n' = (if decide (id = n_id n) then n_rt n
               else (AddContact now (Con id addr zero_Time) (n_rt n)).1).
Proof.
  intros Hok. pose proof (preserves_learn now id addr n Hok) as (Hok' & _).
  revert Hok'. unfold learn, get_node, ask, mbind, M_bind. rewrite ID_Equals_eq.
  case_bool_decide as Hid; [rewrite decide_True by done|rewrite decide_False by done];
    cbn; [intros; by exists n|].
  unfold on_rt. pose proof (AddContact_no_panic now (Con id addr zero_Time) (n_rt n) (ok_rt n Hok)).
  destruct (AddContact now (Con id addr zero_Time) (n_rt n)) as [rt r]. simpl in *. subst r.
  intros Hok'. by eexists.
Qed.

Lemma learn_all_spec now i nodes n :
  node_ok n → ∃ n', learn_all now i nodes n = (n', Ok tt) ∧ same_but_rt n n'.
Proof.
  revert i n. induction nodes as [|c nodes IH]; intros i n Hok; [by exists n|].
  destruct (learn_spec (now i) (con_ID c) (con_Address c) n Hok) as (n1 & Hl & Hs1 & _).
  destruct (IH (i + 1) n1) as (n2 & Hl2 & Hs2); [apply Hs1|].
  exists n2. cbn [learn_all]. unfold mbind, M_bind. rewrite Hl. split; [done|].
  unfold same_but_rt in *. naive_solver congruence.
Qed.

(** The type of the answer to each type of message, if any. *)
Definition response_type (t : MessageType) : option MessageType :=
  if bool_decide (t = MsgPing) then Some MsgPong
  else if bool_decide (t = MsgFindNode) then Some MsgNodes
  else if bool_decide (t = MsgStoreChunk) then Some MsgStoreChunkResult
  else if bool_decide (t = MsgGetChunk) then Some MsgChunkData
  else if bool_decide (t = MsgGetFileProviders) then Some MsgFileProviders
  else if bool_decide (t = MsgGetFileMeta) then Some MsgFileMeta
  else None.

(** [a] is an answer of [n] of type [t], correlated by [req]. *)
Definition answers (n : Node S) (t : MessageType) (req : string) (a : Message) : Prop :=
  m_Type a = t ∧ m_From a = n_id n ∧ m_NodeAddr a = n_addr n ∧ m_RequestID a = req.

Lemma handle_Ping_spec now rpc msg n :
  node_ok n → ∃ n' a, handle_Ping now rpc msg n = (n', Ok (Some a)) ∧ same_but_rt n n' ∧
    answers n MsgPong "" a.
Proof.
  intros Hok. unfold handle_Ping, mbind, M_bind.
  destruct (learn_spec (now 0) (m_From msg) (sender_addr rpc msg) n Hok) as (n' & -> & Hs & _).
  eexists n', _. split; [done|]. split; [done|]. destruct Hs as (_ & Hid & Ha & _). done.
Qed.

Lemma handle_FindNode_spec now rpc msg n target :
  node_ok n → m_Target msg = Some target →
  ∃ n' a, handle_FindNode now rpc msg n = (n', Ok (Some a)) ∧ same_but_rt n n' ∧
    answers n MsgNodes "" a ∧ FindClosest (n_rt n') target (Z.of_nat K) = Ok (m_Nodes a) ∧
    n_rt n' = (if decide (m_From msg = n_id n) then n_rt n
               else (AddContact (now 0) (Con (m_From msg) (sender_addr rpc msg) zero_Time) (n_rt n)).1).
Proof.
  intros Hok Ht. unfold handle_FindNode, mbind, M_bind. rewrite Ht.
  destruct (learn_spec (now 0) (m_From msg) (sender_addr rpc msg) n Hok) as (n' & -> & Hs & Hrt).
  unfold get_node, ask. pose proof Hs as (Hok' & Hid & Ha & _).
  destruct (FindClosest_sorted (n_rt n') target (Z.of_nat K)) as (l & _ & _ & Hf);
    [apply Hok'|lia|].
  rewrite Hf. eexists n', _. split; [done|]. split; [done|]. by rewrite Hf.
Qed.

Lemma handle_StoreChunk_spec now msg n :
  node_ok n → ∃ n' a, handle_StoreChunk now msg n = (n', Ok (Some a)) ∧
    answers n MsgStoreChunkResult (m_RequestID msg) a.
Proof.
  intros Hok. pose proof (preserves_StoreChunk now msg n Hok) as (_ & Hnp & _). revert Hnp.
  unfold handle_StoreChunk, get_node, ask, mbind, M_bind.
  destruct (n_store n) as [s|]; [|intros _; by eexists _, _].
  destruct (m_ChunkData msg) as [[|x data]|]; [intros _; by eexists _, _| |intros _; by eexists _, _].
  unfold store_answer. destruct (StoreLocalChunk (x :: data) n) as [n1 [cid|e|]]; [| |done];
    intros _; by eexists _, _.
Qed.

Lemma handle_GetChunk_spec now msg n :
  node_ok n → ∃ a, handle_GetChunk now msg n = (n, Ok (Some a)) ∧
    answers n MsgChunkData (m_RequestID msg) a.
Proof.
  intros Hok. unfold handle_GetChunk, get_node, ask, mbind, M_bind.
  destruct (n_store n); [|by eexists]. case_bool_decide; [by eexists|].
  pose proof (ChunkIDFromHex_no_panic (m_ChunkID msg)).
  destruct (ChunkIDFromHex (m_ChunkID msg)) as [cid|e|]; [|by eexists|done].
  pose proof (GetLocalChunk_no_panic cid n). destruct (GetLocalChunk cid n); [by eexists..|done].
Qed.

Lemma handle_Get_spec now msg n :
  (∃ a, handle_GetFileProviders now msg n = (n, Ok (Some a)) ∧
     answers n MsgFileProviders (m_RequestID msg) a) ∧
  (∃ a, handle_GetFileMeta now msg n = (n, Ok (Some a)) ∧
     answers n MsgFileMeta (m_RequestID msg) a).
Proof.
  unfold handle_GetFileProviders, handle_GetFileMeta, get_node, ask, mbind, M_bind.
  split; repeat case_match; by eexists.
Qed.
End Handlers.

(** ** Properties *)

(** C3: a node keeps its invariant whatever arrives: on every payload, well
    formed or not, [HandleRPC] returns without a panic, the routing table stays
    a correct one for the node's identifier, the store stays correct, no
    provider is recorded twice for a file, every metadata entry is filed under
    its own root, and the node's identity does not change. *)
Theorem HandleRPC_invariant {S} `{ChunkStoreSpec S} `{SortSlice} `{MessageCodec} now rpc (n n' : Node S) r :
  node_ok n → HandleRPC now rpc n = (n', r) →
  node_ok n' ∧ r ≠ Panic ∧ n_id n' = n_id n ∧ n_addr n' = n_addr n.
Proof.
  intros Hok Hr. pose proof (preserves_HandleRPC now rpc n Hok) as Hp. rewrite Hr in Hp.
  by destruct Hp as (? & ? & ? & ? & _).
Qed.

(** C29: which message is answered how: a request gets the answer of its
    type, from this node and with its address; the answers to the four chunk
    and file requests carry the identifier of the request; all other messages,
    responses and unknown types included, get none. The only error is a
    FIND_NODE without a target. *)
Theorem HandleRPC_answers {S} `{ChunkStoreSpec S} `{SortSlice} `{MessageCodec} now rpc (n n' : Node S) msg r :
  node_ok n → DecodeMessage (rpc_Payload rpc) = Ok msg → HandleRPC now rpc n = (n', r) →
  (m_Type msg = MsgFindNode ∧ m_Target msg = None ∧ n' = n ∧
     r = Err (EMsg "HandleRPC: FIND_NODE missing target")) ∨
  ∃ o, r = Ok o ∧
    match response_type (m_Type msg) with
    | None => o = None
    | Some t => ∃ a, o = Some a ∧
        answers n t (if bool_decide (t = MsgPong ∨ t = MsgNodes) then "" else m_RequestID msg) a
    end.
Proof.
  intros Hok Hdec Hr. unfold HandleRPC in Hr. rewrite Hdec in Hr. cbn [wrap_err] in Hr.
  unfold handle_message in Hr.
  case_bool_decide as E1; [rewrite E1; right|].
  { destruct (handle_Ping_spec now rpc msg n Hok) as (? & a & Ha & _ & ?). rewrite Ha in Hr. naive_solver. }
  case_bool_decide as E2; [rewrite E2; right|].
  { unfold handle_Pong, mbind, M_bind in Hr.
    destruct (learn_spec (now 0) (m_From msg) (sender_addr rpc msg) n Hok) as (? & Hl & _).
    rewrite Hl in Hr. injection Hr as <- <-. by exists None. }
  case_bool_decide as E3; [rewrite E3|].
  { destruct (m_Target msg) as [target|] eqn:Ht; [right|left].
    - destruct (handle_FindNode_spec now rpc msg n target Hok Ht) as (? & a & Ha & _ & ? & _).
      rewrite Ha in Hr. naive_solver.
    - unfold handle_FindNode in Hr. rewrite Ht in Hr. cbn in Hr. by injection Hr as <- <-. }
  case_bool_decide as E4; [rewrite E4; right|].
  { unfold handle_Nodes, mbind, M_bind in Hr.
    destruct (learn_all_spec now 1 (m_Nodes msg) n Hok) as (n1 & Hl & Hs). rewrite Hl in Hr.
    destruct (learn_spec (now 0) (m_From msg) (sender_addr rpc msg) n1) as (? & Hl' & _); [apply Hs|].
    rewrite Hl' in Hr. injection Hr as <- <-. by exists None. }
  case_bool_decide as E5; [rewrite E5; right|].
  { destruct (handle_StoreChunk_spec now msg n Hok) as (? & a & Ha & ?). rewrite Ha in Hr. naive_solver. }
  case_bool_decide as E6; [rewrite E6; right|].
  { destruct (handle_GetChunk_spec now msg n Hok) as (a & Ha & ?). rewrite Ha in Hr. naive_solver. }
  destruct (handle_Get_spec now msg n) as [(a & Ha & ?) (a' & Ha' & ?)].
  case_bool_decide as E7; [rewrite E7; right|].
  { unfold handle_StoreFileProvider in Hr. repeat case_match; naive_solver. }
  case_bool_decide as E8; [rewrite E8; right; rewrite Ha in Hr; naive_solver|].
  case_bool_decide as E9; [rewrite E9; right; rewrite Ha' in Hr; naive_solver|].
  cbn in Hr. injection Hr as <- <-. right. exists None. unfold response_type.
  by rewrite !bool_decide_eq_false_2 by done.
Qed.

(** C30: a chunk accepted over the network can be fetched over the network: a
    node whose store works answers STORE_CHUNK with the identifier of the data
    and no error, and from then on GET_CHUNK with that identifier returns data
    with that hash, namely the data stored, unless the store already held
    other content under the same SHA-256. *)
Theorem store_then_get_chunk {S} `{ChunkStoreSpec S} `{SortSlice} `{MessageCodec}
    now now' rpc rpc' (n : Node S) s msg msg' data :
  node_ok n → n_store n = Some s → healthy s → data ≠ [] →
  DecodeMessage (rpc_Payload rpc) = Ok msg → m_Type msg = MsgStoreChunk → m_ChunkData msg = Some data →
  DecodeMessage (rpc_Payload rpc') = Ok msg' → m_Type msg' = MsgGetChunk →
  m_ChunkID msg' = ChunkID_String (NewChunkID data) →
  ∃ n' a a' data',
    HandleRPC now rpc n = (n', Ok (Some a)) ∧ m_Error a = "" ∧
    m_ChunkID a = ChunkID_String (NewChunkID data) ∧
    HandleRPC now' rpc' n' = (n', Ok (Some a')) ∧ m_Error a' = "" ∧
    m_ChunkData a' = Some data' ∧ NewChunkID data' = NewChunkID data ∧
    (data' = data ∨ GetLocalChunk (NewChunkID data) n = Ok data').
Proof.
  intros Hok Hs Hh Hne Hd Ht Hdata Hd' Ht' Hid.
  pose proof (ok_store n Hok s Hs) as Hsok.
  destruct (put_healthy s data Hsok Hh) as (s' & Hput & Hh').
  destruct (put_ok s s' data _ Hsok Hput) as (_ & Hsok' & (d' & Hview & Hor) & _).
  assert (∃ a, HandleRPC now rpc n = (SetStore (Some s') n, Ok (Some a)) ∧ m_Error a = "" ∧
    m_ChunkID a = ChunkID_String (NewChunkID data)) as (a & Ha & Hea & Hia).
  { unfold HandleRPC. rewrite Hd. cbn [wrap_err].
    rewrite (proj1 (proj2 (dispatch now rpc msg)) Ht).
    unfold handle_StoreChunk, get_node, ask, mbind, M_bind. rewrite Hs, Hdata.
    destruct data as [|x data]; [done|]. unfold store_answer, StoreLocalChunk. rewrite Hs, Hput.
    eexists. split; [reflexivity|]. split; reflexivity. }
  exists (SetStore (Some s') n), a.
  assert (GetChunk (NewChunkID data) s' = Ok d') as Hget by by rewrite get_healthy, Hview.
  unfold HandleRPC at 2. rewrite Hd'. cbn [wrap_err].
  destruct (dispatch (S := S) now' rpc' msg') as (_ & _ & -> & _); [|done].
  unfold handle_GetChunk, get_node, ask, mbind, M_bind. cbn [n_store SetStore].
  rewrite bool_decide_eq_false_2; [|rewrite Hid; intros E; apply (f_equal String.length) in E;
    rewrite length_ChunkID_String in E; discriminate E].
  rewrite Hid, ChunkIDFromHex_String. unfold GetLocalChunk at 1. cbn [n_store SetStore]. rewrite Hget.
  eexists _, d'. split_and!; [exact Ha|exact Hea|exact Hia|reflexivity|reflexivity|reflexivity| |].
  - by eapply view_addr.
  - destruct Hor as [->|Hv]; [by left|right]. unfold GetLocalChunk.
    by rewrite Hs, get_healthy, Hv.
Qed.

(** C31: provider records: after STORE_FILE_PROVIDER from another node,
    GET_FILE_PROVIDERS for that file lists the earlier providers in order and
    the sender, once; the sender is recorded at the address the message names,
    and when it names none, at the address the message came from. Records of
    other files do not change. *)
Theorem provider_recorded {S} `{ChunkStoreSpec S} `{SortSlice} `{MessageCodec}
    now now' rpc rpc' (n : Node S) msg msg' root :
  node_ok n → root ≠ "" → m_From msg ≠ n_id n →
  DecodeMessage (rpc_Payload rpc) = Ok msg → m_Type msg = MsgStoreFileProvider → m_FileRoot msg = root →
  DecodeMessage (rpc_Payload rpc') = Ok msg' → m_Type msg' = MsgGetFileProviders → m_FileRoot msg' = root →
  ∃ n' a addr,
    HandleRPC now rpc n = (n', Ok None) ∧ HandleRPC now' rpc' n' = (n', Ok (Some a)) ∧
    addr = (if bool_decide (m_NodeAddr msg = "") then rpc_From rpc else m_NodeAddr msg) ∧
    (m_Providers a = getFileProviders root n ++ [Con (m_From msg) addr (now 0)] ∨
     m_Providers a = getFileProviders root n ∧ (m_From msg, addr) ∈ provider_key <$> m_Providers a) ∧
    NoDup (provider_key <$> m_Providers a) ∧
    ∀ root', root' ≠ root → getFileProviders root' n' = getFileProviders root' n.
Proof.
  intros Hok Hroot Hfrom Hd Ht Hr Hd' Ht' Hr'.
  set (addr := sender_addr rpc msg). set (c := Con (m_From msg) addr (now 0)).
  exists (addFileProvider root c n).
  unfold HandleRPC. rewrite Hd, Hd'. cbn [wrap_err].
  destruct (dispatch (S := S) now rpc msg) as (_ & _ & _ & -> & _); [|done].
  destruct (dispatch (S := S) now' rpc' msg') as (_ & _ & _ & _ & ->); [|done].
  unfold handle_StoreFileProvider, handle_GetFileProviders, get_node, ask, mbind, M_bind.
  rewrite Hr, Hr', !bool_decide_eq_false_2, ID_Equals_eq, bool_decide_eq_false_2 by done.
  eexists _, addr. split_and!; [reflexivity|reflexivity| | | |].
  - unfold addr, sender_addr. by repeat case_bool_decide.
  - cbn. unfold addFileProvider, getFileProviders. case_match eqn:E; [right|left].
    + split; [done|]. apply existsb_exists in E as (c' & Hin & Hsame%andb_true_iff).
      rewrite ID_Equals_eq, !bool_decide_eq_true in Hsame. destruct Hsame as [Hi Ha].
      apply list_elem_of_fmap. exists c'. split; [|by apply list_elem_of_In].
      unfold provider_key. by rewrite Hi, Ha.
    + cbn. by rewrite lookup_insert_eq.
  - cbn. unfold getFileProviders. apply (addFileProvider_ok root c) in Hok.
    destruct (n_fileProviders (addFileProvider root c n) !! root) eqn:E; [by eapply ok_providers|constructor].
  - intros root' Hne. unfold addFileProvider, getFileProviders. case_match; [done|]. cbn.
    by rewrite lookup_insert_ne.
Qed.

(** FIND_NODE does what Kademlia asks of it: the sender is known
    afterwards, and the answer lists the [K] contacts of the table, the sender
    included if it is among them, that are closest to the target, nearest
    first. *)
Theorem find_node_answer {S} `{ChunkStoreSpec S} `{SortSlice} `{MessageCodec}
    now rpc (n : Node S) msg target :
  node_ok n → DecodeMessage (rpc_Payload rpc) = Ok msg → m_Type msg = MsgFindNode →
  m_Target msg = Some target → m_From msg ≠ n_id n →
  ∃ n' a rest, HandleRPC now rpc n = (n', Ok (Some a)) ∧
    m_From msg ∈ ids (all_contacts (n_rt n')) ∧
    m_Nodes a ++ rest ≡ₚ all_contacts (n_rt n') ∧
    length (m_Nodes a) = min K (length (all_contacts (n_rt n'))) ∧
    StronglySorted (nearer target) (m_Nodes a ++ rest).
Proof.
  intros Hok Hd Ht Htarget Hfrom.
  destruct (handle_FindNode_spec now rpc msg n target Hok Htarget)
    as (n' & a & Ha & Hs & _ & Hf & Hrt). rewrite decide_False in Hrt by done.
  destruct (FindClosest_sorted (n_rt n') target (Z.of_nat K)) as (l & Hp & Hsort & Hf');
    [apply Hs|lia|].
  rewrite Hf in Hf'. apply Ok_inv in Hf'. rewrite Nat2Z.id in Hf'.
  exists n', a, (drop K l). rewrite Hf', take_drop. split_and!; [| |done| |done].
  - unfold HandleRPC. rewrite Hd. cbn [wrap_err]. by rewrite (proj1 (dispatch now rpc msg) Ht).
  - rewrite Hrt. pose proof (AddContact_elem (now 0) (Con (m_From msg) (sender_addr rpc msg) zero_Time)
      (n_rt n) (ok_rt n Hok)) as He. apply He. rewrite (ok_self n Hok). done.
  - by rewrite length_take, Hp.
Qed.

(** ** Witnesses: a node with an empty store, meeting one other node *)

Definition witness_node : Node FSChunkStore :=
  SetStore (Some empty_store) (SetNodeAddr "127.0.0.1:4101" (NewNode (tiny_id x01))).

Lemma witness_node_ok : node_ok witness_node.
Proof.
  split; simpl.
  - apply NewRoutingTable_ok.
  - done.
  - intros s [= <-]. apply empty_store_ok.
  - intros root l. by rewrite lookup_empty.
  - intros root l. by rewrite lookup_empty.
Qed.

(** What the other node sends, over a connection from port 52040. *)
Definition rpc_of (m : Message) : RPC :=
  mkRPC "127.0.0.1:52040" false (match Message_Encode m with Ok b => b | _ => [] end).

Lemma decode_rpc_of m : plain m = true → DecodeMessage (rpc_Payload (rpc_of m)) = Ok (wire m).
Proof.
  intros H. destruct (message_roundtrip m H) as (b & Hb & Hd). unfold rpc_of. cbn [rpc_Payload]. by rewrite Hb.
Qed.

Definition ticks (i : nat) : Time := 10 ^ 18 + Z.of_nat i.

Definition sample_find : Message :=
  with_Target (tiny_id x03) (new_message MsgFindNode (tiny_id x02) 0).
Definition sample_store_chunk : Message :=
  with_RequestID "r1" (with_ChunkData [x61] (new_message MsgStoreChunk (tiny_id x02) 0)).
Definition sample_get_chunk : Message :=
  with_RequestID "r2" (with_ChunkID (ChunkID_String (NewChunkID [x61]))
    (new_message MsgGetChunk (tiny_id x02) 0)).
Definition sample_provider : Message :=
  with_FileRoot "abc" (new_message MsgStoreFileProvider (tiny_id x02) 0).
Definition sample_get_providers : Message :=
  with_FileRoot "abc" (new_message MsgGetFileProviders (tiny_id x02) 0).

Lemma tiny_id_neq : tiny_id x02 ≠ tiny_id x01.
Proof. intros E. apply (f_equal ID_val) in E. by vm_compute in E. Qed.

Lemma HandleRPC_invariant_witness :
  (HandleRPC ticks (rpc_of sample_find) witness_node).2 ≠ Panic ∧
  (HandleRPC ticks (mkRPC "" false [x7b]) witness_node).2 ≠ Panic.
Proof.
  split.
  - destruct (HandleRPC ticks (rpc_of sample_find) witness_node) as [n' r] eqn:E.
    apply (HandleRPC_invariant ticks (rpc_of sample_find) witness_node n' r); [apply witness_node_ok|done].
  - destruct (HandleRPC ticks (mkRPC "" false [x7b]) witness_node) as [n' r] eqn:E.
    apply (HandleRPC_invariant ticks (mkRPC "" false [x7b]) witness_node n' r);
      [apply witness_node_ok|done].
Defined.

Lemma HandleRPC_answers_witness :
  ∃ a, (HandleRPC ticks (rpc_of sample_get_providers) witness_node).2 = Ok (Some a) ∧
    m_Type a = MsgFileProviders ∧ m_RequestID a = "".
Proof.
  destruct (HandleRPC ticks (rpc_of sample_get_providers) witness_node) as [n' r] eqn:E.
  destruct (HandleRPC_answers ticks (rpc_of sample_get_providers) witness_node n'
    (wire sample_get_providers) r) as [(H & _)|(o & -> & a & -> & Ha)];
    [apply witness_node_ok|apply decode_rpc_of; vm_compute; reflexivity|exact E|by vm_compute in H|].
  exists a. destruct Ha as (Ht & _ & _ & Hr). split; [done|]. split; [exact Ht|exact Hr].
Defined.

Lemma store_then_get_chunk_witness :
  ∃ n' a a' data', HandleRPC ticks (rpc_of sample_store_chunk) witness_node = (n', Ok (Some a)) ∧
    HandleRPC ticks (rpc_of sample_get_chunk) n' = (n', Ok (Some a')) ∧
    m_ChunkData a' = Some data' ∧ NewChunkID data' = NewChunkID [x61].
Proof.
  destruct (store_then_get_chunk ticks ticks (rpc_of sample_store_chunk) (rpc_of sample_get_chunk)
    witness_node empty_store (wire sample_store_chunk) (wire sample_get_chunk) [x61])
    as (n' & a & a' & d & H1 & _ & _ & H2 & _ & H3 & H4 & _);
    [apply witness_node_ok|reflexivity|apply empty_store_healthy|discriminate|apply decode_rpc_of; vm_compute; reflexivity
    |reflexivity|reflexivity|apply decode_rpc_of; vm_compute; reflexivity|reflexivity|reflexivity|].
  exists n', a, a', d. split; [exact H1|]. split; [exact H2|]. split; [exact H3|exact H4].
Defined.

(** The record names the port the message came from, not a listening address. *)
Lemma provider_recorded_witness :
  ∃ n' a, HandleRPC ticks (rpc_of sample_provider) witness_node = (n', Ok None) ∧
    HandleRPC ticks (rpc_of sample_get_providers) n' = (n', Ok (Some a)) ∧
    m_Providers a = [Con (tiny_id x02) "127.0.0.1:52040" (ticks 0)].
Proof.
  destruct (provider_recorded ticks ticks (rpc_of sample_provider) (rpc_of sample_get_providers)
    witness_node (wire sample_provider) (wire sample_get_providers) "abc")
    as (n' & a & addr & H1 & H2 & -> & Hp & _);
    [apply witness_node_ok|discriminate|apply tiny_id_neq|apply decode_rpc_of; vm_compute; reflexivity|reflexivity|reflexivity
    |apply decode_rpc_of; vm_compute; reflexivity|reflexivity|reflexivity|].
  exists n', a. split; [exact H1|]. split; [exact H2|].
  destruct Hp as [Hp|[Hp Hin]]; [exact Hp|]. rewrite Hp in Hin.
  exfalso. by apply not_elem_of_nil in Hin.
Defined.

Lemma find_node_answer_witness :
  ∃ n' a, HandleRPC ticks (rpc_of sample_find) witness_node = (n', Ok (Some a)) ∧
    tiny_id x02 ∈ ids (all_contacts (n_rt n')).
Proof.
  destruct (find_node_answer ticks (rpc_of sample_find) witness_node (wire sample_find) (tiny_id x03))
    as (n' & a & rest & H1 & H2 & _);
    [apply witness_node_ok|apply decode_rpc_of; vm_compute; reflexivity|reflexivity|reflexivity|apply tiny_id_neq|].
  exists n', a. split; [exact H1|exact H2].
Defined.
