(* ===== verification/Codec.v ===== *)
(** * Framing (src/internal/p2p/codec.go)

    [LengthPrefixedJSONCodec]: each RPC is its JSON text behind four bytes of
    big-endian length. [RPCJson] says what framing relies on of JSON, and the JSON
    of an RPC satisfies it. *)

From S2P Require Import Prelude Hex Sha256 ChunkId FileSys Store Reader Chunker FileMeta Id RoutingTable Message Base64 Json JsonString JsonValue MessageJson.
From stdpp Require Import list sorting options.

Definition MaxMessageSize : N := N.shiftl 4 20.

(** [json.Marshal] and [json.Unmarshal] at the type [RPC]. *)
Class RPCJson := {
  rpc_Marshal : RPC → res bytes;
  rpc_Unmarshal : bytes → res RPC;
  rpc_marshal_no_panic r : rpc_Marshal r ≠ Panic;
  rpc_unmarshal_no_panic b : rpc_Unmarshal b ≠ Panic;
  rpc_roundtrip r : ascii_text (rpc_From r) = true → plain_Meta (rpc_Meta r) →
    ∃ b, rpc_Marshal r = Ok b ∧ b ≠ [] ∧ rpc_Unmarshal b = Ok r;
}.

(** [binary.BigEndian.PutUint32] and [Uint32]. *)
Definition PutUint32 (v : N) : bytes :=
  [byte_of_N (N.shiftr v 24); byte_of_N (N.shiftr v 16); byte_of_N (N.shiftr v 8); byte_of_N v].

Definition Uint32 (b : bytes) : N :=
  match b with
  | [b0; b1; b2; b3] =>
      N.lor (byteN b3) (N.lor (N.shiftl (byteN b2) 8)
        (N.lor (N.shiftl (byteN b1) 16) (N.shiftl (byteN b0) 24)))
  | _ => 0
  end.

(** [uint32(n)] *)
Definition uint32 (n : nat) : N := (N.of_nat n `mod` 2 ^ 32)%N.

Section Codec.
Context `{RPCJson}.

(** The first part of [Encode]: the text of the RPC, if it fits a frame. *)
Definition marshal (rpc : RPC) : res bytes :=
  match wrap_err "encode: json marshal error" (rpc_Marshal rpc) with
  | Ok data =>
      if (MaxMessageSize <? N.of_nat (length data))%N then
        Err (EMsg ("encode: message too large (" +:+ pretty (length data) +:+ " > "
                   +:+ pretty MaxMessageSize +:+ ")"))
      else Ok data
  | r => r
  end.

(** The two writes of [Encode]; nothing keeps another goroutine from writing
    to the connection between them. *)
Definition write_length (data : bytes) : M writer unit :=
  wrap_errM "encode: write length error" (Write (PutUint32 (uint32 (length data)))).
Definition write_payload (data : bytes) : M writer unit :=
  wrap_errM "encode: write payload error" (Write data).

Definition Encode (rpc : RPC) : M writer unit := λ conn,
  match marshal rpc with
  | Ok data => (_ ← write_length data; write_payload data) conn
  | Err e => (conn, Err e)
  | Panic => (conn, Panic)
  end.

(** The first part of [Decode]: the length, validated. [Panic] stands for fuel
    that ran out, which [conn_ReadFull_total] excludes. *)
Definition read_length : M reader N := λ conn,
  match conn_ReadFull 4 conn with
  | None => (conn, Panic)
  | Some (_, Some e, conn') => (conn', Err (EWrap "decode: read length error" e))
  | Some (lengthPrefix, None, conn') =>
      let length := Uint32 lengthPrefix in
      if (length =? 0)%N then (conn', Err (EMsg "decode: zero-length message"))
      else if (MaxMessageSize <? length)%N then
        (conn', Err (EMsg ("decode: message too large (" +:+ pretty length +:+ " > "
                           +:+ pretty MaxMessageSize +:+ ")")))
      else (conn', Ok length)
  end.

Definition read_payload (length : N) : M reader bytes := λ conn,
  match conn_ReadFull (N.to_nat length) conn with
  | None => (conn, Panic)
  | Some (_, Some e, conn') => (conn', Err (EWrap "decode: read payload error" e))
  | Some (buf, None, conn') => (conn', Ok buf)
  end.

Definition unmarshal (buf : bytes) : M reader RPC := λ conn,
  (conn, wrap_err "decode: json unmarshal error" (rpc_Unmarshal buf)).

Definition Decode : M reader RPC :=
  length ← read_length;
  buf ← read_payload length;
  unmarshal buf.
End Codec.

(** ** The length prefix *)

Lemma Uint32_Put v : (v < 2 ^ 32)%N → Uint32 (PutUint32 v) = v.
Proof.
  intros Hv. unfold Uint32, PutUint32. rewrite !byteN_of_N. apply N.bits_inj. intros m.
  rewrite !N.lor_spec. change 256%N with (2 ^ 8)%N.
  assert (∀ a k, N.testbit (N.shiftl (N.shiftr v a `mod` 2 ^ 8) k) m
    = (k <=? m)%N && (m <? k + 8)%N && N.testbit v (m - k + a)) as Hbit.
  { intros a k. destruct (k <=? m)%N eqn:E; bool_to_Prop.
    - rewrite N.shiftl_spec_high' by done. destruct (m <? k + 8)%N eqn:E'; bool_to_Prop.
      + by rewrite N.mod_pow2_bits_low, N.shiftr_spec' by lia.
      + by rewrite N.mod_pow2_bits_high by lia.
    - by rewrite N.shiftl_spec_low. }
  rewrite !Hbit. assert (N.testbit (v `mod` 2 ^ 8) m = (m <? 8)%N && N.testbit v m) as ->.
  { destruct (m <? 8)%N eqn:E; bool_to_Prop; [by rewrite N.mod_pow2_bits_low|by rewrite N.mod_pow2_bits_high]. }
  destruct (m <? 8)%N eqn:E1; bool_to_Prop.
  { rewrite (proj2 (N.leb_gt 8 m)), (proj2 (N.leb_gt 16 m)), (proj2 (N.leb_gt 24 m)) by lia.
    simpl. by rewrite !orb_false_r. }
  destruct (m <? 16)%N eqn:E2; bool_to_Prop.
  { rewrite (proj2 (N.leb_le 8 m)), (proj2 (N.ltb_lt m (8 + 8))), (proj2 (N.leb_gt 16 m)),
      (proj2 (N.leb_gt 24 m)) by lia. simpl. rewrite !orb_false_r. f_equal. lia. }
  destruct (m <? 24)%N eqn:E3; bool_to_Prop.
  { rewrite (proj2 (N.leb_le 16 m)), (proj2 (N.ltb_ge m (8 + 8))), (proj2 (N.ltb_lt m (16 + 8))),
      (proj2 (N.leb_gt 24 m)) by lia. rewrite andb_false_r. simpl. rewrite !orb_false_r. f_equal. lia. }
  rewrite (proj2 (N.ltb_ge m (8 + 8))), (proj2 (N.ltb_ge m (16 + 8))), (proj2 (N.leb_le 24 m)) by lia.
  rewrite !andb_false_r. destruct (m <? 24 + 8)%N eqn:E4; bool_to_Prop; simpl.
  - f_equal. lia.
  - destruct (decide (v = 0)%N) as [->|Hne]; [by rewrite N.bits_0|].
    rewrite N.bits_above_log2; [done|]. apply N.log2_lt_pow2; [lia|].
    eapply N.lt_le_trans; [exact Hv|]. apply N.pow_le_mono_r; lia.
Qed.

Lemma length_PutUint32 v : length (PutUint32 v) = 4.
Proof. done. Qed.

Lemma uint32_small n : (N.of_nat n ≤ MaxMessageSize)%N → uint32 n = N.of_nat n.
Proof.
  intros Hn. unfold uint32. apply N.mod_small. eapply N.le_lt_trans; [exact Hn|]. done.
Qed.

Section Decode.
Context `{RPCJson}.

(** The first four bytes of the stream, as the length they stand for. *)
Lemma read_length_stream r pre rest :
  well_behaved r → stream r = pre ++ rest → length pre = 4 →
  ∃ r', well_behaved r' ∧ stream r' = rest ∧
    read_length r = (r',
      if (Uint32 pre =? 0)%N then Err (EMsg "decode: zero-length message")
      else if (MaxMessageSize <? Uint32 pre)%N then
        Err (EMsg ("decode: message too large (" +:+ pretty (Uint32 pre) +:+ " > "
                   +:+ pretty MaxMessageSize +:+ ")"))
      else Ok (Uint32 pre)).
Proof.
  intros Hwb Hs Hpre. destruct (conn_ReadFull_stream 4 r) as (r' & Hr & Hwb' & Hs'); [lia|done|].
  exists r'. split; [done|].
  rewrite Hs' in *. rewrite Hs in *. rewrite <-Hpre, drop_app_length. split; [done|].
  unfold read_length. rewrite Hr, length_app, Hpre. cbn [Nat.leb Nat.add].
  rewrite <-Hpre, take_app_length. by repeat case_match.
Qed.

Lemma read_payload_stream n r :
  (0 < n)%N → well_behaved r →
  ∃ r', well_behaved r' ∧ stream r' = drop (N.to_nat n) (stream r) ∧
    read_payload n r = (r',
      if (N.to_nat n <=? length (stream r))%nat then Ok (take (N.to_nat n) (stream r))
      else Err (EWrap "decode: read payload error"
             (if bool_decide (stream r = []) then EEOF else EUnexpectedEOF))).
Proof.
  intros Hn Hwb.
  destruct (conn_ReadFull_stream (N.to_nat n) r) as (r' & Hr & Hwb' & Hs'); [lia|done|].
  exists r'. split_and!; [done|done|]. unfold read_payload. rewrite Hr. by repeat case_match.
Qed.

(** A whole frame is consumed exactly, whatever follows it. *)
Lemma Decode_frame r data rest :
  well_behaved r → data ≠ [] → (N.of_nat (length data) ≤ MaxMessageSize)%N →
  stream r = PutUint32 (uint32 (length data)) ++ data ++ rest →
  ∃ r', well_behaved r' ∧ stream r' = rest ∧
    Decode r = (r', wrap_err "decode: json unmarshal error" (rpc_Unmarshal data)).
Proof.
  intros Hwb Hne Hmax Hs. rewrite uint32_small in Hs by done.
  assert (length data ≠ 0) as Hl by (by destruct data).
  assert (Uint32 (PutUint32 (N.of_nat (length data))) = N.of_nat (length data)) as HU.
  { apply Uint32_Put. eapply N.le_lt_trans; [exact Hmax|done]. }
  destruct (read_length_stream r _ _ Hwb Hs (length_PutUint32 _)) as (r1 & Hwb1 & Hs1 & Hr1).
  rewrite HU in Hr1. rewrite (proj2 (N.eqb_neq _ 0)), (proj2 (N.ltb_ge _ _)) in Hr1 by (done || lia).
  destruct (read_payload_stream (N.of_nat (length data)) r1) as (r2 & Hwb2 & Hs2 & Hr2); [lia|done|].
  rewrite Hs1, Nat2N.id in Hs2, Hr2. rewrite length_app, take_app_length in Hr2.
  rewrite (proj2 (Nat.leb_le _ _)) in Hr2 by lia. rewrite drop_app_length in Hs2.
  exists r2. split_and!; [done|done|]. unfold Decode, mbind, M_bind. by rewrite Hr1, Hr2.
Qed.

Definition frame (data : bytes) : bytes := PutUint32 (uint32 (length data)) ++ data.

Lemma marshal_ok rpc data :
  rpc_Marshal rpc = Ok data → (N.of_nat (length data) ≤ MaxMessageSize)%N → marshal rpc = Ok data.
Proof. intros Hm Hmax. unfold marshal. rewrite Hm. cbn [wrap_err]. by rewrite (proj2 (N.ltb_ge _ _)). Qed.

Lemma wrapped_Write_no_panic e b w : (wrap_errM e (Write b) w).2 ≠ Panic.
Proof. unfold wrap_errM, Write. by destruct (faults w) as [|[[n e']|] rest]. Qed.

Lemma marshal_no_panic rpc : marshal rpc ≠ Panic.
Proof.
  unfold marshal. pose proof (rpc_marshal_no_panic rpc) as Hp. destruct (rpc_Marshal rpc); [|done..].
  cbn [wrap_err]. by destruct (_ <? _)%N.
Qed.

Lemma Encode_no_panic rpc w : (Encode rpc w).2 ≠ Panic.
Proof.
  unfold Encode. pose proof (marshal_no_panic rpc) as Hp. destruct (marshal rpc) as [data|e|]; [|done..].
  unfold mbind, M_bind. pose proof (wrapped_Write_no_panic "encode: write length error" (PutUint32 (uint32 (length data))) w) as Hw.
  fold (write_length data) in Hw. destruct (write_length data w) as [w' [[]|e|]]; [|done..].
  apply wrapped_Write_no_panic.
Qed.

Lemma Encode_ok rpc data w :
  rpc_Marshal rpc = Ok data → (N.of_nat (length data) ≤ MaxMessageSize)%N → faults w = [] →
  Encode rpc w = (Writer (written w ++ PutUint32 (uint32 (length data)) ++ data) [], Ok tt).
Proof.
  intros Hm Hmax Hw. unfold Encode. rewrite (marshal_ok rpc data) by done.
  unfold write_length, write_payload, mbind, M_bind, wrap_errM, Write. rewrite Hw. cbn. by rewrite <-app_assoc.
Qed.

(** A sequence of messages over one connection. *)
Fixpoint send_all (rpcs : list RPC) : M writer unit :=
  match rpcs with
  | [] => mret tt
  | rpc :: rest => _ ← Encode rpc; send_all rest
  end.
Fixpoint receive (n : nat) : M reader (list RPC) :=
  match n with
  | O => mret []
  | S n' => rpc ← Decode; rest ← receive n'; mret (rpc :: rest)
  end.

(** JSON carries the message and it fits a frame. *)
Definition sendable (rpc : RPC) : Prop :=
  ascii_text (rpc_From rpc) = true ∧ plain_Meta (rpc_Meta rpc) ∧
  ∀ data, rpc_Marshal rpc = Ok data → (N.of_nat (length data) ≤ MaxMessageSize)%N.

Lemma send_receive rpcs w :
  Forall sendable rpcs → faults w = [] →
  ∃ sent, send_all rpcs w = (Writer (written w ++ sent) [], Ok tt) ∧
    ∀ r rest, well_behaved r → stream r = sent ++ rest →
      ∃ r', well_behaved r' ∧ stream r' = rest ∧ receive (length rpcs) r = (r', Ok rpcs).
Proof.
  intros Hall. revert w. induction Hall as [|rpc rpcs (Hascii & Hmeta & Hmax) Hall IH]; intros w Hw.
  { exists []. split; [destruct w; simpl in *; subst; by rewrite app_nil_r|].
    intros r rest Hwb Hs. by exists r. }
  destruct (rpc_roundtrip rpc Hascii Hmeta) as (data & Hm & Hne & Hu). specialize (Hmax data Hm).
  destruct (IH (Writer (written w ++ PutUint32 (uint32 (length data)) ++ data) []))
    as (sent & Hsend & Hrecv); [done|].
  exists ((PutUint32 (uint32 (length data)) ++ data) ++ sent). split.
  { cbn [send_all]. unfold mbind, M_bind. rewrite (Encode_ok rpc data) by done.
    rewrite Hsend. cbn [written]. by rewrite <-app_assoc. }
  intros r rest Hwb Hs. rewrite <-!app_assoc in Hs.
  destruct (Decode_frame r data (sent ++ rest)) as (r1 & Hwb1 & Hs1 & Hd); [done..|].
  destruct (Hrecv r1 rest) as (r2 & Hwb2 & Hs2 & Hr2); [done..|].
  exists r2. split_and!; [done|done|]. cbn [receive length]. unfold mbind, M_bind.
  by rewrite Hd, Hu, Hr2.
Qed.

Lemma frame_decode_no_panic r : (Decode r).2 ≠ Panic.
Proof.
  unfold Decode, mbind, M_bind, read_length, read_payload, unmarshal.
  destruct (conn_ReadFull_total 4 r) as (d & e & r1 & -> & _). destruct e as [e|]; [done|].
  destruct (Uint32 d =? 0)%N; [done|]. destruct (MaxMessageSize <? Uint32 d)%N; [done|].
  destruct (conn_ReadFull_total (N.to_nat (Uint32 d)) r1) as (d' & e' & r2 & -> & _).
  destruct e' as [e'|]; [done|]. cbn. pose proof (rpc_unmarshal_no_panic d').
  by destruct (rpc_Unmarshal d').
Qed.

Lemma frame_decode_empty r :
  well_behaved r → stream r = [] →
  ∃ r', Decode r = (r', Err (EWrap "decode: read length error" EEOF)).
Proof.
  intros Hwb Hs. destruct (conn_ReadFull_stream 4 r) as (r' & Hr & _); [lia|done|].
  rewrite Hs in Hr. exists r'. unfold Decode, mbind, M_bind, read_length. by rewrite Hr.
Qed.

Lemma frame_decode_consumes r :
  well_behaved r →
  ∃ k, k ≤ 4 + N.to_nat MaxMessageSize ∧ stream (Decode r).1 = drop k (stream r).
Proof.
  intros Hwb. destruct (decide (4 ≤ length (stream r))) as [Hl|Hl].
  - destruct (read_length_stream r (take 4 (stream r)) (drop 4 (stream r)))
      as (r1 & Hwb1 & Hs1 & Hr1); [done|by rewrite take_drop|rewrite length_take; lia|].
    unfold Decode, mbind, M_bind. rewrite Hr1. set (v := Uint32 (take 4 (stream r))).
    destruct (v =? 0)%N eqn:E0; [exists 4; split; [lia|done]|].
    destruct (MaxMessageSize <? v)%N eqn:E1; [exists 4; split; [lia|done]|]. bool_to_Prop.
    destruct (read_payload_stream v r1) as (r2 & Hwb2 & Hs2 & Hr2); [lia|done|].
    rewrite Hr2. exists (4 + N.to_nat v). split; [lia|].
    destruct (N.to_nat v <=? length (stream r1))%nat; cbn [unmarshal fst];
      by rewrite Hs2, Hs1, drop_drop.
  - destruct (conn_ReadFull_stream 4 r) as (r' & Hr & Hwb' & Hs'); [lia|done|].
    exists 4. split; [lia|]. unfold Decode, mbind, M_bind, read_length. rewrite Hr.
    rewrite (proj2 (Nat.leb_gt _ _)) by lia. by case_bool_decide.
Qed.
End Decode.

(** ** The JSON of an RPC

    [Payload] is never [nil] where the program sends. A map is written with its
    keys in order; reading adds the entries to the map that is there, and the
    last of two entries with one key stays. *)

Definition rpc_fields : list string := ["From"; "Stream"; "Payload"; "Meta"].

Definition key_le (x y : string * json) : Prop := String.leb x.1 y.1 = true.
#[export] Instance key_le_dec : RelDecision key_le.
Proof. intros x y. unfold key_le. apply _. Defined.

Definition enc_Meta (meta : option (gmap string json)) : json :=
  match meta with
  | None => JNull
  | Some entries => JObj ((λ '(k, v), field k v) <$> merge_sort key_le (map_to_list entries))
  end.

Definition add_entry (entries : gmap string json) (kv : bytes * json) : gmap string json :=
  <[of_text (unquote kv.1) := kv.2]> entries.

Definition dec_Meta (j : json) (meta : option (gmap string json)) : option (option (gmap string json)) :=
  match j with
  | JNull => Some None
  | JObj l => if any_fits j then Some (Some (foldl add_entry (default ∅ meta) l)) else None
  | _ => None
  end.

Definition enc_rpc (r : RPC) : json :=
  JObj [field "From" (enc_string (rpc_From r)); field "Stream" (JBool (rpc_Stream r));
        field "Payload" (enc_slice (rpc_Payload r)); field "Meta" (enc_Meta (rpc_Meta r))].

Definition set_rpc (i : nat) (j : json) (r : RPC) : option RPC :=
  match i with
  | 0 => from ← dec_string j (rpc_From r); Some (MkRPC from (rpc_Stream r) (rpc_Payload r) (rpc_Meta r))
  | 1 => stream ← dec_bool j (rpc_Stream r); Some (MkRPC (rpc_From r) stream (rpc_Payload r) (rpc_Meta r))
  | 2 => b ← dec_bytes j; Some (MkRPC (rpc_From r) (rpc_Stream r) (default [] b) (rpc_Meta r))
  | _ => meta ← dec_Meta j (rpc_Meta r); Some (MkRPC (rpc_From r) (rpc_Stream r) (rpc_Payload r) meta)
  end.

Definition dec_rpc : json → RPC → option RPC := dec_struct rpc_fields set_rpc.

(** [rpc = RPC{}] *)
Definition zero_RPC : RPC := mkRPC "" false [].

Definition json_Marshal (r : RPC) : res bytes := Ok (json_print (enc_rpc r)).

Definition json_Unmarshal (b : bytes) : res RPC :=
  match json_parse b with
  | None => Err (EMsg "invalid JSON")
  | Some j =>
      match dec_rpc j zero_RPC with
      | Some r => Ok r
      | None => Err (EMsg "json: cannot unmarshal")
      end
  end.

Definition sorted_entries (entries : gmap string json) : list (string * json) :=
  merge_sort key_le (map_to_list entries).

Lemma sorted_entries_perm entries : sorted_entries entries ≡ₚ map_to_list entries.
Proof. apply merge_sort_Permutation. Qed.

Lemma sorted_entries_plain entries k v :
  plain_entries entries → (k, v) ∈ sorted_entries entries →
  ascii_text k = true ∧ wf v = true ∧ any_fits v = true ∧ height v + 2 ≤ maxNestingDepth.
Proof.
  intros Hp Hin. rewrite sorted_entries_perm in Hin. apply elem_of_map_to_list in Hin. by apply (Hp k v).
Qed.

(** Reading the entries in any order gives the map back. *)
Lemma add_entries l (m : gmap string json) :
  NoDup l.*1 → (∀ k v, (k, v) ∈ l → ascii_text k = true ∧ m !! k = None) →
  foldl add_entry m ((λ '(k, v), field k v) <$> l) = list_to_map l ∪ m.
Proof.
  revert m. induction l as [|[k v] l IH]; intros m Hnd Hl; [symmetry; apply (left_id_L ∅ (∪))|].
  apply NoDup_cons in Hnd as [Hk Hnd]. destruct (Hl k v) as [Ha Hm]; [left|].
  assert (add_entry m (field k v) = <[k := v]> m) as Hadd.
  { unfold add_entry, field. cbn [fst snd]. rewrite unquote_quote by (by apply ascii_text_valid).
    by rewrite of_text_text. }
  rewrite fmap_cons. cbn [foldl]. rewrite Hadd, IH; [|done|].
  - cbn [list_to_map foldr fst snd]. rewrite <-insert_union_r; [by rewrite insert_union_l|].
    by apply not_elem_of_list_to_map_1.
  - intros k' v' Hin. destruct (Hl k' v') as [Ha' Hm']; [by right|]. split; [done|].
    rewrite lookup_insert_ne; [done|]. intros ->. apply Hk, list_elem_of_fmap. by exists (k', v').
Qed.

Lemma dec_Meta_enc meta : plain_Meta meta → dec_Meta (enc_Meta meta) None = Some meta.
Proof.
  destruct meta as [entries|]; [|done]. cbn [plain_Meta enc_Meta dec_Meta default]. intros Hp.
  fold (sorted_entries entries).
  assert (any_fits (JObj ((λ '(k, v), field k v) <$> sorted_entries entries)) = true) as ->.
  { cbn [any_fits]. rewrite forallb_forall. intros [k j] Hin.
    apply list_elem_of_In, list_elem_of_fmap in Hin as ([k' v] & [= -> ->] & Hin).
    by destruct (sorted_entries_plain entries k' v Hp Hin) as (_ & _ & ? & _). }
  rewrite add_entries.
  - rewrite (right_id_L ∅ (∪)). do 2 f_equal. rewrite <-(list_to_map_to_list entries) at 2.
    apply list_to_map_proper; [|apply sorted_entries_perm]. rewrite sorted_entries_perm. apply NoDup_fst_map_to_list.
  - rewrite sorted_entries_perm. apply NoDup_fst_map_to_list.
  - intros k v Hin. split; [|apply lookup_empty]. by destruct (sorted_entries_plain entries k v Hp Hin).
Qed.

Lemma enc_Meta_good meta : plain_Meta meta → good (maxNestingDepth - 1) (enc_Meta meta).
Proof.
  destruct meta as [entries|]; intros Hp; [|split; [done|apply Nat.le_0_l]].
  cbn [plain_Meta enc_Meta] in *. fold (sorted_entries entries).
  replace (maxNestingDepth - 1) with (S (maxNestingDepth - 2)) by (unfold maxNestingDepth; lia).
  apply good_object, Forall_fmap, Forall_forall. intros [k v] Hin. exists k, v. split; [done|].
  destruct (sorted_entries_plain entries k v Hp Hin) as (_ & Hw & _ & Hh). split; [done|lia].
Qed.

Lemma enc_rpc_good r : plain_Meta (rpc_Meta r) → good maxNestingDepth (enc_rpc r).
Proof.
  intros Hm%enc_Meta_good.
  assert (good 0 (JBool (rpc_Stream r))) as Hb by done.
  assert (good 0 (enc_slice (rpc_Payload r))) as Hp by apply good_plain, b64_plain.
  replace maxNestingDepth with (S (maxNestingDepth - 1)) by (unfold maxNestingDepth; lia).
  apply good_object. good_fields.
Qed.

Lemma rpc_json r :
  ascii_text (rpc_From r) = true → plain_Meta (rpc_Meta r) → dec_rpc (enc_rpc r) zero_RPC = Some r.
Proof.
  destruct r as [from stream payload meta]. cbn [rpc_From rpc_Meta]. intros Hf%ascii_text_valid Hm.
  unfold dec_rpc, dec_struct, enc_rpc, zero_RPC. cbn [rpc_From rpc_Stream rpc_Payload rpc_Meta].
  erewrite (dec_cons _ _ 0); [|reflexivity|cbn [set_rpc]; rewrite dec_string_enc by done; reflexivity].
  erewrite (dec_cons _ _ 1); [|reflexivity|reflexivity].
  erewrite (dec_cons _ _ 2); [|reflexivity|cbn [set_rpc]; rewrite dec_bytes_enc; reflexivity].
  erewrite (dec_cons _ _ 3); [|reflexivity|cbn [set_rpc rpc_Meta]; rewrite dec_Meta_enc by done; reflexivity].
  done.
Qed.

#[export] Instance json_rpc : RPCJson.
Proof.
  refine {| rpc_Marshal := json_Marshal; rpc_Unmarshal := json_Unmarshal |}.
  - done.
  - intros b. unfold json_Unmarshal. destruct (json_parse b); [|done]. by destruct (dec_rpc _ _).
  - intros r Hr Hm. eexists. split; [done|]. split; [done|]. destruct (enc_rpc_good r Hm) as [Hwf Hh].
    unfold json_Unmarshal. rewrite json_roundtrip by done. by rewrite rpc_json.
Defined.

(** ** Properties *)

(** C16: messages survive the connection: a sequence of messages that JSON can
    carry and that fit a frame is written without error, and a reader that
    delivers these bytes, in pieces of any size, followed by anything, decodes
    exactly that sequence and leaves exactly what follows. *)
Theorem codec_roundtrip `{RPCJson} rpcs :
  Forall sendable rpcs →
  ∃ w, send_all rpcs (Writer [] []) = (w, Ok tt) ∧
    ∀ r rest, well_behaved r → stream r = written w ++ rest →
      ∃ r', receive (length rpcs) r = (r', Ok rpcs) ∧ well_behaved r' ∧ stream r' = rest.
Proof.
  intros Hall. destruct (send_receive rpcs (Writer [] []) Hall eq_refl) as (sent & Hs & Hr).
  eexists. split; [exact Hs|]. intros r rest Hwb Hst.
  destruct (Hr r rest Hwb Hst) as (r' & ? & ? & ?). by exists r'.
Qed.

(** C32: [Decode] is safe on arbitrary input: on every connection, failing or
    not, it ends without a panic; on a stream of bytes it consumes at most the
    prefix and [MaxMessageSize] bytes; an empty stream, a zero length, a length
    over the maximum (of which nothing is read) and a truncated message are
    reported as what they are. *)
Theorem Decode_safe `{RPCJson} r :
  (Decode r).2 ≠ Panic ∧
  (well_behaved r →
    (∃ k, k ≤ 4 + N.to_nat MaxMessageSize ∧ stream (Decode r).1 = drop k (stream r)) ∧
    (stream r = [] → (Decode r).2 = Err (EWrap "decode: read length error" EEOF)) ∧
    ∀ pre rest, stream r = pre ++ rest → length pre = 4 →
      (Uint32 pre = 0%N → (Decode r).2 = Err (EMsg "decode: zero-length message")) ∧
      ((MaxMessageSize < Uint32 pre)%N →
         is_ok (Decode r).2 = false ∧ stream (Decode r).1 = rest) ∧
      ((0 < Uint32 pre ≤ MaxMessageSize)%N → length rest < N.to_nat (Uint32 pre) →
         (Decode r).2 = Err (EWrap "decode: read payload error"
           (if bool_decide (rest = []) then EEOF else EUnexpectedEOF)))).
Proof.
  split; [by apply frame_decode_no_panic|]. intros Hwb. split_and!.
  - by apply frame_decode_consumes.
  - intros Hs. by destruct (frame_decode_empty r Hwb Hs) as [r' ->].
  - intros pre rest Hs Hpre.
    destruct (read_length_stream r pre rest Hwb Hs Hpre) as (r1 & Hwb1 & Hs1 & Hr1).
    unfold Decode, mbind, M_bind. rewrite Hr1. split_and!.
    + by intros ->.
    + intros Hmax. rewrite (proj2 (N.eqb_neq _ 0)), (proj2 (N.ltb_lt _ _)) by lia. done.
    + intros Hlen Hshort. rewrite (proj2 (N.eqb_neq _ 0)), (proj2 (N.ltb_ge _ _)) by lia.
      destruct (read_payload_stream (Uint32 pre) r1) as (r2 & _ & _ & Hr2); [lia|done|].
      rewrite Hr2, Hs1, (proj2 (Nat.leb_gt _ _)) by lia. done.
Qed.

(** ** Witnesses *)

Definition two_rpcs : list RPC :=
  [mkRPC "a" false [x01]; MkRPC "" true [] (Some {["id" := JNum [x37]; "type" := JStr [x61]]})].

Lemma two_rpcs_sendable : Forall sendable two_rpcs.
Proof.
  assert (∀ v, height v = 0 → height v + 2 ≤ maxNestingDepth) as Hh by (unfold maxNestingDepth; lia).
  apply Forall_cons; split; [|apply Forall_cons; split; [|done]].
  - split; [reflexivity|]. split; [exact I|]. intros data E. apply Ok_inv in E as <-. by vm_compute.
  - split; [reflexivity|]. split.
    + apply map_Forall_insert_2; [by split_and!; auto|]. apply map_Forall_singleton. by split_and!; auto.
    + intros data E. apply Ok_inv in E as <-. by vm_compute.
Qed.

Lemma codec_roundtrip_witness :
  ∃ w, send_all two_rpcs (Writer [] []) = (w, Ok tt) ∧
    ∀ r rest, well_behaved r → stream r = written w ++ rest →
      ∃ r', receive 2 r = (r', Ok two_rpcs) ∧ well_behaved r' ∧ stream r' = rest.
Proof. apply (codec_roundtrip two_rpcs), two_rpcs_sendable. Defined.

(** A length of 2^24 + 1, over the maximum, in two pieces; a cut-off message. *)
Lemma Decode_safe_witness :
  is_ok (Decode [([x01; x00], None); ([x00; x01; x7b], Some EEOF)]).2 = false ∧
  (Decode [([x00; x00; x00; x05; x7b], None)]).2
    = Err (EWrap "decode: read payload error" EUnexpectedEOF).
Proof.
  split.
  - destruct (Decode_safe [([x01; x00], None); ([x00; x01; x7b], Some EEOF)]) as (_ & Hd).
    destruct Hd as (_ & _ & Hd); [by simpl; auto|].
    destruct (Hd [x01; x00; x00; x01] [x7b]) as (_ & Hmax & _); [done|done|].
    by apply Hmax.
  - destruct (Decode_safe [([x00; x00; x00; x05; x7b], None)]) as (_ & Hd).
    destruct Hd as (_ & _ & Hd); [by simpl; auto|].
    destruct (Hd [x00; x00; x00; x05] [x7b]) as (_ & _ & Hshort); [done|done|].
    rewrite Hshort; [done|done|]. apply Nat.ltb_lt. by vm_compute.
Defined.
