(* ===== verification/WireSize.v ===== *)
(** * How large the messages get (src/internal/dht/node.go, src/internal/p2p/codec.go)

    A message is JSON whose chunk data are base64, and travels as the base64
    payload of another JSON object in a frame of at most [MaxMessageSize]
    bytes: what chunks and which files fit. *)

From S2P Require Import Prelude Hex Text Sha256 ChunkId FileSys Store Reader Chunker FileMeta Id RoutingTable Message Base64 Json JsonString Rfc3339 JsonValue MessageJson Codec.
From stdpp Require Import list options.
Local Open Scope Z_scope.

Definition len {A} (l : list A) : Z := Z.of_nat (length l).

Lemma len_app {A} (l k : list A) : len (l ++ k) = len l + len k.
Proof. unfold len. rewrite length_app. lia. Qed.
Lemma len_cons {A} (x : A) l : len (x :: l) = 1 + len l.
Proof. unfold len. simpl. lia. Qed.
Lemma len_nonneg {A} (l : list A) : 0 <= len l.
Proof. unfold len. lia. Qed.

(** ** The length of the printed text *)

Definition plen (j : json) : Z := len (json_print j).

(** What the members of an object, or the elements of an array, take. *)
Definition members_len (l : list (bytes * json)) : Z := foldr (λ '(k, j) n, len k + plen j + 4 + n) 0 l.
Definition elems_len (l : list json) : Z := foldr (λ j n, plen j + 1 + n) 0 l.

Lemma commas_len (l : list bytes) : l ≠ [] → len (commas l) = foldr (λ x n, len x + 1 + n) 0 l - 1.
Proof.
  intros Hne. induction l as [|x l IH]; [done|]. cbn [commas foldr]. destruct l as [|y l]; [simpl; lia|].
  rewrite len_app, len_cons, IH by done. lia.
Qed.

Lemma plen_obj l : l ≠ [] → plen (JObj l) = 1 + members_len l.
Proof.
  intros Hne. unfold plen. cbn [json_print]. rewrite len_cons, len_app, commas_len by (by destruct l).
  change (len [x7d]) with 1. enough (foldr (λ x n, len x + 1 + n) 0
    (map (λ '(k, v), x22 :: k ++ x22 :: x3a :: json_print v) l) = members_len l) by lia.
  clear Hne. induction l as [|[k j] l IH]; [done|]. cbn [map foldr members_len].
  rewrite IH. rewrite len_cons, len_app, !len_cons. fold (plen j). unfold members_len. lia.
Qed.

Lemma plen_arr l : l ≠ [] → plen (JArr l) = 1 + elems_len l.
Proof.
  intros Hne. unfold plen. cbn [json_print]. rewrite len_cons, len_app, commas_len by (by destruct l).
  change (len [x5d]) with 1.
  enough (foldr (λ x n, len x + 1 + n) 0 (map json_print l) = elems_len l) by lia.
  clear Hne. induction l as [|j l IH]; [done|]. cbn [map foldr elems_len]. rewrite IH. done.
Qed.

Lemma members_len_app l k : members_len (l ++ k) = members_len l + members_len k.
Proof. induction l as [|[n j] l IH]; [done|]. cbn [app members_len foldr]. unfold members_len in *. lia. Qed.

Lemma members_len_nonneg l : 0 <= members_len l.
Proof.
  induction l as [|[n j] l IH]; [done|]. unfold members_len in *. cbn [foldr].
  pose proof (len_nonneg n). pose proof (len_nonneg (json_print j) : 0 <= plen j). lia.
Qed.

Lemma members_len_cons name j l :
  members_len (field name j :: l) = len (quote (text name)) + plen j + 4 + members_len l.
Proof. unfold members_len, field. cbn [foldr]. lia. Qed.

Lemma members_len_nil : members_len [] = 0.
Proof. done. Qed.

Lemma members_len_field name j : members_len [field name j] = len (quote (text name)) + plen j + 4.
Proof. unfold members_len, field. cbn [foldr]. lia. Qed.

Lemma plen_str s : plen (JStr s) = len s + 2.
Proof. unfold plen. cbn [json_print]. rewrite len_cons, len_app. change (len [x22]) with 1. lia. Qed.

(** ** Parts *)

Lemma pretty_N_go_length n s (k : nat) :
  (n < 10 ^ N.of_nat k)%N → (String.length (pretty_N_go n s) <= k + String.length s)%nat.
Proof.
  revert n s. induction k as [|k IH]; intros n s Hn.
  - assert (n = 0)%N as -> by (simpl in Hn; lia). by rewrite pretty_N_go_0.
  - destruct (decide (n = 0)%N) as [->|Hne]; [rewrite pretty_N_go_0; lia|].
    rewrite pretty_N_go_step by lia. etransitivity; [apply IH|cbn [String.length]; lia].
    apply N.Div0.div_lt_upper_bound. rewrite Nat2N.inj_succ, N.pow_succ_r' in Hn. lia.
Qed.

Lemma length_text s : length (text s) = String.length s.
Proof. induction s as [|a s IH]; [done|]. rewrite text_cons. simpl. by rewrite IH. Qed.

Lemma pretty_N_length (n : N) (k : nat) :
  (0 < k)%nat → (n < 10 ^ N.of_nat k)%N → (1 <= length (text (pretty n)) <= k)%nat.
Proof.
  intros Hk Hn. split.
  - destruct (pretty_N_head n) as (d & s & _ & ->). rewrite text_cons. simpl. lia.
  - rewrite length_text. unfold pretty, pretty_N. case_decide; [simpl; lia|].
    pose proof (pretty_N_go_length n "" k Hn). simpl in *. lia.
Qed.

Lemma plen_int z : is_int z → 1 <= plen (enc_int z) <= 20.
Proof.
  unfold is_int, plen, enc_int. cbn [json_print]. intros Hz. unfold len. destruct z as [|p|p].
  - vm_compute. split; discriminate.
  - change (pretty (Z.pos p)) with (pretty (N.pos p)).
    pose proof (pretty_N_length (N.pos p) 19 ltac:(lia) ltac:(change (10 ^ N.of_nat 19)%N with 10000000000000000000%N; lia)). lia.
  - change (text (pretty (Z.neg p))) with (x2d :: text (pretty (N.pos p))). cbn [length].
    pose proof (pretty_N_length (N.pos p) 19 ltac:(lia) ltac:(change (10 ^ N.of_nat 19)%N with 10000000000000000000%N; lia)). lia.
Qed.

Lemma plen_byte x : 1 <= plen (enc_int (Z.of_N (byteN x))) <= 3.
Proof.
  unfold plen, enc_int. cbn [json_print]. rewrite pretty_Z_of_N. pose proof (byteN_lt x).
  pose proof (pretty_N_length (byteN x) 3 ltac:(lia) ltac:(change (10 ^ N.of_nat 3)%N with 1000%N; lia)).
  unfold len. lia.
Qed.

Lemma plen_array b : b ≠ [] → 1 + 2 * len b <= plen (enc_array b) <= 1 + 4 * len b.
Proof.
  intros Hne. unfold enc_array. rewrite plen_arr by (by destruct b). clear Hne.
  enough (2 * len b <= elems_len ((λ x, enc_int (Z.of_N (byteN x))) <$> b) <= 4 * len b) by lia.
  induction b as [|x b IH]; [done|]. rewrite fmap_cons, len_cons. unfold elems_len in *. cbn [foldr].
  pose proof (plen_byte x). lia.
Qed.

Lemma quote_length s : len s <= len (quote s) <= 6 * len s.
Proof.
  induction s as [s IH] using (induction_ltof1 _ length). unfold ltof in IH.
  destruct s as [|c0 r0]; [done|].
  destruct (view c0 r0) as [c r H Hc|c c2 r H|c c2 c3 r H|c c2 c3 c4 r H|c r H];
    cbn [quote]; rewrite H; rewrite ?len_app, ?len_cons; (assert (len r <= len (quote r) <= 6 * len r)
      by (apply IH; simpl; lia)).
  - assert (1 <= len (escape c) <= 6); [|lia]. unfold escape. repeat case_match; vm_compute; split; discriminate.
  - lia.
  - destruct (escape3_cases c c2 c3) as [-> |[[_ ->]|[_ ->]]]; rewrite ?len_cons; change (@len byte []) with 0; lia.
  - lia.
  - change (@len byte []) with 0. lia.
Qed.

Lemma plen_string s : len (text s) + 2 <= plen (enc_string s) <= 6 * len (text s) + 2.
Proof. unfold enc_string. rewrite plen_str. pose proof (quote_length (text s)). lia. Qed.

Lemma plen_slice b : plen (enc_slice b) = 4 * ((len b + 2) / 3) + 2.
Proof.
  unfold enc_slice. rewrite plen_str. unfold len. rewrite length_b64_encode, Nat2Z.inj_mul, Nat2Z.inj_div. lia.
Qed.

(** ** Messages *)

Definition texts_len (m : Message) : Z :=
  len (text (m_Type m)) + len (text (m_ChunkID m)) + len (text (m_FileRoot m)) + len (text (m_NodeAddr m))
  + len (text (m_Error m)) + len (text (m_RequestID m)).

Definition data_len (m : Message) : Z :=
  match m_ChunkData m with Some (c :: b) => plen (enc_slice (c :: b)) | _ => 0 end.

Definition meta_len (m : Message) : Z :=
  match m_FileMeta m with Some f => plen (enc_meta f) | None => 0 end.

(** Messages that carry a chunk or metadata, and no contacts. *)
Definition carries (m : Message) : Prop := m_Target m = None ∧ m_Nodes m = [] ∧ m_Providers m = [].

Lemma member_text name s :
  0 <= members_len (omit (is_empty (text s)) name (enc_string s)) <= 6 * len (text s) + 6 + len (quote (text name)).
Proof.
  pose proof (len_nonneg (quote (text name))). pose proof (plen_string s). pose proof (len_nonneg (text s)).
  unfold omit. destruct (is_empty _); [change (members_len []) with 0; lia|]. rewrite members_len_field. lia.
Qed.

Lemma enc_message_len `{LocalZone} m :
  carries m → is_int (m_Timestamp m) →
  ∃ j, enc_message m = Some j ∧
    data_len m + meta_len m <= plen j <= data_len m + meta_len m + 6 * texts_len m + 400.
Proof.
  intros (Ht & Hn & Hp) Hts. unfold enc_message. rewrite Ht, Hn, Hp. cbn [mapM mret option_ret mbind option_bind].
  eexists. split; [done|]. rewrite plen_obj by done. rewrite !members_len_app.
  cbn [target_fields]. change (omit (is_empty []) "nodes" (JArr [])) with (@nil (bytes * json)).
  change (omit (is_empty []) "providers" (JArr [])) with (@nil (bytes * json)). rewrite !members_len_nil.
  pose proof (member_text "chunk_id" (m_ChunkID m)) as H1. pose proof (member_text "file_root" (m_FileRoot m)) as H2.
  pose proof (member_text "node_addr" (m_NodeAddr m)) as H3. pose proof (member_text "error" (m_Error m)) as H4.
  pose proof (member_text "req_id" (m_RequestID m)) as H5.
  change (len (quote (text "chunk_id"))) with 8 in H1. change (len (quote (text "file_root"))) with 9 in H2.
  change (len (quote (text "node_addr"))) with 9 in H3. change (len (quote (text "error"))) with 5 in H4.
  change (len (quote (text "req_id"))) with 6 in H5.
  assert (0 <= members_len [field "type" (enc_string (m_Type m));
            field "from" (enc_array (vec_to_list (m_From m))); field "ts" (enc_int (m_Timestamp m))]
          <= 6 * len (text (m_Type m)) + 140) as H6.
  { rewrite !members_len_cons, members_len_nil. pose proof (plen_string (m_Type m)). pose proof (plen_int _ Hts).
    pose proof (plen_array (vec_to_list (m_From m))) as Ha.
    assert (len (vec_to_list (m_From m)) = 20) as Hl by (unfold len; by rewrite length_vec_to_list).
    rewrite Hl in Ha. pose proof (len_nonneg (text (m_Type m))).
    assert (vec_to_list (m_From m) ≠ []) by (intros E; by rewrite E in Hl). specialize (Ha ltac:(done)).
    change (len (quote (text "type"))) with 4. change (len (quote (text "from"))) with 4.
    change (len (quote (text "ts"))) with 2. lia. }
  assert (data_len m <= members_len (data_fields (m_ChunkData m)) <= data_len m + 14) as H7.
  { unfold data_len, data_fields. destruct (m_ChunkData m) as [[|c b]|]; [done| |done]. rewrite members_len_field.
    change (len (quote (text "chunk_data"))) with 10. lia. }
  assert (meta_len m <= members_len (meta_fields (m_FileMeta m))
            <= meta_len m + 13) as H8.
  { unfold meta_len, meta_fields. destruct (m_FileMeta m) as [f|]; [|done]. rewrite members_len_field.
    change (len (quote (text "file_meta"))) with 9. lia. }
  unfold texts_len. lia.
Qed.

(** ** Metadata *)

Lemma array_len {n} (a : vec byte (S n)) :
  1 + 2 * Z.of_nat (S n) <= plen (enc_array (vec_to_list a)) <= 1 + 4 * Z.of_nat (S n).
Proof.
  pose proof (plen_array (vec_to_list a)) as H. unfold len in H. rewrite length_vec_to_list in H.
  apply H. intros E. apply (f_equal length) in E. by rewrite length_vec_to_list in E.
Qed.

Lemma enc_chunk_len c : plain_chunk c = true → 91 <= plen (enc_chunk c) <= 193.
Proof.
  unfold plain_chunk. intros [Hi%int_ok_is Hs%int_ok_is]%andb_true_iff. unfold enc_chunk.
  rewrite plen_obj by done.
  rewrite !members_len_cons, members_len_nil. pose proof (plen_int _ Hi). pose proof (plen_int _ Hs).
  pose proof (array_len (cm_ID c)). change (len (quote (text "Index"))) with 5.
  change (len (quote (text "ID"))) with 2. change (len (quote (text "Size"))) with 4. lia.
Qed.

Lemma enc_meta_len f :
  plain_meta f = true → 92 * len (fm_Chunks f) <= plen (enc_meta f) <= 194 * len (fm_Chunks f) + 200.
Proof.
  unfold plain_meta. intros [Hl Hs%int_ok_is]%andb_true_iff. unfold enc_meta. rewrite plen_obj by done.
  rewrite !members_len_cons, members_len_nil. pose proof (plen_int _ Hs). pose proof (array_len (fm_Root f)).
  change (len (quote (text "root"))) with 4. change (len (quote (text "chunks"))) with 6.
  change (len (quote (text "size"))) with 4.
  assert (92 * len (fm_Chunks f) <= plen (enc_chunks (fm_Chunks f)) <= 194 * len (fm_Chunks f) + 4); [|lia].
  destruct (fm_Chunks f) as [|c l'] eqn:E; [by vm_compute; split; discriminate|].
  change (enc_chunks (c :: l')) with (JArr (enc_chunk <$> c :: l')). rewrite plen_arr by done.
  enough (92 * len (c :: l') <= elems_len (enc_chunk <$> c :: l') <= 194 * len (c :: l')) by lia.
  clear E H H0. revert Hl. generalize (c :: l'). intros l Hl. induction l as [|x l IH]; [done|].
  cbn [forallb] in Hl. apply andb_true_iff in Hl as [Hx Hl]. specialize (IH Hl).
  rewrite fmap_cons, len_cons. unfold elems_len in *. cbn [foldr]. pose proof (enc_chunk_len x Hx). lia.
Qed.

(** ** The frame *)

Definition envelope (f : string) (b : bytes) : RPC := mkRPC f false b.

Lemma envelope_len f b :
  4 * ((len b + 2) / 3) <= plen (enc_rpc (envelope f b)) <= 4 * ((len b + 2) / 3) + 6 * len (text f) + 100.
Proof.
  unfold enc_rpc, envelope. cbn [rpc_From rpc_Stream rpc_Payload rpc_Meta enc_Meta]. rewrite plen_obj by done.
  rewrite !members_len_cons, members_len_nil, plen_slice. pose proof (plen_string f).
  change (len (quote (text "From"))) with 4. change (len (quote (text "Stream"))) with 6.
  change (len (quote (text "Payload"))) with 7. change (len (quote (text "Meta"))) with 4.
  change (plen (JBool false)) with 5. change (plen JNull) with 4.
  pose proof (len_nonneg (text f)). lia.
Qed.

Lemma envelope_fits f b :
  ascii_text f = true → len (text f) <= 255 → len b <= 3100000 → sendable (envelope f b).
Proof.
  intros Hf Hl Hb. split; [done|]. split; [done|]. intros data. change (rpc_Marshal (envelope f b)) with (json_Marshal (envelope f b)).
  intros H. apply Ok_inv in H as <-. pose proof (envelope_len f b) as He. unfold plen, len in *.
  change MaxMessageSize with 4194304%N. Z.to_euclidean_division_equations; lia.
Qed.

Lemma envelope_too_large f b w :
  3145728 < len b → ∃ e, Encode (envelope f b) w = (w, Err e).
Proof.
  intros Hb. unfold Encode, marshal. change (rpc_Marshal (envelope f b)) with (json_Marshal (envelope f b)).
  cbn [wrap_err json_Marshal]. pose proof (envelope_len f b) as He. unfold plen in He.
  assert ((MaxMessageSize <? N.of_nat (length (json_print (enc_rpc (envelope f b)))))%N = true) as ->; [|by eexists].
  apply N.ltb_lt. change MaxMessageSize with 4194304%N. unfold len in *. Z.to_euclidean_division_equations; lia.
Qed.

(** ** What the network carries

    The client's view: a message that is small enough is sent. The bounds are
    those of the JSON of messages and envelopes. *)

Definition small (m : Message) : Prop :=
  carries m ∧ texts_len m <= 4096 ∧
  match m_ChunkData m, m_FileMeta m with
  | Some data, None => len data <= 2 ^ 21
  | None, Some meta => len (fm_Chunks meta) <= 15000
  | None, None => True
  | Some _, Some _ => False
  end.

(** The message, encoded, fits a frame. *)
Definition fits `{MessageCodec} `{RPCJson} (m : Message) : Prop :=
  ∀ b, Message_Encode m = Ok b → sendable (envelope "" b).

Class FrameSizes `{MessageCodec} `{RPCJson} : Prop :=
  small_fits m : plain m = true → small m → fits m.

Lemma small_len `{LocalZone} m :
  plain m = true → small m → ∃ j, enc_message m = Some j ∧ plen j <= 3100000.
Proof.
  intros Hp (Hc & Ht & Hd). pose proof Hp as Hp'. unfold plain in Hp'.
  repeat (apply andb_true_iff in Hp' as [Hp' ?]).
  destruct (enc_message_len m Hc) as (j & Hj & Hlen); [by apply int_ok_is|].
  exists j. split; [done|]. unfold data_len, meta_len in Hlen. unfold small in Hd.
  destruct (m_ChunkData m) as [[|c b]|], (m_FileMeta m) as [f|] eqn:Ef; try done; try lia.
  - rewrite plen_slice in Hlen. Z.to_euclidean_division_equations; lia.
  - pose proof (enc_meta_len f ltac:(done)). lia.
Qed.

#[export] Instance json_sizes `{LocalZone} : FrameSizes (H := json_codec) (H0 := json_rpc).
Proof.
  intros m Hp Hs b Hb. destruct (small_len m Hp Hs) as (j & Hj & Hlen).
  change (json_Encode m = Ok b) in Hb. unfold json_Encode in Hb. rewrite Hj in Hb.
  apply Ok_inv in Hb as <-. by apply envelope_fits.
Qed.

#[export] Instance utc_sizes : FrameSizes (H := utc_codec) (H0 := json_rpc).
Proof. apply (@json_sizes utc). Qed.

(** ** Properties *)

(** C18: what one frame holds: a message with a chunk, such as the answer to
    GET_CHUNK, is sent whenever the chunk has at most 2 MiB, and never when it
    has 2.25 MiB or more: the transport's codec refuses it. *)
Theorem chunk_frame `{LocalZone} m data f :
  carries m → is_int (m_Timestamp m) → m_FileMeta m = None → m_ChunkData m = Some data → data ≠ [] →
  texts_len m <= 4096 → ascii_text f = true → len (text f) <= 255 →
  ∃ b, json_Encode m = Ok b ∧
    (len data <= 2 ^ 21 → sendable (envelope f b)) ∧
    (9 * 2 ^ 18 <= len data → ∀ w, ∃ e, Encode (envelope f b) w = (w, Err e)).
Proof.
  intros Hm Hts Hmeta Hdata Hne Htexts Hf Hfl. destruct (enc_message_len m Hm Hts) as (j & Hj & Hlen).
  exists (json_print j). unfold json_Encode. rewrite Hj. split; [done|].
  assert (data_len m = 4 * ((len data + 2) / 3) + 2) as Hd.
  { unfold data_len. rewrite Hdata. destruct data; [done|]. apply plen_slice. }
  unfold meta_len in Hlen. rewrite Hmeta, Hd in Hlen. unfold plen in Hlen. split.
  - intros Hl. apply envelope_fits; [done|done|]. Z.to_euclidean_division_equations; lia.
  - intros Hl w. apply envelope_too_large. Z.to_euclidean_division_equations; lia.
Qed.

(** C19: which files can be shared: the metadata of a file of at most 15000
    chunks are sent, those of a file of 34193 chunks or more (8.4 GiB with the
    default -chunk-size) never fit a frame, so the file cannot be downloaded. *)
Theorem meta_frame `{LocalZone} m meta f :
  carries m → is_int (m_Timestamp m) → m_ChunkData m = None → m_FileMeta m = Some meta → plain_meta meta = true →
  texts_len m <= 4096 → ascii_text f = true → len (text f) <= 255 →
  ∃ b, json_Encode m = Ok b ∧
    (len (fm_Chunks meta) <= 15000 → sendable (envelope f b)) ∧
    (34193 <= len (fm_Chunks meta) → ∀ w, ∃ e, Encode (envelope f b) w = (w, Err e)).
Proof.
  intros Hm Hts Hdata Hmeta Hp Htexts Hf Hfl. destruct (enc_message_len m Hm Hts) as (j & Hj & Hlen).
  exists (json_print j). unfold json_Encode. rewrite Hj. split; [done|].
  unfold data_len, meta_len in Hlen. rewrite Hmeta, Hdata in Hlen. pose proof (enc_meta_len meta Hp).
  unfold plen in *. split.
  - intros Hl. apply envelope_fits; [done|done|lia].
  - intros Hl w. apply envelope_too_large. lia.
Qed.

(** ** Witnesses *)

Definition sample_chunk_data : Message := with_ChunkData [x61] (new_message MsgChunkData zero_ID 1700000000).

Lemma chunk_frame_witness :
  ∃ b, @json_Encode utc sample_chunk_data = Ok b ∧ sendable (envelope "127.0.0.1:4000" b).
Proof.
  destruct (@chunk_frame utc sample_chunk_data [x61] "127.0.0.1:4000") as (b & Hb & Hs & _);
    [done|done|done|done|done|by vm_compute|done|by vm_compute|].
  exists b. split; [exact Hb|]. apply Hs. by vm_compute.
Defined.

Definition sample_meta : Message :=
  with_FileMeta (FM (copy_array 32 []) [CM 0 (copy_array 32 []) 5] 5) (new_message MsgFileMeta zero_ID 1700000000).

Lemma meta_frame_witness :
  ∃ b, @json_Encode utc sample_meta = Ok b ∧ sendable (envelope "127.0.0.1:4000" b).
Proof.
  destruct (@meta_frame utc sample_meta (FM (copy_array 32 []) [CM 0 (copy_array 32 []) 5] 5) "127.0.0.1:4000")
    as (b & Hb & Hs & _); [done|done|done|done|done|by vm_compute|done|by vm_compute|].
  exists b. split; [exact Hb|]. apply Hs. by vm_compute.
Defined.
