(* ===== verification/Transport.v ===== *)
(** * The TCP transport (src/internal/p2p/tcp_transport.go)

    The goroutines of [TCPTransport] as one machine: the accept loops, one
    handler per connection, each a program counter over the statements of
    [handleConn], and the callers of [Send], each a program counter over its
    statements, the encoder's two writes included. They share the [peers] map,
    the channel [rpcCh] and the connections. A connection is what it still has
    to deliver and what was written to it. Sockets and TLS give their outcomes
    as inputs of the actions. *)

From S2P Require Import Prelude Hex Sha256 ChunkId FileSys Store Reader Chunker FileMeta Id RoutingTable Message Json Codec.
From stdpp Require Import list options.

(** [TCPTransportOpts]: which of the optional parts are configured. *)
Record TCPTransportOpts := Opts {
  o_HandshakeFunc : bool;
  o_Decoder : bool;
  o_Encoder : bool;
  o_OnPeer : bool;
  o_TLSConfig : bool;
}.

(** The statements of [handleConn] that others can see. *)
Inductive conn_pc :=
  | Entered                        (* before the peer is registered *)
  | Handshaking                    (* before [HandshakeFunc] *)
  | Notifying                      (* before [OnPeer] *)
  | Reading                        (* before [Decode] *)
  | Streaming                      (* in [peer.wg.Wait()] *)
  | Delivering (rpc : RPC)         (* before [t.rpcCh <- rpc] *)
  | Leaving (err : error)          (* before the deferred function *)
  | Left.

(** A [TCPPeer] and its connection. [k_wg] is the counter of the wait group. *)
Record TCPPeer := Peer {
  k_remote : string;
  k_outbound : bool;
  k_in : reader;
  k_out : writer;
  k_wg : nat;
  k_pc : conn_pc;
}.

(** The statements of [Send] and [Encode]; the encoder has two writes. *)
Inductive send_pc :=
  | Looking                                (* before the lookup in [peers] *)
  | Dialing                                (* before [t.Dial] *)
  | Sleeping                               (* before the second lookup *)
  | Encoding (c : nat)                     (* before [json.Marshal] *)
  | WritingLength (c : nat) (data : bytes)
  | WritingPayload (c : nat) (data : bytes)
  | Sent (c : nat)                         (* [nil] was returned *)
  | NotSent (err : error).

(** A call of [Send]. *)
Record sender := Sender { sd_addr : string; sd_rpc : RPC; sd_pc : send_pc }.

(** The field [t.listener], the listeners that are open, and the accept loops,
    one for each listener that was made, with the listener whose [Accept] it
    waits in. A loop reads the field anew on each turn. *)
Record listeners := Listeners {
  l_listener : option nat;
  l_open : gset nat;
  l_loops : gmap nat (option nat);
  l_next : nat;
}.

(** [t_yielded] is what [Consume()] has handed over so far. The number next to
    an RPC is the connection it came over. *)
Record TCPTransport := Trans {
  t_opts : TCPTransportOpts;
  t_ListenAddr : string;
  t_listeners : listeners;
  t_peers : gmap string nat;
  t_conns : gmap nat TCPPeer;
  t_senders : gmap nat sender;
  t_rpcCh : list (nat * RPC);
  t_yielded : list (nat * RPC);
}.

(** [make(chan RPC, 1024)] *)
Definition rpcCh_size : nat := 1024.

Definition NewTCPTransport (opts : TCPTransportOpts) (ListenAddr : string) : TCPTransport :=
  Trans opts ListenAddr (Listeners None ∅ ∅ 0) ∅ ∅ ∅ [] [].

Definition NewTCPPeer (remote : string) (input : reader) (outbound : bool) : TCPPeer :=
  Peer remote outbound input (Writer [] []) 0 Entered.

(** A statement goes on, waits, or panics. *)
Inductive outcome := Next (t : TCPTransport) | Blocked | Crashed.

Section Transport.
Context `{RPCJson}.

(** ** Parts of the state *)

Definition with_peer (c : nat) (k : TCPPeer) (t : TCPTransport) : TCPTransport :=
  Trans (t_opts t) (t_ListenAddr t) (t_listeners t) (t_peers t) (<[c := k]> (t_conns t)) (t_senders t)
    (t_rpcCh t) (t_yielded t).
Definition with_peers (peers : gmap string nat) (t : TCPTransport) : TCPTransport :=
  Trans (t_opts t) (t_ListenAddr t) (t_listeners t) peers (t_conns t) (t_senders t) (t_rpcCh t) (t_yielded t).
Definition with_sender (s : nat) (x : sender) (t : TCPTransport) : TCPTransport :=
  Trans (t_opts t) (t_ListenAddr t) (t_listeners t) (t_peers t) (t_conns t) (<[s := x]> (t_senders t))
    (t_rpcCh t) (t_yielded t).
Definition with_rpcCh (ch yielded : list (nat * RPC)) (t : TCPTransport) : TCPTransport :=
  Trans (t_opts t) (t_ListenAddr t) (t_listeners t) (t_peers t) (t_conns t) (t_senders t) ch yielded.
Definition with_listeners (addr : string) (ls : listeners) (t : TCPTransport) : TCPTransport :=
  Trans (t_opts t) addr ls (t_peers t) (t_conns t) (t_senders t) (t_rpcCh t) (t_yielded t).

Definition at_pc (pc : conn_pc) (k : TCPPeer) : TCPPeer :=
  Peer (k_remote k) (k_outbound k) (k_in k) (k_out k) (k_wg k) pc.
Definition with_in (input : reader) (k : TCPPeer) : TCPPeer :=
  Peer (k_remote k) (k_outbound k) input (k_out k) (k_wg k) (k_pc k).
Definition with_out (out : writer) (k : TCPPeer) : TCPPeer :=
  Peer (k_remote k) (k_outbound k) (k_in k) out (k_wg k) (k_pc k).
Definition with_wg (wg : nat) (k : TCPPeer) : TCPPeer :=
  Peer (k_remote k) (k_outbound k) (k_in k) (k_out k) wg (k_pc k).

(** ** [handleConn], statement by statement *)

(** A callback that is not configured is skipped; [res] is its outcome. *)
Definition callback (set : bool) (res : option error) (next : conn_pc) : conn_pc :=
  if set then match res with Some e => Leaving e | None => next end else next.

(** One turn of the read loop, up to where it waits. *)
Definition read_rpc (opts : TCPTransportOpts) (k : TCPPeer) : TCPPeer :=
  if o_Decoder opts then
    match Decode (k_in k) with
    | (input, Ok rpc) =>
        let rpc := with_From (k_remote k) rpc in
        if rpc_Stream rpc then at_pc Streaming (with_wg (k_wg k + 1) (with_in input k))
        else at_pc (Delivering rpc) (with_in input k)
    | (input, Err e) => at_pc (Leaving e) (with_in input k)
    | (_, Panic) => k
    end
  else at_pc (Leaving (EMsg "no decoder configured")) k.

(** [Accept] carries an error, which is logged, or a connection and whether its
    TLS handshake succeeds; [Connect] is a call of [Dial] that succeeds. The
    address of the other end, [conn.RemoteAddr()], is the network's to say: it
    differs from the address dialled when that has a host name. [SendDial]
    carries the outcome of [net.Dial] or [tls.Dial]. *)
Inductive action :=
  | ListenAndAccept (r : option string)
  | Close
  | AcceptLoop (i : nat)
  | Accept (i c : nat) (r : option (string * reader * bool))
  | Connect (c : nat) (remote : string) (input : reader)
  | Register (c : nat)
  | Handshake (c : nat) (r : option error)
  | OnPeer (c : nat) (r : option error)
  | ReadRPC (c : nat)
  | Deliver (c : nat)
  | CloseStream (c : nat)
  | Resume (c : nat)
  | Leave (c : nat)
  | Consume
  | Send (s : nat) (addr : string) (rpc : RPC)
  | SendLookup (s : nat)
  | SendDial (s c : nat) (r : error + string * reader)
  | SendWake (s : nat)
  | SendEncode (s : nat)
  | SendLength (s : nat)
  | SendPayload (s : nat).

(** The statements of the handler of connection [c]. *)
Definition exec_conn (a : action) (c : nat) (k : TCPPeer) (t : TCPTransport) : outcome :=
  match a, k_pc k with
  | Register _, Entered =>
      Next (with_peers (<[k_remote k := c]> (t_peers t)) (with_peer c (at_pc Handshaking k) t))
  | Handshake _ r, Handshaking =>
      Next (with_peer c (at_pc (callback (o_HandshakeFunc (t_opts t)) r Notifying) k) t)
  | OnPeer _ r, Notifying =>
      Next (with_peer c (at_pc (callback (o_OnPeer (t_opts t)) r Reading) k) t)
  | ReadRPC _, Reading => Next (with_peer c (read_rpc (t_opts t) k) t)
  | Deliver _, Delivering rpc =>
      if (length (t_rpcCh t) <? rpcCh_size)%nat then
        Next (with_rpcCh (t_rpcCh t ++ [(c, rpc)]) (t_yielded t) (with_peer c (at_pc Reading k) t))
      else Blocked
  | CloseStream _, _ =>
      match k_wg k with O => Crashed | S wg => Next (with_peer c (with_wg wg k) t) end
  | Resume _, Streaming =>
      match k_wg k with O => Next (with_peer c (at_pc Reading k) t) | S _ => Blocked end
  | Leave _, Leaving _ =>
      Next (with_peers (delete (k_remote k) (t_peers t)) (with_peer c (at_pc Left k) t))
  | _, _ => Blocked
  end.

(** [go t.handleConn(conn, outbound)], with a new number for the connection. *)
Definition start_conn (c : nat) (remote : string) (input : reader) (outbound : bool)
    (t : TCPTransport) : outcome :=
  match t_conns t !! c with
  | None => Next (with_peer c (NewTCPPeer remote input outbound) t)
  | Some _ => Blocked
  end.

(** ** Listening *)

(** [r] is the outcome of [net.Listen]: the address chosen, or an error, with
    which [t.listener] becomes [nil] all the same. *)
Definition listen (r : option string) (t : TCPTransport) : outcome :=
  let ls := t_listeners t in
  match r with
  | None => Next (with_listeners (t_ListenAddr t) (Listeners None (l_open ls) (l_loops ls) (l_next ls)) t)
  | Some addr =>
      let i := l_next ls in
      Next (with_listeners addr (Listeners (Some i) ({[i]} ∪ l_open ls) (<[i := None]> (l_loops ls)) (S i)) t)
  end.

Definition close (t : TCPTransport) : outcome :=
  let ls := t_listeners t in
  match l_listener ls with
  | None => Next t
  | Some i => Next (with_listeners (t_ListenAddr t)
                (Listeners (Some i) (l_open ls ∖ {[i]}) (l_loops ls) (l_next ls)) t)
  end.

Definition with_loops (loops : gmap nat (option nat)) (t : TCPTransport) : TCPTransport :=
  let ls := t_listeners t in
  with_listeners (t_ListenAddr t) (Listeners (l_listener ls) (l_open ls) loops (l_next ls)) t.

(** The head of [startAcceptLoop]: [t.listener] is read, and its [Accept]
    called, which panics on [nil]. *)
Definition accept_call (i : nat) (t : TCPTransport) : outcome :=
  match l_loops (t_listeners t) !! i with
  | Some None =>
      match l_listener (t_listeners t) with
      | None => Crashed
      | Some l => Next (with_loops (<[i := Some l]> (l_loops (t_listeners t))) t)
      end
  | _ => Blocked
  end.

(** The rest of the turn; a closed listener ends the loop. *)
Definition accept_turn (i c : nat) (r : option (string * reader * bool)) (t : TCPTransport) : outcome :=
  match l_loops (t_listeners t) !! i with
  | Some (Some l) =>
      if bool_decide (l ∈ l_open (t_listeners t)) then
        let t := with_loops (<[i := None]> (l_loops (t_listeners t))) t in
        match r with
        | None => Next t
        | Some (remote, input, tls_ok) =>
            if o_TLSConfig (t_opts t) && negb tls_ok then Next t
            else start_conn c remote input false t
        end
      else Next (with_loops (delete i (l_loops (t_listeners t))) t)
  | _ => Blocked
  end.

(** A receive from [Consume()]. *)
Definition consume (t : TCPTransport) : outcome :=
  match t_rpcCh t with
  | [] => Blocked
  | x :: rest => Next (with_rpcCh rest (t_yielded t ++ [x]) t)
  end.

(** ** [Send], statement by statement *)

(** What a write to the connection does; a connection its handler has closed
    refuses it. *)
Definition conn_out (k : TCPPeer) : writer :=
  match k_pc k with
  | Left => Writer (written (k_out k)) [Some (0, EMsg "use of closed network connection")]
  | _ => k_out k
  end.

(** One of the encoder's writes, to connection [c]. *)
Definition conn_write (s : nat) (x : sender) (c : nat) (m : M writer unit) (next : send_pc) (t : TCPTransport) :
    outcome :=
  match t_conns t !! c with
  | None => Blocked
  | Some k =>
      match m (conn_out k) with
      | (out, Ok _) => Next (with_sender s (Sender (sd_addr x) (sd_rpc x) next) (with_peer c (with_out out k) t))
      | (out, Err e) =>
          Next (with_sender s (Sender (sd_addr x) (sd_rpc x) (NotSent e)) (with_peer c (with_out out k) t))
      | (_, Panic) => Crashed
      end
  end.

Definition exec_send (a : action) (s : nat) (x : sender) (t : TCPTransport) : outcome :=
  let go pc := Next (with_sender s (Sender (sd_addr x) (sd_rpc x) pc) t) in
  match a, sd_pc x with
  | SendLookup _, Looking =>
      match t_peers t !! sd_addr x with Some c => go (Encoding c) | None => go Dialing end
  | SendDial _ c r, Dialing =>
      match r with
      | inl e => go (NotSent e)
      | inr (remote, input) =>
          start_conn c remote input true (with_sender s (Sender (sd_addr x) (sd_rpc x) Sleeping) t)
      end
  | SendWake _, Sleeping =>
      match t_peers t !! sd_addr x with
      | Some c => go (Encoding c)
      | None => go (NotSent (EMsg ("could not connect to " +:+ sd_addr x)))
      end
  | SendEncode _, Encoding c =>
      if o_Encoder (t_opts t) then
        match marshal (sd_rpc x) with
        | Ok data => go (WritingLength c data)
        | Err e => go (NotSent e)
        | Panic => Crashed
        end
      else go (NotSent (EMsg "no encoder configured"))
  | SendLength _, WritingLength c data => conn_write s x c (write_length data) (WritingPayload c data) t
  | SendPayload _, WritingPayload c data => conn_write s x c (write_payload data) (Sent c) t
  | _, _ => Blocked
  end.

(** A goroutine calls [Send]; [s] is the number of the call. *)
Definition send_call (s : nat) (addr : string) (rpc : RPC) (t : TCPTransport) : outcome :=
  match t_senders t !! s with
  | None => Next (with_sender s (Sender addr rpc Looking) t)
  | Some _ => Blocked
  end.

(** ** The machine *)

Definition exec (a : action) (t : TCPTransport) : outcome :=
  match a with
  | ListenAndAccept r => listen r t
  | Close => close t
  | AcceptLoop i => accept_call i t
  | Accept i c r => accept_turn i c r t
  | Connect c remote input => start_conn c remote input true t
  | Consume => consume t
  | Register c | Handshake c _ | OnPeer c _ | ReadRPC c | Deliver c | CloseStream c | Resume c | Leave c =>
      match t_conns t !! c with Some k => exec_conn a c k t | None => Blocked end
  | Send s addr rpc => send_call s addr rpc t
  | SendLookup s | SendDial s _ _ | SendWake s | SendEncode s | SendLength s | SendPayload s =>
      match t_senders t !! s with Some x => exec_send a s x t | None => Blocked end
  end.

Fixpoint run (l : list action) (t : TCPTransport) : outcome :=
  match l with
  | [] => Next t
  | a :: rest => match exec a t with Next t' => run rest t' | o => o end
  end.
End Transport.

(** ** The invariant of the transport *)

Section TransportOk.
Context `{RPCJson}.

(** The handler has registered the peer and not yet removed it. *)
Definition registered (k : TCPPeer) : bool :=
  match k_pc k with Entered | Left => false | _ => true end.

(** What a handler hands over: a message that is no stream control, under the
    address of the connection. *)
Definition from_peer (k : TCPPeer) (rpc : RPC) : Prop :=
  rpc_From rpc = k_remote k ∧ rpc_Stream rpc = false.

(** The connection a call of [Send] has chosen. *)
Definition sends_to (pc : send_pc) : option nat :=
  match pc with
  | Encoding c | WritingLength c _ | WritingPayload c _ | Sent c => Some c
  | _ => None
  end.

Record transport_ok (t : TCPTransport) : Prop := {
  ok_peers a c : t_peers t !! a = Some c →
    ∃ k, t_conns t !! c = Some k ∧ k_remote k = a ∧ registered k = true;
  ok_delivering c k rpc : t_conns t !! c = Some k → k_pc k = Delivering rpc → from_peer k rpc;
  ok_rpcs c rpc : (c, rpc) ∈ t_yielded t ++ t_rpcCh t → ∃ k, t_conns t !! c = Some k ∧ from_peer k rpc;
  ok_size : length (t_rpcCh t) ≤ rpcCh_size;
  ok_senders s x c : t_senders t !! s = Some x → sends_to (sd_pc x) = Some c →
    ∃ k, t_conns t !! c = Some k ∧ k_remote k = sd_addr x;
}.

Lemma NewTCPTransport_ok opts addr : transport_ok (NewTCPTransport opts addr).
Proof. split; simpl; try done. - intros c rpc []%not_elem_of_nil. - lia. Qed.

(** A connection appears, or a handler moves on under the same address. *)
Lemma with_peer_ok c k t :
  transport_ok t →
  (∀ k0, t_conns t !! c = Some k0 → k_remote k0 = k_remote k ∧ (registered k0 = true → registered k = true)) →
  (∀ rpc, k_pc k = Delivering rpc → from_peer k rpc) →
  transport_ok (with_peer c k t).
Proof.
  intros Ht Hold Hdel. split; simpl.
  - intros a c' Ha. destruct (ok_peers t Ht a c' Ha) as (k0 & Hk0 & <- & Hreg).
    destruct (decide (c = c')) as [<-|Hne].
    + rewrite lookup_insert_eq. exists k. destruct (Hold k0 Hk0) as [-> ?]. auto.
    + rewrite lookup_insert_ne by done. by exists k0.
  - intros c' k' rpc Hk' Hpc. destruct (decide (c = c')) as [<-|Hne].
    + rewrite lookup_insert_eq in Hk'. injection Hk' as <-. by apply Hdel.
    + rewrite lookup_insert_ne in Hk' by done. by eapply (ok_delivering t Ht).
  - intros c' rpc Hin. destruct (ok_rpcs t Ht c' rpc Hin) as (k0 & Hk0 & Hfrom & ?).
    destruct (decide (c = c')) as [<-|Hne].
    + rewrite lookup_insert_eq. exists k. destruct (Hold k0 Hk0) as [Hr _].
      split; [done|]. split; congruence.
    + rewrite lookup_insert_ne by done. by exists k0.
  - apply (ok_size t Ht).
  - intros s x c' Hs Hc. destruct (ok_senders t Ht s x c' Hs Hc) as (k0 & Hk0 & <-).
    destruct (decide (c = c')) as [<-|Hne].
    + rewrite lookup_insert_eq. exists k. split; [done|]. by destruct (Hold k0 Hk0) as [-> _].
    + rewrite lookup_insert_ne by done. by exists k0.
Qed.

Lemma with_sender_ok s x t :
  transport_ok t →
  (∀ c, sends_to (sd_pc x) = Some c → ∃ k, t_conns t !! c = Some k ∧ k_remote k = sd_addr x) →
  transport_ok (with_sender s x t).
Proof.
  intros Ht Hx. split; simpl; try by apply Ht. intros s' x' c Hs Hc.
  rewrite lookup_insert in Hs. case_decide; [injection Hs as <-; by apply Hx|].
  by eapply (ok_senders t Ht).
Qed.

Lemma with_listeners_ok addr ls t : transport_ok t → transport_ok (with_listeners addr ls t).
Proof. intros Ht. split; apply Ht. Qed.

Lemma start_conn_ok c remote input outbound t t' :
  transport_ok t → start_conn c remote input outbound t = Next t' → transport_ok t'.
Proof.
  intros Ht Hs. unfold start_conn in Hs. destruct (t_conns t !! c) eqn:E; [done|]. injection Hs as <-.
  apply with_peer_ok; [done| |done]. intros k0. congruence.
Qed.

Lemma read_rpc_remote opts k : k_remote (read_rpc opts k) = k_remote k.
Proof.
  unfold read_rpc. destruct (o_Decoder opts); [|done].
  destruct (Decode (k_in k)) as [input [rpc|e|]]; [|done..]. by destruct (rpc_Stream (with_From _ rpc)).
Qed.

Lemma read_rpc_registered opts k : k_pc k = Reading → registered (read_rpc opts k) = true.
Proof.
  intros Hpc. unfold read_rpc, registered. destruct (o_Decoder opts); [|done].
  destruct (Decode (k_in k)) as [input [rpc|e|]]; [|done|by rewrite Hpc].
  by destruct (rpc_Stream (with_From _ rpc)).
Qed.

Lemma read_rpc_from opts k rpc : k_pc k = Reading →
  k_pc (read_rpc opts k) = Delivering rpc → from_peer (read_rpc opts k) rpc.
Proof.
  intros Hpc. unfold read_rpc. destruct (o_Decoder opts); [|done].
  destruct (Decode (k_in k)) as [input [rpc'|e|]]; [|done|by rewrite Hpc].
  destruct (rpc_Stream (with_From _ rpc')) eqn:E; [done|]. simpl. by intros [= <-].
Qed.

Lemma callback_running set r next : next = Notifying ∨ next = Reading →
  (∀ k, registered (at_pc (callback set r next) k) = true) ∧ (∀ rpc, callback set r next ≠ Delivering rpc).
Proof. intros [-> | ->]; destruct set, r; done. Qed.

Lemma exec_conn_ok a c k t t' :
  transport_ok t → t_conns t !! c = Some k → exec_conn a c k t = Next t' → transport_ok t'.
Proof.
  intros Ht Hk He.
  assert (Hmove : ∀ k', k_remote k' = k_remote k → (registered k = true → registered k' = true) →
    (∀ rpc, k_pc k' = Delivering rpc → from_peer k' rpc) → transport_ok (with_peer c k' t)).
  { intros k' Hr Hreg Hdel. apply with_peer_ok; [done| |done]. intros k0 Hk0.
    rewrite Hk in Hk0. injection Hk0 as <-. by split. }
  destruct a; try discriminate He; simpl in He; destruct (k_pc k) eqn:Hpc; try discriminate He;
    try match type of He with context [k_wg k] => destruct (k_wg k) eqn:Hwg; try discriminate He end;
    try injection He as <-;
    try (apply Hmove; [done|unfold registered; simpl; by rewrite Hpc|
      intros rpc0 Hd; exact (ok_delivering t Ht c k rpc0 Hk Hd)]).
  - (* Register *)
    assert (Hm : transport_ok (with_peer c (at_pc Handshaking k) t)) by by apply Hmove.
    split; simpl; try by apply Hm. intros a c' Ha. rewrite lookup_insert in Ha. case_decide.
    + injection Ha as <-. exists (at_pc Handshaking k). rewrite lookup_insert_eq. by subst.
    + apply (ok_peers _ Hm a c' Ha).
  - apply Hmove; [done|intros _; by apply callback_running; left|].
    intros rpc Hd. by apply callback_running in Hd; [|left].
  - apply Hmove; [done|intros _; by apply callback_running; right|].
    intros rpc Hd. by apply callback_running in Hd; [|right].
  - apply Hmove; [apply read_rpc_remote|intros _; by apply read_rpc_registered|].
    intros rpc. by apply read_rpc_from.
  - (* Deliver *)
    destruct (length (t_rpcCh t) <? rpcCh_size)%nat eqn:E; [|done]. injection He as <-. bool_to_Prop.
    assert (Hm : transport_ok (with_peer c (at_pc Reading k) t)) by by apply Hmove; [|unfold registered; rewrite Hpc|].
    split; simpl; try by apply Hm.
    + intros c' rpc'. rewrite app_assoc, elem_of_app. intros [Hin|Hin]; [by apply (ok_rpcs _ Hm)|].
      apply list_elem_of_singleton in Hin. injection Hin as -> ->.
      exists (at_pc Reading k). rewrite lookup_insert_eq. split; [done|].
      by apply (ok_delivering t Ht c k).
    + rewrite length_app. simpl. lia.
  - (* Resume *) apply Hmove; [done|done|done].
  - (* Leave *)
    assert (Hleft : ∀ a c', delete (k_remote k) (t_peers t) !! a = Some c' → c' ≠ c).
    { intros a c' [Hne Ha]%lookup_delete_Some ->. destruct (ok_peers t Ht a c Ha) as (k0 & Hk0 & ? & _).
      congruence. }
    split; simpl; try by apply Ht.
    + intros a c' Ha. pose proof (Hleft a c' Ha) as Hne. rewrite lookup_insert_ne by done.
      apply lookup_delete_Some in Ha as [_ Ha]. by apply (ok_peers t Ht).
    + intros c' k' rpc Hk'. rewrite lookup_insert in Hk'. case_decide; [by injection Hk' as <-|].
      by apply (ok_delivering t Ht c').
    + intros c' rpc Hin. destruct (ok_rpcs t Ht c' rpc Hin) as (k0 & Hk0 & Hf).
      rewrite lookup_insert. case_decide; [|by exists k0]. subst c'. rewrite Hk in Hk0.
      injection Hk0 as <-. by exists (at_pc Left k).
    + intros s x c' Hs Hc. destruct (ok_senders t Ht s x c' Hs Hc) as (k0 & Hk0 & Hr).
      rewrite lookup_insert. case_decide; [|by exists k0]. subst c'. rewrite Hk in Hk0.
      injection Hk0 as <-. by exists (at_pc Left k).
Qed.

Lemma conn_write_ok s x c m next t t' :
  transport_ok t → t_senders t !! s = Some x → sends_to (sd_pc x) = Some c → sends_to next = Some c →
  conn_write s x c m next t = Next t' → transport_ok t'.
Proof.
  intros Ht Hs Hc Hn Hw. unfold conn_write in Hw.
  destruct (ok_senders t Ht s x c Hs Hc) as (k & Hk & Hr). rewrite Hk in Hw.
  assert (∀ out, transport_ok (with_peer c (with_out out k) t)) as Hout.
  { intros out. apply with_peer_ok; [done| |].
    - intros k0 Hk0. rewrite Hk in Hk0. by injection Hk0 as <-.
    - intros rpc. by apply (ok_delivering t Ht c k). }
  destruct (m (conn_out k)) as [out [[]|e|]]; [| |done]; injection Hw as <-; (apply with_sender_ok; [apply Hout|]).
  - cbn [sd_pc]. rewrite Hn. intros c' [= <-]. cbn. rewrite lookup_insert_eq. by eexists.
  - done.
Qed.

Lemma exec_send_ok a s x t t' :
  transport_ok t → t_senders t !! s = Some x → exec_send a s x t = Next t' → transport_ok t'.
Proof.
  intros Ht Hs He.
  assert (Hgo : ∀ pc, (∀ c, sends_to pc = Some c → ∃ k, t_conns t !! c = Some k ∧ k_remote k = sd_addr x) →
    transport_ok (with_sender s (Sender (sd_addr x) (sd_rpc x) pc) t)) by (intros; by apply with_sender_ok).
  assert (Hfound : ∀ c, t_peers t !! sd_addr x = Some c →
    transport_ok (with_sender s (Sender (sd_addr x) (sd_rpc x) (Encoding c)) t)).
  { intros c Hc. apply Hgo. intros c' [= <-]. destruct (ok_peers t Ht _ _ Hc) as (k & ? & ? & _). by exists k. }
  unfold exec_send in He. destruct a; try done; destruct (sd_pc x) as [| | |c0|c0 d0|c0 d0|c0|e0] eqn:Hpc; try done.
  - destruct (t_peers t !! sd_addr x) as [c|] eqn:E; injection He as <-; [by apply Hfound|by apply Hgo].
  - destruct r as [e|[remote input]]; [injection He as <-; by apply Hgo|].
    eapply start_conn_ok; [|exact He]. by apply Hgo.
  - destruct (t_peers t !! sd_addr x) as [c|] eqn:E; injection He as <-; [by apply Hfound|by apply Hgo].
  - destruct (o_Encoder (t_opts t)); [|injection He as <-; by apply Hgo].
    destruct (marshal (sd_rpc x)); [|injection He as <-; by apply Hgo|done]. injection He as <-.
    apply Hgo. intros c' [= <-]. apply (ok_senders t Ht s x); [done|by rewrite Hpc].
  - eapply conn_write_ok; [done|exact Hs|by rewrite Hpc| |exact He]. done.
  - eapply conn_write_ok; [done|exact Hs|by rewrite Hpc| |exact He]. done.
Qed.

Lemma exec_ok a t t' : transport_ok t → exec a t = Next t' → transport_ok t'.
Proof.
  intros Ht He. destruct a; cbn [exec] in He;
    try (destruct (t_conns t !! c) as [k|] eqn:Hk; [|done]; by eapply exec_conn_ok);
    try (destruct (t_senders t !! s) as [x|] eqn:Hs; [|done]; by eapply exec_send_ok).
  - unfold listen in He. destruct r; injection He as <-; by apply with_listeners_ok.
  - unfold close in He. destruct (l_listener _); injection He as <-; [by apply with_listeners_ok|done].
  - unfold accept_call in He. destruct (l_loops _ !! i) as [[]|]; [done| |done].
    destruct (l_listener _); [|done]. injection He as <-. by apply with_listeners_ok.
  - unfold accept_turn in He. destruct (l_loops _ !! i) as [[l|]|]; [|done..].
    case_bool_decide; [|injection He as <-; by apply with_listeners_ok].
    destruct r as [[[remote input] ok]|]; [|injection He as <-; by apply with_listeners_ok].
    destruct (o_TLSConfig _ && negb ok); [injection He as <-; by apply with_listeners_ok|].
    eapply start_conn_ok; [|exact He]. by apply with_listeners_ok.
  - by eapply start_conn_ok.
  - unfold consume in He. destruct (t_rpcCh t) as [|x rest] eqn:E; [done|]. injection He as <-.
    pose proof (ok_size t Ht) as Hl. split; simpl; try by apply Ht.
    + intros c rpc. rewrite <-app_assoc. simpl. rewrite <-E. apply (ok_rpcs t Ht).
    + rewrite E in Hl. simpl in Hl. lia.
  - unfold send_call in He. destruct (t_senders t !! s); [done|]. injection He as <-. by apply with_sender_ok.
Qed.

Lemma run_ok l t t' : transport_ok t → run l t = Next t' → transport_ok t'.
Proof.
  revert t. induction l as [|a l IH]; intros t Ht; simpl; [by intros [= <-]|].
  destruct (exec a t) as [t1| |] eqn:E; [|done..]. apply IH. by eapply exec_ok.
Qed.
End TransportOk.

(** ** What a connection still has to deliver *)

Section Delivery.
Context `{RPCJson}.

Lemma Decode_size r r' rpc : Decode r = (r', Ok rpc) → reader_size r' < reader_size r.
Proof.
  unfold Decode, mbind, M_bind, read_length, read_payload, unmarshal.
  destruct (conn_ReadFull_total 4 r) as (d & e & r1 & -> & _ & Hlt).
  destruct e as [e|]; [done|]. destruct (Uint32 d =? 0)%N; [done|].
  destruct (MaxMessageSize <? Uint32 d)%N; [done|].
  destruct (conn_ReadFull_total (N.to_nat (Uint32 d)) r1) as (d' & e' & r2 & -> & Hle & _).
  specialize (Hlt ltac:(lia) eq_refl). destruct e' as [e'|]; [done|].
  destruct (rpc_Unmarshal d'); intros; simplify_eq/=. lia.
Qed.

(** The messages that [Decode] finds, stream controls left out, up to its first
    error. *)
Fixpoint incoming (fuel : nat) (r : reader) : list RPC :=
  match fuel with
  | O => []
  | S fuel' =>
      match Decode r with
      | (r', Ok rpc) => (if rpc_Stream rpc then [] else [rpc]) ++ incoming fuel' r'
      | _ => []
      end
  end.

Lemma incoming_enough fuel fuel' r :
  reader_size r < fuel → reader_size r < fuel' → incoming fuel r = incoming fuel' r.
Proof.
  revert fuel' r. induction fuel as [|fuel IH]; intros [|fuel'] r Hf Hf'; try lia. simpl.
  destruct (Decode r) as [r' [rpc|e|]] eqn:E; [|done..]. apply Decode_size in E.
  f_equal. apply IH; lia.
Qed.

Definition decode_all (r : reader) : list RPC := incoming (S (reader_size r)) r.

Lemma decode_all_step r r' rpc :
  Decode r = (r', Ok rpc) →
  decode_all r = (if rpc_Stream rpc then [] else [rpc]) ++ decode_all r'.
Proof.
  intros E. unfold decode_all at 1. cbn [incoming]. rewrite E. f_equal.
  apply Decode_size in E. unfold decode_all. apply incoming_enough; lia.
Qed.

Definition to_come (k : TCPPeer) : list RPC :=
  match k_pc k with
  | Delivering rpc => rpc :: (with_From (k_remote k) <$> decode_all (k_in k))
  | Leaving _ | Left => []
  | _ => with_From (k_remote k) <$> decode_all (k_in k)
  end.

(** What was delivered from connection [c] so far. *)
Definition delivered (c : nat) (t : TCPTransport) : list RPC :=
  (filter (λ x, x.1 = c) (t_yielded t ++ t_rpcCh t)).*2.

(** Nothing is lost ([b]), or what is lost comes last. *)
Definition follows (b : bool) (l1 l2 : list RPC) : Prop := if b then l1 = l2 else l1 `prefix_of` l2.

Lemma follows_refl b l : follows b l l.
Proof. by destruct b. Qed.

Lemma follows_trans b l1 l2 l3 : follows b l1 l2 → follows b l2 l3 → follows b l1 l3.
Proof. destruct b; simpl; [congruence|apply transitivity]. Qed.

Lemma follows_app b l l1 l2 : follows b l1 l2 → follows b (l ++ l1) (l ++ l2).
Proof. destruct b; simpl; [congruence|apply prefix_app]. Qed.

Lemma follows_weaken b b' l1 l2 : follows b l1 l2 → (b' = true → b = true) → follows b' l1 l2.
Proof. destruct b, b'; simpl; intros Hf Hb; [done|by subst|by specialize (Hb eq_refl)|done]. Qed.

Lemma follows_prefix b l1 l2 : follows b l1 l2 → l1 `prefix_of` l2.
Proof. destruct b; [by intros ->|done]. Qed.

(** A callback of connection [c] fails. *)
Definition callback_fails (c : nat) (a : action) : bool :=
  match a with Handshake c' (Some _) | OnPeer c' (Some _) => (c' =? c)%nat | _ => false end.

Definition lossless (opts : TCPTransportOpts) (c : nat) (a : action) : bool :=
  o_Decoder opts && negb (callback_fails c a).

Lemma decode_all_err r r' e : Decode r = (r', Err e) → decode_all r = [].
Proof. intros E. unfold decode_all. cbn [incoming]. by rewrite E. Qed.

Lemma read_rpc_to_come opts k :
  k_pc k = Reading → follows (o_Decoder opts) (to_come (read_rpc opts k)) (to_come k).
Proof.
  intros Hpc. unfold read_rpc, to_come. rewrite Hpc. destruct (o_Decoder opts); [|apply prefix_nil].
  destruct (Decode (k_in k)) as [input [rpc|e|]] eqn:E; [| |by rewrite Hpc].
  - rewrite (decode_all_step _ _ _ E). change (rpc_Stream (with_From (k_remote k) rpc)) with (rpc_Stream rpc).
    destruct (rpc_Stream rpc); reflexivity.
  - by rewrite (decode_all_err _ _ _ E).
Qed.

Lemma callback_to_come b set r next k :
  next = Notifying ∨ next = Reading → k_pc k = Handshaking ∨ k_pc k = Notifying →
  (b = true → r = None) →
  follows b (to_come (at_pc (callback set r next) k)) (to_come k).
Proof.
  intros Hn Hpc Hr. unfold to_come, callback. cbn [k_pc at_pc].
  destruct b; [specialize (Hr eq_refl) as ->|];
  destruct Hn as [-> | ->], Hpc as [-> | ->], set; try destruct r; try apply prefix_nil; done.
Qed.

(** What follows an action holds for connection [c] when its peer moves on. *)
Definition delivers (b : bool) (c : nat) (k : TCPPeer) (t t' : TCPTransport) : Prop :=
  ∃ k', t_conns t' !! c = Some k' ∧ k_remote k' = k_remote k ∧
    follows b (delivered c t' ++ to_come k') (delivered c t ++ to_come k).

Lemma delivers_same b c k t t' :
  t_conns t !! c = Some k → t_conns t' = t_conns t → t_yielded t' ++ t_rpcCh t' = t_yielded t ++ t_rpcCh t →
  delivers b c k t t'.
Proof.
  intros Hk Hc Hd. exists k. rewrite Hc. split_and!; [done|done|]. unfold delivered. rewrite Hd. apply follows_refl.
Qed.

Lemma delivers_one b c k c' k0 k2 t t' :
  t_conns t !! c = Some k → t_conns t !! c' = Some k0 → t_conns t' = <[c' := k2]> (t_conns t) →
  t_yielded t' ++ t_rpcCh t' = t_yielded t ++ t_rpcCh t →
  k_remote k2 = k_remote k0 → (c' = c → follows b (to_come k2) (to_come k0)) → delivers b c k t t'.
Proof.
  intros Hk Hk0 Hc Hd Hr Hp. unfold delivers, delivered. rewrite Hc, Hd, lookup_insert. case_decide as Heq.
  - subst c'. rewrite Hk in Hk0. injection Hk0 as <-. exists k2. split_and!; [done|done|].
    by apply follows_app, Hp.
  - exists k. split_and!; [done|done|]. apply follows_refl.
Qed.

Lemma delivers_new b c k c' remote input outbound t0 t t' :
  t_conns t !! c = Some k → t_conns t0 = t_conns t → t_yielded t0 ++ t_rpcCh t0 = t_yielded t ++ t_rpcCh t →
  start_conn c' remote input outbound t0 = Next t' → delivers b c k t t'.
Proof.
  intros Hk Hc Hd Hs. unfold start_conn in Hs. rewrite Hc in Hs.
  destruct (t_conns t !! c') eqn:E; [done|]. injection Hs as <-. exists k. cbn. rewrite Hc.
  rewrite lookup_insert_ne by (intros ->; congruence). split_and!; [done|done|].
  unfold delivered. cbn. rewrite Hd. apply follows_refl.
Qed.

Lemma exec_conn_delivers a c0 k0 t t' c k :
  exec_conn a c0 k0 t = Next t' → t_conns t !! c0 = Some k0 → t_conns t !! c = Some k →
  (∀ c' r, a = Handshake c' r ∨ a = OnPeer c' r → c' = c0) →
  delivers (lossless (t_opts t) c a) c k t t'.
Proof.
  intros He Hk0 Hk Hc0.
  destruct a; cbn [exec_conn] in He; try discriminate He; destruct (k_pc k0) eqn:Hpc; try discriminate He;
    try match type of He with context [k_wg k0] => destruct (k_wg k0); try discriminate He end;
    try (injection He as <-; eapply delivers_one; [exact Hk|exact Hk0|reflexivity|reflexivity|reflexivity|];
         intros _; unfold to_come; cbn; rewrite Hpc; apply follows_refl).
  - injection He as <-. eapply delivers_one; [exact Hk|exact Hk0|done|done|done|].
    intros ->. apply callback_to_come; auto. rewrite (Hc0 _ _ (or_introl eq_refl)).
    unfold lossless. cbn. destruct r; [|done]. rewrite Nat.eqb_refl. by rewrite andb_false_r.
  - injection He as <-. eapply delivers_one; [exact Hk|exact Hk0|done|done|done|].
    intros ->. apply callback_to_come; auto. rewrite (Hc0 _ _ (or_intror eq_refl)).
    unfold lossless. cbn. destruct r; [|done]. rewrite Nat.eqb_refl. by rewrite andb_false_r.
  - injection He as <-. eapply delivers_one; [exact Hk|exact Hk0|done|done|apply read_rpc_remote|].
    intros _. unfold lossless. cbn. rewrite andb_true_r. by apply read_rpc_to_come.
  - (* Deliver *)
    destruct (length (t_rpcCh t) <? rpcCh_size)%nat; [|done]. injection He as <-.
    unfold delivers, delivered. simpl. rewrite app_assoc, filter_app.
    destruct (decide (c0 = c)) as [->|Hne].
    + rewrite Hk in Hk0. injection Hk0 as <-. exists (at_pc Reading k). rewrite lookup_insert_eq.
      split_and!; [done|done|]. rewrite filter_cons_True by done. rewrite filter_nil, fmap_app. simpl.
      rewrite <-app_assoc. unfold to_come at 2. rewrite Hpc. apply follows_refl.
    + exists k. rewrite lookup_insert_ne by done. split_and!; [done|done|].
      rewrite filter_cons_False by done. rewrite filter_nil, app_nil_r. apply follows_refl.
Qed.

Lemma exec_send_delivers b a s x t t' c k :
  exec_send a s x t = Next t' → t_conns t !! c = Some k → delivers b c k t t'.
Proof.
  intros He Hk. unfold exec_send in He.
  assert (∀ x', delivers b c k t (with_sender s x' t)) as Hgo by (intros; by apply delivers_same).
  assert (∀ c0 m next, conn_write s x c0 m next t = Next t' → delivers b c k t t') as Hwrite.
  { intros c0 m next Hw. unfold conn_write in Hw. destruct (t_conns t !! c0) as [k0|] eqn:Hk0; [|done].
    destruct (m (conn_out k0)) as [out [[]|e|]]; [| |done]; injection Hw as <-;
      (eapply delivers_one; [exact Hk|exact Hk0|done|done|done|]; intros _; apply follows_refl). }
  destruct a; try done; destruct (sd_pc x); try done.
  - destruct (t_peers t !! sd_addr x); injection He as <-; apply Hgo.
  - destruct r as [e|[remote input]]; [injection He as <-; apply Hgo|].
    by eapply delivers_new; [exact Hk| | |exact He].
  - destruct (t_peers t !! sd_addr x); injection He as <-; apply Hgo.
  - destruct (o_Encoder (t_opts t)); [|injection He as <-; apply Hgo].
    destruct (marshal (sd_rpc x)); [| |done]; injection He as <-; apply Hgo.
  - by eapply Hwrite.
  - by eapply Hwrite.
Qed.

(** One action of anybody delivers at most what was to come, in order, and
    loses nothing of it unless a callback of the connection fails. *)
Lemma exec_delivery a t t' c k :
  exec a t = Next t' → t_conns t !! c = Some k → delivers (lossless (t_opts t) c a) c k t t'.
Proof.
  intros He Hk. destruct a; cbn [exec] in He;
    try (destruct (t_conns t !! c0) as [k0|] eqn:Hk0; [|done];
         eapply exec_conn_delivers; [exact He|exact Hk0|exact Hk|]; intros ? ? [?|?]; congruence);
    try (destruct (t_senders t !! s) as [x|]; [|done]; by eapply exec_send_delivers).
  - unfold listen in He. destruct r; injection He as <-; by apply delivers_same.
  - unfold close in He. destruct (l_listener _); injection He as <-; by apply delivers_same.
  - unfold accept_call in He. destruct (l_loops _ !! i) as [[]|]; [done| |done].
    destruct (l_listener _); [|done]. injection He as <-. by apply delivers_same.
  - unfold accept_turn in He. destruct (l_loops _ !! i) as [[l|]|]; [|done..].
    case_bool_decide; [|injection He as <-; by apply delivers_same].
    destruct r as [[[remote input] ok]|]; [|injection He as <-; by apply delivers_same].
    destruct (o_TLSConfig _ && negb ok); [injection He as <-; by apply delivers_same|].
    by eapply delivers_new; [exact Hk| | |exact He].
  - by eapply delivers_new; [exact Hk| | |exact He].
  - unfold consume in He. destruct (t_rpcCh t) as [|x rest] eqn:E; [done|]. injection He as <-.
    apply delivers_same; [done|done|]. rewrite E. simpl. by rewrite <-app_assoc.
  - unfold send_call in He. destruct (t_senders t !! s); [done|]. injection He as <-. by apply delivers_same.
Qed.

Lemma exec_opts a t t' : exec a t = Next t' → t_opts t' = t_opts t.
Proof.
  intros He. destruct a; cbn [exec] in He;
    try (destruct (t_conns t !! c) as [k|]; [|done]; cbn [exec_conn] in He; repeat case_match; by simplify_eq/=);
    try (destruct (t_senders t !! s) as [x|]; [|done]);
    unfold listen, close, accept_call, accept_turn, consume, send_call, exec_send, conn_write, start_conn,
      with_loops in He; repeat case_match; by simplify_eq/=.
Qed.

(** A schedule in which no callback of connection [c] fails. *)
Definition no_failure (c : nat) (l : list action) : bool := forallb (λ a, negb (callback_fails c a)) l.

Lemma run_delivery l t t' c k :
  run l t = Next t' → t_conns t !! c = Some k →
  delivers (o_Decoder (t_opts t) && no_failure c l) c k t t'.
Proof.
  revert t k. induction l as [|a l IH]; intros t k; simpl.
  { intros [= <-] Hk. exists k. split_and!; [done|done|]. apply follows_refl. }
  destruct (exec a t) as [t1| |] eqn:E; [|done..]. intros Hrun Hk.
  destruct (exec_delivery a t t1 c k E Hk) as (k1 & Hk1 & Hr1 & Hp1).
  destruct (IH t1 k1 Hrun Hk1) as (k2 & Hk2 & Hr2 & Hp2). rewrite (exec_opts _ _ _ E) in Hp2.
  exists k2. split_and!; [done|congruence|]. eapply follows_trans.
  - eapply follows_weaken; [exact Hp2|]. unfold no_failure. rewrite !andb_true_iff. tauto.
  - eapply follows_weaken; [exact Hp1|]. unfold lossless. rewrite !andb_true_iff. tauto.
Qed.
End Delivery.

(** ** A handler run to its end *)

Section Handler.
Context `{RPCJson}.

Definition acts_on (c : nat) (a : action) : Prop :=
  match a with
  | Register c' | Handshake c' _ | OnPeer c' _ | ReadRPC c' | Deliver c' | Resume c' | Leave c' => c' = c
  | _ => False
  end.

Lemma run_app l l' t : run (l ++ l') t = match run l t with Next t' => run l' t' | o => o end.
Proof.
  revert t. induction l as [|a l IH]; intros t; [done|]. simpl. by destruct (exec a t) as [t'| |].
Qed.

Lemma with_peer_twice c k k' ch y t :
  with_peer c k (with_rpcCh ch y (with_peer c k' t)) = with_rpcCh ch y (with_peer c k t).
Proof. unfold with_peer, with_rpcCh. simpl. by rewrite insert_insert_eq. Qed.

(** A read loop that finds messages delivers them. *)
Lemma receive_run c n r r' rpcs t k :
  receive n r = (r', Ok rpcs) → Forall (λ rpc, rpc_Stream rpc = false) rpcs →
  o_Decoder (t_opts t) = true → length (t_rpcCh t) + length rpcs ≤ rpcCh_size →
  t_conns t !! c = Some k → k_pc k = Reading → k_in k = r →
  ∃ l, Forall (acts_on c) l ∧ length l = 2 * length rpcs ∧
    run l t = Next (with_rpcCh (t_rpcCh t ++ ((λ rpc, (c, with_From (k_remote k) rpc)) <$> rpcs))
      (t_yielded t) (with_peer c (with_in r' k) t)).
Proof.
  revert r rpcs t k. induction n as [|n IH]; intros r rpcs t k Hr Hns Hdec Hroom Hk Hpc Hin.
  - injection Hr as <- <-. exists []. split_and!; [done|done|]. simpl. f_equal.
    rewrite app_nil_r. subst r. unfold with_rpcCh, with_peer. simpl.
    rewrite insert_id by (destruct k; done). by destruct t.
  - cbn [receive] in Hr. apply M_bind_Ok in Hr as (r1 & rpc & Hd & Hr).
    apply M_bind_Ok in Hr as (r2 & rest & Hr & [= <- <-]).
    apply List.Forall_cons_iff in Hns as [Hs Hns]. simpl in Hroom.
    set (rpc' := with_From (k_remote k) rpc). set (k1 := with_in r1 k).
    set (t1 := with_rpcCh (t_rpcCh t ++ [(c, rpc')]) (t_yielded t) (with_peer c k1 t)).
    assert (at_pc Reading k1 = k1) as Hk1 by (unfold k1; destruct k; simpl in *; by subst).
    assert (run [ReadRPC c; Deliver c] t = Next t1) as Hrun.
    { cbn [run exec]. rewrite Hk. cbn [exec_conn]. rewrite Hpc. unfold read_rpc. rewrite Hdec, Hin, Hd.
      change (rpc_Stream (with_From (k_remote k) rpc)) with (rpc_Stream rpc). rewrite Hs.
      cbn [t_conns with_peer]. rewrite lookup_insert_eq. cbn [exec_conn k_pc at_pc t_rpcCh with_peer].
      rewrite (proj2 (Nat.ltb_lt _ _)) by lia. f_equal. unfold t1. cbn [t_yielded with_peer].
      fold rpc'. unfold with_rpcCh, with_peer. cbn. rewrite insert_insert_eq. fold k1. by rewrite <-Hk1. }
    destruct (IH r1 rest t1 k1) as (l & Hl & Hlen & Hrun'); [done|done|done| | |done|done|].
    { unfold t1. cbn [t_rpcCh with_rpcCh]. rewrite length_app. simpl. lia. }
    { unfold t1. cbn [t_conns with_rpcCh with_peer]. by rewrite lookup_insert_eq. }
    exists ([ReadRPC c; Deliver c] ++ l). split_and!.
    + by apply Forall_app; split; [repeat constructor|].
    + rewrite length_app, Hlen. simpl. lia.
    + rewrite run_app, Hrun, Hrun'. f_equal. unfold t1. cbn [t_rpcCh t_yielded with_rpcCh with_peer].
      rewrite <-app_assoc. unfold with_rpcCh, with_peer. cbn. by rewrite insert_insert_eq.
Qed.

(** A connection that delivers the bytes of some messages and then ends. *)
Lemma handler_run c k t rpcs r' :
  receive (length rpcs) (k_in k) = (r', Ok rpcs) → Forall (λ rpc, rpc_Stream rpc = false) rpcs →
  well_behaved r' → stream r' = [] →
  o_Decoder (t_opts t) = true → length (t_rpcCh t) + length rpcs ≤ rpcCh_size →
  t_conns t !! c = Some k → k_pc k = Entered →
  ∃ l t' k', Forall (acts_on c) l ∧ length l = 2 * length rpcs + 5 ∧ run l t = Next t' ∧
    t_rpcCh t' = t_rpcCh t ++ ((λ rpc, (c, with_From (k_remote k) rpc)) <$> rpcs) ∧
    t_conns t' !! c = Some k' ∧ k_pc k' = Left ∧ t_peers t' !! k_remote k = None.
Proof.
  intros Hr Hns Hwb Hs Hdec Hroom Hk Hpc.
  set (t1 := with_peers (<[k_remote k := c]> (t_peers t)) (with_peer c (at_pc Reading k) t)).
  assert (run [Register c; Handshake c None; OnPeer c None] t = Next t1) as Hstart.
  { cbn [run exec]. rewrite Hk. cbn [exec_conn]. rewrite Hpc.
    cbn [t_conns with_peers with_peer]. rewrite lookup_insert_eq. cbn [exec_conn k_pc at_pc].
    unfold callback at 1. cbn [t_opts with_peers with_peer].
    destruct (o_HandshakeFunc (t_opts t)); cbn [t_conns with_peers with_peer];
      rewrite lookup_insert_eq; cbn [exec_conn k_pc at_pc]; unfold callback;
      cbn [t_opts with_peers with_peer]; destruct (o_OnPeer (t_opts t)); unfold t1, with_peers, with_peer; cbn;
      by rewrite !insert_insert_eq. }
  destruct (receive_run c (length rpcs) (k_in k) r' rpcs t1 (at_pc Reading k)) as (l & Hl & Hlen & Hrun);
    [done|done|done|done| |done|done|].
  { cbn. by rewrite lookup_insert_eq. }
  destruct (frame_decode_empty r' Hwb Hs) as [r2 Hd].
  exists ([Register c; Handshake c None; OnPeer c None] ++ l ++ [ReadRPC c; Leave c]).
  eexists _, _. split_and!.
  - apply Forall_app; split; [by repeat constructor|]. apply Forall_app; split; [done|by repeat constructor].
  - rewrite !length_app, Hlen. simpl. lia.
  - rewrite run_app, Hstart, run_app, Hrun. cbn [run exec t_conns with_rpcCh with_peer].
    rewrite lookup_insert_eq. cbn [exec_conn k_pc with_in at_pc t_opts with_rpcCh with_peer with_peers t1].
    unfold read_rpc. rewrite Hdec. cbn [k_in with_in]. rewrite Hd.
    cbn [t_conns with_peer]. rewrite lookup_insert_eq. cbn [exec_conn k_pc at_pc]. reflexivity.
  - done.
  - cbn. by rewrite lookup_insert_eq.
  - done.
  - cbn. by rewrite lookup_delete_eq.
Qed.
End Handler.

(** ** What the lock of [peers] does not protect *)

Section Shared.
Context `{RPCJson}.

(** Two connections to one address: the end of the first takes the entry of
    the second, which is still read from. *)
Lemma peers_entry_lost :
  ∃ l t k, run l (NewTCPTransport (Opts false true true false false) "") = Next t ∧
    t_conns t !! 1 = Some k ∧ k_pc k = Reading ∧ k_remote k = "127.0.0.1:4000" ∧
    t_peers t !! "127.0.0.1:4000" = None.
Proof.
  exists [Connect 0 "127.0.0.1:4000" []; Register 0; Handshake 0 None; OnPeer 0 None;
          Connect 1 "127.0.0.1:4000" []; Register 1; Handshake 1 None; OnPeer 1 None;
          ReadRPC 0; Leave 0].
  eexists _, _. split; [vm_compute; reflexivity|]. split_and!; by vm_compute.
Qed.

(** A second [ListenAndAccept] that fails leaves [nil] in [t.listener], on
    which the accept loop of the first panics in its next turn. *)
Lemma failed_listen_panics opts addr addr' c remote input :
  o_TLSConfig opts = false →
  run [ListenAndAccept (Some addr'); AcceptLoop 0; ListenAndAccept None; Accept 0 c (Some (remote, input, true));
       AcceptLoop 0] (NewTCPTransport opts addr) = Crashed.
Proof. destruct opts. cbn. intros ->. vm_compute. reflexivity. Qed.

(** The accept loop is the only part of the transport that can panic, besides a
    [CloseStream] too many. *)
Definition calm (a : action) : bool :=
  match a with ListenAndAccept None | CloseStream _ => false | _ => true end.

Definition accepting (t : TCPTransport) : Prop :=
  l_listener (t_listeners t) = None → l_loops (t_listeners t) = ∅.

Lemma conn_write_crash s x c m next t :
  (∀ w, (m w).2 ≠ Panic) → conn_write s x c m next t ≠ Crashed.
Proof.
  intros Hm. unfold conn_write. destruct (t_conns t !! c) as [k|]; [|done].
  specialize (Hm (conn_out k)). by destruct (m (conn_out k)) as [out [|e|]].
Qed.

Lemma exec_calm a t : calm a = true → accepting t → exec a t ≠ Crashed.
Proof.
  intros Ha Ht. destruct a; cbn [exec]; try discriminate Ha;
    try (destruct (t_conns t !! c) as [k|]; [|done]; cbn [exec_conn]; by repeat case_match);
    try (destruct (t_senders t !! s) as [x|]; [|done]; unfold exec_send, start_conn; destruct (sd_pc x); try done;
         try (by repeat case_match); by apply conn_write_crash; intros; apply wrapped_Write_no_panic).
  - by destruct r.
  - unfold close. by destruct (l_listener _).
  - unfold accept_call. destruct (l_loops _ !! i) as [[]|] eqn:E; [done| |done].
    destruct (l_listener _) eqn:El; [done|]. by rewrite (Ht El) in E.
  - unfold accept_turn, start_conn. by repeat case_match.
  - unfold start_conn. by destruct (_ !! _).
  - unfold consume. by destruct (t_rpcCh t).
  - unfold send_call. by destruct (_ !! _).
  - destruct (t_senders t !! s) as [x|]; [|done]. unfold exec_send. destruct (sd_pc x); try done.
    destruct (o_Encoder _); [|done]. pose proof (marshal_no_panic (sd_rpc x)). by destruct (marshal (sd_rpc x)).
Qed.

Lemma exec_accepting a t t' : calm a = true → accepting t → exec a t = Next t' → accepting t'.
Proof.
  intros Ha Ht He. assert (t_listeners t' = t_listeners t ∨ is_Some (l_listener (t_listeners t')) ∨
    (l_listener (t_listeners t') = l_listener (t_listeners t) ∧
     ∃ i v, is_Some (l_loops (t_listeners t) !! i) ∧ l_loops (t_listeners t') = v ∧
       ∀ j, is_Some (v !! j) → is_Some (l_loops (t_listeners t) !! j))) as [E|[[i E]|(E & i & v & Hi & Hv & Hj)]].
  - destruct a; cbn [exec] in He; try discriminate Ha;
      try (left; destruct (t_conns t !! c) as [k|]; [|done]; cbn [exec_conn] in He; repeat case_match; by simplify_eq/=);
      try (left; destruct (t_senders t !! s) as [x|]; [|done];
           unfold exec_send, conn_write, start_conn in He; repeat case_match; by simplify_eq/=);
      try (left; unfold start_conn, consume, send_call in He; repeat case_match; by simplify_eq/=).
    + destruct r; [|done]. injection He as <-. right; left. by eexists.
    + unfold close in He. destruct (l_listener _) eqn:El; injection He as <-; [right; left; by eexists|by left].
    + unfold accept_call in He. destruct (l_loops _ !! i) as [[]|] eqn:E; [done| |done].
      destruct (l_listener _) eqn:El; [|done]. injection He as <-. right; left. cbn. by eexists.
    + unfold accept_turn, start_conn in He. destruct (l_loops _ !! i) as [[l|]|] eqn:E; [|done..].
      right; right. repeat case_match; simplify_eq/=; (split; [done|]); eexists i, _; (split; [by rewrite E|]);
        (split; [reflexivity|]); intros j.
      all: cbn; destruct (decide (i = j)) as [<-|Hne];
        [rewrite E; intros _; by eexists|by rewrite ?lookup_insert_ne, ?lookup_delete_ne].
  - unfold accepting. by rewrite E.
  - unfold accepting. by rewrite E.
  - intros El. rewrite E in El. specialize (Ht El). rewrite Ht in Hi. by destruct Hi.
Qed.

(** As long as no [ListenAndAccept] fails and nobody calls [CloseStream], no
    schedule makes the transport panic. *)
Theorem transport_calm opts addr l :
  forallb calm l = true → run l (NewTCPTransport opts addr) ≠ Crashed.
Proof.
  assert (accepting (NewTCPTransport opts addr)) as Ht by done. revert Ht.
  generalize (NewTCPTransport opts addr). induction l as [|a l IH]; intros t Ht; [done|].
  cbn [forallb run]. intros [Ha Hl]%andb_true_iff. pose proof (exec_calm a t Ha Ht) as Hc.
  destruct (exec a t) as [t'| |] eqn:E; [|done..]. apply IH; [|done]. by eapply exec_accepting.
Qed.
End Shared.

(** ** Properties *)

(** C35: the [peers] map is right whatever connections come and go: in every
    state the transport can reach, an entry names a connection to that very
    address whose handler has registered and not ended; what the handlers hand
    over never exceeds the capacity of the channel, is never a stream control
    and carries the address of its connection. *)
Theorem transport_peers `{RPCJson} opts addr l t :
  run l (NewTCPTransport opts addr) = Next t →
  (∀ a c, t_peers t !! a = Some c →
    ∃ k, t_conns t !! c = Some k ∧ k_remote k = a ∧ registered k = true) ∧
  length (t_rpcCh t) ≤ rpcCh_size ∧
  (∀ c rpc, (c, rpc) ∈ t_yielded t ++ t_rpcCh t →
    ∃ k, t_conns t !! c = Some k ∧ rpc_From rpc = k_remote k ∧ rpc_Stream rpc = false).
Proof.
  intros Hrun. assert (transport_ok t) as Ht by (eapply run_ok; [apply NewTCPTransport_ok|exact Hrun]).
  split_and!; [apply (ok_peers t Ht)|apply (ok_size t Ht)|].
  intros c rpc Hin. destruct (ok_rpcs t Ht c rpc Hin) as (k & ? & ? & ?). by exists k.
Qed.

(** C14: whatever all the goroutines do, the messages delivered from a
    connection are the ones decoded from it, each at most once and in order. *)
Theorem transport_in_order `{RPCJson} l t t' c k :
  run l t = Next t' → t_conns t !! c = Some k →
  delivered c t' `prefix_of` delivered c t ++ to_come k.
Proof.
  intros Hrun Hk. destruct (run_delivery l t t' c k Hrun Hk) as (k' & _ & _ & Hp%follows_prefix).
  etrans; [|exact Hp]. by apply prefix_app_r.
Qed.

(** ** Witnesses: a node that knows no one, listening *)

Definition sample_transport : TCPTransport :=
  NewTCPTransport (Opts true true true true false) "127.0.0.1:4001".

Definition next_or (t : TCPTransport) (o : outcome) : TCPTransport :=
  match o with Next t' => t' | _ => t end.

Definition registering : list action :=
  [Connect 0 "127.0.0.1:4000" []; Register 0; Handshake 0 None; OnPeer 0 None].

Definition after_registering : TCPTransport := next_or sample_transport (run registering sample_transport).

Lemma registering_runs : run registering sample_transport = Next after_registering.
Proof. by vm_compute. Qed.

Lemma transport_peers_witness :
  ∃ k, t_conns after_registering !! 0 = Some k ∧ k_remote k = "127.0.0.1:4000" ∧ registered k = true.
Proof.
  apply (transport_peers _ _ _ _ registering_runs). by vm_compute.
Defined.

(** Two messages arrive, the second in two pieces and cut off at the end of the
    first run; the first is consumed. *)
Definition first_rpc : RPC := mkRPC "a" false [x01].
Definition second_rpc : RPC := mkRPC "b" false [x02].

Definition two_frames : bytes :=
  frame (json_print (enc_rpc first_rpc)) ++ frame (json_print (enc_rpc second_rpc)).

Definition with_input : TCPTransport :=
  with_peer 0 (NewTCPPeer "127.0.0.1:4000" [(take 70 two_frames, None); (drop 70 two_frames, Some EEOF)] true)
    sample_transport.

Definition reading : list action :=
  [Register 0; Handshake 0 None; OnPeer 0 None; ReadRPC 0; Deliver 0; ReadRPC 0; Consume].

Definition after_reading : TCPTransport := next_or with_input (run reading with_input).

(** The schedule runs, one message has been delivered and consumed, and it is
    the first of the two that were to come. *)
Lemma transport_in_order_witness :
  ∃ k, run reading with_input = Next after_reading ∧ t_conns with_input !! 0 = Some k ∧
    to_come k = [with_From "127.0.0.1:4000" first_rpc; with_From "127.0.0.1:4000" second_rpc] ∧
    delivered 0 with_input = [] ∧
    t_yielded after_reading = [(0, with_From "127.0.0.1:4000" first_rpc)] ∧
    delivered 0 after_reading = [with_From "127.0.0.1:4000" first_rpc] ∧
    delivered 0 after_reading `prefix_of` delivered 0 with_input ++ to_come k.
Proof.
  eexists. split; [vm_compute; reflexivity|]. split; [reflexivity|]. split; [vm_compute; reflexivity|].
  split; [reflexivity|]. split; [vm_compute; reflexivity|]. split; [vm_compute; reflexivity|].
  apply (transport_in_order reading with_input after_reading 0); [vm_compute; reflexivity|reflexivity].
Defined.
