(* ===== verification/Sending.v ===== *)
(** * Sending (the [Send] of src/internal/p2p/tcp_transport.go with the codec)

    What calls of [Send] put on a connection, and what another transport makes
    of it: one call after the other, and two calls that overlap. *)

From S2P Require Import Prelude Hex Sha256 ChunkId FileSys Store Reader Chunker FileMeta Id RoutingTable Message Json Codec Transport.
From stdpp Require Import list options.

Section Sending.
Context `{RPCJson}.

(** ** One call of [Send] on a connection that works *)

(** Connection [c] to [addr] is registered and takes what is written. *)
Definition connected (addr : string) (c : nat) (k : TCPPeer) (t : TCPTransport) : Prop :=
  o_Encoder (t_opts t) = true ∧ t_peers t !! addr = Some c ∧ t_conns t !! c = Some k ∧
  k_pc k ≠ Left ∧ faults (k_out k) = [].

Definition wrote (b : bytes) (k : TCPPeer) : TCPPeer := with_out (Writer (written (k_out k) ++ b) []) k.

Lemma conn_write_works s x c k m b next t :
  t_conns t !! c = Some k → k_pc k ≠ Left → faults (k_out k) = [] →
  (∀ w, faults w = [] → m w = (Writer (written w ++ b) [], Ok tt)) →
  conn_write s x c m next t = Next (with_sender s (Sender (sd_addr x) (sd_rpc x) next) (with_peer c (wrote b k) t)).
Proof.
  intros Hk Hpc Hf Hm. unfold conn_write. rewrite Hk.
  assert (conn_out k = k_out k) as -> by (unfold conn_out; by destruct (k_pc k)). by rewrite Hm.
Qed.

Lemma write_length_works data w :
  faults w = [] → write_length data w = (Writer (written w ++ PutUint32 (uint32 (length data))) [], Ok tt).
Proof. intros Hw. unfold write_length, wrap_errM, Write. by rewrite Hw. Qed.

Lemma write_payload_works data w :
  faults w = [] → write_payload data w = (Writer (written w ++ data) [], Ok tt).
Proof. intros Hw. unfold write_payload, wrap_errM, Write. by rewrite Hw. Qed.

Lemma wrote_twice b1 b2 k : wrote b2 (wrote b1 k) = wrote (b1 ++ b2) k.
Proof. unfold wrote, with_out. cbn. by rewrite <-app_assoc. Qed.

Definition send_steps (s : nat) (addr : string) (rpc : RPC) : list action :=
  [Send s addr rpc; SendLookup s; SendEncode s; SendLength s; SendPayload s].

Definition sent_state (s : nat) (addr : string) (rpc : RPC) (c : nat) (k : TCPPeer) (b : bytes) (t : TCPTransport) :
    TCPTransport :=
  with_sender s (Sender addr rpc (Sent c)) (with_peer c (wrote b k) t).

Lemma with_twice s x s' x' c k c' k' t :
  s = s' → c = c' →
  with_sender s x (with_peer c k (with_sender s' x' (with_peer c' k' t))) = with_sender s x (with_peer c k t).
Proof. intros <- <-. unfold with_sender, with_peer. cbn. by rewrite !insert_insert_eq. Qed.

Lemma with_sender_twice s x x' t : with_sender s x (with_sender s x' t) = with_sender s x t.
Proof. unfold with_sender. cbn. by rewrite insert_insert_eq. Qed.

Lemma with_sender_peer s x c k t : with_peer c k (with_sender s x t) = with_sender s x (with_peer c k t).
Proof. done. Qed.

(** The steps of a call alone. *)
Lemma exec_send_found s x c t :
  t_senders t !! s = Some x → sd_pc x = Looking → t_peers t !! sd_addr x = Some c →
  exec (SendLookup s) t = Next (with_sender s (Sender (sd_addr x) (sd_rpc x) (Encoding c)) t).
Proof. intros Hs Hpc Hp. cbn [exec]. rewrite Hs. unfold exec_send. by rewrite Hpc, Hp. Qed.

Lemma exec_send_encode s x c data t :
  t_senders t !! s = Some x → sd_pc x = Encoding c → o_Encoder (t_opts t) = true →
  marshal (sd_rpc x) = Ok data →
  exec (SendEncode s) t = Next (with_sender s (Sender (sd_addr x) (sd_rpc x) (WritingLength c data)) t).
Proof. intros Hs Hpc He Hm. cbn [exec]. rewrite Hs. unfold exec_send. by rewrite Hpc, He, Hm. Qed.

Lemma exec_send_length s x c k data t :
  t_senders t !! s = Some x → sd_pc x = WritingLength c data →
  t_conns t !! c = Some k → k_pc k ≠ Left → faults (k_out k) = [] →
  exec (SendLength s) t = Next (with_sender s (Sender (sd_addr x) (sd_rpc x) (WritingPayload c data))
    (with_peer c (wrote (PutUint32 (uint32 (length data))) k) t)).
Proof.
  intros Hs Hpc Hk Hl Hf. cbn [exec]. rewrite Hs. unfold exec_send. rewrite Hpc.
  by apply conn_write_works; [..|apply write_length_works].
Qed.

Lemma exec_send_payload s x c k data t :
  t_senders t !! s = Some x → sd_pc x = WritingPayload c data →
  t_conns t !! c = Some k → k_pc k ≠ Left → faults (k_out k) = [] →
  exec (SendPayload s) t = Next (with_sender s (Sender (sd_addr x) (sd_rpc x) (Sent c))
    (with_peer c (wrote data k) t)).
Proof.
  intros Hs Hpc Hk Hl Hf. cbn [exec]. rewrite Hs. unfold exec_send. rewrite Hpc.
  by apply conn_write_works; [..|apply write_payload_works].
Qed.

Lemma run_cons a l t t' : exec a t = Next t' → run (a :: l) t = run l t'.
Proof. intros E. cbn [run]. by rewrite E. Qed.

Lemma send_run s addr rpc c k data t :
  connected addr c k t → t_senders t !! s = None → marshal rpc = Ok data →
  run (send_steps s addr rpc) t = Next (sent_state s addr rpc c k (frame data) t).
Proof.
  intros (He & Hp & Hk & Hl & Hf) Hs Hm. unfold send_steps.
  rewrite (run_cons _ _ _ (with_sender s (Sender addr rpc Looking) t)) by (cbn [exec]; unfold send_call; by rewrite Hs).
  erewrite run_cons by (eapply exec_send_found; [cbn; apply lookup_insert_eq|done|exact Hp]).
  erewrite run_cons by (eapply exec_send_encode; [cbn; apply lookup_insert_eq|done|exact He|exact Hm]).
  erewrite run_cons by (eapply exec_send_length; [cbn; apply lookup_insert_eq|done|exact Hk|exact Hl|exact Hf]).
  erewrite run_cons by (eapply exec_send_payload; [cbn; apply lookup_insert_eq|done|cbn; apply lookup_insert_eq|done|done]).
  cbn [run sd_addr sd_rpc]. f_equal. unfold sent_state, frame. rewrite <-wrote_twice.
  rewrite with_twice by done. by rewrite !with_sender_peer, !with_sender_twice.
Qed.

(** ** One call after the other *)

Fixpoint send_calls (s : nat) (addr : string) (rpcs : list RPC) : list action :=
  match rpcs with
  | [] => []
  | rpc :: rest => send_steps s addr rpc ++ send_calls (S s) addr rest
  end.

Fixpoint frames (rpcs : list RPC) : bytes :=
  match rpcs with
  | [] => []
  | rpc :: rest => match marshal rpc with Ok data => frame data | _ => [] end ++ frames rest
  end.

Lemma sendable_marshal rpc :
  sendable rpc → ∃ data, rpc_Marshal rpc = Ok data ∧ (N.of_nat (length data) ≤ MaxMessageSize)%N ∧ data ≠ [] ∧
    marshal rpc = Ok data.
Proof.
  intros (Ha & Hm & Hmax). destruct (rpc_roundtrip rpc Ha Hm) as (data & Hd & Hne & _).
  exists data. split_and!; [done|by apply Hmax|done|]. apply marshal_ok; [done|by apply Hmax].
Qed.

Lemma send_all_frames rpcs w :
  Forall sendable rpcs → faults w = [] → send_all rpcs w = (Writer (written w ++ frames rpcs) [], Ok tt).
Proof.
  intros Hall. revert w. induction Hall as [|rpc rpcs Hs Hall IH]; intros w Hw.
  { destruct w as [wr fs]. simpl in *. by rewrite Hw, app_nil_r. }
  destruct (sendable_marshal rpc Hs) as (data & Hd & Hmax & _ & Hm). cbn [send_all frames].
  unfold mbind, M_bind. rewrite (Encode_ok rpc data) by done. rewrite IH by done. rewrite Hm.
  unfold frame. cbn [written]. by rewrite <-!app_assoc.
Qed.

(** A reader that delivers the frames gives the messages back. *)
Lemma receive_frames rpcs r rest :
  Forall sendable rpcs → well_behaved r → stream r = frames rpcs ++ rest →
  ∃ r', well_behaved r' ∧ stream r' = rest ∧ receive (length rpcs) r = (r', Ok rpcs).
Proof.
  intros Hall Hwb Hs. destruct (send_receive rpcs (Writer [] []) Hall eq_refl) as (sent & E & Hr).
  rewrite send_all_frames in E by done. injection E as E. apply Hr; [done|]. by rewrite <-E.
Qed.

Lemma sends_run rpcs s addr c k t :
  Forall sendable rpcs → connected addr c k t → (∀ i, s ≤ i → t_senders t !! i = None) →
  ∃ t', run (send_calls s addr rpcs) t = Next t' ∧ connected addr c (wrote (frames rpcs) k) t' ∧
    (∀ i rpc, rpcs !! i = Some rpc → t_senders t' !! (s + i) = Some (Sender addr rpc (Sent c))) ∧
    (∀ i, i < s → t_senders t' !! i = t_senders t !! i).
Proof.
  intros Hall. revert s k t. induction Hall as [|rpc rpcs Hs Hall IH]; intros s k t Hc Hfresh.
  { exists t. split_and!; [done| |done|done]. unfold wrote. rewrite app_nil_r.
    destruct Hc as (? & ? & ? & ? & Hf). destruct k as [? ? ? [wr fs] ? ?]. simpl in Hf. subst fs.
    unfold connected. by split_and!. }
  destruct (sendable_marshal rpc Hs) as (data & _ & _ & _ & Hm). cbn [send_calls frames].
  destruct (IH (S s) (wrote (frame data) k) (sent_state s addr rpc c k (frame data) t)) as (t' & Hrun & Hc' & Hsent & Hold).
  { destruct Hc as (? & ? & ? & ? & Hf). unfold connected, sent_state. cbn. rewrite lookup_insert_eq. by split_and!. }
  { intros i Hi. unfold sent_state. cbn. rewrite lookup_insert_ne by lia. apply Hfresh. lia. }
  exists t'. rewrite run_app, (send_run s addr rpc c k data) by (done || by apply Hfresh). split; [done|].
  rewrite Hm, <-wrote_twice. split; [done|]. split.
  - intros [|i] rpc' Hi.
    + injection Hi as <-. rewrite Nat.add_0_r, Hold by lia. unfold sent_state. cbn. by rewrite lookup_insert_eq.
    + rewrite Nat.add_succ_r. apply Hsent. done.
  - intros i Hi. rewrite Hold by lia. unfold sent_state. cbn. by rewrite lookup_insert_ne by lia.
Qed.

(** ** Two calls that overlap *)

Definition overlapping (s1 s2 : nat) (addr : string) (rpc1 rpc2 : RPC) : list action :=
  [Send s1 addr rpc1; SendLookup s1; SendEncode s1; Send s2 addr rpc2; SendLookup s2; SendEncode s2;
   SendLength s1; SendLength s2; SendPayload s1; SendPayload s2].

(** What is on the connection then. *)
Definition mixed (data1 data2 : bytes) : bytes :=
  PutUint32 (uint32 (length data1)) ++ PutUint32 (uint32 (length data2)) ++ data1 ++ data2.

Lemma overlapping_run s1 s2 addr rpc1 rpc2 c k data1 data2 t :
  connected addr c k t → s1 ≠ s2 → t_senders t !! s1 = None → t_senders t !! s2 = None →
  marshal rpc1 = Ok data1 → marshal rpc2 = Ok data2 →
  ∃ t', run (overlapping s1 s2 addr rpc1 rpc2) t = Next t' ∧
    t_senders t' !! s1 = Some (Sender addr rpc1 (Sent c)) ∧ t_senders t' !! s2 = Some (Sender addr rpc2 (Sent c)) ∧
    t_conns t' !! c = Some (wrote (mixed data1 data2) k).
Proof.
  intros (He & Hp & Hk & Hl & Hf) Hne Hs1 Hs2 Hm1 Hm2. unfold overlapping.
  rewrite (run_cons _ _ _ (with_sender s1 (Sender addr rpc1 Looking) t))
    by (cbn [exec]; unfold send_call; by rewrite Hs1).
  erewrite run_cons by (eapply exec_send_found; [cbn; apply lookup_insert_eq|done|exact Hp]).
  erewrite run_cons by (eapply exec_send_encode; [cbn; apply lookup_insert_eq|done|exact He|exact Hm1]).
  erewrite run_cons by (cbn [exec]; unfold send_call; cbn; rewrite !lookup_insert_ne by done; rewrite Hs2; reflexivity).
  erewrite run_cons by (eapply exec_send_found; [cbn; apply lookup_insert_eq|done|exact Hp]).
  erewrite run_cons by (eapply exec_send_encode; [cbn; apply lookup_insert_eq|done|exact He|exact Hm2]).
  erewrite run_cons by (eapply exec_send_length; [cbn; rewrite !lookup_insert_ne by done; apply lookup_insert_eq|
    done|exact Hk|exact Hl|exact Hf]).
  erewrite run_cons by (eapply exec_send_length; [cbn; rewrite lookup_insert_ne by done; apply lookup_insert_eq|
    done|cbn; apply lookup_insert_eq|done|done]).
  erewrite run_cons by (eapply exec_send_payload; [cbn; rewrite lookup_insert_ne by done; apply lookup_insert_eq|
    done|cbn; apply lookup_insert_eq|done|done]).
  erewrite run_cons by (eapply exec_send_payload; [cbn; rewrite lookup_insert_ne by done; apply lookup_insert_eq|
    done|cbn; apply lookup_insert_eq|done|done]).
  eexists. split; [reflexivity|]. cbn. rewrite !lookup_insert_eq.
  split_and!; [by rewrite lookup_insert_ne, lookup_insert_eq|done|].
  rewrite !wrote_twice. unfold mixed. by rewrite ?app_assoc.
Qed.
End Sending.

(** The length that is read is the first; the text starts with a zero byte of
    the second. *)
Lemma json_zero_byte b : json_parse (x00 :: b) = None.
Proof. unfold json_parse. cbn [length]. generalize maxNestingDepth. by intros. Qed.

Lemma mixed_undecodable data1 data2 r :
  data1 ≠ [] → (N.of_nat (length data1) ≤ MaxMessageSize)%N → (N.of_nat (length data2) ≤ MaxMessageSize)%N →
  well_behaved r → stream r = mixed data1 data2 →
  (Decode r).2 = Err (EWrap "decode: json unmarshal error" (EMsg "invalid JSON")).
Proof.
  intros Hne Hmax1 Hmax2 Hwb Hs. set (n := length data1).
  assert (∃ b, take n (PutUint32 (uint32 (length data2)) ++ data1 ++ data2) = x00 :: b) as [b Hb].
  { rewrite uint32_small by done. unfold PutUint32.
    assert (N.shiftr (N.of_nat (length data2)) 24 = 0%N) as ->.
    { rewrite N.shiftr_div_pow2. apply N.div_small. change (2 ^ 24)%N with 16777216%N.
      change MaxMessageSize with 4194304%N in Hmax2. lia. }
    destruct n as [|n'] eqn:En; [by destruct data1|]. by eexists. }
  assert (length (x00 :: b) = n) as Hlen.
  { rewrite <-Hb, length_take, !length_app. unfold n. lia. }
  destruct (Decode_frame r (x00 :: b) (drop n (PutUint32 (uint32 (length data2)) ++ data1 ++ data2)))
    as (r' & _ & _ & ->); [done|done|by rewrite Hlen| |].
  - rewrite Hlen. rewrite Hs. unfold mixed. f_equal. rewrite <-Hb. by rewrite take_drop.
  - cbn [snd rpc_Unmarshal json_rpc]. unfold json_Unmarshal. by rewrite json_zero_byte.
Qed.

Section EndToEnd.
Context `{RPCJson}.

(** What a connection has to deliver once its bytes are known: the messages
    that are no stream controls. *)
Lemma decode_all_frames rpcs r :
  Forall sendable rpcs → well_behaved r → stream r = frames rpcs →
  decode_all r = filter (λ rpc, rpc_Stream rpc = false) rpcs.
Proof.
  intros Hall. revert r. induction Hall as [|rpc rpcs Hs Hall IH]; intros r Hwb Hst.
  { destruct (frame_decode_empty r Hwb Hst) as [r' E]. by rewrite (decode_all_err _ _ _ E). }
  destruct (receive_frames [rpc] r (frames rpcs)) as (r' & Hwb' & Hs' & Hr); [by constructor|done| |].
  { rewrite Hst. cbn [frames]. by rewrite app_nil_r. }
  cbn [receive length] in Hr. apply M_bind_Ok in Hr as (r1 & rpc1 & Hd & Hr). injection Hr as -> ->.
  rewrite (decode_all_step _ _ _ Hd), (IH r') by done. rewrite filter_cons.
  destruct (rpc_Stream rpc) eqn:E; case_decide; done.
Qed.

Lemma ended_to_come k e : k_pc k = Leaving e ∨ k_pc k = Left → to_come k = [].
Proof. unfold to_come. by intros [-> | ->]. Qed.
End EndToEnd.

(** ** Properties *)

(** C36: From one transport to another. A goroutine sends messages that JSON
    carries and that fit a frame, one call of [Send] after the other, over a
    registered connection that takes what is written: every call returns [nil].
    Another transport has a connection that delivers exactly these bytes, in
    pieces of any size. Then, in every schedule of that transport in which no
    callback of the connection fails, what has come out of the connection and
    what is still to come are together the messages sent, in order, without
    the stream controls, under the address of the connection; once the
    connection's handler has ended all of them have come out. And if there is
    room in the channel and there are no stream controls, the handler alone
    gets there in [2 n + 5] statements. *)
Theorem transport_end_to_end `{RPCJson} rpcs s addr c0 k0 t0 :
  Forall sendable rpcs → connected addr c0 k0 t0 → (∀ i, s ≤ i → t_senders t0 !! i = None) →
  ∃ t0', run (send_calls s addr rpcs) t0 = Next t0' ∧
    (∀ i rpc, rpcs !! i = Some rpc → t_senders t0' !! (s + i) = Some (Sender addr rpc (Sent c0))) ∧
    ∃ sent, t_conns t0' !! c0 = Some (wrote sent k0) ∧
    ∀ t c remote outbound r, well_behaved r → stream r = sent →
      o_Decoder (t_opts t) = true → delivered c t = [] →
      t_conns t !! c = Some (NewTCPPeer remote r outbound) →
      let messages := with_From remote <$> filter (λ rpc, rpc_Stream rpc = false) rpcs in
      (∀ l t', run l t = Next t' → no_failure c l = true →
        ∃ k', t_conns t' !! c = Some k' ∧ delivered c t' ++ to_come k' = messages ∧
          (∀ e, k_pc k' = Leaving e ∨ k_pc k' = Left → delivered c t' = messages)) ∧
      (length (t_rpcCh t) + length rpcs ≤ rpcCh_size → Forall (λ rpc, rpc_Stream rpc = false) rpcs →
        ∃ l t' k', Forall (acts_on c) l ∧ length l = 2 * length rpcs + 5 ∧ run l t = Next t' ∧
          t_rpcCh t' = t_rpcCh t ++ ((λ rpc, (c, with_From remote rpc)) <$> rpcs) ∧
          t_conns t' !! c = Some k' ∧ k_pc k' = Left ∧ t_peers t' !! remote = None).
Proof.
  intros Hall Hc Hfresh. destruct (sends_run rpcs s addr c0 k0 t0 Hall Hc Hfresh) as (t0' & Hrun & Hc' & Hsent & _).
  exists t0'. split; [done|]. split; [done|]. exists (frames rpcs). split; [by apply Hc'|].
  intros t c remote outbound r Hwb Hs Hdec Hnone Hk. cbv zeta. split.
  - intros l t' Hl Hok. destruct (run_delivery l t t' c _ Hl Hk) as (k' & Hk' & _ & Hf).
    rewrite Hdec, Hok, Hnone in Hf. cbn [follows andb app] in Hf.
    assert (to_come (NewTCPPeer remote r outbound)
      = with_From remote <$> filter (λ rpc, rpc_Stream rpc = false) rpcs) as E.
    { unfold to_come. cbn [k_pc NewTCPPeer k_remote k_in]. by rewrite (decode_all_frames rpcs). }
    rewrite E in Hf. exists k'. split_and!; [done|done|].
    intros e He. by rewrite (ended_to_come k' e), app_nil_r in Hf.
  - intros Hroom Hns. destruct (receive_frames rpcs r [] Hall Hwb) as (r' & Hwb' & Hs' & Hr); [by rewrite app_nil_r|].
    by apply (handler_run c (NewTCPPeer remote r outbound) t rpcs r').
Qed.

(** [Send] is addressed: in every state the transport can reach, a call of
    [Send] writes, or has written if it returned [nil], to a connection whose
    other end has the very address the call was given. So a call with a host
    name, which is never the address of a connection's other end, never
    succeeds. *)
Theorem send_addressed `{RPCJson} opts laddr l t s x :
  run l (NewTCPTransport opts laddr) = Next t → t_senders t !! s = Some x →
  (∀ c, sends_to (sd_pc x) = Some c → ∃ k, t_conns t !! c = Some k ∧ k_remote k = sd_addr x) ∧
  ((∀ c k, t_conns t !! c = Some k → k_remote k ≠ sd_addr x) → ∀ c, sd_pc x ≠ Sent c).
Proof.
  intros Hrun Hs. assert (transport_ok t) as Ht by (eapply run_ok; [apply NewTCPTransport_ok|exact Hrun]).
  split; [intros c; by apply (ok_senders t Ht s)|]. intros Hnone c Hpc.
  destruct (ok_senders t Ht s x c Hs) as (k & Hk & Hr); [by rewrite Hpc|]. by apply (Hnone c k Hk).
Qed.

(** C39: Calls of [Send] to one address destroy each other: whenever two of them
    for messages that JSON carries and that fit a frame run at the same time
    over a connection that works, there is a schedule in which both return
    [nil] and what they have written cannot be decoded: the reader reports an
    error on the first of the two frames, which drops the connection, and
    neither message is ever delivered. *)
Theorem send_overlap_corrupts s1 s2 addr rpc1 rpc2 c k t :
  sendable rpc1 → sendable rpc2 → connected addr c k t → s1 ≠ s2 →
  t_senders t !! s1 = None → t_senders t !! s2 = None →
  ∃ t' sent, run (overlapping s1 s2 addr rpc1 rpc2) t = Next t' ∧
    t_senders t' !! s1 = Some (Sender addr rpc1 (Sent c)) ∧ t_senders t' !! s2 = Some (Sender addr rpc2 (Sent c)) ∧
    t_conns t' !! c = Some (wrote sent k) ∧
    ∀ r, well_behaved r → stream r = sent →
      (Decode r).2 = Err (EWrap "decode: json unmarshal error" (EMsg "invalid JSON")) ∧
      ∀ remote outbound, to_come (NewTCPPeer remote r outbound) = [].
Proof.
  intros Hs1 Hs2 Hc Hne Hf1 Hf2.
  destruct (sendable_marshal rpc1 Hs1) as (data1 & _ & Hmax1 & Hne1 & Hm1).
  destruct (sendable_marshal rpc2 Hs2) as (data2 & _ & Hmax2 & _ & Hm2).
  destruct (overlapping_run s1 s2 addr rpc1 rpc2 c k data1 data2 t) as (t' & Hrun & ? & ? & ?); [done..|].
  exists t', (mixed data1 data2). split_and!; [done..|]. intros r Hwb Hs.
  pose proof (mixed_undecodable data1 data2 r Hne1 Hmax1 Hmax2 Hwb Hs) as Hd. split; [done|].
  intros remote outbound. unfold to_come. cbn [k_pc NewTCPPeer k_remote k_in].
  destruct (Decode r) as [r' o] eqn:E. cbn [snd] in Hd. subst o. by rewrite (decode_all_err _ _ _ E).
Qed.

(** ** Witnesses *)

(** Connection 0 of a node, and a node that has accepted it as number 7. *)
Lemma sample_connected : ∃ k, connected "127.0.0.1:4000" 0 k after_registering.
Proof. eexists. unfold connected. split_and!; try (vm_compute; reflexivity); by vm_compute. Qed.

Lemma first_sendable : sendable first_rpc.
Proof. split; [done|]. split; [done|]. intros data E. apply Ok_inv in E as <-. by vm_compute. Qed.

Lemma second_sendable : sendable second_rpc.
Proof. split; [done|]. split; [done|]. intros data E. apply Ok_inv in E as <-. by vm_compute. Qed.

Definition two_sent : list RPC := [first_rpc; second_rpc].

Lemma transport_end_to_end_witness :
  ∃ k0 t0' sent, connected "127.0.0.1:4000" 0 k0 after_registering ∧
    run (send_calls 0 "127.0.0.1:4000" two_sent) after_registering = Next t0' ∧
    t_conns t0' !! 0 = Some (wrote sent k0) ∧
    let t := with_peer 7 (NewTCPPeer "10.0.0.1:52040" [(sent, Some EEOF)] false) sample_transport in
    ∃ l t', run l t = Next t' ∧ t_rpcCh t' = (λ rpc, (7, with_From "10.0.0.1:52040" rpc)) <$> two_sent.
Proof.
  destruct sample_connected as [k0 Hk0].
  destruct (transport_end_to_end two_sent 0 "127.0.0.1:4000" 0 k0 after_registering)
    as (t0' & Hrun & _ & sent & Hsent & Hall).
  - by repeat constructor; [apply first_sendable|apply second_sendable].
  - done.
  - intros i _. by destruct i.
  - exists k0, t0', sent. split_and!; [done..|]. cbv zeta.
    destruct (Hall (with_peer 7 (NewTCPPeer "10.0.0.1:52040" [(sent, Some EEOF)] false) sample_transport)
      7 "10.0.0.1:52040" false [(sent, Some EEOF)]) as [_ Hend];
      [by right|apply app_nil_r|done|done|by cbn; rewrite lookup_insert_eq|].
    destruct Hend as (l & t' & k' & Hl & _ & Hrun' & Hch & Hk' & Hpc & _);
      [unfold rpcCh_size; simpl; lia|by repeat constructor|].
    exists l, t'. split; [exact Hrun'|exact Hch].
Defined.

(** A call with a host name: it opens a connection, which stays, and fails. *)
Definition by_name : list action :=
  [Send 0 "localhost:4000" first_rpc; SendLookup 0; SendDial 0 0 (inr ("127.0.0.1:4000", []));
   Register 0; Handshake 0 None; OnPeer 0 None; SendWake 0].

Definition after_by_name : TCPTransport := next_or sample_transport (run by_name sample_transport).

Lemma send_addressed_witness :
  t_senders after_by_name !! 0
    = Some (Sender "localhost:4000" first_rpc (NotSent (EMsg "could not connect to localhost:4000"))) ∧
  t_peers after_by_name !! "127.0.0.1:4000" = Some 0 ∧
  ∃ t' x k, run (by_name ++ send_steps 1 "127.0.0.1:4000" second_rpc) sample_transport = Next t' ∧
    t_senders t' !! 1 = Some x ∧ sd_pc x = Sent 0 ∧ t_conns t' !! 0 = Some k ∧ k_remote k = "127.0.0.1:4000".
Proof.
  split; [vm_compute; reflexivity|]. split; [vm_compute; reflexivity|].
  eexists _, (Sender "127.0.0.1:4000" second_rpc (Sent 0)).
  destruct (send_addressed (Opts true true true true false) "127.0.0.1:4001"
    (by_name ++ send_steps 1 "127.0.0.1:4000" second_rpc)
    (next_or sample_transport (run (by_name ++ send_steps 1 "127.0.0.1:4000" second_rpc) sample_transport))
    1 (Sender "127.0.0.1:4000" second_rpc (Sent 0))) as [Hk _];
    [vm_compute; reflexivity|vm_compute; reflexivity|].
  destruct (Hk 0 eq_refl) as (k & Hk1 & Hk2). exists k.
  split; [vm_compute; reflexivity|]. split; [vm_compute; reflexivity|]. split; [reflexivity|].
  split; [exact Hk1|exact Hk2].
Defined.

Lemma send_overlap_corrupts_witness :
  ∃ t' sent k, run (overlapping 0 1 "127.0.0.1:4000" first_rpc second_rpc) after_registering = Next t' ∧
    t_conns t' !! 0 = Some (wrote sent k) ∧
    (Decode [(sent, Some EEOF)]).2 = Err (EWrap "decode: json unmarshal error" (EMsg "invalid JSON")).
Proof.
  destruct sample_connected as [k Hk].
  destruct (send_overlap_corrupts 0 1 "127.0.0.1:4000" first_rpc second_rpc 0 k after_registering)
    as (t' & sent & Hrun & _ & _ & Hc & Hd);
    [apply first_sendable|apply second_sendable|exact Hk|discriminate|reflexivity|reflexivity|].
  exists t', sent, k. split; [exact Hrun|]. split; [exact Hc|].
  apply (Hd [(sent, Some EEOF)]); [by right|apply app_nil_r].
Defined.
