(* ===== verification/Service.v ===== *)
(** * The service (src/internal/dht/service.go, src/internal/dht/client.go)

    A service joins a node and a transport: [readLoop] hands what arrives to
    whoever waits for it or to the node, and the request functions send a
    message and wait for its answer. The class [Network] is the outside world:
    the transport, the clock and the random source. The goroutines are
    serialised here: a request that waits runs the read loop on everything
    that arrives until its time is up; Pending.v treats their interleaving. *)

From S2P Require Import Prelude Hex Sha256 ChunkId Merkle FileSys Store Reader Chunker FileMeta Erasure EcFile Id RoutingTable Message Rfc3339 MessageJson Node.
From stdpp Require Import list options.

Definition DefaultReplicaCount : Z := 3.

(** [net_arrivals] is what the transport's channel yields while the service
    blocks, in a sleep or waiting for an answer. *)
Class Network (N : Type) := {
  net_addr : N → string;
  net_clock : N → N * (nat → Time);
  net_rand : N → N * res ID;
  net_send : string → bytes → M N unit;
  net_arrivals : N → N * list RPC;
}.

(** [s_pending] has the request identifiers in the [pending] map,
    [s_delivered] what was sent on their channels and not received yet. *)
Record Service (S N : Type) := Svc {
  s_node : Node S;
  s_net : N;
  s_pending : gset string;
  s_delivered : gmap string Message;
}.
Arguments Svc {S N} _ _ _ _.
Arguments s_node {S N} _.
Arguments s_net {S N} _.
Arguments s_pending {S N} _.
Arguments s_delivered {S N} _.

Section Service.
Context {S N : Type} `{ChunkStore S} `{SortSlice} `{MessageCodec} `{Network N}.
Notation SV := (Service S N).

(** [net] is the transport the service is built on. *)
Definition NewService (id : ID) (net : N) (store : option S) : SV :=
  Svc (SetNodeAddr (net_addr net) (SetStore store (NewNode id))) net ∅ ∅.

(** Operations on the parts. *)
Definition on_node {A} (m : M (Node S) A) : M SV A := λ s,
  match m (s_node s) with (n, r) => (Svc n (s_net s) (s_pending s) (s_delivered s), r) end.
Definition on_net {A} (m : M N A) : M SV A := λ s,
  match m (s_net s) with (net, r) => (Svc (s_node s) net (s_pending s) (s_delivered s), r) end.
Definition the_service : M SV SV := λ s, (s, Ok s).
(** An error that is logged and otherwise ignored: [default] is the result. *)
Definition logged {A} (default : A) (m : M SV A) : M SV A := λ s,
  match m s with (s', Err _) => (s', Ok default) | r => r end.
Definition lift {A} (r : res A) : M SV A := λ s, (s, r).

Definition clock : M SV (nat → Time) := on_net (λ net, let '(net, c) := net_clock net in (net, Ok c)).
Definition send (addr : string) (payload : bytes) : M SV unit := on_net (net_send addr payload).

(** ** Pending requests *)

Definition registerPending (reqID : string) : M SV unit := λ s,
  (Svc (s_node s) (s_net s) ({[reqID]} ∪ s_pending s) (s_delivered s), Ok tt).

Definition takePending (reqID : string) : M SV bool := λ s,
  (Svc (s_node s) (s_net s) (s_pending s ∖ {[reqID]}) (s_delivered s),
   Ok (bool_decide (reqID ∈ s_pending s))).

Definition isResponseType (t : MessageType) : bool :=
  bool_decide (t = MsgStoreChunkResult) || bool_decide (t = MsgChunkData)
  || bool_decide (t = MsgFileProviders) || bool_decide (t = MsgFileMeta).

(** [ch <- msg; close(ch)] *)
Definition deliver (reqID : string) (msg : Message) : M SV unit := λ s,
  (Svc (s_node s) (s_net s) (s_pending s) (<[reqID := msg]> (s_delivered s)), Ok tt).

(** ** The read loop *)

(** From [s.node.HandleRPC] to the end of the loop body. *)
Definition serve (rpc : RPC) : M SV unit :=
  now ← clock;
  resp ← logged None (on_node (HandleRPC now rpc));
  match resp with
  | None => mret tt
  | Some resp =>
      logged tt (payload ← lift (Message_Encode resp); send (rpc_From rpc) payload)
  end.

(** One turn of the loop. *)
Definition readLoop_body (rpc : RPC) : M SV unit :=
  match DecodeMessage (rpc_Payload rpc) with
  | Err _ => mret tt
  | Panic => lift Panic
  | Ok msg =>
      if bool_decide (m_RequestID msg ≠ "") && isResponseType (m_Type msg) then
        found ← takePending (m_RequestID msg);
        if found : bool then deliver (m_RequestID msg) msg else serve rpc
      else serve rpc
  end.

Fixpoint readLoop (rpcs : list RPC) : M SV unit :=
  match rpcs with
  | [] => mret tt
  | rpc :: rest => _ ← readLoop_body rpc; readLoop rest
  end.

(** The service blocks: the read loop runs on what arrives. *)
Definition run_arrivals : M SV unit :=
  rpcs ← on_net (λ net, let '(net, l) := net_arrivals net in (net, Ok l));
  readLoop rpcs.

(** ** Requests without an answer (client.go) *)

Definition SendPing (addr : string) : M SV unit :=
  s ← the_service;
  now ← clock;
  payload ← lift (Message_Encode (new_message MsgPing (n_id (s_node s)) (Unix (now 0%nat))));
  send addr payload.

Definition SendFindNode (addr : string) (target : ID) : M SV unit :=
  s ← the_service;
  now ← clock;
  payload ← lift (Message_Encode
              (with_Target target (new_message MsgFindNode (n_id (s_node s)) (Unix (now 0%nat)))));
  send addr payload.

(** ** Requests with an answer

    The four request functions differ in the message, in the text [what] of
    their errors and in what they make of the answer. *)

(** [MustRandomID().String()] *)
Definition new_reqID : M SV string :=
  on_net (λ net, let '(net, r) := net_rand net in
    (net, match MustRandomID r with Ok id => Ok (ID_String id) | _ => Panic end)).

(** A failed send takes the pending entry back. *)
Definition send_request (what addr : string) (payload : bytes) (reqID : string) : M SV unit := λ s,
  match send addr payload s with
  | (s', Err e) => ((takePending reqID s').1, Err (EWrap (what +:+ ": send") e))
  | r => r
  end.

(** [resp := <-respCh] *)
Definition receive_response (reqID : string) : M SV (option Message) := λ s,
  (Svc (s_node s) (s_net s) (s_pending s) (delete reqID (s_delivered s)),
   Ok (s_delivered s !! reqID)).

(** The [select]: the answer, or the time-out and the end of the wait. *)
Definition await (what reqID : string) : M SV (option Message) :=
  _ ← run_arrivals;
  resp ← receive_response reqID;
  match resp with
  | Some msg => mret (Some msg)
  | None =>
      _ ← takePending reqID;
      fail (EMsg (what +:+ ": timeout waiting for response"))
  end.

Definition exchange (what addr : string) (request : string → Z → Message) :
    M SV (option Message) :=
  reqID ← new_reqID;
  now ← clock;
  payload ← wrap_errM (what +:+ ": encode") (lift (Message_Encode (request reqID (Unix (now 0%nat)))));
  _ ← registerPending reqID;
  _ ← send_request what addr payload reqID;
  await what reqID.

(** The checks all four functions make on the answer. *)
Definition response_of (what : string) (resp : option Message) : res Message :=
  match resp with
  | None => Err (EMsg (what +:+ ": nil response"))
  | Some resp =>
      if bool_decide (m_Error resp ≠ "") then
        Err (EMsg (what +:+ ": remote error: " +:+ m_Error resp))
      else Ok resp
  end.

Definition store_chunk_request (from : ID) (data : bytes) (reqID : string) (ts : Z) : Message :=
  with_ChunkData data (with_RequestID reqID (new_message MsgStoreChunk from ts)).

Definition store_chunk_response (resp : option Message) : res ChunkID :=
  resp ← response_of "StoreChunkRemote" resp;
  if bool_decide (m_ChunkID resp = "") then
    Err (EMsg "StoreChunkRemote: missing ChunkID in response")
  else wrap_err "StoreChunkRemote: invalid ChunkID" (ChunkIDFromHex (m_ChunkID resp)).

Definition StoreChunkRemote (addr : string) (data : bytes) : M SV ChunkID :=
  s ← the_service;
  resp ← exchange "StoreChunkRemote" addr (store_chunk_request (n_id (s_node s)) data);
  lift (store_chunk_response resp).

Definition fetch_chunk_request (from : ID) (id : ChunkID) (reqID : string) (ts : Z) : Message :=
  with_ChunkID (ChunkID_String id) (with_RequestID reqID (new_message MsgGetChunk from ts)).

(** A chunk identifier that differs from the requested one is only logged. *)
Definition fetch_chunk_response (resp : option Message) : res bytes :=
  resp ← response_of "FetchChunkRemote" resp;
  if bool_decide (m_ChunkID resp = "") then
    Err (EMsg "FetchChunkRemote: missing ChunkID in response")
  else
    match m_ChunkData resp with
    | None => Err (EMsg "FetchChunkRemote: missing ChunkData in response")
    | Some data => Ok data
    end.

Definition FetchChunkRemote (addr : string) (id : ChunkID) : M SV bytes :=
  s ← the_service;
  resp ← exchange "FetchChunkRemote" addr (fetch_chunk_request (n_id (s_node s)) id);
  lift (fetch_chunk_response resp).

Definition file_providers_request (from : ID) (root : ChunkID) (reqID : string) (ts : Z) : Message :=
  with_FileRoot (ChunkID_String root) (with_RequestID reqID (new_message MsgGetFileProviders from ts)).

Definition requestFileProvidersFrom (addr : string) (root : ChunkID) : M SV (list Contact) :=
  s ← the_service;
  resp ← exchange "requestFileProvidersFrom" addr (file_providers_request (n_id (s_node s)) root);
  lift (m_Providers <$> response_of "requestFileProvidersFrom" resp).

Definition file_meta_request (from : ID) (root : ChunkID) (reqID : string) (ts : Z) : Message :=
  with_FileRoot (ChunkID_String root) (with_RequestID reqID (new_message MsgGetFileMeta from ts)).

(** A root that differs from the requested one is only logged. *)
Definition file_meta_response (resp : option Message) : res FileMeta :=
  resp ← response_of "FetchFileMetaFromProvider" resp;
  match m_FileMeta resp with
  | None => Err (EMsg "FetchFileMetaFromProvider: missing FileMeta in response")
  | Some meta => Ok meta
  end.

Definition FetchFileMetaFromProvider (addr : string) (root : ChunkID) : M SV FileMeta :=
  s ← the_service;
  resp ← exchange "FetchFileMetaFromProvider" addr (file_meta_request (n_id (s_node s)) root);
  lift (file_meta_response resp).
End Service.

(** ** The invariant of a service *)

Record service_ok {S N} `{ChunkStoreSpec S} (s : Service S N) : Prop := {
  ok_node : node_ok (s_node s);
  ok_delivered k m : s_delivered s !! k = Some m →
    m_RequestID m = k ∧ isResponseType (m_Type m) = true;
}.

(** The network does not take the process down: sending returns, and there is
    randomness. *)
Class NetworkSafe (N : Type) `{Network N} : Prop := {
  net_send_no_panic addr b net : (net_send addr b net).2 ≠ Panic;
  net_rand_ok net : is_ok (net_rand net).2 = true;
}.

Definition same_service {S N} (s s' : Service S N) : Prop := same_identity (s_node s) (s_node s').
#[export] Instance same_service_preorder {S N} : PreOrder (same_service (S := S) (N := N)).
Proof.
  split; [by intros ?|]. intros s1 s2 s3. unfold same_service. intros. by transitivity (s_node s2).
Qed.

Notation keeps_service := (safe service_ok same_service).

Section Safety.
Context {S N : Type} `{ChunkStoreSpec S} `{SortSlice} `{MessageCodec} `{NetworkSafe N}.
Notation SV := (Service S N).
Notation keeps_sv m := (keeps_service (m : M SV _)).
#[local] Set Default Proof Using "Type*".

Lemma sv_bind {A B} (m : M SV A) (f : A → M SV B) :
  keeps_service m → (∀ a, keeps_service (f a)) → keeps_service (m ≫= f).
Proof. apply safe_bind, _. Qed.
Lemma sv_ret {A} (a : A) : keeps_sv (mret a).
Proof. apply safe_ret, _. Qed.
Lemma sv_fail {A} e : keeps_sv (fail (A := A) e).
Proof. apply safe_fail, _. Qed.

Lemma sv_lift {A} (r : res A) : r ≠ Panic → keeps_sv (lift r).
Proof. by intros Hr s Hs. Qed.

Lemma sv_the_service : keeps_sv the_service.
Proof. by intros s Hs. Qed.

Lemma sv_on_net {A} (m : M N A) : (∀ net, (m net).2 ≠ Panic) → keeps_sv (on_net m).
Proof.
  intros Hm s Hs. unfold on_net. specialize (Hm (s_net s)). destruct (m (s_net s)) as [net r].
  split_and!; [by destruct Hs|done|done].
Qed.

Lemma sv_on_node {A} (m : M (Node S) A) : preserves m → keeps_sv (on_node m).
Proof.
  intros Hm s [Hs Hd]. unfold on_node. destruct (Hm _ Hs) as (? & ? & ?).
  by destruct (m (s_node s)) as [n r].
Qed.

Lemma sv_logged {A} (d : A) (m : M SV A) : keeps_service m → keeps_service (logged d m).
Proof.
  intros Hm s Hs. destruct (Hm s Hs) as (? & ? & ?). unfold logged. by destruct (m s) as [s' [a|e|]].
Qed.

Lemma sv_clock : keeps_sv clock.
Proof. apply sv_on_net. intros net. by destruct (net_clock net). Qed.

Lemma sv_send addr b : keeps_sv (send addr b).
Proof. apply sv_on_net, net_send_no_panic. Qed.

Lemma sv_pending k : keeps_sv (registerPending k) ∧ keeps_sv (takePending k).
Proof. split; intros s [Hn Hd]; split_and!; by split || done. Qed.

Lemma sv_deliver k m :
  m_RequestID m = k → isResponseType (m_Type m) = true → keeps_sv (deliver k m).
Proof.
  intros Hk Ht s [Hn Hd]. split_and!; [|done|done]. split; [done|]. simpl.
  intros k' m'. rewrite lookup_insert. case_decide; [by intros [= <-]; subst|apply Hd].
Qed.

Lemma sv_receive k : keeps_sv (receive_response k).
Proof.
  intros s [Hn Hd]. split_and!; [|done|done]. split; [done|]. simpl.
  intros k' m' [_ Hm]%lookup_delete_Some. by apply Hd.
Qed.

Lemma sv_serve rpc : keeps_sv (serve rpc).
Proof.
  apply sv_bind; [apply sv_clock|intros now].
  apply sv_bind; [apply sv_logged, sv_on_node, preserves_HandleRPC|intros [resp|]]; [|apply sv_ret].
  apply sv_logged, sv_bind; [apply sv_lift, encode_no_panic|intros; apply sv_send].
Qed.

Lemma sv_readLoop_body rpc : keeps_sv (readLoop_body rpc).
Proof.
  unfold readLoop_body. pose proof (decode_no_panic (rpc_Payload rpc)).
  destruct (DecodeMessage (rpc_Payload rpc)) as [msg|e|]; [|apply sv_ret|done].
  case_match eqn:E; [|apply sv_serve]. apply andb_true_iff in E as [_ Ht].
  apply sv_bind; [apply sv_pending|intros [|]]; [by apply sv_deliver|apply sv_serve].
Qed.

Lemma sv_readLoop rpcs : keeps_sv (readLoop rpcs).
Proof.
  induction rpcs as [|rpc rpcs IH]; [apply sv_ret|].
  apply sv_bind; [apply sv_readLoop_body|intros; apply IH].
Qed.

Lemma sv_run_arrivals : keeps_sv run_arrivals.
Proof.
  apply sv_bind; [|intros; apply sv_readLoop]. apply sv_on_net. intros net.
  by destruct (net_arrivals net).
Qed.

Lemma sv_SendFindNode addr target : keeps_sv (SendFindNode addr target).
Proof.
  apply sv_bind; [apply sv_the_service|intros s]. apply sv_bind; [apply sv_clock|intros now].
  apply sv_bind; [apply sv_lift, encode_no_panic|intros; apply sv_send].
Qed.

Lemma sv_SendPing addr : keeps_sv (SendPing addr).
Proof.
  apply sv_bind; [apply sv_the_service|intros s]. apply sv_bind; [apply sv_clock|intros now].
  apply sv_bind; [apply sv_lift, encode_no_panic|intros; apply sv_send].
Qed.

Lemma sv_new_reqID : keeps_sv new_reqID.
Proof.
  apply sv_on_net. intros net. pose proof (net_rand_ok net). destruct (net_rand net) as [net' [id|e|]];
    done.
Qed.

Lemma sv_send_request what addr b k : keeps_sv (send_request what addr b k).
Proof.
  intros s Hs. unfold send_request. destruct (sv_send addr b s Hs) as (Hs' & ? & ?).
  destruct (send addr b s) as [s' [[]|e|]]; [done| |done].
  split_and!; [by apply (sv_pending k)|done|done].
Qed.

Lemma sv_await what k : keeps_sv (await what k).
Proof.
  apply sv_bind; [apply sv_run_arrivals|intros _]. apply sv_bind; [apply sv_receive|intros [m|]].
  - apply sv_ret.
  - apply sv_bind; [apply sv_pending|intros; apply sv_fail].
Qed.

Lemma sv_exchange what addr request : keeps_sv (exchange what addr request).
Proof.
  apply sv_bind; [apply sv_new_reqID|intros k]. apply sv_bind; [apply sv_clock|intros now].
  apply sv_bind; [apply safe_wrap, sv_lift, encode_no_panic|intros b].
  apply sv_bind; [apply sv_pending|intros _].
  apply sv_bind; [apply sv_send_request|intros; apply sv_await].
Qed.

Lemma response_of_no_panic what resp : response_of what resp ≠ Panic.
Proof. unfold response_of. by repeat case_match. Qed.

(** Every request function: an exchange, and a check that cannot panic. *)
Lemma sv_request {A} what addr request (check : option Message → res A) :
  (∀ r, check r ≠ Panic) →
  keeps_sv (s ← the_service; resp ← exchange what addr (request s); lift (check resp)).
Proof.
  intros Hc. apply sv_bind; [apply sv_the_service|intros s].
  apply sv_bind; [apply sv_exchange|intros r; by apply sv_lift].
Qed.

Lemma store_chunk_response_no_panic r : store_chunk_response r ≠ Panic.
Proof.
  unfold store_chunk_response. pose proof (response_of_no_panic "StoreChunkRemote" r).
  destruct (response_of _ r) as [m|e|]; simpl; [|done|done]. case_bool_decide; [done|].
  pose proof (ChunkIDFromHex_no_panic (m_ChunkID m)). by destruct (ChunkIDFromHex _).
Qed.

Lemma fetch_chunk_response_no_panic r : fetch_chunk_response r ≠ Panic.
Proof.
  unfold fetch_chunk_response. pose proof (response_of_no_panic "FetchChunkRemote" r).
  destruct (response_of _ r) as [m|e|]; simpl; [|done|done]. by repeat case_match.
Qed.

Lemma file_meta_response_no_panic r : file_meta_response r ≠ Panic.
Proof.
  unfold file_meta_response. pose proof (response_of_no_panic "FetchFileMetaFromProvider" r).
  destruct (response_of _ r) as [m|e|]; simpl; [|done|done]. by repeat case_match.
Qed.

Lemma sv_requests addr data id root :
  keeps_sv (StoreChunkRemote addr data) ∧
  keeps_sv (FetchChunkRemote addr id) ∧
  keeps_sv (requestFileProvidersFrom addr root) ∧
  keeps_sv (FetchFileMetaFromProvider addr root).
Proof.
  split_and!; apply sv_request.
  - apply store_chunk_response_no_panic.
  - apply fetch_chunk_response_no_panic.
  - intros r. pose proof (response_of_no_panic "requestFileProvidersFrom" r).
    by destruct (response_of _ r).
  - apply file_meta_response_no_panic.
Qed.
End Safety.
