(* ===== verification/Pending.v ===== *)
(** * Waiting requests (src/internal/dht/service.go)

    The goroutines that share [Service.pending]: the read loop and any number
    of requests, each a program counter over the statements that touch the map
    or a channel. Every action is one such statement, in any order the
    scheduler likes. *)

From S2P Require Import Prelude Hex Sha256 ChunkId Merkle FileSys Store Reader Chunker FileMeta Erasure EcFile Id RoutingTable Message Rfc3339 MessageJson Node Service.
From stdpp Require Import list options.

(** A [chan *Message] of capacity one. *)
Record chan := Chan { c_buf : option Message; c_closed : bool }.

(** Why a request gives up. *)
Inductive failure := NotSent | TimedOut.

(** How a request ends: an error of its own, or what [<-respCh] gave, which is
    [nil] on a closed channel. *)
Definition outcome : Type := failure + option Message.

Inductive request_pc :=
  | Created                                  (* before [registerPending] *)
  | Registered                               (* before [transport.Send] *)
  | Waiting                                  (* in the [select] *)
  | Failed (why : failure)                   (* before [takePending] *)
  | Took (ch : option nat) (why : failure)   (* before [close(ch)] *)
  | Done (o : outcome).

Inductive loop_pc :=
  | LIdle                                    (* at [Consume()] *)
  | LHave (msg : Message)                    (* before [takePending] *)
  | LTook (ch : nat) (msg : Message)         (* before [ch <- msg] *)
  | LSent (ch : nat).                        (* before [close(ch)] *)

(** The channel that a request makes carries the number of the request. *)
Record system := Sys {
  pending : gmap string nat;
  chans : gmap nat chan;
  requests : gmap nat (string * request_pc);
  loop : loop_pc;
}.

Definition no_requests : system := Sys ∅ ∅ ∅ LIdle.

(** A statement goes on, waits, or panics. *)
Inductive effect := Next (s : system) | Blocked | Crashed.

Inductive action :=
  | Spawn (r : nat) (reqID : string)
  | Register (r : nat)
  | Send (r : nat) (ok : bool)
  | Expire (r : nat)
  | TakeBack (r : nat)
  | Finish (r : nat)
  | Receive (r : nat)
  | Arrive (msg : Message)
  | LoopTake
  | LoopSend
  | LoopClose.

(** ** The statements *)

(** [ch <- msg] *)
Definition send_chan (c : nat) (msg : Message) (s : system) (next : loop_pc) : effect :=
  match chans s !! c with
  | None => Blocked
  | Some (Chan _ true) => Crashed
  | Some (Chan (Some _) false) => Blocked
  | Some (Chan None false) =>
      Next (Sys (pending s) (<[c := Chan (Some msg) false]> (chans s)) (requests s) next)
  end.

(** [close(ch)] *)
Definition close_chan (c : nat) (s : system) : effect :=
  match chans s !! c with
  | None => Crashed
  | Some (Chan _ true) => Crashed
  | Some (Chan b false) =>
      Next (Sys (pending s) (<[c := Chan b true]> (chans s)) (requests s) (loop s))
  end.

Definition goto (r : nat) (reqID : string) (pc : request_pc) (s : system) : system :=
  Sys (pending s) (chans s) (<[r := (reqID, pc)]> (requests s)) (loop s).

Definition register (r : nat) (reqID : string) (s : system) : system :=
  Sys (<[reqID := r]> (pending s)) (<[r := Chan None false]> (chans s)) (requests s) (loop s).

(** [takePending], without its result. *)
Definition untrack (reqID : string) (s : system) : system :=
  Sys (delete reqID (pending s)) (chans s) (requests s) (loop s).

Definition loop_at (pc : loop_pc) (s : system) : system :=
  Sys (pending s) (chans s) (requests s) pc.

Definition finish (r : nat) (reqID : string) (o : outcome) (e : effect) : effect :=
  match e with Next s => Next (goto r reqID (Done o) s) | e => e end.

(** [resp := <-respCh] *)
Definition receive_chan (r : nat) (reqID : string) (s : system) : effect :=
  match chans s !! r with
  | Some (Chan (Some msg) closed) =>
      Next (goto r reqID (Done (inr (Some msg)))
        (Sys (pending s) (<[r := Chan None closed]> (chans s)) (requests s) (loop s)))
  | Some (Chan None true) => Next (goto r reqID (Done (inr None)) s)
  | _ => Blocked
  end.

Definition exec_request (a : action) (r : nat) (reqID : string) (pc : request_pc) (s : system) : effect :=
  match a, pc with
  | Register _, Created => Next (goto r reqID Registered (register r reqID s))
  | Send _ true, Registered => Next (goto r reqID Waiting s)
  | Send _ false, Registered => Next (goto r reqID (Failed NotSent) s)
  | Expire _, Waiting => Next (goto r reqID (Failed TimedOut) s)
  | TakeBack _, Failed why => Next (goto r reqID (Took (pending s !! reqID) why) (untrack reqID s))
  | Finish _, Took None why => Next (goto r reqID (Done (inl why)) s)
  | Finish _, Took (Some c) why => finish r reqID (inl why) (close_chan c s)
  | Receive _, Waiting => receive_chan r reqID s
  | _, _ => Blocked
  end.

Definition exec_loop (a : action) (s : system) : effect :=
  match a, loop s with
  | Arrive msg, LIdle =>
      if bool_decide (m_RequestID msg ≠ "") && isResponseType (m_Type msg)
      then Next (loop_at (LHave msg) s) else Next s
  | LoopTake, LHave msg =>
      match pending s !! m_RequestID msg with
      | Some c => Next (loop_at (LTook c msg) (untrack (m_RequestID msg) s))
      | None => Next (loop_at LIdle s)
      end
  | LoopSend, LTook c msg => send_chan c msg s (LSent c)
  | LoopClose, LSent c =>
      match close_chan c s with Next s' => Next (loop_at LIdle s') | e => e end
  | _, _ => Blocked
  end.

Definition exec (a : action) (s : system) : effect :=
  match a with
  | Spawn r reqID =>
      match requests s !! r with None => Next (goto r reqID Created s) | Some _ => Blocked end
  | Register r | Send r _ | Expire r | TakeBack r | Finish r | Receive r =>
      match requests s !! r with Some (reqID, pc) => exec_request a r reqID pc s | None => Blocked end
  | Arrive _ | LoopTake | LoopSend | LoopClose => exec_loop a s
  end.

Fixpoint run (l : list action) (s : system) : effect :=
  match l with
  | [] => Next s
  | a :: rest => match exec a s with Next s' => run rest s' | e => e end
  end.

Inductive reachable : system → Prop :=
  | reach_init : reachable no_requests
  | reach_step a s s' : reachable s → exec a s = Next s' → reachable s'.

(** ** The invariant *)

Definition asked (s : system) (r : nat) (k : string) : Prop := ∃ pc, requests s !! r = Some (k, pc).
(** Another request has the same identifier. *)
Definition shared (s : system) (r : nat) (k : string) : Prop := ∃ r', r' ≠ r ∧ asked s r' k.
(** The message answers the request of the channel. *)
Definition fits (s : system) (c : nat) (msg : Message) : Prop :=
  asked s c (m_RequestID msg) ∧ isResponseType (m_Type msg) = true.

(** Who may send on a channel or close it. *)
Inductive holder := HPending (reqID : string) | HLoop | HRequest (r : nat).

Definition held (s : system) (h : holder) (c : nat) : Prop :=
  match h with
  | HPending k => pending s !! k = Some c
  | HLoop => (∃ m, loop s = LTook c m) ∨ loop s = LSent c
  | HRequest r => ∃ k why, requests s !! r = Some (k, Took (Some c) why)
  end.

Definition tracked (pc : request_pc) : bool :=
  match pc with Registered | Waiting | Failed _ => true | _ => false end.

Definition empty_chan : chan := Chan None false.

Record inv (s : system) : Prop := {
  inv_pending k c : pending s !! k = Some c →
    chans s !! c = Some empty_chan ∧ ∃ pc, requests s !! c = Some (k, pc) ∧ tracked pc = true;
  inv_have m : loop s = LHave m → isResponseType (m_Type m) = true;
  inv_took c m : loop s = LTook c m → chans s !! c = Some empty_chan ∧ fits s c m;
  inv_sent c : loop s = LSent c → ∃ b, chans s !! c = Some (Chan b false) ∧
    (b = None → ∃ k o, requests s !! c = Some (k, Done o));
  inv_closer r k c why : requests s !! r = Some (k, Took (Some c) why) →
    chans s !! c = Some empty_chan ∧ asked s c k;
  inv_unique h h' c : held s h c → held s h' c → h = h';
  inv_buf c m closed : chans s !! c = Some (Chan (Some m) closed) → fits s c m;
  inv_got r k m : requests s !! r = Some (k, Done (inr (Some m))) →
    m_RequestID m = k ∧ isResponseType (m_Type m) = true;
  inv_nil r k : requests s !! r = Some (k, Done (inr None)) → shared s r k;
  inv_closed r k pc : requests s !! r = Some (k, pc) → pc = Registered ∨ pc = Waiting →
    chans s !! r = Some (Chan None true) → shared s r k;
  inv_made r ch : chans s !! r = Some ch → ∃ k pc, requests s !! r = Some (k, pc) ∧ pc ≠ Created;
}.

(** ** Preservation *)

#[local] Ltac look := repeat match goal with
  | H : context [<[_ := _]> _ !! _] |- _ => rewrite lookup_insert in H; case_decide
  | |- context [<[_ := _]> _ !! _] => rewrite lookup_insert; case_decide
  | H : delete _ _ !! _ = Some _ |- _ => apply lookup_delete_Some in H as [??]
  end; simplify_eq/=.

Lemma asked_goto s r r' k k' pc : asked s r k → asked s r' k' → asked (goto r k pc s) r' k'.
Proof.
  intros [pc1 H1] [pc2 H2]. unfold asked. simpl. destruct (decide (r = r')) as [->|].
  - rewrite lookup_insert_eq. exists pc. congruence.
  - rewrite lookup_insert_ne by done. by exists pc2.
Qed.

Lemma shared_goto s r k pc r' k' : asked s r k → shared s r' k' → shared (goto r k pc s) r' k'.
Proof. intros Hr (r2 & Hne & H2). exists r2. split; [done|]. by apply asked_goto. Qed.

Lemma held_goto s r k pc h c :
  (∀ c why, pc ≠ Took (Some c) why) → held (goto r k pc s) h c → held s h c ∧ h ≠ HRequest r.
Proof.
  intros Hpc Hh. destruct h as [k'| |r']; [done|done|].
  destruct Hh as (k' & why & Hh). simpl in Hh. rewrite lookup_insert in Hh. case_decide; [naive_solver|].
  split; [by exists k', why|naive_solver].
Qed.

(** A request moves on, without taking a channel. *)
Lemma inv_goto s r k pc pc' :
  inv s → requests s !! r = Some (k, pc) →
  (∀ k', pending s !! k' = Some r → tracked pc' = true) →
  (∀ o, pc ≠ Done o) → pc' ≠ Created → (∀ c why, pc' ≠ Took (Some c) why) →
  (∀ m, pc' = Done (inr (Some m)) → m_RequestID m = k ∧ isResponseType (m_Type m) = true) →
  (pc' = Done (inr None) → shared s r k) →
  (pc' = Registered ∨ pc' = Waiting → chans s !! r = Some (Chan None true) → shared s r k) →
  inv (goto r k pc' s).
Proof.
  intros Hs Hr Htr Hdone Hcr Htook Hgot Hnil Hclosed.
  assert (Hk : asked s r k) by by exists pc.
  split; simpl.
  - intros k' c Hp. destruct (inv_pending s Hs k' c Hp) as (? & pc1 & Hc & ?). split; [done|].
    look; [|by exists pc1]. exists pc'. split; [done|by eapply Htr].
  - apply (inv_have s Hs).
  - intros c m Hl. destruct (inv_took s Hs c m Hl) as (? & ? & ?). split; [done|].
    split; [by apply asked_goto|done].
  - intros c Hl. destruct (inv_sent s Hs c Hl) as (b & ? & Hb). exists b. split; [done|].
    intros Hn. destruct (Hb Hn) as (k1 & o & Ho). look; [|by exists k1, o].
    by destruct (Hdone o).
  - intros r' k' c why Hq. look; [by destruct (Htook c why)|].
    destruct (inv_closer s Hs r' k' c why Hq). split; [done|]. by apply asked_goto.
  - intros h h' c [Hh _]%held_goto [Hh' _]%held_goto; [|done..]. by eapply (inv_unique s Hs).
  - intros c m cl Hb. destruct (inv_buf s Hs c m cl Hb). split; [by apply asked_goto|done].
  - intros r' k' m Hq. look; [by apply Hgot|]. by eapply (inv_got s Hs).
  - intros r' k' Hq. apply shared_goto; [done|]. look; [by apply Hnil|]. by apply (inv_nil s Hs).
  - intros r' k' pc1 Hq Hpc Hch. apply shared_goto; [done|]. look; [by apply Hclosed|].
    by eapply (inv_closed s Hs).
  - intros r' ch Hch. look; [by exists k, pc'|]. by eapply (inv_made s Hs).
Qed.

(** The loop goes back to the transport, or has a message. *)
Lemma inv_loop_free s pc :
  inv s → pc = LIdle ∨ (∃ m, pc = LHave m ∧ isResponseType (m_Type m) = true) → inv (loop_at pc s).
Proof.
  intros Hs Hpc. assert (∀ h c, held (loop_at pc s) h c → held s h c) as Hh.
  { intros h c. destruct h; simpl; [done| |done]. naive_solver. }
  split; simpl; try apply Hs; try naive_solver.
  intros h h' c H1%Hh H2%Hh. by eapply (inv_unique s Hs).
Qed.

Lemma inv_untrack s k : inv s → inv (untrack k s).
Proof.
  intros Hs. assert (∀ h c, held (untrack k s) h c → held s h c) as Hh.
  { intros h c. destruct h; simpl; [|done..]. by intros [_ ?]%lookup_delete_Some. }
  split; simpl; try apply Hs.
  - intros k' c [_ Hp]%lookup_delete_Some. by apply (inv_pending s Hs).
  - intros h h' c H1%Hh H2%Hh. by eapply (inv_unique s Hs).
Qed.

(** Taking a channel out of the map leaves it without a holder. *)
Lemma untrack_free s k c h : inv s → pending s !! k = Some c → ¬ held (untrack k s) h c.
Proof.
  intros Hs Hp Hh. assert (h = HPending k) as ->.
  { apply (inv_unique s Hs h (HPending k) c); [|done]. destruct h; simpl in *; [|done..].
    by apply lookup_delete_Some in Hh as [_ ?]. }
  simpl in Hh. by rewrite lookup_delete_eq in Hh.
Qed.

Lemma inv_loop_took s c m :
  inv s → (∀ h, ¬ held s h c) → chans s !! c = Some empty_chan → fits s c m →
  inv (loop_at (LTook c m) s).
Proof.
  intros Hs Hfree Hc Hf. split; simpl; try apply Hs; try naive_solver.
  intros h h' c'. pose proof (inv_unique s Hs h h' c') as Hu.
  destruct h, h'; simpl in *; try naive_solver.
  - intros ? [[m' [= <- <-]]|[=]]. by destruct (Hfree (HPending reqID)).
  - intros [[m' [= <- <-]]|[=]] ?. by destruct (Hfree (HPending reqID)).
  - intros [[m' [= <- <-]]|[=]] ?. by destruct (Hfree (HRequest r)).
  - intros ? [[m' [= <- <-]]|[=]]. by destruct (Hfree (HRequest r)).
Qed.

Lemma inv_request_took s r k pc c why :
  inv s → requests s !! r = Some (k, pc) → (∀ k', pending s !! k' ≠ Some r) → (∀ o, pc ≠ Done o) →
  (∀ h, ¬ held s h c) → chans s !! c = Some empty_chan → asked s c k →
  inv (goto r k (Took (Some c) why) s).
Proof.
  intros Hs Hr Hp Hdone Hfree Hc Hk.
  assert (Hinv : inv (goto r k (Failed why) s)) by by eapply inv_goto; naive_solver.
  assert (Hask : ∀ r' k', asked (goto r k (Failed why) s) r' k' →
    asked (goto r k (Took (Some c) why) s) r' k').
  { intros r' k' [pc' Hq]. unfold asked. simpl in *. look; eauto. }
  assert (Hsh : ∀ r' k', shared (goto r k (Failed why) s) r' k' →
    shared (goto r k (Took (Some c) why) s) r' k').
  { intros r' k' (r2 & ? & ?). exists r2. auto. }
  assert (Hheld : ∀ h c', held (goto r k (Took (Some c) why) s) h c' →
    (h = HRequest r ∧ c' = c) ∨ (h ≠ HRequest r ∧ held s h c')).
  { intros h c'. destruct h; simpl; [by right..|]. intros (k' & why' & Hq). look; [by left|].
    right. split; [congruence|eauto]. }
  split; simpl.
  - intros k' c' Hp'. destruct (inv_pending s Hs k' c' Hp') as (? & pc1 & ? & ?). split; [done|].
    exists pc1. rewrite lookup_insert_ne; [done|]. intros ->. by destruct (Hp k').
  - apply (inv_have s Hs).
  - intros c' m Hl. destruct (inv_took _ Hinv c' m Hl) as (? & ? & ?). split; [done|]. split; auto.
  - intros c' Hl. destruct (inv_sent s Hs c' Hl) as (b & ? & Hb). exists b. split; [done|].
    intros Hn. destruct (Hb Hn) as (k1 & o & Ho). exists k1, o. rewrite lookup_insert_ne; [done|].
    intros ->. rewrite Hr in Ho. injection Ho as _ ->. by destruct (Hdone o).
  - intros r' k' c' why' Hq. look.
    + split; [done|]. apply Hask, asked_goto; [by exists pc|done].
    + destruct (inv_closer s Hs r' k' c' why' Hq). split; [done|]. apply Hask, asked_goto; [by exists pc|done].
  - intros h h' c' [[-> ->]|[? H1]]%Hheld [[-> ?]|[? H2]]%Hheld; subst; try done.
    + by destruct (Hfree h').
    + by destruct (Hfree h).
    + by eapply (inv_unique s Hs).
  - intros c' m cl Hb. destruct (inv_buf _ Hinv c' m cl Hb). split; auto.
  - intros r' k' m Hq. look. by eapply (inv_got s Hs).
  - intros r' k' Hq. look. apply Hsh, shared_goto; [by exists pc|by apply (inv_nil s Hs)].
  - intros r' k' pc1 Hq Hpc Hch. look; [naive_solver|].
    apply Hsh, shared_goto; [by exists pc|by eapply (inv_closed s Hs)].
  - intros r' ch Hch. look; [by eexists _, _|]. by eapply (inv_made s Hs).
Qed.

Lemma inv_spawn s r k : inv s → requests s !! r = None → inv (goto r k Created s).
Proof.
  intros Hs Hr.
  assert (Hne : ∀ r' x, requests s !! r' = Some x → r' ≠ r) by (intros r' x ? ->; congruence).
  assert (Hreq : ∀ r' x, requests s !! r' = Some x → requests (goto r k Created s) !! r' = Some x).
  { intros r' x Hx. simpl. rewrite lookup_insert_ne; [done|]. symmetry. by eapply Hne. }
  assert (Hask : ∀ r' k', asked s r' k' → asked (goto r k Created s) r' k').
  { intros r' k' [pc' Hq]. exists pc'. by apply Hreq. }
  assert (Hsh : ∀ r' k', shared s r' k' → shared (goto r k Created s) r' k').
  { intros r' k' (r2 & ? & ?). exists r2. auto. }
  split; simpl.
  - intros k' c Hp. destruct (inv_pending s Hs k' c Hp) as (? & pc1 & Hc & ?). split; [done|].
    exists pc1. split; [by apply Hreq|done].
  - apply (inv_have s Hs).
  - intros c m Hl. destruct (inv_took s Hs c m Hl) as (? & ? & ?). split; [done|]. split; auto.
  - intros c Hl. destruct (inv_sent s Hs c Hl) as (b & ? & Hb). exists b. split; [done|].
    intros Hn. destruct (Hb Hn) as (k1 & o & Ho). exists k1, o. by apply Hreq.
  - intros r' k' c why Hq. look. destruct (inv_closer s Hs r' k' c why Hq). split; auto.
  - intros h h' c [Hh _]%held_goto [Hh' _]%held_goto; [|done..]. by eapply (inv_unique s Hs).
  - intros c m cl Hb. destruct (inv_buf s Hs c m cl Hb). split; auto.
  - intros r' k' m Hq. look. by eapply (inv_got s Hs).
  - intros r' k' Hq. look. apply Hsh. by apply (inv_nil s Hs).
  - intros r' k' pc1 Hq Hpc Hch. look; [naive_solver|]. apply Hsh. by eapply (inv_closed s Hs).
  - intros r' ch Hch. destruct (inv_made s Hs r' ch Hch) as (k1 & pc1 & Hq & ?).
    exists k1, pc1. split; [by apply Hreq|done].
Qed.

(** A request that has not registered has no channel, so nobody holds it. *)
Lemma created_unmade s r k : inv s → requests s !! r = Some (k, Created) → chans s !! r = None.
Proof.
  intros Hs Hr. destruct (chans s !! r) as [ch|] eqn:E; [|done].
  destruct (inv_made s Hs r ch E) as (? & ? & ? & ?). naive_solver.
Qed.

Lemma held_made s h c : inv s → held s h c → is_Some (chans s !! c).
Proof.
  intros Hs Hh. destruct h; simpl in Hh.
  - destruct (inv_pending s Hs reqID c Hh) as [-> _]. by eexists.
  - destruct Hh as [[m Hm]|Hl]; [destruct (inv_took s Hs c m Hm) as [-> _]; by eexists|].
    destruct (inv_sent s Hs c Hl) as (b & -> & _). by eexists.
  - destruct Hh as (k & why & Hq). destruct (inv_closer s Hs _ _ _ _ Hq) as [-> _]. by eexists.
Qed.

Lemma inv_register s r k :
  inv s → requests s !! r = Some (k, Created) → inv (goto r k Registered (register r k s)).
Proof.
  intros Hs Hr. pose proof (created_unmade s r k Hs Hr) as Hch.
  assert (Hinv : inv (goto r k Registered s)) by by eapply inv_goto; naive_solver.
  assert (Hpr : ∀ k', pending s !! k' ≠ Some r).
  { intros k' Hp. destruct (inv_pending s Hs k' r Hp). congruence. }
  assert (Hne : ∀ h c, held (goto r k Registered s) h c → c ≠ r).
  { intros h c Hh ->. destruct (held_made _ h r Hinv Hh) as [? E]. simpl in E. congruence. }
  split; simpl.
  - intros k' c Hp. rewrite lookup_insert in Hp. case_decide; simplify_eq.
    { rewrite !lookup_insert_eq. split; [done|by exists Registered]. }
    rewrite lookup_insert_ne; [by apply (inv_pending _ Hinv)|]. intros ->. by destruct (Hpr k').
  - apply (inv_have s Hs).
  - intros c m Hl. rewrite lookup_insert_ne; [by apply (inv_took _ Hinv)|].
    intros ->. eapply (Hne HLoop); [left; by eexists|done].
  - intros c Hl. rewrite lookup_insert_ne; [by apply (inv_sent _ Hinv)|].
    intros ->. by eapply (Hne HLoop); [right|].
  - intros r' k' c why Hq. rewrite lookup_insert_ne; [by eapply (inv_closer _ Hinv)|].
    intros ->. by eapply (Hne (HRequest r')); [exists k', why|].
  - assert (Hu : ∀ h c, held (goto r k Registered (register r k s)) h c →
      (h = HPending k ∧ c = r) ∨ held (goto r k Registered s) h c).
    { intros h c. destruct h; [|by right..]. simpl. intros Hp. look; [by left|by right]. }
    intros h h' c [[-> ->]|H1]%Hu [[-> ?]|H2]%Hu; subst; try done.
    + by destruct (Hne _ _ H2).
    + by destruct (Hne _ _ H1).
    + by eapply (inv_unique _ Hinv).
  - intros c m cl Hb. look. by eapply (inv_buf _ Hinv).
  - apply (inv_got _ Hinv).
  - apply (inv_nil _ Hinv).
  - intros r' k' pc Hq Hpc Hc. apply (inv_closed _ Hinv r' k' pc); [done|done|]. simpl. look. done.
  - intros r' ch Hc. look; [by eexists _, _|]. destruct (inv_made s Hs r' ch Hc) as (k1 & pc1 & ? & ?).
    by exists k1, pc1.
Qed.

(** Closing a channel that nobody holds any more. *)
Lemma inv_close s c b :
  inv s → (∀ h, ¬ held s h c) → chans s !! c = Some (Chan b false) →
  (∀ k pc, b = None → requests s !! c = Some (k, pc) → pc = Registered ∨ pc = Waiting → shared s c k) →
  inv (Sys (pending s) (<[c := Chan b true]> (chans s)) (requests s) (loop s)).
Proof.
  intros Hs Hfree Hc Hsh. split; simpl; try by apply Hs.
  - intros k c' Hp. rewrite lookup_insert_ne; [by apply (inv_pending s Hs)|].
    intros ->. by destruct (Hfree (HPending k)).
  - intros c' m Hl. rewrite lookup_insert_ne; [by apply (inv_took s Hs)|].
    intros ->. destruct (Hfree HLoop). left. by eexists.
  - intros c' Hl. rewrite lookup_insert_ne; [by apply (inv_sent s Hs)|].
    intros ->. destruct (Hfree HLoop). by right.
  - intros r k c' why Hq. rewrite lookup_insert_ne; [by eapply (inv_closer s Hs)|].
    intros ->. destruct (Hfree (HRequest r)). by exists k, why.
  - intros c' m cl Hb. look; by eapply (inv_buf s Hs).
  - intros r k pc Hq Hpc Hch. look; [by eapply Hsh|]. by eapply (inv_closed s Hs).
  - intros r ch Hch. look; by eapply (inv_made s Hs).
Qed.

Lemma inv_send s c m :
  inv s → loop s = LTook c m →
  inv (Sys (pending s) (<[c := Chan (Some m) false]> (chans s)) (requests s) (LSent c)).
Proof.
  intros Hs Hl. destruct (inv_took s Hs c m Hl) as [Hc Hf].
  assert (Hne : ∀ h c', h ≠ HLoop → held s h c' → c' ≠ c).
  { intros h c' Hh Hheld ->. apply Hh, (inv_unique s Hs h HLoop c); [done|]. left. by eexists. }
  split; simpl; try by apply Hs.
  - intros k c' Hp. rewrite lookup_insert_ne; [by apply (inv_pending s Hs)|].
    intros ->. by eapply (Hne (HPending k)).
  - done.
  - done.
  - intros c' [= <-]. exists (Some m). by rewrite lookup_insert_eq.
  - intros r k c' why Hq. rewrite lookup_insert_ne; [by eapply (inv_closer s Hs)|].
    intros ->. eapply (Hne (HRequest r)); [done|by exists k, why|done].
  - assert (Hh : ∀ h c', held (Sys (pending s) (<[c := Chan (Some m) false]> (chans s)) (requests s) (LSent c)) h c'
      → held s h c').
    { intros h c'. destruct h; simpl; [done| |done]. intros [[m' ?]|[= <-]]; [done|]. left. by eexists. }
    intros h h' c' H1%Hh H2%Hh. by eapply (inv_unique s Hs).
  - intros c' m' cl Hb. look; [done|]. by eapply (inv_buf s Hs).
  - intros r k pc Hq Hpc Hch. look. by eapply (inv_closed s Hs).
  - intros r ch Hch. look; by eapply (inv_made s Hs).
Qed.

Lemma inv_receive s r k m closed :
  inv s → requests s !! r = Some (k, Waiting) → chans s !! r = Some (Chan (Some m) closed) →
  inv (goto r k (Done (inr (Some m)))
    (Sys (pending s) (<[r := Chan None closed]> (chans s)) (requests s) (loop s))).
Proof.
  intros Hs Hr Hc. destruct (inv_buf s Hs r m closed Hc) as [[pc Hm] Ht].
  assert (Hpr : ∀ k', pending s !! k' ≠ Some r).
  { intros k' Hp. destruct (inv_pending s Hs k' r Hp) as [E _]. rewrite Hc in E. done. }
  assert (Hinv : inv (goto r k (Done (inr (Some m))) s)) by (eapply inv_goto; naive_solver).
  split; simpl; try by apply Hinv.
  - intros k' c Hp. rewrite lookup_insert_ne; [by apply (inv_pending _ Hinv)|].
    intros <-. by destruct (Hpr k').
  - intros c m' Hl. rewrite lookup_insert_ne; [by apply (inv_took _ Hinv)|].
    intros <-. destruct (inv_took s Hs r m' Hl) as [E _]. rewrite Hc in E. done.
  - intros c Hl. destruct (inv_sent _ Hinv c Hl) as (b & Hb & ?). simpl in Hb.
    destruct (decide (r = c)) as [<-|Hne].
    + exists None. rewrite !lookup_insert_eq. split; [congruence|]. intros _. by eexists _, _.
    + exists b. rewrite lookup_insert_ne by done. done.
  - intros r' k' c why Hq. rewrite lookup_insert_ne; [by eapply (inv_closer _ Hinv)|].
    intros <-. destruct (inv_closer _ Hinv _ _ _ _ Hq) as [E _]. simpl in E. rewrite Hc in E. done.
  - intros c m' cl Hb. look. by eapply (inv_buf _ Hinv).
  - intros r' k' pc' Hq Hpc Hch. eapply (inv_closed _ Hinv r' k' pc'); [done|done|].
    simpl. look; naive_solver.
  - intros r' ch Hch. destruct (decide (r = r')) as [<-|Hne].
    + rewrite lookup_insert_eq. by eexists _, _.
    + rewrite lookup_insert_ne in Hch by done. by eapply (inv_made _ Hinv).
Qed.

Lemma close_chan_open s c b :
  chans s !! c = Some (Chan b false) →
  close_chan c s = Next (Sys (pending s) (<[c := Chan b true]> (chans s)) (requests s) (loop s)).
Proof. intros Hc. unfold close_chan. by rewrite Hc. Qed.

(** A request closes the channel it took. *)
Lemma inv_finish s r k c why :
  inv s → requests s !! r = Some (k, Took (Some c) why) →
  inv (goto r k (Done (inl why))
    (Sys (pending s) (<[c := Chan None true]> (chans s)) (requests s) (loop s))).
Proof.
  intros Hs Hr. destruct (inv_closer s Hs r k c why Hr) as [Hc [pc Hk]].
  assert (Hinv : inv (goto r k (Done (inl why)) s)).
  { eapply inv_goto; try done; [|naive_solver].
    intros k' Hp. destruct (inv_pending s Hs k' r Hp) as (_ & pc' & Hq & ?). naive_solver. }
  apply (inv_close (goto r k (Done (inl why)) s) c None Hinv); [|done|].
  - intros h [Hh Hne]%held_goto; [|done]. apply Hne, (inv_unique s Hs h (HRequest r) c Hh).
    by exists k, why.
  - intros k' pc' _ Hq Hpc. simpl in Hq. look; [naive_solver|].
    exists r. split; [congruence|]. exists (Done (inl why)). by rewrite <-(lookup_insert_eq (requests s) r).
Qed.

Lemma inv_take_back s r k why :
  inv s → requests s !! r = Some (k, Failed why) →
  inv (goto r k (Took (pending s !! k) why) (untrack k s)).
Proof.
  intros Hs Hr. assert (Hinv : inv (untrack k s)) by by apply inv_untrack.
  assert (Hmine : ∀ k', pending (untrack k s) !! k' ≠ Some r).
  { intros k'. simpl. intros [Hne Hp]%lookup_delete_Some.
    destruct (inv_pending s Hs k' r Hp) as (_ & pc & ? & _). naive_solver. }
  destruct (pending s !! k) as [c|] eqn:Hp.
  - destruct (inv_pending s Hs k c Hp) as (Hc & pc & Hq & _).
    eapply inv_request_took; [done|done|done|naive_solver| |done|by exists pc].
    intros h. by apply untrack_free.
  - eapply inv_goto; [done|done| |naive_solver..]. intros k' Hk. by destruct (Hmine k').
Qed.

Lemma exec_request_inv a s s' r k pc :
  inv s → requests s !! r = Some (k, pc) → exec_request a r k pc s = Next s' → inv s'.
Proof.
  intros Hs Hr He.
  assert (Hmove : ∀ pc', tracked pc = true → tracked pc' = true → pc' ≠ Registered → (pc' = Waiting → pc = Registered) →
    inv (goto r k pc' s)).
  { intros pc' Ht Ht' Hnr Hw. eapply inv_goto; [done|done|done|..]; try (by destruct pc, pc').
    intros [H|H]; [done|]. rewrite (Hw H) in Hr. apply (inv_closed s Hs r k Registered Hr). by left. }
  destruct a as [| |? []| | | | | | | |], pc as [| | | |[c|]|]; try discriminate He; simpl in He.
  - injection He as <-. by apply inv_register.
  - injection He as <-. by apply Hmove.
  - injection He as <-. by apply Hmove.
  - injection He as <-. by apply Hmove.
  - injection He as <-. by apply inv_take_back.
  - destruct (inv_closer s Hs r k c why Hr) as [Hc _].
    rewrite (close_chan_open s c None Hc) in He. injection He as <-. by apply inv_finish.
  - injection He as <-. eapply inv_goto; try done; [|naive_solver].
    intros k' Hp. destruct (inv_pending s Hs k' r Hp) as (_ & pc' & Hq & ?). naive_solver.
  - unfold receive_chan in He.
    destruct (chans s !! r) as [[[m|] [|]]|] eqn:Hc; try discriminate He; injection He as <-.
    + by apply inv_receive.
    + by apply inv_receive.
    + eapply inv_goto; try done; [| |naive_solver].
      * intros k' Hp. destruct (inv_pending s Hs k' r Hp) as [E _]. by rewrite Hc in E.
      * intros _. eapply (inv_closed s Hs); [done|by right|done].
Qed.

Lemma exec_loop_inv a s s' : inv s → exec_loop a s = Next s' → inv s'.
Proof.
  intros Hs He. destruct a; try discriminate He; destruct (loop s) as [|m|c m|c] eqn:Hl;
    try discriminate He; simpl in He; rewrite Hl in He; try discriminate He.
  - destruct (bool_decide _ && _)%bool eqn:E; injection He as <-; [|done].
    apply andb_true_iff in E as [_ ?]. apply inv_loop_free; [done|]. right. by exists msg.
  - destruct (pending s !! m_RequestID m) as [c|] eqn:Hp; injection He as <-.
    + destruct (inv_pending s Hs _ c Hp) as (Hc & pc & Hq & _).
      apply inv_loop_took; [by apply inv_untrack|intros h; by apply untrack_free|done|].
      split; [by exists pc|by apply (inv_have s Hs)].
    + apply inv_loop_free; [done|by left].
  - destruct (inv_took s Hs c m Hl) as [Hc _]. unfold send_chan in He. rewrite Hc in He.
    injection He as <-. by apply inv_send.
  - destruct (inv_sent s Hs c Hl) as (b & Hc & Hb). rewrite (close_chan_open s c b Hc) in He.
    injection He as <-.
    apply (inv_close (loop_at LIdle s) c b); [apply inv_loop_free; [done|by left]| |done|].
    + intros h Hh. assert (held s h c ∧ h ≠ HLoop) as [Hh' Hne].
      { destruct h; simpl in *; naive_solver. }
      apply Hne, (inv_unique s Hs h HLoop c Hh'). by right.
    + intros k pc -> Hq Hpc. destruct (Hb eq_refl) as (k' & o & Ho). simpl in Hq. naive_solver.
Qed.

Lemma exec_inv a s s' : inv s → exec a s = Next s' → inv s'.
Proof.
  intros Hs He. destruct a; try exact (exec_loop_inv _ s s' Hs He); unfold exec in He;
    destruct (requests s !! r) as [[k pc]|] eqn:Hr; try discriminate He;
    try exact (exec_request_inv _ s s' r k pc Hs Hr He).
  injection He as <-. by apply inv_spawn.
Qed.

Lemma no_requests_inv : inv no_requests.
Proof.
  split; simpl; try done.
  intros h h' c. destruct h, h'; simpl; rewrite ?lookup_empty; naive_solver.
Qed.

Lemma reachable_inv s : reachable s → inv s.
Proof.
  induction 1 as [|a s s' _ IH He]; [apply no_requests_inv|by eapply exec_inv].
Qed.

(** ** Nobody gets stuck *)

(** The statements of request [r], and those of the read loop. *)
Definition own (r : nat) (a : action) : bool :=
  match a with
  | Register r' | Send r' _ | Expire r' | TakeBack r' | Finish r' | Receive r' => (r' =? r)%nat
  | _ => false
  end.
Definition loop_own (a : action) : bool :=
  match a with LoopTake | LoopSend | LoopClose => true | _ => false end.
Definition is_arrival (a : action) : bool := match a with Arrive _ => true | _ => false end.

Definition count (f : action → bool) (l : list action) : nat := length (List.filter f l).

(** How many statements a request has left at most: [Register], [Send], the
    timer, [TakeBack] and [Finish]; and the loop with its message. *)
Definition weight (pc : request_pc) : nat :=
  match pc with
  | Created => 5
  | Registered => 4
  | Waiting => 3
  | Failed _ => 2
  | Took _ _ => 1
  | Done _ => 0
  end.
Definition loop_weight (pc : loop_pc) : nat :=
  match pc with LIdle => 0 | LHave _ => 3 | LTook _ _ => 2 | LSent _ => 1 end.

(** What a request does next when nothing comes for it; the outcome of [Send]
    is the transport's. *)
Definition next_statements (r : nat) (pc : request_pc) : list action :=
  match pc with
  | Created => [Register r]
  | Registered => [Send r true; Send r false]
  | Waiting => [Expire r]
  | Failed _ => [TakeBack r]
  | Took _ _ => [Finish r]
  | Done _ => []
  end.
Definition loop_statement (pc : loop_pc) : option action :=
  match pc with
  | LIdle => None
  | LHave _ => Some LoopTake
  | LTook _ _ => Some LoopSend
  | LSent _ => Some LoopClose
  end.

Lemma goto_self r k pc s : requests (goto r k pc s) !! r = Some (k, pc).
Proof. apply lookup_insert_eq. Qed.

Lemma finish_weight r k o e s' : finish r k o e = Next s' → requests s' !! r = Some (k, Done o).
Proof. unfold finish. destruct e; [|done..]. intros [= <-]. apply goto_self. Qed.

(** A statement of the request's own brings it closer to its end. *)
Lemma own_decreases a r k pc s s' :
  own r a = true → requests s !! r = Some (k, pc) → exec a s = Next s' →
  ∃ pc', requests s' !! r = Some (k, pc') ∧ weight pc' < weight pc.
Proof.
  intros Ho Hr He. destruct a; cbn [own] in Ho; try discriminate Ho; apply Nat.eqb_eq in Ho as ->;
    cbn [exec] in He; rewrite Hr in He.
  - destruct pc; try done. injection He as <-. exists Registered. split; [apply goto_self|simpl; lia].
  - destruct pc; destruct ok; try done; injection He as <-; eexists; (split; [apply goto_self|simpl; lia]).
  - destruct pc; try done. injection He as <-. eexists. split; [apply goto_self|simpl; lia].
  - destruct pc; try done. injection He as <-. eexists. split; [apply goto_self|simpl; lia].
  - destruct pc as [| | | |[c|] why|]; try done.
    + apply finish_weight in He. eexists. split; [exact He|simpl; lia].
    + injection He as <-. eexists. split; [apply goto_self|simpl; lia].
  - destruct pc; try done. cbn [exec_request] in He. unfold receive_chan in He.
    destruct (chans s !! r) as [[[m|] [|]]|]; try done; injection He as <-;
      eexists; (split; [apply goto_self|simpl; lia]).
Qed.

Lemma close_chan_requests c s s' : close_chan c s = Next s' → requests s' = requests s ∧ loop s' = loop s.
Proof. unfold close_chan. destruct (chans s !! c) as [[b [|]]|]; [done| |done]. by intros [= <-]. Qed.

(** The statements of the others leave it where it is. *)
Lemma other_keeps a r x s s' :
  own r a = false → requests s !! r = Some x → exec a s = Next s' → requests s' !! r = Some x.
Proof.
  intros Ho Hr He.
  assert (∀ r' k pc s0, r' ≠ r → requests s0 = requests s → requests (goto r' k pc s0) !! r = Some x) as Hne.
  { intros r' k pc s0 Hn E. cbn. rewrite lookup_insert_ne by done. by rewrite E. }
  destruct a; cbn [own exec exec_loop] in Ho, He.
  - destruct (requests s !! r0) eqn:Hr0; [done|]. injection He as <-. apply Hne; [congruence|done].
  - destruct (requests s !! r0) as [[k pc]|]; [|done]. apply Nat.eqb_neq in Ho.
    destruct pc; try done. injection He as <-. by apply Hne.
  - destruct (requests s !! r0) as [[k pc]|]; [|done]. apply Nat.eqb_neq in Ho.
    destruct pc; destruct ok; try done; injection He as <-; by apply Hne.
  - destruct (requests s !! r0) as [[k pc]|]; [|done]. apply Nat.eqb_neq in Ho.
    destruct pc; try done. injection He as <-. by apply Hne.
  - destruct (requests s !! r0) as [[k pc]|]; [|done]. apply Nat.eqb_neq in Ho.
    destruct pc; try done. injection He as <-. by apply Hne.
  - destruct (requests s !! r0) as [[k pc]|]; [|done]. apply Nat.eqb_neq in Ho.
    destruct pc as [| | | |[c|] why|]; try done; [|injection He as <-; by apply Hne].
    cbn [exec_request] in He. destruct (close_chan c s) as [s1| |] eqn:Hc; [|done..].
    injection He as <-. apply Hne; [done|]. by apply close_chan_requests in Hc as [-> _].
  - destruct (requests s !! r0) as [[k pc]|]; [|done]. apply Nat.eqb_neq in Ho.
    destruct pc; try done. cbn [exec_request] in He. unfold receive_chan in He.
    destruct (chans s !! r0) as [[[m|] [|]]|]; try done; injection He as <-; by apply Hne.
  - destruct (loop s); try done. case_match; by injection He as <-.
  - destruct (loop s); try done. case_match; by injection He as <-.
  - destruct (loop s); try done. unfold send_chan in He.
    destruct (chans s !! ch) as [[[m|] [|]]|]; try done; by injection He as <-.
  - destruct (loop s); try done. destruct (close_chan ch s) as [s1| |] eqn:Hc; [|done..].
    injection He as <-. cbn. by apply close_chan_requests in Hc as [-> _].
Qed.

(** In every schedule a request makes at most [weight] statements. *)
Lemma run_weight l r k pc s s' :
  requests s !! r = Some (k, pc) → run l s = Next s' →
  ∃ pc', requests s' !! r = Some (k, pc') ∧ count (own r) l + weight pc' ≤ weight pc.
Proof.
  revert s pc. induction l as [|a l IH]; intros s pc Hr; cbn [run].
  { intros [= <-]. exists pc. split; [done|]. simpl. lia. }
  destruct (exec a s) as [s1| |] eqn:He; [|done..]. intros Hrun.
  unfold count. cbn [List.filter]. destruct (own r a) eqn:Ho.
  - destruct (own_decreases a r k pc s s1 Ho Hr He) as (pc1 & Hr1 & Hw).
    destruct (IH s1 pc1 Hr1 Hrun) as (pc' & ? & ?). exists pc'. split; [done|]. unfold count in *. simpl. lia.
  - destruct (IH s1 pc (other_keeps a r _ s s1 Ho Hr He) Hrun) as (pc' & ? & ?). by exists pc'.
Qed.

(** A request is never blocked. *)
Lemma next_enabled r k pc s a :
  inv s → requests s !! r = Some (k, pc) → a ∈ next_statements r pc → own r a = true ∧ ∃ s', exec a s = Next s'.
Proof.
  intros Hs Hr Ha. assert (∃ s', exec a s = Next s') as Hex.
  { destruct pc as [| | |why|o why|o]; cbn [next_statements] in Ha;
      repeat (apply elem_of_cons in Ha as [->|Ha]); try (by apply not_elem_of_nil in Ha);
      cbn [exec]; rewrite Hr; try (by eexists).
    destruct o as [c|]; [|by eexists].
    destruct (inv_closer s Hs r k c why Hr) as [Hc _]. cbn [exec_request].
    rewrite (close_chan_open s c None Hc). by eexists. }
  split; [|done]. destruct pc; cbn [next_statements] in Ha;
    repeat (apply elem_of_cons in Ha as [->|Ha]); try (by apply not_elem_of_nil in Ha); cbn; apply Nat.eqb_refl.
Qed.

(** The same for the loop and the message it has. *)
Lemma loop_enabled s a : inv s → loop_statement (loop s) = Some a → loop_own a = true ∧ ∃ s', exec a s = Next s'.
Proof.
  intros Hs Ha. destruct (loop s) as [|m|c m|c] eqn:Hl; cbn [loop_statement] in Ha; try done;
    apply (inj Some) in Ha as <-; (split; [done|]); unfold exec, exec_loop; rewrite Hl.
  - by case_match; eexists.
  - destruct (inv_took s Hs c m Hl) as [Hc _]. unfold send_chan. rewrite Hc. by eexists.
  - destruct (inv_sent s Hs c Hl) as (b & Hc & _). rewrite (close_chan_open s c b Hc). by eexists.
Qed.

Lemma loop_step_weight a s s' :
  is_arrival a = false → exec a s = Next s' →
  (if loop_own a then 1 else 0) + loop_weight (loop s') ≤ loop_weight (loop s).
Proof.
  intros Ha He. destruct a; try discriminate Ha; cbn [exec exec_loop] in He; cbn [loop_own].
  - destruct (requests s !! r); [done|]. by injection He as <-.
  - destruct (requests s !! r) as [[k []]|]; try done. by injection He as <-.
  - destruct (requests s !! r) as [[k []]|]; destruct ok; try done; by injection He as <-.
  - destruct (requests s !! r) as [[k []]|]; try done. by injection He as <-.
  - destruct (requests s !! r) as [[k []]|]; try done. by injection He as <-.
  - destruct (requests s !! r) as [[k [| | | |[c|] why|]]|]; try done; [|by injection He as <-].
    cbn [exec_request] in He. destruct (close_chan c s) as [s1| |] eqn:Hc; [|done..].
    injection He as <-. cbn. by apply close_chan_requests in Hc as [_ ->].
  - destruct (requests s !! r) as [[k []]|]; try done. cbn [exec_request] in He. unfold receive_chan in He.
    destruct (chans s !! r) as [[[m|] [|]]|]; try done; by injection He as <-.
  - destruct (loop s); try done. case_match; injection He as <-; simpl; lia.
  - destruct (loop s); try done. unfold send_chan in He.
    destruct (chans s !! ch) as [[[m|] [|]]|]; try done; injection He as <-; simpl; lia.
  - destruct (loop s); try done. destruct (close_chan ch s) as [s1| |] eqn:Hc; [|done..].
    injection He as <-. simpl. lia.
Qed.

(** Until the next message arrives, the loop makes at most three statements. *)
Lemma run_loop_weight l s s' :
  forallb (λ a, negb (is_arrival a)) l = true → run l s = Next s' →
  count loop_own l + loop_weight (loop s') ≤ loop_weight (loop s).
Proof.
  revert s. induction l as [|a l IH]; intros s Hl; cbn [run].
  { intros [= <-]. unfold count. simpl. lia. }
  cbn [forallb] in Hl. apply andb_true_iff in Hl as [Ha%negb_true_iff Hl].
  destruct (exec a s) as [s1| |] eqn:He; [|done..]. intros Hrun. specialize (IH s1 Hl Hrun).
  pose proof (loop_step_weight a s s1 Ha He). unfold count in *. cbn [List.filter].
  destruct (loop_own a); simpl; lia.
Qed.

(** No statement of a request or of the loop panics. *)
Lemma request_no_crash a s r k pc :
  inv s → requests s !! r = Some (k, pc) → exec_request a r k pc s ≠ Crashed.
Proof.
  intros Hs Hr. destruct a as [| |? []| | | | | | | |], pc as [| | | |[c|] why|]; try discriminate; simpl.
  - destruct (inv_closer s Hs r k c why Hr) as [Hc _]. by rewrite (close_chan_open s c None Hc).
  - unfold receive_chan. by destruct (chans s !! r) as [[[m|] [|]]|].
Qed.

Lemma loop_no_crash a s : inv s → exec_loop a s ≠ Crashed.
Proof.
  intros Hs. unfold exec_loop. destruct a; try discriminate; destruct (loop s) as [|m|c m|c] eqn:Hl; try discriminate.
  - by destruct (_ && _)%bool.
  - by destruct (pending s !! _).
  - destruct (inv_took s Hs c m Hl) as [Hc _]. unfold send_chan. by rewrite Hc.
  - destruct (inv_sent s Hs c Hl) as (b & Hc & _). by rewrite (close_chan_open s c b Hc).
Qed.

(** ** Properties *)

(** C8: no schedule of the read loop and the waiting requests panics: nothing
    is sent on a closed channel and no channel is closed twice, even when
    requests share an identifier or time out as their answer arrives. *)
Theorem pending_no_crash s a : reachable s → exec a s ≠ Crashed.
Proof.
  intros Hs%reachable_inv He. destruct a; unfold exec in He;
    try (destruct (requests s !! r) as [[k pc]|] eqn:Hr; [|done]);
    try exact (request_no_crash _ s r k pc Hs Hr He); try exact (loop_no_crash _ s Hs He); done.
Qed.

(** C9: what a waiting request receives is an answer to it: a message of a
    response type that carries its identifier; it receives [nil] only if
    another request was given the same random identifier. *)
Theorem pending_delivery s r k resp :
  reachable s → requests s !! r = Some (k, Done (inr resp)) →
  match resp with
  | Some m => m_RequestID m = k ∧ isResponseType (m_Type m) = true
  | None => ∃ r' pc, r' ≠ r ∧ requests s !! r' = Some (k, pc)
  end.
Proof.
  intros Hs%reachable_inv Hr. destruct resp as [m|]; [by eapply (inv_got s Hs)|].
  destruct (inv_nil s Hs r k Hr) as (r' & Hne & pc & Hq). by exists r', pc.
Qed.

(** C34: no schedule of the goroutines gets stuck. From every reachable state:
    in every schedule a request makes at most [weight] more statements of its
    own (five for a new one, less by each one it makes), and until it has ended
    its next statement is never blocked, whatever [Send] returns and whether or
    not an answer comes, since the timer fires; so a request that keeps being
    scheduled ends. The read loop makes at most three statements for a message,
    none of which is ever blocked. Once all requests have ended the [pending]
    map is empty. *)
Theorem pending_no_deadlock s :
  reachable s →
  (∀ r k pc, requests s !! r = Some (k, pc) →
    (∀ l s', run l s = Next s' → ∃ pc', requests s' !! r = Some (k, pc') ∧
       count (own r) l + weight pc' ≤ weight pc) ∧
    ((∃ o, pc = Done o) ∨ (next_statements r pc ≠ [] ∧
       ∀ a, a ∈ next_statements r pc → own r a = true ∧ ∃ s', exec a s = Next s'))) ∧
  ((∀ l s', run l s = Next s' → forallb (λ a, negb (is_arrival a)) l = true →
      count loop_own l + loop_weight (loop s') ≤ loop_weight (loop s)) ∧
   (loop s = LIdle ∨ ∃ a s', loop_statement (loop s) = Some a ∧ loop_own a = true ∧ exec a s = Next s')) ∧
  ((∀ r k pc, requests s !! r = Some (k, pc) → ∃ o, pc = Done o) → pending s = ∅).
Proof.
  intros Hs%reachable_inv. split_and!.
  - intros r k pc Hr. split; [intros l s' Hrun; by apply (run_weight l r k pc s s')|].
    destruct (decide (next_statements r pc = [])) as [E|Hne].
    + left. destruct pc; try discriminate E. by eexists.
    + right. split; [done|]. intros a. by apply (next_enabled r k).
  - intros l s' Hrun Hl. by apply run_loop_weight.
  - destruct (loop_statement (loop s)) as [a|] eqn:E.
    + destruct (loop_enabled s a Hs E) as [Ho [s' He]]. right. by exists a, s'.
    + left. by destruct (loop s).
  - intros Hall. apply map_empty. intros k. destruct (pending s !! k) as [c|] eqn:Hp; [|done].
    destruct (inv_pending s Hs k c Hp) as (_ & pc & Hq & Ht). by destruct (Hall c k pc Hq) as [o ->].
Qed.

(** ** Witnesses *)

Lemma run_reachable l s s' : reachable s → run l s = Next s' → reachable s'.
Proof.
  revert s. induction l as [|a l IH]; intros s Hs; simpl; [by intros [= <-]|].
  destruct (exec a s) as [s1| |] eqn:He; [|done|done]. apply IH. by eapply reach_step.
Qed.

Definition final (l : list action) : system :=
  match run l no_requests with Next s => s | _ => no_requests end.

Lemma final_reachable l : reachable (final l).
Proof.
  unfold final. destruct (run l no_requests) as [s| |] eqn:E; [|apply reach_init..].
  eapply run_reachable; [apply reach_init|done].
Qed.

Definition sample_answer : Message :=
  with_RequestID "q" (new_message MsgChunkData (tiny_id x02) 0).

(** Requests 1 and 2 have the same identifier; 1 times out and closes the
    channel of 2. The answer to request 3 arrives as it times out. *)
Definition sample_schedule : list action :=
  [Spawn 1 "r"; Register 1; Send 1 true; Spawn 2 "r"; Register 2; Send 2 true;
   Expire 1; TakeBack 1; Finish 1; Receive 2;
   Spawn 3 "q"; Register 3; Send 3 true; Arrive sample_answer; LoopTake].

Lemma pending_no_crash_witness :
  exec LoopSend (goto 3 "q" (Failed TimedOut) (final sample_schedule)) ≠ Crashed.
Proof.
  apply (pending_no_crash _ LoopSend).
  apply (reach_step (Expire 3) (final sample_schedule)); [apply final_reachable|by vm_compute].
Defined.

Lemma pending_delivery_witness :
  m_RequestID sample_answer = "q" ∧
  ∃ r' pc, r' ≠ 2 ∧ requests (final sample_schedule) !! r' = Some ("r", pc).
Proof.
  split.
  - apply (pending_delivery (final (sample_schedule ++ [LoopSend; Receive 3])) 3 "q" (Some sample_answer));
      [apply final_reachable|by vm_compute].
  - apply (pending_delivery (final sample_schedule) 2 "r" None); [apply final_reachable|by vm_compute].
Defined.

(** A request that times out after its message was sent takes five statements,
    whatever the others do meanwhile, and leaves nothing behind. *)
Definition timed_out : list action :=
  [Spawn 3 "q"; Register 3; Arrive sample_answer; Send 3 true; LoopTake; Expire 3; LoopSend; TakeBack 3; LoopClose; Finish 3].

Lemma pending_no_deadlock_witness :
  run timed_out no_requests = Next (final timed_out) ∧
  requests (final [Spawn 3 "q"]) !! 3 = Some ("q", Created) ∧
  run (tail timed_out) (final [Spawn 3 "q"]) = Next (final timed_out) ∧
  count (own 3) (tail timed_out) = 5 ∧
  (∃ pc', requests (final timed_out) !! 3 = Some ("q", pc') ∧ 5 + weight pc' ≤ 5) ∧
  pending (final timed_out) = ∅.
Proof.
  split; [vm_compute; reflexivity|]. split; [vm_compute; reflexivity|]. split; [vm_compute; reflexivity|].
  split; [vm_compute; reflexivity|]. split.
  - destruct (pending_no_deadlock (final [Spawn 3 "q"]) (final_reachable _)) as (Hr & _).
    destruct (Hr 3 "q" Created) as [Hall _]; [vm_compute; reflexivity|].
    apply (Hall (tail timed_out) (final timed_out)). vm_compute. reflexivity.
  - destruct (pending_no_deadlock (final timed_out) (final_reachable _)) as (_ & _ & Hend).
    apply Hend. intros r k pc Hq.
    assert (requests (final timed_out) = {[3 := ("q", Done (inl TimedOut))]}) as E by (vm_compute; reflexivity).
    rewrite E in Hq. apply lookup_singleton_Some in Hq as [_ Hq]. injection Hq as _ <-. eexists. reflexivity.
Defined.
