(* ===== verification/PeerNet.v ===== *)
(** * A network with one other peer

    A network with one other peer, whose behaviour is a function: an honest
    peer answers as [HandleRPC] does, a dishonest one as it likes. With it the
    requests of the service are followed from end to end. A payload travels in
    a frame of the codec: one that does not fit is refused where it is sent, and
    the receiver decodes what was written. The connection itself is sound: its
    writes do not fail, and it stays open. *)

From S2P Require Import Prelude Hex Sha256 ChunkId Merkle FileSys Store Reader Chunker FileMeta Erasure EcFile Id RoutingTable Message Rfc3339 MessageJson Codec WireSize Node Service.
From stdpp Require Import list sorting options.

(** [p_answer] is the peer, with its state; its answers wait in [p_queue];
    [p_tick] numbers the random identifiers. *)
Record peer_net (P : Type) := PeerNet {
  p_local : string;
  p_remote : string;
  p_state : P;
  p_answer : RPC → M P (option Message);
  p_queue : list RPC;
  p_tick : N;
}.
Arguments PeerNet {P} _ _ _ _ _ _.
Arguments p_local {P} _.
Arguments p_remote {P} _.
Arguments p_state {P} _.
Arguments p_answer {P} _.
Arguments p_queue {P} _.
Arguments p_tick {P} _.

(** Random bytes of the [t]-th request. *)
Definition tick_id (t : N) : ID := copy_array 20 [byte_of_N (t / 256); byte_of_N t].

#[local] Arguments ID_String : simpl never.
#[local] Arguments ChunkID_String : simpl never.

Section PeerNet.
Context {P : Type} `{MessageCodec} `{RPCJson}.
Notation PN := (peer_net P).

(** A payload on its way: the RPC that [Send] is called with is encoded; the
    read loop at the other end decodes what was written and marks it with the
    address [from] of this end. *)
Definition carried (from : string) (payload : bytes) : res RPC :=
  match Encode (mkRPC "" false payload) (Writer [] []) with
  | (conn, Ok _) => with_From from <$> (Decode [(written conn, None)]).2
  | (_, Err e) => Err e
  | (_, Panic) => Panic
  end.

(** What arrives here of an answer of the peer. Its own [Send] reports an
    answer that does not fit a frame; nothing is sent then. *)
Definition reply (remote : string) (answer : res (option Message)) : list RPC :=
  match answer with
  | Ok (Some resp) =>
      match (b ← Message_Encode resp; carried remote b) with Ok rpc => [rpc] | _ => [] end
  | _ => []
  end.

(** The peer takes the request from its channel, and its answer is put on the
    way back. *)
Definition peer_send (addr : string) (payload : bytes) : M PN unit := λ net,
  if bool_decide (addr = p_remote net) then
    match carried (p_local net) payload with
    | Ok rpc =>
        let '(st, answer) := p_answer net rpc (p_state net) in
        (PeerNet (p_local net) (p_remote net) st (p_answer net)
           (p_queue net ++ reply (p_remote net) answer) (p_tick net), Ok tt)
    | Err e => (net, Err e)
    | Panic => (net, Panic)
    end
  else (net, Err (EMsg ("could not connect to " +:+ addr))).

#[export] Instance peer_network : Network PN := {
  net_addr := p_local;
  net_clock net := (net, λ _, 10 ^ 18)%Z;
  net_rand net :=
    (PeerNet (p_local net) (p_remote net) (p_state net) (p_answer net) (p_queue net) (p_tick net + 1),
     Ok (tick_id (p_tick net)));
  net_send := peer_send;
  net_arrivals net :=
    (PeerNet (p_local net) (p_remote net) (p_state net) (p_answer net) [] (p_tick net), p_queue net);
}.

(** A message that fits a frame arrives as it was sent. *)
Lemma carried_sendable from payload :
  sendable (mkRPC "" false payload) → carried from payload = Ok (mkRPC from false payload).
Proof.
  intros (Ha & Hm & Hsize). destruct (rpc_roundtrip _ Ha Hm) as (data & Henc & Hne & Hdec).
  specialize (Hsize data Henc). unfold carried. rewrite (Encode_ok _ data) by done. cbn [written app].
  set (r := [(PutUint32 (uint32 (length data)) ++ data, @None error)] : reader).
  assert (stream r = PutUint32 (uint32 (length data)) ++ data ++ []) as Hr by (cbn; by rewrite !app_nil_r).
  destruct (Decode_frame r data [] ltac:(by left) Hne Hsize Hr) as (r' & _ & _ & ->). cbn [snd]. by rewrite Hdec.
Qed.

Lemma carried_no_panic from payload : carried from payload ≠ Panic.
Proof.
  unfold carried. pose proof (Encode_no_panic (mkRPC "" false payload) (Writer [] [])) as He.
  destruct (Encode _ _) as [conn [[]|e|]]; [|done..].
  pose proof (frame_decode_no_panic [(written conn, None)]) as Hd. by destruct (Decode _).2.
Qed.

#[export] Instance peer_network_safe : NetworkSafe PN.
Proof.
  split; [|done]. intros addr b net. simpl. unfold peer_send. case_bool_decide; [|done].
  pose proof (carried_no_panic (p_local net) b). destruct (carried _ b); [|done..].
  by destruct (p_answer net _ _).
Qed.
End PeerNet.

Lemma ascii_hex (b : bytes) : ascii_text (EncodeToString b) = true.
Proof.
  induction b as [|x b IH]; [done|]. cbn [EncodeToString ascii_text]. rewrite IH.
  destruct x; vm_compute; done.
Qed.

Lemma ascii_ID id : ascii_text (ID_String id) = true.
Proof. apply ascii_hex. Qed.
Lemma ascii_ChunkID id : ascii_text (ChunkID_String id) = true.
Proof. apply ascii_hex. Qed.

Lemma ID_String_nonempty id : ID_String id ≠ "".
Proof.
  intros E. apply (f_equal String.length) in E. unfold ID_String in E.
  rewrite length_Encode, length_vec_to_list in E. done.
Qed.

Section Exchange.
Context {S P : Type} `{ChunkStore S} `{SortSlice} `{MessageCodec} `{RPCJson}.
Notation SV := (Service S (peer_net P)).

(** The service after an exchange: only the network moved on. *)
Definition after (s : SV) (st : P) : SV :=
  Svc (s_node s)
    (PeerNet (p_local (s_net s)) (p_remote (s_net s)) st (p_answer (s_net s)) [] (p_tick (s_net s) + 1))
    (s_pending s ∖ {[ID_String (tick_id (p_tick (s_net s)))]})
    (delete (ID_String (tick_id (p_tick (s_net s)))) (s_delivered s)).

(** A request whose answer comes back with its identifier is answered, when
    both fit a frame. *)
Lemma exchange_answered what request (s : SV) st' resp
    (k := ID_String (tick_id (p_tick (s_net s)))) :
  p_queue (s_net s) = [] →
  plain (request k (10 ^ 9)%Z) = true → fits (request k (10 ^ 9)%Z) →
  (∀ payload, DecodeMessage payload = Ok (wire (request k (10 ^ 9)%Z)) →
     p_answer (s_net s) (mkRPC (p_local (s_net s)) false payload) (p_state (s_net s))
     = (st', Ok (Some resp))) →
  plain resp = true → fits resp → m_RequestID resp = k → isResponseType (m_Type resp) = true →
  exchange what (p_remote (s_net s)) request s = (after s st', Ok (Some (wire resp))).
Proof.
  intros Hq Hplain Hfits Hanswer Hplain' Hfits' Hk Ht.
  destruct (message_roundtrip _ Hplain) as (b & Henc & Hdec). specialize (Hanswer b Hdec).
  destruct (message_roundtrip _ Hplain') as (b' & Henc' & Hdec').
  unfold exchange, new_reqID, clock, registerPending, send_request, send, await, run_arrivals,
    on_net, lift, wrap_errM, mbind, M_bind.
  cbn [net_rand peer_network s_net MustRandomID NewRandomID wrap_err net_clock p_tick].
  change (Unix (10 ^ 18)%Z) with (10 ^ 9)%Z. fold k. rewrite Henc. cbn [wrap_err].
  cbn [net_send peer_network s_net s_node s_pending s_delivered]. unfold peer_send.
  cbn [p_remote p_local p_answer p_state p_queue p_tick].
  rewrite bool_decide_eq_true_2 by done. rewrite carried_sendable by (by apply Hfits).
  rewrite Hanswer, Hq. unfold reply. rewrite Henc'. cbn [mbind res_bind].
  rewrite carried_sendable by (by apply Hfits').
  cbn [net_arrivals peer_network s_net s_node s_pending s_delivered app p_queue p_tick
       p_remote p_local p_answer p_state].
  unfold readLoop, readLoop_body, mbind, M_bind. cbn [rpc_Payload]. rewrite Hdec'.
  assert (m_RequestID (wire resp) = k) as -> by (by destruct resp).
  assert (m_Type (wire resp) = m_Type resp) as -> by (by destruct resp).
  rewrite Ht, bool_decide_eq_true_2 by apply ID_String_nonempty. cbn [andb].
  unfold takePending, deliver, receive_response. cbn [s_net s_node s_pending s_delivered].
  rewrite bool_decide_eq_true_2 by set_solver. cbn [s_net s_node s_pending s_delivered].
  cbn [mret M_ret s_net s_node s_pending s_delivered].  rewrite lookup_insert_eq, delete_insert_eq.
  assert (({[k]} ∪ s_pending s) ∖ {[k]} = s_pending s ∖ {[k]}) as -> by set_solver. done.
Qed.
End Exchange.

(** The honest peer runs [HandleRPC]. *)
Definition honest {T} `{ChunkStore T} `{SortSlice} `{MessageCodec} : RPC → M (Node T) (option Message) :=
  HandleRPC (λ _, 10 ^ 18)%Z.

(** ** A service for the witnesses

    Two nodes, each with an empty store; the other one listens on port 4102. *)

Definition other_node : Node FSChunkStore :=
  SetStore (Some empty_store) (SetNodeAddr "127.0.0.1:4102" (NewNode (tiny_id x02))).

Definition witness_net : peer_net (Node FSChunkStore) :=
  PeerNet "127.0.0.1:4101" "127.0.0.1:4102" other_node honest [] 0.

(** The service knows the other node. *)
Definition witness_service : Service FSChunkStore (peer_net (Node FSChunkStore)) :=
  Svc (MkNode (n_id witness_node)
         (AddContact (ticks 0) (Con (tiny_id x02) "127.0.0.1:4102" zero_Time) (n_rt witness_node)).1
         (n_store witness_node) (n_addr witness_node) (n_fileProviders witness_node)
         (n_fileMeta witness_node))
    witness_net ∅ ∅.

Lemma witness_service_ok : service_ok witness_service.
Proof.
  split; [|by intros k m]. split.
  - apply AddContact_ok, NewRoutingTable_ok.
  - by vm_compute.
  - intros s [= <-]. apply empty_store_ok.
  - intros root l H. cbn in H. by rewrite lookup_empty in H.
  - intros root l H. cbn in H. by rewrite lookup_empty in H.
Qed.
