(* ===== verification/Lookup.v ===== *)
(** * Iterative lookup (src/internal/dht/lookup.go)

    The rounds of [Service.Lookup]. Between rounds the service sleeps, and the
    read loop changes the routing table. *)

From S2P Require Import Prelude Hex Sha256 ChunkId Merkle FileSys Store Reader Chunker FileMeta Erasure EcFile Id RoutingTable Message Rfc3339 MessageJson Codec WireSize Node Service PeerNet.
From stdpp Require Import list sorting options.

(** [const maxRounds = 5] *)
Definition maxRounds : nat := 5.

(** The loop that fills [toQuery]: at most [Alpha] contacts of the shortlist
    whose address was not queried yet. *)
Fixpoint pick_to_query (queried : gset string) (shortlist toQuery : list Contact) : list Contact :=
  match shortlist with
  | [] => toQuery
  | c :: rest =>
      if (Alpha <=? length toQuery)%nat then toQuery
      else if bool_decide (con_Address c ∈ queried) then pick_to_query queried rest toQuery
      else pick_to_query queried rest (toQuery ++ [c])
  end.

Section Lookup.
Context {S N : Type} `{ChunkStore S} `{SortSlice} `{MessageCodec} `{Network N}.
Notation SV := (Service S N).

Definition find_closest (target : ID) : M SV (list Contact) := λ s,
  (s, FindClosest (n_rt (s_node s)) target (Z.of_nat K)).

(** [queried[c.Address] = true] and [SendFindNode], whose error is logged. *)
Fixpoint send_queries (target : ID) (toQuery : list Contact) (queried : gset string) :
    M SV (gset string) :=
  match toQuery with
  | [] => mret queried
  | c :: rest =>
      _ ← logged tt (SendFindNode (con_Address c) target);
      send_queries target rest ({[con_Address c]} ∪ queried)
  end.

(** The [for] loop: [false] when it returns [nil, nil], [true] when it breaks
    or is done. *)
Fixpoint lookup_rounds (rounds : nat) (target : ID) (queried : gset string)
    (prevClosest : option ID) : M SV bool :=
  match rounds with
  | O => mret true
  | Datatypes.S rounds' =>
      shortlist ← find_closest target;
      match shortlist with
      | [] => mret false
      | first :: _ =>
          if match prevClosest with Some prev => ID_Equals (con_ID first) prev | None => false end
          then mret true
          else
            let toQuery := pick_to_query queried shortlist [] in
            match toQuery with
            | [] => mret true
            | _ =>
                queried' ← send_queries target toQuery queried;
                _ ← run_arrivals;
                lookup_rounds rounds' target queried' (Some (con_ID first))
            end
      end
  end.

Definition Lookup (target : ID) : M SV (list Contact) :=
  finished ← lookup_rounds maxRounds target ∅ None;
  if finished : bool then find_closest target else mret [].
End Lookup.

(** ** Which peers a round asks *)

Lemma pick_to_query_spec queried shortlist toQuery :
  length toQuery ≤ Alpha →
  pick_to_query queried shortlist toQuery
  = toQuery ++ take (Alpha - length toQuery) (filter (λ c, con_Address c ∉ queried) shortlist).
Proof.
  revert toQuery. induction shortlist as [|c rest IH]; intros toQuery Hlen; cbn [pick_to_query].
  { by rewrite filter_nil, take_nil, app_nil_r. }
  destruct (Alpha <=? length toQuery)%nat eqn:E; bool_to_Prop.
  { replace (Alpha - length toQuery) with 0 by lia. by rewrite app_nil_r. }
  case_bool_decide as Hq; [rewrite filter_cons_False by tauto; by apply IH|].
  rewrite filter_cons_True by done. rewrite IH by (rewrite length_app; simpl; lia).
  rewrite <-app_assoc, length_app. cbn [length app].
  replace (Alpha - length toQuery) with (Datatypes.S (Alpha - (length toQuery + 1))) by lia. done.
Qed.

Section LookupSafe.
Context {S N : Type} `{ChunkStoreSpec S} `{SortSlice} `{MessageCodec} `{NetworkSafe N}.
Notation SV := (Service S N).
Notation keeps_sv m := (keeps_service (m : M SV _)).
#[local] Set Default Proof Using "Type*".

(** Besides being safe, a lookup step never fails. *)
Definition sure {A} (m : M SV A) : Prop :=
  ∀ s, service_ok s → is_ok (m s).2 = true ∧ service_ok (m s).1 ∧ same_service s (m s).1.

Lemma sure_bind {A B} (m : M SV A) (f : A → M SV B) :
  sure m → (∀ a, sure (f a)) → sure (m ≫= f).
Proof.
  intros Hm Hf s Hs. destruct (Hm s Hs) as (Hok & Hs1 & HR). unfold mbind, M_bind.
  destruct (m s) as [s1 [a|e|]]; simpl in *; [|done|done].
  destruct (Hf a s1 Hs1) as (? & ? & ?). split_and!; [done|done|by transitivity s1].
Qed.

Lemma sure_ret {A} (a : A) : sure (mret a).
Proof. by intros s Hs. Qed.

Lemma sure_logged {A} (d : A) (m : M SV A) : keeps_sv m → sure (logged d m).
Proof.
  intros Hm s Hs. destruct (Hm s Hs) as (? & ? & ?). unfold logged. by destruct (m s) as [s' [a|e|]].
Qed.

Lemma sure_find_closest target : sure (find_closest target).
Proof.
  intros s Hs. unfold find_closest.
  destruct (FindClosest_sorted (n_rt (s_node s)) target (Z.of_nat K)) as (l & _ & _ & Hf);
    [apply Hs|lia|]. by rewrite Hf.
Qed.

(** A safe computation that has no error of its own. *)
Lemma sure_safe {A} (m : M SV A) : keeps_sv m → (∀ s e, (m s).2 ≠ Err e) → sure m.
Proof.
  intros Hm He s Hs. destruct (Hm s Hs) as (? & ? & ?). specialize (He s).
  destruct (m s) as [s' [a|e|]]; [done|by destruct (He e)|done].
Qed.

Lemma sure_clock : sure clock.
Proof.
  apply sure_safe; [apply sv_clock|]. intros s e. unfold clock, on_net. by destruct (net_clock _).
Qed.

(** Work done by the read loop never fails: it logs its errors. *)
Lemma sure_serve rpc : sure (serve rpc).
Proof.
  apply sure_bind; [apply sure_clock|intros now].
  apply sure_bind; [apply sure_logged, sv_on_node, preserves_HandleRPC|intros [resp|]]; [|apply sure_ret].
  apply sure_logged, sv_bind; [apply sv_lift, encode_no_panic|intros; apply sv_send].
Qed.

Lemma sure_readLoop_body rpc : sure (readLoop_body rpc).
Proof.
  unfold readLoop_body. pose proof (decode_no_panic (rpc_Payload rpc)).
  destruct (DecodeMessage (rpc_Payload rpc)) as [msg|e|]; [|apply sure_ret|done].
  case_match eqn:E; [|apply sure_serve]. apply andb_true_iff in E as [_ Ht].
  apply sure_bind; [by apply sure_safe; [apply sv_pending|]|intros [|]; [|apply sure_serve]].
  by apply sure_safe; [apply sv_deliver|].
Qed.

Lemma sure_run_arrivals : sure run_arrivals.
Proof.
  apply sure_bind; [|intros rpcs].
  - apply sure_safe.
    + apply sv_on_net. intros net. by destruct (net_arrivals net).
    + intros s e. unfold on_net. by destruct (net_arrivals _).
  - induction rpcs as [|rpc rpcs IH]; [apply sure_ret|].
    apply sure_bind; [apply sure_readLoop_body|intros; apply IH].
Qed.

Lemma sure_send_queries target toQuery queried : sure (send_queries target toQuery queried).
Proof.
  revert queried. induction toQuery as [|c rest IH]; intros queried; [apply sure_ret|].
  apply sure_bind; [apply sure_logged, sv_SendFindNode|intros; apply IH].
Qed.

Lemma sure_lookup_rounds rounds target queried prev : sure (lookup_rounds rounds target queried prev).
Proof.
  revert queried prev. induction rounds as [|rounds IH]; intros queried prev; [apply sure_ret|].
  apply sure_bind; [apply sure_find_closest|intros [|first rest]; [apply sure_ret|]].
  case_match; [apply sure_ret|]. cbv zeta.
  destruct (pick_to_query queried (first :: rest) []); [apply sure_ret|].
  apply sure_bind; [apply sure_send_queries|intros q].
  apply sure_bind; [apply sure_run_arrivals|intros _; apply IH].
Qed.

Lemma sure_Lookup target : sure (Lookup target).
Proof.
  apply sure_bind; [apply sure_lookup_rounds|intros [|]; [apply sure_find_closest|apply sure_ret]].
Qed.
End LookupSafe.

Section LookupResult.
Context {S N : Type} `{ChunkStoreSpec S} `{SortSlice} `{MessageCodec} `{NetworkSafe N}.
Notation SV := (Service S N).
#[local] Set Default Proof Using "Type*".

(** Giving up means that the table is empty. *)
Lemma lookup_rounds_false rounds target queried prev (s s' : SV) :
  lookup_rounds rounds target queried prev s = (s', Ok false) →
  FindClosest (n_rt (s_node s')) target (Z.of_nat K) = Ok [].
Proof.
  revert queried prev s. induction rounds as [|rounds IH]; intros queried prev s; [done|].
  cbn [lookup_rounds]. intros (s1 & l & Hl & Hrest)%M_bind_Ok.
  unfold find_closest in Hl. injection Hl as <- Hl. destruct l as [|first rest].
  { injection Hrest as <-. done. }
  destruct (match prev with Some _ => _ | None => _ end); [done|]. cbv zeta in Hrest.
  destruct (pick_to_query queried (first :: rest) []); [done|].
  apply M_bind_Ok in Hrest as (s2 & q & _ & Hrest). apply M_bind_Ok in Hrest as (s3 & [] & _ & Hrest).
  by eapply IH.
Qed.

(** ** The rounds of a lookup, as they should be *)

(** A round: the state in which it begins, the contacts closest to the target
    then, the contacts asked, and the state after the sleep. *)
Record lookup_round := Round {
  r_before : SV;
  r_shortlist : list Contact;
  r_asked : list Contact;
  r_after : SV;
}.

(** FIND_NODE goes to each of the contacts, in order, errors or not; then the
    service sleeps, and the read loop works. *)
Definition ask (target : ID) (l : list Contact) : M SV unit :=
  foldr (λ c m, _ ← logged tt (SendFindNode (con_Address c) target); m) run_arrivals l.

Definition first_id (l : list Contact) : option ID := con_ID <$> head l.

(** A round asks the [Alpha] closest contacts whose address was not asked
    before ([already]), of which there is one at least. *)
Definition round_ok (target : ID) (already : list Contact) (r : lookup_round) : Prop :=
  FindClosest (n_rt (s_node (r_before r))) target (Z.of_nat K) = Ok (r_shortlist r) ∧
  r_asked r = take Alpha (filter (λ c, con_Address c ∉ con_Address <$> already) (r_shortlist r)) ∧
  r_asked r ≠ [] ∧ ask target (r_asked r) (r_before r) = (r_after r, Ok tt).

(** Rounds that follow each other from [s] to [s']; in each the closest contact
    is another than in the one before, [prev]. *)
Fixpoint lookup_trace (target : ID) (prev : option ID) (already : list Contact) (s : SV)
    (trace : list lookup_round) (s' : SV) : Prop :=
  match trace with
  | [] => s = s'
  | r :: rest =>
      r_before r = s ∧ round_ok target already r ∧ first_id (r_shortlist r) ≠ prev ∧
      lookup_trace target (first_id (r_shortlist r)) (already ++ r_asked r) (r_after r) rest s'
  end.

Definition all_asked (trace : list lookup_round) : list Contact := mjoin (r_asked <$> trace).
Definition last_closest (prev : option ID) (trace : list lookup_round) : option ID :=
  match last trace with Some r => first_id (r_shortlist r) | None => prev end.

(** There is no reason for another round: nobody is known, the closest contact
    is that of the last round, or everybody was asked. *)
Definition converged (prev : option ID) (already l : list Contact) : Prop :=
  l = [] ∨ first_id l = prev ∨ Forall (λ c, con_Address c ∈ con_Address <$> already) l.

Lemma send_queries_ask target l queried (s s1 s2 : SV) q :
  send_queries target l queried s = (s1, Ok q) → run_arrivals s1 = (s2, Ok tt) →
  ask target l s = (s2, Ok tt) ∧ (∀ a, a ∈ q ↔ a ∈ queried ∨ a ∈ con_Address <$> l).
Proof.
  revert queried s. induction l as [|c l IH]; intros queried s; cbn [send_queries ask foldr].
  { intros Hq Hr. injection Hq as -> ->. split; [done|]. intros a. rewrite fmap_nil, elem_of_nil. tauto. }
  intros (s0 & [] & Hl & Hq)%M_bind_Ok Hr. destruct (IH _ _ Hq Hr) as [Ha Hin]. split.
  - apply M_bind_Ok. by exists s0, tt.
  - intros a. rewrite Hin, fmap_cons, elem_of_cons, elem_of_union, elem_of_singleton. tauto.
Qed.

Lemma last_closest_cons prev r trace :
  last_closest prev (r :: trace) = last_closest (first_id (r_shortlist r)) trace.
Proof. unfold last_closest. rewrite last_cons. by destruct (last trace). Qed.

(** The loop makes such rounds, and as many as there is reason for. *)
Lemma lookup_rounds_trace rounds target queried prev already (s s' : SV) b :
  lookup_rounds rounds target queried prev s = (s', Ok b) →
  (∀ a, a ∈ queried ↔ a ∈ con_Address <$> already) →
  ∃ trace, lookup_trace target prev already s trace s' ∧ length trace ≤ rounds ∧
    (length trace = rounds ∨ ∃ l, FindClosest (n_rt (s_node s')) target (Z.of_nat K) = Ok l ∧
       converged (last_closest prev trace) (already ++ all_asked trace) l).
Proof.
  revert queried prev already s. induction rounds as [|rounds IH]; intros queried prev already s.
  { intros Hr _. injection Hr as -> _. exists []. split_and!; [done|simpl; lia|by left]. }
  cbn [lookup_rounds]. intros (s1 & l & Hl & Hrest)%M_bind_Ok Hq.
  unfold find_closest in Hl. injection Hl as <- Hl.
  assert (converged prev already l →
    ∃ trace, lookup_trace target prev already s trace s ∧ length trace ≤ Datatypes.S rounds ∧
    (length trace = Datatypes.S rounds ∨ ∃ l, FindClosest (n_rt (s_node s)) target (Z.of_nat K) = Ok l ∧
       converged (last_closest prev trace) (already ++ all_asked trace) l)) as Hstop.
  { intros Hc. exists []. split; [done|]. split; [simpl; lia|]. right. exists l. split; [done|].
    unfold all_asked. simpl. by rewrite app_nil_r. }
  destruct l as [|first rest].
  { injection Hrest as <- _. apply Hstop. by left. }
  destruct (match prev with Some _ => _ | None => _ end) eqn:Hprev.
  { injection Hrest as <- _. apply Hstop. right; left. destruct prev as [p|]; [|done].
    rewrite ID_Equals_eq in Hprev. apply bool_decide_eq_true in Hprev. cbn. by rewrite Hprev. }
  cbv zeta in Hrest. rewrite pick_to_query_spec in Hrest by (simpl; unfold Alpha; lia).
  cbn [length app] in Hrest. rewrite Nat.sub_0_r in Hrest.
  set (asked := take Alpha (filter (λ c, con_Address c ∉ queried) (first :: rest))) in *.
  assert (asked = take Alpha (filter (λ c, con_Address c ∉ con_Address <$> already) (first :: rest))) as Hasked.
  { unfold asked. f_equal. apply list_filter_iff. intros c. by rewrite Hq. }
  clearbody asked. destruct asked as [|a0 asked'] eqn:Easked.
  { injection Hrest as <- _. apply Hstop. right; right. symmetry in Hasked.
    apply take_nil_inv in Hasked as [?|Hnil]; [done|]. apply Forall_forall. intros c Hc'.
    destruct (decide (con_Address c ∈ con_Address <$> already)) as [|Hn]; [done|].
    exfalso. eapply (elem_of_nil c). rewrite <-Hnil. by apply list_elem_of_filter. }
  rewrite <-Easked in *. clear Hstop.
  apply M_bind_Ok in Hrest as (s2 & q & Hsend & Hrest). apply M_bind_Ok in Hrest as (s3 & [] & Harr & Hrest).
  destruct (send_queries_ask target asked queried s s2 s3 q Hsend Harr) as [Hask Hin].
  destruct (IH q (Some (con_ID first)) (already ++ asked) s3 Hrest) as (trace & Ht & Hlen & Hend).
  { intros a. rewrite Hin, fmap_app, elem_of_app, Hq. done. }
  exists (Round s (first :: rest) asked s3 :: trace). split_and!.
  - cbn [lookup_trace r_before r_shortlist r_asked r_after first_id head fmap option_fmap option_map].
    split; [done|]. split; [|split; [|exact Ht]].
    + split_and!; cbn; [done|exact Hasked|by rewrite Easked|exact Hask].
    + intros E. rewrite <-E in Hprev. cbn in Hprev. rewrite ID_Equals_eq in Hprev. by apply bool_decide_eq_false in Hprev.
  - simpl. lia.
  - destruct Hend as [Hend|(l & Hl' & Hc)]; [left; simpl; lia|right]. exists l. split; [done|].
    rewrite last_closest_cons. unfold all_asked in *. rewrite fmap_cons. cbn [mjoin list_join r_asked r_shortlist].
    by rewrite <-app_assoc in Hc.
Qed.

(** ** Properties *)

(** C15: a lookup always ends with an answer, whatever the network does: after
    at most five rounds it returns, without error, the [K] contacts closest to
    the target, nearest first, among all the contacts the node knows by then.
    Every round begins where the one before left off, asks the [Alpha] closest
    of the contacts known then whose address no earlier round asked, of which
    there is one at least, and finds another closest contact than the round
    before; and the lookup stops before the fifth round only when nobody is
    known, the closest contact has not changed, or every contact it returns was
    asked. *)
Theorem Lookup_closest target (s : SV) :
  service_ok s →
  ∃ s' l rest trace, Lookup target s = (s', Ok l) ∧ service_ok s' ∧ same_service s s' ∧
    l ++ rest ≡ₚ all_contacts (n_rt (s_node s')) ∧
    length l = min K (length (all_contacts (n_rt (s_node s')))) ∧
    StronglySorted (nearer target) (l ++ rest) ∧
    lookup_trace target None [] s trace s' ∧ length trace ≤ 5 ∧
    (length trace = 5 ∨ converged (last_closest None trace) (all_asked trace) l).
Proof.
  intros Hs. destruct (sure_Lookup target s Hs) as (Hok & Hs' & Hsame).
  destruct (Lookup target s) as [s' r] eqn:E. destruct r as [l|e|]; [|done|done]. simpl in *.
  assert (FindClosest (n_rt (s_node s')) target (Z.of_nat K) = Ok l ∧
    ∃ b, lookup_rounds maxRounds target ∅ None s = (s', Ok b)) as [Hl [b Hb]].
  { unfold Lookup in E. apply M_bind_Ok in E as (s1 & [|] & Hr & E).
    - unfold find_closest in E. injection E as <- E. split; [done|by eexists].
    - injection E as <- <-. split; [by eapply lookup_rounds_false|by eexists]. }
  destruct (lookup_rounds_trace maxRounds target ∅ None [] s s' b Hb) as (trace & Ht & Hlen & Hend).
  { intros a. rewrite fmap_nil, elem_of_nil. set_solver. }
  destruct (FindClosest_sorted (n_rt (s_node s')) target (Z.of_nat K)) as (sorted & Hp & Hsort & Hf);
    [apply Hs'|lia|].
  pose proof Hl as Hl'. rewrite Hf in Hl'. apply Ok_inv in Hl'. rewrite Nat2Z.id in Hl'.
  exists s', l, (drop K sorted), trace. subst l. rewrite take_drop.
  split_and!; [done|done|done|done|by rewrite length_take, Hp|done|exact Ht|exact Hlen|].
  destruct Hend as [?|(l & Hl1 & Hc)]; [by left|right]. rewrite Hl in Hl1. by apply Ok_inv in Hl1 as <-.
Qed.
End LookupResult.

(** ** Witness: looking up the other node's identifier *)

Lemma Lookup_closest_witness :
  ∃ s' l trace, Lookup (tiny_id x02) witness_service = (s', Ok l) ∧ l ≠ [] ∧
    lookup_trace (tiny_id x02) None [] witness_service trace s' ∧ trace ≠ [].
Proof.
  destruct (Lookup_closest (tiny_id x02) witness_service witness_service_ok)
    as (s' & l & rest & trace & H1 & _ & _ & _ & _ & _ & Ht & _ & Hend).
  assert (l ≠ []) as Hne.
  { assert (match (Lookup (tiny_id x02) witness_service).2 with Ok (_ :: _) => true | _ => false end = true) as E
      by (vm_compute; reflexivity).
    rewrite H1 in E. intros ->. discriminate E. }
  exists s', l, trace. split; [exact H1|]. split; [exact Hne|]. split; [exact Ht|].
  intros ->. destruct Hend as [E|[E|[E|E]]]; [discriminate E|exact (Hne E)|destruct l; [exact (Hne eq_refl)|discriminate E]|].
  destruct l as [|c l]; [exact (Hne eq_refl)|]. apply Forall_cons in E as [E _]. apply (elem_of_nil (con_Address c)). exact E.
Defined.
