(* ===== verification/Files.v ===== *)
(** * Files over the network (src/internal/dht/service.go)

    Announcing, finding, storing, replicating and downloading files. The
    goroutines of [FindFileProviders] are serialised in the order they are
    started; the order in which Go walks a map is the class [MapOrder]. *)

From S2P Require Import Prelude Hex Sha256 ChunkId Merkle FileSys Store Reader Chunker FileMeta Erasure EcFile Id RoutingTable Message Rfc3339 MessageJson Codec WireSize Node Service PeerNet Lookup.
From stdpp Require Import list sorting options.

(** [for _, c := range m]: every value once, in some order. *)
Class MapOrder := {
  map_range : gmap string Contact → list Contact;
  map_range_perm m : map_range m ≡ₚ (map_to_list m).*2;
}.

(** One such order. *)
#[export] Instance key_order : MapOrder := {
  map_range m := (map_to_list m).*2;
  map_range_perm m := reflexivity _;
}.

(** [idFromBytes]: the first 20 bytes of the SHA-256. *)
Definition idFromBytes (b : bytes) : ID := copy_array 20 (take 20 (vec_to_list (Sum256 b))).
Definition fileKeyFromRoot (root : ChunkID) : ID := idFromBytes (ChunkID_Bytes root).
Definition chunkKeyFromID (id : ChunkID) : ID := idFromBytes (ChunkID_Bytes id).

(** The merge of [FindFileProviders]: the first contact wins for each key. *)
Definition provider_map_key (c : Contact) : string := ID_String (con_ID c) +:+ "@" +:+ con_Address c.

Definition merge_provider (seen : gmap string Contact) (c : Contact) : gmap string Contact :=
  match seen !! provider_map_key c with Some _ => seen | None => <[provider_map_key c := c]> seen end.

Definition merge_providers (groups : list (list Contact)) : gmap string Contact :=
  fold_left (λ seen group, fold_left merge_provider group seen) groups ∅.

Section Files.
Context {S N : Type} `{ChunkStore S} `{SortSlice} `{MessageCodec} `{Network N} `{MapOrder} `{ReedSolomon}.
Notation SV := (Service S N).

(** The chunk store the service and its node share. *)
Definition on_chunks {A} (m : M (option S) A) : M SV A :=
  on_node (λ n, match m (n_store n) with (st, r) => (SetStore st n, r) end).

(** ** Announcing *)

Fixpoint send_each (addrs : list string) (payload : bytes) : M SV unit :=
  match addrs with
  | [] => mret tt
  | addr :: rest => _ ← logged tt (send addr payload); send_each rest payload
  end.

Definition AnnounceFile (root : ChunkID) : M SV unit :=
  let rootHex := ChunkID_String root in
  s ← the_service;
  now ← clock;
  _ ← on_node (λ n,
        (addFileProvider rootHex (Con (n_id n) (net_addr (s_net s)) (now 0%nat)) n, Ok tt));
  closest ← wrap_errM "AnnounceFile: Lookup" (Lookup.Lookup (fileKeyFromRoot root));
  match closest with
  | [] => mret tt
  | _ =>
      now ← clock;
      payload ← wrap_errM "AnnounceFile: encode" (lift (Message_Encode
        (with_FileRoot rootHex
          (new_message MsgStoreFileProvider (n_id (s_node s)) (Unix (now 0%nat))))));
      send_each (con_Address <$> closest) payload
  end.

(** ** Finding providers *)

Fixpoint request_groups (addrs : list string) (root : ChunkID) : M SV (list (list Contact)) :=
  match addrs with
  | [] => mret []
  | addr :: rest =>
      ps ← logged [] (requestFileProvidersFrom addr root);
      groups ← request_groups rest root;
      mret (match ps with [] => groups | _ => ps :: groups end)
  end.

Definition FindFileProviders (root : ChunkID) : M SV (list Contact) :=
  shortlist ← wrap_errM "FindFileProviders: Lookup" (Lookup.Lookup (fileKeyFromRoot root));
  match shortlist with
  | [] => mret []
  | _ =>
      groups ← request_groups (take Alpha (con_Address <$> shortlist)) root;
      mret (map_range (merge_providers groups))
  end.

(** ** Replication *)

(** The loop over the closest peers of one chunk. *)
Fixpoint replicate_to (closest : list Contact) (data : bytes) (needed replicated : Z) : M SV Z :=
  match closest with
  | [] => mret replicated
  | c :: rest =>
      s ← the_service;
      if ID_Equals (con_ID c) (n_id (s_node s)) || bool_decide (con_Address c = net_addr (s_net s))
      then replicate_to rest data needed replicated
      else
        ok ← logged false (_ ← StoreChunkRemote (con_Address c) data; mret true);
        if ok : bool then
          let replicated := (replicated + 1)%Z in
          if (needed <=? replicated)%Z then mret replicated
          else replicate_to rest data needed replicated
        else replicate_to rest data needed replicated
  end.

Definition load_chunk (id : ChunkID) : M SV bytes := λ s,
  (s, match n_store (s_node s) with None => Panic | Some st => GetChunk id st end).

Definition replicate_chunk (cm : ChunkMeta) (replicaCount : Z) : M SV unit :=
  logged tt
    (data ← load_chunk (cm_ID cm);
     closest ← Lookup.Lookup (chunkKeyFromID (cm_ID cm));
     match closest with
     | [] => mret tt
     | _ => _ ← replicate_to closest data (replicaCount - 1) 0; mret tt
     end).

Fixpoint replicate_chunks (chunks : list ChunkMeta) (replicaCount : Z) : M SV unit :=
  match chunks with
  | [] => mret tt
  | cm :: rest => _ ← replicate_chunk cm replicaCount; replicate_chunks rest replicaCount
  end.

Definition ReplicateFileChunks (meta : option FileMeta) (replicaCount : Z) : M SV unit :=
  s ← the_service;
  match meta with
  | None => fail (EMsg "ReplicateFileChunks: meta is nil")
  | Some meta =>
      match n_store (s_node s) with
      | None => fail (EMsg "ReplicateFileChunks: no local ChunkStore configured")
      | Some _ =>
          if (replicaCount <=? 1)%Z then mret tt else replicate_chunks (fm_Chunks meta) replicaCount
      end
  end.

(** ** Storing *)

(** [open] is the outcome of [os.Open(path)]. *)
Definition StoreFileLocalAndAnnounce (open : res reader) (chunkSize : Z) : M SV FileMeta :=
  s ← the_service;
  match n_store (s_node s) with
  | None => fail (EMsg "StoreFileLocalAndAnnounce: no local ChunkStore configured")
  | Some _ =>
      meta ← wrap_errM "StoreFileLocalAndAnnounce" (on_chunks (StoreFileWithMerkle open chunkSize));
      _ ← on_node (λ n, (addFileMeta (Some meta) n, Ok tt));
      _ ← logged tt (ReplicateFileChunks (Some meta) DefaultReplicaCount);
      _ ← logged tt (AnnounceFile (fm_Root meta));
      mret meta
  end.

(** [base] is [filepath.Base(path)]. *)
Definition StoreFileWithEC (path base : string) (open : res reader) (chunkSize : Z) (params : ECParams) :
    M SV ECFileMeta :=
  s ← the_service;
  match n_store (s_node s) with
  | None => fail (EMsg "StoreFileWithEC: no ChunkStore configured on Service")
  | Some _ =>
      if (chunkSize <=? 0)%Z then
        fail (EMsg ("StoreFileWithEC: invalid chunkSize " +:+ pretty chunkSize))
      else
        _ ← wrap_errM "StoreFileWithEC: invalid EC params" (lift (Validate params));
        f ← wrap_errM ("StoreFileWithEC: open " +:+ path) (lift open);
        wrap_errM "StoreFileWithEC: build EC file meta"
          (on_chunks (BuildECFileMetaFromReader base f chunkSize params))
  end.

(** ** Downloading *)

(** The service and the destination file. *)
Definition on_sv {A} (m : M SV A) : M (SV * writer) A := λ sw,
  match m sw.1 with (s, r) => ((s, sw.2), r) end.
Definition on_file {A} (m : M writer A) : M (SV * writer) A := λ sw,
  match m sw.2 with (w, r) => ((sw.1, w), r) end.

Fixpoint download_chunks (providerAddr : string) (chunks : list ChunkMeta) : M (SV * writer) unit :=
  match chunks with
  | [] => mret tt
  | cm :: rest =>
      data ← wrap_errM ("DownloadFileFromProvider: FetchChunkRemote(chunk " +:+ pretty (cm_Index cm)
                        +:+ ") error") (on_sv (FetchChunkRemote providerAddr (cm_ID cm)));
      if negb (ChunkID_Equal (NewChunkID data) (cm_ID cm)) then
        fail (EMsg ("DownloadFileFromProvider: chunk " +:+ pretty (cm_Index cm) +:+ " hash mismatch"))
      else
        _ ← wrap_errM ("DownloadFileFromProvider: write chunk " +:+ pretty (cm_Index cm))
              (on_file (Write data));
        download_chunks providerAddr rest
  end.

(** [create] is the outcome of [os.Create(destPath)], which empties the file.
    A size that differs from the metadata is only logged. *)
Definition DownloadFileFromProvider (root : ChunkID) (providerAddr : string) (create : res writer) :
    M (SV * writer) unit :=
  meta ← wrap_errM "DownloadFileFromProvider" (on_sv (FetchFileMetaFromProvider providerAddr root));
  f ← wrap_errM "DownloadFileFromProvider: create dest" (on_sv (lift create));
  _ ← on_file (λ _, (f, Ok tt));
  download_chunks providerAddr (fm_Chunks meta).

Definition DownloadFile (root : ChunkID) (create : res writer) : M (SV * writer) unit :=
  providers ← wrap_errM "DownloadFile: FindFileProviders" (on_sv (FindFileProviders root));
  match providers with
  | [] => fail (EMsg ("DownloadFile: no providers found for root " +:+ ChunkID_String root))
  | p :: _ => DownloadFileFromProvider root (con_Address p) create
  end.
End Files.

(** ** What a download writes *)

(** [data] is what the identifier of the chunk promises. *)
Definition verified (cm : ChunkMeta) (data : bytes) : Prop := NewChunkID data = cm_ID cm.

Lemma ChunkID_Equal_true a b : ChunkID_Equal a b = true → a = b.
Proof. unfold ChunkID_Equal. by intros ?%bool_decide_eq_true. Qed.

(** One [Write]: all of the data on success, a part of it on failure. *)
Lemma Write_cases b w w' r :
  Write b w = (w', r) →
  (r = Ok tt ∧ written w' = written w ++ b) ∨
  (∃ e k, r = Err e ∧ written w' = written w ++ take k b).
Proof. unfold Write. intros H. repeat case_match; simplify_eq/=; [left|right|left]; eauto. Qed.

Section Download.
Context {S N : Type} `{ChunkStore S} `{SortSlice} `{MessageCodec} `{Network N}.
Notation SV := (Service S N).

(** Whatever the provider sends, only verified data reaches the file. *)
Lemma download_chunks_verified addr chunks (s s' : SV) w w' r :
  download_chunks addr chunks (s, w) = ((s', w'), r) →
  ∃ datas more k, Forall2 verified (take (length datas) chunks) datas ∧
    written w' = written w ++ mjoin datas ++ take k more ∧
    (more = [] ∨ Forall2 verified (take (length datas + 1) chunks) (datas ++ [more])) ∧
    (r = Ok tt → length datas = length chunks ∧ more = []).
Proof.
  revert s w. induction chunks as [|cm chunks IH]; intros s w Hd.
  { injection Hd as <- <- <-. exists [], [], 0. simpl. rewrite app_nil_r. split_and!; [constructor|done|by left|done]. }
  assert (written w' = written w → r ≠ Ok tt → ∃ datas more k,
    Forall2 verified (take (length datas) (cm :: chunks)) datas ∧
    written w' = written w ++ mjoin datas ++ take k more ∧
    (more = [] ∨ Forall2 verified (take (length datas + 1) (cm :: chunks)) (datas ++ [more])) ∧
    (r = Ok tt → length datas = length (cm :: chunks) ∧ more = [])) as Hstop.
  { intros Hw Hr. exists [], [], 0. simpl. rewrite app_nil_r. split_and!; [constructor|done|by left|done]. }
  cbn [download_chunks] in Hd. unfold mbind, M_bind, wrap_errM, on_sv in Hd. cbn [fst snd] in Hd.
  destruct (FetchChunkRemote addr (cm_ID cm) s) as [s1 [data|e|]]; cbn [wrap_err] in Hd;
    [|injection Hd as <- <- <-; by apply Hstop..].
  destruct (ChunkID_Equal (NewChunkID data) (cm_ID cm)) eqn:Heq; cbn [negb] in Hd;
    [|injection Hd as <- <- <-; by apply Hstop].
  apply ChunkID_Equal_true in Heq. unfold on_file in Hd. cbn [fst snd] in Hd.
  destruct (Write data w) as [w1 r1] eqn:Hwr.
  apply Write_cases in Hwr as [[-> Hw1]|(e & k & -> & Hw1)]; cbn [wrap_err] in Hd.
  - apply IH in Hd as (datas & more & k & Hall & Hw' & Hmore & Hr).
    exists (data :: datas), more, k. split_and!.
    + by apply List.Forall2_cons.
    + rewrite Hw', Hw1. simpl. by rewrite <-!app_assoc.
    + destruct Hmore as [->|Hmore]; [by left|right]. by apply List.Forall2_cons.
    + intros Hok. destruct (Hr Hok). simpl. auto.
  - injection Hd as <- <- <-. exists [], data, k. split_and!; [constructor|done| |done].
    right. simpl. rewrite take_0. by repeat constructor.
Qed.
End Download.

(** C4: a download writes only verified data: whatever the network and the
    provider do, after [DownloadFileFromProvider] into an empty file the file
    is a concatenation of data that hash to the first chunk identifiers of the
    metadata received, in order, cut short at most where the disk failed; and
    when it succeeds, all chunks are there. *)
Theorem download_verified {S N} `{ChunkStore S} `{SortSlice} `{MessageCodec} `{Network N}
    root addr fs (s s' : Service S N) w w' r :
  DownloadFileFromProvider root addr (Ok (Writer [] fs)) (s, w) = ((s', w'), r) →
  (w' = w ∧ is_ok r = false ∧ is_ok (FetchFileMetaFromProvider addr root s).2 = false) ∨
  ∃ meta datas, (FetchFileMetaFromProvider addr root s).2 = Ok meta ∧
    Forall2 verified (take (length datas) (fm_Chunks meta)) datas ∧
    written w' `prefix_of` mjoin datas ∧
    (r = Ok tt → length datas = length (fm_Chunks meta) ∧ written w' = mjoin datas).
Proof.
  unfold DownloadFileFromProvider, mbind, M_bind, wrap_errM, on_sv. cbn [fst snd].
  destruct (FetchFileMetaFromProvider addr root s) as [s1 [meta|e|]]; cbn [wrap_err];
    [|intros [= <- <- <-]; left; done..].
  unfold lift, on_file. cbn [wrap_err fst snd]. intros Hd. right. exists meta.
  apply download_chunks_verified in Hd as (datas & more & k & Hall & Hw & Hmore & Hr).
  cbn [written] in Hw. rewrite app_nil_l in Hw. destruct Hmore as [->|Hmore].
  - exists datas. rewrite take_nil, app_nil_r in Hw. split_and!; [done|done|by rewrite Hw|].
    intros Hok. destruct (Hr Hok). by rewrite Hw.
  - exists (datas ++ [more]). split_and!; [done|by rewrite length_app| |].
    + rewrite Hw, join_app. simpl. rewrite app_nil_r. apply prefix_app, prefix_take.
    + intros Hok. destruct (Hr Hok) as [Hl ->]. exfalso. apply Forall2_length in Hmore.
      rewrite length_take, length_app in Hmore. simpl in Hmore. lia.
Qed.
