(* ===== verification/Main.v ===== *)
(** * The command (src/cmd/node/main.go)

    [parseECParams] and what [main] does with its flags, over the service. The
    flags are a record; the file system, [transport.Dial] and
    [transport.ListenAndAccept] are inputs; log lines are left out. *)

From S2P Require Import Prelude Hex Text Sha256 ChunkId Merkle FileSys Store Reader Chunker FileMeta Erasure EcFile Id RoutingTable Message Rfc3339 MessageJson Codec WireSize Node Service PeerNet Lookup Files.
From stdpp Require Import list options.

(** ** [parseECParams] *)

Definition plus : ascii := char 43.
Definition comma : ascii := char 44.

(** [Quote] is [strconv.Quote], also behind the verb [%q]. *)
Definition parseECParams (Quote : string → string) (spec : string) : res ECParams :=
  let spec := TrimSpace spec in
  if bool_decide (spec = "") then Err (EMsg "empty EC spec")
  else
    match Split plus spec with
    | [data; parity] =>
        dataShards ← wrap_err ("invalid data shards in " +:+ Quote spec) (Atoi Quote (TrimSpace data));
        parityShards ← wrap_err ("invalid parity shards in " +:+ Quote spec) (Atoi Quote (TrimSpace parity));
        _ ← Validate (EC dataShards parityShards);
        Ok (EC dataShards parityShards)
    | _ => Err (EMsg ("invalid EC spec " +:+ Quote spec +:+ ", expected format data+parity (e.g. 4+2)"))
    end.

(** ** [main] *)

Record Flags := {
  listenAddr : string;
  bootstrapStr : string;
  lookupIDStr : string;
  storeTo : string;
  storeData : string;
  fetchFrom : string;
  fetchChunkID : string;
  storeFile : string;
  flag_chunkSize : Z;
  downloadRoot : string;
  downloadOut : string;
  ecSpec : string;
}.

(** [os.Open], [filepath.Base] and [os.Create]. *)
Record Env := {
  env_Open : string → res reader;
  env_Base : string → string;
  env_Create : string → res writer;
}.

(** How [main] ends: it returns, [log.Fatalf] ends the process, or it blocks
    in [select {}] and serves. *)
Inductive exit := Returned | Fatal (e : error) | Serving.

(** The peers of [-bootstrap]: trimmed, the empty ones left out. *)
Definition bootstrap_peers (s : string) : list string :=
  filter (λ addr, addr ≠ "") (TrimSpace <$> Split comma s).

(** [string(b)] and [[]byte(s)]. *)
Definition string_bytes (s : string) : bytes := byte_of_N <$> codes s.

Section Main.
Context {S N : Type} `{ChunkStore S} `{SortSlice} `{MessageCodec} `{Network N} `{MapOrder} `{ReedSolomon}.
Context (Quote : string → string) (Dial : string → M N unit) (env : Env) (flags : Flags).
Notation SV := (Service S N).

Definition bootstrap_peer (selfID : ID) (addr : string) : M SV unit :=
  ok ← logged false (_ ← on_net (Dial addr); mret true);
  if ok : bool then
    _ ← run_arrivals;
    _ ← logged tt (SendPing addr);
    logged tt (SendFindNode addr selfID)
  else mret tt.

Fixpoint bootstrap (selfID : ID) (peers : list string) : M SV unit :=
  match peers with
  | [] => mret tt
  | addr :: rest => _ ← bootstrap_peer selfID addr; bootstrap selfID rest
  end.

(** [-lookup], [-store-to] and [-fetch-from]: errors are logged. *)
Definition main_lookup : M SV unit :=
  if bool_decide (lookupIDStr flags = "") then mret tt
  else
    match IDFromHex (lookupIDStr flags) with
    | Ok id => _ ← run_arrivals; _ ← logged [] (Lookup.Lookup id); mret tt
    | _ => mret tt
    end.

Definition main_store_chunk : M SV unit :=
  if bool_decide (storeTo flags = "") || bool_decide (storeData flags = "") then mret tt
  else logged tt (_ ← StoreChunkRemote (storeTo flags) (string_bytes (storeData flags)); mret tt).

Definition main_fetch_chunk : M SV unit :=
  if bool_decide (fetchFrom flags = "") || bool_decide (fetchChunkID flags = "") then mret tt
  else
    match ChunkIDFromHex (fetchChunkID flags) with
    | Ok cid => logged tt (_ ← FetchChunkRemote (fetchFrom flags) cid; mret tt)
    | _ => mret tt
    end.

(** [log.Fatalf] on an error. *)
Definition or_fatal {T A} (what : string) (m : M T A) (f : A → M T exit) : M T exit := λ s,
  match m s with
  | (s', Ok a) => f a s'
  | (s', Err e) => (s', Ok (Fatal (EWrap what e)))
  | (s', Panic) => (s', Panic)
  end.

Definition main_store_file : M SV exit :=
  if bool_decide (ecSpec flags = "") then
    or_fatal "[node] store-file error"
      (StoreFileLocalAndAnnounce (env_Open env (storeFile flags)) (flag_chunkSize flags))
      (λ _, mret Returned)
  else
    or_fatal ("[node] invalid -ec value " +:+ Quote (ecSpec flags)) (lift (parseECParams Quote (ecSpec flags)))
      (λ params,
        or_fatal "[node] store-file (EC) error"
          (StoreFileWithEC (storeFile flags) (env_Base env (storeFile flags))
             (env_Open env (storeFile flags)) (flag_chunkSize flags) params)
          (λ _, mret Returned)).

(** The download through the DHT, or from the first bootstrap peer. *)
Definition main_download : M (SV * writer) exit :=
  if bool_decide (downloadOut flags = "") then
    mret (Fatal (EMsg "[download] -out is required"))
  else
    or_fatal "[download] invalid root" (λ sw, (sw, ChunkIDFromHex (downloadRoot flags))) (λ root sw,
      match DownloadFile root (env_Create env (downloadOut flags)) sw with
      | (sw', Ok _) => (sw', Ok Serving)
      | (sw', Panic) => (sw', Panic)
      | (sw', Err e) =>
          if bool_decide (bootstrapStr flags = "") then (sw', Ok (Fatal (EWrap "[download] error" e)))
          else
            let addr := TrimSpace (hd "" (Split comma (bootstrapStr flags))) in
            or_fatal "[download] fallback download error"
              (DownloadFileFromProvider root addr (env_Create env (downloadOut flags)))
              (λ _, mret Serving) sw'
      end).

(** What [main] does once the service runs, up to the file operations. *)
Definition main_prologue (selfID : ID) : M SV unit :=
  _ ← (if bool_decide (bootstrapStr flags = "") then mret tt
       else bootstrap selfID (bootstrap_peers (bootstrapStr flags)));
  _ ← run_arrivals;
  _ ← main_lookup;
  _ ← main_store_chunk;
  main_fetch_chunk.

Definition main_service (selfID : ID) : M (SV * writer) exit :=
  _ ← on_sv (main_prologue selfID);
  if negb (bool_decide (storeFile flags = "")) then on_sv main_store_file
  else if negb (bool_decide (downloadRoot flags = "")) then main_download
  else mret Serving.

(** [listen] is [transport.ListenAndAccept], [store] what
    [storage.NewFSChunkStore] returns. *)
Definition main (listen : M N unit) (store : res S) (net : N) (out : writer) : (SV * writer) * res exit :=
  let failed net r := ((NewService zero_ID net None, out), r) in
  match net_rand net with
  | (net, r) =>
      match MustRandomID r with
      | Ok selfID =>
          match listen net with
          | (net, Ok _) =>
              match store with
              | Ok st => main_service selfID (NewService selfID net (Some st), out)
              | Err e => failed net (Ok (Fatal (EWrap "failed to create chunk store" e)))
              | Panic => failed net Panic
              end
          | (net, Err e) =>
              failed net (Ok (Fatal (EWrap ("failed to listen on " +:+ listenAddr flags) e)))
          | (net, Panic) => failed net Panic
          end
      | _ => failed net Panic
      end
  end.
End Main.

(** ** Reading the erasure-coding parameters *)

Lemma blank_no_plus b : is_blank b = true → plus ∉ String.list_ascii_of_string b.
Proof.
  intros Hb Hin. unfold is_blank in Hb. rewrite forallb_forall in Hb.
  enough (In (code plus) (codes b)) as Hc by exact (eq_true_false_abs _ (Hb _ Hc) eq_refl).
  apply list_elem_of_In, list_elem_of_fmap. by exists plus.
Qed.

Lemma digits_no_plus s : all_digits s → plus ∉ String.list_ascii_of_string s.
Proof.
  intros Hd Hin. pose proof (proj1 (Forall_forall _ _) Hd plus Hin) as [H _]. by vm_compute in H.
Qed.

(** [data+parity] with white space anywhere around the numbers. *)
Lemma parse_spec Quote (d p : N) b1 b2 b3 b4 :
  is_blank b1 = true → is_blank b2 = true → is_blank b3 = true → is_blank b4 = true →
  is_int (Z.of_N d) → is_int (Z.of_N p) →
  parseECParams Quote (b1 +:+ pretty d +:+ b2 +:+ String plus (b3 +:+ pretty p +:+ b4))
  = (_ ← Validate (EC (Z.of_N d) (Z.of_N p)); Ok (EC (Z.of_N d) (Z.of_N p))).
Proof.
  intros H1 H2 H3 H4 Hd Hp.
  assert (∀ n : N, visible_ends (pretty n)) as Hends.
  { intros n. apply digits_ends; [apply pretty_N_digits|]. by destruct (pretty_N_head n) as (? & ? & _ & ->). }
  set (core := pretty d +:+ (b2 +:+ String plus b3) +:+ pretty p).
  assert (b1 +:+ pretty d +:+ b2 +:+ String plus (b3 +:+ pretty p +:+ b4) = b1 +:+ core +:+ b4) as ->.
  { unfold core. by rewrite !string_app_assoc. }
  unfold parseECParams. rewrite TrimSpace_ends by (done || by apply visible_ends_app).
  rewrite bool_decide_eq_false_2.
  2:{ unfold core. by destruct (pretty_N_head d) as (? & ? & _ & ->). }
  assert (core = (pretty d +:+ b2) +:+ String plus (b3 +:+ pretty p)) as ->.
  { unfold core. by rewrite !string_app_assoc. }
  rewrite Split_once.
  2,3: rewrite list_ascii_app, not_elem_of_app; split; first [by apply blank_no_plus|apply digits_no_plus, pretty_N_digits].
  rewrite (TrimSpace_right (pretty d) b2 H2 (Hends d)), (Atoi_pretty_N _ _ Hd). cbn [wrap_err mbind res_bind].
  by rewrite (TrimSpace_left b3 (pretty p) H3 (Hends p)), (Atoi_pretty_N _ _ Hp).
Qed.

Lemma Atoi_result Quote s : Atoi Quote s ≠ Panic ∧ ∀ z, Atoi Quote s = Ok z → is_int z.
Proof.
  unfold Atoi. destruct (ParseInt s) as [e|z] eqn:E; [done|]. split; [done|].
  intros z' [= <-]. by eapply ParseInt_int.
Qed.

Lemma parse_no_panic Quote spec : parseECParams Quote spec ≠ Panic.
Proof.
  unfold parseECParams. case_bool_decide; [done|]. destruct (Split _ _) as [|a [|b [|c l]]]; try done.
  destruct (Atoi_result Quote (TrimSpace a)) as [Ha _], (Atoi_result Quote (TrimSpace b)) as [Hb _].
  destruct (Atoi Quote (TrimSpace a)) as [d|e|]; [|done..].
  destruct (Atoi Quote (TrimSpace b)) as [p|e|]; [|done..]. cbn.
  pose proof (Validate_no_panic (EC d p)). by destruct (Validate _).
Qed.

Lemma parse_valid Quote spec params : parseECParams Quote spec = Ok params → Validate params = Ok tt.
Proof.
  unfold parseECParams. case_bool_decide; [done|].
  destruct (Split _ _) as [|a [|b [|c l]]]; try done.
  intros (d & Hd%wrap_err_Ok & Hrest)%res_bind_Ok.
  apply res_bind_Ok in Hrest as (p & Hp%wrap_err_Ok & Hrest).
  by apply res_bind_Ok in Hrest as ([] & Hv & [= <-]).
Qed.

Lemma or_fatal_Ok {T A} what (m : M T A) f s s' x :
  or_fatal what m f s = (s', Ok x) →
  (∃ a s1, m s = (s1, Ok a) ∧ f a s1 = (s', Ok x)) ∨ ∃ e, x = Fatal e.
Proof.
  unfold or_fatal. destruct (m s) as [s1 [a|e|]]; [left; eauto| |done].
  intros [= _ <-]. right. eauto.
Qed.

Section Outcome.
Context {S N : Type} `{ChunkStore S} `{SortSlice} `{MessageCodec} `{Network N} `{MapOrder}.
Notation SV := (Service S N).

(** [content] is all of the file that the node at [addr] describes when the
    service [s] asks it for the metadata of [root], every chunk with its hash. *)
Definition downloaded (root : ChunkID) (addr : string) (s : SV) (content : bytes) : Prop :=
  ∃ meta datas, (FetchFileMetaFromProvider addr root s).2 = Ok meta ∧
    Forall2 verified (fm_Chunks meta) datas ∧ content = mjoin datas.

Lemma DownloadFileFromProvider_Ok root addr create (s : SV) out s' out' :
  (∀ w, create = Ok w → written w = []) →
  DownloadFileFromProvider root addr create (s, out) = ((s', out'), Ok tt) →
  downloaded root addr s (written out').
Proof.
  intros Hempty. unfold DownloadFileFromProvider, mbind, M_bind, wrap_errM, on_sv. cbn [fst snd].
  destruct (FetchFileMetaFromProvider addr root s) as [s1 [meta|e|]] eqn:Hf; [|done..]. cbn [wrap_err].
  unfold lift, on_file. cbn [fst snd]. destruct create as [w|e|]; [|done..]. cbn [wrap_err].
  intros Hd. apply download_chunks_verified in Hd as (datas & more & k & Hall & Hw & _ & Hr).
  destruct (Hr eq_refl) as [Hl ->]. rewrite (Hempty w eq_refl), take_nil, app_nil_r in Hw.
  exists meta, datas. rewrite Hf. split_and!; [done| |done].
  by rewrite firstn_all2 in Hall by lia.
Qed.

Lemma DownloadFile_Ok root create (s : SV) out s' out' :
  (∀ w, create = Ok w → written w = []) →
  DownloadFile root create (s, out) = ((s', out'), Ok tt) →
  ∃ s1 p rest, FindFileProviders root s = (s1, Ok (p :: rest)) ∧
    downloaded root (con_Address p) s1 (written out').
Proof.
  intros Hempty. unfold DownloadFile, mbind, M_bind, wrap_errM, on_sv. cbn [fst snd].
  destruct (FindFileProviders root s) as [s1 [[|p rest]|e|]]; [done| |done..]. cbn [wrap_err].
  intros Hd%DownloadFileFromProvider_Ok; [|done]. by exists s1, p, rest.
Qed.
End Outcome.

(** What the command says it downloads, and where it ends up. *)
Definition download_complete {S N} `{ChunkStore S} `{SortSlice} `{MessageCodec} `{Network N} `{MapOrder}
    (env : Env) (flags : Flags) (s : Service S N) (out : writer) (content : bytes) : Prop :=
  ∃ root, ChunkIDFromHex (downloadRoot flags) = Ok root ∧
    ((∃ s1 p rest, FindFileProviders root s = (s1, Ok (p :: rest)) ∧
        downloaded root (con_Address p) s1 content) ∨
     (∃ s1 out1 e, DownloadFile root (env_Create env (downloadOut flags)) (s, out) = ((s1, out1), Err e) ∧
        bootstrapStr flags ≠ "" ∧
        downloaded root (TrimSpace (hd "" (Split comma (bootstrapStr flags)))) s1 content)).

Lemma main_download_outcome {S N} `{ChunkStore S} `{SortSlice} `{MessageCodec} `{Network N} `{MapOrder}
    env flags (s s' : Service S N) out out' x :
  (∀ w, env_Create env (downloadOut flags) = Ok w → written w = []) →
  main_download env flags (s, out) = ((s', out'), Ok x) →
  (x = Serving ∧ download_complete env flags s out (written out')) ∨ ∃ e, x = Fatal e.
Proof.
  intros Hempty. unfold main_download. case_bool_decide; [intros [= <- <- <-]; right; by eexists|].
  intros [(root & sw1 & [= <- Hroot] & Hm)|?]%or_fatal_Ok; [|by right].
  destruct (DownloadFile root _ (s, out)) as [[s2 out2] [[]|e|]] eqn:Hdl; [| |done].
  { injection Hm as <- <- <-. left. split; [done|]. exists root. split; [done|]. left.
    by eapply DownloadFile_Ok. }
  case_bool_decide as Hb; [injection Hm as <- <- <-; right; by eexists|].
  apply or_fatal_Ok in Hm as [([] & [s3 out3] & Hp & [= <- <- <-])|?]; [|by right].
  left. split; [done|]. exists root. split; [done|]. right. exists s2, out2, e.
  split_and!; [done|done|]. by eapply DownloadFileFromProvider_Ok.
Qed.

(** ** Properties *)

(** C37: [parseECParams] reads what the usage says: a specification
    [data+parity], with white space anywhere around the two numbers, gives
    exactly these parameters when they are valid and the error of [Validate]
    when they are not; whatever it accepts is valid; and it never panics. *)
Theorem parseECParams_correct Quote :
  (∀ (d p : N) b1 b2 b3 b4,
    is_blank b1 = true → is_blank b2 = true → is_blank b3 = true → is_blank b4 = true →
    is_int (Z.of_N d) → is_int (Z.of_N p) →
    parseECParams Quote (b1 +:+ pretty d +:+ b2 +:+ String plus (b3 +:+ pretty p +:+ b4))
    = (_ ← Validate (EC (Z.of_N d) (Z.of_N p)); Ok (EC (Z.of_N d) (Z.of_N p)))) ∧
  (∀ spec params, parseECParams Quote spec = Ok params →
    Validate params = Ok tt ∧ is_int (DataShards params) ∧ is_int (ParityShards params)) ∧
  (∀ spec, parseECParams Quote spec ≠ Panic).
Proof.
  split_and!; [intros; by apply parse_spec| |apply parse_no_panic].
  unfold parseECParams. intros spec params. case_bool_decide; [done|].
  destruct (Split _ _) as [|a [|b [|c l]]]; try done.
  intros (d & Hd%wrap_err_Ok & Hrest)%res_bind_Ok.
  apply res_bind_Ok in Hrest as (p & Hp%wrap_err_Ok & Hrest).
  apply res_bind_Ok in Hrest as ([] & Hv & [= <-]). split_and!; [done|by eapply Atoi_result..].
Qed.

(** What the process is good for afterwards: after [-store-file] it always
    ends, on success too, so that nobody is left to serve the file that was
    announced; without file flags it always serves; after [-download] it serves
    only when the destination holds all chunks of the metadata received for the
    root, in order and each with its hash, from the first provider found in the
    DHT or, when that fails, from the first bootstrap peer; otherwise it ends
    with an error. *)
Theorem main_outcome {S N} `{ChunkStore S} `{SortSlice} `{MessageCodec} `{Network N} `{MapOrder} `{ReedSolomon}
    Quote (Dial : string → M N unit) env flags selfID (s s' : Service S N) out out' x
    (s1 := (main_prologue Dial flags selfID s).1) :
  (∀ w, env_Create env (downloadOut flags) = Ok w → written w = []) →
  main_service Quote Dial env flags selfID (s, out) = ((s', out'), Ok x) →
  (storeFile flags ≠ "" → x ≠ Serving) ∧
  (storeFile flags = "" → downloadRoot flags = "" → x = Serving ∧ s' = s1) ∧
  (storeFile flags = "" → downloadRoot flags ≠ "" →
     (x = Serving ∧ download_complete env flags s1 out (written out')) ∨ ∃ e, x = Fatal e).
Proof.
  intros Hempty. unfold main_service, mbind, M_bind, on_sv at 1, s1. cbn [fst snd].
  destruct (main_prologue Dial flags selfID s) as [s2 [[]|e|]]; [|done..]. cbn [fst]. intros Hm. split_and!.
  - intros Hs. rewrite bool_decide_eq_false_2 in Hm by done. cbn [negb] in Hm.
    unfold on_sv in Hm. destruct (main_store_file Quote env flags s2) as [s3 r3] eqn:E.
    cbn [fst] in Hm. rewrite E in Hm.
    injection Hm as _ _ ->. unfold main_store_file in E. case_bool_decide.
    + by apply or_fatal_Ok in E as [(meta & s4 & _ & [= _ <-])|[e ->]].
    + apply or_fatal_Ok in E as [(params & s4 & _ & E)|[e ->]]; [|done].
      by apply or_fatal_Ok in E as [(meta & s5 & _ & [= _ <-])|[e ->]].
  - intros Hs Hd. rewrite !bool_decide_eq_true_2 in Hm by done. by injection Hm as <- _ <-.
  - intros Hs Hd. rewrite bool_decide_eq_true_2, bool_decide_eq_false_2 in Hm by done.
    cbn [negb] in Hm. by apply main_download_outcome in Hm.
Qed.

Lemma parseECParams_correct_witness :
  parseECParams id " 4 + 2 " = Ok (EC 4 2) ∧
  parseECParams id "4+300" = Err (EMsg "ECParams: total shards must be <= 255").
Proof.
  destruct (parseECParams_correct id) as [H _]. split.
  - apply (H 4%N 2%N " " " " " " " "); done.
  - apply (H 4%N 300%N "" "" "" ""); done.
Defined.
