(* ===== verification/Safety.v ===== *)
(** * What takes the node down, and what does not

    Every operation of the service keeps the invariant of the service and ends
    without a panic, whatever the network delivers, whenever system calls fail,
    and for every chunk store and codec, provided the transport's [Send] returns
    and the random source answers ([NetworkSafe]); storing a file also needs a
    chunk size for which [make] has a buffer. [main_service] puts them together. *)

From S2P Require Import Prelude Hex Text Sha256 ChunkId Merkle FileSys Store Reader Chunker FileMeta Erasure EcFile Id RoutingTable Message Rfc3339 MessageJson Codec WireSize Node Service PeerNet Lookup Files Main.
From stdpp Require Import list sorting options.

(** ** Stores *)

Section StoreSafe.
Context {S : Type} `{ChunkStoreSpec S}.
Notation anything := (λ _ _ : S, True).
#[local] Set Default Proof Using "Type*".

Definition keeps_store {A} (m : M S A) : Prop := ∀ s, store_ok s → store_ok (m s).1.

Lemma keeps_bind {A B} (m : M S A) (f : A → M S B) :
  keeps_store m → (∀ a, keeps_store (f a)) → keeps_store (m ≫= f).
Proof.
  intros Hm Hf s Hs. specialize (Hm s Hs). unfold mbind, M_bind.
  destruct (m s) as [s' [a|e|]]; [by apply Hf|done|done].
Qed.

Lemma keeps_wrap {A} c (m : M S A) : keeps_store m → keeps_store (wrap_errM c m).
Proof. intros Hm s Hs. specialize (Hm s Hs). unfold wrap_errM. by destruct (m s). Qed.

Lemma keeps_put d : keeps_store (PutChunk d).
Proof.
  intros s Hs. destruct (PutChunk d s) as [s' [id|e|]] eqn:E; simpl.
  - by apply put_ok in E as (_ & ? & _).
  - by apply put_err in E as [? _].
  - by destruct (put_no_panic s d); rewrite E.
Qed.

Lemma keeps_put_piece index chunks d : keeps_store (put_piece index chunks d).
Proof. apply keeps_bind; [apply keeps_wrap, keeps_put|by intros a s Hs]. Qed.

Lemma keeps_store_loop fuel size br index chunks : keeps_store (store_loop fuel size br index chunks).
Proof.
  revert br index chunks. induction fuel as [|fuel IH]; intros br index chunks; [by intros s Hs|].
  cbn [store_loop]. destruct (ReadFull size br) as [[[d [e|]] br']|].
  - case_bool_decide; [|by intros s Hs]. destruct d; [by intros s Hs|apply keeps_put_piece].
  - apply keeps_bind; [apply keeps_put_piece|intros; apply IH].
  - by intros s Hs.
Qed.

Lemma keeps_put_shards i shards : keeps_store (put_shards i shards).
Proof.
  revert i. induction shards as [|d shards IH]; intros i; [by intros s Hs|].
  apply keeps_bind; [apply keeps_wrap, keeps_put|intros id].
  apply keeps_bind; [apply IH|by intros a s Hs].
Qed.

(** A computation on the store of a node, which may be absent: it stays as
    present as it was, and correct. *)
Definition keeps_opt {A} (m : M (option S) A) : Prop :=
  (m None).1 = None ∧ ∀ s, store_ok s → ∃ s', (m (Some s)).1 = Some s' ∧ store_ok s'.

Lemma keeps_on_store {A} (m : M S A) : keeps_store m → keeps_opt (on_store m).
Proof.
  intros Hm. split; [done|]. intros s Hs. specialize (Hm s Hs). unfold on_store.
  destruct (m s) as [s' r]. by exists s'.
Qed.

Lemma keeps_opt_bind {A B} (m : M (option S) A) (f : A → M (option S) B) :
  keeps_opt m → (∀ a, keeps_opt (f a)) → keeps_opt (m ≫= f).
Proof.
  intros [Hn Hm] Hf. unfold mbind, M_bind. split.
  - destruct (m None) as [st [a|e|]]; simpl in *; subst; [apply Hf|done|done].
  - intros s Hs. destruct (Hm s Hs) as (s1 & Hs1 & Hok). destruct (m (Some s)) as [st [a|e|]];
      simpl in *; subst; [by apply Hf|by exists s1|by exists s1].
Qed.

Lemma keeps_opt_result {A} (r : option S → res A) : keeps_opt (λ st, (st, r st)).
Proof. split; [done|]. intros s Hs. by exists s. Qed.

Lemma keeps_StoreFromReader r chunkSize : keeps_opt (StoreFromReader r chunkSize).
Proof.
  unfold StoreFromReader. split; [done|]. intros s Hs. destruct (chunkSize <=? 0)%Z; [by exists s|].
  destruct (make_bytes chunkSize); [|by exists s..]. apply keeps_on_store; [apply keeps_store_loop|done].
Qed.

Lemma keeps_StoreFileWithMerkle open chunkSize : keeps_opt (StoreFileWithMerkle open chunkSize).
Proof.
  unfold StoreFileWithMerkle. destruct (wrap_err _ open) as [f|e|]; [|by split; [|intros s; exists s]..].
  unfold BuildFileMetaFromReader. split; [done|]. intros s Hs. unfold wrap_errM.
  match goal with |- context [StoreFromReader f ?n] => destruct (proj2 (keeps_StoreFromReader f n) s Hs) as (s' & E & Hs') end.
  destruct (StoreFromReader _ _ _) as [st [l|e|]]; simpl in *; subst; by exists s'.
Qed.

Context `{ReedSolomon}.

Lemma keeps_EncodeChunkWithEC data params : keeps_opt (EncodeChunkWithEC data params).
Proof.
  unfold EncodeChunkWithEC. split; [done|]. intros s Hs.
  destruct (wrap_err _ (EncodeToShards data params)) as [shards|e|]; [|by exists s..].
  eapply keeps_opt_bind; [apply keeps_on_store, keeps_put_shards| |done].
  intros ids. apply keeps_opt_result.
Qed.

Lemma keeps_build_loop fuel n params r index meta : keeps_opt (build_loop fuel n params r index meta).
Proof.
  revert r index meta. induction fuel as [|fuel IH]; intros r index meta; [apply keeps_opt_result|].
  cbn [build_loop]. destruct (Read n r) as [[d err] r']. apply keeps_opt_bind.
  - destruct (0 <? length d)%nat; [|apply keeps_opt_result].
    apply keeps_opt_bind; [|intros; apply keeps_opt_result].
    destruct (keeps_EncodeChunkWithEC d params) as [Hn Hs]. unfold wrap_errM. split.
    + by destruct (EncodeChunkWithEC d params None) as [st r1].
    + intros s Hok. destruct (Hs s Hok) as (s' & E & ?). exists s'.
      by destruct (EncodeChunkWithEC d params (Some s)) as [st r1].
  - intros [index' meta']. destruct err as [e|]; [|apply IH].
    case_bool_decide; apply keeps_opt_result.
Qed.

Lemma keeps_BuildECFileMeta name r chunkSize params :
  keeps_opt (BuildECFileMetaFromReader name r chunkSize params).
Proof.
  unfold BuildECFileMetaFromReader. split; [done|]. intros s Hs.
  destruct (chunkSize <=? 0)%Z; [by exists s|].
  destruct (wrap_err _ (Validate params)); [|by exists s..].
  destruct (make_bytes chunkSize); [|by exists s..]. by apply keeps_build_loop.
Qed.
End StoreSafe.

(** ** The codec *)

(** What the codec documents besides its results: it does not panic, and
    [New] refuses more than 65536 shards. *)
Class RSSafe `{ReedSolomon} : Prop := {
  rs_new_no_panic d p : rs_New d p ≠ Panic;
  rs_encode_no_panic enc l : rs_Encode enc l ≠ Panic;
  rs_new_range d p enc : rs_New d p = Ok enc → (0 < d)%Z ∧ (0 ≤ p)%Z ∧ (d + p ≤ 65536)%Z;
}.

#[export] Instance XorCodec_safe : RSSafe (H := XorCodec).
Proof.
  split; [by intros; simpl; case_match|done|]. intros d p enc. simpl.
  destruct ((0 <? d)%Z && (p =? 1)%Z && (d + p <=? 256)%Z) eqn:E; [|done]. bool_lia.
Qed.

Lemma EncodeToShards_safe `{RSSafe} data params : EncodeToShards data params ≠ Panic.
Proof.
  destruct (decide (0 ≤ TotalShards params)%Z) as [Ht|Ht].
  { apply EncodeToShards_no_panic; [apply rs_new_no_panic|apply rs_encode_no_panic|done]. }
  unfold EncodeToShards. pose proof (Validate_no_panic params). destruct (Validate params); [|done|done].
  pose proof (rs_new_no_panic (DataShards params) (ParityShards params)).
  destruct (rs_New _ _) as [enc|e|] eqn:E; [|done|done]. apply rs_new_range in E.
  exfalso. apply Ht. unfold TotalShards. rewrite wrap64_id; unfold is_int; lia.
Qed.

Lemma BuildECFileMeta_safe {S} `{ChunkStoreSpec S} `{RSSafe} name r chunkSize params st :
  (chunkSize ≤ maxAlloc)%Z → (BuildECFileMetaFromReader name r chunkSize params st).2 ≠ Panic.
Proof.
  intros Hmake. unfold BuildECFileMetaFromReader.
  destruct st as [s|]; [|done]. destruct (chunkSize <=? 0)%Z eqn:E; bool_to_Prop; [done|].
  pose proof (Validate_no_panic params). destruct (Validate params); [|done..]. cbn [wrap_err].
  rewrite make_bytes_ok by lia. apply build_loop_no_panic; [lia|lia| |]; intros b s0; rewrite EncodeChunk_unfold;
    pose proof (EncodeToShards_safe b params);
    destruct (EncodeToShards b params) as [shards|e|]; try done; cbn [wrap_err];
    pose proof (put_shards_no_panic 0 shards s0); by destruct (put_shards _ _ s0) as [? []].
Qed.

(** Storing a file ends with a panic exactly when no buffer can have the chunk
    size. *)
Lemma StoreFileWithMerkle_panic {S} `{ChunkStoreSpec S} f chunkSize (s : S) :
  (StoreFileWithMerkle (Ok f) chunkSize (Some s)).2 = Panic ↔ (maxAlloc < chunkSize)%Z.
Proof.
  unfold StoreFileWithMerkle. cbn [wrap_err]. fold (effective_size chunkSize).
  rewrite (proj1 (BuildFileMeta_errors (Some s) f (effective_size chunkSize))), effective_size_idem.
  split; [|intros Hc; split; [by eexists|]].
  - intros [_ Hc]. apply Z.nle_gt. intros Hle%effective_size_alloc. lia.
  - unfold effective_size. assert (0 < maxAlloc)%Z by done. by rewrite (proj2 (Z.leb_gt _ _)) by lia.
Qed.

Lemma StoreFileWithMerkle_safe {S} `{ChunkStoreSpec S} open chunkSize st :
  open ≠ Panic → (chunkSize ≤ maxAlloc)%Z → (StoreFileWithMerkle open chunkSize st).2 ≠ Panic.
Proof.
  intros Hopen Hc. destruct open as [f|e|]; [|done..]. destruct st as [s|]; [|done].
  rewrite StoreFileWithMerkle_panic. lia.
Qed.

(** ** The operations on files *)

Section FilesSafe.
Context {S N : Type} `{ChunkStoreSpec S} `{SortSlice} `{MessageCodec} `{NetworkSafe N} `{MapOrder} `{RSSafe}.
Notation SV := (Service S N).
Notation keeps_sv m := (keeps_service (m : M SV _)).
#[local] Set Default Proof Using "Type*".

Lemma sure_keeps {A} (m : M SV A) : sure m → keeps_sv m.
Proof.
  intros Hm s Hs. destruct (Hm s Hs) as (Hr & Hs' & Hsame). split_and!; [done| |done].
  by destruct (m s).2.
Qed.

Lemma sv_wrap {A} c (m : M SV A) : keeps_sv m → keeps_sv (wrap_errM c m).
Proof. intros Hm. by apply safe_wrap. Qed.

Lemma sv_Lookup target : keeps_sv (Lookup.Lookup target).
Proof. apply sure_keeps, sure_Lookup. Qed.

(** Work on the store of the node. *)
Lemma sv_on_chunks {A} (m : M (option S) A) :
  keeps_opt m → (∀ st, (m st).2 ≠ Panic) → keeps_sv (on_chunks m).
Proof.
  intros [Hn Hm] Hp. apply sv_on_node. intros n Hok. specialize (Hp (n_store n)).
  destruct (n_store n) as [s|] eqn:E.
  - destruct (Hm s (ok_store n Hok s E)) as (s' & Hs' & Hok'). destruct (m (Some s)) as [st r].
    simpl in *; subst st. split_and!; [|done|split_and!; [done|done|by unfold has_store; rewrite E]].
    split; try apply Hok. by intros s0 [= <-].
  - destruct (m None) as [st r]. simpl in *; subst st.
    split_and!; [|done|split_and!; [done|done|by unfold has_store; rewrite E]].
    split; try apply Hok. done.
Qed.

Lemma sv_send_each addrs b : keeps_sv (send_each addrs b).
Proof.
  induction addrs as [|a addrs IH]; [apply sv_ret|].
  apply sv_bind; [apply sv_logged, sv_send|intros; apply IH].
Qed.

Lemma sv_node_update (f : Node S → Node S) :
  (∀ n, node_ok n → node_ok (f n)) → (∀ n, same_identity n (f n)) → keeps_sv (on_node (λ n, (f n, Ok tt))).
Proof. intros Hf Hi. apply sv_on_node. intros n Hn. split_and!; [by apply Hf|done|apply Hi]. Qed.

Lemma same_identity_provider root c (n : Node S) : same_identity n (addFileProvider root c n).
Proof. unfold addFileProvider. by case_match. Qed.
Lemma same_identity_meta meta (n : Node S) : same_identity n (addFileMeta meta n).
Proof. unfold addFileMeta. by case_match. Qed.

Lemma sv_AnnounceFile root : keeps_sv (AnnounceFile root).
Proof.
  apply sv_bind; [apply sv_the_service|intros s]. apply sv_bind; [apply sv_clock|intros now].
  apply sv_bind.
  { intros s0 Hs0. refine (sv_on_node _ _ s0 Hs0). intros n Hn.
    split_and!; [by apply addFileProvider_ok|done|apply same_identity_provider]. }
  intros _. apply sv_bind; [apply sv_wrap, sv_Lookup|intros [|c l]]; [apply sv_ret|].
  apply sv_bind; [apply sv_clock|intros now'].
  apply sv_bind; [apply sv_wrap, sv_lift, encode_no_panic|intros; apply sv_send_each].
Qed.

Lemma sv_request_groups addrs root : keeps_sv (request_groups addrs root).
Proof.
  induction addrs as [|a addrs IH]; [apply sv_ret|].
  apply sv_bind; [apply sv_logged; apply (sv_requests a [] root root)|intros ps].
  apply sv_bind; [apply IH|intros; apply sv_ret].
Qed.

Lemma sv_FindFileProviders root : keeps_sv (FindFileProviders root).
Proof.
  apply sv_bind; [apply sv_wrap, sv_Lookup|intros [|c l]]; [apply sv_ret|].
  apply sv_bind; [apply sv_request_groups|intros; apply sv_ret].
Qed.

Lemma sv_replicate_to closest data needed replicated : keeps_sv (replicate_to closest data needed replicated).
Proof.
  revert replicated. induction closest as [|c rest IH]; intros replicated; [apply sv_ret|].
  apply sv_bind; [apply sv_the_service|intros s]. destruct (_ || _); [apply IH|].
  apply sv_bind.
  - apply sv_logged, sv_bind; [|intros; apply sv_ret].
    apply (sv_requests (con_Address c) data (copy_array 32 []) (copy_array 32 [])).
  - intros [|]; [|apply IH]. cbv zeta. destruct (_ <=? _)%Z; [apply sv_ret|apply IH].
Qed.

(** With a store, and it does not go away. *)
Definition with_store (s : SV) : Prop := service_ok s ∧ has_store (s_node s) = true.

Lemma with_store_of {A} (m : M SV A) : keeps_sv m → safe with_store same_service m.
Proof.
  intros Hm s [Hs Hst]. destruct (Hm s Hs) as (Hs' & Hp & Hsame).
  split_and!; [|done|done]. split; [done|]. by destruct Hsame as (_ & _ & ->).
Qed.

Lemma load_chunk_safe id : safe with_store same_service (load_chunk (S := S) (N := N) id).
Proof.
  intros s [Hs Hst]. split_and!; [done| |done]. unfold load_chunk, has_store in *. simpl.
  destruct (n_store (s_node s)); [apply get_no_panic|done].
Qed.

Lemma logged_safe {A} (d : A) (m : M SV A) :
  safe with_store same_service m → safe with_store same_service (logged d m).
Proof.
  intros Hm s Hs. destruct (Hm s Hs) as (? & ? & ?). unfold logged. by destruct (m s) as [s' [a|e|]].
Qed.

Definition bind_safe {A B} (m : M SV A) (f : A → M SV B) :
  safe with_store same_service m → (∀ a, safe with_store same_service (f a)) →
  safe with_store same_service (m ≫= f) := safe_bind with_store same_service m f.

Lemma replicate_chunks_safe chunks replicaCount :
  safe with_store same_service (replicate_chunks (S := S) (N := N) chunks replicaCount).
Proof.
  induction chunks as [|cm chunks IH]; [apply with_store_of, sv_ret|].
  apply bind_safe; [|intros; apply IH]. apply logged_safe, bind_safe; [apply load_chunk_safe|intros data].
  apply with_store_of, sv_bind; [apply sv_Lookup|intros [|c l]]; [apply sv_ret|].
  apply sv_bind; [apply sv_replicate_to|intros; apply sv_ret].
Qed.

Lemma sv_ReplicateFileChunks meta replicaCount : keeps_sv (ReplicateFileChunks meta replicaCount).
Proof.
  intros s Hs. unfold ReplicateFileChunks, the_service, mbind, M_bind.
  destruct meta as [meta|]; [|done]. destruct (n_store (s_node s)) as [st|] eqn:E; [|done].
  destruct (replicaCount <=? 1)%Z; [done|].
  destruct (replicate_chunks_safe (fm_Chunks meta) replicaCount s) as ([? _] & ? & ?); [|done].
  split; [done|]. unfold has_store. by rewrite E.
Qed.

Lemma sv_StoreFileLocalAndAnnounce open chunkSize :
  open ≠ Panic → (chunkSize ≤ maxAlloc)%Z → keeps_sv (StoreFileLocalAndAnnounce open chunkSize).
Proof.
  intros Hopen Hc. apply sv_bind; [apply sv_the_service|intros s]. destruct (n_store (s_node s)); [|apply sv_fail].
  apply sv_bind.
  { apply sv_wrap, sv_on_chunks; [apply keeps_StoreFileWithMerkle|]. intros st. by apply StoreFileWithMerkle_safe. }
  intros meta. apply sv_bind.
  { apply (sv_node_update (addFileMeta (Some meta))); [apply addFileMeta_ok|apply same_identity_meta]. }
  intros _. apply sv_bind; [apply sv_logged, sv_ReplicateFileChunks|intros _].
  apply sv_bind; [apply sv_logged, sv_AnnounceFile|intros _; apply sv_ret].
Qed.

Lemma sv_StoreFileWithEC path base open chunkSize params :
  open ≠ Panic → (chunkSize ≤ maxAlloc)%Z → keeps_sv (StoreFileWithEC path base open chunkSize params).
Proof.
  intros Hopen Hc. apply sv_bind; [apply sv_the_service|intros s]. destruct (n_store (s_node s)); [|apply sv_fail].
  destruct (chunkSize <=? 0)%Z; [apply sv_fail|].
  apply sv_bind; [apply sv_wrap, sv_lift, Validate_no_panic|intros _].
  apply sv_bind; [by apply sv_wrap, sv_lift|intros f].
  apply sv_wrap, sv_on_chunks; [apply keeps_BuildECFileMeta|]. intros st. by apply BuildECFileMeta_safe.
Qed.

(** ** Downloads *)

(** The service and the destination file. *)
Definition sw_ok (sw : SV * writer) : Prop := service_ok sw.1.
Definition same_sw (sw sw' : SV * writer) : Prop := same_service sw.1 sw'.1.
#[export] Instance same_sw_preorder : PreOrder same_sw.
Proof. split; [by intros ?|]. intros [? ?] [? ?] [? ?] Hab Hbc. unfold same_sw in *. by etrans. Qed.
Notation keeps_sw m := (safe sw_ok same_sw (m : M (SV * writer) _)).

Lemma sw_bind {A B} (m : M (SV * writer) A) (f : A → M (SV * writer) B) :
  keeps_sw m → (∀ a, keeps_sw (f a)) → keeps_sw (m ≫= f).
Proof. apply (safe_bind sw_ok same_sw). Qed.

Lemma sw_on_sv {A} (m : M SV A) : keeps_sv m → keeps_sw (on_sv m).
Proof.
  intros Hm [s w] Hs. unfold on_sv. destruct (Hm s Hs) as (? & ? & ?). simpl.
  by destruct (m s) as [s' r].
Qed.

Lemma sw_on_file {A} (m : M writer A) : (∀ w, (m w).2 ≠ Panic) → keeps_sw (on_file m).
Proof.
  intros Hm [s w] Hs. unfold on_file. specialize (Hm w). simpl. by destruct (m w) as [w' r].
Qed.

Lemma sw_wrap {A} c (m : M (SV * writer) A) : keeps_sw m → keeps_sw (wrap_errM c m).
Proof. intros Hm. by apply safe_wrap. Qed.

Lemma Write_no_panic b w : (Write b w).2 ≠ Panic.
Proof. unfold Write. by repeat case_match. Qed.

Lemma sw_download_chunks addr chunks : keeps_sw (download_chunks addr chunks).
Proof.
  induction chunks as [|cm chunks IH]; [by intros sw Hs|]. apply sw_bind.
  - apply sw_wrap, sw_on_sv. apply (sv_requests addr [] (cm_ID cm) (cm_ID cm)).
  - intros data. destruct (negb _); [by intros sw Hs|].
    apply sw_bind; [apply sw_wrap, sw_on_file, Write_no_panic|intros; apply IH].
Qed.

Lemma sw_DownloadFileFromProvider root addr create :
  create ≠ Panic → keeps_sw (DownloadFileFromProvider root addr create).
Proof.
  intros Hc. apply sw_bind; [apply sw_wrap, sw_on_sv; apply (sv_requests addr [] root root)|intros meta].
  apply sw_bind; [by apply sw_wrap, sw_on_sv, sv_lift|intros f].
  apply sw_bind; [by apply sw_on_file|intros _; apply sw_download_chunks].
Qed.

Lemma sw_DownloadFile root create : create ≠ Panic → keeps_sw (DownloadFile root create).
Proof.
  intros Hc. apply sw_bind; [apply sw_wrap, sw_on_sv, sv_FindFileProviders|intros [|p l]].
  - by intros sw Hs.
  - by apply sw_DownloadFileFromProvider.
Qed.

(** ** The command *)

Context (Quote : string → string) (Dial : string → M N unit) (env : Env) (flags : Flags).
Context (dial_no_panic : ∀ addr net, (Dial addr net).2 ≠ Panic).
Context (open_no_panic : ∀ path, env_Open env path ≠ Panic).
Context (create_no_panic : ∀ path, env_Create env path ≠ Panic).

Lemma sure_bootstrap selfID peers : sure (bootstrap Dial selfID peers).
Proof.
  induction peers as [|a peers IH]; [apply sure_ret|]. apply sure_bind; [|intros; apply IH].
  apply sure_bind; [apply sure_logged, sv_bind; [by apply sv_on_net|intros; apply sv_ret]|intros [|]]; [|apply sure_ret].
  apply sure_bind; [apply sure_run_arrivals|intros _].
  apply sure_bind; [apply sure_logged, sv_SendPing|intros _; apply sure_logged, sv_SendFindNode].
Qed.

Lemma sure_main_prologue selfID : sure (main_prologue Dial flags selfID).
Proof.
  apply sure_bind; [case_bool_decide; [apply sure_ret|apply sure_bootstrap]|intros _].
  apply sure_bind; [apply sure_run_arrivals|intros _]. apply sure_bind; [|intros _; apply sure_bind; [|intros _]].
  - unfold main_lookup. case_bool_decide; [apply sure_ret|].
    destruct (IDFromHex _) as [id|e|]; [|apply sure_ret..].
    apply sure_bind; [apply sure_run_arrivals|intros _].
    apply sure_bind; [apply sure_logged, sv_Lookup|intros; apply sure_ret].
  - unfold main_store_chunk. destruct (_ || _); [apply sure_ret|].
    apply sure_logged, sv_bind; [|intros; apply sv_ret].
    apply (sv_requests (storeTo flags) _ (copy_array 32 []) (copy_array 32 [])).
  - unfold main_fetch_chunk. destruct (_ || _); [apply sure_ret|].
    destruct (ChunkIDFromHex _) as [id|e|]; [|apply sure_ret..].
    apply sure_logged, sv_bind; [|intros; apply sv_ret].
    apply (sv_requests (fetchFrom flags) [] id id).
Qed.

Lemma or_fatal_safe {T A} (I : T → Prop) (R : relation T) `{!PreOrder R} what (m : M T A) f :
  safe I R m → (∀ a, safe I R (f a)) → safe I R (or_fatal what m f).
Proof.
  intros Hm Hf s Hs. destruct (Hm s Hs) as (Hs' & Hp & Hr). unfold or_fatal.
  destruct (m s) as [s' [a|e|]]; simpl in *; [|done|done].
  destruct (Hf a s' Hs') as (? & ? & ?). split_and!; [done|done|]. by etrans.
Qed.

Lemma sv_main_store_file : (flag_chunkSize flags ≤ maxAlloc)%Z → keeps_sv (main_store_file Quote env flags).
Proof.
  intros Hc. unfold main_store_file. case_bool_decide.
  - apply or_fatal_safe; [apply _|by apply sv_StoreFileLocalAndAnnounce|intros; apply sv_ret].
  - apply or_fatal_safe; [apply _| |intros params].
    + apply sv_lift. apply parse_no_panic.
    + apply or_fatal_safe; [apply _|by apply sv_StoreFileWithEC|intros; apply sv_ret].
Qed.

Lemma sw_main_download : keeps_sw (main_download env flags).
Proof.
  unfold main_download. case_bool_decide; [by intros sw Hs|].
  apply or_fatal_safe; [apply _| |intros root].
  { intros sw Hs. split_and!; [done|apply ChunkIDFromHex_no_panic|done]. }
  assert (Hfall : ∀ addr, keeps_sw (or_fatal "[download] fallback download error"
    (DownloadFileFromProvider root addr (env_Create env (downloadOut flags))) (λ _, mret Serving))).
  { intros addr. apply or_fatal_safe; [apply _|by apply sw_DownloadFileFromProvider|by intros _ sw Hs]. }
  intros sw Hs. destruct (sw_DownloadFile root (env_Create env (downloadOut flags)) (create_no_panic _) sw Hs)
    as (Hs' & Hp & Hr).
  destruct (DownloadFile root _ sw) as [sw' [a|e|]]; [done| |done]. case_bool_decide; [done|].
  match goal with |- context [DownloadFileFromProvider root ?a] => destruct (Hfall a sw' Hs') as (? & ? & ?) end.
  split_and!; [done|done|]. by etrans.
Qed.

(** What [main] does with a file: errors are fatal, so there is an exit. *)
Lemma or_fatal_exit {T A} what (m : M T A) f s e :
  (∀ a s, (f a s).2 ≠ Err e) → (or_fatal what m f s).2 ≠ Err e.
Proof. intros Hf. unfold or_fatal. destruct (m s) as [s' [a|e'|]]; [apply Hf|done..]. Qed.

Definition main_files : M (SV * writer) exit :=
  if negb (bool_decide (storeFile flags = "")) then on_sv (main_store_file Quote env flags)
  else if negb (bool_decide (downloadRoot flags = "")) then main_download env flags
  else mret Serving.

Lemma main_files_exit sw e : (main_files sw).2 ≠ Err e.
Proof.
  unfold main_files. destruct (negb _).
  { unfold on_sv. enough ((main_store_file Quote env flags sw.1).2 ≠ Err e) by (by destruct (main_store_file _ _ _ _)).
    unfold main_store_file. case_bool_decide; [by apply or_fatal_exit|].
    apply or_fatal_exit. intros params s. by apply or_fatal_exit. }
  destruct (negb _); [|done]. unfold main_download. case_bool_decide; [done|].
  apply or_fatal_exit. intros root sw1. destruct (DownloadFile root _ sw1) as [sw2 [[]|e'|]]; [done| |done].
  case_bool_decide; [done|]. by apply or_fatal_exit.
Qed.

Lemma sw_main_files : storeFile flags = "" ∨ (flag_chunkSize flags ≤ maxAlloc)%Z → keeps_sw main_files.
Proof.
  intros Hc. unfold main_files. case_bool_decide as Hf; cbn [negb].
  - destruct (negb _); [apply sw_main_download|by intros sw Hs].
  - apply sw_on_sv, sv_main_store_file. by destruct Hc.
Qed.

(** A file is to be stored in pieces for which there is no buffer. *)
Lemma main_files_panic (sw : SV * writer) :
  storeFile flags ≠ "" → (maxAlloc < flag_chunkSize flags)%Z → has_store (s_node sw.1) = true →
  is_ok (env_Open env (storeFile flags)) = true →
  ecSpec flags = "" ∨ is_ok (parseECParams Quote (ecSpec flags)) = true →
  (main_files sw).2 = Panic.
Proof.
  destruct sw as [s out]. cbn [fst]. intros Hf Hc Hst Hopen Hec. unfold main_files, on_sv, main_store_file.
  rewrite bool_decide_eq_false_2 by done. cbn [negb fst snd]. unfold has_store in Hst.
  destruct (n_store (s_node s)) as [st|] eqn:E; [|done].
  destruct (env_Open env (storeFile flags)) as [f| |]; [|done..]. case_bool_decide as He.
  - unfold or_fatal, StoreFileLocalAndAnnounce, mbind, M_bind, the_service. rewrite E.
    unfold wrap_errM, on_chunks, on_node. rewrite E.
    pose proof (proj2 (StoreFileWithMerkle_panic f (flag_chunkSize flags) st) Hc).
    destruct (StoreFileWithMerkle _ _ _) as [st' r]. simpl in *. by subst r.
  - destruct Hec as [?|Hec]; [done|]. unfold or_fatal at 1, lift.
    destruct (parseECParams Quote (ecSpec flags)) as [params| |] eqn:Hp; [|done..]. apply parse_valid in Hp.
    unfold or_fatal, StoreFileWithEC, mbind, M_bind, the_service. rewrite E.
    assert (0 < maxAlloc)%Z by done. rewrite (proj2 (Z.leb_gt _ _)) by lia.
    unfold wrap_errM, lift. rewrite Hp. cbn [wrap_err]. unfold on_chunks, on_node. rewrite E.
    unfold BuildECFileMetaFromReader. rewrite (proj2 (Z.leb_gt _ _)) by lia. rewrite Hp. cbn [wrap_err].
    rewrite make_bytes_spec, (proj2 (Z.leb_gt _ _)) by lia. done.
Qed.
End FilesSafe.

(** ** Properties *)

(** C2: what takes the command down. Given a transport whose [Send] and
    [Dial] return, a random source that does not fail ([MustRandomID] panics
    when it does) and files that can be opened or not, [main_service] ends as
    [main] means to, serving, done or with a fatal error, whatever arrives from
    the network, whatever the command line says and whichever system calls on
    the chunk store fail, and leaves a node whose routing table, store, provider
    records and metadata are correct and whose identity is what it was; with one
    exception, [-store-file] with a [-chunk-size] for which there is no buffer:
    the process panics then, in [make], whenever the node has a store, the file
    can be opened and [-ec] is absent or valid. The read loop and the requests
    are serialised here; Pending.v has their interleaving. *)
Theorem main_service_safe {S N} `{ChunkStoreSpec S} `{SortSlice} `{MessageCodec} `{Network N}
    `{MapOrder} `{RSSafe} Quote (Dial : string → M N unit) env flags selfID (s s' : Service S N) out out' r :
  (∀ addr payload net, (net_send addr payload net).2 ≠ Panic) → (∀ addr net, (Dial addr net).2 ≠ Panic) →
  (∀ net, is_ok (net_rand net).2 = true) →
  (∀ path, env_Open env path ≠ Panic) → (∀ path, env_Create env path ≠ Panic) →
  service_ok s →
  main_service Quote Dial env flags selfID (s, out) = ((s', out'), r) →
  (storeFile flags = "" ∨ (flag_chunkSize flags ≤ maxAlloc)%Z →
     (∃ x, r = Ok x) ∧
     service_ok s' ∧ n_id (s_node s') = n_id (s_node s) ∧ n_addr (s_node s') = n_addr (s_node s)) ∧
  (storeFile flags ≠ "" → (maxAlloc < flag_chunkSize flags)%Z →
     has_store (s_node s) = true → is_ok (env_Open env (storeFile flags)) = true →
     ecSpec flags = "" ∨ is_ok (parseECParams Quote (ecSpec flags)) = true →
     r = Panic).
Proof.
  intros Hsend Hd Hrand Ho Hc Hs Hm. assert (NetworkSafe N) as Hsafe by (split; [exact Hsend|exact Hrand]).
  destruct (sure_main_prologue Dial flags Hd selfID s Hs) as (Hok & Hs1 & Hsame).
  change (main_service Quote Dial env flags selfID)
    with (on_sv (main_prologue Dial flags selfID) ≫= λ _, main_files Quote env flags) in Hm.
  unfold mbind, M_bind, on_sv in Hm. cbn [fst snd] in Hm.
  destruct (main_prologue Dial flags selfID s) as [s1 [[]|e|]]; [|done..]. cbn [fst snd] in *.
  split.
  - intros Hsize. destruct (sw_main_files Quote Dial env flags Hd Ho Hc Hsize (s1, out) Hs1) as (Hs' & Hp & Hsame').
    pose proof (main_files_exit Quote Dial env flags Hd Ho Hc (s1, out)) as He. rewrite Hm in *.
    destruct r as [x|e|]; [|by destruct (He e)|done]. split; [by eexists|]. split; [done|].
    assert (same_service s s') as (? & ? & _) by (by transitivity s1). done.
  - intros Hf Hsize Hst Hopen Hec. destruct Hsame as (_ & _ & Hsame).
    pose proof (main_files_panic Quote Dial env flags Hd Ho Hc (s1, out) Hf Hsize) as Hp. rewrite Hm in Hp.
    apply Hp; [|done..]. cbn [fst]. by rewrite Hsame.
Qed.

(** ** Witness: a node that looks up its peer and stores an empty file *)

Definition sample_flags : Flags := {|
  listenAddr := "127.0.0.1:4101"; bootstrapStr := "127.0.0.1:4102"; lookupIDStr := "00";
  storeTo := ""; storeData := ""; fetchFrom := ""; fetchChunkID := "";
  storeFile := "empty.txt"; flag_chunkSize := 262144;
  downloadRoot := ""; downloadOut := ""; ecSpec := "2+1" |}.

Definition sample_env : Env := {|
  env_Open _ := Ok [([], Some EEOF)]; env_Base := id; env_Create _ := Ok (Writer [] []) |}.

(** The same file in pieces of 2^60 bytes. *)
Definition huge_flags : Flags := {|
  listenAddr := "127.0.0.1:4101"; bootstrapStr := ""; lookupIDStr := "";
  storeTo := ""; storeData := ""; fetchFrom := ""; fetchChunkID := "";
  storeFile := "empty.txt"; flag_chunkSize := 2 ^ 60;
  downloadRoot := ""; downloadOut := ""; ecSpec := "2+1" |}.

Lemma main_service_safe_witness :
  (∃ x, (main_service id (λ _ net, (net, Ok tt)) sample_env sample_flags (tiny_id x01)
           (witness_service, Writer [] [])).2 = Ok x) ∧
  (main_service id (λ _ net, (net, Ok tt)) sample_env huge_flags (tiny_id x01)
     (witness_service, Writer [] [])).2 = Panic.
Proof.
  split.
  - destruct (main_service id (λ _ net, (net, Ok tt)) sample_env sample_flags (tiny_id x01)
      (witness_service, Writer [] [])) as [[s' out'] r] eqn:E.
    apply (main_service_safe id (λ _ net, (net, Ok tt)) sample_env sample_flags (tiny_id x01)
      witness_service s' (Writer [] []) out' r);
      [apply net_send_no_panic|done|done|done|done|apply witness_service_ok|exact E|right; by vm_compute].
  - destruct (main_service id (λ _ net, (net, Ok tt)) sample_env huge_flags (tiny_id x01)
      (witness_service, Writer [] [])) as [[s' out'] r] eqn:E.
    apply (main_service_safe id (λ _ net, (net, Ok tt)) sample_env huge_flags (tiny_id x01)
      witness_service s' (Writer [] []) out' r);
      [apply net_send_no_panic|done|done|done|done|apply witness_service_ok|exact E|done|by vm_compute|done|done|].
    right. by vm_compute.
Defined.
