(* ===== verification/Peer.v ===== *)
(** * Both ends of a connection

    A service downloads from an honest peer, which answers as [HandleRPC] does,
    and from a peer that answers under a root of its choice. Both directions
    pass through the frames of the codec, so that chunks have at most 2 MiB and
    metadata at most 15000 chunks. *)

From S2P Require Import Prelude Hex Text Sha256 ChunkId Merkle FileSys Store Reader Chunker FileMeta Erasure EcFile Id RoutingTable Message JsonValue Rfc3339 MessageJson Codec WireSize Node Service PeerNet Lookup Files Main Safety.
From stdpp Require Import list sorting options.

#[local] Arguments ID_String : simpl never.
#[local] Arguments ChunkID_String : simpl never.

Lemma len_pos {A} (l : list A) : (0 < len l)%Z → l ≠ [].
Proof. by intros Hl ->. Qed.

(** ** An honest peer *)

Section Honest.
Context {S T : Type} `{ChunkStore S} `{ChunkStore T} `{SortSlice} `{FrameSizes}.
Notation SV := (Service S (peer_net (Node T))).
#[local] Set Default Proof Using "Type*".

(** The service is connected to the node [n], listening on [addr]. *)
Record talks_to (s : SV) (n : Node T) (addr : string) : Prop := {
  talks_queue : p_queue (s_net s) = [];
  talks_state : p_state (s_net s) = n;
  talks_answer : p_answer (s_net s) = honest;
  talks_remote : p_remote (s_net s) = addr;
  talks_ascii : ascii_text (n_addr n) = true;
  talks_short : (len (text (n_addr n)) ≤ 255)%Z;
}.

Lemma after_talks s n addr : talks_to s n addr → talks_to (after s n) n addr.
Proof. by intros []. Qed.

(** Proves one condition of [plain] for the messages of a download. *)
Ltac plain_part :=
  first [ reflexivity | exact I | assumption | apply ascii_ChunkID | apply ascii_ID ].

Lemma short_ChunkID id : (len (text (ChunkID_String id)) ≤ 64)%Z.
Proof. unfold len. by rewrite length_text, length_ChunkID_String. Qed.

Lemma short_ID id : (len (text (ID_String id)) ≤ 64)%Z.
Proof. unfold len, ID_String. by rewrite length_text, length_Encode, length_vec_to_list. Qed.

Lemma texts_short m :
  (len (text (m_Type m)) ≤ 64 → len (text (m_ChunkID m)) ≤ 64 → len (text (m_FileRoot m)) ≤ 64 →
   len (text (m_NodeAddr m)) ≤ 255 → len (text (m_Error m)) ≤ 64 → len (text (m_RequestID m)) ≤ 64 →
   texts_len m ≤ 4096)%Z.
Proof. unfold texts_len. lia. Qed.

(** Proves that a message of a download is small. *)
Ltac short_part := first [ by vm_compute | assumption | apply short_ChunkID | apply short_ID ].
Ltac small_part := split; [done|]; split; [apply texts_short; short_part | assumption || done].

(** A chunk the peer has is fetched; the empty one is lost on the wire, and one
    of more than 2 MiB may not fit. *)
Lemma fetch_honest (s : SV) n addr id data :
  talks_to s n addr → GetLocalChunk id n = Ok data → data ≠ [] → (len data ≤ 2 ^ 21)%Z →
  FetchChunkRemote addr id s = (after s n, Ok data).
Proof.
  intros [Hq Hst Ha Hr Hascii Hshort] Hget Hne Hsize.
  unfold FetchChunkRemote, mbind, M_bind, the_service. rewrite <-Hr.
  set (k := ID_String (tick_id (p_tick (s_net s)))).
  assert (ascii_text k = true) as Hk by apply ascii_ID.
  set (resp := with_ChunkData data (with_ChunkID (ChunkID_String id)
    (with_RequestID k (response MsgChunkData (10 ^ 18)%Z n)))).
  erewrite (exchange_answered _ _ _ n resp).
  - unfold lift, fetch_chunk_response, response_of. simpl. f_equal.
    rewrite (bool_decide_eq_false_2 (ChunkID_String id = "")); [by destruct data|].
    intros E. apply (f_equal String.length) in E. by rewrite length_ChunkID_String in E.
  - done.
  - apply plain_intro; plain_part.
  - apply small_fits; [apply plain_intro; plain_part|small_part].
  - intros payload Hdec. rewrite Ha, Hst. unfold honest, HandleRPC. cbn [rpc_Payload]. rewrite Hdec.
    cbn [wrap_err]. rewrite (proj1 (proj2 (proj2 (dispatch _ _ _)))) by done.
    unfold handle_GetChunk, get_node, Node.ask, mbind, M_bind. cbn [wire m_ChunkID fetch_chunk_request
      with_ChunkID with_RequestID m_RequestID].
    unfold GetLocalChunk in *. destruct (n_store n) as [st|]; [|done].
    rewrite bool_decide_eq_false_2; [by rewrite ChunkIDFromHex_String, Hget|].
    intros E. apply (f_equal String.length) in E. by rewrite length_ChunkID_String in E.
  - apply plain_intro; plain_part.
  - apply small_fits; [apply plain_intro; plain_part|small_part].
  - done.
  - done.
Qed.

Lemma fetch_meta_honest (s : SV) n addr root meta :
  talks_to s n addr → getFileMeta (ChunkID_String root) n = Some meta → plain_meta meta = true →
  (len (fm_Chunks meta) ≤ 15000)%Z →
  FetchFileMetaFromProvider addr root s = (after s n, Ok meta).
Proof.
  intros [Hq Hst Ha Hr Hascii Hshort] Hget Hplain Hsize.
  unfold FetchFileMetaFromProvider, mbind, M_bind, the_service. rewrite <-Hr.
  set (k := ID_String (tick_id (p_tick (s_net s)))).
  assert (ascii_text k = true) as Hk by apply ascii_ID.
  set (resp := with_FileMeta meta (with_FileRoot (ChunkID_String root)
    (with_RequestID k (response MsgFileMeta (10 ^ 18)%Z n)))).
  erewrite (exchange_answered _ _ _ n resp); [done|done| | | | | |done|done].
  - apply plain_intro; plain_part.
  - apply small_fits; [apply plain_intro; plain_part|small_part].
  - intros payload Hdec. rewrite Ha, Hst. unfold honest, HandleRPC. cbn [rpc_Payload]. rewrite Hdec.
    cbn [wrap_err]. rewrite handle_message_GetFileMeta by done.
    unfold handle_GetFileMeta, get_node, Node.ask, mbind, M_bind. cbn [wire m_FileRoot file_meta_request
      with_FileRoot with_RequestID m_RequestID].
    rewrite bool_decide_eq_false_2; [by rewrite Hget|].
    intros E. apply (f_equal String.length) in E. by rewrite length_ChunkID_String in E.
  - apply plain_intro; plain_part.
  - apply small_fits; [apply plain_intro; plain_part|small_part].
Qed.

(** The peer can serve the data of every chunk. *)
Definition holds (n : Node T) (cm : ChunkMeta) (data : bytes) : Prop :=
  GetLocalChunk (cm_ID cm) n = Ok data ∧ data ≠ [] ∧ (len data ≤ 2 ^ 21)%Z ∧ verified cm data.

Lemma download_chunks_honest n addr chunks datas (s : SV) w :
  talks_to s n addr → Forall2 (holds n) chunks datas → faults w = [] →
  ∃ s', download_chunks addr chunks (s, w) = ((s', Writer (written w ++ mjoin datas) []), Ok tt).
Proof.
  intros Ht Hall. revert s w Ht. induction Hall as [|cm data chunks datas (Hget & Hne & Hsize & Hv) Hall IH];
    intros s w Ht Hw.
  { exists s. destruct w; simpl in *; subst. by rewrite app_nil_r. }
  cbn [download_chunks]. unfold mbind, M_bind, wrap_errM, on_sv. cbn [fst snd].
  rewrite (fetch_honest s n addr (cm_ID cm) data Ht Hget Hne Hsize). cbn [wrap_err].
  unfold ChunkID_Equal. rewrite bool_decide_eq_true_2 by exact Hv. cbn [negb].
  unfold on_file, Write. cbn [fst snd]. rewrite Hw. cbn [wrap_err].
  destruct (IH (after s n) (Writer (written w ++ data) [])) as [s' Hs'];
    [by apply after_talks|done|].
  unfold mbind, M_bind in Hs'. exists s'. rewrite Hs'. simpl. by rewrite <-app_assoc.
Qed.

Lemma download_honest n addr root meta datas (s : SV) w fresh :
  talks_to s n addr → getFileMeta (ChunkID_String root) n = Some meta → plain_meta meta = true →
  (len (fm_Chunks meta) ≤ 15000)%Z → Forall2 (holds n) (fm_Chunks meta) datas → fresh = Writer [] [] →
  ∃ s', DownloadFileFromProvider root addr (Ok fresh) (s, w)
        = ((s', Writer (mjoin datas) []), Ok tt).
Proof.
  intros Ht Hmeta Hplain Hsize Hall ->. unfold DownloadFileFromProvider, mbind, M_bind, wrap_errM, on_sv.
  cbn [fst snd]. rewrite (fetch_meta_honest s n addr root meta Ht Hmeta Hplain Hsize). cbn [wrap_err].
  unfold lift, on_file. cbn [fst snd wrap_err].
  destruct (download_chunks_honest n addr (fm_Chunks meta) datas (after s n) (Writer [] []))
    as [s' Hs']; [by apply after_talks|done|done|].
  exists s'. exact Hs'.
Qed.
End Honest.

(** ** Sharing a file *)

Section Shared.
Context {T : Type} `{ChunkStoreSpec T}.

(** What [describes] and the absence of clashes give: the peer serves the
    pieces themselves. *)
Lemma pieces_held (n : Node T) (st : T) metas ps :
  n_store n = Some st → store_ok st → healthy st →
  Forall2 (describes st) metas ps → Forall (λ p, 0 < len p ≤ 2 ^ 21)%Z ps →
  (∀ p c, p ∈ ps → view st (NewChunkID p) = Some c → c = p) →
  Forall2 (holds n) metas ps.
Proof.
  intros Hst Hok Hh Hdesc Hne Hclash.
  induction Hdesc as [|cm p metas ps (Hid & _ & c & Hget & _) Hdesc IH]; [constructor|].
  apply List.Forall_cons_iff in Hne as [Hp Hne]. apply List.Forall2_cons.
  - split_and!; [|apply len_pos; lia|lia|unfold verified; by rewrite Hid]. unfold GetLocalChunk. rewrite Hst, Hget. f_equal.
    apply get_ok in Hget; [|done]. rewrite Hid in Hget. by apply Hclash; [left|].
  - apply IH; [done|]. intros p' c' Hin. apply Hclash. by right.
Qed.
End Shared.

Lemma int_ok_nat n : (Z.of_nat n < 2 ^ 63)%Z → int_ok (Z.of_nat n) = true.
Proof. intros Hn. unfold int_ok. rewrite (proj2 (Z.leb_le _ _)), (proj2 (Z.ltb_lt _ _)) by lia. done. Qed.

(** The metadata of the pieces of a file fit the integers of the message. *)
Lemma piece_metas_plain ps :
  (Z.of_nat (length (mjoin ps)) < 2 ^ 63)%Z → Forall (λ p, 0 < length p) ps →
  forallb plain_chunk (piece_metas 0 ps) = true.
Proof.
  intros Hlt Hpos. rewrite forallb_forall. intros cm Hcm. apply list_elem_of_In in Hcm.
  unfold piece_metas in Hcm. apply list_elem_of_lookup in Hcm as [i Hi].
  rewrite list_lookup_imap in Hi. destruct (ps !! i) as [p|] eqn:Hp; [|done]. injection Hi as <-.
  assert (i < length ps ≤ length (mjoin ps) ∧ length p ≤ length (mjoin ps)) as [[Hi Hl] Hpl].
  { split; [split; [by eapply lookup_lt_Some|]|].
    - clear Hlt Hp. induction Hpos as [|q ps Hq Hps IH]; [done|]. simpl. rewrite length_app. simpl in *. lia.
    - clear Hlt Hpos. revert i Hp. induction ps as [|q ps IH]; intros [|i]; [done..| |]; simpl; rewrite length_app.
      + intros [= ->]. lia.
      + intros Hp. specialize (IH i Hp). lia. }
  unfold plain_chunk. cbn [cm_Index cm_Size]. rewrite Z.add_0_l, !int_ok_nat by lia. done.
Qed.

(** A peer that serves the pieces [ps] as the file [root], whatever [root] is. *)
Definition serving (root : ChunkID) (ps : list bytes) : Node FSChunkStore :=
  MkNode zero_ID (NewRoutingTable zero_ID) (Some (store_of ps)) "" ∅
    {[ChunkID_String root := FM root ((λ p, CM 0 (NewChunkID p) 0) <$> ps) 0]}.

Lemma download_serving {S} `{ChunkStore S} `{SortSlice} `{FrameSizes} (node : Node S) root ps w :
  Forall (λ p, 0 < len p ≤ 2 ^ 21)%Z ps → (len ps ≤ 15000)%Z →
  (∀ p c, p ∈ ps → c ∈ ps → NewChunkID c = NewChunkID p → c = p) →
  ∃ s', DownloadFileFromProvider root "b" (Ok (Writer [] []))
          (Svc node (PeerNet "a" "b" (serving root ps) honest [] 0) ∅ ∅, w)
        = ((s', Writer (mjoin ps) []), Ok tt).
Proof.
  intros Hne Hnum Hclash.
  apply (download_honest (serving root ps) "b" root (FM root ((λ p, CM 0 (NewChunkID p) 0) <$> ps) 0) ps);
    [by split| | | | |done].
  - unfold getFileMeta. apply lookup_singleton_eq.
  - unfold plain_meta. apply andb_true_iff. split; [|done]. cbn [fm_Chunks]. rewrite forallb_forall.
    intros cm Hcm. apply list_elem_of_In, list_elem_of_fmap in Hcm as (p & -> & _). done.
  - cbn [fm_Chunks]. unfold len in *. by rewrite length_fmap.
  - cbn [fm_Chunks]. apply Forall2_fmap_l, Forall2_same_length_lookup_2; [done|].
    intros i p p' Hp Hp'. rewrite Hp in Hp'. injection Hp' as <-.
    pose proof (list_elem_of_lookup_2 _ _ _ Hp) as Hin.
    destruct (proj1 (Forall_forall _ _) Hne p Hin) as [Hpos Hsize].
    split_and!; [|by apply len_pos|done|done].
    unfold GetLocalChunk. cbn [n_store serving cm_ID]. apply store_of_get; [done|].
    intros c Hc Heq. by apply (Hclash p c).
Qed.

(** ** Properties *)

(** C1: a file stored on one node can be downloaded by another: when a node
    with a working store runs [StoreFileWithMerkle] on a non-empty file, in at
    most 15000 pieces of at most 2 MiB, and registers the metadata, then every
    service connected to it downloads, by the root alone, exactly the bytes of
    the file, without error, every message passing through the frames of the
    codec; provided no content of that store has the SHA-256 of a different
    piece of the file, and that the connection stays up and brings nothing else
    meanwhile ([talks_to]). The two bounds are what a
    frame of [MaxMessageSize] bytes is sure to hold of data and of metadata. *)
Theorem file_shared {S T} `{ChunkStore S} `{ChunkStoreSpec T} `{SortSlice} `{FrameSizes}
    (n : Node T) (st : T) r chunkSize addr
    (ps := pieces (Z.to_nat (effective_size chunkSize)) (stream r)) :
  well_behaved r → stream r ≠ [] → (effective_size chunkSize ≤ 2 ^ 21)%Z → (len ps ≤ 15000)%Z →
  store_ok st → healthy st →
  (∀ p c, p ∈ ps → view st (NewChunkID p) = Some c ∨ c ∈ ps → NewChunkID c = NewChunkID p → c = p) →
  ∃ st' meta, StoreFileWithMerkle (Ok r) chunkSize (Some st) = (Some st', Ok meta) ∧
    tree_root (NewChunkID <$> ps) (fm_Root meta) ∧
    ∀ (s : Service S (peer_net (Node T))) w,
      talks_to s (addFileMeta (Some meta) (SetStore (Some st') n)) addr →
      ∃ s', DownloadFileFromProvider (fm_Root meta) addr (Ok (Writer [] [])) (s, w)
            = ((s', Writer (stream r) []), Ok tt).
Proof.
  intros Hwb Hne Hsize Hnum Hok Hh Hclash. pose proof (effective_size_pos chunkSize) as Hpos.
  pose proof (pieces_total (Z.to_nat (effective_size chunkSize)) (stream r) ltac:(lia)) as Hlt.
  fold ps in Hlt. unfold len in Hnum.
  assert (Z.of_nat (length (stream r)) < 2 ^ 63)%Z as Hlen by nia.
  destruct (BuildFileMeta_stores st r (effective_size chunkSize) Hwb Hne Hlen)
    as (st' & root & Hps & Hok' & Hh' & Hbuild & Htree & Hdesc & Hjoin); [|done|done|].
  { rewrite effective_size_idem. unfold maxAlloc. lia. }
  rewrite effective_size_idem in *. fold ps in Hps, Hbuild, Htree, Hdesc, Hjoin.
  assert (Forall (λ p, 0 < len p ≤ 2 ^ 21)%Z ps) as Hpieces.
  { apply Forall_forall. intros p Hp. apply pieces_length in Hp; unfold len; lia. }
  eexists st', _. split; [exact Hbuild|]. split; [exact Htree|]. intros s w Ht.
  rewrite <-Hjoin. eapply download_honest; [exact Ht| | | | |done].
  - unfold getFileMeta, addFileMeta. cbn [n_fileMeta fm_Root]. apply lookup_insert_eq.
  - unfold plain_meta. cbn [fm_Chunks fm_Size]. rewrite piece_metas_plain; [|by rewrite Hjoin|].
    + cbn [andb]. apply int_ok_nat. exact Hlen.
    + eapply Forall_impl; [exact Hpieces|]. unfold len. intros p Hp. simpl in Hp. lia.
  - cbn [fm_Chunks]. unfold len, piece_metas. by rewrite length_imap.
  - cbn [fm_Chunks]. eapply pieces_held; [reflexivity|exact Hok'|exact Hh'|exact Hdesc|exact Hpieces|].
    intros p c Hp Hv. apply Hclash; [done| |by eapply view_addr in Hv].
    by apply (store_pieces_source _ _ _ _ _ _ _ _ Hok Hps Hv).
Qed.

(** C33: the root is not verified: for every root and every contents cut in at
    most 15000 non-empty pieces of at most 2 MiB, which the frames hold, and
    without collisions there is a provider from which
    [DownloadFileFromProvider] downloads those contents under that root and
    reports success; the hash tree of the chunk identifiers is never
    recomputed. *)
Theorem download_root_unverified {S} `{ChunkStore S} `{SortSlice} `{FrameSizes}
    (node : Node S) root ps w :
  Forall (λ p, 0 < len p ≤ 2 ^ 21)%Z ps → (len ps ≤ 15000)%Z →
  (∀ p c, p ∈ ps → c ∈ ps → NewChunkID c = NewChunkID p → c = p) →
  ∃ net : peer_net (Node FSChunkStore), ∃ s',
    DownloadFileFromProvider root (p_remote net) (Ok (Writer [] []))
      (Svc node net ∅ ∅, w) = ((s', Writer (mjoin ps) []), Ok tt).
Proof.
  intros Hne Hnum Hclash. exists (PeerNet "a" "b" (serving root ps) honest [] 0).
  by apply download_serving.
Qed.

(** ** Witnesses: a file of two chunks *)

(** Different one-byte pieces have different identifiers. *)
Lemma sample_pieces_clash p c :
  p ∈ [[x61]; [x62]] → c ∈ [[x61]; [x62]] → NewChunkID c = NewChunkID p → c = p.
Proof.
  intros [->|[->|[]%not_elem_of_nil]%elem_of_cons]%elem_of_cons
    [->|[->|[]%not_elem_of_nil]%elem_of_cons]%elem_of_cons Heq; try reflexivity; exfalso;
    apply (f_equal ChunkID_String) in Heq; vm_compute in Heq; discriminate.
Qed.

Lemma file_shared_witness :
  ∃ st' meta s',
    StoreFileWithMerkle (Ok [([x61; x62], None)]) 1 (Some empty_store) = (Some st', Ok meta) ∧
    DownloadFileFromProvider (fm_Root meta) "127.0.0.1:4102" (Ok (Writer [] []))
      (Svc witness_node (PeerNet "127.0.0.1:4101" "127.0.0.1:4102"
         (addFileMeta (Some meta) (SetStore (Some st') other_node)) honest [] 0) ∅ ∅, Writer [] [])
    = ((s', Writer [x61; x62] []), Ok tt).
Proof.
  destruct (file_shared other_node empty_store [([x61; x62], None)] 1 "127.0.0.1:4102")
    as (st' & meta & H1 & _ & H2);
    [by left|discriminate|by vm_compute|by vm_compute|apply empty_store_ok|apply empty_store_healthy| |].
  - intros p c Hp [Hv|Hc] Heq.
    + exfalso. change (FS_view empty_store (NewChunkID p) = Some c) in Hv.
      by rewrite empty_store_view in Hv.
    + exact (sample_pieces_clash p c Hp Hc Heq).
  - destruct (H2 (Svc witness_node (PeerNet "127.0.0.1:4101" "127.0.0.1:4102"
         (addFileMeta (Some meta) (SetStore (Some st') other_node)) honest [] 0) ∅ ∅) (Writer [] []))
      as [s' Hs']; [by split|].
    exists st', meta, s'. split; [exact H1|exact Hs'].
Defined.

(** The two bytes are served under the zero root. *)
Lemma download_root_unverified_witness :
  ∃ (net : peer_net (Node FSChunkStore)) s',
    DownloadFileFromProvider (copy_array 32 []) (p_remote net) (Ok (Writer [] []))
      (Svc witness_node net ∅ ∅, Writer [] []) = ((s', Writer [x61; x62] []), Ok tt).
Proof.
  destruct (download_root_unverified witness_node (copy_array 32 []) [[x61]; [x62]] (Writer [] []))
    as (net & s' & Hd); [by repeat constructor|by vm_compute|exact sample_pieces_clash|].
  exists net, s'. exact Hd.
Defined.

Lemma download_verified_witness :
  ∃ s' w' meta datas,
    DownloadFileFromProvider (copy_array 32 []) "b" (Ok (Writer [] []))
      (Svc witness_node (PeerNet "a" "b" (serving (copy_array 32 []) [[x61]; [x62]]) honest [] 0) ∅ ∅,
       Writer [] []) = ((s', w'), Ok tt) ∧
    length datas = length (fm_Chunks meta) ∧ written w' = mjoin datas.
Proof.
  destruct (download_serving witness_node (copy_array 32 []) [[x61]; [x62]] (Writer [] []))
    as [s' Hd]; [by repeat constructor|by vm_compute|exact sample_pieces_clash|].
  destruct (download_verified _ _ _ _ _ _ _ _ Hd) as [(_ & H & _)|(meta & datas & _ & _ & _ & H)];
    [discriminate H|].
  destruct (H eq_refl) as [H1 H2]. exists s', (Writer (mjoin [[x61]; [x62]]) []), meta, datas. split; [exact Hd|]. split; [exact H1|exact H2].
Defined.

(** ** Witness: two commands

    A node that knows nobody stores a file of two bytes and is gone; another
    one downloads them from its first bootstrap peer and serves. *)

Definition no_flags : Flags := {|
  listenAddr := "127.0.0.1:4101"; bootstrapStr := ""; lookupIDStr := "";
  storeTo := ""; storeData := ""; fetchFrom := ""; fetchChunkID := "";
  storeFile := ""; flag_chunkSize := 262144;
  downloadRoot := ""; downloadOut := ""; ecSpec := "" |}.

Definition store_flags : Flags := {|
  listenAddr := "127.0.0.1:4101"; bootstrapStr := ""; lookupIDStr := "";
  storeTo := ""; storeData := ""; fetchFrom := ""; fetchChunkID := "";
  storeFile := "ab.txt"; flag_chunkSize := 262144;
  downloadRoot := ""; downloadOut := ""; ecSpec := "" |}.

Definition download_flags : Flags := {|
  listenAddr := "127.0.0.1:4101"; bootstrapStr := "127.0.0.1:4102, c"; lookupIDStr := "";
  storeTo := ""; storeData := ""; fetchFrom := ""; fetchChunkID := "";
  storeFile := ""; flag_chunkSize := 262144;
  downloadRoot := ChunkID_String (copy_array 32 []); downloadOut := "ab.txt"; ecSpec := "" |}.

Definition command_env : Env := {|
  env_Open _ := Ok [([x61; x62], Some EEOF)]; env_Base := id; env_Create _ := Ok (Writer [] []) |}.

(** The service, connected to a peer with the two bytes under the zero root. *)
Definition command_service : Service FSChunkStore (peer_net (Node FSChunkStore)) :=
  NewService (tiny_id x01)
    (PeerNet "127.0.0.1:4101" "127.0.0.1:4102" (serving (copy_array 32 []) [[x61]; [x62]]) honest [] 0)
    (Some empty_store).

Definition command_run (flags : Flags) :=
  main_service id (λ _ net, (net, Ok tt)) command_env flags (tiny_id x01) (command_service, Writer [] []).

Definition command_start (flags : Flags) :=
  (main_prologue (λ _ net, (net, Ok tt)) flags (tiny_id x01) command_service).1.

Lemma main_outcome_witness :
  (∃ x, (command_run store_flags).2 = Ok x ∧ x ≠ Serving) ∧
  (∃ x, (command_run no_flags).2 = Ok x ∧ x = Serving) ∧
  (command_run download_flags).2 = Ok Serving ∧
  download_complete command_env download_flags (command_start download_flags) (Writer [] []) [x61; x62].
Proof.
  assert (∀ flags w, env_Create command_env (downloadOut flags) = Ok w → written w = []) as Hempty
    by (by intros flags w [= <-]).
  split_and!.
  - destruct (command_run store_flags) as [[s' out'] r] eqn:E.
    assert (is_ok r = true) as Hr by (change r with ((s', out'), r).2; rewrite <-E; by vm_compute).
    destruct r as [x| |]; [|done..]. exists x. split; [done|].
    destruct (main_outcome id _ command_env store_flags _ _ s' _ out' x (Hempty store_flags) E) as (H & _ & _).
    by apply H.
  - destruct (command_run no_flags) as [[s' out'] r] eqn:E.
    assert (is_ok r = true) as Hr by (change r with ((s', out'), r).2; rewrite <-E; by vm_compute).
    destruct r as [x| |]; [|done..]. exists x. split; [done|].
    destruct (main_outcome id _ command_env no_flags _ _ s' _ out' x (Hempty no_flags) E) as (_ & H & _).
    by apply H.
  - by vm_compute.
  - destruct (command_run download_flags) as [[s' out'] r] eqn:E.
    assert (r = Ok Serving) as -> by (change r with ((s', out'), r).2; rewrite <-E; by vm_compute).
    assert (written out' = [x61; x62]) as <-
      by (change (written (s', out', @Ok exit Serving).1.2 = [x61; x62]); rewrite <-E; by vm_compute).
    destruct (main_outcome id _ command_env download_flags _ _ s' _ out' _ (Hempty download_flags) E) as (_ & _ & H).
    by destruct H as [[_ H]|[e H]].
Defined.
